(* ===== verification/_CoqProject ===== *)
-Q . S2P
Prelude.v
TextFacts.v
Net.v
NetFacts.v
Codec.v
Errors.v
Endpoint.v
Runtime.v
Socks5.v
Provider.v
Contract.v
WgSpec.v
WgWire.v
WgLink.v
WgStack.v
WgSockets.v
WgTurns.v
WgTransport.v
WgResolve.v
WgDns.v
WgPump.v
WgSlots.v
WgClaims.v
WgSignal.v
WgTimer.v
WgStop.v
WgProvider.v
WgLeaks.v
WgNested.v
WgFront.v
Http3Spec.v
Http3Stream.v
Http3Tasks.v
Http3.v
Http3Signal.v
Ssh.v
Secrets.v
Families.v
Registry.v
Service.v
Process.v
Tunnels.v
