(* ===== verification/Prelude.v ===== *)
(** * Verification of the proxy-tunnels engine

    proxy-tunnels is an in-process tunnel engine.  A host application names a
    tunnel by a configuration id and a revision; the engine gives it a SOCKS5
    front on loopback, and carries each connection made to that front through
    an SSH server, a userspace WireGuard tunnel or an HTTP/3 CONNECT proxy.

    ** The parts and how they interact

<<
    application --ensure/stop--> registry (registry.rs)
                                    | one per id
                                    v
    client --SOCKS5--> front (socks5.rs) --dial--> provider (provider.rs)
                                                    |        |        |
                                                ssh.rs  wireguard/  http3/
>>

    The registry keeps one front per id and restarts it when its revision
    changes.  A front authenticates each client, asks its provider for a
    connection to the destination, and pumps bytes.  A provider opens its
    session on first use and replaces it when it fails.  The WireGuard provider
    owns a network stack (smoltcp) driven by a pump, with sockets that are
    handles into it; the stack and the WireGuard engine exchange packets through
    two bounded channels.  The HTTP/3 provider shares QUIC sessions between
    streams.

    ** Which file models which source

    - [Prelude], [TextFacts]: results and polls, machine integers, text, the
      tactics, and the lemmas the components share.
    - [Net], [NetFacts]: [std::net] addresses, printing, parsing and their
      round trip.  [Codec]: base64, as laws.  [Runtime]: tokio's semaphore and
      channel, as type classes [Semaphore] and [Channel].
    - [Errors]: [error.rs] and the observer's calls; [Provider]: the SSH
      specification of [provider.rs]; [Contract]: its trait [TunnelProvider] as
      a class of operations with the laws of [shutdown], and the front behind
      any provider that meets them; [Families]: the three instances.
    - [Socks5]: [socks5.rs].  [negotiate], [handle_connection] and [pump] run
      over a [Conn]; [serve_step] is the accept loop.
    - [Registry]: [registry.rs]; [Tunnels]: its three families; [Service]: what
      it promises its callers, as a map, and the refinement; [Process]: the
      registry, its runtime and the process-wide instance, composed with the
      fronts it spawns ([process_step]).
    - [Ssh]: [ssh.rs].  [connect], [dial], [retire], [shutdown], [handshake];
      [ssh_step] interleaves calls at the points where the session lock is free.
    - [WgSpec]: [wireguard/spec.rs].  [WgWire]: MTU, probe packet and checksum
      of [wireguard/mod.rs].  [WgLink]: [adapter.rs] and [phy.rs].
    - [WgStack]: [stack.rs] without names and sockets; [WgSockets]: [tcp.rs],
      [udp.rs] and the socket entry points of [stack.rs]; [WgResolve]: the
      names of [stack.rs]; [WgSlots]: the ownership of sockets across all of
      them, with [socket_step] their interleaving; [WgClaims]: [claim_socket]
      split at its atomic accesses, interleaved with all of that
      ([claims_step]); [WgTimer]: the same with time, the pump's sleep and its
      timer ([timed_step]); [WgSignal]: the signal that a slot is free;
      [WgStop]: [StackShared::stop] and [wait_stopped] step by step, interleaved
      with the calls that wait on the stack ([stop_step]); [WgTurns]:
      the locks of [udp.rs] that admit one waiter per direction; [WgDns]:
      lookups that run at once, with the resolver's semaphore and their guards
      ([lookup_step]); [WgPump]: the pump interleaved with the operations that
      ring it ([pump_step]).
    - [Endpoint]: [endpoint.rs], with the trait [DatagramSocket] as a class and
      its laws; [WgTransport]: [wireguard/transport.rs], the sockets of
      [udp.rs] as an instance of that class, and the options of a provider.
    - [WgProvider]: the provider of [wireguard/mod.rs]; [wg_step] interleaves
      its calls, those dropped in the middle of a bring-up included.
      [WgLeaks]: what is left of them; [WgFront]: the provider behind a front;
      [WgNested]: a provider carried by another, with the bring-ups of the inner
      one and the calls they make on the outer one interleaved ([nested_step]).
    - [Http3Spec], [Http3Stream], [Http3]: [http3/spec.rs], [http3/stream.rs],
      [http3/mod.rs]; [http3_step] interleaves the provider's calls, and
      [Http3Signal] adds the signal of a dropped session ([signal_step]);
      [Http3Tasks] is a session with the writer tasks of its streams, which its
      stop takes under the lock that openings register them under
      ([session_step]).
    - [Secrets]: two runs with different keys, for [Ssh] and [WgProvider].

    Shared mutable state is explicit state passing; a lock's critical section
    is one function.  A call that would wait returns [Pending] or is split at its
    wait, and other calls run there.  Where a call passes through several
    critical sections or atomic accesses without waiting, [WgClaims], [WgStop],
    [WgDns], [Http3Tasks] and [Http3Signal] split it there as well; elsewhere it
    is one step of the relation: the socket operations of [WgSlots], for one,
    run a whole [claim_socket], and [WgClaims] shows that their account of the
    slots survives the split.  What the outside world answers is an argument: an oracle
    indexed by the attempt it answers, or part of the step.  Libraries the crate
    calls (smoltcp, gotatun, russh, h3, quinn, base64, the http crate) are
    parameters; laws that a theorem needs of them are hypotheses or type
    classes, each with an instance that satisfies them.

    ** What the theorems show

    - Only an authenticated client reaches a provider: [negotiate_sound],
      [dial_requires_authentication], [negotiate_complete]; each connection
      makes one dial, one observation and one reply, and waits without a
      bound only for its peer to take the reply and in the relay
      ([handle_connection_outcome]); admission is bounded
      ([admission_bounded]).
    - No accept loop outlives its registry entry: [registry_no_orphans],
      [ensure_tunnel_outcome], [stopping_exact], [tunnel_entries_match]; the
      registry refines its specification ([registry_refines_service]); with
      its fronts, stopping a tunnel ends its connections and gives their permits
      back ([stopping_ends_connections]); the process-wide instance is decided
      once ([shared_decided_once]).
    - Each of the three providers, through the contract it meets, serves nobody
      once it is shut down ([shut_tunnels_serve_nobody]).
    - SSH trusts one host key per life, sends credentials only to it, and stays
      down after shutdown: [ssh_trust_on_first_use], [ssh_effects_authorized],
      [ssh_dial_reconnects_once], [ssh_shutdown_final],
      [connect_returns_unless_held], [private_key_judged_alike],
      [unauthenticated_key_is_held].
    - Keys stay secret: providers that differ in their keys only have the same
      runs ([ssh_key_confidential], [wg_keys_confidential]).
    - WireGuard configuration and packets: [cidr_roundtrip],
      [cidr_from_str_valid], [validate_keys_pasted], [carried_mtu_fits],
      [handshake_probe_v4].
    - WireGuard packets and sockets are accounted for: [link_accounting],
      [link_backpressure], [socket_slots_accounted], [reclaim_is_filter],
      [stop_releases_waiters], [ephemeral_ports_cycle],
      [free_listen_port_complete]; a closed socket's slot comes back when its
      time is up ([slots_come_back]), a slot is refused only when there is none
      ([slots_refused_only_full]) and never freed in silence
      ([freed_slots_announced]); a stop releases the calls that wait on the
      stack's TCP and UDP sockets, whatever it interleaves with, but neither
      lookups nor dials that come after it, which their timeouts end
      ([stop_releases_callers]); the pump
      never sleeps on work ([pump_never_sleeps_on_work]); callers of a datagram
      socket are served in turn and none is stranded ([udp_waiters_in_turn]);
      names go to the tunnel's resolvers only ([resolve_questions]), and lookups
      that run at once give every slot back ([dns_slots_recovered]).
    - A carried device stays inside its carrier: [carried_stays_inside],
      [carried_receive_skips]; tuning costs it nothing
      ([tuning_never_refuses]); the way out chosen last is the one taken
      ([last_egress_wins]).
    - The WireGuard provider: [wg_dial_outcome], [bring_up_outcome],
      [await_handshake_exact], [wg_shutdown_final]; no device or pump outlives
      what refers to it, bring-ups dropped outside a runtime excepted
      ([wg_nothing_leaks]); behind a front every outcome is
      reported twice ([wg_front_reports_twice]); a tunnel inside another
      stays inside it and goes down with it ([nested_rides_outer]).
    - HTTP/3: [authority_injection_free], [header_roundtrip],
      [http3_writes_in_order], [http3_reads_in_order],
      [http3_sessions_bounded], [http3_shutdown_final],
      [http3_addresses_share_deadline], [connect_loop_source]; a dial refused
      for capacity is told when to try again ([http3_refusal_answered]); a stopped
      session ends its streams ([http3_stop_ends_streams]); what a
      dropped [retire] leaves behind ([dropped_retire_escapes]).

    ** Bounds and fuel

    - [WgStack.reclaim_finished] gives its loop one more than the number of
      closing sockets: each round removes one or passes one.
    - [WgProvider.await_fuel] is the number of poll gaps in the request timeout
      and two more; [await_handshake_exact] shows that the wait ends within it
      when polls are at least a gap apart.
    - [WgWire.FOLD_FUEL]: three folds finish any 32-bit sum.
    - [Http3Stream.ACK_FUEL] is two, the depth of the recursion of [poll_ack];
      [ack_fuel_enough] shows that more changes nothing.
      [Http3Stream.READ_ROUNDS] is the source's own 32.
    - [WgTransport.recv_fitting] needs more fuel than the datagrams queued, as
      [carried_receive_skips] has it: each round takes one.
    - Text loops are fuelled by the length of the text.
    Widths: ports, MTUs, octets and checksums are [Z] with their wrap written
    out; a [Duration] is nanoseconds, the stack's clock microseconds.

    ** What is not modelled

    Cryptography, TLS, QUIC, TCP and the WireGuard protocol are libraries, as is
    the vendored h3.  Left out of modelled parts: logging; QUIC transport
    settings; the interface capabilities handed to smoltcp; the choice of
    transport and UDP factory of the SSH and HTTP/3 providers, whose answers are
    parameters.  The public surface ([lib.rs]) is re-exports.  Memory is
    unbounded.

    Apart from those, every operation of the crate's own code that changes state
    has a definition.
    What is left composes models across their libraries: the two stacks of a
    nested tunnel exchange packets through the WireGuard engine, and a stream
    and its peer through QUIC, neither of which is code of the crate; a model
    of them would be a model of those libraries. *)

From Stdlib Require Import ZArith Lia String Ascii.
From stdpp Require Import gmap strings numbers prelude.

#[global] Open Scope Z_scope.

(** ** Outcomes of fallible and asynchronous code *)

(** [Result] is Rust's [Result<A, E>]; [Poll] its [std::task::Poll]. *)
Inductive Result (A E : Type) : Type :=
| Ok (a : A)
| Err (e : E).
Arguments Ok {A E} a.
Arguments Err {A E} e.

Inductive Poll (A : Type) : Type :=
| Ready (a : A)
| Pending.
Arguments Ready {A} a.
Arguments Pending {A}.

Definition res_bind {A B E} (r : Result A E) (k : A -> Result B E) : Result B E :=
  match r with Ok a => k a | Err e => Err e end.

Definition map_err {A E F} (f : E -> F) (r : Result A E) : Result A F :=
  match r with Ok a => Ok a | Err e => Err (f e) end.

Definition is_ok {A E} (r : Result A E) : bool :=
  match r with Ok _ => true | Err _ => false end.

Definition ok_or {A E} (o : option A) (e : E) : Result A E :=
  match o with Some a => Ok a | None => Err e end.

Definition is_Some_b {A} (o : option A) : bool :=
  match o with Some _ => true | None => false end.

Declare Scope rust_scope.
Delimit Scope rust_scope with rust.
#[global] Open Scope rust_scope.

Notation "'let?' x := r 'in' k" := (res_bind r (fun x => k))
  (at level 10, x name, r at level 100, k at level 200) : rust_scope.

(** [std::io::ErrorKind], the kinds this crate raises or inspects. *)
Inductive ErrorKind : Type :=
| UnexpectedEof | BrokenPipe | InvalidData | InvalidInput | ConnectionReset | OtherIo.

#[export] Instance ErrorKind_eq_dec : EqDecision ErrorKind.
Proof. solve_decision. Defined.

(** An [io::Error]: its kind and its text. *)
Definition IoError : Type := ErrorKind * string.

#[export] Instance Result_eq_dec {A E} `{EqDecision A} `{EqDecision E} : EqDecision (Result A E).
Proof. solve_decision. Defined.

(** ** Machine integers: unsigned values of [w] bits as [Z] *)

Definition wrap (w : Z) (x : Z) : Z := x mod 2 ^ w.
Definition in_uint (w : Z) (x : Z) : Prop := 0 <= x < 2 ^ w.
Definition u8 (x : Z) : Prop := in_uint 8 x.
Definition u16 (x : Z) : Prop := in_uint 16 x.

(** [saturating_sub] and the one's complement [!x] of a [w]-bit value. *)
Definition saturating_sub (a b : Z) : Z := Z.max 0 (a - b).
Definition not_w (w x : Z) : Z := Z.lxor (Z.ones w) x.

(** [u16::from_be_bytes] and [u16::to_be_bytes]. *)
Definition be16 (hi lo : Z) : Z := hi * 256 + lo.
Definition be16_bytes (x : Z) : list Z := [x / 256; x mod 256].

(** ** Text: a Rust [str] is its UTF-8 bytes, one [ascii] per byte *)

Definition byte_of (c : ascii) : Z := Z.of_N (N_of_ascii c).
Definition char_of (b : Z) : ascii := ascii_of_N (Z.to_N b).

Fixpoint bytes_of (s : string) : list Z :=
  match s with
  | EmptyString => []
  | String c s => byte_of c :: bytes_of s
  end.

Fixpoint text_of (l : list Z) : string :=
  match l with
  | [] => EmptyString
  | b :: l => String (char_of b) (text_of l)
  end.

Definition is_empty (s : string) : bool :=
  match s with EmptyString => true | _ => false end.

Definition str_len (s : string) : Z := Z.of_nat (String.length s).

(** [str::strip_prefix(char)], [str::strip_suffix(char)]. *)
Definition strip_prefix (c : ascii) (s : string) : option string :=
  match s with
  | String d s' => if Ascii.eqb c d then Some s' else None
  | EmptyString => None
  end.

Fixpoint srev_app (s acc : string) : string :=
  match s with
  | EmptyString => acc
  | String c s => srev_app s (String c acc)
  end.

Definition srev (s : string) : string := srev_app s EmptyString.

Definition strip_suffix (c : ascii) (s : string) : option string :=
  srev <$> strip_prefix c (srev s).

(** [str::trim_start_matches(char)], [str::trim_end_matches(char)]. *)
Fixpoint trim_start_matches (c : ascii) (s : string) : string :=
  match s with
  | String d s' => if Ascii.eqb c d then trim_start_matches c s' else s
  | EmptyString => EmptyString
  end.

Definition trim_end_matches (c : ascii) (s : string) : string :=
  srev (trim_start_matches c (srev s)).

(** [str::split_once(char)]: at the first occurrence. *)
Fixpoint split_once (c : ascii) (s : string) : option (string * string) :=
  match s with
  | EmptyString => None
  | String d s' =>
      if Ascii.eqb c d then Some (EmptyString, s')
      else match split_once c s' with
           | Some (a, b) => Some (String d a, b)
           | None => None
           end
  end.

(** [str::contains(&str)], [str::ends_with]. *)
Fixpoint contains (pat s : string) : bool :=
  String.prefix pat s ||
  match s with
  | EmptyString => false
  | String _ s' => contains pat s'
  end.

Definition ends_with (suffix s : string) : bool := String.prefix (srev suffix) (srev s).

Definition to_lower (c : ascii) : ascii :=
  let b := byte_of c in
  if (65 <=? b) && (b <=? 90) then char_of (b + 32) else c.

Fixpoint to_ascii_lowercase (s : string) : string :=
  match s with
  | EmptyString => EmptyString
  | String c s => String (to_lower c) (to_ascii_lowercase s)
  end.

(** [str::trim]: the encodings of the [White_Space] characters, removed from
    both ends.  UTF-8 is self-synchronising, so matching an encoding at an
    end of valid text is matching the character. *)
Definition white_space : list (list Z) :=
  [[9]; [10]; [11]; [12]; [13]; [32]; [194; 133]; [194; 160]; [225; 154; 128];
   [226; 128; 168]; [226; 128; 169]; [226; 128; 175]; [226; 129; 159]; [227; 128; 128]]
  ++ map (fun k => [226; 128; 128 + Z.of_nat k]) (seq 0 11).

Fixpoint strip_bytes (pat l : list Z) : option (list Z) :=
  match pat, l with
  | [], _ => Some l
  | p :: pat, x :: l => if p =? x then strip_bytes pat l else None
  | _ :: _, [] => None
  end.

Fixpoint strip_first (pats : list (list Z)) (l : list Z) : option (list Z) :=
  match pats with
  | [] => None
  | p :: pats => match strip_bytes p l with Some r => Some r | None => strip_first pats l end
  end.

Fixpoint strip_all (fuel : nat) (pats : list (list Z)) (l : list Z) : list Z :=
  match fuel with
  | O => l
  | S fuel => match strip_first pats l with Some r => strip_all fuel pats r | None => l end
  end.

Definition trim_bytes (l : list Z) : list Z :=
  let front := strip_all (length l) white_space l in
  rev (strip_all (length front) (map (@rev Z) white_space) (rev front)).

Definition trim (s : string) : string := text_of (trim_bytes (bytes_of s)).

(** [core::str::from_utf8]: the validation table of the standard library. *)
Definition within (lo hi x : Z) : bool := (lo <=? x) && (x <=? hi).
Definition continuation (x : Z) : bool := within 128 191 x.

Definition second_of_three (first next : Z) : bool :=
  if first =? 224 then within 160 191 next
  else if first =? 237 then within 128 159 next
  else within 128 191 next.

Definition second_of_four (first next : Z) : bool :=
  if first =? 240 then within 144 191 next
  else if first =? 244 then within 128 143 next
  else within 128 191 next.

Fixpoint utf8_valid (l : list Z) : bool :=
  match l with
  | [] => true
  | b0 :: r0 =>
      if b0 <? 128 then utf8_valid r0
      else if within 194 223 b0 then
        match r0 with
        | b1 :: r1 => continuation b1 && utf8_valid r1
        | _ => false
        end
      else if within 224 239 b0 then
        match r0 with
        | b1 :: b2 :: r2 => second_of_three b0 b1 && continuation b2 && utf8_valid r2
        | _ => false
        end
      else if within 240 244 b0 then
        match r0 with
        | b1 :: b2 :: b3 :: r3 =>
            second_of_four b0 b1 && continuation b2 && continuation b3 && utf8_valid r3
        | _ => false
        end
      else false
  end.

Definition from_utf8 (l : list Z) : option string :=
  if utf8_valid l then Some (text_of l) else None.

(** [Display] of unsigned integers and [{:x}]: digits of [n] in [radix]. *)
Definition digit_char (d : Z) : ascii :=
  if d <? 10 then char_of (48 + d) else char_of (87 + d).

Fixpoint digits (fuel : nat) (radix n : Z) (acc : string) : string :=
  match fuel with
  | O => acc
  | S fuel =>
      let acc := String (digit_char (n mod radix)) acc in
      if n / radix =? 0 then acc else digits fuel radix (n / radix) acc
  end.

Definition show_radix (radix n : Z) : string := digits (S (Z.to_nat (Z.log2 n))) radix n EmptyString.
Definition show (n : Z) : string := show_radix 10 n.
Definition show_hex (n : Z) : string := show_radix 16 n.

(** [char::to_digit(radix)]. *)
Definition to_digit (radix : Z) (c : ascii) : option Z :=
  let b := byte_of c in
  let d :=
    if within 48 57 b then Some (b - 48)
    else if within 97 122 b then Some (b - 87)
    else if within 65 90 b then Some (b - 55)
    else None in
  match d with
  | Some d => if d <? radix then Some d else None
  | None => None
  end.

(** [u8::from_str]: an optional [+], at least one digit, no overflow. *)
Fixpoint from_digits (max acc : Z) (s : string) : option Z :=
  match s with
  | EmptyString => Some acc
  | String c s =>
      match to_digit 10 c with
      | Some d => let acc := acc * 10 + d in if acc <=? max then from_digits max acc s else None
      | None => None
      end
  end.

Definition parse_uint (max : Z) (s : string) : option Z :=
  let body := match strip_prefix "+"%char s with Some r => r | None => s end in
  if is_empty body then None else from_digits max 0 body.

(** [Vec::swap_remove]: the last element takes the removed one's place. *)
Definition swap_remove {A} (i : nat) (l : list A) : list A :=
  match l !! i, last l with
  | Some _, Some z => if decide (S i = length l) then removelast l else <[i := z]> (removelast l)
  | _, _ => l
  end.

(** ** Shared tactics and lemmas *)

(** Case analysis of membership in a literal list. *)
Ltac elem_cases H :=
  repeat (apply elem_of_cons in H as [H | H]; [simplify_eq; try (by auto) |]);
  try (by apply not_elem_of_nil in H).

(** One step of a concrete run, the state it leads to in normal form. *)
Tactic Notation "take_step" uconstr(rule) :=
  eapply rtc_l; [eapply rule; try reflexivity |];
  match goal with |- rtc _ ?w _ => let v := eval vm_compute in w in change w with v end.

Lemma list_filter_all {A} (P : A -> Prop) `{!forall x, Decision (P x)} l : Forall P l -> filter P l = l.
Proof. induction 1 as [|x l Hx _ IH]; [done |]. by rewrite filter_cons_True, IH. Qed.

Lemma elem_of_inserted {A} (l : list A) i x y : x ∈ <[i := y]> l -> x = y \/ x ∈ l.
Proof.
  intros [j Hj]%list_elem_of_lookup. apply list_lookup_insert_Some in Hj as [(_ & -> & _) | [_ Hj]]; [by left |].
  right. by eapply list_elem_of_lookup_2.
Qed.

(** An element other than the one replaced is still there. *)
Lemma elem_of_unreplaced {A} (l : list A) i x y z : l !! i = Some x -> z ∈ l -> z = x \/ z ∈ <[i := y]> l.
Proof.
  intros Hi [j Hj]%list_elem_of_lookup. destruct (decide (i = j)) as [<- | Hne]; [left; congruence | right].
  apply list_elem_of_lookup. exists j. by rewrite list_lookup_insert_ne.
Qed.

(** Replacing an element trades what it contributed. *)
Lemma bind_insert_perm {A B} (f : A -> list B) (l : list A) i x y :
  l !! i = Some x -> (<[i := y]> l ≫= f) ++ f x ≡ₚ (l ≫= f) ++ f y.
Proof.
  revert i. induction l as [|a l IH]; intros [|i] Hi; [done | done | |].
  - injection Hi as ->. change (<[0%nat := y]> (x :: l)) with (y :: l). rewrite !bind_cons. solve_Permutation.
  - change (<[S i := y]> (a :: l)) with (a :: <[i := y]> l). rewrite !bind_cons, <- !app_assoc. by rewrite (IH i Hi).
Qed.

Lemma sum_list_with_insert {A} (f : A -> nat) (l : list A) i x y :
  l !! i = Some x -> (sum_list_with f (<[i := y]> l) + f x = sum_list_with f l + f y)%nat.
Proof.
  revert i. induction l as [|a l IH]; intros [|i] Hi; simpl in *; simplify_eq; [lia |].
  specialize (IH i Hi). lia.
Qed.

Lemma be16_u16 a b : u8 a -> u8 b -> u16 (be16 a b).
Proof. unfold u8, u16, in_uint, be16. change (2 ^ 16) with 65536. change (2 ^ 8) with 256. lia. Qed.

(** Rule induction: what every step preserves holds in every reachable state. *)
Lemma rtc_preserves {A} (R : A -> A -> Prop) (I : A -> Prop) a b :
  (forall x y, R x y -> I x -> I y) -> rtc R a b -> I a -> I b.
Proof. intros HR Hab. induction Hab; eauto. Qed.

(** Induction two elements at a time, as [chunks(2)] walks. *)
Lemma list_two_ind {A} (P : list A -> Prop) :
  P [] -> (forall a, P [a]) -> (forall a b l, P l -> P (a :: b :: l)) -> forall l, P l.
Proof.
  intros H0 H1 H2. fix IH 1. intros [|a [|b l]]; [exact H0 | apply H1 | apply H2, IH].
Qed.

(** ** Disciplined logs

    [logged P l]: every event of the log [l] stands where [P] allows it, [P]
    reading the events before it. *)

Definition logged {E} (P : list E -> E -> Prop) (l : list E) : Prop :=
  forall l1 e l2, l = (l1 ++ e :: l2)%list -> P l1 e.

Lemma logged_nil {E} (P : list E -> E -> Prop) : logged P [].
Proof. intros [|x l1] e l2; discriminate. Qed.

Lemma logged_snoc {E} (P : list E -> E -> Prop) l e : logged P l -> P l e -> logged P (l ++ [e]).
Proof.
  intros Hl He l1 e' l2 H. destruct l2 as [|x l2 _] using rev_ind.
  - apply app_inj_tail in H as [<- <-]. done.
  - rewrite app_comm_cons, app_assoc in H. apply app_inj_tail in H as [-> _]. by eapply Hl.
Qed.

Create HintDb logs.
#[export] Hint Resolve logged_nil logged_snoc : logs.
