(* ===== verification/TextFacts.v ===== *)
(** * Text lemmas: bytes and text, trimming and splitting

    [trim] undoes blank padding around text that starts and ends with a
    printable ASCII character, and [split_once] cuts at the first
    separator. *)

From Stdlib Require Import ZArith Lia String Ascii.
From stdpp Require Import gmap strings numbers prelude.
From S2P Require Import Prelude.

Open Scope string_scope.
Open Scope Z_scope.

#[local] Arguments String.append : simpl nomatch.

Create HintDb text discriminated.

Lemma append_assoc (a b c : string) : (a ++ b) ++ c = a ++ b ++ c.
Proof. induction a; simpl; congruence. Qed.

Lemma append_empty (a : string) : a ++ "" = a.
Proof. induction a; simpl; congruence. Qed.

Lemma bytes_of_app a b : bytes_of (a ++ b) = (bytes_of a ++ bytes_of b)%list.
Proof. induction a; simpl; congruence. Qed.

Lemma text_of_bytes s : text_of (bytes_of s) = s.
Proof.
  induction s as [|c s IH]; simpl; [done |]. rewrite IH. f_equal.
  unfold char_of, byte_of. by rewrite N2Z.id, ascii_N_embedding.
Qed.

(** The ASCII blanks, and the printable ASCII characters. *)
Definition blank (b : Z) : Prop := b ∈ [9; 10; 11; 12; 13; 32].
Definition graphic (b : Z) : Prop := 33 <= b <= 126.

Definition blank_text (s : string) : Prop := Forall blank (bytes_of s).
Definition graphic_text (s : string) : Prop := Forall graphic (bytes_of s).

#[export] Instance blank_dec b : Decision (blank b).
Proof. unfold blank. apply _. Defined.
#[export] Instance graphic_dec b : Decision (graphic b).
Proof. unfold graphic. apply _. Defined.

#[export] Instance blank_text_dec s : Decision (blank_text s).
Proof. unfold blank_text. apply _. Defined.
#[export] Instance graphic_text_dec s : Decision (graphic_text s).
Proof. unfold graphic_text. apply _. Defined.

(** A closed, decidable fact about literal text. *)
Ltac decide_text := apply (bool_decide_unpack _); vm_compute; exact I.

Definition spaces_both : list (list (list Z)) := [white_space; map (@rev Z) white_space].

Lemma strip_first_blank pats b l :
  pats ∈ spaces_both -> blank b -> strip_first pats (b :: l) = Some l.
Proof. intros Hp Hb. unfold blank in Hb. elem_cases Hp; subst; elem_cases Hb; subst; reflexivity. Qed.

(** No encoding of a white space character starts with a printable byte. *)
Definition starts_unprintable (p : list Z) : bool :=
  match p with [] => false | x :: _ => negb (within 33 126 x) end.

Lemma strip_first_none pats b l :
  forallb starts_unprintable pats = true -> graphic b -> strip_first pats (b :: l) = None.
Proof.
  intros Hp Hb. induction pats as [|p pats IH]; simpl in *; [done |].
  apply andb_true_iff in Hp as [Hp Hps]. destruct p as [|x p]; [done |]. simpl in *.
  rewrite (proj2 (Z.eqb_neq x b)); [by apply IH |]. intros ->. unfold graphic in Hb.
  unfold within in Hp. by rewrite !(proj2 (Z.leb_le _ _)) in Hp by lia.
Qed.

Lemma strip_first_graphic pats b l :
  pats ∈ spaces_both -> graphic b -> strip_first pats (b :: l) = None.
Proof.
  intros Hp Hb. apply strip_first_none; [| done].
  unfold spaces_both in Hp. elem_cases Hp; subst; reflexivity.
Qed.

Lemma strip_all_blanks pats blanks rest fuel :
  pats ∈ spaces_both -> Forall blank blanks -> (length blanks <= fuel)%nat ->
  match rest with [] => True | b :: _ => graphic b end ->
  strip_all fuel pats (blanks ++ rest)%list = rest.
Proof.
  intros Hp Hb. revert fuel. induction Hb as [|b blanks Hb _ IH]; intros fuel Hf Hr; simpl.
  - destruct fuel as [|fuel]; [done |]. destruct rest as [|b rest]; simpl.
    + by unfold spaces_both in Hp; elem_cases Hp; subst.
    + by rewrite strip_first_graphic.
  - destruct fuel as [|fuel]; simpl in Hf; [lia |]. cbn [strip_all].
    rewrite strip_first_blank by done. apply IH; [lia | done].
Qed.

(** What starts and ends printable. *)
Definition framed (l : list Z) : Prop :=
  match l with [] => True | b :: _ => graphic b end /\
  match rev l with [] => True | b :: _ => graphic b end.

Lemma framed_graphic l : Forall graphic l -> framed l.
Proof.
  intros H. assert (Hr : Forall graphic (rev l)) by (by apply Forall_rev).
  split; [by inversion H | by inversion Hr].
Qed.

Lemma graphic_framed s : graphic_text s -> framed (bytes_of s).
Proof. apply framed_graphic. Qed.

Lemma framed_app a m b : a <> [] -> b <> [] -> framed a -> framed b -> framed (a ++ m ++ b)%list.
Proof.
  intros Ha Hb [Ha1 _] [_ Hb2]. split; [by destruct a |].
  rewrite !rev_app_distr. destruct (rev b) eqn:E; [| done].
  apply (f_equal (@rev Z)) in E. rewrite rev_involutive in E. done.
Qed.

Lemma trim_bytes_pad l1 l l2 :
  Forall blank l1 -> Forall blank l2 -> framed l -> l <> [] ->
  trim_bytes (l1 ++ l ++ l2)%list = l.
Proof.
  intros H1 H2 [Hl Hr] Hne. unfold trim_bytes.
  assert (Hr' : match rev l with [] => True | b :: _ => graphic b end) by exact Hr.
  rewrite (strip_all_blanks white_space l1 (l ++ l2)%list);
    [| by constructor | done | rewrite length_app; lia | by destruct l].
  rewrite rev_app_distr.
  rewrite (strip_all_blanks (map (@rev Z) white_space) (rev l2) (rev l));
    [by rewrite rev_involutive | by repeat constructor | by apply Forall_rev | | done].
  rewrite length_rev, length_app. lia.
Qed.

Lemma trim_pad w1 s w2 :
  blank_text w1 -> blank_text w2 -> framed (bytes_of s) -> s <> "" -> trim (w1 ++ s ++ w2) = s.
Proof.
  intros H1 H2 Hs Hne. unfold trim. rewrite !bytes_of_app, trim_bytes_pad; try done.
  - apply text_of_bytes.
  - by destruct s.
Qed.

Lemma trim_plain s : framed (bytes_of s) -> s <> "" -> trim s = s.
Proof.
  intros Hs Hne. rewrite <- (append_empty s) at 1. change (s ++ "") with ("" ++ s ++ "").
  apply trim_pad; [constructor | constructor | done | done].
Qed.

Fixpoint no_char (c : ascii) (s : string) : bool :=
  match s with
  | EmptyString => true
  | String d s => negb (Ascii.eqb c d) && no_char c s
  end.

Lemma no_char_app c a b : no_char c (a ++ b) = no_char c a && no_char c b.
Proof. induction a; simpl; [done |]. by rewrite IHa, andb_assoc. Qed.

Lemma split_once_app c a b : no_char c a = true -> split_once c (a ++ String c b) = Some (a, b).
Proof.
  induction a as [|d a IH]; simpl.
  - by rewrite Ascii.eqb_refl.
  - intros [Hd Ha]%andb_true_iff. apply negb_true_iff in Hd. by rewrite Hd, IH.
Qed.

Lemma split_once_none c a : no_char c a = true -> split_once c a = None.
Proof.
  induction a as [|d a IH]; simpl; [done |].
  intros [Hd Ha]%andb_true_iff. apply negb_true_iff in Hd. by rewrite Hd, IH.
Qed.

Lemma blank_no_char c s : graphic (byte_of c) -> blank_text s -> no_char c s = true.
Proof.
  intros Hc. unfold blank_text. induction s as [|d s IH]; simpl; [done |].
  intros [Hd Hs]%Forall_cons_1. rewrite IH by done. rewrite andb_true_r. apply negb_true_iff.
  apply Ascii.eqb_neq. intros ->. unfold blank in Hd. unfold graphic in Hc. elem_cases Hd; lia.
Qed.

Lemma graphic_text_app a b : graphic_text a -> graphic_text b -> graphic_text (a ++ b).
Proof. unfold graphic_text. rewrite bytes_of_app. intros. by apply Forall_app. Qed.

#[export] Hint Resolve framed_graphic framed_app graphic_text_app : text.

(** ** [str::contains] *)

Lemma prefix_app pat s : String.prefix pat s = true <-> exists after, s = pat ++ after.
Proof.
  revert s. induction pat as [|a pat IH]; intros s.
  { split; [by exists s | by destruct s]. }
  destruct s as [|b s]; simpl; [split; [done | by intros (? & ?)] |]. case_match; subst.
  - rewrite IH. split; intros (after & E); exists after; congruence.
  - split; [done | intros (after & E); congruence].
Qed.

Lemma contains_spec pat s : contains pat s = true <-> exists before after, s = before ++ pat ++ after.
Proof.
  induction s as [|a s IH]; cbn [contains]; rewrite orb_true_iff, prefix_app.
  - split; [intros [(after & E) | ?]; [by exists "", after | done] |].
    intros ([|] & after & E); [left; by exists after | done].
  - rewrite IH. split.
    + intros [(after & E) | (before & after & ->)]; [by exists "", after | by exists (String a before), after].
    + intros ([|c before] & after & E); [left; by exists after |]. right. injection E as <- E. eauto.
Qed.
