(* ===== verification/Net.v ===== *)
(** * Addresses

    [std::net]'s addresses as the crate uses them: [IpAddr] and
    [SocketAddr], the loopback and unspecified tests, [Display] and
    [FromStr].  An IPv4 address is its four octets, an IPv6 address its eight
    16-bit segments.  Parsing follows the standard library's recursive
    descent parser (no leading zeros in IPv4 octets, at most one [::], an
    optional trailing embedded IPv4 address); printing is the RFC 5952 form
    the standard library prints. *)

From Stdlib Require Import ZArith Lia String Ascii.
From stdpp Require Import gmap strings numbers prelude.
From S2P Require Import Prelude.

Inductive IpAddr : Type :=
| V4 (a b c d : Z)
| V6 (s0 s1 s2 s3 s4 s5 s6 s7 : Z).

#[export] Instance IpAddr_eq_dec : EqDecision IpAddr.
Proof. solve_decision. Defined.

Record SocketAddr : Type := { sa_ip : IpAddr; sa_port : Z }.

#[export] Instance SocketAddr_eq_dec : EqDecision SocketAddr.
Proof. solve_decision. Defined.

Definition is_ipv4 (ip : IpAddr) : bool := match ip with V4 _ _ _ _ => true | _ => false end.
Definition is_ipv6 (ip : IpAddr) : bool := negb (is_ipv4 ip).

Definition segments (ip : IpAddr) : list Z :=
  match ip with
  | V4 _ _ _ _ => []
  | V6 s0 s1 s2 s3 s4 s5 s6 s7 => [s0; s1; s2; s3; s4; s5; s6; s7]
  end.

Definition wf_ip (ip : IpAddr) : Prop :=
  match ip with
  | V4 a b c d => u8 a /\ u8 b /\ u8 c /\ u8 d
  | V6 _ _ _ _ _ _ _ _ => Forall u16 (segments ip)
  end.

Definition V4_UNSPECIFIED : IpAddr := V4 0 0 0 0.
Definition V6_UNSPECIFIED : IpAddr := V6 0 0 0 0 0 0 0 0.

Definition is_loopback (ip : IpAddr) : bool :=
  match ip with
  | V4 a _ _ _ => a =? 127
  | V6 _ _ _ _ _ _ _ _ => bool_decide (segments ip = [0; 0; 0; 0; 0; 0; 0; 1])
  end.

Definition is_unspecified (ip : IpAddr) : bool :=
  bool_decide (ip = V4_UNSPECIFIED) || bool_decide (ip = V6_UNSPECIFIED).

(** The network-order octets, and [Ipv4Addr::from([u8; 4])],
    [Ipv6Addr::from([u8; 16])]. *)
Definition octets (ip : IpAddr) : list Z :=
  match ip with
  | V4 a b c d => [a; b; c; d]
  | V6 _ _ _ _ _ _ _ _ => concat (map be16_bytes (segments ip))
  end.

Definition ipv4_of (l : list Z) : IpAddr :=
  match l with [a; b; c; d] => V4 a b c d | _ => V4_UNSPECIFIED end.

Definition ipv6_of (l : list Z) : IpAddr :=
  match l with
  | [a0; a1; b0; b1; c0; c1; d0; d1; e0; e1; f0; f1; g0; g1; h0; h1] =>
      V6 (be16 a0 a1) (be16 b0 b1) (be16 c0 c1) (be16 d0 d1)
         (be16 e0 e1) (be16 f0 f1) (be16 g0 g1) (be16 h0 h1)
  | _ => V6_UNSPECIFIED
  end.

Definition ipv6_of_segments (l : list Z) : option IpAddr :=
  match l with
  | [s0; s1; s2; s3; s4; s5; s6; s7] => Some (V6 s0 s1 s2 s3 s4 s5 s6 s7)
  | _ => None
  end.

(** ** Display *)

Open Scope string_scope.
Open Scope Z_scope.

Definition show_v4 (a b c d : Z) : string :=
  show a ++ "." ++ show b ++ "." ++ show c ++ "." ++ show d.

Definition to_ipv4_mapped (segs : list Z) : option (Z * Z * Z * Z) :=
  match segs with
  | [0; 0; 0; 0; 0; 65535; g; h] => Some (g / 256, g mod 256, h / 256, h mod 256)
  | _ => None
  end.

Record Span : Type := { start : nat; len : nat }.

(** The longest run of zero segments, the first of equals. *)
Fixpoint zero_span (i : nat) (segs : list Z) (longest current : Span) : Span :=
  match segs with
  | [] => longest
  | s :: segs =>
      if s =? 0 then
        let current :=
          {| start := if (len current =? 0)%nat then i else start current;
             len := S (len current) |} in
        let longest := if (len longest <? len current)%nat then current else longest in
        zero_span (S i) segs longest current
      else zero_span (S i) segs longest {| start := 0; len := 0 |}
  end.

Fixpoint fmt_subslice (segs : list Z) : string :=
  match segs with
  | [] => ""
  | [s] => show_hex s
  | s :: segs => show_hex s ++ ":" ++ fmt_subslice segs
  end.

Definition show_v6 (segs : list Z) : string :=
  match to_ipv4_mapped segs with
  | Some (a, b, c, d) => "::ffff:" ++ show_v4 a b c d
  | None =>
      let z := zero_span 0 segs {| start := 0; len := 0 |} {| start := 0; len := 0 |} in
      if (1 <? len z)%nat
      then fmt_subslice (take (start z) segs) ++ "::" ++ fmt_subslice (drop (start z + len z) segs)
      else fmt_subslice segs
  end.

Definition show_ip (ip : IpAddr) : string :=
  match ip with
  | V4 a b c d => show_v4 a b c d
  | V6 _ _ _ _ _ _ _ _ => show_v6 (segments ip)
  end.

(** ** Parsing: each reader returns what it read and the rest *)

Definition Parser (A : Type) : Type := string -> option (A * string).

Definition read_given_char (c : ascii) : Parser unit := fun s =>
  match strip_prefix c s with Some r => Some (tt, r) | None => None end.

Fixpoint read_digits (radix : Z) (s : string) : list Z * string :=
  match s with
  | EmptyString => ([], s)
  | String c s' =>
      match to_digit radix c with
      | Some d => let (ds, r) := read_digits radix s' in (d :: ds, r)
      | None => ([], s)
      end
  end.

Definition digits_value (radix : Z) (ds : list Z) : Z :=
  fold_left (fun acc d => acc * radix + d) ds 0.

(** [read_number(radix, Some(max_digits), allow_zero_prefix)] into an integer
    no larger than [max]. *)
Definition read_number (radix : Z) (max_digits : nat) (max : Z) (allow_zero_prefix : bool)
  : Parser Z := fun s =>
  let '(ds, r) := read_digits radix s in
  let v := digits_value radix ds in
  if (max_digits <? length ds)%nat then None
  else if (length ds =? 0)%nat then None
  else if negb allow_zero_prefix && bool_decide (head ds = Some 0) && (1 <? length ds)%nat then None
  else if v <=? max then Some (v, r) else None.

Definition read_separator {A} (sep : ascii) (index : nat) (inner : Parser A) : Parser A := fun s =>
  match index with
  | O => inner s
  | S _ => match read_given_char sep s with Some (_, r) => inner r | None => None end
  end.

Definition read_octet (index : nat) : Parser Z :=
  read_separator "."%char index (read_number 10 3 255 false).

Definition read_ipv4_addr : Parser (Z * Z * Z * Z) := fun s =>
  match read_octet 0 s with
  | Some (a, s) =>
      match read_octet 1 s with
      | Some (b, s) =>
          match read_octet 2 s with
          | Some (c, s) =>
              match read_octet 3 s with
              | Some (d, s) => Some (a, b, c, d, s)
              | None => None
              end
          | None => None
          end
      | None => None
      end
  | None => None
  end.

(** [read_groups]: up to [todo] groups, [i] already read; a trailing embedded
    IPv4 address fills two. *)
Fixpoint read_groups (todo i : nat) (s : string) : list Z * bool * string :=
  match todo with
  | O => ([], false, s)
  | S todo' =>
      let embedded :=
        if (1 <? todo)%nat then read_separator ":"%char i read_ipv4_addr s else None in
      match embedded with
      | Some (a, b, c, d, r) => ([be16 a b; be16 c d], true, r)
      | None =>
          match read_separator ":"%char i (read_number 16 4 65535 true) s with
          | Some (g, r) =>
              let '(gs, v4, r) := read_groups todo' (S i) r in (g :: gs, v4, r)
          | None => ([], false, s)
          end
      end
  end.

Definition read_ipv6_addr : Parser IpAddr := fun s =>
  let '(groups, v4, s) := read_groups 8 0 s in
  if (length groups =? 8)%nat then
    match ipv6_of_segments groups with Some ip => Some (ip, s) | None => None end
  else if v4 then None
  else
    match read_given_char ":"%char s with
    | Some (_, s) =>
        match read_given_char ":"%char s with
        | Some (_, s) =>
            let '(tail, _, s) := read_groups (8 - (length groups + 1)) 0 s in
            let zeros := replicate (8 - length groups - length tail) 0 in
            match ipv6_of_segments (groups ++ zeros ++ tail)%list with
            | Some ip => Some (ip, s)
            | None => None
            end
        | None => None
        end
    | None => None
    end.

Definition read_ip_addr : Parser IpAddr := fun s =>
  match read_ipv4_addr s with
  | Some (a, b, c, d, r) => Some (V4 a b c d, r)
  | None => read_ipv6_addr s
  end.

(** [str::parse::<IpAddr>()]: the reader must consume everything. *)
Definition parse_ip (s : string) : option IpAddr :=
  match read_ip_addr s with
  | Some (ip, EmptyString) => Some ip
  | _ => None
  end.

Definition show_sockaddr (a : SocketAddr) : string :=
  match sa_ip a with
  | V4 _ _ _ _ => show_ip (sa_ip a) ++ ":" ++ show (sa_port a)
  | V6 _ _ _ _ _ _ _ _ => "[" ++ show_ip (sa_ip a) ++ "]:" ++ show (sa_port a)
  end.
