(* ===== verification/NetFacts.v ===== *)
(** * Addresses survive printing and parsing

    [parse_ip (show_ip ip) = Some ip] for every well-formed address of either
    family, embedded IPv4 and compressed zero runs included.  The digits of
    one group or octet are checked for every value; the rest is structural. *)

From Stdlib Require Import ZArith Lia String Ascii.
From stdpp Require Import gmap strings numbers prelude.
From S2P Require Import Prelude TextFacts Net.

Open Scope string_scope.
Open Scope Z_scope.

#[local] Arguments String.append : simpl nomatch.

Definition starts_digit (radix : Z) (s : string) : bool :=
  match s with
  | String c _ => match to_digit radix c with Some _ => true | None => false end
  | EmptyString => false
  end.

Lemma read_digits_app radix s ds rest :
  read_digits radix s = (ds, "") -> starts_digit radix rest = false ->
  read_digits radix (s ++ rest) = (ds, rest).
Proof.
  revert ds. induction s as [|c s IH]; intros ds; simpl.
  - intros [= <-] Hr. destruct rest as [|c r]; simpl in *; [done |]. by destruct (to_digit radix c).
  - destruct (to_digit radix c); [| done]. destruct (read_digits radix s) as [ds' r'].
    intros [= <- ->] Hr. by rewrite (IH ds' eq_refl Hr).
Qed.

Lemma read_digits_no_char radix c s ds r :
  read_digits radix s = (ds, r) -> no_char c s = true -> no_char c r = true.
Proof.
  revert ds. induction s as [|d s IH]; intros ds; simpl; [by intros [= <- <-] |].
  destruct (to_digit radix d).
  - destruct (read_digits radix s) as [ds' r'] eqn:E. intros [= <- ->] [_ H]%andb_true_iff. by eapply IH.
  - by intros [= <- <-].
Qed.

(** ** One number *)

Lemma forallb_seqZ (f : Z -> bool) n x : forallb f (seqZ 0 n) = true -> 0 <= x < n -> f x = true.
Proof.
  intros H Hx. assert (Hin : x ∈ seqZ 0 n) by (apply elem_of_seqZ; lia).
  revert Hin. generalize dependent (seqZ 0 n). intros l.
  induction l as [|a l IH]; simpl; intros H Hin; [by apply not_elem_of_nil in Hin |].
  apply andb_true_iff in H as [Ha Hl]. apply elem_of_cons in Hin as [-> | Hin]; auto.
Qed.

Section Digits.
Variable radix : Z.
Hypothesis radix_range : 2 <= radix <= 16.
Hypothesis digit_roundtrip : forall d, 0 <= d < radix -> to_digit radix (digit_char d) = Some d.

Definition digit_text (ds : list Z) : string :=
  foldr (fun d s => String (digit_char d) s) "" ds.

(** The digits [digits] writes, as numbers. *)
Fixpoint digit_list (fuel : nat) (n : Z) (acc : list Z) : list Z :=
  match fuel with
  | O => acc
  | S fuel =>
      let acc := (n mod radix :: acc)%list in
      if n / radix =? 0 then acc else digit_list fuel (n / radix) acc
  end.

Lemma digits_text fuel n acc :
  digits fuel radix n (digit_text acc) = digit_text (digit_list fuel n acc).
Proof.
  revert n acc. induction fuel as [|fuel IH]; intros n acc; simpl; [done |].
  destruct (_ =? 0); [done |]. apply (IH _ (n mod radix :: acc)).
Qed.

Definition is_digit (d : Z) : Prop := 0 <= d < radix.

Lemma digit_list_digits fuel n acc : Forall is_digit acc -> Forall is_digit (digit_list fuel n acc).
Proof.
  revert n acc. induction fuel as [|fuel IH]; intros n acc H; simpl; [done |].
  assert (Forall is_digit (n mod radix :: acc)) by (constructor; [apply Z.mod_pos_bound; lia | done]).
  destruct (_ =? 0); auto.
Qed.

Lemma read_digits_text ds : Forall is_digit ds -> read_digits radix (digit_text ds) = (ds, "").
Proof. induction 1 as [|d ds Hd _ IH]; simpl; [done |]. by rewrite digit_roundtrip, IH. Qed.

Lemma fold_value acc ds :
  fold_left (fun acc d => acc * radix + d) ds acc = acc * radix ^ Z.of_nat (length ds) + digits_value radix ds.
Proof.
  unfold digits_value. revert acc. induction ds as [|d ds IH]; intros acc; simpl; [lia |].
  rewrite IH, (IH (0 * radix + d)). rewrite Nat2Z.inj_succ, Z.pow_succ_r by lia. lia.
Qed.

Lemma digit_list_value fuel n acc :
  0 <= n < radix ^ Z.of_nat fuel ->
  digits_value radix (digit_list fuel n acc)
  = n * radix ^ Z.of_nat (length acc) + digits_value radix acc.
Proof.
  revert n acc. induction fuel as [|fuel IH]; intros n acc Hn.
  - simpl in *. replace n with 0 by lia. lia.
  - rewrite Nat2Z.inj_succ, Z.pow_succ_r in Hn by lia. simpl.
    pose proof (Z.div_mod n radix ltac:(lia)) as Hdm.
    assert (Hv : digits_value radix (n mod radix :: acc)
                 = n mod radix * radix ^ Z.of_nat (length acc) + digits_value radix acc).
    { unfold digits_value at 1. simpl. apply fold_value. }
    destruct (Z.eqb_spec (n / radix) 0) as [E|E].
    + rewrite Hv. rewrite E in Hdm. rewrite Hdm at 2. lia.
    + rewrite IH; [| split; [apply Z.div_pos; lia | apply Z.div_lt_upper_bound; lia]].
      rewrite Hv. simpl length. rewrite Nat2Z.inj_succ, Z.pow_succ_r by lia. rewrite Hdm at 3. lia.
Qed.

Lemma digit_list_length fuel n acc k :
  0 <= n < radix ^ Z.of_nat (S k) ->
  (length (digit_list (S fuel) n acc) <= S k + length acc)%nat /\
  (S (length acc) <= length (digit_list (S fuel) n acc))%nat.
Proof.
  revert n acc k. induction fuel as [|fuel IH]; intros n acc k Hn.
  - simpl. destruct (_ =? 0); simpl; lia.
  - change (digit_list (S (S fuel)) n acc)
      with (if n / radix =? 0 then (n mod radix :: acc)%list
            else digit_list (S fuel) (n / radix) (n mod radix :: acc)).
    destruct (Z.eqb_spec (n / radix) 0) as [E|E]; [simpl; lia |].
    destruct k as [|k].
    { exfalso. apply E. apply Z.div_small. change (Z.of_nat 1) with 1 in Hn. lia. }
    rewrite Nat2Z.inj_succ, Z.pow_succ_r in Hn by lia.
    destruct (IH (n / radix) (n mod radix :: acc)%list k) as [H1 H2];
      [split; [apply Z.div_pos; lia | apply Z.div_lt_upper_bound; lia] |].
    rewrite length_cons in H1, H2. lia.
Qed.

Lemma digit_list_head fuel n acc :
  0 < n < radix ^ Z.of_nat fuel -> exists d, head (digit_list fuel n acc) = Some d /\ d <> 0.
Proof.
  revert n acc. induction fuel as [|fuel IH]; intros n acc Hn; [simpl in Hn; lia |].
  rewrite Nat2Z.inj_succ, Z.pow_succ_r in Hn by lia. simpl.
  pose proof (Z.div_mod n radix ltac:(lia)).
  destruct (Z.eqb_spec (n / radix) 0) as [E|E]; [simpl; eexists; split; [done | lia] |].
  apply IH. split; [| apply Z.div_lt_upper_bound; lia].
  assert (0 <= n / radix) by (apply Z.div_pos; lia). lia.
Qed.

Lemma show_fuel n : 0 <= n -> n < radix ^ Z.of_nat (S (Z.to_nat (Z.log2 n))).
Proof.
  intros Hn. rewrite Nat2Z.inj_succ, Z2Nat.id by apply Z.log2_nonneg.
  destruct (Z.eq_dec n 0) as [-> |]; [simpl; lia |].
  pose proof (Z.log2_spec n ltac:(lia)) as [_ H]. eapply Z.lt_le_trans; [exact H |].
  apply Z.pow_le_mono_l. lia.
Qed.

(** A printed number followed by a non-digit reads back. *)
Lemma read_number_show n k max allow rest :
  0 <= n -> n < radix ^ Z.of_nat (S k) -> n <= max -> starts_digit radix rest = false ->
  read_number radix (S k) max allow (show_radix radix n ++ rest) = Some (n, rest).
Proof.
  intros H0 Hk Hmax Hr. unfold read_number, show_radix.
  set (fuel := Z.to_nat (Z.log2 n)). pose proof (show_fuel n H0) as Hf. fold fuel in Hf.
  change (digits (S fuel) radix n "") with (digits (S fuel) radix n (digit_text [])).
  rewrite digits_text. set (ds := digit_list (S fuel) n []).
  assert (Hds : read_digits radix (digit_text ds) = (ds, "")).
  { apply read_digits_text, digit_list_digits. constructor. }
  rewrite (read_digits_app _ _ _ _ Hds Hr).
  destruct (digit_list_length fuel n [] k ltac:(lia)) as [Hl1 Hl2]. fold ds in Hl1, Hl2. simpl in Hl1, Hl2.
  assert (Hv : digits_value radix ds = n).
  { unfold ds. rewrite digit_list_value by lia. simpl. unfold digits_value. simpl. lia. }
  rewrite (proj2 (Nat.ltb_ge _ _)) by lia. rewrite (proj2 (Nat.eqb_neq _ _)) by lia.
  assert (Hz : negb allow && bool_decide (head ds = Some 0) && (1 <? length ds)%nat = false).
  { destruct (Z.eq_dec n 0) as [-> | Hn]; [by rewrite andb_false_r |].
    destruct (digit_list_head (S fuel) n [] ltac:(lia)) as (d & Hd & Hd0). fold ds in Hd.
    rewrite Hd, bool_decide_eq_false_2 by congruence. by rewrite andb_false_r. }
  rewrite Hz, Hv. by rewrite (proj2 (Z.leb_le _ _)) by lia.
Qed.

Lemma show_no_char c n :
  (forall d, 0 <= d < radix -> Ascii.eqb c (digit_char d) = false) -> no_char c (show_radix radix n) = true.
Proof.
  intros Hc. unfold show_radix.
  change (digits (S (Z.to_nat (Z.log2 n))) radix n "")
    with (digits (S (Z.to_nat (Z.log2 n))) radix n (digit_text [])).
  rewrite digits_text. pose proof (digit_list_digits (S (Z.to_nat (Z.log2 n))) n [] ltac:(constructor)) as H.
  induction H as [|d ds Hd _ IH]; simpl; [done |]. by rewrite Hc, IH.
Qed.

End Digits.

Definition digit_reads (radix d : Z) : bool :=
  match to_digit radix (digit_char d) with Some e => e =? d | None => false end.

Lemma digit_reads_true radix d : digit_reads radix d = true -> to_digit radix (digit_char d) = Some d.
Proof. unfold digit_reads. destruct (to_digit _ _); [|done]. by intros ->%Z.eqb_eq. Qed.

Lemma hex_roundtrip d : 0 <= d < 16 -> to_digit 16 (digit_char d) = Some d.
Proof.
  intros Hd. apply digit_reads_true. apply (forallb_seqZ (digit_reads 16) 16 d); [|done].
  vm_compute. reflexivity.
Qed.

Lemma dec_roundtrip d : 0 <= d < 10 -> to_digit 10 (digit_char d) = Some d.
Proof.
  intros Hd. apply digit_reads_true. apply (forallb_seqZ (digit_reads 10) 10 d); [|done].
  vm_compute. reflexivity.
Qed.

Definition punctuation (c : ascii) : Prop := c = "."%char \/ c = ":"%char \/ c = "/"%char.

Lemma punctuation_not_digit c d : punctuation c -> 0 <= d < 16 -> Ascii.eqb c (digit_char d) = false.
Proof.
  intros Hc Hd. apply negb_true_iff.
  destruct Hc as [-> | [-> | ->]];
    [apply (forallb_seqZ (fun d => negb (Ascii.eqb "." (digit_char d))) 16 d ltac:(vm_compute; reflexivity) Hd)
    |apply (forallb_seqZ (fun d => negb (Ascii.eqb ":" (digit_char d))) 16 d ltac:(vm_compute; reflexivity) Hd)
    |apply (forallb_seqZ (fun d => negb (Ascii.eqb "/" (digit_char d))) 16 d ltac:(vm_compute; reflexivity) Hd)].
Qed.

Lemma show_hex_no_char c g : punctuation c -> no_char c (show_hex g) = true.
Proof. intros Hc. apply show_no_char; [lia |]. intros d Hd. apply punctuation_not_digit; [done | lia]. Qed.

Lemma show_dec_no_char c g : punctuation c -> no_char c (show g) = true.
Proof. intros Hc. apply show_no_char; [lia |]. intros d Hd. apply punctuation_not_digit; [done | lia]. Qed.

Lemma read_hex_show g rest :
  u16 g -> starts_digit 16 rest = false ->
  read_number 16 4 65535 true (show_hex g ++ rest) = Some (g, rest).
Proof.
  unfold u16, in_uint. intros Hg Hr. change (2 ^ 16) with 65536 in Hg.
  apply (read_number_show 16); [lia | apply hex_roundtrip | lia | | lia | done].
  change (16 ^ Z.of_nat 4) with 65536. lia.
Qed.

Lemma read_dec_show a rest :
  u8 a -> starts_digit 10 rest = false ->
  read_number 10 3 255 false (show a ++ rest) = Some (a, rest).
Proof.
  unfold u8, in_uint. intros Ha Hr. change (2 ^ 8) with 256 in Ha.
  apply (read_number_show 10); [lia | apply dec_roundtrip | lia | | lia | done].
  change (10 ^ Z.of_nat 3) with 1000. lia.
Qed.

(** ** IPv4 *)

Lemma starts_digit_punctuation radix c rest :
  radix <= 16 -> punctuation c -> starts_digit radix (String c rest) = false.
Proof. intros _ [-> | [-> | ->]]; reflexivity. Qed.

Lemma read_ipv4_show a b c d rest :
  u8 a -> u8 b -> u8 c -> u8 d -> starts_digit 10 rest = false ->
  read_ipv4_addr (show_v4 a b c d ++ rest) = Some (a, b, c, d, rest).
Proof.
  intros Ha Hb Hc Hd Hr. unfold show_v4. rewrite !append_assoc. simpl.
  unfold read_ipv4_addr, read_octet, read_separator, read_given_char.
  rewrite read_dec_show by done. simpl. rewrite read_dec_show by done. simpl.
  rewrite read_dec_show by done. simpl. by rewrite read_dec_show.
Qed.

Lemma read_number_no_char radix k max allow c s v r :
  read_number radix k max allow s = Some (v, r) -> no_char c s = true -> no_char c r = true.
Proof.
  unfold read_number. destruct (read_digits radix s) as [ds r'] eqn:E.
  repeat case_match; intros; simplify_eq. by eapply read_digits_no_char.
Qed.

Lemma read_ipv4_no_dot s : no_char "." s = true -> read_ipv4_addr s = None.
Proof.
  intros Hs. unfold read_ipv4_addr. destruct (read_octet 0 s) as [[a r]|] eqn:E; [| done].
  assert (Hr : no_char "." r = true) by (eapply read_number_no_char; [exact E | exact Hs]).
  unfold read_octet, read_separator, read_given_char. destruct r as [|x r]; [done |]. simpl in *.
  apply andb_true_iff in Hr as [Hx _]. by apply negb_true_iff in Hx as ->.
Qed.

(** ** IPv6 groups *)

(** The groups as the reader meets them: every group but the first after a
    separator. *)
Fixpoint groups_text (i : nat) (gs : list Z) : string :=
  match gs with
  | [] => ""
  | g :: gs => (match i with O => "" | S _ => ":" end) ++ show_hex g ++ groups_text (S i) gs
  end.

Lemma groups_text_tail i gs : gs <> [] -> groups_text (S i) gs = ":" ++ fmt_subslice gs.
Proof.
  revert i. induction gs as [|g gs IH]; intros i Hg; [done |]. simpl.
  destruct gs as [|g' gs]; [simpl; by rewrite append_empty |].
  by rewrite IH.
Qed.

Lemma fmt_subslice_text gs : fmt_subslice gs = groups_text 0 gs.
Proof.
  destruct gs as [|g [|g' gs]]; [done | simpl; by rewrite append_empty |].
  change (groups_text 0 (g :: g' :: gs)) with (show_hex g ++ groups_text 1 (g' :: gs)).
  by rewrite groups_text_tail.
Qed.

Lemma groups_text_no_dot i gs : no_char "." (groups_text i gs) = true.
Proof.
  revert i. induction gs as [|g gs IH]; intros i; [done |]. cbn [groups_text].
  rewrite !no_char_app, IH, show_hex_no_char by (by left). by destruct i.
Qed.

(** What may follow a run of groups: the end, or the [::] of a compressed
    run; neither starts another group. *)
Definition groups_end (rest : string) : Prop := rest = "" \/ exists r, rest = "::" ++ r.

Lemma groups_end_stops i rest :
  groups_end rest -> read_separator ":" i (read_number 16 4 65535 true) rest = None.
Proof. by intros [-> | [r ->]]; destruct i. Qed.

Lemma groups_text_not_digit i gs rest :
  groups_end rest -> starts_digit 16 (groups_text (S i) gs ++ rest) = false.
Proof.
  intros He. destruct gs as [|g gs]; [destruct He as [-> | [r ->]]; done |].
  rewrite groups_text_tail by done. reflexivity.
Qed.

Lemma read_separator_group i g rest :
  u16 g -> starts_digit 16 rest = false ->
  read_separator ":" i (read_number 16 4 65535 true)
    ((match i with O => "" | S _ => ":" end) ++ show_hex g ++ rest) = Some (g, rest).
Proof. intros Hg Hr. destruct i; simpl; by apply read_hex_show. Qed.

Lemma read_embedded_no_dot i s :
  no_char "." s = true -> read_separator ":" i read_ipv4_addr s = None.
Proof.
  intros Hs. destruct i; simpl; [by apply read_ipv4_no_dot |].
  unfold read_given_char. destruct s as [|c s]; [done |]. cbn [strip_prefix].
  destruct (Ascii.eqb ":" c); [| done]. apply read_ipv4_no_dot.
  simpl in Hs. by apply andb_true_iff in Hs as [_ Hs].
Qed.

Lemma read_groups_hex todo i s g r :
  read_separator ":" i read_ipv4_addr s = None ->
  read_separator ":" i (read_number 16 4 65535 true) s = Some (g, r) ->
  read_groups (S todo) i s = let '(gs, v4, r) := read_groups todo (S i) r in (g :: gs, v4, r).
Proof. intros H4 H6. cbn [read_groups]. rewrite H4, H6. by destruct (1 <? S todo)%nat. Qed.

Lemma read_groups_text gs : forall todo i rest,
  Forall u16 gs -> groups_end rest -> no_char "." rest = true -> (length gs <= todo)%nat ->
  read_groups todo i (groups_text i gs ++ rest) = (gs, false, rest).
Proof.
  induction gs as [|g gs IH]; intros todo i rest Hg He Hd Hl.
  - destruct todo as [|todo]; [done |]. cbn [read_groups groups_text]. change ("" ++ rest) with rest.
    rewrite read_embedded_no_dot, groups_end_stops by done. by destruct (1 <? S todo)%nat.
  - destruct todo as [|todo]; [simpl in Hl; lia |]. apply Forall_cons_1 in Hg as [Hg Hgs].
    assert (Hnd : no_char "." (groups_text i (g :: gs) ++ rest) = true)
      by (by rewrite no_char_app, groups_text_no_dot).
    erewrite read_groups_hex; [| by apply read_embedded_no_dot |].
    2:{ cbn [groups_text]. rewrite !append_assoc.
        by apply read_separator_group, groups_text_not_digit. }
    by rewrite IH by (done || (simpl in Hl; lia)).
Qed.

(** ** The compressed run *)

Definition zero_run (full : list Z) (z : Span) : Prop :=
  (start z + len z <= length full)%nat /\
  forall j, (start z <= j < start z + len z)%nat -> full !! j = Some 0.

Lemma zero_span_run full segs : forall i longest current,
  drop i full = segs -> (i + length segs = length full)%nat ->
  zero_run full longest -> zero_run full current ->
  (len current = 0 \/ start current + len current = i)%nat ->
  zero_run full (zero_span i segs longest current).
Proof.
  induction segs as [|s segs IH]; intros i longest current Hdrop Hlen Hl Hc Hi; [done |].
  assert (Hs : full !! i = Some s) by (by rewrite <- (Nat.add_0_r i), <- lookup_drop, Hdrop).
  assert (Hdrop' : drop (S i) full = segs) by (by rewrite <- Nat.add_1_r, <- drop_drop, Hdrop).
  simpl in Hlen. cbn [zero_span]. destruct (Z.eqb_spec s 0) as [-> |].
  - set (c := {| start := _; len := _ |}).
    assert (Hc' : zero_run full c /\ (start c + len c = S i)%nat).
    { subst c. unfold zero_run. simpl. destruct (Nat.eqb_spec (len current) 0) as [E|E]; simpl.
      - rewrite E. split; [split; [lia |] | lia]. intros j Hj. by replace j with i by lia.
      - destruct Hi as [Hi | Hi]; [lia |]. split; [split; [lia |] | lia]. intros j Hj.
        destruct (decide (j = i)) as [-> |]; [done |]. apply Hc. lia. }
    destruct Hc' as [Hrun Hend]. apply IH; [done | lia | by case_match | done | by right].
  - apply IH; [done | lia | done | | by left].
    split; simpl; [lia |]. intros j Hj. lia.
Qed.

Lemma zero_run_split full z :
  zero_run full z ->
  full = (take (start z) full ++ replicate (len z) 0%Z ++ drop (start z + len z) full)%list.
Proof.
  intros [Hl Hz]. rewrite <- (take_drop (start z) full) at 1. f_equal.
  rewrite <- drop_drop. rewrite <- (take_drop (len z) (drop (start z) full)) at 1. f_equal.
  apply list_eq_same_length with (n := len z); [by rewrite length_replicate | |].
  - rewrite length_take, length_drop. lia.
  - intros i x y Hi Hx Hy. apply lookup_replicate in Hy as [-> _].
    apply lookup_take_Some in Hx as [Hx _]. rewrite lookup_drop, Hz in Hx by lia. congruence.
Qed.

(** ** The round trip *)

Lemma read_groups_plain gs :
  Forall u16 gs -> length gs = 8%nat -> read_groups 8 0 (fmt_subslice gs) = (gs, false, "").
Proof.
  intros Hg Hl. rewrite fmt_subslice_text, <- (append_empty (groups_text 0 gs)).
  apply read_groups_text; [done | by left | done | lia].
Qed.

Lemma read_ipv6_compressed front back n ip :
  Forall u16 front -> Forall u16 back -> (2 <= n)%nat -> (length front + n + length back = 8)%nat ->
  ipv6_of_segments (front ++ replicate n 0 ++ back)%list = Some ip ->
  read_ipv6_addr (fmt_subslice front ++ "::" ++ fmt_subslice back) = Some (ip, "").
Proof.
  intros Hf Hb Hn Hl Hip. unfold read_ipv6_addr. rewrite !fmt_subslice_text.
  assert (Hnd : no_char "." ("::" ++ groups_text 0 back) = true)
    by (simpl; by rewrite groups_text_no_dot).
  rewrite read_groups_text by (done || (by right; eexists) || lia).
  rewrite (proj2 (Nat.eqb_neq _ _)) by lia. simpl.
  rewrite <- (append_empty (groups_text 0 back)).
  rewrite read_groups_text by (done || (by left) || lia).
  replace (8 - length front - length back)%nat with n by lia. by rewrite Hip.
Qed.

Lemma be16_div_mod g : be16 (g / 256) (g mod 256) = g.
Proof. unfold be16. pose proof (Z.div_mod g 256). lia. Qed.

Lemma u16_bytes g : u16 g -> u8 (g / 256) /\ u8 (g mod 256).
Proof.
  unfold u16, u8, in_uint. change (2 ^ 16) with 65536. change (2 ^ 8) with 256. intros H.
  split; [split; [apply Z.div_pos; lia | apply Z.div_lt_upper_bound; lia] |].
  apply Z.mod_pos_bound. lia.
Qed.

Lemma read_ipv6_mapped g h :
  u16 g -> u16 h ->
  read_ipv6_addr ("::ffff:" ++ show_v4 (g / 256) (g mod 256) (h / 256) (h mod 256))
  = Some (V6 0 0 0 0 0 65535 g h, "").
Proof.
  intros Hg Hh. destruct (u16_bytes g Hg), (u16_bytes h Hh). unfold read_ipv6_addr.
  set (v := show_v4 _ _ _ _).
  assert (Hv : read_groups 6 1 (":" ++ v) = ([g; h], true, "")).
  { cbn [read_groups]. change (1 <? 6)%nat with true.
    change (read_separator ":" 1 read_ipv4_addr (":" ++ v)) with (read_ipv4_addr v).
    unfold v. rewrite <- (append_empty (show_v4 _ _ _ _)), read_ipv4_show by done.
    by rewrite !be16_div_mod. }
  change (read_groups 8 0 ("::ffff:" ++ v)) with ([] : list Z, false, "::ffff:" ++ v).
  cbn -[read_groups ipv6_of_segments].
  assert (Ht : read_groups 7 0 ("ffff:" ++ v) = ([65535; g; h], true, "")).
  { rewrite (read_groups_hex 6 0 _ 65535 (":" ++ v)) by reflexivity. by rewrite Hv. }
  change (String "f" (String "f" (String "f" (String "f" (String ":" v))))) with ("ffff:" ++ v).
  rewrite Ht. reflexivity.
Qed.

Lemma to_ipv4_mapped_Some segs q :
  to_ipv4_mapped segs = Some q ->
  exists g h, segs = [0; 0; 0; 0; 0; 65535; g; h]
    /\ q = (g / 256, g mod 256, h / 256, h mod 256).
Proof. unfold to_ipv4_mapped. repeat case_match; intros; simplify_eq. eauto. Qed.

Lemma read_ipv6_show segs ip :
  Forall u16 segs -> ipv6_of_segments segs = Some ip -> read_ipv6_addr (show_v6 segs) = Some (ip, "").
Proof.
  intros Hs Hip. unfold show_v6.
  assert (Hlen : length segs = 8%nat) by (unfold ipv6_of_segments in Hip; by repeat case_match).
  destruct (to_ipv4_mapped segs) as [[[[a b] c] d]|] eqn:E.
  - apply to_ipv4_mapped_Some in E as (g & h & -> & [= -> -> -> ->]).
    rewrite !Forall_cons in Hs. destruct Hs as (_ & _ & _ & _ & _ & _ & Hg & Hh & _).
    simplify_eq/=. by apply read_ipv6_mapped.
  - set (z := zero_span _ _ _ _).
    assert (Hz : zero_run segs z).
    { apply zero_span_run; [done | simpl; lia | | | by left]; split; simpl; lia || (intros; lia). }
    destruct (Nat.ltb_spec 1 (len z)) as [Hlt | _].
    + pose proof (zero_run_split _ _ Hz) as Hsplit. destruct Hz as [Hle _].
      eapply read_ipv6_compressed with (n := len z);
        [by apply Forall_take | by apply Forall_drop | lia | | by rewrite <- Hsplit].
      rewrite length_take, length_drop. lia.
    + unfold read_ipv6_addr. rewrite read_groups_plain by done. by rewrite Hlen, Hip.
Qed.

Lemma show_v6_no_ipv4 segs : read_ipv4_addr (show_v6 segs) = None.
Proof.
  unfold show_v6. destruct (to_ipv4_mapped segs) as [[[[a b] c] d]|]; [reflexivity |].
  apply read_ipv4_no_dot. case_match; rewrite ?no_char_app, !fmt_subslice_text, !groups_text_no_dot; done.
Qed.

Lemma parse_show_ip ip : wf_ip ip -> parse_ip (show_ip ip) = Some ip.
Proof.
  unfold parse_ip, read_ip_addr. destruct ip as [a b c d | s0 s1 s2 s3 s4 s5 s6 s7]; simpl show_ip.
  - intros (Ha & Hb & Hc & Hd). rewrite <- (append_empty (show_v4 a b c d)).
    by rewrite read_ipv4_show.
  - intros Hs. rewrite show_v6_no_ipv4. by rewrite (read_ipv6_show _ (V6 s0 s1 s2 s3 s4 s5 s6 s7)).
Qed.

Lemma show_ip_no_slash ip : no_char "/" (show_ip ip) = true.
Proof.
  assert (Hp : punctuation "/") by (by right; right).
  assert (Hg : forall i gs, no_char "/" (groups_text i gs) = true).
  { intros i gs. revert i. induction gs as [|g gs IH]; intros i; [done |]. cbn [groups_text].
    rewrite !no_char_app, IH, show_hex_no_char by done. by destruct i. }
  assert (H4 : forall a b c d, no_char "/" (show_v4 a b c d) = true).
  { intros. unfold show_v4. by rewrite !no_char_app, !show_dec_no_char. }
  destruct ip as [a b c d | s0 s1 s2 s3 s4 s5 s6 s7]; [apply H4 |]. unfold show_ip, show_v6.
  case_match; [repeat case_match; by rewrite no_char_app, H4 |].
  case_match; by rewrite ?no_char_app, !fmt_subslice_text, !Hg.
Qed.

(** ** Printed numbers and addresses are printable text *)

Lemma show_radix_graphic radix n : 2 <= radix <= 16 -> graphic_text (show_radix radix n).
Proof.
  intros Hr. unfold show_radix. set (fuel := S _).
  change (digits fuel radix n "") with (digits fuel radix n (digit_text [])).
  rewrite digits_text. unfold graphic_text.
  pose proof (digit_list_digits radix Hr fuel n [] ltac:(constructor)) as H.
  induction H as [|d ds Hd _ IH]; simpl; constructor; [| done]. unfold is_digit in Hd.
  pose proof (forallb_seqZ (fun d => within 33 126 (byte_of (digit_char d))) 16 d
                ltac:(vm_compute; reflexivity) ltac:(lia)) as Hg.
  unfold within in Hg. apply andb_true_iff in Hg as [H1%Z.leb_le H2%Z.leb_le]. split; done.
Qed.

Lemma show_radix_nonempty radix n : show_radix radix n <> "".
Proof.
  unfold show_radix. cbn [digits]. generalize (Z.to_nat (Z.log2 n)). intros fuel.
  set (c := digit_char _). case_match; [done |].
  assert (Hne : forall k m x acc, digits k radix m (String x acc) <> "").
  { induction k as [|k IH]; intros; simpl; [done |]. case_match; [done | apply IH]. }
  apply Hne.
Qed.

Lemma groups_text_graphic i gs : graphic_text (groups_text i gs).
Proof.
  revert i. induction gs as [|g gs IH]; intros i; [constructor |]. cbn [groups_text].
  repeat apply graphic_text_app; [| by apply show_radix_graphic | apply IH].
  destruct i; decide_text.
Qed.

Lemma show_v4_graphic a b c d : graphic_text (show_v4 a b c d).
Proof.
  unfold show_v4. repeat apply graphic_text_app; try (by apply show_radix_graphic);
    decide_text.
Qed.

Lemma show_ip_graphic ip : graphic_text (show_ip ip).
Proof.
  destruct ip as [a b c d | s0 s1 s2 s3 s4 s5 s6 s7]; [apply show_v4_graphic |].
  unfold show_ip, show_v6. case_match.
  - repeat case_match. apply graphic_text_app; [| apply show_v4_graphic].
    decide_text.
  - case_match; rewrite !fmt_subslice_text; [| apply groups_text_graphic].
    apply graphic_text_app; [apply groups_text_graphic |].
    apply graphic_text_app; [decide_text | apply groups_text_graphic].
Qed.

Lemma show_ip_nonempty ip : wf_ip ip -> show_ip ip <> "".
Proof. intros Hw E. pose proof (parse_show_ip ip Hw) as H. rewrite E in H. done. Qed.

(** ** [u8::from_str] reads what [Display] printed *)

Lemma digits_value_nonneg radix ds acc :
  0 <= radix -> Forall (is_digit radix) ds -> 0 <= acc ->
  acc <= fold_left (fun acc d => acc * radix + d) ds acc \/ radix = 0.
Proof.
  intros Hr Hds. revert acc. induction Hds as [|d ds Hd _ IH]; intros acc Ha; simpl; [lia |].
  unfold is_digit in Hd. destruct (IH (acc * radix + d)) as [H | H]; [nia | | by right]. left. nia.
Qed.

Lemma from_digits_text max ds acc :
  Forall (is_digit 10) ds -> 0 <= acc -> fold_left (fun acc d => acc * 10 + d) ds acc <= max ->
  from_digits max acc (digit_text ds) = Some (fold_left (fun acc d => acc * 10 + d) ds acc).
Proof.
  intros Hds. revert acc. induction Hds as [|d ds Hd Hds IH]; intros acc Ha Hm; simpl in *; [done |].
  unfold is_digit in Hd. rewrite dec_roundtrip by done.
  destruct (digits_value_nonneg 10 ds (acc * 10 + d) ltac:(lia) Hds ltac:(lia)); [| lia].
  rewrite (proj2 (Z.leb_le _ _)) by lia. apply IH; lia.
Qed.

Lemma parse_uint_show max n : 0 <= n <= max -> parse_uint max (show n) = Some n.
Proof.
  intros Hn. unfold parse_uint.
  assert (Hp : strip_prefix "+" (show n) = None).
  { pose proof (show_radix_graphic 10 n ltac:(lia)) as Hg. unfold show, show_radix in *.
    set (fuel := S _) in *. change (digits fuel 10 n "") with (digits fuel 10 n (digit_text [])) in *.
    rewrite digits_text in *. pose proof (digit_list_digits 10 ltac:(lia) fuel n [] ltac:(constructor)) as H.
    destruct H as [|d ds Hd _]; [done |]. unfold is_digit in Hd. cbn [digit_text foldr strip_prefix].
    pose proof (forallb_seqZ (fun d => negb (Ascii.eqb "+" (digit_char d))) 16 d
                  ltac:(vm_compute; reflexivity) ltac:(lia)) as E.
    apply negb_true_iff in E. by rewrite E. }
  rewrite Hp. destruct (is_empty (show n)) eqn:E.
  { pose proof (show_radix_nonempty 10 n). unfold show in E. by destruct (show_radix 10 n). }
  unfold show, show_radix. set (fuel := S _).
  change (digits fuel 10 n "") with (digits fuel 10 n (digit_text [])). rewrite digits_text.
  pose proof (digit_list_digits 10 ltac:(lia) fuel n [] ltac:(constructor)) as Hd.
  assert (Hv : digits_value 10 (digit_list 10 fuel n []) = n).
  { rewrite digit_list_value; [simpl; unfold digits_value; simpl; lia | lia |].
    split; [lia |]. apply (show_fuel 10); lia. }
  unfold digits_value in Hv. rewrite from_digits_text by (done || lia). by rewrite Hv.
Qed.

(** ** What the reader accepts is well formed *)

Lemma read_digits_digits radix s ds r :
  read_digits radix s = (ds, r) -> Forall (is_digit radix) ds.
Proof.
  revert ds. induction s as [|c s IH]; intros ds; simpl; [intros [= <- <-]; constructor |].
  destruct (to_digit radix c) as [d|] eqn:E; [| intros [= <- <-]; constructor].
  destruct (read_digits radix s) as [ds' r'] eqn:Er. intros [= <- <-]. constructor; [| by apply IH].
  unfold to_digit, within in E. unfold is_digit. pose proof (N2Z.is_nonneg (N_of_ascii c)).
  fold (byte_of c) in *. repeat case_match; simplify_eq; lia.
Qed.

Lemma read_number_range radix k max allow s v r :
  0 < radix -> read_number radix k max allow s = Some (v, r) -> 0 <= v <= max.
Proof.
  intros Hr. unfold read_number. destruct (read_digits radix s) as [ds r'] eqn:E.
  pose proof (read_digits_digits _ _ _ _ E) as Hd. repeat case_match; intros; simplify_eq.
  destruct (digits_value_nonneg radix ds 0 ltac:(lia) Hd ltac:(lia)); [| lia].
  split; [done | by apply Z.leb_le].
Qed.

Lemma read_separator_inv {A} sep i (p : Parser A) s v r :
  read_separator sep i p s = Some (v, r) -> exists s', p s' = Some (v, r).
Proof. destruct i; simpl; [eauto |]. case_match; [| done]. case_match. eauto. Qed.

Lemma read_octet_u8 i s v r : read_octet i s = Some (v, r) -> u8 v.
Proof.
  intros [s' H]%read_separator_inv. apply read_number_range in H; [| lia].
  unfold u8, in_uint. change (2 ^ 8) with 256. lia.
Qed.

Lemma read_ipv4_wf s a b c d r :
  read_ipv4_addr s = Some (a, b, c, d, r) -> u8 a /\ u8 b /\ u8 c /\ u8 d.
Proof.
  unfold read_ipv4_addr. repeat case_match; intros; simplify_eq.
  repeat match goal with H : read_octet _ _ = _ |- _ => apply read_octet_u8 in H end. done.
Qed.

Lemma read_groups_wf todo : forall i s gs v4 r,
  read_groups todo i s = (gs, v4, r) -> Forall u16 gs.
Proof.
  induction todo as [|todo IH]; intros i s gs v4 r; [by intros [= <- <- <-] |].
  cbn [read_groups].
  destruct (if (1 <? S todo)%nat then read_separator ":" i read_ipv4_addr s else None)
    as [[[[[a b] c] d] r']|] eqn:E.
  - case_match; [| done]. apply read_separator_inv in E as [s' E]. apply read_ipv4_wf in E.
    intros [= <- <- <-]. destruct_and!. eauto using be16_u16.
  - destruct (read_separator ":" i (read_number 16 4 65535 true) s) as [[g r']|] eqn:E6;
      [| by intros [= <- <- <-]].
    destruct (read_groups todo (S i) r') as [[gs' v4'] r''] eqn:Er. intros [= <- <- <-].
    constructor; [| by eapply IH].
    apply read_separator_inv in E6 as [s' E6]. apply read_number_range in E6; [| lia].
    unfold u16, in_uint. change (2 ^ 16) with 65536. lia.
Qed.

Lemma ipv6_of_segments_wf segs ip : Forall u16 segs -> ipv6_of_segments segs = Some ip -> wf_ip ip.
Proof. intros H. unfold ipv6_of_segments. repeat case_match; intros; simplify_eq. exact H. Qed.

Lemma read_ipv6_wf s ip r : read_ipv6_addr s = Some (ip, r) -> wf_ip ip.
Proof.
  unfold read_ipv6_addr. destruct (read_groups 8 0 s) as [[gs v4] s1] eqn:E.
  apply read_groups_wf in E. repeat case_match; intros; simplify_eq;
    (eapply ipv6_of_segments_wf; [| eassumption]); [done |].
  match goal with H : read_groups _ _ _ = _ |- _ => apply read_groups_wf in H end.
  rewrite !Forall_app. repeat split; [done | | done]. apply Forall_replicate. by unfold u16, in_uint.
Qed.

Lemma parse_ip_wf s ip : parse_ip s = Some ip -> wf_ip ip.
Proof.
  unfold parse_ip, read_ip_addr. destruct (read_ipv4_addr s) as [[[[[a b] c] d] r]|] eqn:E.
  - destruct r; [| done]. intros [= <-]. by apply read_ipv4_wf in E.
  - destruct (read_ipv6_addr s) as [[ip' r]|] eqn:E6; [| done]. destruct r; [| done].
    intros [= <-]. by eapply read_ipv6_wf.
Qed.

Lemma to_digit_range radix c d : to_digit radix c = Some d -> 0 <= d < radix.
Proof.
  unfold to_digit, within. pose proof (N2Z.is_nonneg (N_of_ascii c)). fold (byte_of c) in *.
  repeat case_match; intros; simplify_eq; lia.
Qed.

Lemma parse_uint_nonneg max s n : parse_uint max s = Some n -> 0 <= n.
Proof.
  assert (H : forall s acc, 0 <= acc -> from_digits max acc s = Some n -> 0 <= n).
  { clear. induction s as [|c s IH]; intros acc Ha; simpl; [by intros [= <-] |].
    destruct (to_digit 10 c) as [d|] eqn:E; [| done]. apply to_digit_range in E.
    case_match; [| done]. apply IH. lia. }
  unfold parse_uint. case_match; [done |]. by apply H.
Qed.
