(* ===== verification/Codec.v ===== *)
(** * Base64, as the crate uses it

    [BASE64_STANDARD] is a library the crate calls: its encoder and decoder
    are parameters, and [Base64Laws] is what the crate relies on.  The
    hexadecimal codec is an instance, for concrete evaluations. *)

From Stdlib Require Import ZArith Lia String Ascii.
From stdpp Require Import gmap strings numbers prelude.
From S2P Require Import Prelude TextFacts Net NetFacts.

Open Scope string_scope.
Open Scope Z_scope.

(** What the crate relies on of standard base64: decoding inverts encoding,
    and encodings are printable and non-empty. *)
Class Base64Laws (b64_encode : list Z -> string) (b64_decode : string -> option (list Z)) : Prop := {
  b64_roundtrip l : Forall u8 l -> b64_decode (b64_encode l) = Some l;
  b64_printable l : Forall u8 l -> graphic_text (b64_encode l);
  b64_nonempty l : l <> [] -> b64_encode l <> ""
}.

(** ** A codec for which the laws hold: two hexadecimal digits a byte *)

Definition hex_encode (l : list Z) : string :=
  foldr (fun b s => String (digit_char (b / 16)) (String (digit_char (b mod 16)) s)) "" l.

Fixpoint hex_decode (s : string) : option (list Z) :=
  match s with
  | EmptyString => Some []
  | String h (String l s) =>
      match to_digit 16 h, to_digit 16 l, hex_decode s with
      | Some h, Some l, Some r => Some (h * 16 + l :: r)
      | _, _, _ => None
      end
  | _ => None
  end.

Lemma u8_nibbles b : u8 b -> 0 <= b / 16 < 16 /\ 0 <= b mod 16 < 16.
Proof.
  unfold u8, in_uint. change (2 ^ 8) with 256. intros H. split.
  - split; [apply Z.div_pos; lia | apply Z.div_lt_upper_bound; lia].
  - apply Z.mod_pos_bound. lia.
Qed.

Lemma digit_char_graphic d : 0 <= d < 16 -> graphic (byte_of (digit_char d)).
Proof.
  intros Hd. pose proof (forallb_seqZ (fun d => within 33 126 (byte_of (digit_char d))) 16 d
                ltac:(vm_compute; reflexivity) Hd) as Hg.
  unfold within in Hg. apply andb_true_iff in Hg as [H1%Z.leb_le H2%Z.leb_le]. done.
Qed.

#[export] Instance hex_laws : Base64Laws hex_encode hex_decode.
Proof.
  split.
  - induction 1 as [|b l Hb _ IH]; [done |]. cbn [hex_encode foldr hex_decode].
    destruct (u8_nibbles b Hb). rewrite !hex_roundtrip by done. fold (hex_encode l). rewrite IH.
    pose proof (Z.div_mod b 16 ltac:(lia)).
    by replace (b / 16 * 16 + b mod 16) with b by lia.
  - unfold graphic_text. induction 1 as [|b l Hb _ IH]; simpl; [constructor |].
    destruct (u8_nibbles b Hb). rewrite !Forall_cons. auto using digit_char_graphic.
  - by intros [].
Qed.
