(* ===== verification/Errors.v ===== *)
(** * Errors and observations

    [src/error.rs]: every way a tunnel can refuse to carry traffic, with the
    operator-facing text of each variant, and the identity of a tunnel's
    slot-freed signal.  [Observation] is what a [TunnelObserver]
    ([src/provider.rs]) is told. *)

From Stdlib Require Import ZArith String Ascii.
From stdpp Require Import gmap strings numbers prelude.
From S2P Require Import Prelude.

Open Scope string_scope.
Open Scope Z_scope.

(** One tunnel's signal equals only itself: a [SlotFreed] is the identity of
    its [Arc]. *)
Record SlotFreed : Type := { slot_freed_id : nat }.

#[export] Instance SlotFreed_eq_dec : EqDecision SlotFreed.
Proof. solve_decision. Defined.

Inductive TunnelError : Type :=
| Configuration (message : string)
| HostKeyMismatch (host : string) (port : Z) (expected actual : string)
| Connect (host : string) (port : Z) (detail : string)
| Auth (username host : string) (port : Z) (detail : string)
| Dial (host : string) (port : Z) (detail : string)
| WireGuardConnect (host : string) (port : Z) (detail : string)
| Http3Connect (host : string) (port : Z) (detail : string)
| Http3Tls (host : string) (port : Z)
| Http3ProxyStatus (status : Z)
| AtCapacity (open : Z) (freed : SlotFreed)
| Engine (message : string).

#[export] Instance TunnelError_eq_dec : EqDecision TunnelError.
Proof. solve_decision. Defined.

Definition host_port (host : string) (port : Z) : string := host ++ ":" ++ show port.

(** [Display for TunnelError]. *)
Definition error_to_string (e : TunnelError) : string :=
  match e with
  | Configuration m => m
  | HostKeyMismatch host port expected actual =>
      "host key changed for " ++ host_port host port ++ ": pinned " ++ expected ++
      ", server offered " ++ actual ++
      "; verify the server and reset the pinned host key if the change was expected"
  | Connect host port detail =>
      "could not establish an SSH session to " ++ host_port host port ++ ": " ++ detail
  | Auth username host port detail =>
      "SSH authentication failed for " ++ username ++ "@" ++ host_port host port ++ ": " ++ detail
  | Dial host port detail => "tunnel could not reach " ++ host_port host port ++ ": " ++ detail
  | WireGuardConnect host port detail =>
      "could not establish a WireGuard tunnel to " ++ host_port host port ++ ": " ++ detail
  | Http3Connect host port detail =>
      "could not establish HTTP/3 CONNECT to " ++ host_port host port ++ ": " ++ detail
  | Http3Tls host port => "HTTP/3 proxy TLS authentication failed for " ++ host_port host port
  | Http3ProxyStatus status => "HTTP/3 proxy refused CONNECT with HTTP " ++ show status
  | AtCapacity open _ => "the tunnel is full, with " ++ show open ++ " open"
  | Engine m => "tunnel engine unavailable: " ++ m
  end.

(** What a [TunnelObserver] receives, in the order it receives it. *)
Inductive Observation : Type :=
| DialFailed (proxy_config_id message : string)
| DialSucceeded (proxy_config_id : string)
| AuthorizeHostKey (proxy_config_id fingerprint : string)
| HostKeyPinned (proxy_config_id fingerprint : string).

#[export] Instance Observation_eq_dec : EqDecision Observation.
Proof. solve_decision. Defined.
