(* ===== verification/Endpoint.v ===== *)
(** * Endpoint transports ([src/endpoint.rs])

    The sockets a provider reaches the network through: the interface of a
    datagram socket that lives somewhere other than the operating system, and
    the two transports of the operating system.  The system calls themselves
    are parameters, read in the order the code makes them. *)

From Stdlib Require Import ZArith Lia String Ascii.
From stdpp Require Import gmap strings numbers prelude.
From S2P Require Import Prelude Net Errors.

Open Scope string_scope.
Open Scope Z_scope.

(** ** Datagram sockets *)

(** [DatagramSocket], for sockets [D] of an environment [Env]; waiting is
    [Pending].  [ds_closed] is [closed], as a poll. *)
Class DatagramSocket (Env D : Type) : Type := {
  ds_send_to : D -> list Z -> SocketAddr -> Env -> Poll (Result unit IoError) * Env;
  ds_recv_from : D -> nat -> Env -> Poll (Result (list Z * SocketAddr) IoError) * Env;
  ds_local_addr : D -> Env -> option SocketAddr;
  ds_link_mtu : D -> Env -> option Z;
  ds_is_closed : D -> Env -> bool
}.

(** What a user of such a socket relies on while the socket exists
    ([ds_live]).  [ds_queue] are the datagrams that have arrived: a receive
    takes the oldest, one that does not fit is lost to it, and a closed socket
    fails every call rather than keep its caller waiting. *)
Class DatagramLaws (Env D : Type) `{DatagramSocket Env D} : Type := {
  ds_live : D -> Env -> Prop;
  ds_queue : D -> Env -> list (list Z * SocketAddr);
  ds_recv_closed d room env :
    ds_live d env -> ds_is_closed d env = true ->
    exists e, ds_recv_from d room env = (Ready (Err (BrokenPipe, e)), env);
  ds_send_closed d data target env :
    ds_live d env -> ds_is_closed d env = true ->
    exists e, ds_send_to d data target env = (Ready (Err (BrokenPipe, e)), env);
  ds_recv_empty d room env :
    ds_live d env -> ds_is_closed d env = false -> ds_queue d env = [] ->
    exists env', ds_recv_from d room env = (Pending, env')
      /\ ds_live d env' /\ ds_is_closed d env' = false /\ ds_queue d env' = [];
  ds_recv_next d room env data from rest :
    ds_live d env -> ds_is_closed d env = false -> ds_queue d env = (data, from) :: rest ->
    exists env', ds_live d env' /\ ds_is_closed d env' = false /\ ds_queue d env' = rest
      /\ (if (length data <=? room)%nat then ds_recv_from d room env = (Ready (Ok (data, from)), env')
          else exists e, ds_recv_from d room env = (Ready (Err (InvalidData, e)), env'))
}.

(** An address worth reporting: known and not the wildcard.  What a
    provider's [source_address] says of a socket it bound. *)
Definition reported (a : Result SocketAddr IoError) : option SocketAddr :=
  match a with Ok a => if is_unspecified (sa_ip a) then None else Some a | Err _ => None end.

(** ** The operating system's transports *)

Section System.
Context {Tcp Os : Type}.

(** What connecting came to, on each system call in turn. *)
Record TcpHost : Type := {
  tcp_connected : string -> Z -> Result Tcp string;
  tcp_set_nodelay : Tcp -> Result unit string;
  tcp_local_addr : Tcp -> option SocketAddr
}.

Record EndpointStream : Type := { es_stream : Tcp; es_source : option SocketAddr }.

(** [SystemEndpointTransport::connect]. *)
Definition system_connect (h : TcpHost) (host : string) (port : Z) : Result EndpointStream TunnelError :=
  let? stream := map_err (Connect host port) (tcp_connected h host port) in
  let? _ := map_err Engine (tcp_set_nodelay h stream) in
  Ok {| es_stream := stream; es_source := tcp_local_addr h stream |}.

Definition is_ipv4 (a : SocketAddr) : bool := match sa_ip a with V4 _ _ _ _ => true | V6 _ _ _ _ _ _ _ _ => false end.

(** [SystemUdpSocketFactory::bind]: the wildcard address of the peer's family. *)
Definition wildcard (peer : SocketAddr) : string := if is_ipv4 peer then "0.0.0.0:0" else "[::]:0".

Definition system_udp_bind (bind : string -> Result Os IoError) (set_nonblocking : Os -> Result unit IoError)
    (peer : SocketAddr) : Result Os IoError :=
  let? socket := bind (wildcard peer) in
  let? _ := set_nonblocking socket in
  Ok socket.

End System.
