(* ===== verification/Runtime.v ===== *)
(** * Interfaces to the asynchronous runtime

    What the crate relies on of tokio, as type classes with laws: the counting
    semaphore behind connection admission, the bounded channel behind the
    packet queues.  Components are proved against the classes; a concrete
    instance of each shows that the laws can hold. *)

From Stdlib Require Import ZArith Lia Bool.
From stdpp Require Import gmap strings numbers prelude.
From S2P Require Import Prelude.

(** ** [tokio::sync::Semaphore] *)

Class Semaphore (S : Type) : Type := {
  sem_new : nat -> S;
  sem_available : S -> nat;
  sem_try_acquire : S -> option S;
  sem_release : S -> S
}.

Class SemaphoreLaws (S : Type) `{!Semaphore S} : Prop := {
  available_new n : sem_available (sem_new n) = n;
  try_acquire_free (s : S) :
    (0 < sem_available s)%nat ->
    exists s', sem_try_acquire s = Some s' /\ sem_available s = Datatypes.S (sem_available s');
  try_acquire_full (s : S) : sem_available s = O -> sem_try_acquire s = None;
  available_release (s : S) : sem_available (sem_release s) = Datatypes.S (sem_available s)
}.

#[export] Instance nat_semaphore : Semaphore nat := {
  sem_new n := n;
  sem_available n := n;
  sem_try_acquire n := match n with O => None | S n => Some n end;
  sem_release := S
}.

#[export] Instance nat_semaphore_laws : SemaphoreLaws nat.
Proof.
  split; simpl; try done.
  - intros [|s] Hs; [lia | by exists s].
  - by intros [|s].
Qed.

Section Permits.
Context {S : Type} `{!Semaphore S, !SemaphoreLaws S}.

Lemma try_acquire_available (s s' : S) :
  sem_try_acquire s = Some s' -> sem_available s = Datatypes.S (sem_available s').
Proof.
  intros H. destruct (sem_available s) eqn:E.
  - by rewrite (try_acquire_full s E) in H.
  - destruct (try_acquire_free s) as (t & Ht & Ha); [lia |]. congruence.
Qed.

Lemma try_acquire_none (s : S) : sem_try_acquire s = None <-> sem_available s = O.
Proof.
  split; [| apply try_acquire_full].
  intros H. destruct (sem_available s) eqn:E; [done |].
  destruct (try_acquire_free s) as (t & Ht & _); [lia | congruence].
Qed.

(** Returning [n] permits at once, as when a set of tasks is dropped. *)
Lemma available_release_n n (s : S) :
  sem_available (Nat.iter n sem_release s) = (n + sem_available s)%nat.
Proof. induction n; simpl; [done |]. rewrite available_release. lia. Qed.

End Permits.

(** ** [tokio::sync::mpsc]: a bounded channel

    [chan_closed]: the receiver is gone, so nothing can be sent;
    [chan_ended]: every sender is gone, so what is queued is all there will
    be. *)

Class Channel (C A : Type) : Type := {
  chan_new : nat -> C;
  chan_queued : C -> list A;
  chan_capacity : C -> nat;
  chan_max_capacity : C -> nat;
  chan_closed : C -> bool;
  chan_ended : C -> bool;
  chan_try_send : A -> C -> option C;
  chan_recv_many : nat -> C -> list A * C;
  chan_drop_receiver : C -> C
}.

Class ChannelLaws (C A : Type) `{!Channel C A} : Prop := {
  queued_new n : chan_queued (chan_new n) = [];
  max_capacity_new n : chan_max_capacity (chan_new n) = n;
  closed_new n : chan_closed (chan_new n) = false;
  capacity_queued (c : C) :
    (chan_capacity c + length (chan_queued c))%nat = chan_max_capacity c;
  try_send_room (a : A) (c : C) :
    chan_closed c = false -> (0 < chan_capacity c)%nat ->
    exists c', chan_try_send a c = Some c' /\ chan_queued c' = chan_queued c ++ [a] /\
               chan_max_capacity c' = chan_max_capacity c /\ chan_closed c' = false;
  try_send_full (a : A) (c : C) :
    chan_closed c = true \/ chan_capacity c = O -> chan_try_send a c = None;
  recv_many_take n (c : C) got c' :
    chan_recv_many n c = (got, c') ->
    got = take n (chan_queued c) /\ chan_queued c' = drop n (chan_queued c) /\
    chan_max_capacity c' = chan_max_capacity c /\ chan_closed c' = chan_closed c;
  drop_receiver_closes (c : C) :
    chan_closed (chan_drop_receiver c) = true /\ chan_queued (chan_drop_receiver c) = [] /\
    chan_max_capacity (chan_drop_receiver c) = chan_max_capacity c
}.

Section Sending.
Context {C A : Type} `{!Channel C A, !ChannelLaws C A}.

Lemma try_send_some (a : A) (c c' : C) :
  chan_try_send a c = Some c' ->
  chan_queued c' = chan_queued c ++ [a] /\ chan_max_capacity c' = chan_max_capacity c
  /\ chan_closed c' = false /\ chan_closed c = false.
Proof.
  intros H. destruct (chan_closed c) eqn:Ec; [by rewrite try_send_full in H by (by left) |].
  destruct (chan_capacity c) eqn:En; [by rewrite try_send_full in H by (by right) |].
  destruct (try_send_room a c Ec) as (d & Hd & H1 & H2 & H3); [lia |]. simplify_eq. done.
Qed.

Lemma queued_bound (c : C) : (length (chan_queued c) <= chan_max_capacity c)%nat.
Proof. pose proof (capacity_queued c). lia. Qed.

End Sending.

(** A channel as its queue, its bound and which ends are gone. *)
Record ListChannel (A : Type) : Type := {
  lc_queue : list A;
  lc_max : nat;
  lc_closed : bool;
  lc_ended : bool;
  lc_bound : (length lc_queue <=? lc_max)%nat = true
}.
Arguments lc_queue {A}.
Arguments lc_max {A}.
Arguments lc_closed {A}.
Arguments lc_ended {A}.
Arguments lc_bound {A}.

Lemma drop_bound {A} (n m : nat) (l : list A) :
  (length l <=? m)%nat = true -> (length (drop n l) <=? m)%nat = true.
Proof. rewrite !Nat.leb_le, length_drop. lia. Qed.

Definition lc_try_send {A} (a : A) (c : ListChannel A) : option (ListChannel A) :=
  if lc_closed c then None else
  match bool_dec (length (lc_queue c ++ [a]) <=? lc_max c)%nat true with
  | left H => Some {| lc_queue := lc_queue c ++ [a]; lc_max := lc_max c; lc_closed := lc_closed c;
                      lc_ended := lc_ended c; lc_bound := H |}
  | right _ => None
  end.

#[export] Instance list_channel {A} : Channel (ListChannel A) A := {
  chan_new n := {| lc_queue := []; lc_max := n; lc_closed := false; lc_ended := false;
                   lc_bound := eq_refl |};
  chan_queued := lc_queue;
  chan_capacity c := (lc_max c - length (lc_queue c))%nat;
  chan_max_capacity := lc_max;
  chan_closed := lc_closed;
  chan_ended := lc_ended;
  chan_try_send := lc_try_send;
  chan_recv_many n c :=
    (take n (lc_queue c),
     {| lc_queue := drop n (lc_queue c); lc_max := lc_max c; lc_closed := lc_closed c;
        lc_ended := lc_ended c; lc_bound := drop_bound n _ _ (lc_bound c) |});
  chan_drop_receiver c :=
    {| lc_queue := []; lc_max := lc_max c; lc_closed := true; lc_ended := lc_ended c; lc_bound := eq_refl |}
}.

#[export] Instance list_channel_laws {A} : ChannelLaws (ListChannel A) A.
Proof.
  split; try done.
  - intros c. simpl. pose proof (proj1 (Nat.leb_le _ _) (lc_bound c)). lia.
  - intros a c Hc Hr. simpl in *. unfold lc_try_send. rewrite Hc.
    destruct (bool_dec _ _) as [H | H]; [by eexists |].
    destruct H. apply Nat.leb_le. rewrite length_app. simpl. lia.
  - intros a c Hc. simpl in *. unfold lc_try_send. destruct (lc_closed c); [done |].
    destruct Hc as [? | Hc]; [done |]. destruct (bool_dec _ _) as [H | H]; [| done].
    exfalso. pose proof (proj1 (Nat.leb_le _ _) H) as Hl. rewrite length_app in Hl. simpl in Hl.
    pose proof (proj1 (Nat.leb_le _ _) (lc_bound c)). lia.
  - intros n c got c' [= <- <-]. done.
Qed.
