(* ===== verification/Socks5.v ===== *)
(** * The loopback SOCKS5 front ([src/socks5.rs])

    One connection is a run of [handle_connection] over a [Conn]: the bytes
    the peer has sent, whether it then stalls or closes, which of our writes
    are taken, fail or wait, and the trace of everything the front did.
    [Pending] is a read or a write that never completes: the handshake budget
    ends one of the negotiation, and nothing ends a reply the peer does not
    take or a relay that goes on.  The accept
    loop is [serve_step], over the two semaphores that admit connections. *)

From Stdlib Require Import ZArith Lia String Ascii.
From stdpp Require Import gmap strings numbers prelude.
From S2P Require Import Prelude TextFacts Net Errors Runtime.

Open Scope string_scope.
Open Scope Z_scope.

Definition SOCKS5_VERSION : Z := 5.
Definition METHOD_PASSWORD : Z := 2.
Definition METHOD_NONE_ACCEPTABLE : Z := 255.
Definition CMD_CONNECT : Z := 1.
Definition ATYP_IPV4 : Z := 1.
Definition ATYP_DOMAIN : Z := 3.
Definition ATYP_IPV6 : Z := 4.

Definition REPLY_SUCCEEDED : Z := 0.
Definition REPLY_GENERAL_FAILURE : Z := 1.
Definition REPLY_HOST_UNREACHABLE : Z := 4.
Definition REPLY_CONNECTION_REFUSED : Z := 5.
Definition REPLY_COMMAND_NOT_SUPPORTED : Z := 7.
Definition REPLY_ADDRESS_TYPE_NOT_SUPPORTED : Z := 8.

Definition MAX_FRONT_CONNECTIONS : nat := 256.
Definition MAX_REGISTRY_CONNECTIONS : nat := 1024.

(** ** Credentials *)

Record Socks5Credentials : Type := { username : string; password : string }.

#[export] Instance Socks5Credentials_eq_dec : EqDecision Socks5Credentials.
Proof. solve_decision. Defined.

Definition credentials_new (user pass : string) : Result Socks5Credentials TunnelError :=
  if is_empty user || (255 <? str_len user) || is_empty pass || (255 <? str_len pass)
  then Err (Configuration "invalid internal SOCKS credential length")
  else Ok {| username := user; password := pass |}.

(** ** One connection *)

Inductive Socks5Failure : Type :=
| FIo (kind : ErrorKind)
| FProtocol (detail : string)
| FDial (error : TunnelError).

Inductive Effect : Type :=
| Wrote (bytes : list Z)
| Dialled (host : string) (port : Z)
| Observed (o : Observation)
| Pumped.

#[export] Instance Effect_eq_dec : EqDecision Effect.
Proof. solve_decision. Defined.

(** What becomes of a write: the peer takes it, it fails, or it waits for a
    peer that does not read. *)
Inductive WriteFate : Type := Taken | Failing (kind : ErrorKind) | Waiting.

(** [faults] are the fates of the writes to come; past its end they are taken.
    The trace has the writes that completed. *)
Record Conn : Type := {
  unread : list Z;
  stalls : bool;
  faults : list WriteFate;
  trace : list Effect
}.

Definition M (A : Type) : Type := Conn -> Poll (Result A Socks5Failure) * Conn.

Definition ret {A} (a : A) : M A := fun c => (Ready (Ok a), c).
Definition fail {A} (e : Socks5Failure) : M A := fun c => (Ready (Err e), c).
Definition bind {A B} (m : M A) (k : A -> M B) : M B := fun c =>
  match m c with
  | (Ready (Ok a), c) => k a c
  | (Ready (Err e), c) => (Ready (Err e), c)
  | (Pending, c) => (Pending, c)
  end.

Notation "'let*' x := m 'in' k" := (bind m (fun x => k))
  (at level 10, x name, m at level 100, k at level 200) : rust_scope.
Notation "m ;; k" := (bind m (fun _ => k)) (at level 100, k at level 200) : rust_scope.

Definition log (e : Effect) (c : Conn) : Conn :=
  {| unread := unread c; stalls := stalls c; faults := faults c; trace := (trace c ++ [e])%list |}.

(** [read_exact]: short input is an error at end of stream and waits otherwise. *)
Definition read_exact (n : nat) : M (list Z) := fun c =>
  if (n <=? length (unread c))%nat then
    (Ready (Ok (take n (unread c))),
     {| unread := drop n (unread c); stalls := stalls c; faults := faults c; trace := trace c |})
  else if stalls c then (Pending, c)
  else (Ready (Err (FIo UnexpectedEof)), c).

Definition next_fate (c : Conn) : WriteFate := default Taken (head (faults c)).

(** [write_all]: the next entry of [faults] says what becomes of this write. *)
Definition write_all (bs : list Z) : M unit := fun c =>
  let c' := {| unread := unread c; stalls := stalls c; faults := tail (faults c); trace := trace c |} in
  match next_fate c with
  | Taken => (Ready (Ok tt), log (Wrote bs) c')
  | Failing kind => (Ready (Err (FIo kind)), c')
  | Waiting => (Pending, c')
  end.

(** [let _ = ...]: an error is dropped. *)
Definition ignore {A} (m : M A) : M unit := fun c =>
  match m c with
  | (Ready _, c) => (Ready (Ok tt), c)
  | (Pending, c) => (Pending, c)
  end.

Definition effect (e : Effect) : M unit := fun c => (Ready (Ok tt), log e c).

Definition at_ (l : list Z) (i : nat) : Z := nth i l 0.
Definition len_byte (b : Z) : nat := Z.to_nat b.

Definition reply (code : Z) : M unit :=
  write_all [SOCKS5_VERSION; code; 0; ATYP_IPV4; 0; 0; 0; 0; 0; 0].

Definition reply_code_for (error : TunnelError) : Z :=
  match error with
  | Dial _ _ detail =>
      if contains "ConnectFailed" detail then REPLY_CONNECTION_REFUSED else REPLY_HOST_UNREACHABLE
  | _ => REPLY_GENERAL_FAILURE
  end.

(** A peer is allowed only if it is on the loopback interface. *)
Definition peer_is_permitted (peer : SocketAddr) : bool := is_loopback (sa_ip peer).

(** The method negotiation and RFC 1929 authentication of [negotiate]. *)
Definition authenticate (cred : Socks5Credentials) : M unit :=
  let* greeting := read_exact 2 in
  if negb (at_ greeting 0 =? SOCKS5_VERSION) then fail (FProtocol "peer is not speaking SOCKS5") else
  let method_count := len_byte (at_ greeting 1) in
  if (method_count =? 0)%nat then
    write_all [SOCKS5_VERSION; METHOD_NONE_ACCEPTABLE] ;;
    fail (FProtocol "peer offered no auth methods") else
  let* methods := read_exact method_count in
  if negb (bool_decide (METHOD_PASSWORD ∈ methods)) then
    write_all [SOCKS5_VERSION; METHOD_NONE_ACCEPTABLE] ;;
    fail (FProtocol "authentication is required") else
  write_all [SOCKS5_VERSION; METHOD_PASSWORD] ;;
  let* auth := read_exact 2 in
  if negb (at_ auth 0 =? 1) || (at_ auth 1 =? 0) then
    write_all [1; 1] ;;
    fail (FProtocol "invalid authentication") else
  let* user := read_exact (len_byte (at_ auth 1)) in
  let* password_len := read_exact 1 in
  let* pass := read_exact (len_byte (at_ password_len 0)) in
  if negb (bool_decide (user = bytes_of (username cred)))
     || negb (bool_decide (pass = bytes_of (password cred))) then
    write_all [1; 1] ;;
    fail (FProtocol "authentication failed") else
  write_all [1; 0].

(** The destination of a CONNECT request, by address type. *)
Definition read_host (atyp : Z) : M string :=
  if atyp =? ATYP_IPV4 then
    let* octs := read_exact 4 in ret (show_ip (ipv4_of octs))
  else if atyp =? ATYP_IPV6 then
    let* octs := read_exact 16 in ret (show_ip (ipv6_of octs))
  else if atyp =? ATYP_DOMAIN then
    let* length := read_exact 1 in
    if at_ length 0 =? 0 then
      ignore (reply REPLY_GENERAL_FAILURE) ;;
      fail (FProtocol "empty destination name") else
    let* name := read_exact (len_byte (at_ length 0)) in
    match from_utf8 name with
    | Some name => ret name
    | None =>
        ignore (reply REPLY_GENERAL_FAILURE) ;;
        fail (FProtocol "destination name is not UTF-8")
    end
  else
    ignore (reply REPLY_ADDRESS_TYPE_NOT_SUPPORTED) ;;
    fail (FProtocol "unsupported address type").

(** Method negotiation followed by the CONNECT request: the destination the
    peer asked for, unresolved. *)
Definition negotiate (cred : Socks5Credentials) : M (string * Z) :=
  authenticate cred ;;
  let* request := read_exact 4 in
  if negb (at_ request 0 =? SOCKS5_VERSION) then fail (FProtocol "request is not SOCKS5") else
  if negb (at_ request 2 =? 0) then fail (FProtocol "invalid reserved byte") else
  if negb (at_ request 1 =? CMD_CONNECT) then
    ignore (reply REPLY_COMMAND_NOT_SUPPORTED) ;;
    fail (FProtocol "only CONNECT is supported") else
  let* host := read_host (at_ request 3) in
  let* port := read_exact 2 in
  ret (host, be16 (at_ port 0) (at_ port 1)).

(** ** The whole connection *)

Section Handle.

(** The provider behind the front: what [dial] yields within the timeout,
    [None] when it does not answer in time; and how the relay ends, if it
    does. *)
Context {Upstream : Type}.
Variable dial : string -> Z -> option (Result Upstream TunnelError).
Variable pump_result : Upstream -> Poll (Result unit ErrorKind).

Record Socks5Front : Type := {
  front_id : string;
  credentials : Socks5Credentials
}.

Definition report_failure (front : Socks5Front) (error : TunnelError) : M unit :=
  effect (Observed (DialFailed (front_id front) (error_to_string error))).

Definition pump (upstream : Upstream) : M unit := fun c =>
  let c := log Pumped c in
  match pump_result upstream with
  | Ready (Ok _) => (Ready (Ok tt), c)
  | Ready (Err kind) => (Ready (Err (FIo kind)), c)
  | Pending => (Pending, c)
  end.

(** [tokio::time::timeout] around the negotiation: a pending negotiation ends
    with the budget. *)
Definition with_budget {A} (m : M A) : M A := fun c =>
  match m c with
  | (Pending, c) => (Ready (Err (FProtocol "peer did not finish the handshake")), c)
  | done => done
  end.

Definition handle_connection (front : Socks5Front) : M unit :=
  let* dest := with_budget (negotiate (credentials front)) in
  let host := dest.1 in
  let port := dest.2 in
  effect (Dialled host port) ;;
  match dial host port with
  | Some (Ok upstream) =>
      effect (Observed (DialSucceeded (front_id front))) ;;
      reply REPLY_SUCCEEDED ;;
      pump upstream
  | Some (Err error) =>
      report_failure front error ;;
      ignore (reply (reply_code_for error)) ;;
      fail (FDial error)
  | None =>
      let error := Dial host port "the tunnel did not answer in time" in
      report_failure front error ;;
      ignore (reply REPLY_HOST_UNREACHABLE) ;;
      fail (FDial error)
  end.

End Handle.

(** ** The accept loop *)

Section Serve.
Context {S : Type} `{!Semaphore S}.

(** One front's loop: its own semaphore, its running connection tasks, and
    whether the loop is still accepting. *)
Record FrontState : Type := { local_sem : S; running : nat; serving : bool }.

Definition front_new : FrontState :=
  {| local_sem := sem_new MAX_FRONT_CONNECTIONS; running := O; serving := true |}.

Inductive ServeEvent : Type :=
| Shutdown
| Aborted
| ConnectionEnded
| Accepted (peer : SocketAddr)
| AcceptFailed (kind : ErrorKind).

(** Leaving the loop drops the task set: every connection is aborted and its
    two slots are returned. *)
Definition stop_serving (f : FrontState) (global : S) : FrontState * S :=
  ({| local_sem := Nat.iter (running f) sem_release (local_sem f); running := O; serving := false |},
   Nat.iter (running f) sem_release global).

Definition accept_peer (peer : SocketAddr) (f : FrontState) (global : S) : FrontState * S :=
  if negb (peer_is_permitted peer) then (f, global) else
  match sem_try_acquire (local_sem f) with
  | None => (f, global)
  | Some local' =>
      match sem_try_acquire global with
      | None => ({| local_sem := sem_release local'; running := running f; serving := serving f |}, global)
      | Some global' =>
          ({| local_sem := local'; running := Datatypes.S (running f); serving := serving f |}, global')
      end
  end.

Definition serve_step (ev : ServeEvent) (f : FrontState) (global : S) : FrontState * S :=
  if negb (serving f) then (f, global) else
  match ev with
  | Shutdown | Aborted | AcceptFailed _ => stop_serving f global
  | ConnectionEnded =>
      match running f with
      | O => (f, global)
      | Datatypes.S n =>
          ({| local_sem := sem_release (local_sem f); running := n; serving := true |},
           sem_release global)
      end
  | Accepted peer => accept_peer peer f global
  end.

(** Every front of one registry draws on the same registry semaphore. *)
Record Fronts : Type := { registry_connections : S; fronts : list FrontState }.

Definition fronts_new : Fronts :=
  {| registry_connections := sem_new MAX_REGISTRY_CONNECTIONS; fronts := [] |}.

Inductive fronts_step : Fronts -> Fronts -> Prop :=
| step_start w :
    fronts_step w {| registry_connections := registry_connections w;
                     fronts := (fronts w ++ [front_new])%list |}
| step_event w i f ev :
    fronts w !! i = Some f ->
    let r := serve_step ev f (registry_connections w) in
    fronts_step w {| registry_connections := r.2; fronts := <[i := r.1]> (fronts w) |}.

Definition total_running (w : Fronts) : nat := sum_list_with running (fronts w).

End Serve.
Arguments FrontState S : clear implicits.
Arguments Fronts S : clear implicits.

(** ** What a client says: the byte language [negotiate] accepts *)

Inductive Destination : Type :=
| DestV4 (octs : list Z)
| DestV6 (octs : list Z)
| DestName (name : list Z).

Definition dest_wire (d : Destination) : list Z :=
  match d with
  | DestV4 octs => ATYP_IPV4 :: octs
  | DestV6 octs => ATYP_IPV6 :: octs
  | DestName name => ATYP_DOMAIN :: Z.of_nat (length name) :: name
  end.

Definition dest_host (d : Destination) : string :=
  match d with
  | DestV4 octs => show_ip (ipv4_of octs)
  | DestV6 octs => show_ip (ipv6_of octs)
  | DestName name => text_of name
  end.

Definition dest_wf (d : Destination) : Prop :=
  match d with
  | DestV4 octs => length octs = 4%nat
  | DestV6 octs => length octs = 16%nat
  | DestName name => name <> [] /\ utf8_valid name = true
  end.

Definition client_auth (methods : list Z) (cred : Socks5Credentials) : list Z :=
  let user := bytes_of (username cred) in
  let pass := bytes_of (password cred) in
  ([SOCKS5_VERSION; Z.of_nat (length methods)] ++ methods ++
   [1; Z.of_nat (length user)] ++ user ++ [Z.of_nat (length pass)] ++ pass)%list.

Definition client_request (d : Destination) (port : Z) : list Z :=
  ([SOCKS5_VERSION; CMD_CONNECT; 0] ++ dest_wire d ++ be16_bytes port)%list.

(** What the front writes while it accepts. *)
Definition accepted_writes : list Effect :=
  [Wrote [SOCKS5_VERSION; METHOD_PASSWORD]; Wrote [1; 0]].

Arguments client_auth : simpl never.
Arguments be16_bytes : simpl never.

(** ** Reasoning about connection programs *)

Lemma bind_ready {A B} (m : M A) (k : A -> M B) c a c' :
  m c = (Ready (Ok a), c') -> bind m k c = k a c'.
Proof. unfold bind. by intros ->. Qed.

Lemma bind_ok_inv {A B} (m : M A) (k : A -> M B) c b c' :
  bind m k c = (Ready (Ok b), c') ->
  exists a c1, m c = (Ready (Ok a), c1) /\ k a c1 = (Ready (Ok b), c').
Proof. unfold bind. destruct (m c) as [[[a|e]|] c1]; intros H; simplify_eq; eauto. Qed.

Lemma read_exact_ok l r s f t :
  read_exact (length l) {| unread := l ++ r; stalls := s; faults := f; trace := t |}
  = (Ready (Ok l), {| unread := r; stalls := s; faults := f; trace := t |}).
Proof.
  unfold read_exact; simpl. rewrite length_app.
  rewrite (proj2 (Nat.leb_le _ _)) by lia. by rewrite take_app_length, drop_app_length.
Qed.

Lemma read_exact_inv n c l c' :
  read_exact n c = (Ready (Ok l), c') ->
  unread c = (l ++ unread c')%list /\ length l = n /\ trace c' = trace c /\
  stalls c' = stalls c /\ faults c' = faults c.
Proof.
  unfold read_exact. destruct (Nat.leb_spec n (length (unread c))); [| by destruct (stalls c)].
  intros ?; simplify_eq/=. rewrite take_drop, length_take. repeat split; auto; lia.
Qed.

Lemma write_all_inv bs c u c' :
  write_all bs c = (Ready (Ok u), c') ->
  unread c' = unread c /\ trace c' = (trace c ++ [Wrote bs])%list /\ stalls c' = stalls c.
Proof. unfold write_all. by destruct (next_fate c); intros ?; simplify_eq/=. Qed.

Lemma write_all_ok bs u s t :
  write_all bs {| unread := u; stalls := s; faults := []; trace := t |}
  = (Ready (Ok tt), {| unread := u; stalls := s; faults := []; trace := (t ++ [Wrote bs])%list |}).
Proof. done. Qed.

Lemma ret_inv {A} (a b : A) c c' : ret a c = (Ready (Ok b), c') -> a = b /\ c' = c.
Proof. unfold ret. by intros ?; simplify_eq. Qed.

Lemma fail_inv {A} e c (b : A) c' : fail e c = (Ready (Ok b), c') -> False.
Proof. done. Qed.

(** Split a successful run into the runs of its parts, discarding the
    branches that fail. *)
Ltac inv_run :=
  repeat match goal with
  | H : bind _ _ _ = (Ready (Ok _), _) |- _ =>
      let a := fresh "x" in let c1 := fresh "c" in let Hm := fresh "Hm" in
      apply bind_ok_inv in H as (a & c1 & Hm & H)
  | H : read_exact _ _ = (Ready (Ok _), _) |- _ =>
      apply read_exact_inv in H as (? & ? & ? & ? & ?)
  | H : write_all _ _ = (Ready (Ok _), _) |- _ => apply write_all_inv in H as (? & ? & ?)
  | H : ret _ _ = (Ready (Ok _), _) |- _ => apply ret_inv in H as [? ?]
  | H : fail _ _ = (Ready (Ok _), _) |- _ => by apply fail_inv in H
  | H : (if negb ?b then _ else _) _ = (Ready (Ok _), _) |- _ => destruct b eqn:?; simpl in H
  | H : (if ?b then _ else _) _ = (Ready (Ok _), _) |- _ => destruct b eqn:?; simpl in H
  end; simplify_eq.

Lemma length1_inv {A} (l : list A) : length l = 1%nat -> exists a, l = [a].
Proof. destruct l as [|a [|]]; simpl; try lia. eauto. Qed.

Lemma length2_inv {A} (l : list A) : length l = 2%nat -> exists a b, l = [a; b].
Proof. destruct l as [|a [|b [|]]]; simpl; try lia. eauto. Qed.

Lemma length4_inv {A} (l : list A) : length l = 4%nat -> exists a b c d, l = [a; b; c; d].
Proof. destruct l as [|a [|b [|c [|d [|]]]]]; simpl; try lia. eauto. Qed.

(** Chain the [unread] and [trace] equations of consecutive reads and writes. *)
Ltac chain_runs :=
  repeat match goal with
  | H : unread ?c = _ |- context [unread ?c] => rewrite H
  | H : trace ?c = _ |- context [trace ?c] => rewrite H
  | H : unread ?c = _, K : context [unread ?c] |- _ => rewrite H in K
  end.

Ltac split_reads :=
  repeat match goal with
  | H : length ?l = 1%nat |- _ => apply length1_inv in H as (? & ->)
  | H : length ?l = 2%nat |- _ => apply length2_inv in H as (? & ? & ->)
  | H : length ?l = 4%nat |- _ => apply length4_inv in H as (? & ? & ? & ? & ->)
  end; unfold at_ in *; simpl in *.

(** A length prefix is the length of what follows it. *)
Lemma len_byte_length (b : Z) (l : list Z) : u8 b -> length l = len_byte b -> b = Z.of_nat (length l).
Proof. unfold u8, in_uint, len_byte. lia. Qed.

Ltac split_u8 :=
  repeat match goal with
  | H : Forall u8 (_ ++ _) |- _ => apply Forall_app in H as [? ?]
  | H : Forall u8 (_ :: _) |- _ => apply Forall_cons_1 in H as [? ?]
  end.

Lemma authenticate_sound cred c u c' :
  Forall u8 (unread c) -> authenticate cred c = (Ready (Ok u), c') ->
  exists methods, METHOD_PASSWORD ∈ methods /\
    unread c = (client_auth methods cred ++ unread c')%list /\
    trace c' = (trace c ++ accepted_writes)%list.
Proof.
  intros Hu8 H. unfold authenticate in H. inv_run; try congruence.
  split_reads. chain_runs. split_u8.
  repeat match goal with
  | H : _ || _ = false |- _ => apply orb_false_elim in H as [? ?]
  | H : negb _ = false |- _ => apply negb_false_iff in H
  | H : bool_decide _ = true |- _ => apply bool_decide_eq_true in H
  | H : (_ =? _) = true |- _ => apply Z.eqb_eq in H
  end; subst.
  eexists; split; [eassumption |]. unfold client_auth, accepted_writes.
  rewrite <- !app_assoc. simpl.
  repeat match goal with
  | H : length _ = len_byte _ |- _ => apply len_byte_length in H; [rewrite <- H | assumption]
  end. by rewrite <- !app_assoc.
Qed.

Lemma read_host_sound atyp c host c' :
  Forall u8 (unread c) -> read_host atyp c = (Ready (Ok host), c') ->
  exists d, dest_wf d /\ host = dest_host d /\
    (atyp :: unread c)%list = (dest_wire d ++ unread c')%list /\ trace c' = trace c.
Proof.
  intros Hu8 H. unfold read_host in H. inv_run;
    repeat match goal with
    | H : (_ =? _) = true |- _ => apply Z.eqb_eq in H as ->
    end.
  - exists (DestV4 x). simpl. chain_runs. eauto.
  - exists (DestV6 x). simpl. chain_runs. eauto.
  - unfold from_utf8 in H. destruct (utf8_valid x0) eqn:Hv; inv_run.
    exists (DestName x0). split_reads. chain_runs. split_u8. simpl.
    match goal with L : length _ = len_byte _ |- _ => apply len_byte_length in L; [rewrite <- L | done] end.
    repeat split; auto. intros ->. by match goal with L : ?b = Z.of_nat _, B : (?b =? 0) = false |- _ => subst; simpl in B end.
Qed.

Lemma be16_bytes_be16 hi lo : u8 hi -> u8 lo -> be16_bytes (be16 hi lo) = [hi; lo].
Proof.
  unfold u8, in_uint, be16_bytes, be16. intros ? ?. f_equal; [| f_equal].
  - symmetry. apply (Z.div_unique _ _ _ lo); lia.
  - symmetry. apply (Z.mod_unique _ _ hi); lia.
Qed.

Lemma length_bytes_of s : length (bytes_of s) = String.length s.
Proof. induction s; simpl; auto. Qed.

Lemma credentials_new_ok user pass cred :
  credentials_new user pass = Ok cred ->
  cred = {| username := user; password := pass |} /\
  0 < str_len user <= 255 /\ 0 < str_len pass <= 255.
Proof.
  unfold credentials_new, str_len. intros H.
  destruct (is_empty user || _ || _ || _) eqn:E; [done |]. simplify_eq.
  rewrite !orb_false_iff, !Z.ltb_ge in E. destruct E as [[[Eu ?] Ep] ?].
  destruct user, pass; simpl in *; done.
Qed.

Lemma bind_read {B} l (k : list Z -> M B) n u r s f t :
  n = length l -> u = (l ++ r)%list ->
  bind (read_exact n) k {| unread := u; stalls := s; faults := f; trace := t |}
  = k l {| unread := r; stalls := s; faults := f; trace := t |}.
Proof. intros -> ->. apply bind_ready, read_exact_ok. Qed.

Lemma bind_write {B} bs (k : unit -> M B) u s t :
  bind (write_all bs) k {| unread := u; stalls := s; faults := []; trace := t |}
  = k tt {| unread := u; stalls := s; faults := []; trace := (t ++ [Wrote bs])%list |}.
Proof. apply bind_ready, write_all_ok. Qed.

Lemma authenticate_complete methods user pass cred r s t :
  METHOD_PASSWORD ∈ methods -> credentials_new user pass = Ok cred ->
  authenticate cred {| unread := client_auth methods cred ++ r; stalls := s; faults := []; trace := t |}
  = (Ready (Ok tt), {| unread := r; stalls := s; faults := []; trace := (t ++ accepted_writes)%list |}).
Proof.
  intros Hin (-> & Hu & Hp)%credentials_new_ok. unfold authenticate, client_auth, at_, len_byte, str_len in *. simpl.
  rewrite <- !app_assoc. simpl. rewrite <- !app_assoc.
  erewrite (bind_read [_; _]) by reflexivity. simpl.
  rewrite Nat2Z.id.
  rewrite (proj2 (Nat.eqb_neq _ _)) by (destruct methods; [set_solver | done]).
  erewrite (bind_read methods) by reflexivity.
  rewrite bool_decide_eq_true_2 by done. simpl. rewrite bind_write.
  erewrite (bind_read [_; _]) by reflexivity. simpl.
  rewrite (proj2 (Z.eqb_neq _ _)) by (rewrite length_bytes_of; lia). simpl. rewrite Nat2Z.id.
  erewrite (bind_read (bytes_of user)) by reflexivity.
  erewrite (bind_read [_]) by reflexivity. simpl. rewrite Nat2Z.id.
  erewrite (bind_read (bytes_of pass)) by reflexivity.
  rewrite !bool_decide_eq_true_2 by done. simpl.
  rewrite write_all_ok. by rewrite <- app_assoc.
Qed.

Lemma read_host_complete d r s f t :
  dest_wf d ->
  exists atyp rest, (dest_wire d ++ r)%list = (atyp :: rest)%list /\
  read_host atyp {| unread := rest; stalls := s; faults := f; trace := t |}
  = (Ready (Ok (dest_host d)), {| unread := r; stalls := s; faults := f; trace := t |}).
Proof.
  destruct d as [octs|octs|name]; simpl; intros Hwf; do 2 eexists; (split; [reflexivity |]);
    unfold read_host; simpl.
  - by erewrite (bind_read octs) by eauto.
  - by erewrite (bind_read octs) by eauto.
  - destruct Hwf as [Hne Hv]. erewrite (bind_read [_]) by reflexivity. unfold at_, len_byte. simpl.
    rewrite (proj2 (Z.eqb_neq _ _)) by (destruct name; [done | simpl; lia]). rewrite Nat2Z.id.
    erewrite (bind_read name) by reflexivity. unfold from_utf8. by rewrite Hv.
Qed.

(** C35: the handshake is complete.  A client that offers password
    authentication among its methods, presents the front's credentials and
    asks to CONNECT to an IPv4, IPv6 or named destination is accepted: the
    front answers method 2 and then success, and hands on exactly the
    destination and port the client encoded, leaving later bytes unread. *)
Theorem negotiate_complete methods user pass cred d port rest stall :
  METHOD_PASSWORD ∈ methods -> credentials_new user pass = Ok cred -> dest_wf d -> u16 port ->
  negotiate cred {| unread := client_auth methods cred ++ client_request d port ++ rest;
                    stalls := stall; faults := []; trace := [] |}
  = (Ready (Ok (dest_host d, port)),
     {| unread := rest; stalls := stall; faults := []; trace := accepted_writes |}).
Proof.
  intros Hin Hcred Hwf Hport. unfold negotiate.
  rewrite (bind_ready _ _ _ _ _ (authenticate_complete _ _ _ _ _ _ _ Hin Hcred)).
  unfold client_request. rewrite <- !app_assoc.
  destruct (read_host_complete d (be16_bytes port ++ rest) stall [] accepted_writes Hwf)
    as (atyp & tl & E & Hread).
  rewrite E. erewrite (bind_read [SOCKS5_VERSION; CMD_CONNECT; 0; atyp]) by reflexivity.
  unfold at_. simpl.
  rewrite (bind_ready _ _ _ _ _ Hread).
  erewrite (bind_read [_; _]) by reflexivity. unfold ret. simpl.
  unfold be16. rewrite Z.mul_comm, <- Z.div_mod by lia. done.
Qed.

Lemma negotiate_complete_witness :
  negotiate {| username := "u"; password := "pw" |}
    {| unread := client_auth [0; 2] {| username := "u"; password := "pw" |} ++
                 client_request (DestName (bytes_of "indexer.test")) 443 ++ [7];
       stalls := true; faults := []; trace := [] |}
  = (Ready (Ok ("indexer.test", 443)),
     {| unread := [7]; stalls := true; faults := []; trace := accepted_writes |}).
Proof.
  apply (negotiate_complete [0; 2] "u" "pw" _ (DestName (bytes_of "indexer.test")) 443 [7] true).
  - unfold METHOD_PASSWORD. set_solver.
  - reflexivity.
  - split; [done | reflexivity].
  - unfold u16, in_uint. lia.
Defined.

Lemma negotiate_accepts cred c host port c' :
  Forall u8 (unread c) -> negotiate cred c = (Ready (Ok (host, port)), c') ->
  exists methods d, METHOD_PASSWORD ∈ methods /\ dest_wf d /\ host = dest_host d /\ u16 port /\
    unread c = (client_auth methods cred ++ client_request d port ++ unread c')%list /\
    trace c' = (trace c ++ accepted_writes)%list.
Proof.
  intros Hu8 H. unfold negotiate in H. apply bind_ok_inv in H as (u & c1 & Hauth & H).
  apply authenticate_sound in Hauth as (methods & Hin & Hun & Htr); [| done].
  rewrite Hun in Hu8. apply Forall_app in Hu8 as [_ Hu8]. inv_run; try congruence.
  split_reads. chain_runs. split_u8.
  match goal with Hh : read_host _ _ = _ |- _ => apply read_host_sound in Hh
    as (d & Hwf & -> & Hwire & Htr2); [| by chain_runs] end.
  assert (Hw : Forall u8 (dest_wire d ++ unread c2)) by (rewrite <- Hwire; by constructor).
  chain_runs. split_u8.
  exists methods, d. unfold client_request. rewrite be16_bytes_be16 by done.
  repeat match goal with H : (_ =? _) = true |- _ => apply Z.eqb_eq in H end. subst.
  rewrite <- !app_assoc. simpl. rewrite Hwire. chain_runs.
  repeat split; auto; by apply be16_u16.
Qed.

(** C1: the handshake is sound.  Whatever the peer sends, [negotiate] hands
    on a destination only if the peer's bytes begin with a greeting that
    offers password authentication, the front's own credentials and a
    CONNECT request for exactly that destination and port; nothing but the
    two acceptance messages has then been written. *)
Theorem negotiate_sound cred c host port c' :
  Forall u8 (unread c) -> negotiate cred c = (Ready (Ok (host, port)), c') ->
  exists methods d, METHOD_PASSWORD ∈ methods /\ dest_wf d /\ host = dest_host d /\ u16 port /\
    unread c = (client_auth methods cred ++ client_request d port ++ unread c')%list /\
    trace c' = (trace c ++ accepted_writes)%list.
Proof. apply negotiate_accepts. Qed.

Definition sample_cred : Socks5Credentials := {| username := "u"; password := "pw" |}.

Definition sample_conn : Conn :=
  {| unread := client_auth [2] sample_cred ++ client_request (DestV4 [10; 0; 0; 1]) 80;
     stalls := false; faults := []; trace := [] |}.

Lemma negotiate_sound_witness :
  exists methods d, METHOD_PASSWORD ∈ methods /\ dest_wf d /\ "10.0.0.1" = dest_host d /\ u16 80 /\
    unread sample_conn = (client_auth methods sample_cred ++ client_request d 80 ++ [])%list /\
    accepted_writes = ([] ++ accepted_writes)%list.
Proof.
  apply (negotiate_sound sample_cred sample_conn "10.0.0.1" 80
           {| unread := []; stalls := false; faults := []; trace := accepted_writes |}).
  - apply (bool_decide_unpack _). vm_compute. exact I.
  - vm_compute. reflexivity.
Defined.

(** ** What a run may do *)

Definition is_write (e : Effect) : Prop := match e with Wrote _ => True | _ => False end.

Definition writes_only {A} (m : M A) : Prop := forall c,
  exists ws, trace (m c).2 = (trace c ++ ws)%list /\ Forall is_write ws.

Create HintDb socks5.

Lemma writes_only_ret {A} (a : A) : writes_only (ret a).
Proof. intros c. exists []. by rewrite app_nil_r. Qed.

Lemma writes_only_fail {A} e : writes_only (fail (A := A) e).
Proof. intros c. exists []. by rewrite app_nil_r. Qed.

Lemma writes_only_read n : writes_only (read_exact n).
Proof.
  intros c. exists []. rewrite app_nil_r. unfold read_exact.
  destruct (_ <=? _)%nat; [done |]. by destruct (stalls c).
Qed.

Lemma writes_only_write bs : writes_only (write_all bs).
Proof.
  intros c. unfold write_all. destruct (next_fate c); simpl.
  - exists [Wrote bs]. by repeat constructor.
  - exists []. by rewrite app_nil_r.
  - exists []. by rewrite app_nil_r.
Qed.

Lemma writes_only_ignore {A} (m : M A) : writes_only m -> writes_only (ignore m).
Proof. intros Hm c. specialize (Hm c). unfold ignore. by destruct (m c) as [[r|] c1]. Qed.

Lemma writes_only_bind {A B} (m : M A) (k : A -> M B) :
  writes_only m -> (forall a, writes_only (k a)) -> writes_only (bind m k).
Proof.
  intros Hm Hk c. specialize (Hm c) as (ws & Ht & Hw). unfold bind.
  destruct (m c) as [[[a|e]|] c1]; simpl in *; [| by eauto..].
  destruct (Hk a c1) as (ws2 & Ht2 & Hw2). exists (ws ++ ws2)%list.
  rewrite Ht2, Ht, app_assoc. split; [done | by apply Forall_app].
Qed.

Lemma writes_only_if {A} (b : bool) (m1 m2 : M A) :
  writes_only m1 -> writes_only m2 -> writes_only (if b then m1 else m2).
Proof. by destruct b. Qed.

#[export] Hint Resolve writes_only_ret writes_only_fail writes_only_read writes_only_write
  writes_only_ignore writes_only_bind writes_only_if : socks5.

Lemma writes_only_host atyp : writes_only (read_host atyp).
Proof.
  unfold read_host, reply. repeat (auto with socks5; apply writes_only_if || apply writes_only_bind; intros).
  destruct (from_utf8 _); auto 10 with socks5.
Qed.

#[export] Hint Resolve writes_only_host : socks5.

Lemma writes_only_negotiate cred : writes_only (negotiate cred).
Proof.
  unfold negotiate, authenticate, reply.
  repeat (apply writes_only_if || apply writes_only_bind || intros; auto with socks5).
Qed.

Definition reply_bytes (code : Z) : list Z :=
  [SOCKS5_VERSION; code; 0; ATYP_IPV4; 0; 0; 0; 0; 0; 0].

(** A reply that is taken leaves its ten bytes, any other nothing. *)
Definition replied (code : Z) (fate : WriteFate) : list Effect :=
  match fate with Taken => [Wrote (reply_bytes code)] | _ => [] end.

Lemma reply_cases code c :
  exists c', reply code c
    = (match next_fate c with Taken => Ready (Ok tt) | Failing k => Ready (Err (FIo k)) | Waiting => Pending end, c')
    /\ trace c' = (trace c ++ replied code (next_fate c))%list.
Proof.
  unfold reply, write_all, replied. destruct (next_fate c); eexists; (split; [reflexivity |]); simpl;
    by rewrite ?app_nil_r.
Qed.

(** The code a failed dial is answered with, by what went wrong. *)
Inductive code_means : TunnelError -> Z -> Prop :=
| cm_refused host port before after :
    code_means (Dial host port (before ++ "ConnectFailed" ++ after)) 5
| cm_unreachable host port detail :
    (forall before after, detail <> before ++ "ConnectFailed" ++ after) -> code_means (Dial host port detail) 4
| cm_other e : (forall host port detail, e <> Dial host port detail) -> code_means e 1.

Lemma reply_code_means e : code_means e (reply_code_for e).
Proof.
  destruct e; try (by apply cm_other). simpl. destruct (contains "ConnectFailed" detail) eqn:E.
  - apply contains_spec in E as (before & after & ->). apply cm_refused.
  - apply cm_unreachable. intros before after Hd. apply not_true_iff_false in E. apply E, contains_spec. eauto.
Qed.

Section HandleFacts.
Context {Upstream : Type}.
Variable dial : string -> Z -> option (Result Upstream TunnelError).
Variable pump_result : Upstream -> Poll (Result unit ErrorKind).

(** A connection whose dial failed: one report, the reply with its code, and
    the failure, unless the reply waits. *)
Definition failed_tail (front : Socks5Front) (host : string) (port : Z) (e : TunnelError) (fate : WriteFate)
    (r : Poll (Result unit Socks5Failure)) (tl : list Effect) : Prop :=
  r = match fate with Waiting => Pending | _ => Ready (Err (FDial e)) end
  /\ exists code, code_means e code
       /\ tl = (Dialled host port :: Observed (DialFailed (front_id front) (error_to_string e)) :: replied code fate)%list.

(** What a connection does once the destination is known, given what becomes of
    its reply. *)
Definition expected_tail (front : Socks5Front) (host : string) (port : Z) (fate : WriteFate)
    (r : Poll (Result unit Socks5Failure)) (tl : list Effect) : Prop :=
  match dial host port with
  | Some (Ok up) =>
      tl = (Dialled host port :: Observed (DialSucceeded (front_id front)) ::
            match fate with Taken => [Wrote (reply_bytes 0); Pumped] | _ => [] end)%list
      /\ r = match fate with
             | Taken => match pump_result up with
                        | Ready (Ok _) => Ready (Ok tt) | Ready (Err k) => Ready (Err (FIo k)) | Pending => Pending
                        end
             | Failing k => Ready (Err (FIo k))
             | Waiting => Pending
             end
  | Some (Err e) => failed_tail front host port e fate r tl
  | None => failed_tail front host port (Dial host port "the tunnel did not answer in time") fate r tl
  end.

Lemma failure_runs front host port e code (c : Conn) :
  code_means e code ->
  exists r c' tl, (report_failure front e ;; ignore (reply code) ;; fail (A := unit) (FDial e)) (log (Dialled host port) c)
    = (r, c') /\ failed_tail front host port e (next_fate c) r tl /\ trace c' = (trace c ++ tl)%list.
Proof.
  intros Hc. unfold report_failure, effect, bind, ignore.
  destruct (reply_cases code (log (Observed (DialFailed (front_id front) (error_to_string e))) (log (Dialled host port) c)))
    as (c' & -> & Ht). simpl in Ht. unfold next_fate in *. simpl in *. rewrite <- !app_assoc in Ht. simpl in Ht.
  unfold failed_tail. destruct (default _ _); do 3 eexists; (split; [reflexivity |]); split_and!; eauto.
Qed.

Lemma handle_connection_runs front c :
  exists r c' neg tl,
    handle_connection dial pump_result front c = (r, c') /\
    trace c' = (trace c ++ neg ++ tl)%list /\ Forall is_write neg /\
    match negotiate (credentials front) c with
    | (Ready (Ok (host, port)), c1) => expected_tail front host port (next_fate c1) r tl
    | (Ready (Err e), _) => tl = [] /\ r = Ready (Err e)
    | (Pending, _) => tl = [] /\ r = Ready (Err (FProtocol "peer did not finish the handshake"))
    end.
Proof.
  destruct (writes_only_negotiate (credentials front) c) as (neg & Hneg & Hw).
  unfold handle_connection, with_budget, bind at 1.
  destruct (negotiate (credentials front) c) as [[[[h p]|e]|] c1]; simpl in Hneg.
  2: { exists (Ready (Err e)), c1, neg, []. rewrite app_nil_r. eauto 10. }
  2: { eexists _, c1, neg, []. rewrite app_nil_r. eauto 10. }
  simpl. unfold bind at 1, effect at 1, expected_tail.
  destruct (dial h p) as [[up|e]|].
  - unfold bind, effect, pump.
    destruct (reply_cases REPLY_SUCCEEDED (log (Observed (DialSucceeded (front_id front))) (log (Dialled h p) c1)))
      as (c' & -> & Ht). unfold next_fate in *. simpl in Ht. simpl. rewrite <- !app_assoc in Ht. simpl in Ht.
    destruct (default _ _); [| | ]; [destruct (pump_result up) as [[[]|k]|] | |]; do 2 eexists; exists neg; eexists;
      (split; [reflexivity |]); simpl; rewrite Ht, Hneg, <- !app_assoc; simpl; eauto 10.
  - destruct (failure_runs front h p e (reply_code_for e) c1 (reply_code_means e)) as (r & c' & tl & Hrun & Hf & Ht).
    exists r, c', neg, tl. rewrite Ht, Hneg, <- app_assoc. done.
  - set (e := Dial h p "the tunnel did not answer in time").
    destruct (failure_runs front h p e REPLY_HOST_UNREACHABLE c1) as (r & c' & tl & Hrun & Hf & Ht);
      [exact (reply_code_means e) |].
    exists r, c', neg, tl. rewrite Ht, Hneg, <- app_assoc. done.
Qed.

End HandleFacts.

Lemma dialled_not_write h p ws : Forall is_write ws -> Dialled h p ∉ ws.
Proof. intros H Hin. by apply (proj1 (Forall_forall _ _) H) in Hin. Qed.

(** C9: nothing is dialled for a peer that has not authenticated.  If a
    connection's trace contains a dial, the peer's bytes contain the front's
    own credentials followed by a CONNECT request for exactly the dialled
    destination. *)
Theorem dial_requires_authentication {Upstream} (dial : string -> Z -> option (Result Upstream TunnelError))
    (pump_result : Upstream -> Poll (Result unit ErrorKind)) front c host port :
  Forall u8 (unread c) -> trace c = [] ->
  Dialled host port ∈ trace (handle_connection dial pump_result front c).2 ->
  exists methods d rest, METHOD_PASSWORD ∈ methods /\ host = dest_host d /\
    unread c = (client_auth methods (credentials front) ++ client_request d port ++ rest)%list.
Proof.
  intros Hu8 Ht Hin.
  destruct (handle_connection_runs dial pump_result front c) as (r & c' & neg & tl & E & Htr & Hneg & Hcase).
  rewrite E in Hin. simpl in Hin. rewrite Htr, Ht in Hin. simpl in Hin.
  apply elem_of_app in Hin as [Hin | Hin]; [by apply dialled_not_write in Hin |].
  destruct (negotiate (credentials front) c) as [[[[h p]|e]|] c1] eqn:En;
    [| by destruct Hcase as [-> _]; apply not_elem_of_nil in Hin..].
  assert (h = host /\ p = port) as [-> ->].
  { unfold expected_tail, failed_tail, replied in Hcase. destruct (dial h p) as [[up|e]|].
    - destruct Hcase as [-> _]. destruct (next_fate c1); elem_cases Hin.
    - destruct Hcase as (_ & code & _ & ->). destruct (next_fate c1); elem_cases Hin.
    - destruct Hcase as (_ & code & _ & ->). destruct (next_fate c1); elem_cases Hin. }
  apply negotiate_accepts in En as (methods & d & ? & _ & ? & _ & ? & _); [eauto 10 | done].
Qed.

Definition sample_front : Socks5Front := {| front_id := "proxy-1"; credentials := sample_cred |}.

Lemma dial_requires_authentication_witness :
  exists methods d rest, METHOD_PASSWORD ∈ methods /\ "10.0.0.1" = dest_host d /\
    unread sample_conn = (client_auth methods sample_cred ++ client_request d 80 ++ rest)%list.
Proof.
  apply (dial_requires_authentication (fun _ _ => Some (Ok tt)) (fun _ => Ready (Ok tt)) sample_front sample_conn).
  - apply (bool_decide_unpack _). vm_compute. exact I.
  - reflexivity.
  - apply (bool_decide_unpack _). vm_compute. exact I.
Defined.

(** C32: what a connection does, on every branch.  A handshake that fails or is
    not finished within the budget ends the connection with that error, and
    dials and reports nothing.  Otherwise the destination is dialled once and
    exactly one report follows: a success is answered with code 0 and relayed;
    a failure is answered with code 5 if its text names a refused connection,
    4 for any other failure to reach the destination, a silent tunnel included,
    and 1 for the rest, and ends the connection with that error even when the
    answer cannot be written.  Only two things are waited for without a bound:
    the peer to take the answer, and the relay. *)
Theorem handle_connection_outcome {Upstream} (dial : string -> Z -> option (Result Upstream TunnelError))
    (pump_result : Upstream -> Poll (Result unit ErrorKind)) front c :
  exists r c' neg tl,
    handle_connection dial pump_result front c = (r, c') /\
    trace c' = (trace c ++ neg ++ tl)%list /\ Forall is_write neg /\
    match negotiate (credentials front) c with
    | (Ready (Ok (host, port)), c1) => expected_tail dial pump_result front host port (next_fate c1) r tl
    | (Ready (Err e), _) => tl = [] /\ r = Ready (Err e)
    | (Pending, _) => tl = [] /\ r = Ready (Err (FProtocol "peer did not finish the handshake"))
    end.
Proof. apply handle_connection_runs. Qed.

(** ** Admission *)

Section Admission.
Context {S : Type} `{!Semaphore S, !SemaphoreLaws S}.

Definition front_inv (f : FrontState S) : Prop :=
  (sem_available (local_sem f) + running f)%nat = MAX_FRONT_CONNECTIONS /\
  (serving f = false -> running f = O).

Definition fronts_inv (w : Fronts S) : Prop :=
  Forall front_inv (fronts w) /\
  (sem_available (registry_connections w) + total_running w)%nat = MAX_REGISTRY_CONNECTIONS.

(** One event keeps the front's permits and running tasks in balance, and
    takes from or returns to the registry what it adds or removes. *)
Lemma serve_step_balance ev (f : FrontState S) (g : S) :
  front_inv f ->
  let '(f', g') := serve_step ev f g in
  front_inv f' /\ (sem_available g' + running f' = sem_available g + running f)%nat.
Proof.
  unfold front_inv, serve_step. intros [Hf Hstop]. destruct (serving f) eqn:Es; simpl; [| by auto].
  destruct ev; simpl; rewrite ?available_release_n; try lia.
  - destruct (running f) eqn:Er; simpl; rewrite ?available_release; repeat split; auto; lia.
  - unfold accept_peer. destruct (peer_is_permitted peer); simpl; [| by rewrite Es].
    destruct (sem_try_acquire (local_sem f)) as [l'|] eqn:El; simpl; [| by rewrite Es].
    apply try_acquire_available in El.
    destruct (sem_try_acquire g) as [g'|] eqn:Eg; simpl; rewrite ?Es.
    + apply try_acquire_available in Eg. repeat split; [lia | done | lia].
    + rewrite available_release. repeat split; [lia | done].
Qed.

Lemma fronts_step_inv (w w' : Fronts S) : fronts_step w w' -> fronts_inv w -> fronts_inv w'.
Proof.
  intros Hs [Hf Hg]. destruct Hs as [w | w i f ev Hi r]; unfold fronts_inv, total_running in *; simpl.
  - split.
    + apply Forall_app; split; [done | repeat constructor].
      unfold front_inv. simpl. by rewrite available_new.
    + rewrite sum_list_with_app. simpl. lia.
  - pose proof (serve_step_balance ev f (registry_connections w)) as Hb. fold r in Hb.
    destruct r as [f' g']. destruct Hb as [Hf' Hbal]; [by eapply Forall_lookup_1 |]. simpl.
    split; [by apply Forall_insert |].
    pose proof (sum_list_with_insert running (fronts w) i f f' Hi). lia.
Qed.

End Admission.

Section Reachable.
Context {S : Type} `{!Semaphore S, !SemaphoreLaws S}.

Lemma fronts_reachable_inv (w : Fronts S) : rtc fronts_step fronts_new w -> fronts_inv w.
Proof.
  intros H. apply (rtc_preserves _ _ _ _ fronts_step_inv H).
  split; [constructor |]. unfold total_running. simpl. by rewrite available_new.
Qed.

End Reachable.

(** C33: admission is bounded and no permit is ever lost.  In every reachable
    state of a registry's fronts, whatever the order of accepts, refusals,
    connection ends, shutdowns and aborts: each front runs at most 256
    connections and all fronts together at most 1024; the permits not in use
    are exactly the free ones, and a stopped front holds none. *)
Theorem admission_bounded {S} `{!Semaphore S, !SemaphoreLaws S} (w : Fronts S) :
  rtc fronts_step fronts_new w ->
  (forall i f, fronts w !! i = Some f ->
     (running f <= MAX_FRONT_CONNECTIONS)%nat /\
     sem_available (local_sem f) = (MAX_FRONT_CONNECTIONS - running f)%nat /\
     (serving f = false -> running f = O)) /\
  (total_running w <= MAX_REGISTRY_CONNECTIONS)%nat /\
  sem_available (registry_connections w) = (MAX_REGISTRY_CONNECTIONS - total_running w)%nat.
Proof.
  intros [Hf Hg]%fronts_reachable_inv. split; [| lia].
  intros i f Hi. apply (Forall_lookup_1 _ _ _ _ Hf) in Hi as [? ?]. split; [lia |]. split; [lia | done].
Qed.

Definition sample_peer : SocketAddr := {| sa_ip := V4 127 0 0 1; sa_port := 5000 |}.

Lemma admission_bounded_witness :
  exists w : Fronts nat, rtc fronts_step fronts_new w /\ total_running w = 1%nat /\
    (total_running w <= MAX_REGISTRY_CONNECTIONS)%nat /\
    sem_available (registry_connections w) = (MAX_REGISTRY_CONNECTIONS - total_running w)%nat.
Proof.
  set (w1 := {| registry_connections := registry_connections (fronts_new (S := nat)); fronts := [front_new] |}).
  set (r := serve_step (Accepted sample_peer) front_new (registry_connections w1)).
  set (w2 := {| registry_connections := r.2; fronts := [r.1] |}).
  assert (Hr : rtc fronts_step fronts_new w2).
  { apply (rtc_l _ _ w1); [apply (step_start fronts_new) |].
    apply (rtc_l _ _ w2); [apply (step_event w1 0 front_new (Accepted sample_peer) eq_refl) | apply rtc_refl]. }
  exists w2. split; [exact Hr |]. split; [reflexivity |].
  apply (admission_bounded w2 Hr).
Defined.
