(* ===== verification/Provider.v ===== *)
(** * Provider configuration ([src/provider.rs])

    The SSH tunnel's specification and what its [Debug] rendering shows.  A
    [Duration] is a number of nanoseconds. *)

From Stdlib Require Import ZArith String Ascii.
From stdpp Require Import gmap strings numbers prelude.
From S2P Require Import Prelude Net Errors.

Open Scope string_scope.
Open Scope Z_scope.

Definition Duration : Type := Z.
Definition from_micros (n : Z) : Duration := n * 1000.
Definition from_millis (n : Z) : Duration := n * 1000000.
Definition from_secs (n : Z) : Duration := n * 1000000000.

(** [fmt::DebugStruct]: the named fields a rendering is made of. *)
Inductive DebugValue : Type :=
| DStr (s : string)
| DRaw (s : string)
| DNum (n : Z)
| DStruct (name : string) (fields : list (string * DebugValue))
| DOpt (v : option DebugValue)
| DList (vs : list DebugValue).

Definition REDACTED : DebugValue := DStr "<redacted>".

Record TunnelSpec : Type := {
  ts_proxy_config_id : string;
  ts_proxy_name : string;
  ts_revision : string;
  ts_host : string;
  ts_port : Z;
  ts_username : string;
  ts_private_key_pem : string;
  ts_private_key_passphrase : option string;
  ts_pinned_host_key : option string;
  ts_request_timeout : Duration
}.

Definition tunnel_spec_debug (s : TunnelSpec) : list (string * DebugValue) :=
  [("proxy_config_id", DStr (ts_proxy_config_id s));
   ("proxy_name", DStr (ts_proxy_name s));
   ("revision", DStr (ts_revision s));
   ("host", DStr (ts_host s));
   ("port", DNum (ts_port s));
   ("username", DStr (ts_username s));
   ("private_key_pem", REDACTED);
   ("private_key_passphrase", DOpt ((fun _ => REDACTED) <$> ts_private_key_passphrase s));
   ("pinned_host_key", DOpt (DStr <$> ts_pinned_host_key s));
   ("request_timeout", DNum (ts_request_timeout s))].

(** [user@host:port], never credentials. *)
Definition tunnel_spec_endpoint (s : TunnelSpec) : string :=
  ts_username s ++ "@" ++ ts_host s ++ ":" ++ show (ts_port s).
