(* ===== verification/Contract.v ===== *)
(** * What every provider promises ([TunnelProvider] of [src/provider.rs])

    The trait the front and the registry are written against, as a class of
    operations over a provider's world (its state and the calls under way) and
    a class of laws: a shutdown is permanent, and from then on every dial
    fails, and fails by itself.  The front is proved against the laws; SSH,
    WireGuard and HTTP/3 each meet them ([Families]). *)

From Stdlib Require Import ZArith Lia String Ascii.
From stdpp Require Import gmap strings numbers prelude.
From S2P Require Import Prelude Net Errors Socks5 Provider.

#[local] Open Scope list_scope.

(** [p_dial] begins a call, numbered [p_calls]; [p_answer] is what a call has
    returned; [p_shuts] is a [shutdown] from beginning to end. *)
Class ProviderOps (W : Type) : Type := {
  p_new : W;
  p_step : W -> W -> Prop;
  p_dial : string -> Z -> W -> W;
  p_calls : W -> nat;
  p_answer : nat -> W -> option (Result unit TunnelError);
  p_shuts : W -> W -> Prop
}.

(** [p_down]: stopped for good; [p_refused]: a call that can only fail. *)
Class ProviderLaws (W : Type) `{!ProviderOps W} : Type := {
  p_down : W -> Prop;
  p_refused : nat -> W -> Prop;
  p_shut_down w w' : rtc p_step p_new w -> p_shuts w w' -> p_down w';
  p_stays_down w w' : p_step w w' -> p_down w -> p_down w';
  p_dial_down host port w : p_down w -> p_down (p_dial host port w);
  p_dial_refused host port w : p_down w -> p_refused (p_calls w) (p_dial host port w);
  p_refused_step i w w' : p_down w -> p_refused i w -> p_step w w' -> p_refused i w';
  p_refused_fails i w r : p_refused i w -> p_answer i w = Some r -> is_ok r = false;
  p_refused_answers host port w :
    p_down w ->
    exists w' e, rtc p_step (p_dial host port w) w' /\ p_answer (p_calls w) w' = Some (Err e)
}.

(** ** The front, against the contract *)

Section Front.
Context {W : Type} `{!ProviderOps W, !ProviderLaws W}.

(** The provider has been shut down, whatever happened before and since. *)
Definition shut (w : W) : Prop :=
  exists w0 w1, rtc p_step p_new w0 /\ p_shuts w0 w1 /\ rtc p_step w1 w.

Lemma shut_is_down w : shut w -> p_down w.
Proof.
  intros (w0 & w1 & H0 & H1 & H2). pose proof (p_shut_down _ _ H0 H1) as Hd.
  eapply rtc_preserves; [| exact H2 | exact Hd]. intros x y. apply p_stays_down.
Qed.

Lemma down_dial_fails host port w w' r :
  p_down w -> rtc p_step (p_dial host port w) w' -> p_answer (p_calls w) w' = Some r -> is_ok r = false.
Proof.
  intros Hd Hr. apply p_refused_fails.
  assert (H : p_down w' /\ p_refused (p_calls w) w'); [| by destruct H].
  eapply (rtc_preserves _ (fun x => p_down x /\ p_refused (p_calls w) x)); [| exact Hr |].
  - intros x y Hxy [Hx Hf]. split; [by eapply p_stays_down | by eapply p_refused_step].
  - split; [by apply p_dial_down | by apply p_dial_refused].
Qed.

(** A front whose dials this provider answers, as of world [w]. *)
Definition answered_by {Upstream} (dial : string -> Z -> option (Result Upstream TunnelError)) (w : W) : Prop :=
  forall host port r, dial host port = Some r ->
    exists w', rtc p_step (p_dial host port w) w'
      /\ p_answer (p_calls w) w' = Some match r with Ok _ => Ok tt | Err e => Err e end.

End Front.

(** A failed dial leaves a connection nothing but its report and its reply. *)
Lemma unserved_tail {Upstream} (dial : string -> Z -> option (Result Upstream TunnelError)) pump_result front host port
    fate r (tl : list Effect) :
  (forall up, dial host port <> Some (Ok up)) -> expected_tail dial pump_result front host port fate r tl ->
  (r = Pending \/ exists e, r = Ready (Err e)) /\ Pumped ∉ tl /\ forall id, Observed (DialSucceeded id) ∉ tl.
Proof.
  intros Hd. unfold expected_tail, failed_tail, replied. destruct (dial host port) as [[up|e]|]; [by destruct (Hd up) | |];
    intros (-> & code & _ & ->); (split; [destruct fate; eauto |]); destruct fate; split; intros; set_solver.
Qed.

(** Nobody is served once the provider was shut down, whatever happens since:
    every dial can be answered without waiting for anything, and is answered
    with an error if at all; and a connection through a front behind it,
    whatever its peer sends and whether or not its dial is answered in time,
    does not succeed, relays nothing and reports no success. *)
Definition serves_nobody {W : Type} (O : ProviderOps W) : Prop :=
  forall w : W, shut w ->
  (forall host port,
     (exists w' e, rtc p_step (p_dial host port w) w' /\ p_answer (p_calls w) w' = Some (Err e))
     /\ forall w' r, rtc p_step (p_dial host port w) w' -> p_answer (p_calls w) w' = Some r -> is_ok r = false)
  /\ forall (Upstream : Type) (dial : string -> Z -> option (Result Upstream TunnelError)) pump_result
       (front : Socks5Front) (c : Conn),
     answered_by dial w ->
     exists r c' t, handle_connection dial pump_result front c = (r, c')
       /\ (r = Pending \/ exists e, r = Ready (Err e))
       /\ trace c' = trace c ++ t /\ Pumped ∉ t /\ forall id, Observed (DialSucceeded id) ∉ t.

(** Any provider that meets the contract keeps it. *)
Lemma laws_serve_nobody {W : Type} (O : ProviderOps W) (L : ProviderLaws W) : serves_nobody O.
Proof.
  intros w Hs%shut_is_down. split.
  - intros host port. split; [by apply p_refused_answers | intros; by eapply down_dial_fails].
  - intros Upstream dial pump_result front c Ha.
    assert (Hno : forall host port up, dial host port <> Some (Ok up)).
    { intros host port up E. destruct (Ha _ _ _ E) as (w' & Hr & Hw). simpl in Hw.
      by pose proof (down_dial_fails _ _ _ _ _ Hs Hr Hw). }
    destruct (handle_connection_runs dial pump_result front c) as (r & c' & neg & tl & E & Ht & Hneg & Hcase).
    assert (Htl : (r = Pending \/ exists e, r = Ready (Err e)) /\ Pumped ∉ tl
      /\ forall id, Observed (DialSucceeded id) ∉ tl).
    { destruct (negotiate (credentials front) c) as [[[[host port]|]|] c1];
        [by eapply unserved_tail | destruct Hcase as [-> ->]; (split; [by eauto | set_solver]) ..]. }
    destruct Htl as (Hr & Hp & Ho). exists r, c', (neg ++ tl). split_and!; [done | done | done | |].
    + intros [Hin | Hin]%elem_of_app; [| done]. by apply (proj1 (Forall_forall _ _) Hneg) in Hin.
    + intros id [Hin | Hin]%elem_of_app; [| by apply Ho in Hin]. by apply (proj1 (Forall_forall _ _) Hneg) in Hin.
Qed.
