(* ===== verification/WgSpec.v ===== *)
(** * WireGuard configuration ([src/wireguard/spec.rs])

    Interface addresses with their text form, the specification of one
    tunnel, its validation, and key parsing.  Base64 and X25519 are library
    code the crate calls: parameters of the definitions that use them. *)

From Stdlib Require Import ZArith Lia String Ascii.
From stdpp Require Import gmap strings numbers prelude.
From S2P Require Import Prelude TextFacts Net NetFacts Codec Errors Provider.

Open Scope string_scope.
Open Scope Z_scope.

Definition DEFAULT_WIREGUARD_MTU : Z := 1280.
Definition MIN_WIREGUARD_MTU : Z := 1280.
Definition MAX_WIREGUARD_MTU : Z := 3800.
Definition DEFAULT_WIREGUARD_KEEPALIVE : Z := 25.

Definition WIREGUARD_KEY_MESSAGE : string :=
  "WireGuard keys are 32 bytes of base64, exactly as `wg genkey` prints them (44 characters ending in `=`)".

(** ** Addresses with a prefix length *)

Record IpCidr : Type := { address : IpAddr; prefix_len : Z }.

#[export] Instance IpCidr_eq_dec : EqDecision IpCidr.
Proof. solve_decision. Defined.

Definition cidr_host (a : IpAddr) : IpCidr :=
  {| address := a; prefix_len := if is_ipv4 a then 32 else 128 |}.

Definition cidr_is_ipv4 (c : IpCidr) : bool := is_ipv4 (address c).
Definition cidr_is_ipv6 (c : IpCidr) : bool := is_ipv6 (address c).
Definition max_prefix_len (c : IpCidr) : Z := if cidr_is_ipv4 c then 32 else 128.

Definition cidr_to_string (c : IpCidr) : string := show_ip (address c) ++ "/" ++ show (prefix_len c).

Definition cidr_debug (c : IpCidr) : DebugValue :=
  DStruct "IpCidr" [("address", DRaw (show_ip (address c))); ("prefix_len", DNum (prefix_len c))].

Definition cidr_from_str (input : string) : Result IpCidr TunnelError :=
  let text := trim input in
  let '(addr, prefix) :=
    match split_once "/" text with
    | Some (a, p) => (a, Some p)
    | None => (text, None)
    end in
  let? a := ok_or (parse_ip (trim addr))
    (Configuration ("`" ++ text ++ "` is not a tunnel address; expected something like `10.6.0.2/32`")) in
  let? cidr :=
    match prefix with
    | None => Ok (cidr_host a)
    | Some p =>
        let? n := ok_or (parse_uint 255 (trim p))
          (Configuration ("`" ++ text ++
             "` has an unreadable prefix length; expected something like `10.6.0.2/32`")) in
        Ok {| address := a; prefix_len := n |}
    end in
  if max_prefix_len cidr <? prefix_len cidr
  then Err (Configuration ("`" ++ text ++ "` has a prefix length above /" ++ show (max_prefix_len cidr)))
  else Ok cidr.

(** ** The specification of one tunnel *)

Definition Key : Type := list Z.

Record WireGuardSpec : Type := {
  proxy_config_id : string;
  proxy_name : string;
  revision : string;
  endpoint_host : string;
  endpoint_port : Z;
  private_key : Key;
  peer_public_key : Key;
  preshared_key : option Key;
  addresses : list IpCidr;
  dns_servers : list IpAddr;
  mtu : Z;
  persistent_keepalive : option Z;
  request_timeout : Duration
}.

Definition ZERO_KEY : Key := replicate 32 0.

Section Keys.

(** [BASE64_STANDARD.encode], [.decode] and the X25519 public key. *)
Variable b64_encode : list Z -> string.
Variable b64_decode : string -> option (list Z).
Variable x25519_public : Key -> Key.

Definition endpoint_description (s : WireGuardSpec) : string :=
  endpoint_host s ++ ":" ++ show (endpoint_port s).

Definition ELLIPSIS : string := text_of [226; 128; 166].

Definition peer_public_key_prefix (s : WireGuardSpec) : string :=
  String.substring 0 8 (b64_encode (peer_public_key s)) ++ ELLIPSIS.

Definition describe (s : WireGuardSpec) : string :=
  "wireguard " ++ peer_public_key_prefix s ++ "@" ++ endpoint_description s.

Definition public_key_of (k : Key) : string := b64_encode (x25519_public k).

Definition spec_debug (s : WireGuardSpec) : list (string * DebugValue) :=
  [("proxy_config_id", DStr (proxy_config_id s));
   ("proxy_name", DStr (proxy_name s));
   ("revision", DStr (revision s));
   ("endpoint_host", DStr (endpoint_host s));
   ("endpoint_port", DNum (endpoint_port s));
   ("private_key", REDACTED);
   ("peer_public_key", DStr (peer_public_key_prefix s));
   ("preshared_key", DOpt ((fun _ => REDACTED) <$> preshared_key s));
   ("addresses", DList (cidr_debug <$> addresses s));
   ("dns_servers", DList ((fun a => DRaw (show_ip a)) <$> dns_servers s));
   ("mtu", DNum (mtu s));
   ("persistent_keepalive", DOpt (DNum <$> persistent_keepalive s));
   ("request_timeout", DNum (request_timeout s))].

Definition has_ipv4 (s : WireGuardSpec) : bool := existsb cidr_is_ipv4 (addresses s).
Definition has_ipv6 (s : WireGuardSpec) : bool := existsb cidr_is_ipv6 (addresses s).

(** The peer's allowed IPs: the default route of each family the interface has
    an address in. *)
Definition allowed_ips (s : WireGuardSpec) : list IpCidr :=
  ((if has_ipv4 s then [{| address := V4_UNSPECIFIED; prefix_len := 0 |}] else []) ++
   (if has_ipv6 s then [{| address := V6_UNSPECIFIED; prefix_len := 0 |}] else []))%list.

Definition OWN_KEY_MESSAGE : string :=
  "the peer public key is this tunnel's own public key; the `PublicKey` in the `[Peer]` section must be the *server's* key".

Definition validate (s : WireGuardSpec) : Result unit TunnelError :=
  if is_empty (trim (endpoint_host s)) then Err (Configuration "the tunnel has no endpoint host")
  else if endpoint_port s =? 0 then Err (Configuration "the tunnel has no endpoint port")
  else if bool_decide (addresses s = []) then
    Err (Configuration
      "the tunnel has no interface address; add the `Address` line from the WireGuard configuration (for example `10.6.0.2/32`)")
  else if (mtu s <? MIN_WIREGUARD_MTU) || (MAX_WIREGUARD_MTU <? mtu s) then
    Err (Configuration ("the tunnel MTU must be between " ++ show MIN_WIREGUARD_MTU ++ " and " ++
                        show MAX_WIREGUARD_MTU ++ "; " ++ show (mtu s) ++ " is outside that range"))
  else if bool_decide (private_key s = ZERO_KEY) then Err (Configuration "the tunnel has no private key")
  else if bool_decide (peer_public_key s = ZERO_KEY) then
    Err (Configuration "the tunnel has no peer public key")
  else if bool_decide (public_key_of (private_key s) = b64_encode (peer_public_key s)) then
    Err (Configuration OWN_KEY_MESSAGE)
  else Ok tt.

(** ** Pasted keys *)

Definition parse_key (base64 : string) : Result Key TunnelError :=
  let trimmed := trim base64 in
  if is_empty trimmed then Err (Configuration ("the key is empty; " ++ WIREGUARD_KEY_MESSAGE)) else
  let? bytes := ok_or (b64_decode trimmed)
    (Configuration ("the key is not valid base64; " ++ WIREGUARD_KEY_MESSAGE)) in
  if (length bytes =? 32)%nat then Ok bytes
  else Err (Configuration ("the key decodes to " ++ show (Z.of_nat (length bytes)) ++ " bytes, not 32; " ++
                           WIREGUARD_KEY_MESSAGE)).

(** Say which of the three keys the operator has to go and fix. *)
Definition prefix (error : TunnelError) (which : string) : TunnelError :=
  match error with
  | Configuration message => Configuration (which ++ ": " ++ message)
  | other => other
  end.

Definition validate_wireguard_keys (private peer : string) (preshared : option string)
  : Result unit TunnelError :=
  let? priv := map_err (fun e => prefix e "private key") (parse_key private) in
  let? peerk := map_err (fun e => prefix e "peer public key") (parse_key peer) in
  let? _ :=
    match preshared with
    | Some p =>
        if is_empty (trim p) then Ok tt
        else let? _ := map_err (fun e => prefix e "preshared key") (parse_key (trim p)) in Ok tt
    | None => Ok tt
    end in
  if bool_decide (public_key_of priv = b64_encode peerk)
  then Err (Configuration OWN_KEY_MESSAGE)
  else Ok tt.

End Keys.

(** ** Interface addresses *)

Definition wf_cidr (c : IpCidr) : Prop := wf_ip (address c) /\ 0 <= prefix_len c <= max_prefix_len c.

(** An address line as an operator may paste it: blanks anywhere around the
    address and around the prefix length. *)
Definition pasted_cidr (w0 w1 w2 w3 : string) (c : IpCidr) : string :=
  w0 ++ (show_ip (address c) ++ w1 ++ "/" ++ w2 ++ show (prefix_len c)) ++ w3.

Lemma bytes_of_nonempty s : s <> "" -> bytes_of s <> [].
Proof. by destruct s. Qed.

Lemma trim_suffix s w : blank_text w -> graphic_text s -> s <> "" -> trim (s ++ w) = s.
Proof.
  intros Hw Hs Hne. change (s ++ w) with ("" ++ s ++ w). apply trim_pad; [constructor | done | | done].
  by apply graphic_framed.
Qed.

Lemma trim_prefix s w : blank_text w -> graphic_text s -> s <> "" -> trim (w ++ s) = s.
Proof.
  intros Hw Hs Hne. rewrite <- (append_empty s) at 1. apply trim_pad; [done | constructor | | done].
  by apply graphic_framed.
Qed.

Lemma max_prefix_len_cases c : max_prefix_len c = 32 \/ max_prefix_len c = 128.
Proof. unfold max_prefix_len. case_match; auto. Qed.

Lemma trim_pasted w0 w1 w2 w3 c :
  blank_text w0 -> blank_text w3 -> wf_ip (address c) ->
  trim (pasted_cidr w0 w1 w2 w3 c) = show_ip (address c) ++ w1 ++ "/" ++ w2 ++ show (prefix_len c).
Proof.
  intros H0 H3 Hw. apply trim_pad; [done | done | |].
  - rewrite !bytes_of_app.
    replace (_ ++ _)%list with
      (bytes_of (show_ip (address c)) ++
       (bytes_of w1 ++ bytes_of "/" ++ bytes_of w2) ++ bytes_of (show (prefix_len c)))%list
      by (by rewrite <- !app_assoc).
    apply framed_app.
    + by apply bytes_of_nonempty, show_ip_nonempty.
    + apply bytes_of_nonempty, show_radix_nonempty.
    + apply graphic_framed, show_ip_graphic.
    + by apply graphic_framed, show_radix_graphic.
  - pose proof (show_ip_nonempty _ Hw). by destruct (show_ip (address c)).
Qed.

(** C37: every printed interface address reads back as itself, whatever blanks
    the operator pasted around the address and the prefix length: [FromStr]
    inverts [Display] on every address and prefix of either family. *)
Theorem cidr_roundtrip (w0 w1 w2 w3 : string) (c : IpCidr) :
  blank_text w0 -> blank_text w1 -> blank_text w2 -> blank_text w3 -> wf_cidr c ->
  cidr_from_str (pasted_cidr w0 w1 w2 w3 c) = Ok c
  /\ cidr_from_str (cidr_to_string c) = Ok c.
Proof.
  assert (H : forall w0 w1 w2 w3,
    blank_text w0 -> blank_text w1 -> blank_text w2 -> blank_text w3 -> wf_cidr c ->
    cidr_from_str (pasted_cidr w0 w1 w2 w3 c) = Ok c).
  { clear. intros w0 w1 w2 w3 H0 H1 H2 H3 [Hip Hlen]. unfold cidr_from_str.
    rewrite trim_pasted by done. rewrite <- append_assoc.
    change ("/" ++ w2 ++ show (prefix_len c)) with (String "/" (w2 ++ show (prefix_len c))).
    rewrite (split_once_app "/" (show_ip (address c) ++ w1)).
    2:{ rewrite no_char_app, show_ip_no_slash. by apply blank_no_char; [split; vm_compute |]. }
    rewrite trim_suffix by auto using show_ip_graphic, show_ip_nonempty.
    rewrite parse_show_ip by done. cbn [ok_or res_bind].
    rewrite trim_prefix by (done || by apply show_radix_graphic || by apply show_radix_nonempty).
    pose proof (max_prefix_len_cases c).
    rewrite parse_uint_show by lia. cbn [ok_or res_bind].
    change (max_prefix_len {| address := address c; prefix_len := prefix_len c |}) with (max_prefix_len c).
    cbn [prefix_len]. rewrite (proj2 (Z.ltb_ge _ _)) by lia. by destruct c. }
  intros H0 H1 H2 H3 Hc. split; [by apply H |].
  rewrite <- (H "" "" "" "") by (done || constructor). unfold pasted_cidr, cidr_to_string.
  by rewrite append_empty.
Qed.

Lemma cidr_roundtrip_witness :
  cidr_from_str (pasted_cidr " " "  " " " (String "009" "") {| address := V4 10 6 0 2; prefix_len := 32 |})
  = Ok {| address := V4 10 6 0 2; prefix_len := 32 |}
  /\ cidr_from_str (cidr_to_string {| address := V4 10 6 0 2; prefix_len := 32 |})
  = Ok {| address := V4 10 6 0 2; prefix_len := 32 |}.
Proof.
  apply (cidr_roundtrip " " "  " " " (String "009" "") {| address := V4 10 6 0 2; prefix_len := 32 |});
    [decide_text | decide_text | decide_text | decide_text |].
  unfold wf_cidr, wf_ip, u8, in_uint, max_prefix_len. simpl. lia.
Defined.

(** C40: whatever text is accepted as an interface address denotes one: octets
    and segments in range and a prefix length the family allows; an address
    pasted without a prefix is a host route. *)
Theorem cidr_from_str_valid (s : string) (c : IpCidr) :
  cidr_from_str s = Ok c ->
  wf_cidr c /\ (no_char "/" (trim s) = true -> c = cidr_host (address c)).
Proof.
  unfold cidr_from_str. set (t := trim s).
  assert (Hsplit : no_char "/" t = true -> split_once "/" t = None) by apply split_once_none.
  destruct (split_once "/" t) as [[a p]|].
  - destruct (parse_ip (trim a)) as [ip|] eqn:Eip; [| done]. cbn [ok_or res_bind].
    destruct (parse_uint 255 (trim p)) as [n|] eqn:En; [| done]. cbn [ok_or res_bind].
    destruct (_ <? _) eqn:El; [done |]. intros [= <-]. apply Z.ltb_ge in El. split.
    + split; [by eapply parse_ip_wf |]. split; [| done]. simpl. eapply parse_uint_nonneg, En.
    + intros Hn. by apply Hsplit in Hn.
  - destruct (parse_ip (trim t)) as [ip|] eqn:Eip; [| done]. cbn [ok_or res_bind].
    destruct (_ <? _) eqn:El; [done |]. intros [= <-]. apply Z.ltb_ge in El.
    split; [| done]. split; [by eapply parse_ip_wf |]. split; [| done]. simpl. by destruct (is_ipv4 ip).
Qed.

Lemma cidr_from_str_valid_witness :
  wf_cidr (cidr_host (V6 8193 3512 0 0 0 0 0 2)) /\
  (no_char "/" (trim "2001:db8::2") = true ->
   cidr_host (V6 8193 3512 0 0 0 0 0 2) = cidr_host (V6 8193 3512 0 0 0 0 0 2)).
Proof. apply (cidr_from_str_valid "2001:db8::2"). vm_compute. reflexivity. Defined.

(** ** Keys *)

Definition wf_key (k : Key) : Prop := length k = 32%nat /\ Forall u8 k.

Section KeyFacts.
Context (b64_encode : list Z -> string) (b64_decode : string -> option (list Z)).
Context (x25519_public : Key -> Key).
Context `{!Base64Laws b64_encode b64_decode}.

Lemma wf_key_nonempty k : wf_key k -> k <> [].
Proof. by intros [Hl _] ->. Qed.

Lemma encode_key_facts k :
  wf_key k -> graphic_text (b64_encode k) /\ b64_encode k <> "" /\ b64_decode (b64_encode k) = Some k.
Proof.
  intros Hk. pose proof (wf_key_nonempty k Hk). destruct Hk as [_ Hk].
  repeat split; [by apply b64_printable | by apply b64_nonempty | by apply b64_roundtrip].
Qed.

Lemma encode_inj k k' : wf_key k -> wf_key k' -> b64_encode k = b64_encode k' -> k = k'.
Proof.
  intros Hk Hk' E. destruct (encode_key_facts k Hk) as (_ & _ & H1).
  destruct (encode_key_facts k' Hk') as (_ & _ & H2). congruence.
Qed.

Lemma trim_key w w' k :
  blank_text w -> blank_text w' -> wf_key k -> trim (w ++ b64_encode k ++ w') = b64_encode k.
Proof.
  intros Hw Hw' Hk. destruct (encode_key_facts k Hk) as (Hg & Hne & _).
  apply trim_pad; [done | done | by apply graphic_framed | done].
Qed.

Lemma parse_key_pasted w w' k :
  blank_text w -> blank_text w' -> wf_key k ->
  parse_key b64_decode (w ++ b64_encode k ++ w') = Ok k.
Proof.
  intros Hw Hw' Hk. unfold parse_key. rewrite trim_key by done.
  destruct (encode_key_facts k Hk) as (Hg & Hne & Hd). destruct Hk as [Hl _].
  assert (He : is_empty (b64_encode k) = false) by (by destruct (b64_encode k)).
  rewrite He, Hd. cbn [ok_or res_bind]. by rewrite Hl.
Qed.

Lemma own_key_decides priv peer :
  wf_key (x25519_public priv) -> wf_key peer ->
  bool_decide (public_key_of b64_encode x25519_public priv = b64_encode peer)
  = bool_decide (x25519_public priv = peer).
Proof.
  intros Hp Hk. apply bool_decide_ext. unfold public_key_of.
  split; [by apply encode_inj | by intros ->].
Qed.

End KeyFacts.

(** Saving pasted keys succeeds for every private, peer and optional
    preshared key, whatever blanks surround them, unless the peer's key is
    this tunnel's own public key, and then the message says so; a preshared
    key of blanks only is no preshared key. *)
Theorem validate_keys_pasted b64_encode b64_decode x25519_public (w w' : string) (priv peer : Key)
    (psk : option string) :
  Base64Laws b64_encode b64_decode -> blank_text w -> blank_text w' ->
  wf_key priv -> wf_key peer -> wf_key (x25519_public priv) ->
  match psk with
  | None => True
  | Some p => is_empty (trim p) = true
              \/ exists k, wf_key k /\ p = w ++ b64_encode k ++ w'
  end ->
  validate_wireguard_keys b64_encode b64_decode x25519_public
    (w ++ b64_encode priv ++ w') (w ++ b64_encode peer ++ w') psk
  = if bool_decide (x25519_public priv = peer) then Err (Configuration OWN_KEY_MESSAGE) else Ok tt.
Proof.
  intros HL Hw Hw' Hpriv Hpeer Hpub Hpsk. unfold validate_wireguard_keys.
  rewrite !parse_key_pasted by done. cbn [map_err res_bind].
  rewrite own_key_decides with (b64_decode := b64_decode) by done.
  destruct psk as [p|]; [| done]. destruct Hpsk as [-> | (k & Hk & ->)]; [done |].
  case_match; [done |]. rewrite trim_key with (b64_decode := b64_decode) by done.
  pose proof (parse_key_pasted b64_encode b64_decode "" "" k) as Hp. rewrite append_empty in Hp.
  change ("" ++ b64_encode k) with (b64_encode k) in Hp.
  rewrite Hp by (done || constructor). done.
Qed.

(** ** Samples *)

Definition sample_key (n : Z) : Key := replicate 32 n.

Lemma sample_key_wf n : u8 n -> wf_key (sample_key n).
Proof. intros H. unfold sample_key. split; [by rewrite length_replicate | by apply Forall_replicate]. Qed.

(** The public key of the samples: any function of the private key will do. *)
Definition sample_public (k : Key) : Key := map (fun b => wrap 8 (b + 1)) k.

Lemma validate_keys_pasted_witness :
  validate_wireguard_keys hex_encode hex_decode sample_public
    (" " ++ hex_encode (sample_key 1) ++ " ") (" " ++ hex_encode (sample_key 3) ++ " ")
    (Some (" " ++ hex_encode (sample_key 9) ++ " "))
  = if bool_decide (sample_public (sample_key 1) = sample_key 3)
    then Err (Configuration OWN_KEY_MESSAGE) else Ok tt.
Proof.
  apply (validate_keys_pasted hex_encode hex_decode sample_public " " " " (sample_key 1) (sample_key 3)).
  - apply hex_laws.
  - decide_text.
  - decide_text.
  - by apply sample_key_wf.
  - by apply sample_key_wf.
  - change (sample_public (sample_key 1)) with (sample_key 2). by apply sample_key_wf.
  - right. exists (sample_key 9). split; [by apply sample_key_wf | reflexivity].
Defined.

Definition sample_spec : WireGuardSpec := {|
  proxy_config_id := "p1"; proxy_name := "home"; revision := "p1@1";
  endpoint_host := "vpn.example"; endpoint_port := 51820;
  private_key := sample_key 1; peer_public_key := sample_key 3; preshared_key := None;
  addresses := [cidr_host (V4 10 6 0 2)]; dns_servers := [V4 10 6 0 1];
  mtu := 1280; persistent_keepalive := Some 25; request_timeout := 30 |}.
