(* ===== verification/WgWire.v ===== *)
(** * What a WireGuard tunnel puts on the wire ([src/wireguard/mod.rs])

    The MTU of a tunnel carried inside another, the inert packet that starts
    a handshake, and the IPv4 header checksum, at their machine widths. *)

From Stdlib Require Import ZArith Lia String Ascii.
From stdpp Require Import gmap strings numbers prelude.
From S2P Require Import Prelude Net Errors Provider WgSpec.

Open Scope string_scope.
Open Scope Z_scope.

Definition WIREGUARD_DATA_OVERHEAD : Z := 32.
Definition UDP_HEADER : Z := 8.
Definition MIN_CARRIED_MTU : Z := 576.

Definition ip_header (endpoint : IpAddr) : Z := if is_ipv4 endpoint then 20 else 40.
Definition carried_overhead (endpoint : IpAddr) : Z :=
  ip_header endpoint + UDP_HEADER + WIREGUARD_DATA_OVERHEAD.

(** The MTU of a tunnel carried over a link of [link_mtu] to [endpoint]. *)
Definition carried_mtu (configured link_mtu : Z) (endpoint : IpAddr) : Result Z TunnelError :=
  let overhead := carried_overhead endpoint in
  let available := Z.land (saturating_sub link_mtu overhead) (not_w 16 15) in
  if available <? MIN_CARRIED_MTU then
    Err (Configuration ("the tunnel beneath has an MTU of " ++ show link_mtu ++ ", which leaves " ++
      show available ++ " bytes per packet once this tunnel's " ++ show overhead ++
      " bytes of headers are added; at least " ++ show MIN_CARRIED_MTU ++
      " are needed. Raise the MTU of the tunnel beneath."))
  else Ok (Z.min configured available).

(** ** The handshake probe *)

(** [bytes.chunks(2)] as big-endian 16-bit words; a last odd byte is the high
    byte of its word. *)
Fixpoint words (bytes : list Z) : list Z :=
  match bytes with
  | hi :: lo :: rest => be16 hi lo :: words rest
  | [hi] => [be16 hi 0]
  | [] => []
  end.

(** [while sum >> 16 != 0]: each round folds the carries back in. *)
Fixpoint fold_carries (fuel : nat) (sum : Z) : option Z :=
  if Z.shiftr sum 16 =? 0 then Some sum
  else match fuel with
       | O => None
       | S fuel => fold_carries fuel (Z.land sum 65535 + Z.shiftr sum 16)
       end.

(** [sum += u32::from(value)], in 32 bits; [None] is the overflow panic. *)
Fixpoint add_words (sum : Z) (ws : list Z) : option Z :=
  match ws with
  | [] => Some sum
  | w :: ws => let sum := sum + w in if sum <? 2 ^ 32 then add_words sum ws else None
  end.

Definition FOLD_FUEL : nat := 16.

Definition ones_sum (bytes : list Z) : option Z :=
  match add_words 0 (words bytes) with
  | Some sum => fold_carries FOLD_FUEL sum
  | None => None
  end.

(** [ipv4_header_checksum] of a header whose checksum field is zero. *)
Definition ipv4_header_checksum (header_bytes : list Z) : option Z :=
  match ones_sum header_bytes with
  | Some sum => Some (not_w 16 (wrap 16 sum))
  | None => None
  end.

Definition set_checksum (header_bytes : list Z) (checksum : Z) : list Z :=
  (take 10 header_bytes ++ be16_bytes checksum ++ drop 12 header_bytes)%list.

Section Probe.

(** The bytes of gotatun's [Ipv4Header::new(source, destination, proto, payload)]. *)
Variable ipv4_header_new : IpAddr -> IpAddr -> Z -> list Z -> list Z.

Definition IPV6_NO_NXT : Z := 59.

Definition handshake_probe (spec : WireGuardSpec) : option (list Z) :=
  let source := match head (addresses spec) with
                | Some cidr => address cidr
                | None => V4_UNSPECIFIED
                end in
  match source with
  | V4 _ _ _ _ =>
      let header := ipv4_header_new source source IPV6_NO_NXT [] in
      match ipv4_header_checksum header with
      | Some checksum => Some (set_checksum header checksum)
      | None => None
      end
  | V6 _ _ _ _ _ _ _ _ =>
      Some ([96; 0; 0; 0] ++ be16_bytes 0 ++ [IPV6_NO_NXT; 64] ++ octets source ++ octets source)%list
  end.

End Probe.

(** [IpNetwork::new(address, prefix).ok()] as a parameter: gotatun's form of
    the peer's allowed IPs. *)
Definition allowed_networks {N} (network_new : IpAddr -> Z -> option N) (spec : WireGuardSpec) : list N :=
  omap (fun c => network_new (address c) (prefix_len c)) (allowed_ips spec).

(** ** Carried MTU *)

Lemma land_clear_low_4 x : 0 <= x < 2 ^ 16 -> Z.land x (not_w 16 15) = 16 * (x / 16).
Proof.
  intros Hx. change (not_w 16 15) with (Z.shiftl (Z.ones 12) 4).
  assert (E : Z.land x (Z.shiftl (Z.ones 12) 4) = Z.shiftl (Z.land (Z.shiftr x 4) (Z.ones 12)) 4).
  { apply Z.bits_inj'. intros n Hn. rewrite Z.shiftl_spec, !Z.land_spec, Z.shiftl_spec by lia.
    destruct (Z.leb_spec 4 n).
    - rewrite Z.shiftr_spec by lia. by replace (n - 4 + 4) with n by lia.
    - rewrite (Z.testbit_neg_r (Z.ones 12)) by lia. by rewrite !andb_false_r. }
  rewrite E, Z.land_ones, Z.shiftr_div_pow2, Z.shiftl_mul_pow2 by lia.
  change (2 ^ 4) with 16. rewrite Z.mod_small; [lia |].
  split; [apply Z.div_pos; lia | apply Z.div_lt_upper_bound; lia].
Qed.

Lemma carried_overhead_pos e : 0 < carried_overhead e < 128.
Proof. unfold carried_overhead, ip_header, UDP_HEADER, WIREGUARD_DATA_OVERHEAD. destruct (is_ipv4 e); lia. Qed.

(** WireGuard pads what it carries to a multiple of 16. *)
Definition padded (n : Z) : Z := 16 * ((n + 15) / 16).

(** Being carried never raises an MTU. *)
Lemma carried_mtu_below configured link_mtu endpoint m :
  0 <= configured -> carried_mtu configured link_mtu endpoint = Ok m -> 0 <= m <= configured.
Proof.
  unfold carried_mtu, MIN_CARRIED_MTU. intros Hc.
  destruct (Z.ltb_spec (Z.land (saturating_sub link_mtu (carried_overhead endpoint)) (not_w 16 15)) 576); [done |].
  intros [= <-]. lia.
Qed.

(** A packet of a carried tunnel, padded and wrapped, fits the link. *)
Lemma carried_mtu_room configured link_mtu endpoint m n :
  0 <= configured -> link_mtu < 2 ^ 16 -> carried_mtu configured link_mtu endpoint = Ok m -> 0 <= n <= m ->
  padded n + carried_overhead endpoint <= link_mtu.
Proof.
  intros Hc Hl. pose proof (carried_overhead_pos endpoint) as Ho. unfold carried_mtu, MIN_CARRIED_MTU, padded, saturating_sub.
  rewrite land_clear_low_4 by lia. set (o := carried_overhead endpoint) in *. set (a := Z.max 0 (link_mtu - o)).
  destruct (Z.ltb_spec (16 * (a / 16)) 576); simpl; [done |]. intros Hm Hn. simplify_eq.
  Z.to_euclidean_division_equations. lia.
Qed.

(** C21: the MTU of a carried tunnel always fits its carrier.  [carried_mtu]
    succeeds exactly when the link leaves at least 576 bytes once the outer
    IP, UDP and WireGuard headers are taken off, and then every packet up to
    the returned MTU, grown to the next multiple of 16 by whichever end pads
    it and wrapped in those headers, fits the link; the configured MTU is
    never exceeded, and is kept whenever the link has room for it. *)
Theorem carried_mtu_fits configured link_mtu endpoint :
  u16 configured -> u16 link_mtu ->
  (is_ok (carried_mtu configured link_mtu endpoint) = true <->
     MIN_CARRIED_MTU + carried_overhead endpoint <= link_mtu) /\
  (forall m, carried_mtu configured link_mtu endpoint = Ok m ->
     m <= configured /\
     (forall n, 0 <= n <= m -> padded n + carried_overhead endpoint <= link_mtu) /\
     (padded configured + carried_overhead endpoint <= link_mtu -> m = configured)).
Proof.
  unfold u16, in_uint. intros Hc Hl. pose proof (carried_overhead_pos endpoint) as Ho.
  unfold carried_mtu, MIN_CARRIED_MTU, padded, saturating_sub.
  rewrite land_clear_low_4 by lia.
  set (o := carried_overhead endpoint) in *. set (a := Z.max 0 (link_mtu - o)).
  pose proof (Z.div_mod a 16 ltac:(lia)). pose proof (Z.mod_pos_bound a 16 ltac:(lia)).
  destruct (Z.ltb_spec (16 * (a / 16)) 576); simpl.
  - split; [| done]. split; [done |]. intros. exfalso. Z.to_euclidean_division_equations. lia.
  - split; [split; [intros _; lia | done] |]. intros m Hm. simplify_eq.
    split; [lia |]. split.
    + intros n Hn. Z.to_euclidean_division_equations. lia.
    + intros Hfit. Z.to_euclidean_division_equations. lia.
Qed.

Lemma carried_mtu_fits_witness :
  carried_mtu 1280 1280 (V4 10 0 0 1) = Ok 1216 /\
  (1216 <= 1280 /\
   (forall n, 0 <= n <= 1216 -> padded n + carried_overhead (V4 10 0 0 1) <= 1280) /\
   (padded 1280 + carried_overhead (V4 10 0 0 1) <= 1280 -> 1216 = 1280)).
Proof.
  split; [vm_compute; reflexivity |].
  apply (carried_mtu_fits 1280 1280 (V4 10 0 0 1));
    [split; [lia | reflexivity] | split; [lia | reflexivity] | vm_compute; reflexivity].
Defined.

(** ** The header checksum *)

Lemma fold_round s :
  0 <= s -> Z.land s 65535 + Z.shiftr s 16 = s mod 65536 + s / 65536.
Proof.
  intros Hs. change 65535 with (Z.ones 16). by rewrite Z.land_ones, Z.shiftr_div_pow2 by lia.
Qed.

Lemma shiftr_zero s : 0 <= s -> (Z.shiftr s 16 =? 0) = (s <? 65536).
Proof.
  intros Hs. rewrite Z.shiftr_div_pow2 by lia. change (2 ^ 16) with 65536.
  destruct (Z.ltb_spec s 65536), (Z.eqb_spec (s / 65536) 0);
    Z.to_euclidean_division_equations; lia.
Qed.

(** Folding keeps the value modulo 65535 and does not turn a positive sum
    into zero. *)
Lemma fold_carries_spec fuel s r :
  0 <= s -> fold_carries fuel s = Some r ->
  0 <= r < 65536 /\ r mod 65535 = s mod 65535 /\ (0 < s -> 0 < r).
Proof.
  revert s. induction fuel as [|fuel IH]; intros s Hs; simpl; rewrite shiftr_zero by done;
    destruct (Z.ltb_spec s 65536); intros E; simplify_eq; try done; try lia.
  rewrite fold_round in E by done.
  pose proof (Z.div_mod s 65536 ltac:(lia)) as Hdm. pose proof (Z.mod_pos_bound s 65536 ltac:(lia)).
  assert (0 < s / 65536) by (apply Z.div_str_pos; lia).
  apply IH in E as (Hr & Hmod & Hpos); [| lia]. split; [done |]. split; [| lia].
  rewrite Hmod. rewrite Hdm at 3.
  replace (65536 * (s / 65536) + s mod 65536)
    with (s mod 65536 + s / 65536 + s / 65536 * 65535) by lia.
  by rewrite Z.mod_add by lia.
Qed.

(** Three rounds are enough for any 32-bit sum. *)
Lemma fold_carries_terminates s fuel :
  0 <= s < 2 ^ 32 -> (3 <= fuel)%nat -> exists r, fold_carries fuel s = Some r.
Proof.
  intros Hs Hf. destruct fuel as [|[|[|fuel]]]; try lia. cbn [fold_carries].
  rewrite shiftr_zero by lia. destruct (Z.ltb_spec s 65536); [eauto |].
  rewrite fold_round by lia. set (s1 := s mod 65536 + s / 65536).
  assert (0 <= s1 <= 131070) by (unfold s1; Z.to_euclidean_division_equations; lia).
  rewrite shiftr_zero by lia. destruct (Z.ltb_spec s1 65536); [eauto |].
  rewrite fold_round by lia. set (s2 := s1 mod 65536 + s1 / 65536).
  assert (0 <= s2 <= 65536) by (unfold s2; Z.to_euclidean_division_equations; lia).
  rewrite shiftr_zero by lia. destruct (Z.ltb_spec s2 65536); [eauto |].
  rewrite fold_round by lia. replace s2 with 65536 by lia.
  exists 1. by destruct fuel.
Qed.

Definition sum_words (ws : list Z) : Z := foldr Z.add 0 ws.

Lemma add_words_sum ws s :
  Forall (fun w => 0 <= w) ws -> 0 <= s -> s + sum_words ws < 2 ^ 32 ->
  add_words s ws = Some (s + sum_words ws).
Proof.
  revert s. induction ws as [|w ws IH]; intros s Hall Hs Hb; simpl in *; [f_equal; lia |].
  apply Forall_cons_1 in Hall as [Hw Hall].
  assert (0 <= sum_words ws) by (clear - Hall; induction Hall; simpl; lia).
  destruct (Z.ltb_spec (s + w) (2 ^ 32)); [| lia].
  rewrite IH; [f_equal; lia | done | lia | lia].
Qed.

Lemma words_bound bytes :
  Forall u8 bytes -> Forall (fun w => 0 <= w) (words bytes) /\
  0 <= sum_words (words bytes) <= 65535 * Z.of_nat (length bytes).
Proof.
  unfold u8, in_uint. induction bytes as [|hi|hi lo rest IH] using list_two_ind; intros Hall; simpl.
  - split; [constructor | lia].
  - apply Forall_cons_1 in Hall as [Hhi _]. unfold be16. split; [repeat constructor; lia | lia].
  - apply Forall_cons_1 in Hall as [Hhi [Hlo Hall]%Forall_cons_1].
    destruct (IH Hall) as [H0 H1]. unfold be16. split; [constructor; [lia | done] | lia].
Qed.

(** What [ones_sum] computes of a header-sized byte string. *)
Lemma ones_sum_spec bytes :
  Forall u8 bytes -> (length bytes <= 60)%nat ->
  exists r, ones_sum bytes = Some r /\ 0 <= r < 65536 /\
    r mod 65535 = sum_words (words bytes) mod 65535 /\
    (0 < sum_words (words bytes) <-> 0 < r).
Proof.
  intros Hall Hlen. destruct (words_bound _ Hall) as [Hpos Hb]. unfold ones_sum.
  rewrite add_words_sum by (auto; lia). rewrite Z.add_0_l.
  destruct (fold_carries_terminates (sum_words (words bytes)) FOLD_FUEL) as (r & Hr);
    [lia | unfold FOLD_FUEL; lia |].
  exists r. split; [done |]. destruct (Z.eq_dec (sum_words (words bytes)) 0) as [E0|E0].
  - rewrite E0 in *. vm_compute in Hr. simplify_eq. lia.
  - apply fold_carries_spec in Hr as (? & ? & ?); [| lia]. repeat split; auto; lia.
Qed.

Lemma not_w_16 x : 0 <= x < 65536 -> not_w 16 x = 65535 - x.
Proof.
  intros Hx. assert (Z.log2 x < 16).
  { destruct (Z.eq_dec x 0) as [-> |]; [done |]. apply Z.log2_lt_pow2; [lia |].
    change (2 ^ 16) with 65536. lia. }
  unfold not_w. rewrite Z.lxor_comm, <- Z.ldiff_ones_l_low by lia.
  rewrite <- Z.sub_nocarry_ldiff; [done |]. apply Z.ldiff_ones_r_low; lia.
Qed.

Lemma length_ge_12 {A} (l : list A) : (12 <= length l)%nat ->
  exists a0 a1 a2 a3 a4 a5 a6 a7 a8 a9 a10 a11 rest,
    l = a0 :: a1 :: a2 :: a3 :: a4 :: a5 :: a6 :: a7 :: a8 :: a9 :: a10 :: a11 :: rest.
Proof. intros H. do 12 (destruct l as [|? l]; [simpl in H; lia |]). eauto 20. Qed.

(** Writing a checksum into a zero field adds it to the sum of the words. *)
Lemma words_set_checksum bytes ck :
  (12 <= length bytes)%nat -> bytes !! 10%nat = Some 0 -> bytes !! 11%nat = Some 0 -> u16 ck ->
  sum_words (words (set_checksum bytes ck)) = sum_words (words bytes) + ck /\
  (Forall u8 bytes -> Forall u8 (set_checksum bytes ck)) /\
  length (set_checksum bytes ck) = length bytes.
Proof.
  intros (a0 & a1 & a2 & a3 & a4 & a5 & a6 & a7 & a8 & a9 & a10 & a11 & rest & ->)%length_ge_12 H10 H11 Hck.
  unfold u16, u8, in_uint in *. simpl in H10, H11. simplify_eq.
  unfold set_checksum, be16_bytes. simpl. unfold be16. rewrite drop_0.
  pose proof (Z.div_mod ck 256 ltac:(lia)). pose proof (Z.mod_pos_bound ck 256 ltac:(lia)).
  assert (0 <= ck / 256 < 256) by (split; [apply Z.div_pos; lia | apply Z.div_lt_upper_bound; lia]).
  split; [lia |]. split; [| done].
  intros Hall. repeat match goal with H : Forall _ (_ :: _) |- _ => apply Forall_cons_1 in H as [? ?] end.
  repeat (constructor; [lia |]). done.
Qed.

(** The header verifies: the one's complement sum over the whole header,
    checksum included, is all ones. *)
Lemma checksum_verifies bytes :
  (12 <= length bytes <= 60)%nat -> Forall u8 bytes -> bytes !! 10%nat = Some 0 -> bytes !! 11%nat = Some 0 ->
  exists ck, ipv4_header_checksum bytes = Some ck /\ u16 ck /\
    ones_sum (set_checksum bytes ck) = Some 65535.
Proof.
  intros Hlen Hall H10 H11. destruct (ones_sum_spec bytes Hall ltac:(lia)) as (f & Hf & Hrange & Hmod & Hzero).
  unfold ipv4_header_checksum. rewrite Hf. unfold wrap. rewrite Z.mod_small by (change (2 ^ 16) with 65536; lia).
  rewrite not_w_16 by lia. exists (65535 - f). split; [done |].
  assert (Hck : u16 (65535 - f)) by (unfold u16, in_uint; change (2 ^ 16) with 65536; lia). split; [done |].
  destruct (words_set_checksum bytes (65535 - f) ltac:(lia) H10 H11 Hck) as (Hsum & Hall' & Hlen').
  destruct (ones_sum_spec (set_checksum bytes (65535 - f)) (Hall' Hall) ltac:(lia)) as (r & Hr & Hr1 & Hr2 & Hr3).
  rewrite Hr. f_equal. rewrite Hsum in Hr2, Hr3.
  destruct (words_bound _ Hall) as [_ Hb]. set (w := sum_words (words bytes)) in *.
  assert (Hdiv : (w + (65535 - f)) mod 65535 = 0).
  { pose proof (Z.div_mod w 65535 ltac:(lia)). pose proof (Z.div_mod f 65535 ltac:(lia)).
    replace (w + (65535 - f)) with ((w / 65535 - f / 65535 + 1) * 65535) by lia.
    by apply Z.mod_mul. }
  rewrite Hdiv in Hr2. pose proof (Z.div_mod r 65535 ltac:(lia)).
  assert (0 < r) by (apply Hr3; lia). assert (r / 65535 = 1) by lia. lia.
Qed.

(** What the crate relies on of gotatun's [Ipv4Header::new] with an empty
    payload: the 20 octets of an IPv4 header, its checksum field zero, the
    two addresses in their places and the protocol in its place. *)
Definition ipv4_header_layout (ipv4_header_new : IpAddr -> IpAddr -> Z -> list Z -> list Z) : Prop :=
  forall src dst proto, is_ipv4 src = true -> is_ipv4 dst = true -> wf_ip src -> wf_ip dst -> u8 proto ->
  let h := ipv4_header_new src dst proto [] in
  length h = 20%nat /\ Forall u8 h /\ h !! 9%nat = Some proto /\
  h !! 10%nat = Some 0 /\ h !! 11%nat = Some 0 /\ drop 12 h = (octets src ++ octets dst)%list.

Lemma drop_set_checksum bytes ck :
  (12 <= length bytes)%nat -> drop 12 (set_checksum bytes ck) = drop 12 bytes /\
  take 10 (set_checksum bytes ck) = take 10 bytes.
Proof.
  intros (a0 & a1 & a2 & a3 & a4 & a5 & a6 & a7 & a8 & a9 & a10 & a11 & rest & ->)%length_ge_12.
  unfold set_checksum. simpl. by rewrite !drop_0.
Qed.

(** the handshake probe of an IPv4 tunnel is a well-formed inert packet:
    always built (the checksum loop terminates within its bound and the
    32-bit sum never overflows), twenty bytes, protocol 59, addressed from
    the tunnel's own first address to itself, and its header checksum
    verifies. *)
Theorem handshake_probe_v4 ipv4_header_new spec cidr rest a b c d :
  ipv4_header_layout ipv4_header_new ->
  addresses spec = cidr :: rest -> address cidr = V4 a b c d -> wf_ip (V4 a b c d) ->
  exists bytes, handshake_probe ipv4_header_new spec = Some bytes /\
    length bytes = 20%nat /\ bytes !! 9%nat = Some 59 /\
    drop 12 bytes = [a; b; c; d; a; b; c; d] /\ ones_sum bytes = Some 65535.
Proof.
  intros Hlay Haddr Hcidr Hwf. unfold handshake_probe. rewrite Haddr. simpl. rewrite Hcidr.
  destruct (Hlay (V4 a b c d) (V4 a b c d) IPV6_NO_NXT) as (Hlen & Hu8 & H9 & H10 & H11 & Hoct); try done.
  set (h := ipv4_header_new _ _ _ _) in *.
  destruct (checksum_verifies h ltac:(lia) Hu8 H10 H11) as (ck & Hck & Hu & Hsum).
  rewrite Hck. exists (set_checksum h ck). split; [done |].
  destruct (drop_set_checksum h ck ltac:(lia)) as [Hd Ht].
  destruct (words_set_checksum h ck ltac:(lia) H10 H11 Hu) as (_ & _ & Hl).
  split; [lia |]. split; [| by rewrite Hd, Hoct].
  rewrite <- (lookup_take_lt _ 10), Ht, lookup_take_lt by lia. exact H9.
Qed.

Definition sample_header (src dst : IpAddr) (proto : Z) (payload : list Z) : list Z :=
  ([69; 0; 0; 20; 0; 0; 64; 0; 64; proto; 0; 0] ++ octets src ++ octets dst)%list.

Lemma sample_header_layout : ipv4_header_layout sample_header.
Proof.
  intros [a b c d|] [e f g h|] proto Hs Hd Hws Hwd Hp; try done. simpl in Hws, Hwd.
  destruct Hws as (? & ? & ? & ?), Hwd as (? & ? & ? & ?). simpl. repeat split; try done.
  repeat (constructor; [try done; unfold u8, in_uint; lia |]). constructor.
Qed.

Definition sample_spec (addrs : list IpCidr) : WireGuardSpec := {|
  proxy_config_id := "probe"; proxy_name := "Probe"; revision := "probe@v1";
  endpoint_host := "vpn.test"; endpoint_port := 51820;
  private_key := replicate 32 1; peer_public_key := replicate 32 2; preshared_key := None;
  addresses := addrs; dns_servers := []; mtu := DEFAULT_WIREGUARD_MTU;
  persistent_keepalive := None; request_timeout := from_secs 5 |}.

Lemma handshake_probe_v4_witness :
  exists bytes, handshake_probe sample_header (sample_spec [{| address := V4 10 63 0 2; prefix_len := 32 |}])
      = Some bytes /\
    length bytes = 20%nat /\ bytes !! 9%nat = Some 59 /\
    drop 12 bytes = [10; 63; 0; 2; 10; 63; 0; 2] /\ ones_sum bytes = Some 65535.
Proof.
  apply (handshake_probe_v4 sample_header _ {| address := V4 10 63 0 2; prefix_len := 32 |} [] 10 63 0 2).
  - exact sample_header_layout.
  - reflexivity.
  - reflexivity.
  - unfold wf_ip, u8, in_uint. repeat split; lia.
Defined.
