(* ===== verification/WgLink.v ===== *)
(** * The link between the stack and the device
      ([src/wireguard/adapter.rs], [src/wireguard/phy.rs])

    Two bounded channels join gotatun's device to the in-process stack, and
    [WgPhy] is the stack's end of them: a bounded inbound queue that drops the
    oldest packet, and outbound packets composed into pooled buffers.  The
    channel is any implementation of [Channel]; a packet is its bytes; whether
    bytes parse as an IP packet is gotatun's decision, a parameter. *)

From Stdlib Require Import ZArith Lia String Ascii.
From stdpp Require Import gmap strings numbers prelude.
From S2P Require Import Prelude Runtime.

Open Scope string_scope.
Open Scope Z_scope.

Definition PACKET_QUEUE_DEPTH : nat := 512.

Definition Packet : Type := list Z.

Section Link.
Context {C : Type} `{!Channel C Packet}.

(** [Packet::try_into_ip]. *)
Variable try_into_ip : list Z -> option Packet.

(** ** The device's two ends *)

Record StackToDevice : Type := { rx : C; batch : list Packet; link_mtu : Z }.

Record Channels : Type := {
  device_to_stack : C;
  stack_to_device : C;
  channels_mtu : Z
}.

Definition ip_channels (mtu : Z) : Channels :=
  {| device_to_stack := chan_new PACKET_QUEUE_DEPTH;
     stack_to_device := chan_new PACKET_QUEUE_DEPTH;
     channels_mtu := mtu |}.

(** [DeviceToStack::send]: waits for room; a stack that is gone is an error. *)
Definition device_send (packet : Packet) (tx : C) : Poll (Result unit ErrorKind) * C :=
  if chan_closed tx then (Ready (Err BrokenPipe), tx)
  else match chan_try_send packet tx with
       | Some tx => (Ready (Ok tt), tx)
       | None => (Pending, tx)
       end.

(** [StackToDevice::recv]: everything queued, as one batch; waits while there
    is nothing and a sender remains. *)
Definition device_recv (d : StackToDevice) : Poll (Result (list Packet) ErrorKind) * StackToDevice :=
  let wanted := chan_max_capacity (rx d) in
  if bool_decide (chan_queued (rx d) = []) && negb (chan_ended (rx d)) then (Pending, d) else
  let '(got, rx) := chan_recv_many wanted (rx d) in
  let taken := length got in
  let filled := (batch d ++ got)%list in
  if (taken =? 0)%nat then
    (Ready (Err UnexpectedEof), {| rx := rx; batch := filled; link_mtu := link_mtu d |})
  else
    (Ready (Ok (take taken filled)), {| rx := rx; batch := drop taken filled; link_mtu := link_mtu d |}).

(** ** The stack's end *)

Record WgPhy : Type := {
  inbound : list Packet;
  outbound : C;
  mtu : Z;
  dropped : nat;
  overrun : nat
}.

Definition phy_new (outbound : C) (mtu : Z) : WgPhy :=
  {| inbound := []; outbound := outbound; mtu := mtu; dropped := 0; overrun := 0 |}.

Definition push_inbound (packet : Packet) (p : WgPhy) : WgPhy :=
  if (PACKET_QUEUE_DEPTH <=? length (inbound p))%nat
  then {| inbound := tail (inbound p) ++ [packet]; outbound := outbound p; mtu := mtu p;
          dropped := dropped p; overrun := S (overrun p) |}
  else {| inbound := inbound p ++ [packet]; outbound := outbound p; mtu := mtu p;
          dropped := dropped p; overrun := overrun p |}.

Definition drop_counts (p : WgPhy) : nat * nat := (dropped p, overrun p).

(** [Device::receive]: the oldest packet, with permission to transmit. *)
Definition receive (p : WgPhy) : option (Packet * WgPhy) :=
  match inbound p with
  | [] => None
  | packet :: rest =>
      Some (packet, {| inbound := rest; outbound := outbound p; mtu := mtu p;
                       dropped := dropped p; overrun := overrun p |})
  end.

(** [Device::transmit]: a token only while the channel has room. *)
Definition transmit (p : WgPhy) : bool := negb (chan_capacity (outbound p) =? 0)%nat.

(** The pooled buffer, cut or grown to [len]. *)
Definition sized_buffer (buffer : list Z) (len : nat) : list Z :=
  if (length buffer <? len)%nat then (buffer ++ replicate (len - length buffer) 0)%list
  else take len buffer.

(** [TxToken::consume]: compose into the buffer and hand the packet over; a
    packet that cannot be handed over is lost and counted. *)
Definition tx_consume (buffer : list Z) (len : nat) (compose : list Z -> list Z) (p : WgPhy) : WgPhy :=
  let lost := {| inbound := inbound p; outbound := outbound p; mtu := mtu p;
                 dropped := S (dropped p); overrun := overrun p |} in
  match try_into_ip (compose (sized_buffer buffer len)) with
  | Some packet =>
      match chan_try_send packet (outbound p) with
      | Some outbound =>
          {| inbound := inbound p; outbound := outbound; mtu := mtu p;
             dropped := dropped p; overrun := overrun p |}
      | None => lost
      end
  | None => lost
  end.

(** ** Traffic through the link *)

(** [recv_many] of the pump, at most 64 packets at a time, into the phy. *)
Definition PUMP_BATCH : nat := 64.

Definition pump_takes (rx : C) (p : WgPhy) : list Packet * C * WgPhy :=
  let '(got, rx) := chan_recv_many PUMP_BATCH rx in (got, rx, foldl (fun p packet => push_inbound packet p) p got).

(** What can happen: the device decrypts a packet and sends it, which may wait;
    the pump takes a batch; the interface takes a packet or composes one; the
    handshake probe is sent; the device takes what there is to encrypt; the pump
    ends, and its receiver with it. *)
Inductive LinkEvent : Type :=
| Decrypt (packet : Packet)
| SendPolled
| PumpTakes
| Take
| Compose (buffer : list Z) (len : nat) (compose : list Z -> list Z)
| Probe (packet : Packet)
| Drain
| PumpEnds.

(** The two channels and the phy; [sending] is the packet the device is waiting
    to hand over, one at a time.  The rest is what has gone in and come out so
    far: [refused] were answered with an error, [abandoned] were queued when the
    pump ended. *)
Record Link : Type := {
  to_stack : C;
  sending : option Packet;
  phy : WgPhy;
  device_batch : list Packet;
  decrypted : list Packet;
  refused : list Packet;
  abandoned : list Packet;
  pushed : list Packet;
  taken : list Packet;
  composed : nat;
  probes : nat;
  sent : list Packet;
  drained : list Packet
}.

Definition link_new (mtu : Z) : Link :=
  let channels := ip_channels mtu in
  {| to_stack := device_to_stack channels; sending := None; phy := phy_new (stack_to_device channels) mtu;
     device_batch := []; decrypted := []; refused := []; abandoned := []; pushed := []; taken := [];
     composed := 0; probes := 0; sent := []; drained := [] |}.

(** The device's side of the inbound half. *)
Definition set_to_stack (tx : C) (waiting : option Packet) (in_ out_ gone : list Packet) (l : Link) : Link :=
  {| to_stack := tx; sending := waiting; phy := phy l; device_batch := device_batch l; decrypted := in_;
     refused := out_; abandoned := gone; pushed := pushed l; taken := taken l; composed := composed l;
     probes := probes l; sent := sent l; drained := drained l |}.

(** The phy, and what it has seen. *)
Definition set_phy_side (tx : C) (p : WgPhy) (in_ out_ : list Packet) (l : Link) : Link :=
  {| to_stack := tx; sending := sending l; phy := p; device_batch := device_batch l; decrypted := decrypted l;
     refused := refused l; abandoned := abandoned l; pushed := in_; taken := out_; composed := composed l;
     probes := probes l; sent := sent l; drained := drained l |}.

(** The outbound half. *)
Definition set_outbound (p : WgPhy) (b : list Packet) (n k : nat) (in_ out_ : list Packet) (l : Link) : Link :=
  {| to_stack := to_stack l; sending := sending l; phy := p; device_batch := b; decrypted := decrypted l;
     refused := refused l; abandoned := abandoned l; pushed := pushed l; taken := taken l; composed := n;
     probes := k; sent := in_; drained := out_ |}.

Definition with_channel (c : C) (p : WgPhy) : WgPhy :=
  {| inbound := inbound p; outbound := c; mtu := mtu p; dropped := dropped p; overrun := overrun p |}.

Definition link_step (e : LinkEvent) (l : Link) : Link :=
  match e with
  | Decrypt packet =>
      match sending l with
      | None => set_to_stack (to_stack l) (Some packet) (decrypted l ++ [packet]) (refused l) (abandoned l) l
      | Some _ => l
      end
  | SendPolled =>
      match sending l with
      | None => l
      | Some packet =>
          match device_send packet (to_stack l) with
          | (Ready (Ok _), tx) => set_to_stack tx None (decrypted l) (refused l) (abandoned l) l
          | (Ready (Err _), tx) => set_to_stack tx None (decrypted l) (refused l ++ [packet]) (abandoned l) l
          | (Pending, tx) => set_to_stack tx (Some packet) (decrypted l) (refused l) (abandoned l) l
          end
      end
  | PumpTakes =>
      let '(got, rx, p) := pump_takes (to_stack l) (phy l) in set_phy_side rx p (pushed l ++ got) (taken l) l
  | Take =>
      match receive (phy l) with
      | Some (packet, p) => set_phy_side (to_stack l) p (pushed l) (taken l ++ [packet]) l
      | None => l
      end
  | Compose buffer len f =>
      let p := tx_consume buffer len f (phy l) in
      set_outbound p (device_batch l) (S (composed l)) (probes l)
        (if (dropped p =? dropped (phy l))%nat
         then sent l ++ from_option (fun x => [x]) [] (try_into_ip (f (sized_buffer buffer len)))
         else sent l)
        (drained l) l
  | Probe packet =>
      match chan_try_send packet (outbound (phy l)) with
      | Some c =>
          set_outbound (with_channel c (phy l)) (device_batch l) (composed l) (S (probes l)) (sent l ++ [packet])
            (drained l) l
      | None => l
      end
  | Drain =>
      match device_recv {| rx := outbound (phy l); batch := device_batch l; link_mtu := mtu (phy l) |} with
      | (Ready (Ok out), d) =>
          set_outbound (with_channel (rx d) (phy l)) (batch d) (composed l) (probes l) (sent l) (drained l ++ out) l
      | _ => l
      end
  | PumpEnds =>
      set_to_stack (chan_drop_receiver (to_stack l)) (sending l) (decrypted l) (refused l)
        (abandoned l ++ chan_queued (to_stack l)) l
  end.

Definition link_run (mtu : Z) (events : list LinkEvent) : Link :=
  foldl (fun l e => link_step e l) (link_new mtu) events.

End Link.
Arguments WgPhy : clear implicits.
Arguments Link : clear implicits.

(** ** What the link promises *)

Section LinkFacts.
Context {C : Type} `{!Channel C Packet, !ChannelLaws C Packet}.
Variable try_into_ip : list Z -> option Packet.

Record link_inv (l : Link C) : Prop := {
  channel_bound : chan_max_capacity (to_stack l) = PACKET_QUEUE_DEPTH;
  channel_order : decrypted l
    = (pushed l ++ chan_queued (to_stack l) ++ abandoned l ++ refused l ++ option_list (sending l))%list;
  channel_open : chan_closed (to_stack l) = false -> abandoned l = [] /\ refused l = [];
  channel_gone : chan_closed (to_stack l) = true -> chan_queued (to_stack l) = [];
  inbound_bound : (length (inbound (phy l)) <= PACKET_QUEUE_DEPTH)%nat;
  inbound_suffix : exists lost, pushed l = (lost ++ inbound (phy l))%list /\ sublist (taken l) lost;
  inbound_count : length (pushed l)
    = (length (taken l) + length (inbound (phy l)) + overrun (phy l))%nat;
  outbound_bound : chan_max_capacity (outbound (phy l)) = PACKET_QUEUE_DEPTH;
  outbound_order : (drained l ++ chan_queued (outbound (phy l)))%list = sent l;
  outbound_count : (composed l + probes l)%nat = (length (sent l) + dropped (phy l))%nat;
  batch_empty : device_batch l = []
}.

Lemma link_new_inv mtu : link_inv (link_new mtu).
Proof.
  split; simpl; rewrite ?queued_new, ?max_capacity_new; try done; [lia | by exists []].
Qed.

Lemma decrypt_inv packet l : link_inv l -> link_inv (link_step try_into_ip (Decrypt packet) l).
Proof.
  intros Hl. unfold link_step. destruct (sending l) eqn:Es; [done |]. destruct Hl. split; try done.
  simpl. rewrite channel_order0, Es. simpl. by rewrite app_nil_r, <- !app_assoc.
Qed.

Lemma send_inv l : link_inv l -> link_inv (link_step try_into_ip SendPolled l).
Proof.
  intros Hl. unfold link_step. destruct (sending l) as [packet|] eqn:Es; [| done]. unfold device_send.
  destruct (chan_closed (to_stack l)) eqn:Ec.
  - destruct Hl. rewrite Es in channel_order0. split; try done; simpl; [| by rewrite Ec].
    rewrite channel_order0. simpl. by rewrite app_nil_r.
  - destruct (chan_try_send packet (to_stack l)) as [tx|] eqn:Et.
    + apply try_send_some in Et as (Hq & Hm & Hc & _). destruct Hl. destruct (channel_open0 Ec) as [Ha Hr].
      split; try done; simpl; rewrite ?Hm, ?Hc; try done.
      rewrite channel_order0, Es, Hq, Ha, Hr. simpl. by rewrite app_nil_r.
    + destruct Hl. split; try done. simpl. by rewrite channel_order0, Es.
Qed.

(** One packet more for the interface. *)
Definition holds_inbound (p : WgPhy C) (ins outs : list Packet) : Prop :=
  (length (inbound p) <= PACKET_QUEUE_DEPTH)%nat
  /\ (exists lost, ins = (lost ++ inbound p)%list /\ sublist outs lost)
  /\ length ins = (length outs + length (inbound p) + overrun p)%nat.

Lemma push_holds packet p ins outs :
  holds_inbound p ins outs -> holds_inbound (push_inbound packet p) (ins ++ [packet]) outs.
Proof.
  intros (H1 & (lost & H2 & H2') & H3). unfold push_inbound, holds_inbound.
  destruct (Nat.leb_spec PACKET_QUEUE_DEPTH (length (inbound p))); simpl; rewrite !length_app; simpl.
  - destruct (inbound p) as [|x q]; [unfold PACKET_QUEUE_DEPTH in *; simpl in *; lia |]. simpl in *.
    split_and!; [lia | | lia]. exists (lost ++ [x])%list. rewrite H2, <- !app_assoc. split; [done |].
    by apply sublist_inserts_r.
  - split_and!; [lia | | lia]. exists lost. by rewrite H2, <- app_assoc.
Qed.

Lemma push_all_holds packets : forall p ins outs,
  holds_inbound p ins outs ->
  holds_inbound (foldl (fun p packet => push_inbound packet p) p packets) (ins ++ packets) outs.
Proof.
  induction packets as [|packet packets IH]; intros p ins outs Hp; simpl; [by rewrite app_nil_r |].
  apply (push_holds packet), IH in Hp. by rewrite <- app_assoc in Hp.
Qed.

Lemma push_all_outbound packets : forall p : WgPhy C,
  let p' := foldl (fun p packet => push_inbound packet p) p packets in
  outbound p' = outbound p /\ dropped p' = dropped p.
Proof.
  induction packets as [|packet packets IH]; intros p; simpl; [done |].
  destruct (IH (push_inbound packet p)) as [-> ->]. unfold push_inbound. by destruct (_ <=? _)%nat.
Qed.

Lemma pump_takes_inv l : link_inv l -> link_inv (link_step try_into_ip PumpTakes l).
Proof.
  intros [H1 H2 H2o H2g H3 H4 H5 H6 H7 H8 H9]. unfold link_step, pump_takes.
  destruct (chan_recv_many PUMP_BATCH (to_stack l)) as [got rx] eqn:E.
  apply recv_many_take in E as (Hg & Hq & Hm & Hc).
  destruct (push_all_holds got (phy l) (pushed l) (taken l)) as (I1 & I2 & I3); [by split_and! |].
  destruct (push_all_outbound got (phy l)) as [O1 O2].
  split; try done; simpl; rewrite ?Hm, ?Hc, ?O1, ?O2; try done.
  - rewrite Hq, Hg, H2, <- app_assoc. f_equal. rewrite (app_assoc (take _ _)). by rewrite take_drop.
  - rewrite Hq. intros Hcl. by rewrite (H2g Hcl), drop_nil.
Qed.

Lemma take_inv l : link_inv l -> link_inv (link_step try_into_ip Take l).
Proof.
  intros Hl. unfold link_step, receive.
  destruct (inbound (phy l)) as [|x q] eqn:E; [done |].
  destruct Hl as [H1 H2 H2o H2g H3 (lost & H4 & H4') H5 H6 H7 H8 H9]. rewrite E in *.
  split; simpl; try done; simpl in *.
  - lia.
  - exists (lost ++ [x])%list. rewrite H4, <- app_assoc. split; [done |]. by apply sublist_app.
  - rewrite length_app. simpl. lia.
Qed.

Lemma compose_inv buffer len f l : link_inv l -> link_inv (link_step try_into_ip (Compose buffer len f) l).
Proof.
  intros [H1 H2 H2o H2g H3 H4 H5 H6 H7 H8 H9]. unfold link_step, tx_consume.
  destruct (try_into_ip _) as [packet|] eqn:E; [destruct (chan_try_send packet _) as [c|] eqn:Es |].
  - apply try_send_some in Es as (Hq & Hm & _). split; simpl; try done; rewrite ?Nat.eqb_refl.
    + congruence.
    + by rewrite Hq, app_assoc, H7.
    + rewrite length_app. simpl. lia.
  - cbn [dropped]. rewrite (proj2 (Nat.eqb_neq (S (dropped (phy l))) _)) by lia.
    split; simpl; try done; lia.
  - cbn [dropped]. rewrite (proj2 (Nat.eqb_neq (S (dropped (phy l))) _)) by lia.
    split; simpl; try done; lia.
Qed.

Lemma probe_inv packet l : link_inv l -> link_inv (link_step try_into_ip (Probe packet) l).
Proof.
  intros Hl. unfold link_step. destruct (chan_try_send packet _) as [c|] eqn:Es; [| done].
  destruct Hl as [H1 H2 H2o H2g H3 H4 H5 H6 H7 H8 H9].
  apply try_send_some in Es as (Hq & Hm & _). split; simpl; try done.
  - congruence.
  - by rewrite Hq, app_assoc, H7.
  - rewrite length_app. simpl. lia.
Qed.

Lemma device_recv_all d out d' :
  batch d = [] -> device_recv (C := C) d = (Ready (Ok out), d') ->
  out = chan_queued (rx d) /\ chan_queued (rx d') = [] /\ batch d' = []
  /\ chan_max_capacity (rx d') = chan_max_capacity (rx d).
Proof.
  intros Hb. unfold device_recv. destruct (_ && _); [done |].
  destruct (chan_recv_many _ _) as [got r] eqn:E. apply recv_many_take in E as (-> & Hq & Hm & _).
  rewrite Hb. simpl. pose proof (queued_bound (rx d)) as Hl.
  rewrite (take_ge (chan_queued (rx d))) by done. rewrite drop_ge in Hq by done.
  case_match; [done |]. intros [= <- <-]. simpl. by rewrite firstn_all, drop_all.
Qed.

Lemma drain_inv l : link_inv l -> link_inv (link_step try_into_ip Drain l).
Proof.
  intros Hl. pose proof Hl as [H1 H2 H2o H2g H3 H4 H5 H6 H7 H8 H9]. unfold link_step.
  destruct (device_recv _) as [[[out | e] |] d] eqn:E; [| done..].
  apply device_recv_all in E as (-> & Hq & Hb & Hm); [| done].
  split; simpl in *; try done; [congruence |]. by rewrite Hq, app_nil_r, H7.
Qed.

Lemma pump_ends_inv l : link_inv l -> link_inv (link_step try_into_ip PumpEnds l).
Proof.
  intros [H1 H2 H2o H2g H3 H4 H5 H6 H7 H8 H9]. destruct (drop_receiver_closes (to_stack l)) as (D1 & D2 & D3).
  split; try done; simpl; rewrite ?D1, ?D2, ?D3; try done.
  rewrite H2. simpl. f_equal. destruct (chan_closed (to_stack l)) eqn:Ec.
  - rewrite (H2g eq_refl). simpl. by rewrite app_nil_r.
  - destruct (H2o eq_refl) as [-> ->]. done.
Qed.

Lemma link_step_inv e l : link_inv l -> link_inv (link_step try_into_ip e l).
Proof.
  destruct e; [apply decrypt_inv | apply send_inv | apply pump_takes_inv | apply take_inv | apply compose_inv
    | apply probe_inv | apply drain_inv | apply pump_ends_inv].
Qed.

Lemma link_run_inv mtu events : link_inv (link_run try_into_ip mtu events).
Proof.
  unfold link_run. assert (H : forall l, link_inv l -> link_inv (foldl (fun l e => link_step try_into_ip e l) l events)).
  { induction events as [|e es IH]; intros l Hl; simpl; [done |]. by apply IH, link_step_inv. }
  apply H, link_new_inv.
Qed.

End LinkFacts.

(** C30: the link loses packets only where it says so.  Through any traffic,
    inbound: every packet the device decrypted was handed on to the interface's
    queue, waits in the channel, or is the one the device still waits to send,
    in that order and none of them twice; once the pump has ended, what was in
    the channel is gone, and every packet after it is refused with an error.
    At most 512 wait in the channel and 512 in the queue; what the interface
    receives comes in order, and every packet handed on is received, waiting or
    counted as an overrun.  Outbound: what the device drains is what was sent, in
    order and without loss or duplication, at most 512 wait, and every composed
    packet is sent or counted as dropped. *)
Theorem link_accounting {C} `{!Channel C Packet, !ChannelLaws C Packet}
    (try_into_ip : list Z -> option Packet) (m : Z) (events : list LinkEvent) :
  let l := link_run (C := C) try_into_ip m events in
  decrypted l = (pushed l ++ chan_queued (to_stack l) ++ abandoned l ++ refused l ++ option_list (sending l))%list
  /\ (chan_closed (to_stack l) = false -> abandoned l = [] /\ refused l = [])
  /\ (length (chan_queued (to_stack l)) <= PACKET_QUEUE_DEPTH)%nat
  /\ (length (inbound (phy l)) <= PACKET_QUEUE_DEPTH)%nat
  /\ sublist (taken l ++ inbound (phy l))%list (pushed l)
  /\ length (pushed l) = (length (taken l) + length (inbound (phy l)) + overrun (phy l))%nat
  /\ (length (chan_queued (outbound (phy l))) <= PACKET_QUEUE_DEPTH)%nat
  /\ (drained l ++ chan_queued (outbound (phy l)))%list = sent l
  /\ (composed l + probes l)%nat = (length (sent l) + dropped (phy l))%nat.
Proof.
  simpl. pose proof (link_run_inv (C := C) try_into_ip m events)
    as [H1 H2 H2o H2g H3 (lost & H4 & H4') H5 H6 H7 H8 _].
  split_and!; try done.
  - rewrite <- H1. apply queued_bound.
  - rewrite H4. by apply sublist_app.
  - rewrite <- H6. apply queued_bound.
Qed.

Lemma link_accounting_witness :
  let l := link_run (C := ListChannel Packet) (fun b => Some b) 1280
             [Decrypt [1]; SendPolled; Decrypt [2]; SendPolled; PumpTakes; Take; Compose [] 2 (fun _ => [6; 0]); Drain;
              Decrypt [3]; SendPolled; PumpEnds; Decrypt [4]; SendPolled] in
  taken l = [[1]] /\ drained l = [[6; 0]] /\ abandoned l = [[3]] /\ refused l = [[4]]
  /\ (composed l + probes l)%nat = (length (sent l) + dropped (phy l))%nat.
Proof.
  split; [reflexivity |]. split; [reflexivity |]. split; [reflexivity |]. split; [reflexivity |].
  apply (link_accounting (C := ListChannel Packet) (fun b => Some b) 1280).
Defined.

(** a granted token is never wasted.  When [transmit] grants a token, the
    receiver is alive and the composed bytes are an IP packet, that packet is
    queued and nothing is dropped; a full channel refuses the token, so
    back-pressure reaches the interface before a packet is composed; a stack
    that is gone surfaces as an error on both of the device's ends. *)
Theorem link_backpressure {C} `{!Channel C Packet, !ChannelLaws C Packet}
    (try_into_ip : list Z -> option Packet) (buffer : list Z) (len : nat)
    (compose : list Z -> list Z) (p : WgPhy C) (packet : Packet) (d : StackToDevice (C := C)) :
  chan_closed (outbound p) = false ->
  try_into_ip (compose (sized_buffer buffer len)) = Some packet ->
  (transmit p = true ->
     chan_queued (outbound (tx_consume try_into_ip buffer len compose p))
     = (chan_queued (outbound p) ++ [packet])%list
     /\ dropped (tx_consume try_into_ip buffer len compose p) = dropped p)
  /\ (transmit p = false <->
      length (chan_queued (outbound p)) = chan_max_capacity (outbound p))
  /\ length (sized_buffer buffer len) = len
  /\ (forall tx : C, chan_closed tx = true -> device_send packet tx = (Ready (Err BrokenPipe), tx))
  /\ (chan_ended (rx d) = true -> chan_queued (rx d) = [] -> (0 < chan_max_capacity (rx d))%nat ->
      fst (device_recv d) = Ready (Err UnexpectedEof)).
Proof.
  intros Hc Hip. pose proof (capacity_queued (outbound p)) as Hcap. split_and!.
  - unfold transmit, tx_consume. rewrite Hip. intros Ht.
    apply negb_true_iff, Nat.eqb_neq in Ht.
    destruct (try_send_room packet (outbound p) Hc) as (c & -> & Hq & _); [lia |]. done.
  - unfold transmit. destruct (Nat.eqb_spec (chan_capacity (outbound p)) 0); simpl; split; intros; (done || lia).
  - unfold sized_buffer. destruct (Nat.ltb_spec (length buffer) len).
    + rewrite length_app, length_replicate. lia.
    + rewrite length_take. lia.
  - intros tx Ht. unfold device_send. by rewrite Ht.
  - intros He Hq Hm. unfold device_recv. rewrite He, Hq, andb_false_r.
    destruct (chan_recv_many _ _) as [got r] eqn:E. apply recv_many_take in E as (-> & _).
    rewrite Hq, take_nil. done.
Qed.

Lemma link_backpressure_witness :
  chan_queued (outbound (tx_consume (fun b => Some b) [9; 9; 9] 2 (fun b => b)
                           (phy_new (chan_new (C := ListChannel Packet) 512) 1280))) = [[9; 9]].
Proof.
  destruct (link_backpressure (C := ListChannel Packet) (fun b => Some b) [9; 9; 9] 2 (fun b => b)
              (phy_new (chan_new 512) 1280) [9; 9]
              {| rx := chan_new 512; batch := []; link_mtu := 1280 |}) as [H _];
    [reflexivity | reflexivity |].
  apply H. reflexivity.
Defined.
