(* ===== verification/WgStack.v ===== *)
(** * The in-process network stack ([src/wireguard/stack.rs])

    One interface, one socket set, one pump.  smoltcp is library code: its
    sockets and its interface are the parameters of [Smoltcp], and
    [SmoltcpLaws] is what the crate relies on.  A socket call on a handle that
    is not in the set, or of another kind, panics in smoltcp; the model
    records that in [panicked], so that its absence can be proved.  The clock
    counts microseconds since the stack started. *)

From Stdlib Require Import ZArith Lia String Ascii.
From stdpp Require Import gmap strings numbers prelude.
From S2P Require Import Prelude Net Errors Runtime Provider WgSpec WgLink.

Open Scope string_scope.
Open Scope Z_scope.

Definition MAX_SOCKETS : nat := 256.
Definition TCP_BUFFER_BYTES : Z := 64 * 1024.
Definition TUNED_TCP_BUFFER_BYTES : Z := 1024 * 1024.
Definition UDP_PACKETS : nat := 32.
Definition UDP_BUFFER_BYTES : Z := 64 * 1024.
Definition DNS_QUERY_SLOTS : nat := 8.
Definition EPHEMERAL_FIRST : Z := 49152.
Definition EPHEMERAL_LAST : Z := 65535.

(** Ten seconds of the stack's clock. *)
Definition LINGER : Z := 10 * 1000000.

(** ** smoltcp *)

Inductive TcpState : Type :=
| Closed | Listen | SynSent | SynReceived | Established | FinWait1 | FinWait2
| CloseWait | ClosingState | LastAck | TimeWait.

#[export] Instance TcpState_eq_dec : EqDecision TcpState.
Proof. solve_decision. Defined.

Inductive ConnectError : Type := Unaddressable | InvalidState.
Inductive UdpSendError : Type := BufferFull | UdpUnaddressable.
Inductive UdpRecvError : Type := Exhausted | Truncated.
Inductive StartQueryError : Type := NoFreeSlot | InvalidName | NameTooLong.
Inductive QueryState : Type := QueryPending | QueryFailed | QueryAnswered (addresses : list IpAddr).
Inductive DnsQueryType : Type := QA | QAaaa.

Class Smoltcp : Type := {
  Tcp : Type;
  Udp : Type;
  Dns : Type;
  Iface : Type;
  tcp_new : Z -> Tcp;
  tcp_state : Tcp -> TcpState;
  tcp_close : Tcp -> Tcp;
  tcp_abort : Tcp -> Tcp;
  tcp_listen : Z -> Tcp -> Result Tcp string;
  tcp_connect : Iface -> SocketAddr -> Z -> Tcp -> Result Tcp ConnectError;
  tcp_may_send : Tcp -> bool;
  tcp_may_recv : Tcp -> bool;
  tcp_recv_slice : nat -> Tcp -> option (list Z) * Tcp;
  tcp_send_slice : list Z -> Tcp -> option nat * Tcp;
  tcp_send_queue : Tcp -> nat;
  tcp_remote_endpoint : Tcp -> option SocketAddr;
  tcp_is_listening : Tcp -> bool;
  tcp_listen_port : Tcp -> Z;
  udp_new : nat -> Z -> Udp;
  udp_bind : Z -> Udp -> Result Udp string;
  udp_close : Udp -> Udp;
  udp_send_slice : list Z -> SocketAddr -> Udp -> Result unit UdpSendError * Udp;
  udp_recv_slice : nat -> Udp -> Result (list Z * SocketAddr) UdpRecvError * Udp;
  dns_new : list IpAddr -> nat -> Dns;
  dns_start_query : Iface -> string -> DnsQueryType -> Dns -> Result nat StartQueryError * Dns;
  dns_query_result : nat -> Dns -> QueryState * Dns;
  dns_cancel_query : nat -> Dns -> Dns;
  iface_new : Z -> list IpCidr -> Iface
}.

Class SmoltcpLaws `{Smoltcp} : Prop := {
  abort_closed (t : Tcp) : tcp_state (tcp_abort t) = Closed;
  closed_may_send (t : Tcp) : tcp_state t = Closed -> tcp_may_send t = false;
  may_recv_slice (t : Tcp) (room : nat) :
    tcp_state t = Closed -> tcp_may_recv t = true -> (0 < room)%nat ->
    exists b data, fst (tcp_recv_slice room t) = Some (b :: data)
}.

Inductive Socket `{Smoltcp} : Type :=
| STcp (t : Tcp)
| SUdp (u : Udp)
| SDns (d : Dns).

(** ** The stack's state *)

Inductive Direction : Type := Recv | Send.

Record StackConfig : Type := {
  sc_addresses : list IpCidr;
  sc_dns_servers : list IpAddr;
  sc_mtu : Z;
  sc_proxy_config_id : string;
  sc_download_tuning : bool
}.

Definition config_has_ipv4 (c : StackConfig) : bool := existsb cidr_is_ipv4 (sc_addresses c).
Definition config_has_ipv6 (c : StackConfig) : bool := existsb cidr_is_ipv6 (sc_addresses c).

(** A socket that has been closed and waits for its slot to be reclaimed. *)
Record Closing : Type := { cl_handle : nat; cl_deadline : Z; cl_counted : bool }.

Section Stack.
Context `{Smoltcp} {C : Type} `{!Channel C Packet}.

Record StackInner : Type := {
  iface : Iface;
  sockets : gmap nat Socket;
  stack_phy : WgPhy C;
  dns : option nat;
  clock : Z;
  next_port : Z;
  closing : list Closing;
  tcp_buffer_bytes : Z;
  wakers : list (nat * Direction);
  panicked : bool
}.

(** [open_sockets] is the count both halves share; [freed] counts its
    signals; [wake] is the pump's one stored permit. *)
Record StackShared : Type := {
  inner : StackInner;
  open_sockets : nat;
  freed : nat;
  wake : bool;
  config : StackConfig;
  stopped : bool
}.

(** [fetch_sub] wraps; that it never does is part of the invariant. *)
Variable slot_freed : SlotFreed.

Definition set_inner (i : StackInner) (s : StackShared) : StackShared :=
  {| inner := i; open_sockets := open_sockets s; freed := freed s; wake := wake s;
     config := config s; stopped := stopped s |}.

Definition set_sockets (m : gmap nat Socket) (i : StackInner) : StackInner :=
  {| iface := iface i; sockets := m; stack_phy := stack_phy i; dns := dns i; clock := clock i;
     next_port := next_port i; closing := closing i; tcp_buffer_bytes := tcp_buffer_bytes i;
     wakers := wakers i; panicked := panicked i |}.

Definition set_closing (l : list Closing) (i : StackInner) : StackInner :=
  {| iface := iface i; sockets := sockets i; stack_phy := stack_phy i; dns := dns i; clock := clock i;
     next_port := next_port i; closing := l; tcp_buffer_bytes := tcp_buffer_bytes i;
     wakers := wakers i; panicked := panicked i |}.

Definition set_port (p : Z) (i : StackInner) : StackInner :=
  {| iface := iface i; sockets := sockets i; stack_phy := stack_phy i; dns := dns i; clock := clock i;
     next_port := p; closing := closing i; tcp_buffer_bytes := tcp_buffer_bytes i;
     wakers := wakers i; panicked := panicked i |}.

Definition set_phy (p : WgPhy C) (i : StackInner) : StackInner :=
  {| iface := iface i; sockets := sockets i; stack_phy := p; dns := dns i; clock := clock i;
     next_port := next_port i; closing := closing i; tcp_buffer_bytes := tcp_buffer_bytes i;
     wakers := wakers i; panicked := panicked i |}.

Definition register (h : nat) (d : Direction) (i : StackInner) : StackInner :=
  {| iface := iface i; sockets := sockets i; stack_phy := stack_phy i; dns := dns i; clock := clock i;
     next_port := next_port i; closing := closing i; tcp_buffer_bytes := tcp_buffer_bytes i;
     wakers := (h, d) :: wakers i; panicked := panicked i |}.

Definition panic (i : StackInner) : StackInner :=
  {| iface := iface i; sockets := sockets i; stack_phy := stack_phy i; dns := dns i; clock := clock i;
     next_port := next_port i; closing := closing i; tcp_buffer_bytes := tcp_buffer_bytes i;
     wakers := wakers i; panicked := true |}.

(** [wake.notify_one]. *)
Definition ring (s : StackShared) : StackShared :=
  {| inner := inner s; open_sockets := open_sockets s; freed := freed s; wake := true;
     config := config s; stopped := stopped s |}.

(** [with_stack]: run, then wake the pump; [peek_stack]: run only. *)
Definition with_stack {R} (f : StackInner -> R * StackInner) (s : StackShared) : R * StackShared :=
  let '(r, i) := f (inner s) in (r, ring (set_inner i s)).

Definition peek_stack {R} (f : StackInner -> R * StackInner) (s : StackShared) : R * StackShared :=
  let '(r, i) := f (inner s) in (r, set_inner i s).

(** [sockets.get_mut::<tcp::Socket>(handle)]. *)
Definition with_tcp {R} (h : nat) (d : R) (f : Tcp -> R * Tcp) (i : StackInner) : R * StackInner :=
  match sockets i !! h with
  | Some (STcp t) => let '(r, t) := f t in (r, set_sockets (<[h := STcp t]> (sockets i)) i)
  | _ => (d, panic i)
  end.

Definition with_udp {R} (h : nat) (d : R) (f : Udp -> R * Udp) (i : StackInner) : R * StackInner :=
  match sockets i !! h with
  | Some (SUdp u) => let '(r, u) := f u in (r, set_sockets (<[h := SUdp u]> (sockets i)) i)
  | _ => (d, panic i)
  end.

(** [SocketSet::add]: some handle not in use. *)
Definition add_socket (k : Socket) (i : StackInner) : nat * StackInner :=
  let h := fresh (dom (sockets i)) in (h, set_sockets (<[h := k]> (sockets i)) i).

Definition add_tcp_socket (i : StackInner) : nat * StackInner :=
  add_socket (STcp (tcp_new (tcp_buffer_bytes i))) i.

Definition add_udp_socket_sized (packets : nat) (bytes : Z) (i : StackInner) : nat * StackInner :=
  add_socket (SUdp (udp_new packets bytes)) i.

Definition next_ephemeral_port (i : StackInner) : Z * StackInner :=
  let port := next_port i in
  (port, set_port (if port =? EPHEMERAL_LAST then EPHEMERAL_FIRST else port + 1) i).

Definition retire (h : nat) (counted : bool) (i : StackInner) : StackInner :=
  set_closing (closing i ++ [{| cl_handle := h; cl_deadline := clock i + LINGER; cl_counted := counted |}]) i.

(** [sockets.remove]: panics on a handle that is not there. *)
Definition discard (h : nat) (i : StackInner) : StackInner :=
  match sockets i !! h with
  | Some _ => set_sockets (delete h (sockets i)) i
  | None => panic i
  end.

(** [SocketSlots::release]. *)
Definition release_socket (s : StackShared) : StackShared :=
  {| inner := inner s; open_sockets := pred (open_sockets s); freed := S (freed s); wake := wake s;
     config := config s; stopped := stopped s |}.

(** ** Reclaiming closed sockets *)

Definition finished (under_pressure : bool) (t : Tcp) : bool :=
  bool_decide (tcp_state t = Closed) || (under_pressure && bool_decide (tcp_state t = TimeWait)).

(** One round of the loop: [None] once the index is past the end, otherwise
    the next index. *)
Definition reclaim_round (now : Z) (under_pressure : bool) (index : nat) (s : StackShared)
  : option (nat * StackShared) :=
  let i := inner s in
  match closing i !! index with
  | None => None
  | Some c =>
      let h := cl_handle c in
      match sockets i !! h with
      | Some (STcp t) =>
          if negb (finished under_pressure t) && (now <? cl_deadline c) then Some (S index, s)
          else
            let i := if negb (finished under_pressure t)
                     then set_sockets (<[h := STcp (tcp_abort t)]> (sockets i)) i else i in
            let i := discard h i in
            let s := set_inner i s in
            let s := if cl_counted c then release_socket s else s in
            Some (index, set_inner (set_closing (swap_remove index (closing (inner s))) (inner s)) s)
      | _ => Some (S index, set_inner (panic i) s)
      end
  end.

Fixpoint reclaim_loop (fuel : nat) (now : Z) (under_pressure : bool) (index : nat) (s : StackShared)
  : StackShared :=
  match fuel with
  | O => s
  | S fuel =>
      match reclaim_round now under_pressure index s with
      | None => s
      | Some (index, s) => reclaim_loop fuel now under_pressure index s
      end
  end.

(** Every round moves the index or shortens the list, so the list's length
    bounds the rounds. *)
Definition reclaim_finished (now : Z) (under_pressure : bool) (s : StackShared) : StackShared :=
  reclaim_loop (S (length (closing (inner s)))) now under_pressure 0 s.

Definition reclaim (now : Z) (s : StackShared) : StackShared := reclaim_finished now false s.

(** ** Slots *)

(** [claim_socket]: a load, a sweep under the lock when the tunnel looks full,
    and the update; the slot is the caller's to keep or to release. *)
Definition claim_sweep (s : StackShared) : StackShared := ring (reclaim_finished (clock (inner s)) true s).

Definition claim_update (s : StackShared) : Result unit TunnelError * StackShared :=
  if (open_sockets s <? MAX_SOCKETS)%nat
  then (Ok tt, {| inner := inner s; open_sockets := S (open_sockets s); freed := freed s; wake := wake s;
                  config := config s; stopped := stopped s |})
  else (Err (AtCapacity (Z.of_nat MAX_SOCKETS) slot_freed), s).

Definition claim_socket (s : StackShared) : Result unit TunnelError * StackShared :=
  claim_update (if (MAX_SOCKETS <=? open_sockets s)%nat then claim_sweep s else s).

(** ** The pump *)

(** [Interface::poll] and [Interface::poll_delay]. *)
Variable iface_poll : Z -> Iface * WgPhy C * gmap nat Socket -> Iface * WgPhy C * gmap nat Socket.
Variable poll_delay : Z -> Iface -> gmap nat Socket -> option Duration.

Definition min_delay (a b : option Duration) : option Duration :=
  match a, b with
  | Some a, Some b => Some (Z.min a b)
  | Some a, None => Some a
  | None, b => b
  end.

Definition linger_delay (now : Z) (l : list Closing) : option Duration :=
  foldr (fun c d => min_delay (Some (from_micros (cl_deadline c - now))) d) None l.

Definition poll (s : StackShared) : option Duration * StackShared :=
  let i := inner s in
  let now := clock i in
  let '(ifc, p, m) := iface_poll now (iface i, stack_phy i, sockets i) in
  let i := {| iface := ifc; sockets := m; stack_phy := p; dns := dns i; clock := clock i;
              next_port := next_port i; closing := closing i; tcp_buffer_bytes := tcp_buffer_bytes i;
              wakers := wakers i; panicked := panicked i |} in
  let s := reclaim now (set_inner i s) in
  (min_delay (poll_delay now (iface (inner s)) (sockets (inner s)))
             (linger_delay now (closing (inner s))), s).

(** [StackShared::stop]: closing every socket is what releases waiters. *)
Definition close_socket (k : Socket) : Socket :=
  match k with
  | STcp t => STcp (tcp_abort t)
  | SUdp u => SUdp (udp_close u)
  | SDns d => SDns d
  end.

Definition stop (s : StackShared) : StackShared :=
  {| inner := set_sockets (close_socket <$> sockets (inner s)) (inner s);
     open_sockets := open_sockets s; freed := freed s; wake := wake s; config := config s;
     stopped := true |}.

(** What woke the pump. *)
Inductive PumpEvent : Type :=
| ShutdownNotified
| Received (packets : list Packet)
| Woken
| Slept.

(** What the pump does once something woke it: the [select!]; a pump that leaves
    its loop marks the stack stopped. *)
Definition pump_event (e : PumpEvent) (s : StackShared) : StackShared :=
  match e with
  | ShutdownNotified => stop s
  | Received [] => stop s
  | Received packets =>
      set_inner (set_phy (foldl (fun p packet => push_inbound packet p) (stack_phy (inner s)) packets)
                   (inner s)) s
  | Woken =>
      {| inner := inner s; open_sockets := open_sockets s; freed := freed s; wake := false;
         config := config s; stopped := stopped s |}
  | Slept => s
  end.

(** One pass of the pump's loop: poll, sleep, act on what woke it. *)
Definition pump_pass (e : PumpEvent) (s : StackShared) : StackShared :=
  let '(_, s) := poll s in pump_event e s.

(** [WgStack::start]. *)
Definition stack_start (config : StackConfig) (outbound : C) (seed : Z) : StackShared :=
  let dns_socket :=
    if bool_decide (sc_dns_servers config = []) then None
    else Some (SDns (dns_new (sc_dns_servers config) DNS_QUERY_SLOTS)) in
  {| inner :=
       {| iface := iface_new seed (sc_addresses config);
          sockets := match dns_socket with Some d => {[ 0%nat := d ]} | None => ∅ end;
          stack_phy := phy_new outbound (sc_mtu config);
          dns := match dns_socket with Some _ => Some 0%nat | None => None end;
          clock := 0;
          next_port := EPHEMERAL_FIRST + seed mod (EPHEMERAL_LAST - EPHEMERAL_FIRST + 1);
          closing := [];
          tcp_buffer_bytes := if sc_download_tuning config then TUNED_TCP_BUFFER_BYTES else TCP_BUFFER_BYTES;
          wakers := [];
          panicked := false |};
     open_sockets := 0; freed := 0; wake := false; config := config; stopped := false |}.

(** ** Listening ports *)

Definition listening_on (port : Z) (s : StackShared) : bool :=
  existsb (fun e => match snd e with
                    | STcp t => tcp_is_listening t && (tcp_listen_port t =? port)
                    | _ => false
                    end) (map_to_list (sockets (inner s))).

Definition EPHEMERAL_SPAN : Z := EPHEMERAL_LAST - EPHEMERAL_FIRST + 1.

(** The candidates in the order they are tried, from a random start. *)
Definition candidate_ports (start : Z) : list Z :=
  (fun step => EPHEMERAL_FIRST + (start + step) mod EPHEMERAL_SPAN) <$> seqZ 0 EPHEMERAL_SPAN.

Definition free_listen_port (random : Z) (s : StackShared) : Result Z TunnelError :=
  match list_find (fun port => listening_on port s = false) (candidate_ports (random mod EPHEMERAL_SPAN)) with
  | Some (_, port) => Ok port
  | None => Err (Engine "the tunnel has no free port left to listen on")
  end.

End Stack.
Arguments StackInner {_} C.
Arguments StackShared {_} C.

(** ** Lemmas on [swap_remove] *)

Lemma swap_remove_snoc {A} (i : nat) (m : list A) z :
  (i <= length m)%nat ->
  swap_remove i (m ++ [z]) = if decide (i = length m) then m else <[i := z]> m.
Proof.
  intros Hi. unfold swap_remove. rewrite last_snoc, removelast_last, length_app. simpl.
  destruct ((m ++ [z])%list !! i) eqn:E; [by repeat case_decide; try lia |].
  apply lookup_ge_None in E. rewrite length_app in E. simpl in E. lia.
Qed.

Lemma swap_remove_spec {A} (i : nat) (l : list A) c :
  l !! i = Some c ->
  take i (swap_remove i l) = take i l /\ drop i (swap_remove i l) ≡ₚ drop (S i) l
  /\ length (swap_remove i l) = pred (length l).
Proof.
  intros Hi. pose proof (lookup_lt_Some _ _ _ Hi) as Hlt.
  destruct l as [|z m _] using rev_ind; [simpl in Hlt; lia |]. rewrite length_app in *. simpl in *.
  rewrite swap_remove_snoc by lia. case_decide as Hd.
  - subst i. rewrite take_app_length, firstn_all, drop_all.
    rewrite (drop_ge (m ++ [z])) by (rewrite length_app; simpl; lia). split_and!; [done | done | lia].
  - assert (Him : (i < length m)%nat) by lia. split_and!.
    + rewrite take_insert_ge by lia. by rewrite take_app_le by lia.
    + rewrite (drop_S (<[i := z]> m) z i) by (by apply list_lookup_insert_eq).
      rewrite drop_insert_lt by lia. rewrite drop_app_le by lia. by rewrite Permutation_app_comm.
    + rewrite length_insert. lia.
Qed.

(** ** Reclaiming, specified *)

Section Reclaim.
Context `{Smoltcp} {C : Type} `{!Channel C Packet}.

Definition is_tcp (i : StackInner C) (c : Closing) : Prop :=
  exists t, sockets i !! cl_handle c = Some (STcp t).

(** Whether a closing socket stays: it has not finished and may still linger. *)
Definition lingers (now : Z) (under_pressure : bool) (m : gmap nat Socket) (c : Closing) : bool :=
  match m !! cl_handle c with
  | Some (STcp t) => negb (finished under_pressure t) && (now <? cl_deadline c)
  | _ => false
  end.

Definition counted (l : list Closing) : nat := length (filter (fun c => cl_counted c = true) l).

(** The state after [gone] has been reclaimed from [s]. *)
Record reclaimed (gone : list Closing) (s s' : StackShared C) : Prop := {
  rc_sockets : forall h, sockets (inner s') !! h
    = if bool_decide (h ∈ cl_handle <$> gone) then None else sockets (inner s) !! h;
  rc_open : open_sockets s' = (open_sockets s - counted gone)%nat;
  rc_freed : freed s' = (freed s + counted gone)%nat;
  rc_panicked : panicked (inner s') = panicked (inner s);
  rc_port : next_port (inner s') = next_port (inner s);
  rc_clock : clock (inner s') = clock (inner s);
  rc_dns : dns (inner s') = dns (inner s);
  rc_stopped : stopped s' = stopped s;
  rc_config : config s' = config s
}.

Lemma counted_cons c l : counted (c :: l) = ((if cl_counted c then 1 else 0) + counted l)%nat.
Proof. unfold counted. rewrite filter_cons. destruct (cl_counted c); [rewrite decide_True by done; done | rewrite decide_False by done; done]. Qed.

Lemma counted_perm l l' : l ≡ₚ l' -> counted l = counted l'.
Proof. intros Hp. unfold counted. by rewrite Hp. Qed.

Lemma counted_app l l' : counted (l ++ l') = (counted l + counted l')%nat.
Proof. unfold counted. by rewrite filter_app, length_app. Qed.

Lemma reclaimed_refl s : reclaimed [] s s.
Proof. split; try done; unfold counted; simpl; try lia. Qed.

Lemma reclaimed_trans c gone s s1 s' :
  reclaimed [c] s s1 -> reclaimed gone s1 s' -> reclaimed (c :: gone) s s'.
Proof.
  intros [A1 A2 A3 A4 A5 A6 A7 A8 A9] [B1 B2 B3 B4 B5 B6 B7 B8 B9].
  assert (Hc : counted (c :: gone) = (counted [c] + counted gone)%nat) by apply (counted_app [c]).
  split; [| rewrite Hc; lia | rewrite Hc; lia | congruence..].
  intros h. rewrite B1, A1. repeat case_bool_decide; set_solver.
Qed.

(** One round that reclaims. *)
Lemma reclaim_round_gone now up index (s : StackShared C) c :
  closing (inner s) !! index = Some c -> is_tcp (inner s) c ->
  lingers now up (sockets (inner s)) c = false ->
  exists s', reclaim_round now up index s = Some (index, s')
    /\ closing (inner s') = swap_remove index (closing (inner s)) /\ reclaimed [c] s s'.
Proof.
  intros Hc [t Ht] Hl. unfold reclaim_round. rewrite Hc, Ht. unfold lingers in Hl. rewrite Ht in Hl.
  rewrite Hl. eexists. split; [done |].
  assert (Hh : forall h, (h ∈ cl_handle <$> [c]) <-> h = cl_handle c) by set_solver.
  unfold discard. destruct (finished up t) eqn:Ef; simpl.
  - rewrite Ht. destruct (cl_counted c) eqn:Ec; simpl; (split; [done |]);
      split; simpl; try done; rewrite ?counted_cons, ?Ec; unfold counted; simpl; try lia;
      intros h; case_bool_decide as Hd; rewrite Hh in Hd; subst;
      by rewrite ?lookup_delete_eq, ?lookup_delete_ne.
  - rewrite lookup_insert_eq. destruct (cl_counted c) eqn:Ec; simpl; (split; [done |]);
      split; simpl; try done; rewrite ?counted_cons, ?Ec; unfold counted; simpl; try lia;
      intros h; case_bool_decide as Hd; rewrite Hh in Hd; subst;
      rewrite ?lookup_delete_eq, ?lookup_delete_ne, ?lookup_insert_ne by done; done.
Qed.

Lemma reclaim_round_stays now up index (s : StackShared C) c :
  closing (inner s) !! index = Some c -> is_tcp (inner s) c ->
  lingers now up (sockets (inner s)) c = true -> reclaim_round now up index s = Some (S index, s).
Proof.
  intros Hc [t Ht] Hl. unfold reclaim_round. rewrite Hc, Ht. unfold lingers in Hl. rewrite Ht in Hl.
  by rewrite Hl.
Qed.

Definition closing_ok (i : StackInner C) (l : list Closing) : Prop :=
  NoDup (cl_handle <$> l) /\ Forall (is_tcp i) l.

Lemma reclaim_loop_spec now up fuel : forall index (s : StackShared C),
  (length (closing (inner s)) < fuel + index)%nat ->
  closing_ok (inner s) (closing (inner s)) ->
  exists s' gone kept, reclaim_loop fuel now up index s = s'
    /\ closing (inner s') = (take index (closing (inner s)) ++ kept)%list
    /\ drop index (closing (inner s)) ≡ₚ (gone ++ kept)%list
    /\ Forall (fun c => lingers now up (sockets (inner s)) c = false) gone
    /\ Forall (fun c => lingers now up (sockets (inner s)) c = true) kept
    /\ reclaimed gone s s'.
Proof.
  induction fuel as [|fuel IH]; intros index s Hf [Hnd Htcp]; simpl.
  - exists s, [], []. rewrite drop_ge, take_ge by lia. rewrite app_nil_r.
    split_and!; try done; apply reclaimed_refl || constructor.
  - destruct (closing (inner s) !! index) as [c|] eqn:Ec.
    2: { apply lookup_ge_None in Ec. unfold reclaim_round. rewrite (lookup_ge_None_2 _ _ Ec).
         exists s, [], []. rewrite drop_ge, take_ge by lia. rewrite app_nil_r.
         split_and!; try done; apply reclaimed_refl || constructor. }
    pose proof (proj1 (Forall_lookup _ _) Htcp _ _ Ec) as Hc.
    destruct (lingers now up (sockets (inner s)) c) eqn:El.
    + rewrite (reclaim_round_stays _ _ _ _ _ Ec Hc El).
      destruct (IH (S index) s) as (s' & gone & kept & -> & Hcl & Hp & Hg & Hk & Hr); [lia | done |].
      exists s', gone, (c :: kept). split_and!; try done.
      * rewrite Hcl. rewrite (take_S_r _ _ _ Ec), <- app_assoc. done.
      * rewrite (drop_S _ _ _ Ec), Hp. by rewrite Permutation_middle.
      * by constructor.
    + destruct (reclaim_round_gone _ _ _ _ _ Ec Hc El) as (s1 & -> & Hcl1 & Hr1).
      destruct (swap_remove_spec index _ c Ec) as (Htake & Hdrop & Hlen).
      pose proof (lookup_lt_Some _ _ _ Ec) as Hlt.
      assert (Hperm : closing (inner s) ≡ₚ c :: closing (inner s1)).
      { rewrite Hcl1. rewrite <- (take_drop index (swap_remove index _)). rewrite Htake, Hdrop.
        rewrite <- (take_drop index (closing (inner s))) at 1. rewrite (drop_S _ _ _ Ec).
        by rewrite Permutation_middle. }
      assert (Hnd1 : NoDup (cl_handle c :: (cl_handle <$> closing (inner s1)))).
      { rewrite <- fmap_cons. by rewrite <- Hperm. }
      apply NoDup_cons in Hnd1 as [Hnin Hnd1].
      assert (Hsame : forall d, d ∈ closing (inner s1) ->
        sockets (inner s1) !! cl_handle d = sockets (inner s) !! cl_handle d).
      { intros d Hd. rewrite (rc_sockets _ _ _ Hr1), bool_decide_eq_false_2; [done |].
        intros Hin. rewrite list_fmap_singleton, list_elem_of_singleton in Hin. apply Hnin.
        rewrite <- Hin. by apply list_elem_of_fmap_2. }
      destruct (IH index s1) as (s' & gone & kept & -> & Hcl & Hp & Hg & Hk & Hr).
      * rewrite Hcl1, Hlen. lia.
      * split; [done |]. rewrite Forall_forall. intros d Hd. unfold is_tcp. rewrite Hsame by done.
        rewrite Forall_forall in Htcp. apply Htcp. rewrite Hperm. by right.
      * assert (Hling : forall d, d ∈ (gone ++ kept)%list ->
          lingers now up (sockets (inner s1)) d = lingers now up (sockets (inner s)) d).
        { intros d Hd. unfold lingers. rewrite Hsame; [done |]. rewrite <- Hp in Hd.
          rewrite <- (take_drop index (closing (inner s1))). apply elem_of_app. by right. }
        exists s', (c :: gone), kept. split_and!; try done.
        -- by rewrite Hcl, Hcl1, Htake.
        -- rewrite (drop_S _ _ _ Ec), <- Hdrop, <- Hcl1, Hp. done.
        -- constructor; [done |]. rewrite Forall_forall in *. intros d Hd.
           rewrite <- Hling by (apply elem_of_app; by left). by apply Hg.
        -- rewrite Forall_forall in *. intros d Hd.
           rewrite <- Hling by (apply elem_of_app; by right). by apply Hk.
        -- by eapply reclaimed_trans.
Qed.

Lemma reclaim_finished_spec now up (s : StackShared C) :
  closing_ok (inner s) (closing (inner s)) ->
  exists gone kept, closing (inner s) ≡ₚ (gone ++ kept)%list
    /\ closing (inner (reclaim_finished now up s)) = kept
    /\ Forall (fun c => lingers now up (sockets (inner s)) c = false) gone
    /\ Forall (fun c => lingers now up (sockets (inner s)) c = true) kept
    /\ reclaimed gone s (reclaim_finished now up s).
Proof.
  intros Hok. destruct (reclaim_loop_spec now up (S (length (closing (inner s)))) 0 s)
    as (s' & gone & kept & Hs & Hcl & Hp & Hg & Hk & Hr); [lia | done |].
  exists gone, kept. unfold reclaim_finished. rewrite Hs. done.
Qed.

End Reclaim.

(** ** Ports *)

Section Ports.
Context `{Smoltcp} {C : Type} `{!Channel C Packet}.

Definition port_ok (p : Z) : Prop := EPHEMERAL_FIRST <= p <= EPHEMERAL_LAST.

(** The state after [k] ports have been handed out. *)
Definition after_ports (k : nat) (i : StackInner C) : StackInner C :=
  Nat.iter k (fun i => snd (next_ephemeral_port i)) i.

Lemma next_port_step p :
  port_ok p ->
  (if p =? EPHEMERAL_LAST then EPHEMERAL_FIRST else p + 1)
  = EPHEMERAL_FIRST + (p - EPHEMERAL_FIRST + 1) mod EPHEMERAL_SPAN.
Proof.
  unfold port_ok, EPHEMERAL_SPAN, EPHEMERAL_FIRST, EPHEMERAL_LAST. intros Hp.
  destruct (Z.eqb_spec p 65535) as [-> |]; [reflexivity |]. rewrite Z.mod_small by lia. lia.
Qed.

Lemma port_ok_mod x : port_ok (EPHEMERAL_FIRST + x mod EPHEMERAL_SPAN).
Proof.
  unfold port_ok, EPHEMERAL_SPAN, EPHEMERAL_FIRST, EPHEMERAL_LAST.
  pose proof (Z.mod_pos_bound x (65535 - 49152 + 1)). lia.
Qed.

Lemma after_ports_next k i :
  port_ok (next_port i) ->
  next_port (after_ports k i)
  = EPHEMERAL_FIRST + (next_port i - EPHEMERAL_FIRST + Z.of_nat k) mod EPHEMERAL_SPAN.
Proof.
  intros Hi. induction k as [|k IH].
  - simpl. rewrite Z.mod_small; [lia |].
    unfold port_ok, EPHEMERAL_SPAN, EPHEMERAL_FIRST, EPHEMERAL_LAST in *. lia.
  - change (after_ports (S k) i) with (snd (next_ephemeral_port (after_ports k i))).
    unfold next_ephemeral_port. cbn [snd next_port set_port]. rewrite IH, next_port_step by apply port_ok_mod.
    f_equal. rewrite Nat2Z.inj_succ.
    replace (EPHEMERAL_FIRST + (next_port i - EPHEMERAL_FIRST + Z.of_nat k) mod EPHEMERAL_SPAN - EPHEMERAL_FIRST + 1)
      with ((next_port i - EPHEMERAL_FIRST + Z.of_nat k) mod EPHEMERAL_SPAN + 1) by lia.
    rewrite Zplus_mod_idemp_l. f_equal. lia.
Qed.

Lemma candidate_ports_all start p : port_ok p -> p ∈ candidate_ports start.
Proof.
  intros Hp. unfold candidate_ports. rewrite list_elem_of_fmap.
  exists ((p - EPHEMERAL_FIRST - start) mod EPHEMERAL_SPAN). split.
  - rewrite Zplus_mod_idemp_r. rewrite Z.mod_small; [lia |].
    unfold port_ok, EPHEMERAL_SPAN, EPHEMERAL_FIRST, EPHEMERAL_LAST in *. lia.
  - apply elem_of_seqZ.
    pose proof (Z.mod_pos_bound (p - EPHEMERAL_FIRST - start) EPHEMERAL_SPAN ltac:(done)). lia.
Qed.

Lemma candidate_ports_ok start p : p ∈ candidate_ports start -> port_ok p.
Proof. unfold candidate_ports. rewrite list_elem_of_fmap. intros (step & -> & _). apply port_ok_mod. Qed.

End Ports.

(** ephemeral ports are handed out round robin.  A stack starts inside the
    IANA ephemeral range whatever its seed; from there every port it hands out
    is in the range, 16384 consecutive ones are pairwise distinct, and the
    cycle then repeats, so a port is reused only after every other one. *)
Theorem ephemeral_ports_cycle `{Smoltcp} {C} `{!Channel C Packet} (cfg : StackConfig) (out : C)
    (seed : Z) (i : StackInner C) :
  port_ok (next_port (inner (stack_start cfg out seed)))
  /\ (port_ok (next_port i) ->
      (forall k, port_ok (fst (next_ephemeral_port (after_ports k i))))
      /\ (forall j k, (j < k)%nat -> Z.of_nat k < EPHEMERAL_SPAN ->
            fst (next_ephemeral_port (after_ports j i)) <> fst (next_ephemeral_port (after_ports k i)))
      /\ (forall k, Z.of_nat k = EPHEMERAL_SPAN ->
            fst (next_ephemeral_port (after_ports k i)) = next_port i)).
Proof.
  split; [apply port_ok_mod |]. intros Hi. unfold next_ephemeral_port. simpl fst.
  assert (Hspan : 0 < EPHEMERAL_SPAN) by done. split_and!.
  - intros k. rewrite after_ports_next by done. apply port_ok_mod.
  - intros j k Hjk Hk. rewrite !after_ports_next by done. intros E.
    set (x := next_port i - EPHEMERAL_FIRST) in *.
    assert (Hd : (Z.of_nat k - Z.of_nat j) mod EPHEMERAL_SPAN = 0).
    { replace (Z.of_nat k - Z.of_nat j) with ((x + Z.of_nat k) - (x + Z.of_nat j)) by lia.
      rewrite Zminus_mod. replace ((x + Z.of_nat k) mod EPHEMERAL_SPAN)
        with ((x + Z.of_nat j) mod EPHEMERAL_SPAN) by lia. by rewrite Z.sub_diag. }
    rewrite Z.mod_small in Hd by lia. lia.
  - intros k Hk. rewrite after_ports_next by done. rewrite Hk.
    rewrite <- Z.add_mod_idemp_r by lia. rewrite Z.mod_same by lia. rewrite Z.add_0_r.
    rewrite Z.mod_small; [lia |].
    unfold port_ok, EPHEMERAL_SPAN, EPHEMERAL_FIRST, EPHEMERAL_LAST in *. lia.
Qed.

(** picking a port to listen on is complete: it yields a port of the
    ephemeral range that no listener of the stack holds, and fails only when
    listeners hold every one of them, whatever the random start. *)
Theorem free_listen_port_complete `{Smoltcp} {C} `{!Channel C Packet} (random : Z) (s : StackShared C) :
  match free_listen_port random s with
  | Ok port => port_ok port /\ listening_on port s = false
  | Err e =>
      e = Engine "the tunnel has no free port left to listen on"
      /\ forall port, port_ok port -> listening_on port s = true
  end.
Proof.
  unfold free_listen_port. destruct (list_find _ _) as [[i port]|] eqn:E.
  - apply list_find_Some in E as (Hl & Hp & _). split; [| done].
    eapply candidate_ports_ok, list_elem_of_lookup_2, Hl.
  - split; [done |]. intros port Hp. apply list_find_None in E. rewrite Forall_forall in E.
    apply not_false_is_true, E. by apply candidate_ports_all.
Qed.

(** ** A stack to compute with *)

(** smoltcp without TCP, for examples: datagram sockets and a resolver given by
    their operations. *)
Definition inert_smoltcp {U D : Type} (udp : U) (send : list Z -> SocketAddr -> U -> Result unit UdpSendError * U)
    (recv : nat -> U -> Result (list Z * SocketAddr) UdpRecvError * U) (resolver : nat -> D)
    (start : D -> Result nat StartQueryError * D) (cancel : nat -> D -> D) : Smoltcp := {|
  Tcp := unit; Udp := U; Dns := D; Iface := unit;
  tcp_new _ := tt; tcp_state _ := Closed; tcp_close t := t; tcp_abort t := t;
  tcp_listen _ t := Ok t; tcp_connect _ _ _ t := Ok t; tcp_may_send _ := false; tcp_may_recv _ := false;
  tcp_recv_slice _ t := (None, t); tcp_send_slice _ t := (None, t); tcp_send_queue _ := 0%nat;
  tcp_remote_endpoint _ := None; tcp_is_listening _ := false; tcp_listen_port _ := 0;
  udp_new _ _ := udp; udp_bind _ u := Ok u; udp_close u := u; udp_send_slice := send; udp_recv_slice := recv;
  dns_new _ n := resolver n; dns_start_query _ _ _ := start; dns_query_result _ d := (QueryPending, d);
  dns_cancel_query := cancel; iface_new _ _ := tt
|}.
