(* ===== verification/WgSockets.v ===== *)
(** * Sockets over the tunnel's stack
      ([src/wireguard/tcp.rs], [src/wireguard/udp.rs] and the socket half of
      [src/wireguard/stack.rs])

    Streams, listeners and datagram sockets, each a handle into the stack's
    socket set.  An operation that would wait returns [Pending] after
    registering its waker; a connection attempt is split at its one wait, into
    its start, a poll, and its end. *)

From Stdlib Require Import ZArith Lia String Ascii.
From stdpp Require Import gmap strings numbers prelude.
From S2P Require Import Prelude Net Errors Runtime Provider WgSpec WgLink WgStack.

Open Scope string_scope.
Open Scope Z_scope.

Record WgTcpStream : Type := { ts_handle : nat; peer : SocketAddr; shut_down : bool }.

Record WgTcpListener : Type := { local : SocketAddr; listening : list nat }.

Record WgUdpSocket : Type := { us_handle : nat; local_port : Z }.

(** How a pending connection ended; [Cancelled] is the future being dropped. *)
Inductive ConnectEnd : Type := ConnOpened | ConnRefused | ConnTimedOut | ConnCancelled.

Section Sockets.
Context `{Smoltcp} {C : Type} `{!Channel C Packet}.
Variable slot_freed : SlotFreed.

Notation Stack := (StackShared C).

Definition tcp_map (h : nat) (f : Tcp -> Tcp) (i : StackInner C) : StackInner C :=
  snd (with_tcp h tt (fun t => (tt, f t)) i).

Definition on_inner (f : StackInner C -> StackInner C) (s : Stack) : Stack :=
  snd (with_stack (fun i => (tt, f i)) s).

(** ** Dialling *)

Definition dial_failed (remote : SocketAddr) (detail : string) : TunnelError :=
  Dial (show_ip (sa_ip remote)) (sa_port remote) detail.

Definition connect_error_detail (e : ConnectError) : string :=
  match e with
  | Unaddressable => "the tunnel has no address in that destination's family, so it cannot reach it"
  | InvalidState => "the tunnel could not open a socket for that destination"
  end.

(** [WgTcpStream::connect] up to its wait: a socket on the next ephemeral
    port, discarded at once if the connection cannot be started. *)
Definition tcp_connect_start (remote : SocketAddr) (s : Stack) : Result nat TunnelError * Stack :=
  let '((h, started), s) :=
    with_stack (fun i =>
      let '(h, i) := add_tcp_socket i in
      let '(port, i) := next_ephemeral_port i in
      let '(started, i) :=
        with_tcp h (Err InvalidState) (fun t =>
          match tcp_connect (iface i) remote port t with
          | Ok t => (Ok tt, t)
          | Err e => (Err e, t)
          end) i in
      ((h, started), i)) s in
  match started with
  | Ok _ => (Ok h, s)
  | Err e => (Err (dial_failed remote (connect_error_detail e)), on_inner (discard h) s)
  end.

(** The wait: still shaking hands registers a waker; [Ready false] is a
    refusal. *)
Definition tcp_connect_poll (h : nat) (s : Stack) : Poll bool * Stack :=
  peek_stack (fun i =>
    let '(state, i) := with_tcp h Closed (fun t => (tcp_state t, t)) i in
    match state with
    | SynSent | SynReceived => (Pending, register h Send i)
    | Closed | TimeWait => (Ready false, i)
    | _ => (Ready true, i)
    end) s.

Definition tcp_connect_end (h : nat) (remote : SocketAddr) (e : ConnectEnd) (s : Stack)
  : option (Result WgTcpStream TunnelError) * Stack :=
  match e with
  | ConnOpened => (Some (Ok {| ts_handle := h; peer := remote; shut_down := false |}), s)
  | ConnRefused =>
      (Some (Err (dial_failed remote "the far side refused the connection")), on_inner (discard h) s)
  | ConnTimedOut =>
      (Some (Err (dial_failed remote "the tunnel did not open a connection in time")),
       on_inner (fun i => discard h (tcp_map h tcp_abort i)) s)
  | ConnCancelled => (None, on_inner (discard h) s)
  end.

(** [WgStack::connect]: a slot around the connection, kept by an open stream
    and released otherwise. *)
Definition stack_connect_start (remote : SocketAddr) (s : Stack) : Result nat TunnelError * Stack :=
  match claim_socket slot_freed s with
  | (Err e, s) => (Err e, s)
  | (Ok _, s) =>
      match tcp_connect_start remote s with
      | (Ok h, s) => (Ok h, s)
      | (Err e, s) => (Err e, release_socket s)
      end
  end.

Definition stack_connect_end (h : nat) (remote : SocketAddr) (e : ConnectEnd) (s : Stack)
  : option (Result WgTcpStream TunnelError) * Stack :=
  match tcp_connect_end h remote e s with
  | (Some (Ok stream), s) => (Some (Ok stream), s)
  | (r, s) => (r, release_socket s)
  end.

(** ** Streams *)

Definition close_half (st : WgTcpStream) (s : Stack) : WgTcpStream * Stack :=
  if shut_down st then (st, s)
  else ({| ts_handle := ts_handle st; peer := peer st; shut_down := true |},
        on_inner (tcp_map (ts_handle st) tcp_close) s).

Definition stream_drop (st : WgTcpStream) (s : Stack) : Stack :=
  let '(st, s) := close_half st s in on_inner (retire (ts_handle st) true) s.

(** [poll_read] into a buffer with [room] bytes left; an empty read is the end
    of the stream. *)
Definition poll_read (room : nat) (st : WgTcpStream) (s : Stack) : Poll (Result (list Z) IoError) * Stack :=
  let h := ts_handle st in
  let '(read, s) :=
    peek_stack (fun i =>
      let '(read, i) :=
        with_tcp h (Ready []) (fun t =>
          if negb (tcp_may_recv t) then (Ready [], t)
          else match tcp_recv_slice room t with
               | (Some [], t) => (Pending, t)
               | (Some data, t) => (Ready data, t)
               | (None, t) => (Ready [], t)
               end) i in
      match read with
      | Pending => (Pending, register h Recv i)
      | Ready data => (Ready data, i)
      end) s in
  match read with
  | Pending => (Pending, s)
  | Ready [] => (Ready (Ok []), s)
  | Ready data => (Ready (Ok data), ring s)
  end.

Definition shut_down_error : IoError := (BrokenPipe, "this tunnel connection has been shut down").
Definition far_side_closed : IoError := (BrokenPipe, "the far side closed this tunnel connection").

Definition poll_write (data : list Z) (st : WgTcpStream) (s : Stack) : Poll (Result nat IoError) * Stack :=
  if shut_down st then (Ready (Err shut_down_error), s) else
  let h := ts_handle st in
  let '(written, s) :=
    peek_stack (fun i =>
      let '(written, i) :=
        with_tcp h (Ready (Err far_side_closed)) (fun t =>
          if negb (tcp_may_send t) then (Ready (Err far_side_closed), t)
          else match tcp_send_slice data t with
               | (Some O, t) => (Pending, t)
               | (Some n, t) => (Ready (Ok n), t)
               | (None, t) => (Ready (Err far_side_closed), t)
               end) i in
      match written with
      | Pending => (Pending, register h Send i)
      | r => (r, i)
      end) s in
  match written with
  | Ready (Ok n) => (Ready (Ok n), ring s)
  | r => (r, s)
  end.

Definition poll_flush (st : WgTcpStream) (s : Stack) : Poll (Result unit IoError) * Stack :=
  let h := ts_handle st in
  peek_stack (fun i =>
    let '(r, i) :=
      with_tcp h (Ready (Ok tt)) (fun t =>
        (if (tcp_send_queue t =? 0)%nat then Ready (Ok tt)
         else if negb (tcp_may_send t) && bool_decide (tcp_state t = Closed)
         then Ready (Err (BrokenPipe, "the tunnel connection closed before everything was sent"))
         else Pending, t)) i in
    match r with
    | Pending => (Pending, register h Send i)
    | r => (r, i)
    end) s.

(** A half-close: reads keep working. *)
Definition poll_shutdown (st : WgTcpStream) (s : Stack) : Poll (Result unit IoError) * (WgTcpStream * Stack) :=
  (Ready (Ok tt), close_half st s).

(** ** Listeners *)

Definition listen_one (port : Z) (s : Stack) : Result nat TunnelError * Stack :=
  with_stack (fun i =>
    let '(h, i) := add_tcp_socket i in
    let '(bound, i) :=
      with_tcp h (Err "") (fun t =>
        match tcp_listen port t with Ok t => (Ok tt, t) | Err e => (Err e, t) end) i in
    match bound with
    | Ok _ => (Ok h, i)
    | Err e => (Err (Engine ("the tunnel could not listen on port " ++ show port ++ ": " ++ e)), discard h i)
    end) s.

(** Dropping a listener aborts and removes every socket of its backlog. *)
Definition listener_drop (l : WgTcpListener) (s : Stack) : Stack :=
  on_inner (fun i => foldl (fun i h => discard h (tcp_map h tcp_abort i)) i (listening l)) s.

Fixpoint fill_backlog (n : nat) (l : WgTcpListener) (s : Stack) : Result WgTcpListener TunnelError * Stack :=
  match n with
  | O => (Ok l, s)
  | S n =>
      match listen_one (sa_port (local l)) s with
      | (Ok h, s) => fill_backlog n {| local := local l; listening := listening l ++ [h] |} s
      | (Err e, s) => (Err e, listener_drop l s)
      end
  end.

Definition tunnel_stopped : TunnelError := Engine "the tunnel has stopped".

Definition listener_bind (local : SocketAddr) (backlog : nat) (s : Stack)
  : Result WgTcpListener TunnelError * Stack :=
  if stopped s then (Err tunnel_stopped, s)
  else fill_backlog (Nat.max backlog 1) {| local := local; listening := [] |} s.

(** [WgStack::listen]; [random] is the start [free_listen_port] draws. *)
Definition stack_listen (port : Z) (backlog : nat) (random : Z) (s : Stack)
  : Result WgTcpListener TunnelError * Stack :=
  let chosen :=
    if port =? 0 then free_listen_port random s
    else if listening_on port s
    then Err (Engine ("the tunnel already listens on port " ++ show port))
    else Ok port in
  match chosen with
  | Err e => (Err e, s)
  | Ok port =>
      let address := match sc_addresses (config s) with c :: _ => address c | [] => V4_UNSPECIFIED end in
      listener_bind {| sa_ip := address; sa_port := port |} backlog s
  end.

(** The scan of the backlog: the first socket that carries data either way is
    the connection; a reset one goes back to listening; the others register. *)
Fixpoint accept_scan (port : Z) (index : nat) (hs : list nat) (i : StackInner C)
  : option (nat * option SocketAddr) * StackInner C :=
  match hs with
  | [] => (None, i)
  | h :: hs =>
      let '(found, i) :=
        with_tcp h (Some None) (fun t =>
          if tcp_may_send t || tcp_may_recv t then (Some (tcp_remote_endpoint t), t)
          else (None, if bool_decide (tcp_state t = Closed)
                      then match tcp_listen port t with Ok t' => t' | Err _ => t end else t)) i in
      match found with
      | Some peer => (Some (index, peer), i)
      | None => accept_scan port (S index) hs (register h Send (register h Recv i))
      end
  end.

Definition accept_poll (l : WgTcpListener) (s : Stack)
  : Poll (Result (nat * option SocketAddr) TunnelError) * Stack :=
  peek_stack (fun i =>
    if stopped s then (Ready (Err tunnel_stopped), i)
    else match accept_scan (sa_port (local l)) 0 (listening l) i with
         | (Some found, i) => (Ready (Ok found), i)
         | (None, i) => (Pending, i)
         end) s.

Definition UNKNOWN_PEER : SocketAddr := {| sa_ip := V4 0 0 0 0; sa_port := 0 |}.

(** What [accept] does with the connection at [index]: replenish the backlog,
    then claim a slot; [None] is a connection reset because the tunnel is full,
    after which the loop waits again. *)
Definition accept_take (index : nat) (found : option SocketAddr) (l : WgTcpListener) (s : Stack)
  : option (Result WgTcpStream TunnelError) * WgTcpListener * Stack :=
  match listening l !! index with
  | None => (Some (Err tunnel_stopped), l, set_inner (panic (inner s)) s)
  | Some h =>
      let l := {| local := local l; listening := swap_remove index (listening l) |} in
      match listen_one (sa_port (local l)) s with
      | (Err e, s) => (Some (Err e), l, on_inner (fun i => discard h (tcp_map h tcp_abort i)) s)
      | (Ok fresh, s) =>
          let l := {| local := local l; listening := listening l ++ [fresh] |} in
          let peer := match found with Some p => p | None => UNKNOWN_PEER end in
          match claim_socket slot_freed s with
          | (Ok _, s) => (Some (Ok {| ts_handle := h; peer := peer; shut_down := false |}), l, s)
          | (Err _, s) => (None, l, on_inner (fun i => retire h false (tcp_map h tcp_abort i)) s)
          end
      end
  end.

(** ** Datagram sockets *)

Definition udp_bind_socket (port : Z) (packets : nat) (bytes : Z) (s : Stack)
  : Result WgUdpSocket TunnelError * Stack :=
  let '((h, port, bound), s) :=
    with_stack (fun i =>
      let '(h, i) := add_udp_socket_sized packets bytes i in
      let '(port, i) := if port =? 0 then next_ephemeral_port i else (port, i) in
      let '(bound, i) :=
        with_udp h (Err "") (fun u =>
          match udp_bind port u with Ok u => (Ok tt, u) | Err e => (Err e, u) end) i in
      ((h, port, bound), i)) s in
  match bound with
  | Ok _ => (Ok {| us_handle := h; local_port := port |}, s)
  | Err e =>
      (Err (Engine ("the tunnel could not bind UDP port " ++ show port ++ ": " ++ e)), on_inner (discard h) s)
  end.

Definition bind_udp_sized (port : Z) (packets : nat) (bytes : Z) (s : Stack)
  : Result WgUdpSocket TunnelError * Stack :=
  if stopped s then (Err tunnel_stopped, s) else
  match claim_socket slot_freed s with
  | (Err e, s) => (Err e, s)
  | (Ok _, s) =>
      match udp_bind_socket port packets bytes s with
      | (Ok u, s) => (Ok u, s)
      | (Err e, s) => (Err e, release_socket s)
      end
  end.

Definition bind_udp (port : Z) (s : Stack) : Result WgUdpSocket TunnelError * Stack :=
  bind_udp_sized port UDP_PACKETS UDP_BUFFER_BYTES s.

Definition bind_transport_udp (port : Z) (s : Stack) : Result WgUdpSocket TunnelError * Stack :=
  bind_udp_sized port PACKET_QUEUE_DEPTH (Z.of_nat PACKET_QUEUE_DEPTH * sc_mtu (config s)) s.

Definition udp_stopped : IoError := (BrokenPipe, "the tunnel has stopped").

Definition send_to (data : list Z) (remote : SocketAddr) (u : WgUdpSocket) (s : Stack)
  : Poll (Result unit IoError) * Stack :=
  let h := us_handle u in
  let '(queued, s) :=
    peek_stack (fun i =>
      if stopped s then (Ready (Err udp_stopped), i) else
      let '(r, i) := with_udp h (Err UdpUnaddressable) (udp_send_slice data remote) i in
      match r with
      | Ok _ => (Ready (Ok tt), i)
      | Err BufferFull => (Pending, register h Send i)
      | Err UdpUnaddressable =>
          (Ready (Err (InvalidInput, "the tunnel has no address in that destination's family")), i)
      end) s in
  match queued with
  | Ready (Ok _) => (queued, ring s)
  | _ => (queued, s)
  end.

Definition recv_from (room : nat) (u : WgUdpSocket) (s : Stack)
  : Poll (Result (list Z * SocketAddr) IoError) * Stack :=
  let h := us_handle u in
  peek_stack (fun i =>
    if stopped s then (Ready (Err udp_stopped), i) else
    let '(r, i) := with_udp h (Err Truncated) (udp_recv_slice room) i in
    match r with
    | Ok read => (Ready (Ok read), i)
    | Err Exhausted => (Pending, register h Recv i)
    | Err Truncated => (Ready (Err (InvalidData, "the datagram did not fit in the supplied buffer")), i)
    end) s.

Definition udp_local_addr (u : WgUdpSocket) (s : Stack) : option SocketAddr :=
  match sc_addresses (config s) with
  | c :: _ => Some {| sa_ip := address c; sa_port := local_port u |}
  | [] => None
  end.

Definition udp_drop (u : WgUdpSocket) (s : Stack) : Stack :=
  let h := us_handle u in
  release_socket
    (on_inner (fun i => discard h (snd (with_udp h tt (fun k => (tt, udp_close k)) i))) s).

End Sockets.
