(* ===== verification/WgTurns.v ===== *)
(** * Waiting in turn on a datagram socket ([WgUdpSocket::send_to], [recv_from])

    smoltcp keeps one waker per direction of a socket, and registering a second
    replaces the first.  So each direction has a lock, and only the caller that
    holds it polls the socket: the others wait for the lock, which tokio hands
    on first come, first served.  [turn_step] interleaves any number of callers
    of one direction, dropped ones included, with whatever else the stack does. *)

From Stdlib Require Import ZArith Lia String Ascii Sorted.
From stdpp Require Import gmap strings numbers prelude.
From S2P Require Import Prelude Net Errors Runtime WgSpec WgLink WgStack WgSockets.

#[local] Open Scope nat_scope.
#[local] Open Scope list_scope.

(** One direction of a socket: [attempt op] is one poll of an operation.  A
    poll that waits leaves the operation waiting. *)
Class Waitable (Env Op A : Type) : Type := {
  attempt : Op -> Env -> Poll A * Env;
  attempt_pending op env env' : attempt op env = (Pending, env') -> fst (attempt op env') = Pending
}.

Section Turns.
Context {Env Op A : Type} `{!Waitable Env Op A}.

(** [line] are the callers under way, in the order of their calls; the first
    has the lock.  [awake]: it is scheduled to poll; otherwise it sleeps until
    it is woken.  [waker] is the caller registered with the socket, which may
    be gone by now. *)
Record Turns : Type := {
  env : Env;
  line : list (nat * Op);
  awake : bool;
  waker : option nat;
  next_caller : nat;
  returned : list (nat * A)
}.

Definition turns_new (e : Env) : Turns :=
  {| env := e; line := []; awake := true; waker := None; next_caller := 0; returned := [] |}.

(** The lock is taken at once when it is free. *)
Definition call (op : Op) (w : Turns) : Turns :=
  {| env := env w; line := line w ++ [(next_caller w, op)]; awake := awake w || bool_decide (line w = []);
     waker := waker w; next_caller := S (next_caller w); returned := returned w |}.

(** A poll by the holder: it returns, and the lock goes to the next in line,
    who is woken for it; or it registers its waker and sleeps. *)
Definition poll_head (w : Turns) : option Turns :=
  match line w with
  | [] => None
  | (c, op) :: rest =>
      if awake w then
        match attempt op (env w) with
        | (Ready a, e) =>
            Some {| env := e; line := rest; awake := true; waker := waker w; next_caller := next_caller w;
                    returned := returned w ++ [(c, a)] |}
        | (Pending, e) =>
            Some {| env := e; line := line w; awake := false; waker := Some c; next_caller := next_caller w;
                    returned := returned w |}
        end
      else None
  end.

(** Dropping a call: it leaves the line, and gives the lock up if it had it.
    Its waker stays registered. *)
Definition drop_call (i : nat) (w : Turns) : Turns :=
  {| env := env w; line := delete i (line w); awake := awake w || (i =? 0); waker := waker w;
     next_caller := next_caller w; returned := returned w |}.

Definition holder (w : Turns) : option nat := fst <$> head (line w).

(** The socket wakes whoever is registered, and forgets the waker. *)
Definition wake_socket (e : Env) (w : Turns) : Turns :=
  {| env := e; line := line w; awake := awake w || bool_decide (waker w = holder w); waker := None;
     next_caller := next_caller w; returned := returned w |}.

(** The socket wakes its waker with every change that could let an operation
    through; what goes unannounced lets nothing through. *)
Inductive turn_step : Turns -> Turns -> Prop :=
| tu_call op w : turn_step w (call op w)
| tu_poll w w' : poll_head w = Some w' -> turn_step w w'
| tu_drop i w : turn_step w (drop_call i w)
| tu_wake e w : turn_step w (wake_socket e w)
| tu_quiet e w :
    (forall op, fst (attempt op (env w)) = Pending -> fst (attempt op e) = Pending) ->
    turn_step w {| env := e; line := line w; awake := awake w; waker := waker w; next_caller := next_caller w;
                   returned := returned w |}
| tu_spurious w :
    turn_step w {| env := env w; line := line w; awake := true; waker := waker w; next_caller := next_caller w;
                   returned := returned w |}.

(** ** The invariant *)

(** A holder that sleeps is the registered one, and has nothing to wake for. *)
Definition asleep (w : Turns) : Prop :=
  exists c op rest, line w = (c, op) :: rest /\ waker w = Some c /\ fst (attempt op (env w)) = Pending.

Record turns_inv (w : Turns) : Prop := {
  ti_asleep : awake w = false -> asleep w;
  ti_order : StronglySorted lt ((returned w).*1 ++ (line w).*1);
  ti_next : Forall (fun c => c < next_caller w) ((returned w).*1 ++ (line w).*1)
}.

Lemma sorted_delete (l1 l2 : list nat) i :
  StronglySorted lt (l1 ++ l2) -> StronglySorted lt (l1 ++ delete i l2).
Proof.
  intros Hs. induction l1 as [|x l1 IH]; simpl in *.
  - revert i. induction l2 as [|y l2 IH]; intros [|i]; simpl; [done | done | by inversion Hs |].
    inversion Hs as [|? ? Hs' Hy]; subst. constructor; [by apply IH |]. by apply Forall_delete.
  - inversion Hs as [|? ? Hs' Hx]; subst. constructor; [by apply IH |].
    apply Forall_app in Hx as [H1 H2]. apply Forall_app. split; [done | by apply Forall_delete].
Qed.

Lemma sorted_snoc (l : list nat) n : StronglySorted lt l -> Forall (fun c => c < n) l -> StronglySorted lt (l ++ [n]).
Proof.
  intros Hs Hn. induction l as [|x l IH]; simpl; [by repeat constructor |].
  inversion Hs; inversion Hn; subst. constructor; [by apply IH |]. apply Forall_app. split; [done |]. by constructor.
Qed.

Lemma turns_new_inv e : turns_inv (turns_new e).
Proof. split; simpl; [done | constructor | constructor]. Qed.

Lemma poll_head_inv w w' : poll_head w = Some w' -> turns_inv w -> turns_inv w'.
Proof.
  intros E [H1 H2 H3]. unfold poll_head in E. destruct (line w) as [|[c op] rest] eqn:El; [done |].
  destruct (awake w); [| done]. destruct (attempt op (env w)) as [[a|] e] eqn:Ea; injection E as <-; split; simpl; try done.
  - rewrite fmap_app, <- app_assoc. exact H2.
  - rewrite fmap_app, <- app_assoc. exact H3.
  - intros _. exists c, op, rest. split_and!; [by rewrite ?El | done |]. by eapply attempt_pending.
Qed.

Lemma turn_step_inv w w' : turn_step w w' -> turns_inv w -> turns_inv w'.
Proof.
  intros Hstep Hw. pose proof Hw as [H1 H2 H3].
  destruct Hstep as [op w | w w' E | i w | e w | e w Hq | w]; [| by eapply poll_head_inv | | | |]; split; simpl; try done.
  - intros [Ha Hl]%orb_false_iff. destruct (H1 Ha) as (c & o & rest & E & Hk & Hp).
    exists c, o, (rest ++ [(next_caller w, op)]). simpl. by rewrite E.
  - rewrite fmap_app, app_assoc. by apply sorted_snoc.
  - rewrite fmap_app, app_assoc. apply Forall_app. split; [| constructor; [simpl; lia | constructor]].
    eapply Forall_impl; [exact H3 |]. intros c Hc. cbv beta in Hc |- *. lia.
  - intros [Ha Hi]%orb_false_iff. destruct (H1 Ha) as (c & o & rest & E & Hk & Hp). destruct i as [|i]; [done |].
    exists c, o, (delete i rest). simpl. by rewrite E.
  - rewrite list_fmap_delete. by apply sorted_delete.
  - rewrite list_fmap_delete. apply Forall_app in H3 as [? ?]. apply Forall_app. split; [done | by apply Forall_delete].
  - intros [Ha Hi]%orb_false_iff. destruct (H1 Ha) as (c & o & rest & E & Hk & Hp).
    apply bool_decide_eq_false in Hi. destruct Hi. unfold holder. by rewrite E, Hk.
  - intros Ha. destruct (H1 Ha) as (c & o & rest & E & Hk & Hp). exists c, o, rest. simpl. eauto.
Qed.

Lemma turns_reachable_inv e w : rtc turn_step (turns_new e) w -> turns_inv w.
Proof. intros Hr. eapply rtc_preserves; [| exact Hr | apply turns_new_inv]. intros x y. apply turn_step_inv. Qed.

End Turns.

(** Nobody is stranded: the caller whose turn it is runs, or the socket will
    wake it and there is nothing to wake it for yet; and callers return in the
    order they called. *)
Definition in_turn {Env Op A : Type} `{!Waitable Env Op A} (w : Turns (Env := Env) (Op := Op) (A := A)) : Prop :=
  (forall c op rest, line w = (c, op) :: rest ->
     awake w = true \/ (waker w = Some c /\ fst (attempt op (env w)) = Pending))
  /\ StronglySorted lt ((returned w).*1 ++ (line w).*1).

Lemma turns_in_turn {Env Op A : Type} `{!Waitable Env Op A} (e : Env) (w : Turns) :
  rtc turn_step (turns_new e) w -> in_turn w.
Proof.
  intros [H1 H2 _]%turns_reachable_inv. split; [| done]. intros c op rest El.
  destruct (awake w) eqn:Ea; [by left |]. right.
  destruct (H1 eq_refl) as (c' & op' & rest' & E & Hk & Hp). rewrite El in E. injection E as <- <- <-. done.
Qed.

(** ** The two directions of a datagram socket *)

(** smoltcp: a refused send or receive changes nothing that would let it
    through. *)
Class SmoltcpWaits `{Smoltcp} : Prop := {
  udp_recv_exhausted room u u' :
    udp_recv_slice room u = (Err Exhausted, u') -> fst (udp_recv_slice room u') = Err Exhausted;
  udp_send_full data target u u' :
    udp_send_slice data target u = (Err BufferFull, u') -> fst (udp_send_slice data target u') = Err BufferFull
}.

Section Datagrams.
Context `{Smoltcp, !SmoltcpWaits} {C : Type} `{!Channel C Packet}.
Notation Stack := (StackShared C).

Lemma recv_from_pending room u (s s' : Stack) :
  recv_from room u s = (Pending, s') -> fst (recv_from room u s') = Pending.
Proof.
  unfold recv_from, peek_stack, with_udp. destruct (stopped s) eqn:Es; [done |].
  destruct (sockets (inner s) !! us_handle u) as [[|k|]|] eqn:Ek; try done.
  destruct (udp_recv_slice room k) as [[?|[]] k'] eqn:Er; try done. simpl. intros [= <-]. simpl. rewrite Es, lookup_insert_eq.
  apply udp_recv_exhausted in Er. destruct (udp_recv_slice room k') as [r k'']. simpl in *. by subst r.
Qed.

Lemma send_to_pending data target u (s s' : Stack) :
  send_to data target u s = (Pending, s') -> fst (send_to data target u s') = Pending.
Proof.
  unfold send_to, peek_stack, with_udp. destruct (stopped s) eqn:Es; [done |].
  destruct (sockets (inner s) !! us_handle u) as [[|k|]|] eqn:Ek; try done.
  destruct (udp_send_slice data target k) as [[[]|[]] k'] eqn:Er; try done. simpl. intros [= <-]. simpl.
  rewrite Es, lookup_insert_eq. apply udp_send_full in Er. destruct (udp_send_slice data target k') as [r k''].
  simpl in *. by subst r.
Qed.

Definition receiving (u : WgUdpSocket) : Waitable Stack nat (Result (list Z * SocketAddr) IoError) :=
  {| attempt room s := recv_from room u s; attempt_pending room s s' := recv_from_pending room u s s' |}.

Definition sending (u : WgUdpSocket) : Waitable Stack (list Z * SocketAddr) (Result unit IoError) :=
  {| attempt d s := send_to d.1 d.2 u s; attempt_pending d s s' := send_to_pending d.1 d.2 u s s' |}.

End Datagrams.

(** C18: waiters on a datagram socket are served in turn and none is stranded.
    Whatever calls to send or to receive are made on it and dropped, and
    whatever the stack does meanwhile, in each direction the caller whose turn
    it is either runs or is the one the socket will wake, and then there is
    nothing yet it could be woken for; in particular nobody sleeps on a stopped
    stack; and callers return in the order they called. *)
Theorem udp_waiters_in_turn `{Smoltcp, !SmoltcpWaits} {C : Type} `{!Channel C Packet} (u : WgUdpSocket)
    (s : StackShared C) :
  (forall w, rtc (turn_step (Waitable0 := receiving u)) (turns_new s) w ->
     in_turn (Waitable0 := receiving u) w /\ (stopped (env w) = true -> line w = [] \/ awake w = true))
  /\ (forall w, rtc (turn_step (Waitable0 := sending u)) (turns_new s) w ->
     in_turn (Waitable0 := sending u) w /\ (stopped (env w) = true -> line w = [] \/ awake w = true)).
Proof.
  split; intros w Hr; pose proof (turns_in_turn _ _ Hr) as Ht; (split; [exact Ht |]); destruct Ht as [Ht _]; intros Hs;
    (destruct (line w) as [|[c op] rest] eqn:El; [by left | right]);
    (destruct (Ht c op rest eq_refl) as [? | [_ Hp]]; [done | exfalso]); simpl in Hp.
  - unfold recv_from, peek_stack in Hp. by rewrite Hs in Hp.
  - unfold send_to, peek_stack in Hp. by rewrite Hs in Hp.
Qed.

(** A socket nothing ever arrives on. *)
#[local] Instance silent_smoltcp : Smoltcp :=
  inert_smoltcp (U := unit) (D := unit) tt (fun _ _ u => (Err BufferFull, u)) (fun _ u => (Err Exhausted, u))
    (fun _ => tt) (fun d => (Err NoFreeSlot, d)) (fun _ d => d).

#[local] Instance silent_waits : SmoltcpWaits.
Proof. split; intros; done. Qed.

Definition silent_socket : WgUdpSocket := {| us_handle := 5; local_port := 49152%Z |}.

Definition silent_stack : StackShared (ListChannel Packet) :=
  let s := stack_start {| sc_addresses := []; sc_dns_servers := []; sc_mtu := 1420%Z; sc_proxy_config_id := "p1"%string;
                          sc_download_tuning := false |} (chan_new 1) 0%Z in
  set_inner (set_sockets {[ 5 := SUdp (tt : Udp) ]} (inner s)) s.

(** Two receivers: the first sleeps and is dropped, so the second has its turn. *)
Lemma second_receiver :
  exists w, rtc (turn_step (Waitable0 := receiving silent_socket)) (turns_new silent_stack) w
    /\ line w = [(1, 1500)] /\ awake w = true /\ waker w = Some 0.
Proof.
  eexists. split.
  - take_step (tu_call (Waitable0 := receiving silent_socket) 1400).
    take_step (tu_poll (Waitable0 := receiving silent_socket)).
    take_step (tu_call (Waitable0 := receiving silent_socket) 1500).
    take_step (tu_drop (Waitable0 := receiving silent_socket) 0). apply rtc_refl.
  - split_and!; reflexivity.
Qed.

Lemma udp_waiters_in_turn_witness :
  exists w, line w = [(1, 1500)] /\ in_turn (Waitable0 := receiving (C := ListChannel Packet) silent_socket) w.
Proof.
  destruct second_receiver as (w & Hr & Hl & _). exists w. split; [exact Hl |].
  exact (proj1 (proj1 (udp_waiters_in_turn silent_socket silent_stack) w Hr)).
Defined.
