(* ===== verification/WgTransport.v ===== *)
(** * The UDP side of a WireGuard device ([src/wireguard/transport.rs])

    A device sends and receives through one [TunnelSocket]: gotatun's own
    socket, an operating system socket the application bound, or a datagram
    socket inside another tunnel.  The first two are parameters; the third is
    any [DatagramSocket], and a [WgUdpSocket] of another tunnel's stack is one.
    [bind] makes the socket, and logs every system call it makes.  The options
    of a provider ([src/wireguard/mod.rs]) decide which of the three. *)

From Stdlib Require Import ZArith Lia String Ascii.
From stdpp Require Import gmap strings numbers prelude.
From S2P Require Import Prelude Net Errors Endpoint Runtime WgSpec WgLink WgStack WgSockets.

Open Scope string_scope.
Open Scope Z_scope.

Definition Datagram : Type := list Z * SocketAddr.

(** ** The socket *)

(** gotatun's [UdpSocket], and tokio's; [room] is the size of a pooled packet
    buffer. *)
Record GotatunSocket (Env Sys : Type) : Type := {
  sys_send_to : Sys -> list Z -> SocketAddr -> Env -> Poll (Result unit IoError) * Env;
  sys_max_packets : Sys -> nat;
  sys_send_many_to : Sys -> list Datagram -> Env -> Poll (Result unit IoError) * list Datagram * Env;
  sys_recv_from : Sys -> nat -> Env -> Poll (Result Datagram IoError) * Env;
  sys_recv_many_from : Sys -> nat -> Env -> Poll (Result (list Datagram) IoError) * Env;
  sys_local_addr : Sys -> Result SocketAddr IoError;
  sys_set_fwmark : Sys -> Z -> Result unit IoError;
  sys_enable_udp_gro : Sys -> Result unit IoError
}.
Arguments sys_send_to {Env Sys} _.
Arguments sys_max_packets {Env Sys} _.
Arguments sys_send_many_to {Env Sys} _.
Arguments sys_recv_from {Env Sys} _.
Arguments sys_recv_many_from {Env Sys} _.
Arguments sys_local_addr {Env Sys} _.
Arguments sys_set_fwmark {Env Sys} _.
Arguments sys_enable_udp_gro {Env Sys} _.

Record OsSocket (Env Os : Type) : Type := {
  os_send_to : Os -> list Z -> SocketAddr -> Env -> Poll (Result nat IoError) * Env;
  os_recv_from : Os -> nat -> Env -> Poll (Result Datagram IoError) * Env;
  os_local_addr : Os -> Result SocketAddr IoError;
  os_set_mark : Os -> Z -> Result unit IoError
}.
Arguments os_send_to {Env Os} _.
Arguments os_recv_from {Env Os} _.
Arguments os_local_addr {Env Os} _.
Arguments os_set_mark {Env Os} _.

Inductive TunnelSocket (Sys Os D : Type) : Type :=
| System (socket : Sys)
| Bound (socket : Os)
| Carried (socket : D).
Arguments System {Sys Os D} socket.
Arguments Bound {Sys Os D} socket.
Arguments Carried {Sys Os D} socket.

Definition map_ready {A B} (f : A -> B) (p : Poll A) : Poll B :=
  match p with Ready a => Ready (f a) | Pending => Pending end.

Section Socket.
Context {Env Sys Os D : Type} (gotatun : GotatunSocket Env Sys) (tokio : OsSocket Env Os) `{DatagramSocket Env D}.

Notation Socket := (TunnelSocket Sys Os D).

Definition send_to (packet : list Z) (target : SocketAddr) (s : Socket) (env : Env)
  : Poll (Result unit IoError) * Env :=
  match s with
  | System socket => sys_send_to gotatun socket packet target env
  | Bound socket =>
      let '(r, env) := os_send_to tokio socket packet target env in
      (map_ready (fun r => let? _ := r in Ok tt) r, env)
  | Carried socket => ds_send_to socket packet target env
  end.

Definition max_number_of_packets_to_send (s : Socket) : nat :=
  match s with System socket => sys_max_packets gotatun socket | Bound _ | Carried _ => 1 end.

(** [packets.drain(..)]: what is left when the loop waits; nothing when it
    fails, since dropping the iterator discards the rest. *)
Fixpoint send_each (packets : list Datagram) (s : Socket) (env : Env)
  : Poll (Result unit IoError) * list Datagram * Env :=
  match packets with
  | [] => (Ready (Ok tt), [], env)
  | (packet, target) :: rest =>
      match send_to packet target s env with
      | (Pending, env) => (Pending, packets, env)
      | (Ready (Err e), env) => (Ready (Err e), [], env)
      | (Ready (Ok _), env) => send_each rest s env
      end
  end.

Definition send_many_to (packets : list Datagram) (s : Socket) (env : Env)
  : Poll (Result unit IoError) * list Datagram * Env :=
  match s with
  | System socket => sys_send_many_to gotatun socket packets env
  | Bound _ | Carried _ => send_each packets s env
  end.

Definition local_addr (s : Socket) (env : Env) : Result (option SocketAddr) IoError :=
  match s with
  | System socket => let? a := sys_local_addr gotatun socket in Ok (Some a)
  | Bound socket => let? a := os_local_addr tokio socket in Ok (Some a)
  | Carried socket => Ok (ds_local_addr socket env)
  end.

Definition set_fwmark (mark : Z) (s : Socket) : Result unit IoError :=
  match s with
  | System socket => sys_set_fwmark gotatun socket mark
  | Bound socket => os_set_mark tokio socket mark
  | Carried _ => Ok tt
  end.

(** The loop over datagrams that do not fit; [None] is out of fuel. *)
Fixpoint recv_fitting (fuel room : nat) (d : D) (env : Env) : option (Poll (Result Datagram IoError)) * Env :=
  match fuel with
  | O => (None, env)
  | S fuel =>
      match ds_recv_from d room env with
      | (Ready (Err (InvalidData, _)), env) => recv_fitting fuel room d env
      | (r, env) => (Some r, env)
      end
  end.

Definition recv_from (fuel room : nat) (s : Socket) (env : Env) : option (Poll (Result Datagram IoError)) * Env :=
  match s with
  | System socket => let '(r, env) := sys_recv_from gotatun socket room env in (Some r, env)
  | Bound socket => let '(r, env) := os_recv_from tokio socket room env in (Some r, env)
  | Carried socket => recv_fitting fuel room socket env
  end.

(** The packets it adds. *)
Definition recv_many_from (fuel room : nat) (s : Socket) (env : Env)
  : option (Poll (Result (list Datagram) IoError)) * Env :=
  match s with
  | System socket => let '(r, env) := sys_recv_many_from gotatun socket room env in (Some r, env)
  | Bound _ | Carried _ =>
      let '(r, env) := recv_from fuel room s env in
      (map_ready (fun r => let? d := r in Ok [d]) <$> r, env)
  end.

Definition enable_udp_gro (s : Socket) : Result unit IoError :=
  match s with System socket => sys_enable_udp_gro gotatun socket | Bound _ | Carried _ => Ok tt end.

End Socket.

(** ** Binding *)

(** The receive buffer asked for when tuning for downloads. *)
Definition TUNED_RECEIVE_BUFFER : Z := 4 * 1024 * 1024.

Record DatagramBinding (D : Type) : Type := { binding_peer : SocketAddr; prebound : option D }.
Arguments binding_peer {D} _.
Arguments prebound {D} _.

(** [bound] is the endpoint the application's own socket factory binds for. *)
Record TunnelUdpFactory (D : Type) : Type := {
  tuning : bool;
  bound : option SocketAddr;
  source : option SocketAddr;
  carried_by : option (DatagramBinding D)
}.
Arguments tuning {D} _.
Arguments bound {D} _.
Arguments source {D} _.
Arguments carried_by {D} _.

(** Everything a bind asks of the world outside. *)
Inductive BindEvent : Type :=
| AskedCarrierSocket (peer : SocketAddr)
| OpenedOsSocket (peer : SocketAddr)
| MarkedOsSocket (mark : Z)
| SizedOsBuffer (bytes : Z)
| OpenedSystemSockets (recv_buffer : option Z).

(** The answers to one bind. *)
Record BindHost (Sys Os D : Type) : Type := {
  carrier_bind : SocketAddr -> Result D TunnelError;
  carrier_addr : D -> option SocketAddr;
  factory_bind : SocketAddr -> Result Os IoError;
  os_mark : Os -> Z -> Result unit IoError;
  os_nonblocking : Os -> Result unit IoError;
  os_addr : Os -> Result SocketAddr IoError;
  os_adopt : Os -> Result Os IoError;
  system_bind : option Z -> Result (Sys * Sys) IoError;
  system_addr : Sys -> Result SocketAddr IoError
}.
Arguments carrier_bind {Sys Os D} _.
Arguments carrier_addr {Sys Os D} _.
Arguments factory_bind {Sys Os D} _.
Arguments os_mark {Sys Os D} _.
Arguments os_nonblocking {Sys Os D} _.
Arguments os_addr {Sys Os D} _.
Arguments os_adopt {Sys Os D} _.
Arguments system_bind {Sys Os D} _.
Arguments system_addr {Sys Os D} _.

Section Bind.
Context {Sys Os D : Type}.

Notation Socket := (TunnelSocket Sys Os D).
Notation Factory := (TunnelUdpFactory D).
Notation Bound_ := (Result (Socket * Socket) IoError * Factory * list BindEvent)%type.

Definition set_source (a : option SocketAddr) (f : Factory) : Factory :=
  {| tuning := tuning f; bound := bound f; source := a; carried_by := carried_by f |}.

Definition take_prebound (b : DatagramBinding D) (f : Factory) : Factory :=
  {| tuning := tuning f; bound := bound f; source := source f;
     carried_by := Some {| binding_peer := binding_peer b; prebound := None |} |}.

(** A device carried by another tunnel. *)
Definition bind_carried (h : BindHost Sys Os D) (b : DatagramBinding D) (f : Factory) : Bound_ :=
  let have d f events := (Ok (Carried d, Carried d), set_source (carrier_addr h d) f, events) in
  match prebound b with
  | Some d => have d (take_prebound b f) []
  | None =>
      match carrier_bind h (binding_peer b) with
      | Ok d => have d (take_prebound b f) [AskedCarrierSocket (binding_peer b)]
      | Err e => (Err (OtherIo, error_to_string e), take_prebound b f, [AskedCarrierSocket (binding_peer b)])
      end
  end.

(** The application's own socket. *)
Definition bind_bound (h : BindHost Sys Os D) (fwmark : option Z) (peer : SocketAddr) (f : Factory) : Bound_ :=
  match factory_bind h peer with
  | Err e => (Err e, f, [OpenedOsSocket peer])
  | Ok socket =>
      let marked := match fwmark with Some mark => os_mark h socket mark | None => Ok tt end in
      let events := ([OpenedOsSocket peer] ++ match fwmark with Some mark => [MarkedOsSocket mark] | None => [] end)%list in
      match marked with
      | Err e => (Err e, f, events)
      | Ok _ =>
          let events := (events ++ if tuning f then [SizedOsBuffer TUNED_RECEIVE_BUFFER] else [])%list in
          match os_nonblocking h socket with
          | Err e => (Err e, f, events)
          | Ok _ =>
              let f := set_source (reported (os_addr h socket)) f in
              match os_adopt h socket with
              | Err e => (Err e, f, events)
              | Ok socket => (Ok (Bound socket, Bound socket), f, events)
              end
          end
      end
  end.

(** [bind_with_buffer]: some kernels reject the size, so once more without. *)
Definition bind_with_buffer (h : BindHost Sys Os D) (bytes : Z) : Result (Sys * Sys) IoError * list BindEvent :=
  match system_bind h (Some bytes) with
  | Ok both => (Ok both, [OpenedSystemSockets (Some bytes)])
  | Err _ => (system_bind h None, [OpenedSystemSockets (Some bytes); OpenedSystemSockets None])
  end.

Definition bind_system (h : BindHost Sys Os D) (f : Factory) : Bound_ :=
  let '(r, events) :=
    if tuning f then bind_with_buffer h TUNED_RECEIVE_BUFFER
    else (system_bind h None, [OpenedSystemSockets None]) in
  match r with
  | Err e => (Err e, f, events)
  | Ok (send, recv) =>
      (Ok (System send, System recv), set_source (reported (system_addr h send)) f, events)
  end.

(** [UdpTransportFactory::bind]. *)
Definition bind (h : BindHost Sys Os D) (fwmark : option Z) (f : Factory) : Bound_ :=
  match carried_by f with
  | Some b => bind_carried h b f
  | None =>
      match bound f with
      | Some peer => bind_bound h fwmark peer f
      | None => bind_system h f
      end
  end.

(** [source_address] of a provider, whose devices share the cell. *)
Definition source_address (f : Factory) : option SocketAddr := source f.

(** The binds of a device's life: its first, and its rebinds. *)
Fixpoint binds (hs : list (BindHost Sys Os D * option Z)) (f : Factory)
  : list (Result (Socket * Socket) IoError) * Factory * list BindEvent :=
  match hs with
  | [] => ([], f, [])
  | (h, fwmark) :: hs =>
      let '(r, f, events) := bind h fwmark f in
      let '(rs, f, more) := binds hs f in
      (r :: rs, f, (events ++ more)%list)
  end.

End Bind.

(** ** The options of a provider ([with_download_tuning] and the like) *)

Record Options (Factory Transport : Type) : Type := {
  opt_tuning : bool;
  opt_factory : option Factory;
  opt_datagram : option Transport
}.
Arguments opt_tuning {Factory Transport} _.
Arguments opt_factory {Factory Transport} _.
Arguments opt_datagram {Factory Transport} _.

Section Options.
Context {Factory Transport D : Type}.
Notation Opts := (Options Factory Transport).

Definition options_new : Opts := {| opt_tuning := false; opt_factory := None; opt_datagram := None |}.

Definition with_download_tuning (o : Opts) : Opts :=
  {| opt_tuning := true; opt_factory := opt_factory o; opt_datagram := opt_datagram o |}.

Definition with_udp_factory (factory : Factory) (o : Opts) : Opts :=
  {| opt_tuning := opt_tuning o; opt_factory := Some factory; opt_datagram := None |}.

Definition with_datagram_transport (transport : Transport) (o : Opts) : Opts :=
  {| opt_tuning := opt_tuning o; opt_factory := None; opt_datagram := Some transport |}.

(** [outer] is a provider, and as such a transport. *)
Definition with_inner_wireguard {Provider} (as_transport : Provider -> Transport) (outer : Provider) (o : Opts) : Opts :=
  with_datagram_transport (as_transport outer) o.

(** What a bring-up hands to its device; [carrier] is the socket it bound first
    on the carrying transport. *)
Definition device_factory (o : Opts) (endpoint : SocketAddr) (source : option SocketAddr) (carrier : D)
  : TunnelUdpFactory D :=
  {| tuning := opt_tuning o;
     bound := (fun _ => endpoint) <$> opt_factory o;
     source := source;
     carried_by := (fun _ => {| binding_peer := endpoint; prebound := Some carrier |}) <$> opt_datagram o |}.

Inductive OptionCall : Type :=
| Tuned
| Through (factory : Factory)
| Over (transport : Transport).

Definition apply_option (o : Opts) (c : OptionCall) : Opts :=
  match c with
  | Tuned => with_download_tuning o
  | Through factory => with_udp_factory factory o
  | Over transport => with_datagram_transport transport o
  end.

Definition configured (calls : list OptionCall) : Opts := foldl apply_option options_new calls.

Definition chooses_egress (c : OptionCall) : bool := match c with Tuned => false | _ => true end.

(** The way out chosen last. *)
Definition egress (calls : list OptionCall) : option OptionCall := last (filter chooses_egress calls).

Lemma configured_egress calls :
  match egress calls with
  | Some (Over t) => opt_datagram (configured calls) = Some t /\ opt_factory (configured calls) = None
  | Some (Through f) => opt_factory (configured calls) = Some f /\ opt_datagram (configured calls) = None
  | _ => opt_datagram (configured calls) = None /\ opt_factory (configured calls) = None
  end.
Proof.
  unfold configured, egress. induction calls as [|c calls IH] using rev_ind; [done |].
  rewrite foldl_app, filter_app. destruct c as [| f | t].
  - rewrite filter_cons_False, filter_nil, app_nil_r by (intros H; exact H). by destruct (last _) as [[]|].
  - by rewrite filter_cons_True, filter_nil, last_snoc.
  - by rewrite filter_cons_True, filter_nil, last_snoc.
Qed.

(** The way out chosen last is the one every device of the provider takes, the
    others notwithstanding. *)
Theorem last_egress_wins {Sys Os} (h : BindHost Sys Os D) (fwmark : option Z) calls endpoint source carrier :
  let f := device_factory (configured calls) endpoint source carrier in
  bind h fwmark f =
  match egress calls with
  | Some (Over _) => bind_carried h {| binding_peer := endpoint; prebound := Some carrier |} f
  | Some (Through _) => bind_bound h fwmark endpoint f
  | _ => bind_system h f
  end.
Proof.
  intros f. pose proof (configured_egress calls) as H. unfold bind, f. simpl.
  destruct (egress calls) as [[| factory | t]|]; destruct H as [-> ->]; done.
Qed.

End Options.

(** ** A carried device never leaves its carrier *)

Section Carried.
Context {Sys Os D : Type}.

Definition carried_pair (r : Result (TunnelSocket Sys Os D * TunnelSocket Sys Os D) IoError) : Prop :=
  match r with Ok (Carried _, Carried _) => True | Ok _ => False | Err _ => True end.

Lemma rebinds_ask (peer : SocketAddr) (hs : list (BindHost Sys Os D * option Z)) : forall f rs f' events,
  carried_by f = Some {| binding_peer := peer; prebound := None |} -> binds hs f = (rs, f', events) ->
  events = replicate (length hs) (AskedCarrierSocket peer) /\ Forall carried_pair rs /\ length rs = length hs
  /\ carried_by f' = Some {| binding_peer := peer; prebound := None |}.
Proof.
  induction hs as [|[h mark] hs IH]; intros f rs f' events Hf; simpl; [by intros [= <- <- <-] |].
  unfold bind. rewrite Hf. unfold bind_carried. simpl.
  destruct (carrier_bind h peer) as [d|e]; destruct (binds hs _) as [[rs0 f0] more] eqn:E; intros [= <- <- <-];
    apply IH in E as (-> & A2 & A3 & A4); try done; split_and!; try done; by constructor || (simpl; lia).
Qed.

End Carried.

(** ** Receiving on a carried device *)

(** The oldest datagram that fits, and what is behind it. *)
Fixpoint first_fitting (room : nat) (q : list Datagram) : option (Datagram * list Datagram) :=
  match q with
  | [] => None
  | (data, from) :: rest => if (length data <=? room)%nat then Some ((data, from), rest) else first_fitting room rest
  end.

Section Receive.
Context {Env D : Type} `{DatagramLaws Env D}.

Lemma recv_fitting_first (room : nat) (d : D) (q : list Datagram) : forall fuel env,
  ds_live d env -> ds_is_closed d env = false -> ds_queue d env = q -> (length q < fuel)%nat ->
  match first_fitting room q with
  | Some (dg, rest) => exists env', recv_fitting fuel room d env = (Some (Ready (Ok dg)), env')
      /\ ds_live d env' /\ ds_is_closed d env' = false /\ ds_queue d env' = rest
  | None => exists env', recv_fitting fuel room d env = (Some Pending, env')
      /\ ds_live d env' /\ ds_is_closed d env' = false /\ ds_queue d env' = []
  end.
Proof.
  induction q as [|[data from] rest IH]; intros [|fuel] env Hl Hc Hq Hfuel; simpl in *; try lia.
  - destruct (ds_recv_empty d room env Hl Hc Hq) as (env' & -> & ?). by exists env'.
  - destruct (ds_recv_next d room env data from rest Hl Hc Hq) as (env' & Hl' & Hc' & Hq' & Hr).
    destruct (length data <=? room)%nat.
    + rewrite Hr. by exists env'.
    + destruct Hr as [e ->]. apply IH; [done.. | lia].
Qed.

Lemma recv_fitting_closed (room : nat) (d : D) fuel env :
  ds_live d env -> ds_is_closed d env = true -> (0 < fuel)%nat ->
  exists e, recv_fitting fuel room d env = (Some (Ready (Err (BrokenPipe, e))), env).
Proof.
  intros Hl Hc Hf. destruct fuel as [|fuel]; [lia |]. simpl.
  destruct (ds_recv_closed d room env Hl Hc) as [e ->]. by exists e.
Qed.

End Receive.

(** ** The socket of another tunnel's stack *)

(** What smoltcp documents of a datagram socket's receive queue: the oldest
    datagram is taken, and dropped when the buffer is too small for it. *)
Class SmoltcpDatagrams `{Smoltcp} : Type := {
  udp_queue : Udp -> list Datagram;
  udp_recv_spec (room : nat) (u : Udp) :
    match udp_queue u with
    | [] => exists u', udp_recv_slice room u = (Err Exhausted, u') /\ udp_queue u' = []
    | (data, from) :: rest =>
        exists u', udp_recv_slice room u = (if (length data <=? room)%nat then Ok (data, from) else Err Truncated, u')
          /\ udp_queue u' = rest
    end
}.

Section Stack.
Context `{Smoltcp} {C : Type} `{!Channel C Packet}.

(** [DatagramSocket for WgUdpSocket]. *)
Definition wg_datagram : DatagramSocket (StackShared C) WgUdpSocket := {|
  ds_send_to u data target s := WgSockets.send_to data target u s;
  ds_recv_from u room s := WgSockets.recv_from room u s;
  ds_local_addr u s := udp_local_addr u s;
  ds_link_mtu u s := Some (sc_mtu (config s));
  ds_is_closed u s := stopped s
|}.

#[export] Existing Instance wg_datagram.

Definition wg_socket (u : WgUdpSocket) (s : StackShared C) : option Udp :=
  match sockets (inner s) !! us_handle u with Some (SUdp k) => Some k | _ => None end.

Context `{!SmoltcpDatagrams}.

Definition wg_queue (u : WgUdpSocket) (s : StackShared C) : list Datagram :=
  match wg_socket u s with Some k => udp_queue k | None => [] end.

Lemma set_inner_id (s : StackShared C) : set_inner (inner s) s = s.
Proof. by destruct s. Qed.

Lemma wg_recv_stopped u room (s : StackShared C) :
  stopped s = true -> exists e, WgSockets.recv_from room u s = (Ready (Err (BrokenPipe, e)), s).
Proof. intros Hs. eexists. unfold WgSockets.recv_from, peek_stack. rewrite Hs. simpl. by rewrite set_inner_id. Qed.

Lemma wg_send_stopped u data target (s : StackShared C) :
  stopped s = true -> exists e, WgSockets.send_to data target u s = (Ready (Err (BrokenPipe, e)), s).
Proof. intros Hs. eexists. unfold WgSockets.send_to, peek_stack. rewrite Hs. simpl. by rewrite set_inner_id. Qed.

(** A receive on a running stack, through the stack's socket set. *)
Lemma wg_recv_running u room (s : StackShared C) k :
  stopped s = false -> wg_socket u s = Some k ->
  exists s', stopped s' = false /\ wg_socket u s' = Some (snd (udp_recv_slice room k))
    /\ WgSockets.recv_from room u s
       = (match fst (udp_recv_slice room k) with
          | Ok read => Ready (Ok read)
          | Err Exhausted => Pending
          | Err Truncated => Ready (Err (InvalidData, "the datagram did not fit in the supplied buffer"))
          end, s').
Proof.
  intros Hs Hk. unfold wg_socket in Hk. destruct (sockets (inner s) !! us_handle u) as [[|k'|]|] eqn:E; try done.
  injection Hk as ->. unfold WgSockets.recv_from, peek_stack, with_udp, wg_socket. rewrite Hs, E.
  destruct (udp_recv_slice room k) as [[read|[]] k'] eqn:Ek; simpl; eexists;
    (split_and!; [| | reflexivity]); simpl; try done; by rewrite lookup_insert_eq.
Qed.

#[export] Instance wg_datagram_laws : DatagramLaws (StackShared C) WgUdpSocket.
Proof.
  refine {| ds_live u s := is_Some (wg_socket u s); ds_queue := wg_queue |}.
  - intros u room s _. apply wg_recv_stopped.
  - intros u data target s _. apply wg_send_stopped.
  - intros u room s [k Hk] Hs Hq. destruct (wg_recv_running u room s k Hs Hk) as (s' & Hs' & Hk' & Hr).
    unfold wg_queue in *. rewrite Hk in Hq. pose proof (udp_recv_spec room k) as Hu. rewrite Hq in Hu.
    destruct Hu as (k' & Ek & Hq'). rewrite Ek in Hr, Hk'. simpl in *. exists s'.
    split_and!; [done | by eexists | done | by rewrite Hk'].
  - intros u room s data from rest [k Hk] Hs Hq. destruct (wg_recv_running u room s k Hs Hk) as (s' & Hs' & Hk' & Hr).
    unfold wg_queue in *. rewrite Hk in Hq. pose proof (udp_recv_spec room k) as Hu. rewrite Hq in Hu.
    destruct Hu as (k' & Ek & Hq'). rewrite Ek in Hr, Hk'. simpl in *. exists s'.
    split_and!; [by eexists | done | by rewrite Hk' |]. destruct (length data <=? room)%nat; [done | by eexists].
Defined.

End Stack.

(** ** Properties *)

(** a carried device reads past what it cannot hold.  Receiving through
    another tunnel's socket returns the oldest datagram that fits a packet
    buffer, in one call, whatever oversized ones are queued before it; waits
    with the queue empty when none fits; never reports that one did not fit,
    which would end the device's receive task; and fails at once when the
    carrying tunnel has stopped. *)
Theorem carried_receive_skips `{Smoltcp} `{!SmoltcpDatagrams} {C : Type} `{!Channel C Packet} {Sys Os : Type}
    (gotatun : GotatunSocket (StackShared C) Sys) (tokio : OsSocket (StackShared C) Os)
    (fuel room : nat) (u : WgUdpSocket) (s s' : StackShared C) (k : Udp)
    (r : option (Poll (Result Datagram IoError))) :
  wg_socket u s = Some k -> (length (udp_queue k) < fuel)%nat ->
  recv_from gotatun tokio fuel room (Carried u) s = (r, s') ->
  if stopped s then s' = s /\ exists e, r = Some (Ready (Err (BrokenPipe, e)))
  else match first_fitting room (udp_queue k) with
       | Some (dg, rest) => r = Some (Ready (Ok dg)) /\ wg_queue u s' = rest
       | None => r = Some Pending /\ wg_queue u s' = []
       end.
Proof.
  intros Hk Hf E. cbn [recv_from] in E. assert (Hlive : ds_live u s) by (by eexists).
  destruct (stopped s) eqn:Hs.
  - destruct (recv_fitting_closed room u fuel s Hlive Hs ltac:(lia)) as [e Ee]. rewrite Ee in E.
    injection E as <- <-. eauto.
  - assert (Hq : ds_queue u s = udp_queue k) by (simpl; unfold wg_queue; by rewrite Hk).
    pose proof (recv_fitting_first room u _ fuel s Hlive Hs Hq Hf) as Hr.
    destruct (first_fitting room (udp_queue k)) as [[dg rest]|]; destruct Hr as (env' & Er & _ & _ & Hq');
      rewrite Er in E; injection E as <- <-; done.
Qed.

(** A carried tunnel stays inside its carrier.  Whatever is asked of it and
    however often it is bound again, a device with a carrier opens no socket of
    the operating system and marks none: its first bind takes the socket that
    was bound to measure the link, each later one asks the carrier once, for
    the same peer, and all it ever gets are the carrier's sockets. *)
Theorem carried_stays_inside {Sys Os D : Type} (hs : list (BindHost Sys Os D * option Z)) (h : BindHost Sys Os D)
    (mark : option Z) (f f' : TunnelUdpFactory D) (peer : SocketAddr) (d : D) rs events :
  carried_by f = Some {| binding_peer := peer; prebound := Some d |} ->
  binds ((h, mark) :: hs) f = (rs, f', events) ->
  head rs = Some (Ok (Carried d, Carried d)) /\ Forall carried_pair rs
  /\ events = replicate (length hs) (AskedCarrierSocket peer).
Proof.
  intros Hf. cbn [binds]. unfold bind. rewrite Hf. unfold bind_carried. simpl.
  destruct (binds hs _) as [[rs0 f0] more] eqn:E. intros [= <- <- <-].
  apply (rebinds_ask peer) in E as (-> & A2 & A3 & A4); [| done]. split_and!; [done | by constructor | done].
Qed.

(** Tuning never costs a tunnel its socket: a bind that succeeds without it
    succeeds with it, even where the kernel rejects the larger buffer. *)
Theorem tuning_never_refuses {Sys Os D : Type} (h : BindHost Sys Os D) (mark : option Z) (f : TunnelUdpFactory D) :
  is_ok (fst (fst (bind h mark {| tuning := false; bound := bound f; source := source f; carried_by := carried_by f |})))
  = true ->
  is_ok (fst (fst (bind h mark {| tuning := true; bound := bound f; source := source f; carried_by := carried_by f |})))
  = true.
Proof.
  unfold bind. simpl. destruct (carried_by f) as [b|]; [unfold bind_carried; by repeat case_match |].
  destruct (bound f) as [peer|]; unfold bind_bound, bind_system, bind_with_buffer; simpl; [by repeat case_match |].
  destruct (system_bind h None) as [[]|]; [| done]. by repeat case_match.
Qed.

(** ** Examples *)

(** Datagram sockets that are their queues; nothing else is used. *)
#[local] Instance queue_smoltcp : Smoltcp :=
  inert_smoltcp (U := list Datagram) (D := unit) [] (fun _ _ u => (Ok tt, u))
    (fun room u => match u with
       | [] => (Err Exhausted, [])
       | (data, from) :: rest => (if (length data <=? room)%nat then Ok (data, from) else Err Truncated, rest)
       end)
    (fun _ => tt) (fun d => (Err NoFreeSlot, d)) (fun _ d => d).

#[local] Instance queue_datagrams : SmoltcpDatagrams.
Proof. refine {| udp_queue (u : Udp) := u : list Datagram |}. intros room [|[data from] rest]; by eexists. Defined.

Definition sample_peer : SocketAddr := {| sa_ip := V4 192 0 2 1; sa_port := 51820 |}.

Definition sample_socket : WgUdpSocket := {| us_handle := 5; local_port := 49152 |}.

Definition sample_queue : list Datagram := [([1; 2; 3], sample_peer); ([4], sample_peer); ([5], sample_peer)].

Definition sample_udp : @Udp queue_smoltcp := sample_queue.

Definition sample_stack : StackShared (ListChannel Packet) :=
  let s := stack_start {| sc_addresses := []; sc_dns_servers := []; sc_mtu := 1420; sc_proxy_config_id := "outer";
                          sc_download_tuning := false |} (chan_new 1) 0 in
  set_inner (set_sockets {[ 5%nat := SUdp sample_udp ]} (inner s)) s.

Definition no_gotatun : GotatunSocket (StackShared (ListChannel Packet)) False :=
  {| sys_send_to (s : False) := match s with end; sys_max_packets (s : False) := match s with end;
     sys_send_many_to (s : False) := match s with end; sys_recv_from (s : False) := match s with end;
     sys_recv_many_from (s : False) := match s with end; sys_local_addr (s : False) := match s with end;
     sys_set_fwmark (s : False) := match s with end; sys_enable_udp_gro (s : False) := match s with end |}.

Definition no_tokio : OsSocket (StackShared (ListChannel Packet)) False :=
  {| os_send_to (s : False) := match s with end; os_recv_from (s : False) := match s with end;
     os_local_addr (s : False) := match s with end; os_set_mark (s : False) := match s with end |}.

(** The three-byte datagram does not fit in two bytes; the next one does. *)
Lemma carried_receive_skips_witness :
  fst (recv_from no_gotatun no_tokio 4 2 (Carried sample_socket) sample_stack) = Some (Ready (Ok ([4], sample_peer))).
Proof.
  destruct (recv_from no_gotatun no_tokio 4 2 (Carried sample_socket) sample_stack) as [r s'] eqn:E.
  apply (carried_receive_skips no_gotatun no_tokio 4 2 sample_socket sample_stack s' sample_udp r) in E;
    [exact (proj1 E) | reflexivity | vm_compute; lia].
Defined.

Definition sample_bind_host : BindHost unit unit nat :=
  {| carrier_bind _ := Ok 2%nat; carrier_addr _ := None; factory_bind _ := Ok tt; os_mark _ _ := Ok tt;
     os_nonblocking _ := Ok tt; os_addr _ := Ok sample_peer; os_adopt s := Ok s;
     system_bind size := match size with Some _ => Err (OtherIo, "no") | None => Ok (tt, tt) end;
     system_addr _ := Ok sample_peer |}.

Definition sample_factory : TunnelUdpFactory nat :=
  {| tuning := true; bound := Some sample_peer; source := None;
     carried_by := Some {| binding_peer := sample_peer; prebound := Some 1%nat |} |}.

Lemma carried_stays_inside_witness :
  snd (binds [(sample_bind_host, Some 7); (sample_bind_host, None)] sample_factory) = [AskedCarrierSocket sample_peer].
Proof.
  destruct (binds [(sample_bind_host, Some 7); (sample_bind_host, None)] sample_factory) as [[rs f'] events] eqn:E.
  apply (carried_stays_inside [(sample_bind_host, None)] sample_bind_host (Some 7) sample_factory f' sample_peer 1%nat
           rs events eq_refl E).
Defined.

Lemma tuning_never_refuses_witness :
  is_ok (fst (fst (bind sample_bind_host None
    {| tuning := true; bound := None; source := None; carried_by := None |}))) = true.
Proof.
  exact (tuning_never_refuses sample_bind_host None {| tuning := true; bound := None; source := None; carried_by := None |}
           eq_refl).
Defined.
