(* ===== verification/WgResolve.v ===== *)
(** * Names through the tunnel ([WgStack::resolve], [WgStack::query])

    The resolver socket's operations on the stack, and the decision procedure
    around them: what is answered without asking anyone, what is refused, and
    which questions are put to the tunnel's resolvers in which order and
    within which budget.  A query's answer and the time it took are the
    environment's, read from an oracle. *)

From Stdlib Require Import ZArith Lia String Ascii.
From stdpp Require Import gmap strings numbers prelude.
From S2P Require Import Prelude TextFacts Net NetFacts Errors Runtime Provider WgSpec WgLink WgStack WgSockets.

Open Scope string_scope.
Open Scope Z_scope.

#[local] Arguments String.append : simpl nomatch.

Definition resolve_failure (host detail : string) : TunnelError := Dial host 53 detail.

(** ** One query *)

Section Query.
Context `{Smoltcp} {C : Type} `{!Channel C Packet}.
Notation Stack := (StackShared C).

Definition with_dns {R} (d : R) (f : Dns -> R * Dns) (i : StackInner C) : R * StackInner C :=
  match dns i with
  | Some h =>
      match sockets i !! h with
      | Some (SDns k) => let '(r, k) := f k in (r, set_sockets (<[h := SDns k]> (sockets i)) i)
      | _ => (d, panic i)
      end
  | None => (d, panic i)
  end.

Definition start_query (host : string) (kind : DnsQueryType) (s : Stack)
  : Result nat TunnelError * Stack :=
  let '(started, s) :=
    with_stack (fun i => with_dns (Err NoFreeSlot) (dns_start_query (iface i) host kind) i) s in
  (map_err (fun e => resolve_failure host
     match e with
     | NoFreeSlot => "the tunnel has too many DNS queries in flight"
     | InvalidName => "the name is not a valid host name"
     | NameTooLong => "the name is too long for DNS"
     end) started, s).

(** One poll of a running query; a pending one registers its waker with the
    resolver. *)
Definition poll_query (q : nat) (s : Stack) : Poll (Result (list IpAddr) unit) * Stack :=
  peek_stack (fun i =>
    let '(r, i) := with_dns QueryFailed (dns_query_result q) i in
    match r with
    | QueryAnswered addresses => (Ready (Ok addresses), i)
    | QueryPending => (Pending, i)
    | QueryFailed => (Ready (Err tt), i)
    end) s.

(** [QueryGuard::drop] of a query that never produced a result. *)
Definition cancel_query (q : nat) (s : Stack) : Stack :=
  snd (with_stack (fun i =>
    match dns i with
    | Some _ => with_dns tt (fun k => (tt, dns_cancel_query q k)) i
    | None => (tt, i)
    end) s).

(** How the wait for an answer ended; [None] is the deadline. *)
Definition finish_query (host : string) (q : nat) (answered : option (Result (list IpAddr) unit)) (s : Stack)
  : Result (list IpAddr) TunnelError * Stack :=
  match answered with
  | Some (Ok addresses) => (Ok addresses, s)
  | Some (Err _) => (Err (resolve_failure host "the tunnel's DNS server does not know this name"), s)
  | None =>
      (Err (resolve_failure host "the tunnel's DNS server did not answer in time"), cancel_query q s)
  end.

(** [WgStack::query]: a slot of the resolver, then the question, then its
    answer; how long either wait takes is the environment's. *)
Inductive SlotWait : Type := SlotAcquired | SlotTimedOut | SlotClosed.

Definition query (host : string) (kind : DnsQueryType) (slot : SlotWait)
    (answered : option (Result (list IpAddr) unit)) (s : Stack)
  : Result (list IpAddr) TunnelError * Stack :=
  match slot with
  | SlotTimedOut => (Err (resolve_failure host "timed out waiting for a tunnel DNS slot"), s)
  | SlotClosed => (Err (resolve_failure host "the tunnel resolver stopped"), s)
  | SlotAcquired =>
      match start_query host kind s with
      | (Err e, s) => (Err e, s)
      | (Ok q, s) => finish_query host q answered s
      end
  end.

End Query.

(** ** Resolving a name *)

Definition LOCALHOST_MESSAGE : string :=
  "`localhost` cannot be resolved through a WireGuard tunnel: it would name this machine, not the far side; use the far side's tunnel address instead".

Definition NO_DNS_MESSAGE : string :=
  "the tunnel has no DNS server configured, so names cannot be resolved on the far side; add the `DNS` line from the WireGuard configuration, or address the destination by IP".

Definition is_localhost (host : string) : bool :=
  let lowercase := to_ascii_lowercase host in
  String.eqb lowercase "localhost" || ends_with ".localhost" lowercase.

(** An IP literal, bare or bracketed. *)
Definition literal (host : string) : option IpAddr :=
  match parse_ip host with
  | Some ip => Some ip
  | None =>
      match strip_prefix "[" host with
      | Some h => match strip_suffix "]" h with Some inner => parse_ip inner | None => None end
      | None => None
      end
  end.

Definition query_order (c : StackConfig) : list DnsQueryType :=
  ((if config_has_ipv4 c then [QA] else []) ++ (if config_has_ipv6 c then [QAaaa] else []))%list.

Section Resolve.
(** The answer to a question asked with [remaining] time left, and how long
    it took. *)
Variable answer : string -> DnsQueryType -> Duration -> Result (list IpAddr) TunnelError * Duration.

(** The loop over the families; the list is the questions asked, with the
    time each was given. *)
Fixpoint ask_all (host : string) (order : list DnsQueryType) (timeout now : Duration)
    (last_error : option TunnelError)
  : Result (list IpAddr) (option TunnelError) * list (DnsQueryType * Duration) :=
  match order with
  | [] => (Err last_error, [])
  | kind :: order =>
      let remaining := saturating_sub timeout now in
      if remaining =? 0 then (Err last_error, [])
      else
        let '(r, took) := answer host kind remaining in
        match r with
        | Ok (a :: rest) => (Ok (a :: rest), [(kind, remaining)])
        | Ok [] =>
            let '(r, asked) := ask_all host order timeout (now + took) last_error in
            (r, (kind, remaining) :: asked)
        | Err error =>
            let '(r, asked) := ask_all host order timeout (now + took) (Some error) in
            (r, (kind, remaining) :: asked)
        end
  end.

Definition resolve (c : StackConfig) (host : string) (timeout : Duration)
  : Result (list IpAddr) TunnelError * list (DnsQueryType * Duration) :=
  let host := trim_end_matches "." (trim host) in
  match literal host with
  | Some ip => (Ok [ip], [])
  | None =>
      if is_localhost host then (Err (Configuration LOCALHOST_MESSAGE), [])
      else if bool_decide (sc_dns_servers c = []) then (Err (Configuration NO_DNS_MESSAGE), [])
      else
        let '(r, asked) := ask_all host (query_order c) timeout 0 None in
        (map_err (fun last => match last with
           | Some e => e
           | None => resolve_failure host "the tunnel's DNS server returned no address for this name"
           end) r, asked)
  end.

End Resolve.

(** ** Literals are answered without asking *)

Lemma srev_app_app a b acc : srev_app (a ++ b) acc = srev_app b (srev_app a acc).
Proof. revert acc. induction a as [|c a IH]; intros acc; simpl; [done | apply IH]. Qed.

Lemma srev_app_acc a acc : srev_app a acc = srev a ++ acc.
Proof.
  unfold srev. revert acc. induction a as [|c a IH]; intros acc; simpl; [done |].
  rewrite IH, (IH (String c "")). rewrite append_assoc. done.
Qed.

Lemma srev_append a b : srev (a ++ b) = srev b ++ srev a.
Proof. unfold srev. rewrite srev_app_app. apply srev_app_acc. Qed.

Lemma srev_involutive a : srev (srev a) = a.
Proof.
  induction a as [|c a IH]; [done |]. unfold srev at 2. simpl. rewrite srev_app_acc, srev_append, IH. done.
Qed.

Lemma srev_nonempty a : a <> "" -> srev a <> "".
Proof. intros Ha E. apply Ha. rewrite <- (srev_involutive a), E. done. Qed.

Lemma no_char_srev c a : no_char c (srev a) = no_char c a.
Proof.
  induction a as [|d a IH]; [done |]. unfold srev. simpl. rewrite srev_app_acc, no_char_app, IH.
  simpl. by rewrite andb_true_r, andb_comm.
Qed.

(** Text whose end has no [c] keeps it. *)
Lemma trim_end_keeps c a b : b <> "" -> no_char c b = true -> trim_end_matches c (a ++ b) = a ++ b.
Proof.
  intros Hb Hn. unfold trim_end_matches. rewrite srev_append.
  assert (Hs : trim_start_matches c (srev b ++ srev a) = srev b ++ srev a).
  { pose proof (srev_nonempty b Hb). rewrite <- no_char_srev in Hn.
    destruct (srev b) as [|d r]; [done |]. simpl in *. apply andb_true_iff in Hn as [Hd _].
    apply negb_true_iff in Hd. by rewrite Hd. }
  rewrite Hs, srev_append. by rewrite !srev_involutive.
Qed.

Lemma show_ip_no_trailing_dot ip : wf_ip ip -> trim_end_matches "." (show_ip ip) = show_ip ip.
Proof.
  intros Hw. assert (Hd : forall n, show n <> "" /\ no_char "." (show n) = true).
  { intros n. split; [apply show_radix_nonempty | apply show_dec_no_char; by left]. }
  assert (H4 : forall p a b c d, trim_end_matches "." (p ++ show_v4 a b c d) = p ++ show_v4 a b c d).
  { intros p a b c d. unfold show_v4. rewrite <- !append_assoc.
    destruct (Hd d). by apply trim_end_keeps. }
  destruct ip as [a b c d | s0 s1 s2 s3 s4 s5 s6 s7]; [apply (H4 "") |].
  pose proof (show_ip_nonempty _ Hw) as Hne. unfold show_ip, show_v6 in *.
  destruct (to_ipv4_mapped _) as [[[[a b] c] d]|]; [apply (H4 "::ffff:") |].
  apply (trim_end_keeps "." ""); [done |].
  case_match; rewrite ?no_char_app, !fmt_subslice_text, !groups_text_no_dot; done.
Qed.

Lemma trim_show_ip w w' ip :
  blank_text w -> blank_text w' -> wf_ip ip -> trim (w ++ show_ip ip ++ w') = show_ip ip.
Proof.
  intros Hw Hw' Hip. apply trim_pad; [done | done | | by apply show_ip_nonempty].
  apply graphic_framed, show_ip_graphic.
Qed.

Definition bracketed (ip : IpAddr) : string := "[" ++ show_ip ip ++ "]".

Lemma literal_show ip : wf_ip ip -> literal (show_ip ip) = Some ip.
Proof. intros Hw. unfold literal. by rewrite parse_show_ip. Qed.

Lemma parse_ip_bracket s : parse_ip (String "[" s) = None.
Proof. reflexivity. Qed.

Lemma strip_suffix_app c s : strip_suffix c (s ++ String c "") = Some s.
Proof.
  unfold strip_suffix. rewrite srev_append. simpl. rewrite Ascii.eqb_refl. simpl. by rewrite srev_involutive.
Qed.

Lemma literal_bracketed ip : wf_ip ip -> literal (bracketed ip) = Some ip.
Proof.
  intros Hw. unfold literal, bracketed. change ("[" ++ show_ip ip ++ "]") with (String "[" (show_ip ip ++ "]")).
  rewrite parse_ip_bracket. cbn [strip_prefix]. rewrite Ascii.eqb_refl, strip_suffix_app.
  by apply parse_show_ip.
Qed.

(** An address is its own answer.  Whatever the resolvers say and even
    with none configured, an IP literal of either family, bare or bracketed
    and whatever blanks surround it, resolves to exactly itself and no query
    leaves the machine. *)
Theorem resolve_literal answer (c : StackConfig) (w w' : string) (ip : IpAddr) (timeout : Duration) :
  blank_text w -> blank_text w' -> wf_ip ip ->
  resolve answer c (w ++ show_ip ip ++ w') timeout = (Ok [ip], [])
  /\ resolve answer c (w ++ bracketed ip ++ w') timeout = (Ok [ip], []).
Proof.
  intros Hw Hw' Hip. unfold resolve. split.
  - rewrite trim_show_ip, show_ip_no_trailing_dot by done. by rewrite literal_show.
  - assert (Ht : trim (w ++ bracketed ip ++ w') = bracketed ip).
    { apply trim_pad; [done | done | | done]. apply graphic_framed. unfold bracketed.
      apply graphic_text_app; [decide_text |]. apply graphic_text_app; [apply show_ip_graphic | decide_text]. }
    rewrite Ht.
    assert (Hd : trim_end_matches "." (bracketed ip) = bracketed ip).
    { unfold bracketed. rewrite <- append_assoc. by apply trim_end_keeps. }
    rewrite Hd. by rewrite literal_bracketed.
Qed.

Definition sample_config : StackConfig := {|
  sc_addresses := [cidr_host (V4 10 6 0 2)]; sc_dns_servers := []; sc_mtu := 1280;
  sc_proxy_config_id := "p1"; sc_download_tuning := false |}.

Definition no_answer (host : string) (kind : DnsQueryType) (remaining : Duration)
  : Result (list IpAddr) TunnelError * Duration := (Err (resolve_failure host "silence"), Z.max 0 remaining).

Lemma resolve_literal_witness :
  resolve no_answer sample_config (" " ++ show_ip (V4 10 0 0 1) ++ "") 5 = (Ok [V4 10 0 0 1], [])
  /\ resolve no_answer sample_config (" " ++ bracketed (V4 10 0 0 1) ++ "") 5 = (Ok [V4 10 0 0 1], []).
Proof.
  apply (resolve_literal no_answer sample_config " " "" (V4 10 0 0 1) 5); [decide_text | decide_text |].
  unfold wf_ip, u8, in_uint. lia.
Defined.

(** ** What is asked *)

Section Asked.
Variable answer : string -> DnsQueryType -> Duration -> Result (list IpAddr) TunnelError * Duration.
Hypothesis takes_time : forall host kind remaining, 0 <= snd (answer host kind remaining).

Lemma ask_all_asked host timeout order : forall now last_error r asked,
  0 <= now -> ask_all answer host order timeout now last_error = (r, asked) ->
  asked.*1 `prefix_of` order
  /\ Forall (fun q => 0 < q.2 <= saturating_sub timeout now) asked
  /\ match r with
     | Ok addresses =>
         addresses <> [] /\ exists kind remaining,
           last asked = Some (kind, remaining) /\ fst (answer host kind remaining) = Ok addresses
     | Err e => forall q, q ∈ asked -> forall a rest, fst (answer host q.1 q.2) <> Ok (a :: rest)
     end.
Proof.
  induction order as [|kind order IH]; intros now last_error r asked Hnow; simpl.
  - intros [= <- <-]. split_and!; [done | constructor | set_solver].
  - destruct (Z.eqb_spec (saturating_sub timeout now) 0) as [Hz | Hz].
    { intros [= <- <-]. split_and!; [by exists (kind :: order) | constructor | set_solver]. }
    assert (Hpos : 0 < saturating_sub timeout now) by (unfold saturating_sub in *; lia).
    pose proof (takes_time host kind (saturating_sub timeout now)) as Ht.
    destruct (answer host kind (saturating_sub timeout now)) as [a took] eqn:Ea. simpl in Ht.
    assert (Hstep : forall le r asked, ask_all answer host order timeout (now + took) le = (r, asked) ->
      (forall x rest, a <> Ok (x :: rest)) ->
      (kind :: asked.*1) `prefix_of` (kind :: order)
      /\ Forall (fun q => 0 < q.2 <= saturating_sub timeout now) ((kind, saturating_sub timeout now) :: asked)
      /\ match r with
         | Ok addresses =>
             addresses <> [] /\ exists k remaining,
               last ((kind, saturating_sub timeout now) :: asked) = Some (k, remaining)
               /\ fst (answer host k remaining) = Ok addresses
         | Err e => forall q, q ∈ ((kind, saturating_sub timeout now) :: asked) ->
                    forall x rest, fst (answer host q.1 q.2) <> Ok (x :: rest)
         end).
    { intros le r' asked' E Hna. destruct (IH (now + took) _ _ _ ltac:(lia) E) as (Hp & Hf & Hr).
      split_and!.
      - by apply prefix_cons.
      - constructor; [simpl; lia |]. eapply Forall_impl; [exact Hf |]. intros q Hq. simpl in Hq.
        unfold saturating_sub in *. lia.
      - destruct r' as [addresses | e].
        + destruct Hr as (Hne & k & rem & Hl & Hq). split; [done |]. exists k, rem. split; [| done].
          destruct asked'; [done |]. exact Hl.
        + intros q [-> | Hq]%elem_of_cons; [simpl; rewrite Ea; apply Hna | by apply Hr]. }
    destruct a as [[|x rest] | error].
    + destruct (ask_all _ _ order _ _ last_error) as [r' asked'] eqn:E. intros [= <- <-].
      apply (Hstep _ _ _ E). done.
    + intros [= <- <-]. split_and!.
      * apply prefix_cons. apply prefix_nil.
      * constructor; [simpl; lia | constructor].
      * done.
      * exists kind, (saturating_sub timeout now). by rewrite Ea.
    + destruct (ask_all _ _ order _ _ (Some error)) as [r' asked'] eqn:E. intros [= <- <-].
      apply (Hstep _ _ _ E). done.
Qed.

End Asked.

(** What a lookup asks.  Questions go to the tunnel's resolvers only: for
    no name that means this machine and with no resolver configured none is
    asked; otherwise A before AAAA, only for families the interface has an
    address in, each with what is left of the budget, and never with nothing
    left.  An answer is non-empty and is the literal itself or the last
    question's answer; a failure means no question was answered with an
    address. *)
Theorem resolve_questions answer (c : StackConfig) (host : string) (timeout : Duration)
    (r : Result (list IpAddr) TunnelError) (asked : list (DnsQueryType * Duration)) :
  (forall h k remaining, 0 <= snd (answer h k remaining)) ->
  resolve answer c host timeout = (r, asked) ->
  let name := trim_end_matches "." (trim host) in
  asked.*1 `prefix_of` query_order c
  /\ Forall (fun q => 0 < q.2 <= timeout) asked
  /\ (literal name <> None \/ is_localhost name = true \/ sc_dns_servers c = [] -> asked = [])
  /\ match r with
     | Ok addresses =>
         addresses <> [] /\
         ((exists ip, literal name = Some ip /\ addresses = [ip])
          \/ (literal name = None /\ is_localhost name = false
              /\ exists k remaining, last asked = Some (k, remaining)
                   /\ fst (answer name k remaining) = Ok addresses))
     | Err e =>
         literal name = None
         /\ (is_localhost name = true -> e = Configuration LOCALHOST_MESSAGE)
         /\ forall q, q ∈ asked -> forall a rest, fst (answer name q.1 q.2) <> Ok (a :: rest)
     end.
Proof.
  intros Ht. unfold resolve. cbn zeta. set (name := trim_end_matches "." (trim host)).
  destruct (literal name) as [ip|] eqn:El.
  { intros [= <- <-]. split_and!; [by apply prefix_nil | constructor | done | done | left; by exists ip]. }
  destruct (is_localhost name) eqn:Eh.
  { intros [= <- <-]. split_and!; [by apply prefix_nil | constructor | done | done | done | set_solver]. }
  case_bool_decide as Ed.
  { intros [= <- <-]. split_and!; [by apply prefix_nil | constructor | done | done | done | set_solver]. }
  destruct (ask_all answer name (query_order c) timeout 0 None) as [r' asked'] eqn:E. intros [= <- <-].
  destruct (ask_all_asked answer Ht _ _ _ _ _ _ _ (Z.le_refl 0) E) as (Hp & Hf & Hr). split_and!.
  - done.
  - eapply Forall_impl; [exact Hf |]. intros q Hq. simpl in Hq. unfold saturating_sub in Hq. lia.
  - intros [? | [? | ?]]; done.
  - destruct r' as [addresses | e]; simpl; [destruct Hr as (Hne & k & rem & Hl & Ha) |].
    + split; [done |]. right. split_and!; [done | done |]. by exists k, rem.
    + split_and!; [done | done | exact Hr].
Qed.

Definition resolving_config : StackConfig := {|
  sc_addresses := [cidr_host (V4 10 6 0 2)]; sc_dns_servers := [V4 10 6 0 1]; sc_mtu := 1280;
  sc_proxy_config_id := "p1"; sc_download_tuning := false |}.

Lemma resolve_questions_witness :
  snd (resolve no_answer resolving_config "indexer.example." 5) = [(QA, 5)]
  /\ Forall (fun q => 0 < q.2 <= 5) (snd (resolve no_answer resolving_config "indexer.example." 5)).
Proof.
  split; [vm_compute; reflexivity |].
  destruct (resolve_questions no_answer resolving_config "indexer.example." 5
              (fst (resolve no_answer resolving_config "indexer.example." 5))
              (snd (resolve no_answer resolving_config "indexer.example." 5))) as (_ & Hf & _).
  - intros h k remaining. simpl. lia.
  - apply surjective_pairing.
  - exact Hf.
Defined.
