(* ===== verification/WgDns.v ===== *)
(** * Concurrent lookups ([WgStack::query], [QueryGuard])

    [WgResolve] has one lookup; here any number run at once on one stack.  The
    resolver has [DNS_QUERY_SLOTS] query slots, and a semaphore of as many
    permits stands in front of it.  A lookup waits for a permit, asks, polls,
    and leaves: its guard gives the query slot back (unless an answer already
    did), and then its permit goes.  Others run between any two of these. *)

From Stdlib Require Import ZArith Lia String Ascii.
From stdpp Require Import gmap strings numbers prelude.
From S2P Require Import Prelude Net Errors Runtime Provider WgSpec WgLink WgStack WgResolve.

Open Scope string_scope.
Open Scope nat_scope.

(** What smoltcp's resolver socket does with its slots: [dns_busy] are the
    queries it holds, [dns_capacity] how many it was given room for. *)
Class SmoltcpDns `{Smoltcp} : Type := {
  dns_busy : Dns -> gset nat;
  dns_capacity : Dns -> nat;
  dns_new_busy servers n : dns_busy (dns_new servers n) = ∅;
  dns_new_capacity servers n : dns_capacity (dns_new servers n) = n;
  dns_started i host kind d q d' :
    dns_start_query i host kind d = (Ok q, d') ->
    q ∉ dns_busy d /\ dns_busy d' = {[q]} ∪ dns_busy d /\ dns_capacity d' = dns_capacity d;
  dns_refused i host kind d e d' :
    dns_start_query i host kind d = (Err e, d') ->
    dns_busy d' = dns_busy d /\ dns_capacity d' = dns_capacity d
    /\ (e = NoFreeSlot -> dns_capacity d <= size (dns_busy d));
  dns_resulted q d r d' :
    dns_query_result q d = (r, d') -> q ∈ dns_busy d ->
    dns_capacity d' = dns_capacity d
    /\ dns_busy d' = match r with QueryPending => dns_busy d | _ => dns_busy d ∖ {[q]} end;
  dns_cancelled q d :
    q ∈ dns_busy d ->
    dns_busy (dns_cancel_query q d) = dns_busy d ∖ {[q]} /\ dns_capacity (dns_cancel_query q d) = dns_capacity d
}.

Section Lookups.
Context `{Smoltcp, !SmoltcpDns} {C : Type} `{!Channel C Packet} {S : Type} `{!Semaphore S}.
Notation Stack := (StackShared C).

(** A call of [query] between two of its steps.  [Granted] to [Leaving] hold a
    permit, [Asked] a query slot as well. *)
Inductive Lookup : Type :=
| AwaitingSlot (host : string) (kind : DnsQueryType)
| Granted (host : string) (kind : DnsQueryType)
| Asked (host : string) (q : nat)
| Leaving (r : Result (list IpAddr) TunnelError)
| Returned (r : Result (list IpAddr) TunnelError).

Record Lookups : Type := { stack : Stack; dns_slots : S; lookups : list Lookup }.

Definition lookups_new (s : Stack) : Lookups :=
  {| stack := s; dns_slots := sem_new DNS_QUERY_SLOTS; lookups := [] |}.

Definition set_lookup (i : nat) (l : Lookup) (s : Stack) (sem : S) (w : Lookups) : Lookups :=
  {| stack := s; dns_slots := sem; lookups := <[i := l]> (lookups w) |}.

(** The question, once its permit is there; nothing is awaited in between. *)
Definition ask (host : string) (kind : DnsQueryType) (s : Stack) : Lookup * Stack :=
  match start_query host kind s with
  | (Err e, s) => (Leaving (Err e), s)
  | (Ok q, s) => (Asked host q, s)
  end.

(** The answer, or the deadline ([None]); a call dropped at its wait runs the
    guard too. *)
Definition conclude (host : string) (q : nat) (answered : option (Result (list IpAddr) unit)) (s : Stack)
  : Lookup * Stack :=
  let '(r, s) := finish_query host q answered s in (Leaving r, s).

(** What the pump and the other sockets of the stack may do meanwhile: they
    answer queries, but start and free none. *)
Definition others (s s' : Stack) : Prop :=
  dns (inner s') = dns (inner s) /\ panicked (inner s') = panicked (inner s)
  /\ forall h d, dns (inner s) = Some h -> sockets (inner s) !! h = Some (SDns d) ->
       exists d', sockets (inner s') !! h = Some (SDns d')
         /\ dns_busy d' = dns_busy d /\ dns_capacity d' = dns_capacity d.

Inductive lookup_step : Lookups -> Lookups -> Prop :=
| lk_begin host kind w :
    lookup_step w {| stack := stack w; dns_slots := dns_slots w; lookups := lookups w ++ [AwaitingSlot host kind] |}
| lk_grant i host kind sem w :
    lookups w !! i = Some (AwaitingSlot host kind) -> sem_try_acquire (dns_slots w) = Some sem ->
    lookup_step w (set_lookup i (Granted host kind) (stack w) sem w)
| lk_no_slot i host kind w :
    lookups w !! i = Some (AwaitingSlot host kind) ->
    lookup_step w (set_lookup i (Returned (Err (resolve_failure host "timed out waiting for a tunnel DNS slot")))
      (stack w) (dns_slots w) w)
| lk_ask i host kind l s w :
    lookups w !! i = Some (Granted host kind) -> ask host kind (stack w) = (l, s) ->
    lookup_step w (set_lookup i l s (dns_slots w) w)
| lk_pending i host q s w :
    lookups w !! i = Some (Asked host q) -> poll_query q (stack w) = (Pending, s) ->
    lookup_step w (set_lookup i (Asked host q) s (dns_slots w) w)
| lk_answered i host q a s l s' w :
    lookups w !! i = Some (Asked host q) -> poll_query q (stack w) = (Ready a, s) ->
    conclude host q (Some a) s = (l, s') -> lookup_step w (set_lookup i l s' (dns_slots w) w)
| lk_expired i host q l s w :
    lookups w !! i = Some (Asked host q) -> conclude host q None (stack w) = (l, s) ->
    lookup_step w (set_lookup i l s (dns_slots w) w)
| lk_leave i r w :
    lookups w !! i = Some (Leaving r) ->
    lookup_step w (set_lookup i (Returned r) (stack w) (sem_release (dns_slots w)) w)
| lk_others s w :
    others (stack w) s -> lookup_step w {| stack := s; dns_slots := dns_slots w; lookups := lookups w |}.

(** ** The invariant *)

Definition permit (l : Lookup) : nat := match l with Granted _ _ | Asked _ _ | Leaving _ => 1 | _ => 0 end.

Definition slot_of (l : Lookup) : list nat := match l with Asked _ q => [q] | _ => [] end.

Definition asked (w : Lookups) : list nat := lookups w ≫= slot_of.

Definition resolver (i : StackInner C) : option Dns :=
  h ← dns i; match sockets i !! h with Some (SDns d) => Some d | _ => None end.

Definition too_many (host : string) : TunnelError :=
  resolve_failure host "the tunnel has too many DNS queries in flight".

(** What a lookup reports is never a full resolver. *)
Definition not_full (l : Lookup) : Prop :=
  match l with Leaving r | Returned r => forall host, r <> Err (too_many host) | _ => True end.

(** The resolver's slots are exactly those lookups wait on, each its own, and
    every permit is accounted for. *)
Record lookups_inv (w : Lookups) : Prop := {
  li_calm : panicked (inner (stack w)) = false;
  li_busy : exists d, resolver (inner (stack w)) = Some d /\ dns_capacity d = DNS_QUERY_SLOTS
              /\ forall q, q ∈ dns_busy d <-> q ∈ asked w;
  li_apart : NoDup (asked w);
  li_permits : sem_available (dns_slots w) + sum_list_with permit (lookups w) = DNS_QUERY_SLOTS;
  li_reports : Forall not_full (lookups w)
}.

Lemma with_dns_run {R} (r0 : R) f i d r d' :
  resolver i = Some d -> f d = (r, d') ->
  exists i', with_dns r0 f i = (r, i') /\ resolver i' = Some d' /\ panicked i' = panicked i /\ dns i' = dns i.
Proof.
  unfold resolver, with_dns. intros (h & Hh & Hd)%bind_Some Hf. rewrite Hh.
  destruct (sockets i !! h) as [[| |d0]|] eqn:E; try done. injection Hd as ->. rewrite Hf.
  eexists. split; [done |]. simpl. split; [| done]. rewrite Hh. simpl. by rewrite lookup_insert_eq.
Qed.

(** What each operation of a lookup does to the resolver. *)
Lemma ask_run host kind s d l s' :
  resolver (inner s) = Some d -> ask host kind s = (l, s') ->
  panicked (inner s') = panicked (inner s)
  /\ exists d', resolver (inner s') = Some d' /\ dns_capacity d' = dns_capacity d
    /\ ((exists q, l = Asked host q /\ q ∉ dns_busy d /\ dns_busy d' = {[q]} ∪ dns_busy d)
        \/ (exists r, l = Leaving r /\ dns_busy d' = dns_busy d
             /\ (size (dns_busy d) < dns_capacity d -> not_full l))).
Proof.
  intros Hd. unfold ask, start_query, with_stack.
  destruct (dns_start_query (iface (inner s)) host kind d) as [r d'] eqn:E.
  destruct (with_dns_run (Err NoFreeSlot) (dns_start_query (iface (inner s)) host kind) (inner s) d r d' Hd E)
    as (i' & -> & Hi & Hp & _).
  destruct r as [q|e]; simpl; intros [= <- <-]; (split; [done |]); exists d'.
  - apply dns_started in E as (E1 & E2 & E3). split_and!; [done | done |]. left. eauto.
  - apply dns_refused in E as (E1 & E2 & E3). split_and!; [done | done |]. right. eexists. split_and!; [done | done |].
    intros Hlt host'. destruct e; simpl; [specialize (E3 eq_refl); lia | |]; by intros [= _].
Qed.

Lemma poll_run q s d r s' :
  resolver (inner s) = Some d -> q ∈ dns_busy d -> poll_query q s = (r, s') ->
  panicked (inner s') = panicked (inner s)
  /\ exists d', resolver (inner s') = Some d' /\ dns_capacity d' = dns_capacity d
    /\ dns_busy d' = match r with Pending => dns_busy d | Ready _ => dns_busy d ∖ {[q]} end.
Proof.
  intros Hd Hq. unfold poll_query, peek_stack. destruct (dns_query_result q d) as [x d'] eqn:E.
  destruct (with_dns_run QueryFailed (dns_query_result q) (inner s) d x d' Hd E) as (i' & -> & Hi & Hp & _).
  apply dns_resulted in E as [E1 E2]; [| done].
  destruct x; intros [= <- <-]; (split; [done |]); exists d'; done.
Qed.

Lemma cancel_run q s d :
  resolver (inner s) = Some d -> q ∈ dns_busy d ->
  panicked (inner (cancel_query q s)) = panicked (inner s)
  /\ exists d', resolver (inner (cancel_query q s)) = Some d' /\ dns_capacity d' = dns_capacity d
    /\ dns_busy d' = dns_busy d ∖ {[q]}.
Proof.
  intros Hd Hq. unfold cancel_query, with_stack.
  destruct (dns (inner s)) as [h|] eqn:Eh; [| unfold resolver in Hd; by rewrite Eh in Hd].
  destruct (with_dns_run tt (fun k => (tt, dns_cancel_query q k)) (inner s) d tt (dns_cancel_query q d) Hd eq_refl)
    as (i' & -> & Hi & Hp & _). simpl.
  destruct (dns_cancelled q d Hq) as [E1 E2]. split; [done |]. by exists (dns_cancel_query q d).
Qed.

Context `{!SemaphoreLaws S}.

(** The slots lookups hold, after one of them moved on. *)
Lemma asked_set i l0 l s sem w :
  lookups w !! i = Some l0 -> asked (set_lookup i l s sem w) ++ slot_of l0 ≡ₚ asked w ++ slot_of l.
Proof. apply bind_insert_perm. Qed.

(** A lookup moves on: the resolver's slots and the permits follow. *)
Lemma set_lookup_inv i l0 l s sem w :
  lookups_inv w -> lookups w !! i = Some l0 -> panicked (inner s) = panicked (inner (stack w)) ->
  (forall d, resolver (inner (stack w)) = Some d -> dns_capacity d = DNS_QUERY_SLOTS ->
     (forall q, q ∈ dns_busy d <-> q ∈ asked w) ->
     exists d', resolver (inner s) = Some d' /\ dns_capacity d' = dns_capacity d
       /\ ((slot_of l0 = slot_of l /\ dns_busy d' = dns_busy d)
           \/ (exists q, slot_of l0 = [] /\ slot_of l = [q] /\ q ∉ dns_busy d /\ dns_busy d' = {[q]} ∪ dns_busy d)
           \/ (exists q, slot_of l0 = [q] /\ slot_of l = [] /\ dns_busy d' = dns_busy d ∖ {[q]}))) ->
  sem_available sem + permit l = sem_available (dns_slots w) + permit l0 -> not_full l ->
  lookups_inv (set_lookup i l s sem w).
Proof.
  intros [H1 (d & Hd & Hcap & Hbusy) H3 H4 H5] Hi Hpan Hres Hperm Hnf.
  destruct (Hres d Hd Hcap Hbusy) as (d' & Hd' & Hc' & Hcase). pose proof (asked_set i l0 l s sem w Hi) as Hp.
  assert (Hslots : NoDup (asked (set_lookup i l s sem w))
    /\ forall q, q ∈ dns_busy d' <-> q ∈ asked (set_lookup i l s sem w)).
  { destruct Hcase as [[E Eb] | [(q & E0 & E & Hq & Eb) | (q & E0 & E & Eb)]]; rewrite ?E0, ?E in Hp.
    - apply (Permutation_app_inv_r) in Hp. rewrite Hp, Eb. split; [done |]. intros q. by rewrite Hp.
    - rewrite app_nil_r in Hp. split.
      + rewrite Hp. apply NoDup_app. split_and!; [done | | apply NoDup_singleton].
        intros x Hx ->%list_elem_of_singleton. by apply Hq, Hbusy.
      + intros x. rewrite Hp, Eb, elem_of_union, elem_of_app, elem_of_singleton, list_elem_of_singleton, Hbusy. tauto.
    - rewrite app_nil_r in Hp. assert (Hnd : NoDup (asked (set_lookup i l s sem w) ++ [q])) by by rewrite Hp.
      apply NoDup_app in Hnd as (Hnd & Hq & _). split; [done |].
      intros x. rewrite Eb, elem_of_difference, elem_of_singleton, Hbusy, <- Hp, elem_of_app, list_elem_of_singleton.
      split; [tauto |]. intros Hx. split; [by left |]. intros ->. apply (Hq q Hx). by apply list_elem_of_singleton. }
  destruct Hslots as [N B]. split; simpl; [congruence | exists d'; split_and!; [done | congruence | exact B] | exact N | |].
  - pose proof (sum_list_with_insert permit (lookups w) i l0 l Hi). lia.
  - by apply Forall_insert.
Qed.

Lemma busy_size w d : NoDup (asked w) -> (forall q, q ∈ dns_busy d <-> q ∈ asked w) -> size (dns_busy d) = length (asked w).
Proof.
  intros Hn Hb. replace (dns_busy d) with (list_to_set (asked w) : gset nat); [by apply size_list_to_set |].
  apply set_eq. intros q. by rewrite elem_of_list_to_set, Hb.
Qed.

Lemma slot_permit (ls : list Lookup) : length (ls ≫= slot_of) <= sum_list_with permit ls.
Proof. induction ls as [|l ls IH]; [simpl; lia |]. rewrite bind_cons, length_app. simpl. destruct l; simpl; lia. Qed.

Lemma busy_bounded w d :
  lookups_inv w -> (forall q, q ∈ dns_busy d <-> q ∈ asked w) -> size (dns_busy d) <= DNS_QUERY_SLOTS.
Proof.
  intros [_ _ H3 H4 _] Hb. rewrite (busy_size w d H3 Hb). pose proof (slot_permit (lookups w)). unfold asked. lia.
Qed.

(** A lookup with a permit finds a free slot. *)
Lemma slot_free w i host kind d :
  lookups_inv w -> lookups w !! i = Some (Granted host kind) -> resolver (inner (stack w)) = Some d ->
  (forall q, q ∈ dns_busy d <-> q ∈ asked w) -> size (dns_busy d) < DNS_QUERY_SLOTS.
Proof.
  intros [_ _ H3 H4 _] Hi Hd Hb. rewrite (busy_size w d H3 Hb).
  assert (Hle : length (asked w) + 1 <= sum_list_with permit (lookups w)); [| lia].
  clear -Hi. unfold asked. revert i Hi. induction (lookups w) as [|l ls IH]; intros [|i] Hi; [done | done | |].
  - injection Hi as ->. rewrite bind_cons. simpl. pose proof (slot_permit ls). lia.
  - specialize (IH i Hi). rewrite bind_cons, length_app. simpl. destruct l; simpl; lia.
Qed.

Lemma asked_in w i host q : lookups w !! i = Some (Asked host q) -> q ∈ asked w.
Proof.
  intros Hi. apply list_elem_of_bind. exists (Asked host q). split; [by left | by eapply list_elem_of_lookup_2].
Qed.

Lemma conclude_leaving host q answered s l s' :
  conclude host q answered s = (l, s') ->
  slot_of l = [] /\ permit l = 1 /\ not_full l
  /\ s' = match answered with Some _ => s | None => cancel_query q s end.
Proof.
  unfold conclude, finish_query. destruct answered as [[a|[]]|]; intros [= <- <-]; split_and!; try done;
    by intros host'; intros [= _].
Qed.

Lemma lookup_step_inv w w' : lookup_step w w' -> lookups_inv w -> lookups_inv w'.
Proof.
  intros Hstep Hw. pose proof Hw as [H1 (d0 & Hd0 & Hc0 & Hb0) H3 H4 H5].
  destruct Hstep as [host kind w | i host kind sem w Hi Hs | i host kind w Hi | i host kind l s w Hi E
    | i host q s w Hi E | i host q a s l s' w Hi E El | i host q l s w Hi El | i r w Hi | s w Ho].
  - split; simpl; [done | | | |].
    + exists d0. unfold asked. simpl. rewrite bind_app. simpl. by rewrite app_nil_r.
    + unfold asked. simpl. rewrite bind_app. simpl. by rewrite app_nil_r.
    + rewrite sum_list_with_app. simpl. lia.
    + apply Forall_app; split; [done |]. by apply Forall_singleton.
  - eapply set_lookup_inv; try done; [intros d Hd _ _; exists d; auto |].
    apply try_acquire_available in Hs. simpl. lia.
  - eapply set_lookup_inv; try done. intros d Hd _ _; exists d; auto.
  - destruct (ask_run host kind (stack w) d0 l s Hd0 E) as (Hp & d' & Hd' & Hc' & Hcase).
    pose proof (slot_free w i host kind d0 Hw Hi Hd0 Hb0) as Hlt.
    eapply set_lookup_inv; try done.
    + intros d Hd Hc Hb. simplify_eq. exists d'. split_and!; [done | done |].
      destruct Hcase as [(q & -> & Hq & Eb) | (r & -> & Eb & _)]; [right; left; eauto | by left].
    + by destruct Hcase as [(q & -> & _) | (r & -> & _)].
    + destruct Hcase as [(q & -> & _) | (r & -> & _ & Hnf)]; [done |]. apply Hnf. lia.
  - destruct (poll_run q (stack w) d0 Pending s Hd0) as (Hp & d' & Hd' & Hc' & Eb); [by eapply Hb0, asked_in | done |].
    eapply set_lookup_inv; try done. intros d Hd Hc Hb. simplify_eq. exists d'. auto.
  - destruct (poll_run q (stack w) d0 (Ready a) s Hd0) as (Hp & d' & Hd' & Hc' & Eb); [by eapply Hb0, asked_in | done |].
    apply conclude_leaving in El as (Es & Epl & Hnf & ->).
    eapply set_lookup_inv; try done; [| simpl; lia].
    intros d Hd Hc Hb. simplify_eq. exists d'. split_and!; [done | done |]. right; right. eauto.
  - apply conclude_leaving in El as (Es & Epl & Hnf & ->).
    destruct (cancel_run q (stack w) d0 Hd0) as (Hp & d' & Hd' & Hc' & Eb); [by eapply Hb0, asked_in |].
    eapply set_lookup_inv; try done; [| simpl; lia].
    intros d Hd Hc Hb. simplify_eq. exists d'. split_and!; [done | done |]. right; right. eauto.
  - eapply set_lookup_inv; try done; [intros d Hd _ _; exists d; auto | |].
    + rewrite available_release. simpl. lia.
    + exact (Forall_lookup_1 _ _ _ _ H5 Hi).
  - destruct Ho as (O1 & O2 & O3). split; simpl; try done; [congruence |].
    unfold resolver in Hd0. apply bind_Some in Hd0 as (h & Hh & Hd).
    destruct (sockets (inner (stack w)) !! h) as [[| |d1]|] eqn:Ed; try done. injection Hd as ->.
    destruct (O3 h d0 Hh Ed) as (d' & Ed' & B' & C'). exists d'. unfold resolver. rewrite O1, Hh. simpl. rewrite Ed'.
    split_and!; [done | congruence |]. by rewrite B'.
Qed.

Lemma lookups_new_inv config outbound seed :
  sc_dns_servers config <> [] -> lookups_inv (lookups_new (stack_start config outbound seed)).
Proof.
  intros Hdns. unfold stack_start. rewrite bool_decide_eq_false_2 by done.
  split; simpl; try done; [| apply NoDup_nil_2 | rewrite available_new; lia].
  eexists. split; [reflexivity |]. split; [by apply dns_new_capacity |].
  intros q. rewrite dns_new_busy. unfold asked. simpl. set_solver.
Qed.

End Lookups.

(** C16: no lookup is turned away by a full resolver, and none keeps its slot.
    However lookups on a stack with resolvers interleave with each other and
    with the stack, answered, refused, timed out or dropped: no operation on
    the resolver meets a query that is not there, no lookup reports too many
    queries in flight, and at most [DNS_QUERY_SLOTS] queries are open; and
    whenever no lookup is under way every permit is back and no query is left
    in the resolver. *)
Theorem dns_slots_recovered `{Smoltcp, !SmoltcpDns} {C : Type} `{!Channel C Packet} {S : Type} `{!Semaphore S}
    `{!SemaphoreLaws S} config outbound seed (w : Lookups (C := C) (S := S)) :
  sc_dns_servers config <> [] ->
  rtc lookup_step (lookups_new (S := S) (stack_start config outbound seed)) w ->
  panicked (inner (stack w)) = false
  /\ (forall r host, Returned r ∈ lookups w -> r <> Err (too_many host))
  /\ exists d, resolver (inner (stack w)) = Some d /\ size (dns_busy d) <= DNS_QUERY_SLOTS
       /\ ((forall l, l ∈ lookups w -> exists r, l = Returned r) ->
           sem_available (dns_slots w) = DNS_QUERY_SLOTS /\ dns_busy d = ∅).
Proof.
  intros Hdns Hr.
  assert (Hw : lookups_inv w).
  { eapply rtc_preserves; [| exact Hr | by apply lookups_new_inv]. intros x y. apply lookup_step_inv. }
  pose proof Hw as [H1 (d & Hd & _ & Hb) H3 H4 H5]. split_and!; [done | |].
  - intros r host Hin. rewrite Forall_forall in H5. exact (H5 _ Hin host).
  - exists d. split; [done |]. split; [by eapply busy_bounded |]. intros Hall. split.
    + replace (sum_list_with permit (lookups w)) with 0 in H4; [lia |].
      clear -Hall. induction (lookups w) as [|l ls IH]; [done |]. simpl.
      destruct (Hall l) as [r ->]; [by left |]. apply IH. intros l Hl. apply Hall. by right.
    + apply elem_of_equiv_empty_L. intros q [l [Hq Hl]]%Hb%list_elem_of_bind. destruct (Hall l Hl) as [r ->].
      by apply elem_of_nil in Hq.
Qed.

(** A resolver socket that keeps its open queries and never answers. *)
#[local] Instance list_smoltcp : Smoltcp :=
  inert_smoltcp (U := unit) (D := gset nat * nat) tt (fun _ _ u => (Ok tt, u)) (fun _ u => (Err Exhausted, u))
    (fun n => (∅, n))
    (fun d => if decide (d.2 <= size d.1) then (Err NoFreeSlot, d) else (Ok (fresh d.1), ({[fresh d.1]} ∪ d.1, d.2)))
    (fun q d => (d.1 ∖ {[q]}, d.2)).

#[local] Instance list_dns : SmoltcpDns.
Proof.
  refine (Build_SmoltcpDns _ (fun d => d.1) (fun d => d.2) _ _ _ _ _ _); try done.
  - intros i host kind [b n] q d'. simpl. destruct (decide _); [done |]. intros [= <- <-]. simpl.
    split_and!; [apply is_fresh | done | done].
  - intros i host kind [b n] e d'. simpl. destruct (decide _); [| done]. intros [= <- <-]. done.
  - intros q [b n] r d' [= <- <-] _. done.
Defined.

Definition dns_config : StackConfig := {|
  sc_addresses := [cidr_host (V4 10 6 0 2)]; sc_dns_servers := [V4 10 6 0 1]; sc_mtu := 1280%Z;
  sc_proxy_config_id := "p1"; sc_download_tuning := false |}.

Definition dns_stack : StackShared (ListChannel Packet) := stack_start dns_config (chan_new PACKET_QUEUE_DEPTH) 7%Z.

(** One lookup that was never answered. *)
Definition silent_lookup : Lookups (C := ListChannel Packet) (S := nat) :=
  {| stack := cancel_query 0 (snd (start_query "a.example" QA dns_stack)); dns_slots := 8;
     lookups := [Returned (Err (resolve_failure "a.example" "the tunnel's DNS server did not answer in time"))] |}.

Lemma silent_lookup_reached : rtc lookup_step (lookups_new dns_stack) silent_lookup.
Proof.
  take_step (lk_begin "a.example" QA). take_step (lk_grant 0 "a.example" QA 7). take_step (lk_ask 0 "a.example" QA).
  take_step (lk_expired 0 "a.example" 0). take_step (lk_leave 0). apply rtc_refl.
Qed.

Lemma dns_slots_recovered_witness :
  sem_available (dns_slots silent_lookup) = DNS_QUERY_SLOTS
  /\ exists d, resolver (inner (stack silent_lookup)) = Some d /\ dns_busy d = ∅.
Proof.
  destruct (dns_slots_recovered dns_config (chan_new PACKET_QUEUE_DEPTH) 7%Z silent_lookup ltac:(done)
    silent_lookup_reached) as (_ & _ & d & Hd & _ & Hall).
  destruct Hall as [Hs Hb]; [| eauto].
  intros l Hl. apply list_elem_of_singleton in Hl as ->. eauto.
Defined.
