(* ===== verification/WgPump.v ===== *)
(** * The pump and the callers of its stack ([pump] of [src/wireguard/stack.rs])

    Only a poll of the pump turns what callers leave in the stack into packets.
    Between polls the pump sleeps, and a caller that left something rings it:
    [wake] stores one ring, so that it is not lost on a pump that is polling.
    [sends] are the operations that leave something; [pump_step] interleaves
    them, and everything else, with the pump. *)

From Stdlib Require Import ZArith Lia String Ascii.
From stdpp Require Import gmap strings numbers prelude.
From S2P Require Import Prelude Net Errors Runtime Provider WgSpec WgLink WgStack WgSockets WgResolve.

Section Pump.
Context `{Smoltcp} {C : Type} `{!Channel C Packet}.
Variable slot_freed : SlotFreed.
Variable iface_poll : Z -> Iface * WgPhy C * gmap nat Socket -> Iface * WgPhy C * gmap nat Socket.
Variable poll_delay : Z -> Iface -> gmap nat Socket -> option Duration.

Notation Stack := (StackShared C).

(** The operations after which the stack has something to send: a SYN, data, a
    window update, a FIN, a reset, a datagram, a question. *)
Inductive sends : Stack -> Stack -> Prop :=
| sd_connect remote h s s' : stack_connect_start slot_freed remote s = (Ok h, s') -> sends s s'
| sd_write data st n s s' : poll_write data st s = (Ready (Ok n), s') -> sends s s'
| sd_read room st b bs s s' : poll_read room st s = (Ready (Ok (b :: bs)), s') -> sends s s'
| sd_shutdown st s : shut_down st = false -> sends s (snd (snd (poll_shutdown st s)))
| sd_stream_drop st s : sends s (stream_drop st s)
| sd_refuse index found l l' s s' : accept_take slot_freed index found l s = (None, l', s') -> sends s s'
| sd_datagram data remote u s s' : send_to data remote u s = (Ready (Ok tt), s') -> sends s s'
| sd_question host kind q s s' : start_query host kind s = (Ok q, s') -> sends s s'.

(** Where the pump is; [delay] is how long it means to sleep. *)
Inductive Phase : Type := AboutToPoll | Selecting (delay : option Duration) | Gone.

(** [unpolled]: something was left since the last poll. *)
Record PumpWorld : Type := { stack : Stack; phase : Phase; unpolled : bool }.

Definition pump_start (s : Stack) : PumpWorld := {| stack := s; phase := AboutToPoll; unpolled := false |}.

(** What can wake a pump that sleeps. *)
Definition wakes (e : PumpEvent) (delay : option Duration) (s : Stack) : Prop :=
  match e with Woken => wake s = true | Slept => delay <> None | ShutdownNotified | Received _ => True end.

Definition leaves (e : PumpEvent) : bool :=
  match e with ShutdownNotified | Received [] => true | _ => false end.

Inductive pump_step : PumpWorld -> PumpWorld -> Prop :=
| pu_sends s w : sends (stack w) s -> pump_step w {| stack := s; phase := phase w; unpolled := true |}
| pu_other s w :
    (wake (stack w) = true -> wake s = true) -> pump_step w {| stack := s; phase := phase w; unpolled := unpolled w |}
| pu_poll d s w :
    phase w = AboutToPoll -> poll iface_poll poll_delay (stack w) = (d, s) ->
    pump_step w {| stack := s; phase := Selecting d; unpolled := false |}
| pu_event e d w :
    phase w = Selecting d -> wakes e d (stack w) ->
    pump_step w {| stack := pump_event e (stack w); phase := if leaves e then Gone else AboutToPoll;
                   unpolled := unpolled w |}.

(** ** Who sends, rings *)

Lemma with_stack_wakes {R} (f : StackInner C -> R * StackInner C) s : wake (snd (with_stack f s)) = true.
Proof. unfold with_stack. by destruct (f (inner s)). Qed.

Lemma on_inner_wakes f (s : Stack) : wake (on_inner f s) = true.
Proof. apply with_stack_wakes. Qed.

Lemma connect_start_wakes remote h (s s' : Stack) : tcp_connect_start remote s = (Ok h, s') -> wake s' = true.
Proof.
  unfold tcp_connect_start. match goal with |- context [with_stack ?f s] => pose proof (with_stack_wakes f s) as Hw;
    destruct (with_stack f s) as [[h0 started] s0] end.
  destruct started; [| done]. intros [= <- <-]. exact Hw.
Qed.

Lemma sends_wakes s s' : sends s s' -> wake s' = true.
Proof.
  intros [remote h s0 s1 E | data st n s0 s1 E | room st b bs s0 s1 E | st s0 E | st s0 | index found l l' s0 s1 E
    | data remote u s0 s1 E | host kind q s0 s1 E].
  - unfold stack_connect_start in E. destruct (claim_socket slot_freed s0) as [[[]|e] s2]; [| done].
    destruct (tcp_connect_start remote s2) as [[h'|e] s3] eqn:Ec; [| done]. injection E as <- <-.
    by eapply connect_start_wakes.
  - unfold poll_write in E. destruct (shut_down st); [done |]. destruct (peek_stack _ s0) as [[[k|e]|] s2]; [| done..].
    by injection E as _ <-.
  - unfold poll_read in E. destruct (peek_stack _ s0) as [[[|x xs]|] s2]; [done | | done]. by injection E as _ _ <-.
  - simpl. unfold close_half. rewrite E. apply on_inner_wakes.
  - unfold stream_drop. destruct (close_half st s0) as [st' s2]. apply on_inner_wakes.
  - unfold accept_take in E. destruct (listening l !! index) as [h|]; [| done].
    destruct (listen_one _ s0) as [[fresh|e] s2]; [| done]. destruct (claim_socket slot_freed s2) as [[[]|e] s3]; [done |].
    injection E as _ <-. apply on_inner_wakes.
  - unfold send_to in E. destruct (peek_stack _ s0) as [[[[]|e]|] s2]; [| done..]. by injection E as <-.
  - unfold start_query in E. match goal with _ : context [with_stack ?f s0] |- _ => pose proof (with_stack_wakes f s0) as Hw;
      destruct (with_stack f s0) as [started s2] end. destruct started; [| done]. injection E as _ <-. exact Hw.
Qed.

(** What is unpolled will be polled without anything else happening. *)
Definition attended (w : PumpWorld) : Prop :=
  unpolled w = true -> phase w = AboutToPoll \/ phase w = Gone \/ wake (stack w) = true.

Lemma pump_step_attended w w' : pump_step w w' -> attended w -> attended w'.
Proof.
  intros Hstep Hw. unfold attended in *.
  destruct Hstep as [s w Hs | s w Hk | d s w Hp E | e d w Hp He]; simpl.
  - intros _. right; right. by eapply sends_wakes.
  - intros Hu. destruct (Hw Hu) as [? | [? | ?]]; auto.
  - done.
  - intros _. destruct (leaves e); auto.
Qed.

End Pump.

(** C17: the pump never sleeps on work.  However callers' operations interleave
    with the pump: whenever an operation has left something to send since the
    last poll, the pump is about to poll, or has left its loop for good, or is
    at its wait with a ring stored, so that the wait can end at once and the
    pump poll, without anything else happening. *)
Theorem pump_never_sleeps_on_work `{Smoltcp} {C : Type} `{!Channel C Packet} slot_freed iface_poll poll_delay
    (s : StackShared C) (w : PumpWorld) :
  rtc (pump_step slot_freed iface_poll poll_delay) (pump_start s) w -> unpolled w = true ->
  phase w = AboutToPoll \/ phase w = Gone
  \/ exists d w', phase w = Selecting d /\ phase w' = AboutToPoll /\ unpolled w' = true
       /\ stack w' = pump_event Woken (stack w) /\ pump_step slot_freed iface_poll poll_delay w w'.
Proof.
  intros Hr Hu.
  assert (Hw : attended w).
  { eapply (rtc_preserves _ attended); [apply pump_step_attended | exact Hr | done]. }
  destruct (Hw Hu) as [? | [? | Hk]]; auto. destruct (phase w) as [| d |] eqn:Ep; auto. right; right.
  exists d. eexists. split; [done |].
  split; [| split; [| split; [| by apply (pu_event _ _ _ Woken d w Ep)]]]; done.
Qed.

(** A pump that sleeps when a datagram is sent. *)
#[local] Instance sending_smoltcp : Smoltcp :=
  inert_smoltcp (U := list (list Z)) (D := unit) [] (fun data _ u => (Ok tt, data :: u)) (fun _ u => (Err Exhausted, u))
    (fun _ => tt) (fun d => (Err NoFreeSlot, d)) (fun _ d => d).

Definition sending_stack : StackShared (ListChannel Packet) :=
  let s := stack_start {| sc_addresses := []; sc_dns_servers := []; sc_mtu := 1420; sc_proxy_config_id := "p1";
                          sc_download_tuning := false |} (chan_new 1) 0 in
  set_inner (set_sockets {[ 5%nat := SUdp ([] : @Udp sending_smoltcp) ]} (inner s)) s.

Definition sending_socket : WgUdpSocket := {| us_handle := 5; local_port := 49152 |}.

Definition far_peer : SocketAddr := {| sa_ip := V4 192 0 2 1; sa_port := 53 |}.

Definition asleep_pump : PumpWorld (C := ListChannel Packet) :=
  let s := snd (poll (fun _ x => x) (fun _ _ _ => None) sending_stack) in
  {| stack := snd (send_to [1; 2; 3] far_peer sending_socket s); phase := Selecting None; unpolled := true |}.

Lemma asleep_pump_reached :
  rtc (pump_step {| slot_freed_id := 0 |} (fun _ x => x) (fun _ _ _ => None)) (pump_start sending_stack) asleep_pump.
Proof.
  take_step (pu_poll {| slot_freed_id := 0 |} (fun _ x => x) (fun _ _ _ => None)).
  eapply rtc_once, pu_sends. eapply (sd_datagram _ [1; 2; 3] far_peer sending_socket). vm_compute. reflexivity.
Qed.

Lemma pump_never_sleeps_on_work_witness :
  exists d (w' : PumpWorld (C := ListChannel Packet)), phase asleep_pump = Selecting d /\ phase w' = AboutToPoll /\ unpolled w' = true.
Proof.
  destruct (pump_never_sleeps_on_work {| slot_freed_id := 0 |} (fun _ x => x) (fun _ _ _ => None) sending_stack asleep_pump
    asleep_pump_reached eq_refl) as [E | [E | (d & w' & E1 & E2 & E3 & _)]]; [discriminate E | discriminate E |].
  exists d, w'. auto.
Defined.
