(* ===== verification/WgSlots.v ===== *)
(** * Who owns each socket, and what it costs

    The accounting invariant behind [MAX_SOCKETS]: every socket in the set has
    exactly one owner, no operation ever meets a missing handle, and the slot
    counter is the number of open streams, datagram sockets, connection
    attempts and charged closing sockets.  [owned s held n] states it for a
    stack whose clients hold the sockets [held] and [n] slots; each operation
    of [WgSockets] moves sockets between the stack and its clients. *)

From Stdlib Require Import ZArith Lia String Ascii.
From stdpp Require Import gmap strings numbers prelude.
From S2P Require Import Prelude Net Errors Runtime Provider WgSpec WgLink WgStack WgSockets WgResolve.

Open Scope string_scope.
Open Scope Z_scope.

Inductive Kind : Type := KTcp | KUdp | KDns.

#[export] Instance Kind_eq_dec : EqDecision Kind.
Proof. solve_decision. Defined.

Create HintDb slots.

Section Tracks.
Context `{Smoltcp}.

Definition kind (k : Socket) : Kind :=
  match k with STcp _ => KTcp | SUdp _ => KUdp | SDns _ => KDns end.

(** The owners [os] account for the socket set [m], one each. *)
Definition tracks (m : gmap nat Socket) (os : list (nat * Kind)) : Prop :=
  NoDup os.*1 /\ forall h k, (h, k) ∈ os <-> kind <$> m !! h = Some k.

#[export] Instance tracks_perm m : Proper (Permutation ==> iff) (tracks m).
Proof.
  intros os os' Hp. unfold tracks. rewrite Hp. by setoid_rewrite Hp.
Qed.

Lemma tracks_kinds m m' os :
  (forall h, kind <$> m' !! h = kind <$> m !! h) -> tracks m os -> tracks m' os.
Proof. intros Hm [Hn Hi]. split; [done |]. intros h k. by rewrite Hm. Qed.

Lemma tracks_lookup m os h k : tracks m os -> (h, k) ∈ os -> exists s, m !! h = Some s /\ kind s = k.
Proof. intros [_ Hi] Hin. apply Hi in Hin. destruct (m !! h) as [s|]; simplify_eq/=. eauto. Qed.

Lemma tracks_add m os h s :
  m !! h = None -> tracks m os -> tracks (<[h := s]> m) ((h, kind s) :: os).
Proof.
  intros Hh [Hn Hi]. split.
  - simpl. constructor; [| done]. intros ((h', k) & E & Hin)%list_elem_of_fmap. simplify_eq/=.
    apply Hi in Hin. by rewrite Hh in Hin.
  - intros h' k. rewrite elem_of_cons. destruct (decide (h' = h)) as [-> | Hne].
    + rewrite lookup_insert_eq. simpl. split; [intros [[= ->] | Hin]; [done |] | intros [= ->]; by left].
      apply Hi in Hin. by rewrite Hh in Hin.
    + rewrite lookup_insert_ne by done. rewrite <- Hi. split; [intros [[= -> _] | Hin]; done | by right].
Qed.

Lemma tracks_remove m os h k : tracks m ((h, k) :: os) -> tracks (delete h m) os.
Proof.
  intros [Hn Hi]. simpl in Hn. apply NoDup_cons in Hn as [Hnin Hn]. split; [done |]. intros h' k'.
  destruct (decide (h' = h)) as [-> | Hne].
  - rewrite lookup_delete_eq. split; [| done]. intros Hin. destruct Hnin. by apply (list_elem_of_fmap_2 fst) in Hin.
  - rewrite lookup_delete_ne by done. rewrite <- Hi, elem_of_cons. split; [by right |]. by intros [[= -> _] |].
Qed.

Lemma tracks_update m os h k s :
  tracks m os -> (h, k) ∈ os -> kind s = k -> tracks (<[h := s]> m) os.
Proof.
  intros Ht Hin Hk. eapply tracks_kinds; [| exact Ht]. intros h'.
  destruct (tracks_lookup _ _ _ _ Ht Hin) as (s0 & Hs0 & Hk0).
  destruct (decide (h' = h)) as [-> | Hne]; [rewrite lookup_insert_eq, Hs0; simpl; congruence |].
  by rewrite lookup_insert_ne.
Qed.

(** Removing a batch of distinct owners. *)
Lemma tracks_remove_all m m' (gone : list nat) os :
  tracks m (((fun h => (h, KTcp)) <$> gone) ++ os)%list ->
  (forall h, m' !! h = if bool_decide (h ∈ gone) then None else m !! h) -> tracks m' os.
Proof.
  revert m. induction gone as [|g gone IH]; intros m Ht Hm; simpl in Ht.
  - eapply tracks_kinds; [| exact Ht]. intros h. rewrite Hm. by case_bool_decide; [set_solver |].
  - eapply (IH (delete g m)); [by eapply tracks_remove |]. intros h. rewrite Hm.
    destruct (decide (h = g)) as [-> | Hne].
    + rewrite lookup_delete_eq, bool_decide_eq_true_2 by (by left). by case_bool_decide.
    + rewrite lookup_delete_ne by done. repeat case_bool_decide; set_solver.
Qed.

End Tracks.

Section Slots.
Context `{Smoltcp} {C : Type} `{!Channel C Packet}.
Notation Stack := (StackShared C).

Definition closing_owners (l : list Closing) : list (nat * Kind) := (fun c => (cl_handle c, KTcp)) <$> l.

Definition dns_owner (i : StackInner C) : list (nat * Kind) :=
  match dns i with Some h => [(h, KDns)] | None => [] end.

Record owned (s : Stack) (held : list (nat * Kind)) (n : nat) : Prop := {
  ow_tracks : tracks (sockets (inner s))
    (held ++ closing_owners (closing (inner s)) ++ dns_owner (inner s))%list;
  ow_open : open_sockets s = (n + counted (closing (inner s)))%nat;
  ow_cap : (open_sockets s <= MAX_SOCKETS)%nat;
  ow_panic : panicked (inner s) = false;
  ow_linger : Forall (fun c => cl_deadline c <= clock (inner s) + LINGER) (closing (inner s))
}.

#[export] Instance owned_perm s : Proper (Permutation ==> eq ==> iff) (owned s).
Proof.
  intros held held' Hp n n' <-. split; intros [H1 H2 H3 H4 H5]; split; try done; [rewrite <- Hp | rewrite Hp]; done.
Qed.

(** Operations that leave sockets, closing list, resolver, counter and panic
    flag alone. *)
Lemma owned_same s s' held n :
  owned s held n -> sockets (inner s') = sockets (inner s) -> closing (inner s') = closing (inner s) ->
  dns (inner s') = dns (inner s) -> open_sockets s' = open_sockets s ->
  panicked (inner s') = panicked (inner s) -> clock (inner s') = clock (inner s) -> owned s' held n.
Proof.
  intros [H1 H2 H3 H4 H5] Hs Hc Hd Ho Hp Ht.
  split; unfold dns_owner in *; rewrite ?Hs, ?Hc, ?Hd, ?Ho, ?Hp, ?Ht; done.
Qed.

Lemma owned_kinds s s' held n :
  owned s held n -> (forall h, kind <$> sockets (inner s') !! h = kind <$> sockets (inner s) !! h) ->
  closing (inner s') = closing (inner s) ->
  dns (inner s') = dns (inner s) -> open_sockets s' = open_sockets s ->
  panicked (inner s') = panicked (inner s) -> clock (inner s') = clock (inner s) -> owned s' held n.
Proof.
  intros [H1 H2 H3 H4 H5] Hs Hc Hd Ho Hp Ht.
  split; unfold dns_owner in *; rewrite ?Hc, ?Hd, ?Ho, ?Hp, ?Ht; try done.
  by eapply tracks_kinds.
Qed.

Lemma owned_with_tcp {R} h (d : R) f s held n :
  owned s held n -> (h, KTcp) ∈ held ->
  owned (set_inner (snd (with_tcp h d f (inner s))) s) held n
  /\ exists t, sockets (inner s) !! h = Some (STcp t) /\ fst (with_tcp h d f (inner s)) = fst (f t).
Proof.
  intros Ho Hin. pose proof Ho as [H1 H2 H3 H4 H5].
  destruct (tracks_lookup _ _ h KTcp H1) as (k & Hk & Hkind); [set_solver |].
  destruct k as [t | |]; try done. unfold with_tcp. rewrite Hk. destruct (f t) as [r t'] eqn:E. simpl. split.
  - split; try done. simpl. by eapply tracks_update; [| apply elem_of_app; left |].
  - exists t. by rewrite E.
Qed.

Lemma owned_with_udp {R} h (d : R) f s held n :
  owned s held n -> (h, KUdp) ∈ held ->
  owned (set_inner (snd (with_udp h d f (inner s))) s) held n
  /\ exists u, sockets (inner s) !! h = Some (SUdp u) /\ fst (with_udp h d f (inner s)) = fst (f u).
Proof.
  intros Ho Hin. pose proof Ho as [H1 H2 H3 H4 H5].
  destruct (tracks_lookup _ _ h KUdp H1) as (k & Hk & Hkind); [set_solver |].
  destruct k as [| u |]; try done. unfold with_udp. rewrite Hk. destruct (f u) as [r u'] eqn:E. simpl. split.
  - split; try done. simpl. by eapply tracks_update; [| apply elem_of_app; left |].
  - exists u. by rewrite E.
Qed.

Lemma owned_add k s held n :
  owned s held n ->
  owned (set_inner (snd (add_socket k (inner s))) s)
        ((fst (add_socket k (inner s)), kind k) :: held) n.
Proof.
  intros [H1 H2 H3 H4 H5]. unfold add_socket. simpl. split; try done. simpl. apply tracks_add; [| done].
  apply not_elem_of_dom. apply is_fresh.
Qed.

Lemma owned_discard h k s held n :
  owned s ((h, k) :: held) n -> owned (set_inner (discard h (inner s)) s) held n.
Proof.
  intros [H1 H2 H3 H4 H5]. destruct (tracks_lookup _ _ h k H1) as (x & Hx & _); [set_solver |].
  unfold discard. rewrite Hx. split; try done. simpl. by eapply tracks_remove.
Qed.

Lemma owned_retire h (c : bool) (s : Stack) held n :
  owned s ((h, KTcp) :: held) (if c then S n else n) -> owned (set_inner (retire h c (inner s)) s) held n.
Proof.
  intros [H1 H2 H3 H4 H5]. split; try done; simpl.
  - unfold closing_owners, dns_owner in *. rewrite fmap_app. simpl.
    eapply tracks_perm; [| exact H1]. rewrite <- !app_assoc. simpl.
    rewrite Permutation_middle. apply Permutation_app_head.
    by rewrite Permutation_middle.
  - rewrite counted_app, counted_cons. change (counted []) with 0%nat. simpl. destruct c; lia.
  - apply Forall_app. split; [done |]. repeat constructor. simpl. lia.
Qed.

Lemma owned_release s held n : owned s held (S n) -> owned (release_socket s) held n.
Proof. intros [H1 H2 H3 H4 H5]. split; simpl; try done; lia. Qed.

Lemma owned_ring s held n : owned s held n -> owned (ring s) held n.
Proof. intros Ho. by eapply (owned_same s). Qed.

Lemma owned_register h d s held n :
  owned s held n -> owned (set_inner (register h d (inner s)) s) held n.
Proof. intros Ho. by eapply (owned_same s). Qed.

Lemma owned_closing_ok s held n : owned s held n -> closing_ok (inner s) (closing (inner s)).
Proof.
  intros [H1 _ _ _ _]. split.
  - destruct H1 as [Hn _]. rewrite !fmap_app in Hn. apply NoDup_app in Hn as (_ & _ & Hn).
    apply NoDup_app in Hn as (Hn & _ & _). unfold closing_owners in Hn.
    by rewrite <- list_fmap_compose in Hn.
  - apply Forall_forall. intros c Hc. unfold is_tcp.
    destruct (tracks_lookup _ _ (cl_handle c) KTcp H1) as (k & Hk & Hkind).
    { apply elem_of_app. right. apply elem_of_app. left. by apply (list_elem_of_fmap_2 (fun c => (cl_handle c, KTcp))). }
    destruct k; try done. eauto.
Qed.

Lemma owned_reclaim now up s held n : owned s held n -> owned (reclaim_finished now up s) held n.
Proof.
  intros Ho. pose proof (owned_closing_ok _ _ _ Ho) as Hok. destruct Ho as [H1 H2 H3 H4 H5].
  destruct (reclaim_finished_spec now up s Hok) as (gone & kept & Hp & Hk & _ & _ & [R1 R2 R3 R4 R5 R6 R7 R8 R9]).
  assert (Hc : counted (closing (inner s)) = (counted gone + counted kept)%nat)
    by (rewrite (counted_perm _ _ Hp); apply counted_app).
  split; rewrite ?Hk, ?R2, ?R4, ?R6; try lia; [| done |].
  2: { rewrite Hp, Forall_app in H5. apply H5. }
  unfold dns_owner. rewrite R7. fold (dns_owner (inner s)).
  eapply (tracks_remove_all _ _ (cl_handle <$> gone)); [| exact R1].
  eapply tracks_perm; [| exact H1]. unfold closing_owners. rewrite Hp, fmap_app, <- list_fmap_compose.
  rewrite <- !app_assoc. rewrite Permutation_app_swap_app. done.
Qed.

Lemma owned_claim slot_freed s r s' held n :
  owned s held n -> claim_socket slot_freed s = (r, s') ->
  match r with
  | Ok _ => owned s' held (S n)
  | Err e => owned s' held n /\ e = AtCapacity (Z.of_nat MAX_SOCKETS) slot_freed
             /\ open_sockets s' = MAX_SOCKETS
  end.
Proof.
  intros Ho. unfold claim_socket, claim_update, claim_sweep. set (s1 := if (MAX_SOCKETS <=? open_sockets s)%nat then _ else s).
  assert (H1 : owned s1 held n).
  { unfold s1. case_match; [| done]. by apply owned_ring, owned_reclaim. }
  clearbody s1. destruct H1 as [H1 H2 H3 H4 H5]. destruct (Nat.ltb_spec (open_sockets s1) MAX_SOCKETS).
  - intros [= <- <-]. split; simpl; try done; lia.
  - intros [= <- <-]. split; [by split |]. split; [done | lia].
Qed.

Lemma owned_stop s held n : owned s held n -> owned (stop s) held n.
Proof.
  intros Ho. eapply (owned_kinds s); try done. intros h. simpl. rewrite lookup_fmap.
  destruct (sockets (inner s) !! h) as [[]|]; done.
Qed.

End Slots.

#[export] Hint Resolve owned_ring owned_register owned_discard owned_release owned_retire owned_reclaim
  owned_stop : slots.

(** ** Each operation *)

Section Operations.
Context `{Smoltcp} {C : Type} `{!Channel C Packet}.
Variable slot_freed : SlotFreed.
Notation Stack := (StackShared C).

Lemma add_owned k s h i held n :
  add_socket k (inner s) = (h, i) -> owned (C := C) s held n -> owned (set_inner i s) ((h, kind k) :: held) n.
Proof. intros E Ho. pose proof (owned_add k s held n Ho) as Ha. by rewrite E in Ha. Qed.

Lemma with_tcp_owned {R} h (d : R) f s r i held n :
  with_tcp h d f (inner s) = (r, i) -> owned (C := C) s held n -> (h, KTcp) ∈ held ->
  owned (set_inner i s) held n /\ exists t, sockets (inner s) !! h = Some (STcp t) /\ r = fst (f t).
Proof.
  intros E Ho Hin. destruct (owned_with_tcp h d f s held n Ho Hin) as [H1 (t & Ht & H2)].
  rewrite E in *. eauto.
Qed.

Lemma with_udp_owned {R} h (d : R) f s r i held n :
  with_udp h d f (inner s) = (r, i) -> owned (C := C) s held n -> (h, KUdp) ∈ held ->
  owned (set_inner i s) held n /\ exists u, sockets (inner s) !! h = Some (SUdp u) /\ r = fst (f u).
Proof.
  intros E Ho Hin. destruct (owned_with_udp h d f s held n Ho Hin) as [H1 (t & Ht & H2)].
  rewrite E in *. eauto.
Qed.

Lemma tcp_map_owned h f (s : Stack) held n :
  owned s held n -> (h, KTcp) ∈ held -> owned (set_inner (tcp_map h f (inner s)) s) held n.
Proof. intros Ho Hin. by apply owned_with_tcp. Qed.

Lemma abort_discard_owned h (s : Stack) held n :
  owned s ((h, KTcp) :: held) n ->
  owned (set_inner (discard h (tcp_map h tcp_abort (inner s))) s) held n.
Proof.
  intros Ho. assert (O1 := tcp_map_owned h tcp_abort s _ n Ho ltac:(left)).
  by apply (owned_discard h KTcp (set_inner (tcp_map h tcp_abort (inner s)) s)).
Qed.

Lemma port_owned (s : Stack) p i held n :
  next_ephemeral_port (inner s) = (p, i) -> owned s held n -> owned (set_inner i s) held n.
Proof. intros [= <- <-] Ho. by eapply (owned_same s). Qed.

Lemma connect_start_owned remote (s : Stack) r s' held n :
  owned s held n -> tcp_connect_start remote s = (r, s') ->
  match r with Ok h => owned s' ((h, KTcp) :: held) n | Err _ => owned s' held n end.
Proof.
  intros Ho. unfold tcp_connect_start, with_stack.
  destruct (add_tcp_socket (inner s)) as [h i1] eqn:E1.
  assert (O1 := add_owned _ _ _ _ _ _ E1 Ho).
  destruct (next_ephemeral_port i1) as [p i2] eqn:E2.
  assert (O2 := port_owned (set_inner i1 s) _ _ _ _ E2 O1).
  destruct (with_tcp h _ _ i2) as [started i3] eqn:E3.
  destruct (with_tcp_owned h _ _ (set_inner i2 s) _ _ _ _ E3 O2 ltac:(left)) as [O3 _].
  destruct started as [[] | e]; intros [= <- <-]; [by apply owned_ring |].
  by apply owned_ring, (owned_discard h KTcp (ring (set_inner i3 s))), owned_ring.
Qed.

Lemma connect_end_owned h remote e (s : Stack) r s' held n :
  owned s ((h, KTcp) :: held) n -> tcp_connect_end h remote e s = (r, s') ->
  match r with
  | Some (Ok st) => ts_handle st = h /\ owned s' ((h, KTcp) :: held) n
  | _ => owned s' held n
  end.
Proof.
  intros Ho. destruct e; simpl; intros [= <- <-]; [done | ..]; apply owned_ring.
  - by eapply owned_discard.
  - by apply abort_discard_owned.
  - by eapply owned_discard.
Qed.

Lemma close_half_owned st (s : Stack) st' s' held n :
  owned s held n -> (ts_handle st, KTcp) ∈ held -> close_half st s = (st', s') ->
  ts_handle st' = ts_handle st /\ owned s' held n.
Proof.
  intros Ho Hin. unfold close_half. destruct (shut_down st); intros [= <- <-]; [done |].
  split; [done |]. by apply owned_ring, tcp_map_owned.
Qed.

Lemma listen_one_owned port (s : Stack) r s' held n :
  owned s held n -> listen_one port s = (r, s') ->
  match r with Ok h => owned s' ((h, KTcp) :: held) n | Err _ => owned s' held n end.
Proof.
  intros Ho. unfold listen_one, with_stack. destruct (add_tcp_socket (inner s)) as [h i1] eqn:E1.
  assert (O1 := add_owned _ _ _ _ _ _ E1 Ho).
  destruct (with_tcp h _ _ i1) as [bound i2] eqn:E2.
  destruct (with_tcp_owned h _ _ (set_inner i1 s) _ _ _ _ E2 O1 ltac:(left)) as [O2 _].
  destruct bound as [[] | e]; intros [= <- <-]; apply owned_ring; [done |].
  by apply (owned_discard h KTcp (set_inner i2 s)).
Qed.

Definition tcp_handles (hs : list nat) : list (nat * Kind) := (fun h => (h, KTcp)) <$> hs.

Lemma listener_drop_owned l (s : Stack) held n :
  owned s (tcp_handles (listening l) ++ held) n -> owned (listener_drop l s) held n.
Proof.
  intros Ho. unfold listener_drop. apply owned_ring. simpl.
  revert s Ho. induction (listening l) as [|h hs IH]; intros s Ho; simpl in *; [by eapply (owned_same s) |].
  apply (IH (set_inner (discard h (tcp_map h tcp_abort (inner s))) s)). by apply abort_discard_owned.
Qed.

Lemma fill_backlog_owned k : forall l (s : Stack) r s' held n,
  owned s (tcp_handles (listening l) ++ held) n -> fill_backlog k l s = (r, s') ->
  match r with Ok l' => owned s' (tcp_handles (listening l') ++ held) n | Err _ => owned s' held n end.
Proof.
  induction k as [|k IH]; intros l s r s' held n Ho; simpl; [by intros [= <- <-] |].
  destruct (listen_one _ s) as [r1 s1] eqn:E1. apply (listen_one_owned _ _ _ _ _ _ Ho) in E1.
  destruct r1 as [h | e].
  - apply IH. simpl. unfold tcp_handles in *. rewrite fmap_app. simpl. rewrite <- app_assoc. simpl.
    by rewrite <- Permutation_middle.
  - intros [= <- <-]. by apply listener_drop_owned.
Qed.

Lemma accept_scan_owned port hs : forall index (s : Stack) r i held n,
  owned s held n -> (forall h, h ∈ hs -> (h, KTcp) ∈ held) ->
  accept_scan port index hs (inner s) = (r, i) ->
  owned (set_inner i s) held n
  /\ forall k p, r = Some (k, p) -> (index <= k < index + length hs)%nat.
Proof.
  induction hs as [|h hs IH]; intros index s r i held n Ho Hin; simpl.
  - intros [= <- <-]. split; [by eapply (owned_same s) | done].
  - destruct (with_tcp h _ _ (inner s)) as [found i1] eqn:E1.
    destruct (with_tcp_owned h _ _ s _ _ _ _ E1 Ho) as [O1 _]; [apply Hin; by left |].
    destruct found as [p|].
    + intros [= <- <-]. split; [done |]. intros k q [= <- _]. lia.
    + intros E. edestruct (IH (S index) (set_inner (register h Send (register h Recv i1)) s)) as [O2 Hk].
      * apply (owned_register h Send (set_inner (register h Recv i1) s)).
        by apply (owned_register h Recv (set_inner i1 s)).
      * intros h' Hh'. apply Hin. by right.
      * exact E.
      * split; [done |]. intros k q Hr. specialize (Hk k q Hr). lia.
Qed.

Lemma swap_remove_perm {A} (l : list A) i x : l !! i = Some x -> l ≡ₚ x :: swap_remove i l.
Proof.
  intros Hi. destruct (swap_remove_spec i l x Hi) as (Ht & Hd & _).
  rewrite <- (take_drop i (swap_remove i l)), Ht, Hd.
  rewrite <- (take_drop i l) at 1. rewrite (drop_S _ _ _ Hi). by rewrite <- Permutation_middle.
Qed.

Lemma accept_take_owned index found l (s : Stack) r l' s' held n :
  owned s (tcp_handles (listening l) ++ held) n -> (index < length (listening l))%nat ->
  accept_take slot_freed index found l s = (r, l', s') ->
  local l' = local l /\
  match r with
  | Some (Ok st) => owned s' ((ts_handle st, KTcp) :: tcp_handles (listening l') ++ held) (S n)
  | _ => owned s' (tcp_handles (listening l') ++ held) n
  end.
Proof.
  intros Ho Hi. unfold accept_take. destruct (lookup_lt_is_Some_2 _ _ Hi) as [h Hh]. rewrite Hh.
  pose proof (swap_remove_perm _ _ _ Hh) as Hp.
  assert (O0 : owned s ((h, KTcp) :: tcp_handles (swap_remove index (listening l)) ++ held) n).
  { eapply owned_perm; [| reflexivity | exact Ho]. unfold tcp_handles.
    apply (fmap_Permutation (fun h => (h, KTcp))) in Hp. simpl in Hp. by rewrite app_comm_cons, <- Hp. }
  cbn [local listening]. destruct (listen_one _ s) as [r1 s1] eqn:E1.
  apply (listen_one_owned _ _ _ _ _ _ O0) in E1. destruct r1 as [f | e].
  2: { intros [= <- <- <-]. split; [done |]. by apply owned_ring, abort_discard_owned. }
  destruct (claim_socket slot_freed s1) as [r2 s2] eqn:E2. apply (owned_claim _ _ _ _ _ _ E1) in E2.
  destruct r2 as [[] | e].
  - intros [= <- <- <-]. split; [done |]. simpl. unfold tcp_handles in *. rewrite fmap_app. simpl.
    rewrite <- app_assoc. simpl. rewrite <- Permutation_middle.
    eapply owned_perm; [| reflexivity | exact E2]. constructor.
  - destruct E2 as (E2 & _ & _). intros [= <- <- <-]. split; [done |]. simpl. apply owned_ring.
    assert (O3 : owned s2 ((h, KTcp) :: (f, KTcp) :: tcp_handles (swap_remove index (listening l)) ++ held) n).
    { eapply owned_perm; [| reflexivity | exact E2]. constructor. }
    apply (owned_retire h false (set_inner (tcp_map h tcp_abort (inner s2)) s2)).
    unfold tcp_handles in *. rewrite fmap_app. simpl. rewrite <- app_assoc. simpl.
    rewrite <- Permutation_middle. apply tcp_map_owned; [done | by left].
Qed.

Lemma udp_bind_owned port packets bytes (s : Stack) r s' held n :
  owned s held n -> udp_bind_socket port packets bytes s = (r, s') ->
  match r with Ok u => owned s' ((us_handle u, KUdp) :: held) n | Err _ => owned s' held n end.
Proof.
  intros Ho. unfold udp_bind_socket, with_stack.
  destruct (add_udp_socket_sized packets bytes (inner s)) as [h i1] eqn:E1.
  assert (O1 := add_owned _ _ _ _ _ _ E1 Ho).
  destruct (if port =? 0 then next_ephemeral_port i1 else (port, i1)) as [p i2] eqn:E2.
  assert (O2 : owned (set_inner i2 s) ((h, KUdp) :: held) n).
  { case_match; [by apply (port_owned (set_inner i1 s) _ _ _ _ E2) | by simplify_eq]. }
  destruct (with_udp h _ _ i2) as [bound i3] eqn:E3.
  destruct (with_udp_owned h _ _ (set_inner i2 s) _ _ _ _ E3 O2 ltac:(left)) as [O3 _].
  destruct bound as [[] | e]; intros [= <- <-]; [by apply owned_ring |].
  by apply owned_ring, (owned_discard h KUdp (ring (set_inner i3 s))), owned_ring.
Qed.

Lemma udp_drop_owned u (s : Stack) held n :
  owned s ((us_handle u, KUdp) :: held) (S n) -> owned (udp_drop u s) held n.
Proof.
  intros Ho. unfold udp_drop. apply owned_release, owned_ring.
  unfold on_inner, with_stack.
  destruct (with_udp (us_handle u) tt (fun k => (tt, udp_close k)) (inner s)) as [r i] eqn:E.
  destruct (with_udp_owned _ _ _ s _ _ _ _ E Ho ltac:(left)) as [O1 _]. simpl.
  by apply (owned_discard _ KUdp (set_inner i s)).
Qed.

Lemma connect_poll_owned h (s : Stack) hs n :
  owned s hs n -> (h, KTcp) ∈ hs -> owned (snd (tcp_connect_poll h s)) hs n.
Proof.
  intros Ho Hin. unfold tcp_connect_poll, peek_stack. destruct (with_tcp h _ _ (inner s)) as [st i] eqn:E.
  destruct (with_tcp_owned _ _ _ s _ _ _ _ E Ho Hin) as [O1 _].
  destruct st; simpl; try done; by apply (owned_register h Send (set_inner i s)).
Qed.

Lemma poll_read_owned room st (s : Stack) hs n :
  owned s hs n -> (ts_handle st, KTcp) ∈ hs -> owned (snd (poll_read room st s)) hs n.
Proof.
  intros Ho Hin. unfold poll_read, peek_stack. destruct (with_tcp _ _ _ (inner s)) as [r i] eqn:E.
  destruct (with_tcp_owned _ _ _ s _ _ _ _ E Ho Hin) as [O1 _].
  destruct r as [[|x l] |]; simpl; [done | by apply owned_ring |].
  by apply (owned_register _ Recv (set_inner i s)).
Qed.

Lemma poll_write_owned data st (s : Stack) hs n :
  owned s hs n -> (ts_handle st, KTcp) ∈ hs -> owned (snd (poll_write data st s)) hs n.
Proof.
  intros Ho Hin. unfold poll_write, peek_stack. destruct (shut_down st); [done |].
  destruct (with_tcp _ _ _ (inner s)) as [r i] eqn:E.
  destruct (with_tcp_owned _ _ _ s _ _ _ _ E Ho Hin) as [O1 _].
  destruct r as [[w | e] |]; simpl; [by apply owned_ring | done |].
  by apply (owned_register _ Send (set_inner i s)).
Qed.

Lemma poll_flush_owned st (s : Stack) hs n :
  owned s hs n -> (ts_handle st, KTcp) ∈ hs -> owned (snd (poll_flush st s)) hs n.
Proof.
  intros Ho Hin. unfold poll_flush, peek_stack. destruct (with_tcp _ _ _ (inner s)) as [r i] eqn:E.
  destruct (with_tcp_owned _ _ _ s _ _ _ _ E Ho Hin) as [O1 _].
  destruct r; simpl; [done |]. by apply (owned_register _ Send (set_inner i s)).
Qed.

Lemma send_to_owned data remote u (s : Stack) hs n :
  owned s hs n -> (us_handle u, KUdp) ∈ hs -> owned (snd (send_to data remote u s)) hs n.
Proof.
  intros Ho Hin. unfold send_to, peek_stack. destruct (stopped s); [by eapply (owned_same s) |].
  destruct (with_udp _ _ _ (inner s)) as [r i] eqn:E.
  destruct (with_udp_owned _ _ _ s _ _ _ _ E Ho Hin) as [O1 _].
  destruct r as [[] | []]; simpl; [by apply owned_ring | | done].
  by apply (owned_register _ Send (set_inner i s)).
Qed.

Lemma recv_from_owned room u (s : Stack) hs n :
  owned s hs n -> (us_handle u, KUdp) ∈ hs -> owned (snd (recv_from room u s)) hs n.
Proof.
  intros Ho Hin. unfold recv_from, peek_stack. destruct (stopped s); [by eapply (owned_same s) |].
  destruct (with_udp _ _ _ (inner s)) as [r i] eqn:E.
  destruct (with_udp_owned _ _ _ s _ _ _ _ E Ho Hin) as [O1 _].
  destruct r as [[] | []]; simpl; [done | | done]. by apply (owned_register _ Recv (set_inner i s)).
Qed.

Lemma stream_drop_owned st (s : Stack) hs n :
  owned s ((ts_handle st, KTcp) :: hs) (S n) -> owned (stream_drop st s) hs n.
Proof.
  intros Ho. unfold stream_drop. destruct (close_half st s) as [st' s'] eqn:E.
  destruct (close_half_owned _ _ _ _ _ _ Ho ltac:(left) E) as [Hh O1].
  apply owned_ring, (owned_retire _ true). by rewrite Hh.
Qed.

Lemma stack_connect_start_owned remote (s : Stack) r s' hs n :
  owned s hs n -> stack_connect_start slot_freed remote s = (r, s') ->
  match r with Ok h => owned s' ((h, KTcp) :: hs) (S n) | Err _ => owned s' hs n end.
Proof.
  intros Ho. unfold stack_connect_start. destruct (claim_socket slot_freed s) as [r1 s1] eqn:E1.
  apply (owned_claim _ _ _ _ _ _ Ho) in E1. destruct r1 as [[] | e]; [| intros [= <- <-]; by destruct E1].
  destruct (tcp_connect_start remote s1) as [r2 s2] eqn:E2. apply (connect_start_owned _ _ _ _ _ _ E1) in E2.
  destruct r2; intros [= <- <-]; [done | by apply owned_release].
Qed.

Lemma stack_connect_end_owned h remote e (s : Stack) r s' hs n :
  owned s ((h, KTcp) :: hs) (S n) -> stack_connect_end h remote e s = (r, s') ->
  match r with
  | Some (Ok st) => ts_handle st = h /\ owned s' ((h, KTcp) :: hs) (S n)
  | _ => owned s' hs n
  end.
Proof.
  intros Ho. unfold stack_connect_end. destruct (tcp_connect_end h remote e s) as [r1 s1] eqn:E1.
  apply (connect_end_owned _ _ _ _ _ _ _ _ Ho) in E1.
  destruct r1 as [[st | err] |]; intros [= <- <-]; [done | by apply owned_release..].
Qed.

Lemma stack_listen_owned port backlog random (s : Stack) r s' hs n :
  owned s hs n -> stack_listen port backlog random s = (r, s') ->
  match r with Ok l => owned s' (tcp_handles (listening l) ++ hs) n | Err _ => owned s' hs n end.
Proof.
  intros Ho. unfold stack_listen. destruct (if port =? 0 then _ else _) as [p | e]; [| by intros [= <- <-]].
  unfold listener_bind. destruct (stopped s); [by intros [= <- <-] |]. by apply fill_backlog_owned.
Qed.

Lemma bind_udp_sized_owned port packets bytes (s : Stack) r s' hs n :
  owned s hs n -> bind_udp_sized slot_freed port packets bytes s = (r, s') ->
  match r with Ok u => owned s' ((us_handle u, KUdp) :: hs) (S n) | Err _ => owned s' hs n end.
Proof.
  intros Ho. unfold bind_udp_sized. destruct (stopped s); [by intros [= <- <-] |].
  destruct (claim_socket slot_freed s) as [r1 s1] eqn:E1. apply (owned_claim _ _ _ _ _ _ Ho) in E1.
  destruct r1 as [[] | e]; [| intros [= <- <-]; by destruct E1].
  destruct (udp_bind_socket _ _ _ s1) as [r2 s2] eqn:E2. apply (udp_bind_owned _ _ _ _ _ _ _ _ E1) in E2.
  destruct r2; intros [= <- <-]; [done | by apply owned_release].
Qed.

End Operations.

(** ** The whole tunnel: a stack and everyone using it *)

Section World.
Context `{Smoltcp} {C : Type} `{!Channel C Packet}.
Variable slot_freed : SlotFreed.
Variable iface_poll : Z -> Iface * WgPhy C * gmap nat Socket -> Iface * WgPhy C * gmap nat Socket.
Variable poll_delay : Z -> Iface -> gmap nat Socket -> option Duration.
Notation Stack := (StackShared C).

Record World : Type := {
  shared : Stack;
  pending : list (nat * SocketAddr);
  streams : list WgTcpStream;
  listeners : list WgTcpListener;
  udps : list WgUdpSocket
}.

Definition set_clock (t : Z) (i : StackInner C) : StackInner C :=
  {| iface := iface i; sockets := sockets i; stack_phy := stack_phy i; dns := dns i; clock := t;
     next_port := next_port i; closing := closing i; tcp_buffer_bytes := tcp_buffer_bytes i;
     wakers := wakers i; panicked := panicked i |}.

Definition on_shared (s : Stack) (w : World) : World :=
  {| shared := s; pending := pending w; streams := streams w; listeners := listeners w; udps := udps w |}.

(** A listener's accept: scan, and take what the scan found. *)
Definition accept (l : WgTcpListener) (s : Stack)
  : Poll (option (Result WgTcpStream TunnelError)) * WgTcpListener * Stack :=
  match accept_poll l s with
  | (Pending, s) => (Pending, l, s)
  | (Ready (Err e), s) => (Ready (Some (Err e)), l, s)
  | (Ready (Ok (index, found)), s) =>
      let '(r, l, s) := accept_take slot_freed index found l s in (Ready r, l, s)
  end.

Definition accepted (r : Poll (option (Result WgTcpStream TunnelError))) : list WgTcpStream :=
  match r with Ready (Some (Ok st)) => [st] | _ => [] end.

(** Streams and the attempts that open them. *)
Inductive stream_step : World -> World -> Prop :=
| st_connect remote r s w :
    stack_connect_start slot_freed remote (shared w) = (r, s) ->
    stream_step w
      {| shared := s; pending := match r with Ok h => (h, remote) :: pending w | Err _ => pending w end;
         streams := streams w; listeners := listeners w; udps := udps w |}
| st_connect_poll h remote w :
    (h, remote) ∈ pending w -> stream_step w (on_shared (snd (tcp_connect_poll h (shared w))) w)
| st_connect_end i h remote e r s w :
    pending w !! i = Some (h, remote) -> stack_connect_end h remote e (shared w) = (r, s) ->
    stream_step w
      {| shared := s; pending := delete i (pending w);
         streams := match r with Some (Ok st) => st :: streams w | _ => streams w end;
         listeners := listeners w; udps := udps w |}
| st_read st room w :
    st ∈ streams w -> stream_step w (on_shared (snd (poll_read room st (shared w))) w)
| st_write st data w :
    st ∈ streams w -> stream_step w (on_shared (snd (poll_write data st (shared w))) w)
| st_flush st w :
    st ∈ streams w -> stream_step w (on_shared (snd (poll_flush st (shared w))) w)
| st_shutdown i st st' s w :
    streams w !! i = Some st -> snd (poll_shutdown st (shared w)) = (st', s) ->
    stream_step w {| shared := s; pending := pending w; streams := <[i := st']> (streams w);
                     listeners := listeners w; udps := udps w |}
| st_stream_drop i st w :
    streams w !! i = Some st ->
    stream_step w {| shared := stream_drop st (shared w); pending := pending w;
                     streams := delete i (streams w); listeners := listeners w; udps := udps w |}.

(** Listeners. *)
Inductive listener_step : World -> World -> Prop :=
| st_listen port backlog random r s w :
    stack_listen port backlog random (shared w) = (r, s) ->
    listener_step w {| shared := s; pending := pending w; streams := streams w;
                     listeners := match r with Ok l => l :: listeners w | Err _ => listeners w end;
                     udps := udps w |}
| st_accept i l r l' s w :
    listeners w !! i = Some l -> accept l (shared w) = (r, l', s) ->
    listener_step w {| shared := s; pending := pending w; streams := accepted r ++ streams w;
                     listeners := <[i := l']> (listeners w); udps := udps w |}
| st_listener_drop i l w :
    listeners w !! i = Some l ->
    listener_step w {| shared := listener_drop l (shared w); pending := pending w; streams := streams w;
                     listeners := delete i (listeners w); udps := udps w |}.

(** Datagram sockets. *)
Inductive datagram_step : World -> World -> Prop :=
| st_bind_udp port packets bytes r s w :
    bind_udp_sized slot_freed port packets bytes (shared w) = (r, s) ->
    datagram_step w {| shared := s; pending := pending w; streams := streams w; listeners := listeners w;
                     udps := match r with Ok u => u :: udps w | Err _ => udps w end |}
| st_send_to u data remote w :
    u ∈ udps w -> datagram_step w (on_shared (snd (send_to data remote u (shared w))) w)
| st_recv_from u room w :
    u ∈ udps w -> datagram_step w (on_shared (snd (recv_from room u (shared w))) w)
| st_udp_drop i u w :
    udps w !! i = Some u ->
    datagram_step w {| shared := udp_drop u (shared w); pending := pending w; streams := streams w;
                     listeners := listeners w; udps := delete i (udps w) |}.

(** The pump, the resolver's queries and the clock. *)
Inductive service_step : World -> World -> Prop :=
| st_pump e w : service_step w (on_shared (pump_pass iface_poll poll_delay e (shared w)) w)
| st_query host kind w :
    dns (inner (shared w)) <> None -> service_step w (on_shared (snd (start_query host kind (shared w))) w)
| st_query_poll q w :
    dns (inner (shared w)) <> None -> service_step w (on_shared (snd (poll_query q (shared w))) w)
| st_query_cancel q w : service_step w (on_shared (cancel_query q (shared w)) w)
| st_tick t w :
    clock (inner (shared w)) <= t ->
    service_step w (on_shared (set_inner (set_clock t (inner (shared w))) (shared w)) w).

Inductive socket_step : World -> World -> Prop :=
| by_stream w w' : stream_step w w' -> socket_step w w'
| by_listener w w' : listener_step w w' -> socket_step w w'
| by_datagram w w' : datagram_step w w' -> socket_step w w'
| by_service w w' : service_step w w' -> socket_step w w'.

Definition world_start (cfg : StackConfig) (outbound : C) (seed : Z) : World :=
  {| shared := stack_start cfg outbound seed; pending := []; streams := []; listeners := []; udps := [] |}.

(** What the clients hold, and the slots they are charged for. *)
Definition held (w : World) : list (nat * Kind) :=
  (((fun p => (p.1, KTcp)) <$> pending w) ++ ((fun st => (ts_handle st, KTcp)) <$> streams w)
   ++ (listeners w ≫= fun l => tcp_handles (listening l)) ++ ((fun u => (us_handle u, KUdp)) <$> udps w))%list.

Definition charged (w : World) : nat := (length (pending w) + length (streams w) + length (udps w))%nat.

Definition world_inv (w : World) : Prop := owned (shared w) (held w) (charged w).

(** [Interface::poll] advances sockets; it neither adds nor removes one. *)
Definition poll_keeps_sockets : Prop :=
  forall now i p m i' p' m', iface_poll now (i, p, m) = (i', p', m') ->
  forall h, kind <$> m' !! h = kind <$> m !! h.

Lemma with_dns_owned {R} (d : R) f (s : Stack) r i hs n :
  with_dns d f (inner s) = (r, i) -> dns (inner s) <> None -> owned s hs n -> owned (set_inner i s) hs n.
Proof.
  intros E Hd Ho. pose proof Ho as [H1 H2 H3 H4 H5]. unfold with_dns in E.
  destruct (dns (inner s)) as [h|] eqn:Eh; [| done].
  destruct (tracks_lookup _ _ h KDns H1) as (k & Hk & Hkind).
  { unfold dns_owner. rewrite Eh. set_solver. }
  rewrite Hk in E. destruct k as [| | k]; try done. destruct (f k) as [r' k'] eqn:Ef. simplify_eq.
  eapply (owned_kinds s); try done. intros h'. simpl. destruct (decide (h' = h)) as [-> | Hne].
  - by rewrite lookup_insert_eq, Hk.
  - by rewrite lookup_insert_ne.
Qed.

Lemma pump_owned e (s : Stack) hs n :
  poll_keeps_sockets -> owned s hs n -> owned (pump_pass iface_poll poll_delay e s) hs n.
Proof.
  intros Hkeep Ho. unfold pump_pass, poll.
  destruct (iface_poll _ _) as [[ifc p] m] eqn:Ep. set (i1 := {| iface := ifc |}).
  assert (O1 : owned (set_inner i1 s) hs n).
  { eapply (owned_kinds s); try done. intros h. simpl. by eapply Hkeep. }
  assert (O2 : owned (reclaim (clock (inner s)) (set_inner i1 s)) hs n) by (by apply owned_reclaim).
  set (s2 := reclaim _ _) in *. clearbody s2.
  destruct e as [| packets | |]; [by apply owned_stop | | by eapply (owned_same s2) | done].
  destruct packets; [by apply owned_stop | by eapply (owned_same s2)].
Qed.

Lemma insert_delete_perm {A} (l : list A) i x y : l !! i = Some x -> <[i := y]> l ≡ₚ y :: delete i l.
Proof.
  intros Hi. rewrite insert_take_drop by (by eapply lookup_lt_Some). rewrite delete_take_drop.
  by rewrite <- Permutation_middle.
Qed.

(** The clients' sockets, one group at a time. *)
Definition holds (p : list (nat * SocketAddr)) (ts : list WgTcpStream) (ls : list WgTcpListener)
    (us : list WgUdpSocket) : list (nat * Kind) :=
  (((fun p => (p.1, KTcp)) <$> p) ++ ((fun st => (ts_handle st, KTcp)) <$> ts)
   ++ (ls ≫= fun l => tcp_handles (listening l)) ++ ((fun u => (us_handle u, KUdp)) <$> us))%list.

Lemma holds_pending x p ts ls us : holds (x :: p) ts ls us = (x.1, KTcp) :: holds p ts ls us.
Proof. done. Qed.

Lemma holds_stream st p ts ls us :
  holds p (st :: ts) ls us ≡ₚ (ts_handle st, KTcp) :: holds p ts ls us.
Proof. unfold holds. simpl. by rewrite <- Permutation_middle. Qed.

Lemma holds_listener l p ts ls us :
  holds p ts (l :: ls) us ≡ₚ tcp_handles (listening l) ++ holds p ts ls us.
Proof. unfold holds. simpl. rewrite <- !app_assoc. rewrite !(Permutation_app_swap_app (tcp_handles _)). done. Qed.

Lemma holds_udp u p ts ls us : holds p ts ls (u :: us) ≡ₚ (us_handle u, KUdp) :: holds p ts ls us.
Proof. unfold holds. simpl. rewrite !app_assoc. by rewrite <- Permutation_middle. Qed.

#[local] Instance holds_proper :
  Proper (Permutation ==> Permutation ==> Permutation ==> Permutation ==> Permutation) holds.
Proof. intros p p' Hp ts ts' Ht ls ls' Hl us us' Hu. unfold holds. by rewrite Hp, Ht, Hl, Hu. Qed.

Lemma holds_pending_at i x p ts ls us :
  p !! i = Some x -> holds p ts ls us ≡ₚ (x.1, KTcp) :: holds (delete i p) ts ls us.
Proof. intros Hi. rewrite <- holds_pending. by rewrite <- (delete_Permutation _ _ _ Hi). Qed.

Lemma holds_stream_at i st p ts ls us :
  ts !! i = Some st -> holds p ts ls us ≡ₚ (ts_handle st, KTcp) :: holds p (delete i ts) ls us.
Proof. intros Hi. rewrite <- holds_stream. by rewrite <- (delete_Permutation _ _ _ Hi). Qed.

Lemma holds_listener_at i l p ts ls us :
  ls !! i = Some l -> holds p ts ls us ≡ₚ tcp_handles (listening l) ++ holds p ts (delete i ls) us.
Proof. intros Hi. rewrite <- holds_listener. by rewrite <- (delete_Permutation _ _ _ Hi). Qed.

Lemma holds_udp_at i u p ts ls us :
  us !! i = Some u -> holds p ts ls us ≡ₚ (us_handle u, KUdp) :: holds p ts ls (delete i us).
Proof. intros Hi. rewrite <- holds_udp. by rewrite <- (delete_Permutation _ _ _ Hi). Qed.

Lemma length_deleted {A} (l : list A) i x : l !! i = Some x -> length l = S (length (delete i l)).
Proof. intros Hi. by rewrite (delete_Permutation _ _ _ Hi) at 1. Qed.

Lemma owned_move s hs hs' n n' : owned s hs n -> hs' ≡ₚ hs -> n' = n -> owned (C := C) s hs' n'.
Proof. intros Ho Hp ->. by rewrite Hp. Qed.

Lemma accept_owned l (s : Stack) r l' s' hs n :
  owned s (tcp_handles (listening l) ++ hs) n -> accept l s = (r, l', s') ->
  owned s' (((fun st => (ts_handle st, KTcp)) <$> accepted r) ++ tcp_handles (listening l') ++ hs)
    (length (accepted r) + n).
Proof.
  intros Ho. unfold accept, accept_poll, peek_stack.
  destruct (stopped s); [intros [= <- <- <-]; by eapply (owned_same s) |].
  destruct (accept_scan _ 0 (listening l) (inner s)) as [found i] eqn:E.
  destruct (accept_scan_owned _ _ _ _ _ _ _ _ Ho ltac:(intros h Hh; apply elem_of_app; left;
    by apply (list_elem_of_fmap_2 (fun h => (h, KTcp)))) E) as [O1 Hk].
  destruct found as [[index p]|]; [| by intros [= <- <- <-]].
  specialize (Hk index p eq_refl).
  destruct (accept_take slot_freed index p l (set_inner i s)) as [[r1 l1] s1] eqn:E1.
  apply accept_take_owned with (held := hs) (n := n) in E1 as [_ E1]; [| done | lia].
  intros [= <- <- <-]. by destruct r1 as [[st | e] |].
Qed.

Lemma held_stream w st : st ∈ streams w -> (ts_handle st, KTcp) ∈ held w.
Proof. intros Hi. unfold held. rewrite !elem_of_app. right. left. apply list_elem_of_fmap. by exists st. Qed.

Lemma held_pending w h remote : (h, remote) ∈ pending w -> (h, KTcp) ∈ held w.
Proof.
  intros Hi. unfold held. rewrite !elem_of_app. left. apply list_elem_of_fmap. by exists (h, remote).
Qed.

Lemma held_udp w u : u ∈ udps w -> (us_handle u, KUdp) ∈ held w.
Proof. intros Hi. unfold held. rewrite !elem_of_app. do 3 right. apply list_elem_of_fmap. by exists u. Qed.

Lemma held_holds w : held w = holds (pending w) (streams w) (listeners w) (udps w).
Proof. done. Qed.

(** The invariant, beside sockets [extra] and slots [more] that are in nobody's
    hands yet. *)
Definition world_with (extra : list (nat * Kind)) (more : nat) (w : World) : Prop :=
  owned (shared w) (held w ++ extra) (charged w + more).

Lemma world_with_nil w : world_with [] 0 w <-> world_inv w.
Proof. unfold world_with, world_inv. by rewrite app_nil_r, Nat.add_0_r. Qed.

Section Steps.
Variables (extra : list (nat * Kind)) (more : nat).

Lemma stream_step_with w w' : stream_step w w' -> world_with extra more w -> world_with extra more w'.
Proof.
  intros Hstep Hw. unfold world_with in *. destruct Hstep as
    [remote r s w E | h remote w Hi | i h remote e r s w Hi E | st room w Hi | st data w Hi | st w Hi | i st st' s w Hi E | i st w Hi].
  - apply (stack_connect_start_owned _ _ _ _ _ _ _ Hw) in E. by destruct r.
  - apply connect_poll_owned; [done |]. apply elem_of_app. left. by eapply held_pending.
  - assert (O1 : owned (shared w) ((h, KTcp) :: holds (delete i (pending w)) (streams w) (listeners w) (udps w) ++ extra)
                   (S (length (delete i (pending w)) + length (streams w) + length (udps w) + more))).
    { eapply owned_move; [exact Hw | |]; [by rewrite held_holds, (holds_pending_at _ _ _ _ _ _ Hi) |].
      unfold charged. by rewrite (length_deleted _ _ _ Hi). }
    apply (stack_connect_end_owned _ _ _ _ _ _ _ _ O1) in E. destruct r as [[st | err] |]; simpl; [| done..].
    destruct E as [Hst E]. eapply owned_move; [exact E | |].
    + rewrite held_holds. simpl. by rewrite holds_stream, Hst.
    + unfold charged. simpl. lia.
  - apply poll_read_owned; [done |]. apply elem_of_app. left. by apply (held_stream w).
  - apply poll_write_owned; [done |]. apply elem_of_app. left. by apply (held_stream w).
  - apply poll_flush_owned; [done |]. apply elem_of_app. left. by apply (held_stream w).
  - simpl in E. pose proof (list_elem_of_lookup_2 _ _ _ Hi) as Hin.
    destruct (close_half_owned _ _ _ _ _ _ Hw ltac:(apply elem_of_app; left; exact (held_stream _ _ Hin)) E) as [Hst O1].
    eapply owned_move; [exact O1 | |].
    + rewrite !held_holds. simpl.
      by rewrite (insert_delete_perm _ _ _ st' Hi), holds_stream, Hst, (holds_stream_at _ _ _ _ _ _ Hi).
    + unfold charged. simpl. by rewrite length_insert.
  - apply stream_drop_owned. eapply owned_move; [exact Hw | |].
    + by rewrite !held_holds, (holds_stream_at _ _ _ _ _ _ Hi).
    + unfold charged. simpl. rewrite (length_deleted _ _ _ Hi). lia.
Qed.

Lemma listener_step_with w w' : listener_step w w' -> world_with extra more w -> world_with extra more w'.
Proof.
  intros Hstep Hw. unfold world_with in *. destruct Hstep as
    [port backlog random r s w E | i l r l' s w Hi E | i l w Hi].
  - apply (stack_listen_owned _ _ _ _ _ _ _ _ Hw) in E. destruct r; [| done].
    eapply owned_move; [exact E | by rewrite !held_holds; simpl; rewrite holds_listener, app_assoc | done].
  - assert (O1 : owned (shared w) (tcp_handles (listening l)
                   ++ holds (pending w) (streams w) (delete i (listeners w)) (udps w) ++ extra) (charged w + more)).
    { eapply owned_move; [exact Hw | | done]. by rewrite held_holds, (holds_listener_at _ _ _ _ _ _ Hi), app_assoc. }
    apply (accept_owned _ _ _ _ _ _ _ O1) in E. eapply owned_move; [exact E | |].
    + rewrite held_holds. simpl. rewrite (insert_delete_perm _ _ _ l' Hi), holds_listener.
      destruct r as [[[st | e] |] |]; simpl; rewrite <- ?app_assoc; [| done..].
      rewrite holds_stream. simpl. by rewrite <- Permutation_middle.
    + unfold charged. simpl. rewrite length_app. lia.
  - apply listener_drop_owned. eapply owned_move; [exact Hw | | done].
    by rewrite !held_holds, (holds_listener_at _ _ _ _ _ _ Hi), app_assoc.
Qed.

Lemma datagram_step_with w w' : datagram_step w w' -> world_with extra more w -> world_with extra more w'.
Proof.
  intros Hstep Hw. unfold world_with in *. destruct Hstep as
    [port packets bytes r s w E | u data remote w Hi | u room w Hi | i u w Hi].
  - apply (bind_udp_sized_owned _ _ _ _ _ _ _ _ _ Hw) in E. destruct r; [| done].
    eapply owned_move; [exact E | by rewrite !held_holds; simpl; rewrite holds_udp | unfold charged; simpl; lia].
  - apply send_to_owned; [done |]. apply elem_of_app. left. by apply (held_udp w).
  - apply recv_from_owned; [done |]. apply elem_of_app. left. by apply (held_udp w).
  - apply udp_drop_owned. eapply owned_move; [exact Hw | |].
    + by rewrite !held_holds, (holds_udp_at _ _ _ _ _ _ Hi).
    + unfold charged. simpl. rewrite (length_deleted _ _ _ Hi). lia.
Qed.

Lemma service_step_with w w' :
  poll_keeps_sockets -> service_step w w' -> world_with extra more w -> world_with extra more w'.
Proof.
  intros Hkeep Hstep Hw. unfold world_with in *. destruct Hstep as
    [e w | host k w Hd | q w Hd | q w | t w Ht].
  - by apply pump_owned.
  - unfold start_query, with_stack. destruct (with_dns _ _ (inner (shared w))) as [r i] eqn:E.
    apply owned_ring. by eapply with_dns_owned.
  - unfold poll_query, peek_stack. destruct (with_dns _ _ (inner (shared w))) as [r i] eqn:E.
    assert (owned (set_inner i (shared w)) (held w ++ extra) (charged w + more)) by (by eapply with_dns_owned).
    by destruct r.
  - unfold cancel_query, with_stack. destruct (dns (inner (shared w))) eqn:Ed.
    + destruct (with_dns _ _ (inner (shared w))) as [r i] eqn:E. apply owned_ring.
      eapply with_dns_owned; [exact E | congruence | exact Hw].
    + by eapply (owned_same (shared w)).
  - destruct Hw as [H1 H2 H3 H4 H5]. split; try done. simpl. eapply Forall_impl; [exact H5 |].
    simpl. intros c Hc. lia.
Qed.

Lemma socket_step_with w w' :
  poll_keeps_sockets -> socket_step w w' -> world_with extra more w -> world_with extra more w'.
Proof.
  intros Hkeep [? ? Hs | ? ? Hs | ? ? Hs | ? ? Hs];
    eauto using stream_step_with, listener_step_with, datagram_step_with, service_step_with.
Qed.

End Steps.

Lemma socket_step_inv w w' : poll_keeps_sockets -> socket_step w w' -> world_inv w -> world_inv w'.
Proof. rewrite <- !world_with_nil. apply socket_step_with. Qed.

Lemma stream_step_inv w w' : stream_step w w' -> world_inv w -> world_inv w'.
Proof. rewrite <- !world_with_nil. apply stream_step_with. Qed.

Lemma listener_step_inv w w' : listener_step w w' -> world_inv w -> world_inv w'.
Proof. rewrite <- !world_with_nil. apply listener_step_with. Qed.

Lemma datagram_step_inv w w' : datagram_step w w' -> world_inv w -> world_inv w'.
Proof. rewrite <- !world_with_nil. apply datagram_step_with. Qed.

Lemma service_step_inv w w' : poll_keeps_sockets -> service_step w w' -> world_inv w -> world_inv w'.
Proof. rewrite <- !world_with_nil. apply service_step_with. Qed.

Lemma world_start_inv cfg outbound seed : world_inv (world_start cfg outbound seed).
Proof.
  unfold world_inv, stack_start. split; simpl; try done; [| unfold MAX_SOCKETS; lia].
  unfold dns_owner. simpl. case_bool_decide; simpl.
  - split; [constructor |]. intros h k. rewrite lookup_empty. set_solver.
  - split; [apply NoDup_singleton |]. intros h k. destruct (decide (h = 0%nat)) as [-> | Hne].
    + rewrite lookup_singleton_eq. simpl. rewrite list_elem_of_singleton. naive_solver.
    + rewrite lookup_singleton_ne by done. rewrite list_elem_of_singleton. naive_solver.
Qed.

Lemma socket_reachable_inv cfg outbound seed w :
  poll_keeps_sockets -> rtc socket_step (world_start cfg outbound seed) w -> world_inv w.
Proof.
  intros Hk Hr. eapply rtc_preserves; [| exact Hr | apply world_start_inv].
  intros x y. by apply socket_step_inv.
Qed.

End World.
Arguments World {_} C.

Lemma filter_split_perm {A} (f : A -> bool) b (l l1 l2 : list A) :
  l ≡ₚ (l1 ++ l2)%list -> Forall (fun x => f x = b) l1 -> Forall (fun x => f x = negb b) l2 ->
  filter (fun x => f x = b) l ≡ₚ l1.
Proof.
  intros Hp H1 H2. rewrite Hp, filter_app. clear Hp. assert (filter (fun x => f x = b) l2 = []) as ->.
  { induction H2 as [|x l2 Hx _ IH]; [done |]. rewrite filter_cons, decide_False; [done |]. rewrite Hx. by destruct b. }
  rewrite app_nil_r. induction H1 as [|x l1 Hx _ IH]; [done |]. rewrite filter_cons, decide_True by done.
  constructor. apply IH.
Qed.

(** What a pass leaves in the closing list still lingers. *)
Lemma reclaim_finished_lingering `{Smoltcp} {C} `{!Channel C Packet} up (s : StackShared C) :
  closing_ok (inner s) (closing (inner s)) ->
  let s' := reclaim_finished (clock (inner s)) up s in
  Forall (fun c => lingers (clock (inner s')) up (sockets (inner s')) c = true) (closing (inner s')).
Proof.
  intros Hok. destruct (reclaim_finished_spec (clock (inner s)) up s Hok)
    as (gone & kept & Hp & Hcl & _ & Hk & [R1 _ _ _ _ R6 _ _ _]). simpl. rewrite Hcl, R6.
  rewrite Forall_forall in *. intros c Hc. unfold lingers. rewrite R1, bool_decide_eq_false_2; [by apply Hk |].
  destruct Hok as [Hnd _]. rewrite Hp, fmap_app, NoDup_app in Hnd. destruct Hnd as (_ & Hdis & _).
  intros Hin. apply (Hdis _ Hin). by apply list_elem_of_fmap_2.
Qed.

(** After [stop], a client's stream socket is closed. *)
Lemma stopped_tcp `{SmoltcpLaws} {C} `{!Channel C Packet} h (s : StackShared C) hs n :
  owned s hs n -> (h, KTcp) ∈ hs ->
  exists t, sockets (inner (stop s)) !! h = Some (STcp t) /\ tcp_state t = Closed.
Proof.
  intros Ho Hin. destruct (tracks_lookup _ _ h KTcp (ow_tracks _ _ _ Ho)) as (k & Hs & Hk); [set_solver |].
  destruct k as [t | |]; try done. exists (tcp_abort t). simpl. rewrite lookup_fmap, Hs.
  split; [done | apply abort_closed].
Qed.

(** Operations on a closed socket do not wait. *)
Lemma closed_read `{SmoltcpLaws} {C} `{!Channel C Packet} st room (s : StackShared C) t :
  sockets (inner s) !! ts_handle st = Some (STcp t) -> tcp_state t = Closed -> (0 < room)%nat ->
  exists read, fst (poll_read room st s) = Ready (Ok read).
Proof.
  intros Ht Hc Hroom. unfold poll_read, peek_stack, with_tcp. rewrite Ht.
  destruct (tcp_may_recv t) eqn:Em; simpl; [| by eexists].
  destruct (may_recv_slice t room Hc Em Hroom) as (b & data & Hd).
  destruct (tcp_recv_slice room t) as [r t']. simpl in Hd. subst r. simpl. by eexists.
Qed.

Lemma closed_write `{SmoltcpLaws} {C} `{!Channel C Packet} st data (s : StackShared C) t :
  sockets (inner s) !! ts_handle st = Some (STcp t) -> tcp_state t = Closed ->
  fst (poll_write data st s) = Ready (Err (if shut_down st then shut_down_error else far_side_closed)).
Proof.
  intros Ht Hc. unfold poll_write, peek_stack, with_tcp. destruct (shut_down st); [done |].
  rewrite Ht. by rewrite (closed_may_send t Hc).
Qed.

Lemma closed_flush `{SmoltcpLaws} {C} `{!Channel C Packet} st (s : StackShared C) t :
  sockets (inner s) !! ts_handle st = Some (STcp t) -> tcp_state t = Closed ->
  fst (poll_flush st s) <> Pending.
Proof.
  intros Ht Hc. unfold poll_flush, peek_stack, with_tcp. rewrite Ht, (closed_may_send t Hc).
  rewrite bool_decide_eq_true_2 by done. by destruct (tcp_send_queue t =? 0)%nat.
Qed.

(** ** A concrete stack, for the witnesses *)

Definition toy_connected (t : TcpState) : TcpState := match t with SynSent => Established | t => t end.

#[local] Instance toy_smoltcp : Smoltcp := {|
  Tcp := TcpState; Udp := unit; Dns := unit; Iface := unit;
  tcp_new _ := Closed;
  tcp_state t := t;
  tcp_close t := match t with Established => FinWait1 | CloseWait => LastAck | _ => Closed end;
  tcp_abort _ := Closed;
  tcp_listen _ _ := Ok Listen;
  tcp_connect _ _ _ _ := Ok SynSent;
  tcp_may_send t := bool_decide (t = Established \/ t = CloseWait);
  tcp_may_recv t := bool_decide (t = Established);
  tcp_recv_slice _ t := (Some [], t);
  tcp_send_slice data t := (Some (length data), t);
  tcp_send_queue _ := 0%nat;
  tcp_remote_endpoint _ := None;
  tcp_is_listening t := bool_decide (t = Listen);
  tcp_listen_port _ := 0;
  udp_new _ _ := tt;
  udp_bind _ _ := Ok tt;
  udp_close _ := tt;
  udp_send_slice _ _ u := (Ok tt, u);
  udp_recv_slice _ u := (Err Exhausted, u);
  dns_new _ _ := tt;
  dns_start_query _ _ _ d := (Err NoFreeSlot, d);
  dns_query_result _ d := (QueryPending, d);
  dns_cancel_query _ d := d;
  iface_new _ _ := tt
|}.

#[local] Instance toy_laws : SmoltcpLaws.
Proof. split; simpl; [done | by intros ? -> | by intros ? ? ->]. Qed.

Definition toy_advance (k : Socket) : Socket :=
  match k with STcp t => STcp (toy_connected t : TcpState) | k => k end.

Definition toy_poll (now : Z) (x : Iface * WgPhy (ListChannel Packet) * gmap nat Socket)
  : Iface * WgPhy (ListChannel Packet) * gmap nat Socket :=
  let '(i, p, m) := x in (i, p, toy_advance <$> m).

Lemma toy_poll_keeps : poll_keeps_sockets toy_poll.
Proof.
  intros now i p m i' p' m' [= <- <- <-] h. rewrite lookup_fmap. by destruct (m !! h) as [[]|].
Qed.

Definition toy_config : StackConfig :=
  {| sc_addresses := []; sc_dns_servers := [V4 10 0 0 1]; sc_mtu := 1280; sc_proxy_config_id := "wg";
     sc_download_tuning := false |}.

Definition toy_freed : SlotFreed := {| slot_freed_id := 0 |}.

Definition toy_delay (now : Z) (i : Iface) (m : gmap nat Socket) : option Duration := None.

Definition toy_start : World (ListChannel Packet) :=
  Eval vm_compute in world_start toy_config (chan_new PACKET_QUEUE_DEPTH) 7.

Definition toy_remote : SocketAddr := {| sa_ip := V4 192 0 2 1; sa_port := 443 |}.

(** A dial, and the same world one pump pass later. *)
Definition toy_dialled : World (ListChannel Packet) :=
  Eval vm_compute in
  match stack_connect_start toy_freed toy_remote (shared toy_start) with
  | (Ok h, s) => {| shared := s; pending := [(h, toy_remote)]; streams := []; listeners := []; udps := [] |}
  | (Err _, s) => on_shared s toy_start
  end.

Definition toy_pumped : World (ListChannel Packet) :=
  Eval vm_compute in on_shared (pump_pass toy_poll toy_delay Slept (shared toy_dialled)) toy_dialled.

(** The connection opens, and its stream is dropped. *)
Definition toy_opened : World (ListChannel Packet) :=
  Eval vm_compute in
  {| shared := snd (stack_connect_end 1 toy_remote ConnOpened (shared toy_pumped)); pending := [];
     streams := [{| ts_handle := 1; peer := toy_remote; shut_down := false |}]; listeners := []; udps := [] |}.

Definition toy_dropped : World (ListChannel Packet) :=
  Eval vm_compute in
  {| shared := stream_drop {| ts_handle := 1; peer := toy_remote; shut_down := false |} (shared toy_opened);
     pending := []; streams := []; listeners := []; udps := [] |}.

Lemma toy_reaches_pumped :
  rtc (socket_step toy_freed toy_poll toy_delay) (world_start toy_config (chan_new PACKET_QUEUE_DEPTH) 7) toy_pumped.
Proof.
  eapply (rtc_l _ _ toy_dialled); [| eapply rtc_once].
  - apply by_stream. exact (st_connect toy_freed toy_remote (Ok 1%nat) (shared toy_dialled) toy_start eq_refl).
  - apply by_service. exact (st_pump toy_poll toy_delay Slept toy_dialled).
Qed.

Lemma toy_reaches_opened :
  rtc (socket_step toy_freed toy_poll toy_delay) (world_start toy_config (chan_new PACKET_QUEUE_DEPTH) 7) toy_opened.
Proof.
  eapply rtc_r; [apply toy_reaches_pumped |]. apply by_stream.
  exact (st_connect_end toy_freed 0 1 toy_remote ConnOpened
    (Some (Ok {| ts_handle := 1; peer := toy_remote; shut_down := false |})) _ toy_pumped eq_refl eq_refl).
Qed.

Lemma toy_reaches_dropped :
  rtc (socket_step toy_freed toy_poll toy_delay) (world_start toy_config (chan_new PACKET_QUEUE_DEPTH) 7) toy_dropped.
Proof.
  eapply rtc_r; [apply toy_reaches_opened |]. apply by_stream.
  exact (st_stream_drop toy_freed 0 {| ts_handle := 1; peer := toy_remote; shut_down := false |} toy_opened eq_refl).
Qed.

(** One more dial, and as many as fill the tunnel. *)
Definition toy_dial (w : World (ListChannel Packet)) : World (ListChannel Packet) :=
  let '(r, s) := stack_connect_start toy_freed toy_remote (shared w) in
  {| shared := s; pending := match r with Ok h => (h, toy_remote) :: pending w | Err _ => pending w end;
     streams := streams w; listeners := listeners w; udps := udps w |}.

Lemma toy_reaches_dials n :
  rtc (socket_step toy_freed toy_poll toy_delay) (world_start toy_config (chan_new PACKET_QUEUE_DEPTH) 7)
      (Nat.iter n toy_dial (world_start toy_config (chan_new PACKET_QUEUE_DEPTH) 7)).
Proof.
  induction n as [|n IH]; [done |]. eapply rtc_r; [exact IH |]. apply by_stream. simpl.
  set (w := Nat.iter n toy_dial _). unfold toy_dial.
  destruct (stack_connect_start toy_freed toy_remote (shared w)) as [r s] eqn:E.
  by apply (st_connect toy_freed toy_remote r s w).
Qed.

Definition toy_full : World (ListChannel Packet) :=
  Nat.iter 256 toy_dial (world_start toy_config (chan_new PACKET_QUEUE_DEPTH) 7).

(** ** Properties *)

(** C2: the socket budget is exact.  Whatever sequence of dials, reads,
    writes, shutdowns, drops, listens, accepts, datagram operations, name
    lookups and pump passes a stack goes through, its counter of open sockets
    is the number of connection attempts, streams and datagram sockets its
    clients hold plus the closing ones still charged, never above 256; every
    socket in the set has exactly one owner of its kind, and no operation has
    looked up a handle that is not there. *)
Theorem socket_slots_accounted `{Smoltcp} {C} `{!Channel C Packet} slot_freed iface_poll poll_delay cfg
    (outbound : C) seed w :
  poll_keeps_sockets iface_poll ->
  rtc (socket_step slot_freed iface_poll poll_delay) (world_start cfg outbound seed) w ->
  let i := inner (shared w) in
  let owners := (held w ++ closing_owners (closing i) ++ dns_owner i)%list in
  open_sockets (shared w)
    = (length (pending w) + length (streams w) + length (udps w) + counted (closing i))%nat
  /\ (open_sockets (shared w) <= MAX_SOCKETS)%nat
  /\ NoDup owners.*1
  /\ (forall h k, (h, k) ∈ owners <-> kind <$> sockets i !! h = Some k)
  /\ panicked i = false.
Proof.
  intros Hk Hr. destruct (socket_reachable_inv _ _ _ _ _ _ _ Hk Hr) as [[H1 H2] H3 H4 H5 _].
  split_and!; done.
Qed.

Lemma socket_slots_accounted_witness :
  open_sockets (shared toy_pumped) = 1%nat /\ length (pending toy_pumped) = 1%nat
  /\ panicked (inner (shared toy_pumped)) = false.
Proof.
  destruct (socket_slots_accounted toy_freed toy_poll toy_delay toy_config (chan_new PACKET_QUEUE_DEPTH) 7
    toy_pumped toy_poll_keeps toy_reaches_pumped) as (-> & _ & _ & _ & ->). done.
Defined.

(** What calls find on a stopped stack: a read of any open stream returns
    (what was buffered, or the end), a write fails, a flush returns, a pending
    connection is refused, an accept, a bind or a datagram operation fails with
    the tunnel's own error; none of them waits. *)
Theorem stop_releases_waiters `{SmoltcpLaws} {C} `{!Channel C Packet} slot_freed iface_poll poll_delay cfg
    (outbound : C) seed w :
  poll_keeps_sockets iface_poll ->
  rtc (socket_step slot_freed iface_poll poll_delay) (world_start cfg outbound seed) w ->
  let s := stop (shared w) in
  (forall st room data, st ∈ streams w -> (0 < room)%nat ->
     (exists read, fst (poll_read room st s) = Ready (Ok read))
     /\ fst (poll_write data st s) = Ready (Err (if shut_down st then shut_down_error else far_side_closed))
     /\ fst (poll_flush st s) <> Pending)
  /\ (forall h remote, (h, remote) ∈ pending w -> fst (tcp_connect_poll h s) = Ready false)
  /\ (forall l, fst (accept_poll l s) = Ready (Err tunnel_stopped))
  /\ (forall u data remote room,
        fst (send_to data remote u s) = Ready (Err udp_stopped)
        /\ fst (recv_from room u s) = Ready (Err udp_stopped))
  /\ (forall address backlog, fst (listener_bind address backlog s) = Err tunnel_stopped)
  /\ (forall port packets bytes, fst (bind_udp_sized slot_freed port packets bytes s) = Err tunnel_stopped).
Proof.
  intros Hk Hr. pose proof (socket_reachable_inv _ _ _ _ _ _ _ Hk Hr) as Hw. split_and!; try done.
  - intros st room data Hst Hroom.
    destruct (stopped_tcp (ts_handle st) (shared w) (held w) (charged w) Hw) as (t & Ht & Hc); [by apply held_stream |].
    split_and!; [by eapply closed_read | by eapply closed_write | by eapply closed_flush].
  - intros h remote Hp.
    destruct (stopped_tcp h (shared w) (held w) (charged w) Hw) as (t & Ht & Hc); [by eapply held_pending |].
    unfold tcp_connect_poll, peek_stack, with_tcp. by rewrite Ht, Hc.
Qed.

Lemma stop_releases_waiters_witness :
  streams toy_opened = [{| ts_handle := 1; peer := toy_remote; shut_down := false |}]
  /\ fst (poll_write [1; 2] {| ts_handle := 1; peer := toy_remote; shut_down := false |} (shared toy_opened))
     = Ready (Ok 2%nat)
  /\ fst (poll_write [1; 2] {| ts_handle := 1; peer := toy_remote; shut_down := false |} (stop (shared toy_opened)))
     = Ready (Err far_side_closed).
Proof.
  destruct (stop_releases_waiters toy_freed toy_poll toy_delay toy_config (chan_new PACKET_QUEUE_DEPTH) 7
    toy_opened toy_poll_keeps toy_reaches_opened) as (Hs & _).
  split_and!; [done | vm_compute; reflexivity |].
  destruct (Hs {| ts_handle := 1; peer := toy_remote; shut_down := false |} 1%nat [1; 2]) as (_ & Hw & _);
    [by left | lia | exact Hw].
Defined.

(** C38: reclaiming in place is filtering.  On any reachable stack the
    [swap_remove] loop of [reclaim_finished], which restarts at the index it
    removed from, leaves in some order exactly the closed sockets a filter keeps
    (neither closed, nor in TIME-WAIT when [up] says to take those, nor past the
    deadline), takes from the socket set exactly the others, and gives back as
    many slots, and rings the signal as often, as there were charged ones among
    them. *)
Theorem reclaim_is_filter `{Smoltcp} {C} `{!Channel C Packet} slot_freed iface_poll poll_delay cfg
    (outbound : C) seed w now up :
  poll_keeps_sockets iface_poll ->
  rtc (socket_step slot_freed iface_poll poll_delay) (world_start cfg outbound seed) w ->
  let s := shared w in
  let s' := reclaim_finished now up s in
  let keep c := lingers now up (sockets (inner s)) c in
  let gone := filter (fun c => keep c = false) (closing (inner s)) in
  closing (inner s') ≡ₚ filter (fun c => keep c = true) (closing (inner s))
  /\ sockets (inner s') = filter (fun '(h, _) => h ∉ cl_handle <$> gone) (sockets (inner s))
  /\ (open_sockets s' + counted gone = open_sockets s)%nat /\ freed s' = (freed s + counted gone)%nat
  /\ panicked (inner s') = false.
Proof.
  intros Hk Hr s s' keep gone. pose proof (socket_reachable_inv _ _ _ _ _ _ _ Hk Hr) as Hw.
  destruct (reclaim_finished_spec now up s (owned_closing_ok _ _ _ Hw)) as (g & kept & Hp & Hcl & Hg & Hkept & Hrc).
  assert (Hgone : gone ≡ₚ g) by (by apply (filter_split_perm keep false _ g kept)).
  assert (Hc : counted gone = counted g) by (by apply counted_perm).
  split_and!.
  - unfold s'. rewrite Hcl. symmetry. apply (filter_split_perm keep true _ kept g).
    + by rewrite Hp, Permutation_app_comm.
    + exact Hkept.
    + exact Hg.
  - apply map_eq. intros h. rewrite (rc_sockets _ _ _ Hrc).
    destruct (decide (h ∈ cl_handle <$> g)) as [Hin | Hin].
    + rewrite bool_decide_eq_true_2 by done. symmetry. apply map_lookup_filter_None. right. intros k _ Hn. apply Hn. by rewrite Hgone.
    + rewrite bool_decide_eq_false_2 by done. destruct (sockets (inner s) !! h) as [k|] eqn:E; symmetry.
      * apply map_lookup_filter_Some. split; [done |]. by rewrite Hgone.
      * apply map_lookup_filter_None. by left.
  - unfold s'. rewrite (rc_open _ _ _ Hrc), Hc. destruct Hw as [_ Ho _ _ _]. fold s in Ho.
    rewrite (counted_perm _ _ Hp), counted_app in Ho. lia.
  - unfold s'. by rewrite Hc, (rc_freed _ _ _ Hrc).
  - unfold s'. rewrite (rc_panicked _ _ _ Hrc). apply Hw.
Qed.

Lemma reclaim_is_filter_witness :
  closing (inner (reclaim_finished 10000001 false (shared toy_dropped))) = []
  /\ (open_sockets (reclaim_finished 10000001 false (shared toy_dropped)) + 1 = 1)%nat.
Proof.
  destruct (reclaim_is_filter toy_freed toy_poll toy_delay toy_config (chan_new PACKET_QUEUE_DEPTH) 7
    toy_dropped 10000001 false toy_poll_keeps toy_reaches_dropped) as (Hc & _ & Ho & _).
  split; [apply Permutation_nil_r; rewrite Hc; vm_compute; reflexivity |].
  etransitivity; [| etransitivity; [exact Ho |]]; vm_compute; reflexivity.
Defined.
