(* ===== verification/WgClaims.v ===== *)
(** * Claims on the socket budget, interleaved ([claim_socket] of [src/wireguard/stack.rs] and its callers)

    [claim_socket] looks at the counter, sweeps the closed sockets under the lock
    when the tunnel looks full, and only then updates the counter; its callers
    are [WgStack::connect], [bind_udp_sized] and [WgTcpListener::accept].  Other
    tasks run between any two of these.  This file gives each its own step, next
    to every other operation of [WgSlots]. *)

From Stdlib Require Import ZArith Lia String Ascii.
From stdpp Require Import gmap strings numbers prelude.
From S2P Require Import Prelude Net Errors Runtime Provider WgSpec WgLink WgStack WgSockets WgResolve WgSlots.

Open Scope Z_scope.

(** Who claims: an accept has taken its connection off the backlog and
    replenished it. *)
Inductive Purpose : Type :=
| Dialling (remote : SocketAddr)
| Binding (port : Z) (packets : nat) (bytes : Z)
| Accepting (h : nat) (from : SocketAddr) (l : WgTcpListener).

(** How far the claim is: [Looked] keeps the counter it loaded, [Swept] the stack
    its sweep left, to state what it knew. *)
Inductive Stage (S : Type) : Type :=
| Arrived
| Looked (open : nat)
| Swept (after : S)
| Taken
| Refused (e : TunnelError).
Arguments Arrived {_}.
Arguments Looked {_} open.
Arguments Swept {_} after.
Arguments Taken {_}.
Arguments Refused {_} e.

Section Claims.
Context `{Smoltcp} {C : Type} `{!Channel C Packet}.
Variable slot_freed : SlotFreed.
Variable iface_poll : Z -> Iface * WgPhy C * gmap nat Socket -> Iface * WgPhy C * gmap nat Socket.
Variable poll_delay : Z -> Iface -> gmap nat Socket -> option Duration.
Notation Stack := (StackShared C).

(** [since]: how many slots had been taken, by anyone, when the claim looked or
    swept last. *)
Record Claim : Type := { purpose : Purpose; stage : Stage Stack; since : nat }.
Record Claims : Type := { world : World C; claims : list Claim; takes : nat }.

Definition claims_start (cfg : StackConfig) (outbound : C) (seed : Z) : Claims :=
  {| world := world_start cfg outbound seed; claims := []; takes := 0 |}.

Definition on_world (w : World C) (c : Claims) : Claims := {| world := w; claims := claims c; takes := takes c |}.

Definition arrive (p : Purpose) (c : Claims) : Claims :=
  {| world := world c; claims := {| purpose := p; stage := Arrived; since := takes c |} :: claims c; takes := takes c |}.

(** Claim [k], made for [p], is now at stage [g]. *)
Definition at_stage (k : nat) (p : Purpose) (g : Stage Stack) (since : nat) (c : Claims) : Claims :=
  {| world := world c; claims := <[k := {| purpose := p; stage := g; since := since |}]> (claims c); takes := takes c |}.

Definition look (k : nat) (p : Purpose) (c : Claims) : Claims :=
  at_stage k p (Looked (open_sockets (shared (world c)))) (takes c) c.

Definition sweep (k : nat) (p : Purpose) (c : Claims) : Claims :=
  let s := claim_sweep (shared (world c)) in
  at_stage k p (Swept s) (takes c) (on_world (on_shared s (world c)) c).

(** The [fetch_update], of a claim that looked or swept at [t]. *)
Definition update (k : nat) (p : Purpose) (t : nat) (c : Claims) : Claims :=
  match claim_update slot_freed (shared (world c)) with
  | (Ok _, s) =>
      at_stage k p Taken t {| world := on_shared s (world c); claims := claims c; takes := S (takes c) |}
  | (Err e, s) => at_stage k p (Refused e) t (on_world (on_shared s (world c)) c)
  end.

(** What the caller does with a slot. *)
Definition settle_taken (p : Purpose) (w : World C) : World C :=
  match p with
  | Dialling remote =>
      match tcp_connect_start remote (shared w) with
      | (Ok h, s) => {| shared := s; pending := (h, remote) :: pending w; streams := streams w;
                        listeners := listeners w; udps := udps w |}
      | (Err _, s) => on_shared (release_socket s) w
      end
  | Binding port packets bytes =>
      match udp_bind_socket port packets bytes (shared w) with
      | (Ok u, s) => {| shared := s; pending := pending w; streams := streams w;
                        listeners := listeners w; udps := u :: udps w |}
      | (Err _, s) => on_shared (release_socket s) w
      end
  | Accepting h from l =>
      {| shared := shared w; pending := pending w;
         streams := {| ts_handle := h; peer := from; shut_down := false |} :: streams w;
         listeners := l :: listeners w; udps := udps w |}
  end.

(** What it does without one: an accepted connection is reset. *)
Definition settle_refused (p : Purpose) (w : World C) : World C :=
  match p with
  | Dialling _ | Binding _ _ _ => w
  | Accepting h _ l =>
      {| shared := on_inner (fun i => retire h false (tcp_map h tcp_abort i)) (shared w); pending := pending w;
         streams := streams w; listeners := l :: listeners w; udps := udps w |}
  end.

Definition settled (k : nat) (w : World C) (c : Claims) : Claims :=
  {| world := w; claims := delete k (claims c); takes := takes c |}.

(** A claim updates when it saw a free slot, or has swept. *)
Definition updates (g : Stage Stack) : bool :=
  match g with Looked open => (open <? MAX_SOCKETS)%nat | Swept _ => true | _ => false end.

(** [cs_other]: any operation that takes no slot; slots are taken by claims. *)
Inductive claims_step : Claims -> Claims -> Prop :=
| cs_other w c :
    socket_step slot_freed iface_poll poll_delay (world c) w ->
    (open_sockets (shared w) <= open_sockets (shared (world c)))%nat -> claims_step c (on_world w c)
| cs_dial remote c : claims_step c (arrive (Dialling remote) c)
| cs_bind port packets bytes c :
    stopped (shared (world c)) = false -> claims_step c (arrive (Binding port packets bytes) c)
| cs_accept i l index found h fresh s1 s c :
    listeners (world c) !! i = Some l ->
    accept_poll l (shared (world c)) = (Ready (Ok (index, found)), s1) -> listening l !! index = Some h ->
    listen_one (sa_port (local l)) s1 = (Ok fresh, s) ->
    claims_step c
      (arrive (Accepting h (default UNKNOWN_PEER found)
                 {| local := local l; listening := swap_remove index (listening l) ++ [fresh] |})
         (on_world {| shared := s; pending := pending (world c); streams := streams (world c);
                      listeners := delete i (listeners (world c)); udps := udps (world c) |} c))
| cs_look k p t c : claims c !! k = Some {| purpose := p; stage := Arrived; since := t |} -> claims_step c (look k p c)
| cs_sweep k p open t c :
    claims c !! k = Some {| purpose := p; stage := Looked open; since := t |} -> (MAX_SOCKETS <= open)%nat ->
    claims_step c (sweep k p c)
| cs_update k p g t c :
    claims c !! k = Some {| purpose := p; stage := g; since := t |} -> updates g = true ->
    claims_step c (update k p t c)
| cs_taken k p t c :
    claims c !! k = Some {| purpose := p; stage := Taken; since := t |} ->
    claims_step c (settled k (settle_taken p (world c)) c)
| cs_refused k p e t c :
    claims c !! k = Some {| purpose := p; stage := Refused e; since := t |} ->
    claims_step c (settled k (settle_refused p (world c)) c).

(** ** The invariant *)

Definition carries (p : Purpose) : list (nat * Kind) :=
  match p with Accepting h _ l => (h, KTcp) :: tcp_handles (listening l) | _ => [] end.

Definition carried (cs : list Claim) : list (nat * Kind) := cs ≫= fun c => carries (purpose c).

Definition takes_slot (g : Stage Stack) : nat := match g with Taken => 1 | _ => 0 end.

(** The slots taken by claims that are not settled. *)
Definition in_hand (cs : list Claim) : nat := sum_list_with (fun c => takes_slot (stage c)) cs.

(** What a claim knew still bounds the counter, by what was taken since. *)
Definition knows (c : Claims) (x : Claim) : Prop :=
  (since x <= takes c)%nat
  /\ match stage x with
     | Looked open => (open_sockets (shared (world c)) <= open + (takes c - since x))%nat
     | Swept after =>
         (open_sockets (shared (world c)) <= open_sockets after + (takes c - since x))%nat
         /\ (open_sockets after <= MAX_SOCKETS)%nat
         /\ Forall (fun k => lingers (clock (inner after)) true (sockets (inner after)) k = true) (closing (inner after))
     | Refused e => e = AtCapacity (Z.of_nat MAX_SOCKETS) slot_freed
     | Arrived | Taken => True
     end.

Record claims_inv (c : Claims) : Prop := {
  ci_world : world_with (carried (claims c)) (in_hand (claims c)) (world c);
  ci_knows : Forall (knows c) (claims c)
}.

#[local] Instance carried_perm : Proper (Permutation ==> Permutation) carried.
Proof. intros l l' Hp. unfold carried. by rewrite Hp. Qed.

#[local] Instance in_hand_perm : Proper (Permutation ==> eq) in_hand.
Proof. intros l l' Hp. unfold in_hand. by rewrite Hp. Qed.

Lemma in_hand_at k x cs : cs !! k = Some x -> in_hand cs = (takes_slot (stage x) + in_hand (delete k cs))%nat.
Proof. intros Hk. by rewrite (delete_Permutation _ _ _ Hk) at 1. Qed.

Lemma carried_at k x cs : cs !! k = Some x -> carried cs ≡ₚ (carries (purpose x) ++ carried (delete k cs))%list.
Proof. intros Hk. by rewrite (delete_Permutation _ _ _ Hk) at 1. Qed.

Lemma carried_stage k x y cs : cs !! k = Some x -> purpose y = purpose x -> carried (<[k := y]> cs) ≡ₚ carried cs.
Proof.
  intros Hk Hp. rewrite (insert_delete_perm _ _ _ y Hk), (carried_at _ _ _ Hk), <- Hp. done.
Qed.

Lemma in_hand_stage k x y cs :
  cs !! k = Some x -> (in_hand (<[k := y]> cs) + takes_slot (stage x) = in_hand cs + takes_slot (stage y))%nat.
Proof.
  intros Hk. rewrite (insert_delete_perm _ _ _ y Hk), (in_hand_at _ _ _ Hk).
  change (in_hand (y :: delete k cs)) with (takes_slot (stage y) + in_hand (delete k cs))%nat. lia.
Qed.

(** The counter rises only by what is taken. *)
Definition grows (c c' : Claims) : Prop :=
  (takes c <= takes c')%nat
  /\ (open_sockets (shared (world c')) + takes c <= open_sockets (shared (world c)) + takes c')%nat.

Lemma knows_grows c c' x : grows c c' -> knows c x -> knows c' x.
Proof.
  intros [G1 G2] [K1 K2]. split; [lia |]. destruct (stage x) as [|open|after| |e]; try done; [lia |].
  destruct K2 as (K2 & K3 & K4). split_and!; [lia | done | done].
Qed.

Lemma inv_stage k x y c c' n :
  claims c !! k = Some x -> claims c' = <[k := y]> (claims c) -> purpose y = purpose x -> grows c c' ->
  world_with (carried (claims c)) n (world c') ->
  (n + takes_slot (stage x) = in_hand (claims c) + takes_slot (stage y))%nat -> knows c' y -> claims_inv c -> claims_inv c'.
Proof.
  intros Hk Hc Hp Hg Hw Hn Hy [_ H2]. split.
  - eapply owned_move; [exact Hw | | f_equal].
    + by rewrite Hc, (carried_stage _ _ _ _ Hk Hp).
    + rewrite Hc. pose proof (in_hand_stage _ _ y _ Hk). lia.
  - rewrite Hc. apply Forall_insert; [| done]. eapply Forall_impl; [exact H2 |]. intros z. by apply knows_grows.
Qed.

Lemma inv_settled k x c w :
  claims c !! k = Some x -> (open_sockets (shared w) <= open_sockets (shared (world c)))%nat ->
  world_with (carried (delete k (claims c))) (in_hand (delete k (claims c))) w -> claims_inv c -> claims_inv (settled k w c).
Proof.
  intros Hk Ho Hw [_ H2]. split; [done |]. simpl. rewrite (delete_Permutation _ _ _ Hk) in H2.
  apply Forall_cons_1 in H2 as [_ H2]. eapply Forall_impl; [exact H2 |]. intros z. apply knows_grows. split; simpl; lia.
Qed.

Lemma inv_arrive p c w :
  (open_sockets (shared w) <= open_sockets (shared (world c)))%nat ->
  world_with (carries p ++ carried (claims c)) (in_hand (claims c)) w -> claims_inv c ->
  claims_inv (arrive p (on_world w c)).
Proof.
  intros Ho Hw [_ H2]. split; [done |]. simpl. constructor; [split; simpl; [lia | done] |].
  eapply Forall_impl; [exact H2 |]. intros z. apply knows_grows. split; simpl; lia.
Qed.

(** The operations between two looks at the counter leave it alone. *)
Lemma open_listen_one port (s : Stack) : open_sockets (snd (listen_one port s)) = open_sockets s.
Proof. unfold listen_one, with_stack. by destruct (add_tcp_socket _), (with_tcp _ _ _ _) as [[] ?]. Qed.

Lemma open_accept_poll l (s : Stack) : open_sockets (snd (accept_poll l s)) = open_sockets s.
Proof. unfold accept_poll, peek_stack. destruct (stopped s); [done |]. by destruct (accept_scan _ _ _ _) as [[] ?]. Qed.

Lemma open_connect_start remote (s : Stack) : open_sockets (snd (tcp_connect_start remote s)) = open_sockets s.
Proof.
  unfold tcp_connect_start, with_stack. destruct (add_tcp_socket _), (next_ephemeral_port _), (with_tcp _ _ _ _) as [[] ?].
  all: done.
Qed.

Lemma open_udp_bind port packets bytes (s : Stack) :
  open_sockets (snd (udp_bind_socket port packets bytes s)) = open_sockets s.
Proof.
  unfold udp_bind_socket, with_stack. destruct (add_udp_socket_sized _ _ _).
  destruct (if port =? 0 then _ else _), (with_udp _ _ _ _) as [[] ?]; done.
Qed.

Lemma open_sweep (s : Stack) hs n :
  owned s hs n ->
  let s' := claim_sweep s in
  owned s' hs n /\ (open_sockets s' <= open_sockets s)%nat
  /\ Forall (fun k => lingers (clock (inner s')) true (sockets (inner s')) k = true) (closing (inner s')).
Proof.
  intros Ho s'. pose proof (owned_closing_ok _ _ _ Ho) as Hok.
  split_and!; [by apply owned_ring, owned_reclaim | | by apply reclaim_finished_lingering].
  destruct (reclaim_finished_spec (clock (inner s)) true s Hok) as (gone & kept & _ & _ & _ & _ & Hr).
  unfold s', claim_sweep. simpl. rewrite (rc_open _ _ _ Hr). lia.
Qed.

Lemma claim_update_cases (s : Stack) hs n :
  owned s hs n ->
  ((open_sockets s < MAX_SOCKETS)%nat
   /\ exists s', claim_update slot_freed s = (Ok tt, s') /\ open_sockets s' = S (open_sockets s) /\ owned s' hs (S n))
  \/ (open_sockets s = MAX_SOCKETS
      /\ claim_update slot_freed s = (Err (AtCapacity (Z.of_nat MAX_SOCKETS) slot_freed), s)).
Proof.
  intros [H1 H2 H3 H4 H5]. unfold claim_update. destruct (Nat.ltb_spec (open_sockets s) MAX_SOCKETS); [left | right].
  - split; [done |]. eexists. split; [done |]. split; [done |]. split; simpl; try done; lia.
  - split; [lia | done].
Qed.

Lemma settle_taken_with p extra n w :
  world_with (carries p ++ extra) (S n) w ->
  world_with extra n (settle_taken p w)
  /\ (open_sockets (shared (settle_taken p w)) <= open_sockets (shared w))%nat.
Proof.
  unfold world_with. destruct p as [remote | port packets bytes | h from l]; simpl; intros Ho.
  - pose proof (open_connect_start remote (shared w)) as Hs.
    destruct (tcp_connect_start remote (shared w)) as [[h | e] s] eqn:E; apply (connect_start_owned _ _ _ _ _ _ Ho) in E;
      simpl in *; (split; [| lia]).
    + eapply owned_move; [exact E | done |]. unfold charged. simpl. lia.
    + apply owned_release. eapply owned_move; [exact E | done |]. unfold charged. simpl. lia.
  - pose proof (open_udp_bind port packets bytes (shared w)) as Hs.
    destruct (udp_bind_socket _ _ _ (shared w)) as [[u | e] s] eqn:E; apply (udp_bind_owned _ _ _ _ _ _ _ _ Ho) in E;
      simpl in *; (split; [| lia]).
    + eapply owned_move; [exact E | | unfold charged; simpl; lia]. rewrite !held_holds. simpl. by rewrite holds_udp.
    + apply owned_release. eapply owned_move; [exact E | done |]. unfold charged. simpl. lia.
  - split; [| lia]. eapply owned_move; [exact Ho | | unfold charged; simpl; lia].
    rewrite !held_holds. simpl. rewrite holds_stream, holds_listener. simpl. rewrite <- app_assoc.
    rewrite <- Permutation_middle. constructor. by rewrite Permutation_app_swap_app.
Qed.

Lemma settle_refused_with p extra n w :
  world_with (carries p ++ extra) n w ->
  world_with extra n (settle_refused p w)
  /\ open_sockets (shared (settle_refused p w)) = open_sockets (shared w).
Proof.
  unfold world_with. destruct p as [remote | port packets bytes | h from l]; simpl; intros Ho; [done | done |].
  split; [| done]. apply owned_ring, (owned_retire h false (set_inner (tcp_map h tcp_abort (inner (shared w))) (shared w))).
  apply tcp_map_owned; [| by left]. eapply owned_move; [exact Ho | | done].
  rewrite !held_holds. simpl. rewrite holds_listener, <- app_assoc.
  rewrite <- Permutation_middle. constructor. by rewrite Permutation_app_swap_app.
Qed.

Lemma accepting_with i l index found h fresh (s1 s : Stack) w extra n :
  world_with extra n w -> listeners w !! i = Some l ->
  accept_poll l (shared w) = (Ready (Ok (index, found)), s1) -> listening l !! index = Some h ->
  listen_one (sa_port (local l)) s1 = (Ok fresh, s) ->
  world_with ((h, KTcp) :: tcp_handles (swap_remove index (listening l) ++ [fresh]) ++ extra) n
    {| shared := s; pending := pending w; streams := streams w; listeners := delete i (listeners w); udps := udps w |}
  /\ open_sockets s = open_sockets (shared w).
Proof.
  intros Hw Hi Ha Hh Hl. pose proof (open_accept_poll l (shared w)) as P1. rewrite Ha in P1.
  pose proof (open_listen_one (sa_port (local l)) s1) as P2. rewrite Hl in P2. simpl in P1, P2. split; [| congruence].
  set (rest := (holds (pending w) (streams w) (delete i (listeners w)) (udps w) ++ extra)%list).
  assert (O1 : owned (shared w) (tcp_handles (listening l) ++ rest) (charged w + n)).
  { eapply owned_move; [exact Hw | | done]. unfold rest. by rewrite held_holds, (holds_listener_at _ _ _ _ _ _ Hi), app_assoc. }
  assert (O2 : owned s1 (tcp_handles (listening l) ++ rest) (charged w + n)).
  { unfold accept_poll, peek_stack in Ha. destruct (stopped (shared w)); [done |].
    destruct (accept_scan _ 0 (listening l) _) as [r j] eqn:E.
    destruct (accept_scan_owned _ _ _ _ _ _ _ _ O1 ltac:(intros x Hx; apply elem_of_app; left;
      by apply (list_elem_of_fmap_2 (fun h => (h, KTcp)))) E) as [O2 _].
    destruct r as [[? ?]|]; by simplify_eq. }
  apply (listen_one_owned _ _ _ _ _ _ O2) in Hl. eapply owned_move; [exact Hl | | done].
  pose proof (swap_remove_perm _ _ _ Hh) as Hp. apply (fmap_Permutation (fun h => (h, KTcp))) in Hp.
  unfold tcp_handles, rest. rewrite Hp, held_holds, fmap_app. simpl. rewrite <- !app_assoc. simpl.
  rewrite <- !Permutation_middle. rewrite perm_swap. do 2 constructor. by rewrite Permutation_app_swap_app.
Qed.

Hypothesis keeps : poll_keeps_sockets iface_poll.

Lemma claims_step_inv c c' : claims_step c c' -> claims_inv c -> claims_inv c'.
Proof.
  intros Hstep Hc. pose proof Hc as [Hw Hk]. destruct Hstep as [w c Hs Ho | remote c | port packets bytes c Hs
    | i l index found h fresh s1 s c Hi Ha Hh Hl | k p t c Hx | k p open t c Hx Ho | k p g t c Hx Hg | k p t c Hx | k p e t c Hx].
  - split; [by eapply socket_step_with |]. eapply Forall_impl; [exact Hk |]. intros z. apply knows_grows. split; simpl; lia.
  - by apply (inv_arrive (Dialling remote) c (world c)).
  - by apply (inv_arrive (Binding port packets bytes) c (world c)).
  - destruct (accepting_with i l index found h fresh s1 s (world c) _ _ Hw Hi Ha Hh Hl) as [W1 W2].
    apply inv_arrive; [simpl; lia | done | done].
  - by eapply inv_stage; [exact Hx | done | done | split; simpl; lia | exact Hw | done | split; simpl; lia |].
  - destruct (open_sweep _ _ _ Hw) as (S1 & S2 & S3).
    eapply inv_stage; [exact Hx | done | done | split; simpl in *; lia | exact S1 | done | | done].
    split; simpl; [lia |]. split_and!; [lia | | done]. destruct S1. done.
  - unfold update. assert (Hz : takes_slot g = 0%nat) by (by destruct g).
    pose proof (Forall_lookup_1 _ _ _ _ Hk Hx) as [Ht _]. simpl in Ht.
    destruct (claim_update_cases _ _ _ Hw) as [(Ho & s & -> & E & S1) | [Ho ->]].
    + eapply inv_stage; [exact Hx | done | done | split; simpl; lia | | | split; simpl; [lia | done] | done].
      * eapply owned_move; [exact S1 | done |]. instantiate (1 := S (in_hand (claims c))). unfold charged. simpl. lia.
      * simpl. lia.
    + by eapply inv_stage; [exact Hx | done | done | split; simpl; lia | exact Hw | simpl; lia | split; simpl; [lia | done] |].
  - assert (Hw' : world_with (carries p ++ carried (delete k (claims c))) (S (in_hand (delete k (claims c)))) (world c)).
    { eapply owned_move; [exact Hw | | f_equal]; [by rewrite (carried_at _ _ _ Hx) | by rewrite (in_hand_at _ _ _ Hx)]. }
    apply settle_taken_with in Hw' as [W1 W2]. by eapply inv_settled.
  - assert (Hw' : world_with (carries p ++ carried (delete k (claims c))) (in_hand (delete k (claims c))) (world c)).
    { eapply owned_move; [exact Hw | | f_equal]; [by rewrite (carried_at _ _ _ Hx) | by rewrite (in_hand_at _ _ _ Hx)]. }
    apply settle_refused_with in Hw' as [W1 W2]. eapply inv_settled; [exact Hx | lia | done | done].
Qed.

Lemma claims_reachable_inv cfg outbound seed c : rtc claims_step (claims_start cfg outbound seed) c -> claims_inv c.
Proof.
  intros Hr. eapply rtc_preserves; [apply claims_step_inv | exact Hr |].
  split; [| done]. apply world_with_nil. apply (world_start_inv iface_poll poll_delay).
Qed.

End Claims.
Arguments Claims {_} C.

(** A run that fills the tunnel, and one more dial that has swept it. *)
#[local] Existing Instance toy_smoltcp.

Definition toy_dials (c : Claims (ListChannel Packet)) : Claims (ListChannel Packet) :=
  if (open_sockets (shared (world c)) <? MAX_SOCKETS)%nat
  then let c := look 0 (Dialling toy_remote) (arrive (Dialling toy_remote) c) in
       let c := update toy_freed 0 (Dialling toy_remote) (takes c) c in
       settled 0 (settle_taken (Dialling toy_remote) (world c)) c
  else c.

Definition toy_claims (n : nat) : Claims (ListChannel Packet) :=
  Nat.iter n toy_dials (claims_start toy_config (chan_new PACKET_QUEUE_DEPTH) 7).

(** One more dial looks, and sweeps. *)
Definition toy_sweeps (c : Claims (ListChannel Packet)) : Claims (ListChannel Packet) :=
  sweep 0 (Dialling toy_remote) (look 0 (Dialling toy_remote) (arrive (Dialling toy_remote) c)).

Lemma toy_dials_step c :
  claims c = [] -> rtc (claims_step toy_freed toy_poll toy_delay) c (toy_dials c) /\ claims (toy_dials c) = [].
Proof.
  intros Hc. unfold toy_dials. destruct (open_sockets (shared (world c)) <? MAX_SOCKETS)%nat eqn:E; [| done].
  set (c1 := arrive (Dialling toy_remote) c). set (c2 := look 0 (Dialling toy_remote) c1).
  assert (Hu : exists s, claim_update toy_freed (shared (world c2)) = (Ok tt, s))
    by (unfold claim_update; simpl; rewrite E; eauto).
  destruct Hu as [s Hu].
  assert (Hx : claims (update toy_freed 0 (Dialling toy_remote) (takes c2) c2)
    = [{| purpose := Dialling toy_remote; stage := Taken; since := takes c2 |}])
    by (unfold update; rewrite Hu; simpl; by rewrite Hc).
  cbv zeta. fold c1. fold c2. set (c3 := update _ _ _ _ c2) in *.
  split; [| unfold settled; cbn [claims]; by rewrite Hx].
  eapply rtc_l; [apply (cs_dial _ _ _ toy_remote) |].
  eapply rtc_l; [apply (cs_look _ _ _ 0 (Dialling toy_remote) (takes c)); reflexivity |].
  eapply rtc_l; [apply (cs_update _ _ _ 0 (Dialling toy_remote) (Looked (open_sockets (shared (world c1)))) (takes c));
    [reflexivity | exact E] |].
  apply rtc_once. apply (cs_taken _ _ _ 0 (Dialling toy_remote) (takes c2)). by rewrite Hx.
Qed.

Lemma toy_claims_reach n :
  rtc (claims_step toy_freed toy_poll toy_delay) (claims_start toy_config (chan_new PACKET_QUEUE_DEPTH) 7) (toy_claims n)
  /\ claims (toy_claims n) = [].
Proof.
  induction n as [|n [IH1 IH2]]; [done |]. destruct (toy_dials_step _ IH2) as [H1 H2].
  split; [by etransitivity | exact H2].
Qed.

Lemma toy_sweeps_step c :
  open_sockets (shared (world c)) = 256%nat -> rtc (claims_step toy_freed toy_poll toy_delay) c (toy_sweeps c).
Proof.
  intros Ho. eapply rtc_l; [apply (cs_dial _ _ _ toy_remote) |].
  eapply rtc_l; [apply (cs_look _ _ _ 0 (Dialling toy_remote) (takes c)); reflexivity |].
  apply rtc_once. eapply (cs_sweep _ _ _ 0 (Dialling toy_remote)); [reflexivity |]. simpl. by rewrite Ho.
Qed.

Lemma toy_fills :
  let c := toy_claims 256 in
  open_sockets (shared (world c)) = 256%nat /\ length (pending (world c)) = 256%nat
  /\ match fst (claim_update toy_freed (shared (world (toy_sweeps c)))) with Ok _ => false | Err _ => true end = true.
Proof. vm_compute. done. Qed.

(** ** Properties *)

(** C28: a slot is refused only when the tunnel is full.  However claims
    interleave with each other and with everything else, the counter is what the
    clients hold, the slots claims have taken and not used yet, and the closed
    sockets still charged, 256 at most; an update is granted exactly below 256,
    and a refusal names the 256 sockets and this tunnel's signal.  A refused
    claim lost its slot to another claim since it looked or swept; or it has
    swept, the sweep left 256, and no closed socket it left had closed, reached
    TIME-WAIT or passed its deadline. *)
Theorem slots_refused_only_full `{Smoltcp} {C} `{!Channel C Packet} slot_freed iface_poll poll_delay cfg
    (outbound : C) seed c :
  poll_keeps_sockets iface_poll ->
  rtc (claims_step slot_freed iface_poll poll_delay) (claims_start cfg outbound seed) c ->
  let s := shared (world c) in
  let taken := (charged (world c) + in_hand (claims c) + counted (closing (inner s)))%nat in
  open_sockets s = taken /\ (taken <= 256)%nat
  /\ (forall k p e t, claims c !! k = Some {| purpose := p; stage := Refused e; since := t |} ->
        e = AtCapacity 256 slot_freed)
  /\ forall k p g t, claims c !! k = Some {| purpose := p; stage := g; since := t |} -> updates g = true ->
       match fst (claim_update slot_freed s) with
       | Ok _ => (taken < 256)%nat
       | Err e =>
           e = AtCapacity 256 slot_freed /\ taken = 256%nat
           /\ ((t < takes c)%nat
               \/ exists after, g = Swept after /\ open_sockets after = 256%nat
                    /\ Forall (fun x => lingers (clock (inner after)) true (sockets (inner after)) x = true)
                              (closing (inner after)))
       end.
Proof.
  intros Hk Hr s taken. pose proof (claims_reachable_inv _ _ _ Hk _ _ _ _ Hr) as [Hw Hn].
  assert (Ho : open_sockets s = taken) by apply Hw.
  split_and!; [done | rewrite <- Ho; apply Hw | |].
  - intros k p e t Hx. by destruct (Forall_lookup_1 _ _ _ _ Hn Hx) as [_ E].
  - intros k p g t Hx Hg. destruct (Forall_lookup_1 _ _ _ _ Hn Hx) as [Ht E]. simpl in Ht, E. fold s in E.
    destruct (claim_update_cases slot_freed _ _ _ Hw) as [(Hlt & s' & Eu & _) | [Hfull Eu]];
      [fold s in Hlt | fold s in Hfull];
      fold s in Eu; rewrite Eu; simpl.
    + unfold MAX_SOCKETS in Hlt. lia.
    + unfold MAX_SOCKETS in Hfull. split_and!; [done | lia |].
      destruct g as [|open|after| |e]; try done; simpl in Hg.
      * apply Nat.ltb_lt in Hg. unfold MAX_SOCKETS in Hg. left. lia.
      * destruct E as (E1 & E2 & E3). unfold MAX_SOCKETS in E2. destruct (decide (t < takes c)%nat); [by left | right].
        exists after. split_and!; [done | lia | done].
Qed.

Lemma slots_refused_only_full_witness :
  length (pending (world (toy_claims 256))) = 256%nat
  /\ fst (claim_update toy_freed (shared (world (toy_sweeps (toy_claims 256))))) = Err (AtCapacity 256 toy_freed).
Proof.
  generalize (toy_claims_reach 256) toy_fills. cbv zeta. generalize (toy_claims 256). intros c [Hr Hc] (Ho & Hp & Hfull).
  split; [exact Hp |].
  destruct (slots_refused_only_full toy_freed toy_poll toy_delay toy_config (chan_new PACKET_QUEUE_DEPTH) 7 (toy_sweeps c)
    toy_poll_keeps) as (_ & _ & _ & Hu); [by etransitivity; [exact Hr | apply toy_sweeps_step] |].
  specialize (Hu 0%nat (Dialling toy_remote) (Swept (claim_sweep (shared (world c)))) (takes c) eq_refl eq_refl).
  destruct (fst (claim_update toy_freed (shared (world (toy_sweeps c))))) as [u | e]; [discriminate Hfull |].
  destruct Hu as [-> _]. reflexivity.
Defined.
