(* ===== verification/WgSignal.v ===== *)
(** * A freed slot is always announced ([SocketSlots::release])

    A dial refused because the tunnel is full carries the signal that rings
    when a slot is freed; its caller registers for the signal, dials again, and
    waits.  [rung s s'] says that the slot counter fell between two states by no
    more than the signal rang: no operation gives a slot back in silence, so no
    waiter misses one. *)

From Stdlib Require Import ZArith Lia String Ascii.
From stdpp Require Import gmap strings numbers prelude.
From S2P Require Import Prelude Net Errors Runtime Provider WgSpec WgLink WgStack WgSockets WgResolve WgSlots.

Open Scope Z_scope.

Section Signal.
Context `{Smoltcp} {C : Type} `{!Channel C Packet}.
Variable slot_freed : SlotFreed.
Notation Stack := (StackShared C).

Definition rung (s s' : Stack) : Prop :=
  (freed s <= freed s')%nat /\ (open_sockets s + freed s <= open_sockets s' + freed s')%nat.

#[export] Instance rung_preorder : PreOrder rung.
Proof. split; [intros s; split; lia |]. intros s1 s2 s3 [A1 A2] [B1 B2]. split; lia. Qed.

(** Operations that stay inside the stack touch neither. *)
Definition aside (s s' : Stack) : Prop := freed s' = freed s /\ open_sockets s' = open_sockets s.

Lemma aside_rung s s' : aside s s' -> rung s s'.
Proof. intros [E1 E2]. unfold rung. rewrite E1, E2. lia. Qed.

Lemma aside_with {R} (f : StackInner C -> R * StackInner C) s : aside s (snd (with_stack f s)).
Proof. unfold with_stack. by destruct (f (inner s)). Qed.

Lemma aside_peek {R} (f : StackInner C -> R * StackInner C) s : aside s (snd (peek_stack f s)).
Proof. unfold peek_stack. by destruct (f (inner s)). Qed.

Lemma aside_on f (s : Stack) : aside s (on_inner f s).
Proof. apply aside_with. Qed.

Lemma aside_trans s1 s2 s3 : aside s1 s2 -> aside s2 s3 -> aside s1 s3.
Proof. intros [A1 A2] [B1 B2]. split; congruence. Qed.

Lemma rung_release s : rung s (release_socket s).
Proof. split; simpl; lia. Qed.

(** ** Reclaiming and claiming *)

Lemma rung_round now up index s index' s' : reclaim_round now up index s = Some (index', s') -> rung s s'.
Proof.
  unfold reclaim_round. destruct (closing (inner s) !! index) as [c|]; [| done].
  repeat case_match; intros [= <- <-]; split; simpl; lia.
Qed.

Lemma rung_loop now up fuel : forall index s, rung s (reclaim_loop fuel now up index s).
Proof.
  induction fuel as [|fuel IH]; intros index s; simpl; [done |].
  destruct (reclaim_round now up index s) as [[index' s']|] eqn:E; [| done].
  etransitivity; [by eapply rung_round | apply IH].
Qed.

Lemma rung_reclaim now up s : rung s (reclaim_finished now up s).
Proof. apply rung_loop. Qed.

Lemma rung_claim s r s' : claim_socket slot_freed s = (r, s') -> rung s s'.
Proof.
  unfold claim_socket, claim_update, claim_sweep. pose proof (rung_reclaim (clock (inner s)) true s) as [R1 R2].
  destruct (MAX_SOCKETS <=? open_sockets s)%nat; case_match; intros [= <- <-]; split; simpl in *; lia.
Qed.

(** ** Streams, listeners and datagram sockets *)

Lemma rung_connect_start remote s r s' : stack_connect_start slot_freed remote s = (r, s') -> rung s s'.
Proof.
  unfold stack_connect_start. destruct (claim_socket slot_freed s) as [[[]|e] s1] eqn:Ec; apply rung_claim in Ec.
  2: by intros [= <- <-].
  destruct (tcp_connect_start remote s1) as [r2 s2] eqn:Et. assert (Ha : aside s1 s2).
  { unfold tcp_connect_start in Et. destruct (with_stack _ s1) as [[h started] s3] eqn:Ew.
    assert (A : aside s1 s3) by (change s3 with (snd ((h, started), s3)); rewrite <- Ew; apply aside_with).
    destruct started; injection Et as <- <-; [done |]. eapply aside_trans; [exact A | apply aside_with]. }
  apply aside_rung in Ha. destruct r2; intros [= <- <-]; [by etransitivity |].
  etransitivity; [| apply rung_release]. by etransitivity.
Qed.

Lemma rung_connect_end h remote e s r s' : stack_connect_end h remote e s = (r, s') -> rung s s'.
Proof.
  unfold stack_connect_end, tcp_connect_end. destruct e; intros [= <- <-]; [done | ..];
    (etransitivity; [apply aside_rung, aside_on | apply rung_release]).
Qed.

Lemma aside_listen_one port s r s' : listen_one port s = (r, s') -> aside s s'.
Proof. unfold listen_one. intros E. change s' with (snd (r, s')). rewrite <- E. apply aside_with. Qed.

Lemma aside_backlog n : forall l s r s', fill_backlog n l s = (r, s') -> aside s s'.
Proof.
  induction n as [|n IH]; intros l s r s'; simpl; [by intros [= <- <-] |].
  destruct (listen_one (sa_port (local l)) s) as [[h|e] s1] eqn:El; apply aside_listen_one in El.
  - intros E. eapply aside_trans; [exact El | by eapply IH].
  - intros [= <- <-]. eapply aside_trans; [exact El | apply aside_on].
Qed.

Lemma aside_listen port backlog random s r s' : stack_listen port backlog random s = (r, s') -> aside s s'.
Proof.
  unfold stack_listen, listener_bind. case_match; [| by intros [= <- <-]].
  destruct (stopped s); [by intros [= <- <-] | apply aside_backlog].
Qed.

Lemma rung_accept l s r l' s' : accept slot_freed l s = (r, l', s') -> rung s s'.
Proof.
  unfold accept. pose proof (aside_peek (fun i => if stopped s then (Ready (Err tunnel_stopped), i)
    else match accept_scan (sa_port (local l)) 0 (listening l) i with
         | (Some found, i) => (Ready (Ok found), i) | (None, i) => (Pending, i) end) s) as Ha.
  change (aside s (snd (accept_poll l s))) in Ha. destruct (accept_poll l s) as [p s1]. simpl in Ha.
  apply aside_rung in Ha. destruct p as [[[index found]|e]|]; [| by intros [= <- <- <-]..].
  destruct (accept_take slot_freed index found l s1) as [[r2 l2] s2] eqn:E. intros [= <- <- <-].
  etransitivity; [exact Ha |]. clear Ha. unfold accept_take in E.
  destruct (listening l !! index) as [h|]; [| by injection E as <- <- <-].
  destruct (listen_one _ s1) as [[fresh|e] s3] eqn:El; apply aside_listen_one, aside_rung in El.
  2: { injection E as <- <- <-. etransitivity; [exact El | apply aside_rung, aside_on]. }
  destruct (claim_socket slot_freed s3) as [[[]|e] s4] eqn:Ec; apply rung_claim in Ec; injection E as <- <- <-;
    (etransitivity; [exact El |]); [done |]. etransitivity; [exact Ec | apply aside_rung, aside_on].
Qed.

Lemma rung_bind_udp port packets bytes s r s' : bind_udp_sized slot_freed port packets bytes s = (r, s') -> rung s s'.
Proof.
  unfold bind_udp_sized. destruct (stopped s); [by intros [= <- <-] |].
  destruct (claim_socket slot_freed s) as [[[]|e] s1] eqn:Ec; apply rung_claim in Ec; [| by intros [= <- <-]].
  destruct (udp_bind_socket port packets bytes s1) as [r2 s2] eqn:Eu. assert (Ha : aside s1 s2).
  { unfold udp_bind_socket in Eu. destruct (with_stack _ s1) as [[[h p] bound] s3] eqn:Ew.
    assert (A : aside s1 s3) by (change s3 with (snd ((h, p, bound), s3)); rewrite <- Ew; apply aside_with).
    destruct bound; injection Eu as <- <-; [done |]. eapply aside_trans; [exact A | apply aside_with]. }
  apply aside_rung in Ha. destruct r2; intros [= <- <-]; [by etransitivity |].
  etransitivity; [| apply rung_release]. by etransitivity.
Qed.

(** ** Every step *)

Variable iface_poll : Z -> Iface * WgPhy C * gmap nat Socket -> Iface * WgPhy C * gmap nat Socket.
Variable poll_delay : Z -> Iface -> gmap nat Socket -> option Duration.

Lemma rung_pump e s : rung s (pump_pass iface_poll poll_delay e s).
Proof.
  unfold pump_pass, poll, reclaim. destruct (iface_poll _ _) as [[ifc p] m].
  match goal with |- context [reclaim_finished ?n false ?x] => pose proof (rung_reclaim n false x) as [R1 R2] end.
  destruct e as [|[|packet packets]| |]; split; simpl in *; lia.
Qed.

Lemma aside_close_half st (s : Stack) : aside s (snd (close_half st s)).
Proof. unfold close_half. destruct (shut_down st); [done | apply aside_on]. Qed.

Lemma aside_stream_drop st (s : Stack) : aside s (stream_drop st s).
Proof.
  unfold stream_drop. pose proof (aside_close_half st s) as Ha. destruct (close_half st s) as [st' s']. simpl in Ha.
  eapply aside_trans; [exact Ha | apply aside_on].
Qed.

(** A poll that wakes the pump when it moved something. *)
Lemma aside_then_ring {R A} (f : StackInner C -> R * StackInner C) (k : R -> Stack -> A * Stack) (s : Stack) :
  (forall r s, aside s (snd (k r s))) -> aside s (snd (let '(r, s) := peek_stack f s in k r s)).
Proof.
  intros Hk. pose proof (aside_peek f s) as Ha. destruct (peek_stack f s) as [r s']. simpl in Ha.
  eapply aside_trans; [exact Ha | apply Hk].
Qed.

Lemma stream_step_rung w w' : stream_step slot_freed w w' -> rung (shared w) (shared w').
Proof.
  intros Hs. destruct Hs as [remote r s w E | h remote w Hi | i h remote e r s w Hi E | st room w Hi | st data w Hi
    | st w Hi | i st st' s w Hi E | i st w Hi]; simpl.
  - by eapply rung_connect_start.
  - apply aside_rung, aside_peek.
  - by eapply rung_connect_end.
  - apply aside_rung, aside_then_ring. intros [[]|] s; done.
  - apply aside_rung. unfold poll_write. destruct (shut_down st); [done |]. apply aside_then_ring. intros [[]|] s; done.
  - apply aside_rung, aside_peek.
  - apply aside_rung. pose proof (aside_close_half st (shared w)) as Ha. simpl in E. rewrite E in Ha. exact Ha.
  - apply aside_rung, aside_stream_drop.
Qed.

Lemma socket_step_rung w w' : socket_step slot_freed iface_poll poll_delay w w' -> rung (shared w) (shared w').
Proof.
  intros Hstep. destruct Hstep as [x y Hs | x y Hs | x y Hs | x y Hs]; [by apply stream_step_rung | ..].
  - destruct Hs as [port backlog random r s w E | i l r l' s w Hi E | i l w Hi]; simpl.
    + by eapply aside_rung, aside_listen.
    + by eapply rung_accept.
    + apply aside_rung, aside_on.
  - destruct Hs as [port packets bytes r s w E | u data remote w Hu | u room w Hu | i u w Hu]; simpl.
    + by eapply rung_bind_udp.
    + apply aside_rung, aside_then_ring. intros [[]|] s; done.
    + apply aside_rung, aside_peek.
    + etransitivity; [apply aside_rung, aside_on | apply rung_release].
  - destruct Hs as [e w | host kind w Hd | q w Hd | q w | t w Ht]; simpl.
    + apply rung_pump.
    + apply aside_rung. unfold start_query. pose proof (aside_with (fun i => with_dns (Err NoFreeSlot)
        (dns_start_query (iface i) host kind) i) (shared w)) as Ha. by destruct (with_stack _ (shared w)).
    + apply aside_rung, aside_peek.
    + apply aside_rung, aside_with.
    + by apply aside_rung.
Qed.

Lemma socket_steps_rung w w' : rtc (socket_step slot_freed iface_poll poll_delay) w w' -> rung (shared w) (shared w').
Proof. induction 1 as [w | x y z Hs _ IH]; [done |]. etransitivity; [by apply socket_step_rung | exact IH]. Qed.

End Signal.

(** C31: a freed slot is always announced.  Between any two moments of a stack's
    life, whatever its sockets, its pump and its resolver do, the signal rings
    at least once for every slot the counter fell by.  So a caller that
    registered, was refused because the tunnel is full, and waits, has been
    woken by the time the tunnel is no longer full. *)
Theorem freed_slots_announced `{Smoltcp} {C : Type} `{!Channel C Packet} slot_freed iface_poll poll_delay
    (w w' : World C) :
  rtc (socket_step slot_freed iface_poll poll_delay) w w' ->
  (freed (shared w) <= freed (shared w'))%nat
  /\ (open_sockets (shared w) - open_sockets (shared w') <= freed (shared w') - freed (shared w))%nat
  /\ forall registered refused,
       fst (claim_socket slot_freed registered) = Err refused -> snd (claim_socket slot_freed registered) = shared w ->
       (open_sockets (shared w') < MAX_SOCKETS)%nat -> (freed registered < freed (shared w'))%nat.
Proof.
  intros Hr. pose proof (socket_steps_rung slot_freed _ _ _ _ Hr) as [R1 R2]. split_and!; [done | lia |].
  intros registered refused He Hs Hlt. destruct (claim_socket slot_freed registered) as [r s] eqn:E. simpl in He, Hs.
  subst r s. pose proof (rung_claim slot_freed _ _ _ E) as [A1 A2].
  assert (Hfull : (MAX_SOCKETS <= open_sockets (shared w))%nat).
  { unfold claim_socket, claim_update, claim_sweep in E. set (s0 := if (MAX_SOCKETS <=? open_sockets registered)%nat then _ else _) in E.
    destruct (open_sockets s0 <? MAX_SOCKETS)%nat eqn:El; [done |]. injection E as _ <-. by apply Nat.ltb_ge in El. }
  lia.
Qed.

#[local] Existing Instance toy_smoltcp.

(** A dial on a full tunnel is refused; then one of the others is given up. *)
Definition toy_refused : World (ListChannel Packet) :=
  on_shared (snd (claim_socket toy_freed (shared toy_full))) toy_full.

Definition let_go (h : nat) (w : World (ListChannel Packet)) : World (ListChannel Packet) :=
  {| shared := snd (stack_connect_end h toy_remote ConnCancelled (shared w)); pending := delete 0%nat (pending w);
     streams := streams w; listeners := listeners w; udps := udps w |}.

Lemma give_up_step h w :
  pending w !! 0%nat = Some (h, toy_remote) -> socket_step toy_freed toy_poll toy_delay w (let_go h w).
Proof. intros Hp. apply by_stream. by apply (st_connect_end toy_freed 0 h toy_remote ConnCancelled None _ w). Qed.

Definition toy_released : World (ListChannel Packet) := let_go 256 toy_refused.

Lemma freed_slots_announced_witness : (freed (shared toy_full) < freed (shared toy_released))%nat.
Proof.
  assert (Hfull : fst (claim_socket toy_freed (shared toy_full)) = Err (AtCapacity 256 toy_freed))
    by (vm_compute; reflexivity).
  assert (Hroom : (open_sockets (shared toy_released) <? MAX_SOCKETS)%nat = true) by (vm_compute; reflexivity).
  assert (Hpending : pending toy_refused !! 0%nat = Some (256%nat, toy_remote)) by (vm_compute; reflexivity).
  assert (Hstep : rtc (socket_step toy_freed toy_poll toy_delay) toy_refused toy_released).
  { apply rtc_once, give_up_step, Hpending. }
  apply Nat.ltb_lt in Hroom.
  exact (proj2 (proj2 (freed_slots_announced toy_freed toy_poll toy_delay toy_refused toy_released Hstep))
           (shared toy_full) _ Hfull eq_refl Hroom).
Defined.
