(* ===== verification/WgTimer.v ===== *)
(** * Closed sockets and the pump's sleep ([pump], [sleep_for] and [StackInner::poll] of [src/wireguard/stack.rs])

    A closed socket keeps its slot until the pump reclaims it, which it does
    when it polls; and it polls when something rings it or when the delay the
    last poll computed is over.  This file adds time to [WgSlots]: [due] is when
    the pump polls at the latest, and the clock does not pass it.  [slack] is how
    late a timer or a ring may find the pump. *)

From Stdlib Require Import ZArith Lia String Ascii.
From stdpp Require Import gmap strings numbers prelude.
From S2P Require Import Prelude Net Errors Runtime Provider WgSpec WgLink WgStack WgSockets WgResolve WgPump WgSlots.

Open Scope Z_scope.

Section Timer.
Context `{Smoltcp} {C : Type} `{!Channel C Packet}.
Variable slot_freed : SlotFreed.
Variable iface_poll : Z -> Iface * WgPhy C * gmap nat Socket -> Iface * WgPhy C * gmap nat Socket.
Variable poll_delay : Z -> Iface -> gmap nat Socket -> option Duration.
Variable slack : Z.
Notation Stack := (StackShared C).

(** [pumping]: the pump has not left its loop. *)
Record Timed : Type := { timed : World C; due : option Z; pumping : bool }.

(** A delay in the clock's microseconds, rounded up. *)
Definition micros (d : Duration) : Z := (d + 999) / 1000.

Definition sooner (d : option Z) (t : Z) : option Z := Some match d with Some d => Z.min d t | None => t end.

(** A stored ring ends the pump's wait at once. *)
Definition rung_by (s : Stack) (d : option Z) : option Z :=
  if wake s then sooner d (clock (inner s) + slack) else d.

(** [sleep_for]. *)
Definition sleeps_until (delay : option Duration) (s : Stack) : option Z :=
  match delay with Some d => Some (clock (inner s) + micros d + slack) | None => None end.

Definition attend (w : World C) (t : Timed) : Timed :=
  {| timed := w; due := rung_by (shared w) (due t); pumping := pumping t |}.

Definition timed_start (cfg : StackConfig) (outbound : C) (seed : Z) : Timed :=
  {| timed := world_start cfg outbound seed; due := Some slack; pumping := true |}.

(** The pump wakes, acts on what woke it, and polls; what is rung meanwhile is
    stored. *)
Definition pump_turn (e : PumpEvent) (t : Timed) : Timed :=
  let '(delay, s) := poll iface_poll poll_delay (pump_event e (shared (timed t))) in
  {| timed := on_shared s (timed t); due := rung_by s (sleeps_until delay s); pumping := true |}.

Definition tick_to (now : Z) (t : Timed) : Timed :=
  {| timed := on_shared (set_inner (set_clock now (inner (shared (timed t)))) (shared (timed t))) (timed t);
     due := due t; pumping := pumping t |}.

(** What can end the pump's wait: packets, a stored ring, or the timer. *)
Definition rouses (e : PumpEvent) (t : Timed) : Prop :=
  match e with
  | Woken => wake (shared (timed t)) = true
  | Slept => exists d, due t = Some d /\ d <= clock (inner (shared (timed t))) + slack
  | ShutdownNotified | Received _ => True
  end.

(** What the clients do takes no time; the clock stops at [due] until the pump
    has polled. *)
Inductive timed_step : Timed -> Timed -> Prop :=
| ti_stream w t : stream_step slot_freed (timed t) w -> timed_step t (attend w t)
| ti_listener w t : listener_step slot_freed (timed t) w -> timed_step t (attend w t)
| ti_datagram w t : datagram_step slot_freed (timed t) w -> timed_step t (attend w t)
| ti_query host kind t :
    dns (inner (shared (timed t))) <> None ->
    timed_step t (attend (on_shared (snd (start_query host kind (shared (timed t)))) (timed t)) t)
| ti_query_poll q t :
    dns (inner (shared (timed t))) <> None ->
    timed_step t (attend (on_shared (snd (poll_query q (shared (timed t)))) (timed t)) t)
| ti_query_cancel q t : timed_step t (attend (on_shared (cancel_query q (shared (timed t))) (timed t)) t)
| ti_pump e t : pumping t = true -> rouses e t -> leaves e = false -> timed_step t (pump_turn e t)
| ti_leave e t :
    pumping t = true -> leaves e = true ->
    timed_step t {| timed := on_shared (pump_event e (shared (timed t))) (timed t); due := None; pumping := false |}
| ti_tick now t :
    clock (inner (shared (timed t))) <= now -> (pumping t = true -> forall d, due t = Some d -> now <= d) ->
    timed_step t (tick_to now t).

(** ** What the operations do to the clock and to the closed sockets *)

(** Inside the lock: nothing, or closed sockets with a deadline to come. *)
Definition still (i i' : StackInner C) : Prop := clock i' = clock i /\ closing i' = closing i.

Definition calm (i i' : StackInner C) : Prop :=
  clock i' = clock i /\ forall c, c ∈ closing i' -> c ∈ closing i \/ clock i <= cl_deadline c.

(** Outside: a ring is kept, and a socket closed anew comes with one. *)
Definition tended (s s' : Stack) : Prop :=
  clock (inner s') = clock (inner s) /\ (wake s = true -> wake s' = true)
  /\ forall c, c ∈ closing (inner s') ->
       c ∈ closing (inner s) \/ (wake s' = true /\ clock (inner s) <= cl_deadline c).

#[export] Instance still_preorder : PreOrder still.
Proof. split; [done |]. intros i1 i2 i3 [A1 A2] [B1 B2]. split; congruence. Qed.

#[export] Instance calm_preorder : PreOrder calm.
Proof.
  split; [intros i; split; auto |]. intros i1 i2 i3 [A1 A2] [B1 B2]. split; [congruence |].
  intros c [Hc | Hc]%B2; [by apply A2 | right; congruence].
Qed.

#[export] Instance tended_preorder : PreOrder tended.
Proof.
  split; [intros s; split_and!; auto |]. intros s1 s2 s3 (A1 & A2 & A3) (B1 & B2 & B3). split_and!; [congruence | auto |].
  intros c [Hc | [Hw Hc]]%B3; [| right; split; [done | congruence]].
  destruct (A3 c Hc) as [? | [Hw Hd]]; [by left | right; auto].
Qed.

Lemma still_calm i i' : still i i' -> calm i i'.
Proof. intros [E1 E2]. split; [done |]. rewrite E2. auto. Qed.

Lemma still_with_tcp {R} h (d : R) f (i : StackInner C) : still i (snd (with_tcp h d f i)).
Proof. unfold with_tcp. destruct (sockets i !! h) as [[t | |]|]; try done. by destruct (f t). Qed.

Lemma still_with_udp {R} h (d : R) f (i : StackInner C) : still i (snd (with_udp h d f i)).
Proof. unfold with_udp. destruct (sockets i !! h) as [[| u |]|]; try done. by destruct (f u). Qed.

Lemma still_with_dns {R} (d : R) f (i : StackInner C) : still i (snd (with_dns d f i)).
Proof.
  unfold with_dns. destruct (dns i) as [h|]; [| done]. destruct (sockets i !! h) as [[| | k]|]; try done. by destruct (f k).
Qed.

Lemma still_tcp_map h f (i : StackInner C) : still i (tcp_map h f i).
Proof. apply still_with_tcp. Qed.

Lemma still_discard h (i : StackInner C) : still i (discard h i).
Proof. unfold discard. by destruct (sockets i !! h). Qed.

Lemma calm_retire h b (i : StackInner C) : calm i (retire h b i).
Proof.
  split; [done |]. intros c. simpl. rewrite elem_of_app, list_elem_of_singleton. intros [? | ->]; [by left | right].
  simpl. unfold LINGER. lia.
Qed.

Lemma still_scan port hs : forall index (i : StackInner C), still i (snd (accept_scan port index hs i)).
Proof.
  induction hs as [|h hs IH]; intros index i; simpl; [done |].
  match goal with |- context [with_tcp h ?d ?f i] => pose proof (still_with_tcp h d f i) as Hs;
    destruct (with_tcp h d f i) as [[found|] i1] end; [exact Hs |].
  etransitivity; [exact Hs |]. etransitivity; [| apply IH]. done.
Qed.

Lemma still_fold hs : forall i : StackInner C,
  still i (foldl (fun i h => discard h (tcp_map h tcp_abort i)) i hs).
Proof.
  induction hs as [|h hs IH]; intros i; simpl; [done |].
  etransitivity; [| apply IH]. etransitivity; [apply still_tcp_map | apply still_discard].
Qed.

Lemma tended_with {R} (f : StackInner C -> R * StackInner C) s :
  calm (inner s) (snd (f (inner s))) -> tended s (snd (with_stack f s)).
Proof.
  unfold with_stack. destruct (f (inner s)) as [r i]. intros [E1 E2]. split_and!; [done | done |].
  intros c [? | ?]%E2; [by left | by right].
Qed.

Lemma tended_peek {R} (f : StackInner C -> R * StackInner C) s :
  still (inner s) (snd (f (inner s))) -> tended s (snd (peek_stack f s)).
Proof.
  unfold peek_stack. destruct (f (inner s)) as [r i]. intros [E1 E2]. split_and!; [done | done |].
  simpl in *. rewrite E2. auto.
Qed.

Lemma tended_on f (s : Stack) : calm (inner s) (f (inner s)) -> tended s (on_inner f s).
Proof. apply (tended_with (fun i => (tt, f i))). Qed.

Lemma tended_ring s : tended s (ring s).
Proof. by split_and!; [| | left]. Qed.

Lemma tended_release s : tended s (release_socket s).
Proof. by split_and!; [| | left]. Qed.

(** A poll that wakes the pump when it moved something. *)
Lemma tended_then {R A} (f : StackInner C -> R * StackInner C) (k : R -> Stack -> A * Stack) s :
  still (inner s) (snd (f (inner s))) -> (forall r s, tended s (snd (k r s))) ->
  tended s (snd (let '(r, s) := peek_stack f s in k r s)).
Proof.
  intros Hf Hk. pose proof (tended_peek f s Hf) as Ha. destruct (peek_stack f s) as [r s']. simpl in Ha.
  etransitivity; [exact Ha | apply Hk].
Qed.

(** ** Reclaiming *)

Lemma reclaim_round_shrinks now up index (s : Stack) index' s' :
  reclaim_round now up index s = Some (index', s') ->
  clock (inner s') = clock (inner s) /\ wake s' = wake s /\ closing (inner s') ⊆ closing (inner s).
Proof.
  unfold reclaim_round. destruct (closing (inner s) !! index) as [c|] eqn:Ec; [| done].
  assert (Hsub : swap_remove index (closing (inner s)) ⊆ closing (inner s)).
  { destruct (swap_remove_spec index _ c Ec) as (Ht & Hd & _). intros x Hx.
    rewrite <- (take_drop index (swap_remove _ _)), elem_of_app, Ht, Hd in Hx.
    destruct Hx as [(i & Hi & _)%elem_of_take | [i Hi]%list_elem_of_lookup]; [by eapply list_elem_of_lookup_2 |].
    rewrite lookup_drop in Hi. by eapply list_elem_of_lookup_2. }
  assert (Hdis : forall h i, closing (discard h i) = closing (C := C) i /\ clock (discard h i) = clock i)
    by (intros h i; unfold discard; by destruct (sockets i !! h)).
  destruct (sockets (inner s) !! cl_handle c) as [[t | |]|]; try (by intros [= <- <-]).
  destruct (negb (finished up t) && (now <? cl_deadline c)); [by intros [= <- <-] |].
  destruct (finished up t), (cl_counted c); intros [= <- <-]; simpl;
    rewrite ?(proj1 (Hdis _ _)), ?(proj2 (Hdis _ _)); simpl; done.
Qed.

Lemma reclaim_loop_shrinks now up fuel : forall index (s : Stack),
  let s' := reclaim_loop fuel now up index s in
  clock (inner s') = clock (inner s) /\ wake s' = wake s /\ closing (inner s') ⊆ closing (inner s).
Proof.
  induction fuel as [|fuel IH]; intros index s; simpl; [done |].
  destruct (reclaim_round now up index s) as [[index' s']|] eqn:E; [| done].
  apply reclaim_round_shrinks in E as (E1 & E2 & E3). destruct (IH index' s') as (I1 & I2 & I3).
  split_and!; [congruence | congruence | by etransitivity].
Qed.

Lemma tended_claim s r s' : claim_socket slot_freed s = (r, s') -> tended s s'.
Proof.
  unfold claim_socket, claim_update, claim_sweep.
  destruct (reclaim_loop_shrinks (clock (inner s)) true (S (length (closing (inner s)))) 0 s) as (R1 & R2 & R3).
  fold (reclaim_finished (clock (inner s)) true s) in R1, R2, R3.
  destruct (MAX_SOCKETS <=? open_sockets s)%nat; case_match; intros [= <- <-];
    (split_and!; simpl; [done | auto | auto]).
Qed.

(** ** Every operation *)

Lemma tended_connect_start remote s r s' : stack_connect_start slot_freed remote s = (r, s') -> tended s s'.
Proof.
  unfold stack_connect_start. destruct (claim_socket slot_freed s) as [[[]|e] s1] eqn:Ec; apply tended_claim in Ec.
  2: by intros [= <- <-].
  destruct (tcp_connect_start remote s1) as [r2 s2] eqn:Et. assert (Ha : tended s1 s2).
  { unfold tcp_connect_start in Et. destruct (with_stack _ s1) as [[h started] s3] eqn:Ew.
    assert (A : tended s1 s3).
    { change s3 with (snd ((h, started), s3)). rewrite <- Ew. apply tended_with, still_calm.
      unfold add_tcp_socket, add_socket, next_ephemeral_port. simpl.
      match goal with |- context [with_tcp ?x ?d ?f ?i] => pose proof (still_with_tcp x d f i) as Hs;
        destruct (with_tcp x d f i) as [r3 i3] end. exact Hs. }
    destruct started; injection Et as <- <-; [done |]. etransitivity; [exact A |].
    apply tended_on, still_calm, still_discard. }
  destruct r2; intros [= <- <-]; [by etransitivity |].
  etransitivity; [| apply tended_release]. by etransitivity.
Qed.

Lemma tended_connect_end h remote e s r s' : stack_connect_end h remote e s = (r, s') -> tended s s'.
Proof.
  unfold stack_connect_end, tcp_connect_end. destruct e; intros [= <- <-]; [done | ..];
    (etransitivity; [| apply tended_release]); apply tended_on, still_calm.
  - apply still_discard.
  - etransitivity; [apply still_tcp_map | apply still_discard].
  - apply still_discard.
Qed.

Lemma tended_listen_one port s r s' : listen_one port s = (r, s') -> tended s s'.
Proof.
  unfold listen_one. intros E. change s' with (snd (r, s')). rewrite <- E. apply tended_with, still_calm.
  unfold add_tcp_socket, add_socket. simpl.
  match goal with |- context [with_tcp ?x ?d ?f ?i] => pose proof (still_with_tcp x d f i) as Hs;
    destruct (with_tcp x d f i) as [[[]|e] i3] end; [exact Hs |]. etransitivity; [exact Hs | apply still_discard].
Qed.

Lemma tended_listener_drop l s : tended s (listener_drop l s).
Proof. apply tended_on, still_calm, still_fold. Qed.

Lemma tended_backlog n : forall l s r s', fill_backlog n l s = (r, s') -> tended s s'.
Proof.
  induction n as [|n IH]; intros l s r s'; simpl; [by intros [= <- <-] |].
  destruct (listen_one (sa_port (local l)) s) as [[h|e] s1] eqn:El; apply tended_listen_one in El.
  - intros E. etransitivity; [exact El | by eapply IH].
  - intros [= <- <-]. etransitivity; [exact El | apply tended_listener_drop].
Qed.

Lemma tended_listen port backlog random s r s' : stack_listen port backlog random s = (r, s') -> tended s s'.
Proof.
  unfold stack_listen, listener_bind. case_match; [| by intros [= <- <-]].
  destruct (stopped s); [by intros [= <- <-] | apply tended_backlog].
Qed.

Lemma tended_accept_poll l s : tended s (snd (accept_poll l s)).
Proof.
  apply tended_peek. destruct (stopped s); [done |].
  pose proof (still_scan (sa_port (local l)) (listening l) 0 (inner s)) as Hs.
  by destruct (accept_scan _ _ _ _) as [[]].
Qed.

Lemma tended_accept_take index found l s r l' s' :
  accept_take slot_freed index found l s = (r, l', s') -> tended s s'.
Proof.
  unfold accept_take. destruct (listening l !! index) as [h|]; [| by intros [= <- <- <-]; split_and!; [| | left]].
  destruct (listen_one _ s) as [[fresh|e] s3] eqn:El; apply tended_listen_one in El.
  2: { intros [= <- <- <-]. etransitivity; [exact El |]. apply tended_on, still_calm.
       etransitivity; [apply still_tcp_map | apply still_discard]. }
  destruct (claim_socket slot_freed s3) as [[[]|e] s4] eqn:Ec; apply tended_claim in Ec; intros [= <- <- <-];
    (etransitivity; [exact El |]); [done |]. etransitivity; [exact Ec |]. apply tended_on.
  etransitivity; [apply still_calm, still_tcp_map | apply calm_retire].
Qed.

Lemma tended_accept l s r l' s' : accept slot_freed l s = (r, l', s') -> tended s s'.
Proof.
  unfold accept. pose proof (tended_accept_poll l s) as Ha. destruct (accept_poll l s) as [p s1]. simpl in Ha.
  destruct p as [[[index found]|e]|]; [| by intros [= <- <- <-]..].
  destruct (accept_take slot_freed index found l s1) as [[r2 l2] s2] eqn:E. intros [= <- <- <-].
  etransitivity; [exact Ha | by eapply tended_accept_take].
Qed.

Lemma tended_bind_udp port packets bytes s r s' : bind_udp_sized slot_freed port packets bytes s = (r, s') -> tended s s'.
Proof.
  unfold bind_udp_sized. destruct (stopped s); [by intros [= <- <-] |].
  destruct (claim_socket slot_freed s) as [[[]|e] s1] eqn:Ec; apply tended_claim in Ec; [| by intros [= <- <-]].
  destruct (udp_bind_socket port packets bytes s1) as [r2 s2] eqn:Eu. assert (Ha : tended s1 s2).
  { unfold udp_bind_socket in Eu. destruct (with_stack _ s1) as [[[h p] bound] s3] eqn:Ew.
    assert (A : tended s1 s3).
    { change s3 with (snd ((h, p, bound), s3)). rewrite <- Ew. apply tended_with, still_calm.
      unfold add_udp_socket_sized, add_socket, next_ephemeral_port. simpl.
      destruct (port =? 0); match goal with |- context [with_udp ?x ?d ?f ?i] => pose proof (still_with_udp x d f i) as Hs;
        destruct (with_udp x d f i) as [r3 i3] end; exact Hs. }
    destruct bound; injection Eu as <- <-; [done |]. etransitivity; [exact A |].
    apply tended_on, still_calm, still_discard. }
  destruct r2; intros [= <- <-]; [by etransitivity |].
  etransitivity; [| apply tended_release]. by etransitivity.
Qed.

Lemma tended_close_half st (s : Stack) : tended s (snd (close_half st s)).
Proof. unfold close_half. destruct (shut_down st); [done |]. apply tended_on, still_calm, still_tcp_map. Qed.

Lemma tended_stream_drop st (s : Stack) : tended s (stream_drop st s).
Proof.
  unfold stream_drop. pose proof (tended_close_half st s) as Ha. destruct (close_half st s) as [st' s']. simpl in Ha.
  etransitivity; [exact Ha |]. apply tended_on, calm_retire.
Qed.

Lemma still_poll {R S} (g : StackInner C -> R * StackInner C) (k : R -> StackInner C -> S * StackInner C) i :
  still i (snd (g i)) -> (forall r i, still i (snd (k r i))) -> still i (snd (let '(r, i) := g i in k r i)).
Proof. intros Hg Hk. destruct (g i) as [r i1]. simpl in Hg. etransitivity; [exact Hg | apply Hk]. Qed.

Lemma stream_step_tended w w' : stream_step slot_freed w w' -> tended (shared w) (shared w').
Proof.
  intros Hs. destruct Hs as [remote r s w E | h remote w Hi | i h remote e r s w Hi E | st room w Hi | st data w Hi
    | st w Hi | i st st' s w Hi E | i st w Hi]; simpl.
  - by eapply tended_connect_start.
  - apply tended_peek, still_poll; [apply still_with_tcp | by intros []].
  - by eapply tended_connect_end.
  - apply tended_then; [apply still_poll; [apply still_with_tcp | by intros []] |].
    intros [[]|] s; [done | apply tended_ring | done].
  - unfold poll_write. destruct (shut_down st); [done |].
    apply tended_then; [apply still_poll; [apply still_with_tcp | by intros []] |].
    intros [[]|] s; [apply tended_ring | done | done].
  - apply tended_peek, still_poll; [apply still_with_tcp | by intros []].
  - pose proof (tended_close_half st (shared w)) as Ha. simpl in E. rewrite E in Ha. exact Ha.
  - apply tended_stream_drop.
Qed.

Lemma listener_step_tended w w' : listener_step slot_freed w w' -> tended (shared w) (shared w').
Proof.
  intros Hs. destruct Hs as [port backlog random r s w E | i l r l' s w Hi E | i l w Hi]; simpl.
  - by eapply tended_listen.
  - by eapply tended_accept.
  - apply tended_listener_drop.
Qed.

Lemma datagram_step_tended w w' : datagram_step slot_freed w w' -> tended (shared w) (shared w').
Proof.
  intros Hs. destruct Hs as [port packets bytes r s w E | u data remote w Hu | u room w Hu | i u w Hu]; simpl.
  - by eapply tended_bind_udp.
  - unfold send_to. apply tended_then.
    + destruct (stopped (shared w)); [done |]. apply still_poll; [apply still_with_udp | by intros [[]|[]]].
    + intros [[]|] s; [apply tended_ring | done | done].
  - unfold recv_from. apply tended_peek. destruct (stopped (shared w)); [done |].
    apply still_poll; [apply still_with_udp | by intros [[]|[]]].
  - unfold udp_drop. etransitivity; [apply tended_on | apply tended_release].
    apply still_calm. etransitivity; [apply (still_with_udp (us_handle u) tt) | apply still_discard].
Qed.

(** ** The invariant *)

Hypothesis keeps : poll_keeps_sockets iface_poll.
Hypothesis delays : forall now i m d, poll_delay now i m = Some d -> 0 <= d.
Hypothesis slack_ok : 0 <= slack.

Notation now_of t := (clock (inner (shared (timed t)))).
Notation closing_of t := (closing (inner (shared (timed t)))).

(** The pump polls before any closed socket is overdue by more than [slack]. *)
Record timed_inv (t : Timed) : Prop := {
  ti_world : world_inv (timed t);
  ti_due : pumping t = true -> forall c, c ∈ closing_of t -> exists d, due t = Some d /\ d <= cl_deadline c + slack;
  ti_clock : pumping t = true -> forall d, due t = Some d -> now_of t <= d
}.

Lemma timed_start_inv cfg outbound seed : timed_inv (timed_start cfg outbound seed).
Proof.
  split; simpl; [apply (world_start_inv iface_poll poll_delay) | by intros _ c ?%elem_of_nil | by intros _ d [= <-]].
Qed.

Lemma attend_inv w t : world_inv w -> tended (shared (timed t)) (shared w) -> timed_inv t -> timed_inv (attend w t).
Proof.
  intros Hw (E1 & E2 & E3) [H1 H2 H3]. split; [done | |]; simpl; intros Hp; unfold rung_by, sooner.
  - intros c [Hc | [-> Hd]]%E3; [destruct (H2 Hp c Hc) as (d & -> & Hd) |].
    + destruct (wake (shared w)); eexists; (split; [done | lia]).
    + eexists. split; [done |]. destruct (due t); lia.
  - specialize (H3 Hp). rewrite E1. destruct (wake (shared w)); [| done]. intros d [= <-].
    destruct (due t) as [x|]; [specialize (H3 x eq_refl) |]; lia.
Qed.

Lemma min_delay_le a b d : b = Some d -> exists m, min_delay a b = Some m /\ m <= d.
Proof. intros ->. destruct a; simpl; eexists; (split; [done | lia]). Qed.

Lemma min_delay_pos a b m :
  (forall x, a = Some x -> 0 <= x) -> (forall x, b = Some x -> 0 <= x) -> min_delay a b = Some m -> 0 <= m.
Proof.
  intros Ha Hb. destruct a as [x|], b as [y|]; simpl; intros [= <-]; auto.
  specialize (Ha x eq_refl). specialize (Hb y eq_refl). lia.
Qed.

Lemma linger_delay_le now l c :
  c ∈ l -> exists d, linger_delay now l = Some d /\ d <= from_micros (cl_deadline c - now).
Proof.
  induction l as [|x l IH]; [by intros ?%elem_of_nil |].
  change (linger_delay now (x :: l)) with (min_delay (Some (from_micros (cl_deadline x - now))) (linger_delay now l)).
  intros [-> | Hc]%elem_of_cons.
  - destruct (linger_delay now l); eexists; (split; [done | lia]).
  - destruct (IH Hc) as (d & -> & Hd). eexists. split; [done | lia].
Qed.

Lemma linger_delay_pos now l d :
  Forall (fun c => now < cl_deadline c) l -> linger_delay now l = Some d -> 0 <= d.
Proof.
  intros Hl. revert d. induction Hl as [|c l Hc _ IH]; intros d; [done |].
  change (linger_delay now (c :: l)) with (min_delay (Some (from_micros (cl_deadline c - now))) (linger_delay now l)).
  unfold from_micros. apply (min_delay_pos (Some _)); [intros x [= <-]; lia | exact IH].
Qed.

(** A poll leaves only sockets whose deadline is to come, and sleeps no longer
    than to the first of them. *)
Lemma poll_tends s hs n d s' :
  owned s hs n -> poll iface_poll poll_delay s = (d, s') ->
  owned s' hs n /\ clock (inner s') = clock (inner s) /\ wake s' = wake s /\ closing (inner s') ⊆ closing (inner s)
  /\ (forall c, c ∈ closing (inner s') -> exists x, d = Some x /\ x <= from_micros (cl_deadline c - clock (inner s)))
  /\ (forall x, d = Some x -> 0 <= x).
Proof.
  intros Ho E. pose proof (pump_owned iface_poll poll_delay Slept s hs n keeps Ho) as Ho'.
  unfold pump_pass in Ho'. rewrite E in Ho'. simpl in Ho'.
  unfold poll in E. destruct (iface_poll _ _) as [[ifc p] m] eqn:Ep. set (i1 := {| iface := ifc |}) in E.
  assert (Ho1 : owned (set_inner i1 s) hs n)
    by (eapply (owned_kinds s); try done; intros h; simpl; by eapply keeps).
  injection E as Ed Es.
  destruct (reclaim_loop_shrinks (clock (inner s)) false (S (length (closing i1))) 0 (set_inner i1 s)) as (R1 & R2 & R3).
  change (reclaim_loop _ _ _ _ _) with (reclaim (clock (inner s)) (set_inner i1 s)) in R1, R2, R3.
  rewrite Es in R1, R2, R3, Ed.
  assert (Hd : Forall (fun c => clock (inner s) < cl_deadline c) (closing (inner s'))).
  { destruct (reclaim_finished_spec (clock (inner s)) false (set_inner i1 s) (owned_closing_ok _ _ _ Ho1))
      as (gone & kept & _ & Hk & _ & Hl & _). unfold reclaim in Es. rewrite Es in Hk. rewrite Hk.
    eapply Forall_impl; [exact Hl |]. intros c Hc. unfold lingers in Hc. repeat case_match; try done.
    apply andb_true_iff in Hc as [_ Hc]. lia. }
  split_and!; [done | done | done | done | |].
  - intros c Hc. destruct (linger_delay_le (clock (inner s)) _ c Hc) as (x & Ex & Hx).
    destruct (min_delay_le (poll_delay (clock (inner s)) (iface (inner s')) (sockets (inner s'))) _ _ Ex) as (y & Ey & Hy).
    exists y. split; [congruence | lia].
  - intros x Hx. rewrite <- Ed in Hx. eapply min_delay_pos; [| | exact Hx].
    + intros y. apply delays.
    + intros y. by apply linger_delay_pos.
Qed.

Lemma pump_event_tends e (s : Stack) hs n :
  owned s hs n -> leaves e = false ->
  owned (pump_event e s) hs n /\ clock (inner (pump_event e s)) = clock (inner s)
  /\ closing (inner (pump_event e s)) = closing (inner s).
Proof.
  intros Ho He. destruct e as [|[|packet packets]| |]; try done; (split; [by eapply (owned_same s) | done]).
Qed.

Lemma pump_turn_inv e t :
  leaves e = false -> timed_inv t ->
  timed_inv (pump_turn e t) /\ now_of (pump_turn e t) = now_of t /\ closing_of (pump_turn e t) ⊆ closing_of t
  /\ forall d, due (pump_turn e t) = Some d -> now_of t + slack <= d.
Proof.
  intros He [H1 H2 H3]. destruct (pump_event_tends e _ _ _ H1 He) as (Ho & E1 & E2).
  unfold pump_turn. destruct (poll _ _ _) as [delay s'] eqn:E.
  destruct (poll_tends _ _ _ _ _ Ho E) as (P1 & P2 & P3 & P4 & P5 & P6). rewrite E1 in *. rewrite E2 in P4.
  assert (Hlate : forall d, rung_by s' (sleeps_until delay s') = Some d -> now_of t + slack <= d).
  { unfold rung_by, sleeps_until, sooner, micros. rewrite P2. intros d.
    destruct delay as [x|]; [specialize (P6 x eq_refl); pose proof (Z.div_pos (x + 999) 1000) |];
      destruct (wake s'); intros [= <-]; lia. }
  split_and!; [split; [done | |] | done | done | done]; simpl; intros _.
  - intros c Hc. destruct (P5 c Hc) as (x & -> & Hx). unfold rung_by, sleeps_until, sooner, from_micros, micros in *.
    assert (Hm : (x + 999) / 1000 <= cl_deadline c - now_of t).
    { apply Z.lt_succ_r. apply Z.div_lt_upper_bound; lia. }
    rewrite P2. destruct (wake s'); eexists; (split; [done | lia]).
  - rewrite P2. intros d Hd. apply Hlate in Hd. lia.
Qed.

Lemma tick_inv now t :
  now_of t <= now -> (pumping t = true -> forall d, due t = Some d -> now <= d) -> timed_inv t -> timed_inv (tick_to now t).
Proof.
  intros Hn Hd [H1 H2 H3]. split; [| done | done].
  apply (service_step_inv iface_poll poll_delay (timed t)); [done | by apply st_tick | done].
Qed.

Lemma timed_step_inv t t' : timed_step t t' -> timed_inv t -> timed_inv t'.
Proof.
  intros Hstep Ht. pose proof (ti_world t Ht) as Hw.
  assert (Hq : forall w, service_step iface_poll poll_delay (timed t) w -> tended (shared (timed t)) (shared w) ->
    timed_inv (attend w t)).
  { intros w Hs Hd. apply attend_inv; [by eapply service_step_inv | done | done]. }
  destruct Hstep as [w t Hs | w t Hs | w t Hs | host kind t Hd | q t Hd | q t | e t Hp Hr He | e t Hp He | now t Hn Hd].
  - apply attend_inv; [by eapply stream_step_inv | by apply stream_step_tended | done].
  - apply attend_inv; [by eapply listener_step_inv | by apply listener_step_tended | done].
  - apply attend_inv; [by eapply datagram_step_inv | by apply datagram_step_tended | done].
  - apply Hq; [by apply st_query |]. simpl. unfold start_query.
    pose proof (tended_with (fun i => with_dns (Err NoFreeSlot) (dns_start_query (iface i) host kind) i) (shared (timed t))) as Ha.
    destruct (with_stack _ _). apply Ha, still_calm, still_with_dns.
  - apply Hq; [by apply st_query_poll |]. simpl. apply tended_peek, still_poll; [apply still_with_dns | by intros []].
  - apply Hq; [by apply st_query_cancel |]. simpl. apply tended_with, still_calm.
    destruct (dns (inner (shared (timed t)))); [apply still_with_dns | done].
  - by apply pump_turn_inv.
  - split; [| done | done]. simpl. destruct Hw as [W1 W2 W3 W4 W5].
    destruct e as [|[|packet packets]| |]; try done; apply owned_stop; by split.
  - by apply tick_inv.
Qed.

Lemma timed_reachable_inv cfg outbound seed t : rtc timed_step (timed_start cfg outbound seed) t -> timed_inv t.
Proof. intros Hr. eapply rtc_preserves; [apply timed_step_inv | exact Hr | apply timed_start_inv]. Qed.

(** ** Time goes on *)

(** A microsecond passes, the pump polling first when its wait is over; the
    clients do nothing. *)
Lemma microsecond t :
  0 < slack -> pumping t = true -> timed_inv t ->
  exists t', rtc timed_step t t' /\ timed_inv t' /\ pumping t' = true /\ now_of t' = now_of t + 1
    /\ closing_of t' ⊆ closing_of t /\ charged (timed t') = charged (timed t).
Proof.
  intros Hs Hp Ht.
  assert (Htick : forall t, timed_inv t -> pumping t = true -> (forall d, due t = Some d -> now_of t + 1 <= d) ->
    timed_step t (tick_to (now_of t + 1) t) /\ timed_inv (tick_to (now_of t + 1) t)).
  { intros t1 I1 P1 D1. split; [apply ti_tick; [lia | done] | apply tick_inv; [lia | done | done]]. }
  destruct (decide (due t = Some (now_of t))) as [Hd | Hd].
  - destruct (pump_turn_inv Slept t eq_refl Ht) as (H1 & H2 & H3 & H4).
    set (t1 := pump_turn Slept t) in *.
    assert (pumping t1 = true /\ charged (timed t1) = charged (timed t)) as [P1 K1]
      by (unfold t1, pump_turn; by destruct (poll _ _ _)).
    destruct (Htick t1 H1 P1) as [S1 I1]; [intros d ?%H4; lia |]. exists (tick_to (now_of t1 + 1) t1).
    split_and!; [| done | done | simpl; lia | exact H3 | done].
    eapply rtc_l; [| by apply rtc_once]. apply (ti_pump Slept); [done | | done].
    exists (now_of t). split; [done | lia].
  - destruct (Htick t Ht Hp) as [S1 I1].
    { intros d E. pose proof (ti_clock t Ht Hp d E). assert (d <> now_of t) by congruence. lia. }
    exists (tick_to (now_of t + 1) t). by split_and!; [apply rtc_once | ..].
Qed.

Lemma time_goes_on n : forall t,
  0 < slack -> pumping t = true -> timed_inv t ->
  exists t', rtc timed_step t t' /\ timed_inv t' /\ pumping t' = true /\ now_of t' = now_of t + Z.of_nat n
    /\ closing_of t' ⊆ closing_of t /\ charged (timed t') = charged (timed t).
Proof.
  induction n as [|n IH]; intros t Hs Hp Ht; [exists t; split_and!; [done.. | lia | done | done] |].
  destruct (microsecond t Hs Hp Ht) as (t1 & R1 & I1 & P1 & N1 & C1 & K1).
  destruct (IH t1 Hs P1 I1) as (t2 & R2 & I2 & P2 & N2 & C2 & K2).
  exists t2. split_and!; [by etransitivity | done | done | lia | by etransitivity | congruence].
Qed.

Lemma closing_in_time t c :
  timed_inv t -> pumping t = true -> c ∈ closing_of t ->
  now_of t <= cl_deadline c + slack /\ cl_deadline c <= now_of t + LINGER.
Proof.
  intros [H1 H2 H3] Hp Hc. split.
  - destruct (H2 Hp c Hc) as (d & Hd & Hle). specialize (H3 Hp d Hd). lia.
  - destruct H1 as [_ _ _ _ H5]. rewrite Forall_forall in H5. by apply H5.
Qed.

End Timer.
Arguments Timed {_} C.

(** C11: a closed socket gives its slot back in ten seconds.  However the
    clients, the pump and the clock interleave, and however late, up to [slack],
    timers and rings find the pump: while the pump runs, a closed socket is gone
    within [slack] of its deadline, which is ten seconds after it was closed at
    the latest, so whatever is closing now is gone ten seconds and [slack] from
    now; and if the clients then do nothing, the pump on its own brings the
    counter back to what they hold. *)
Theorem slots_come_back `{Smoltcp} {C} `{!Channel C Packet} slot_freed iface_poll poll_delay slack cfg
    (outbound : C) seed t :
  poll_keeps_sockets iface_poll -> (forall now i m d, poll_delay now i m = Some d -> 0 <= d) -> 0 < slack ->
  rtc (timed_step slot_freed iface_poll poll_delay slack) (timed_start slack cfg outbound seed) t -> pumping t = true ->
  let now x := clock (inner (shared (timed x))) in
  let closing x := closing (inner (shared (timed (C := C) x))) in
  (forall c, c ∈ closing t -> now t <= cl_deadline c + slack /\ cl_deadline c <= now t + LINGER)
  /\ (forall t', rtc (timed_step slot_freed iface_poll poll_delay slack) t t' -> pumping t' = true ->
        now t + LINGER + slack < now t' -> forall c, c ∈ closing t -> c ∉ closing t')
  /\ exists t', rtc (timed_step slot_freed iface_poll poll_delay slack) t t'
       /\ now t' = now t + LINGER + slack + 1 /\ closing t' = []
       /\ open_sockets (shared (timed t'))
          = (length (pending (timed t)) + length (streams (timed t)) + length (udps (timed t)))%nat.
Proof.
  intros Hk Hd Hs Hr Hp now cls. pose proof (timed_reachable_inv _ _ _ _ Hk Hd (Z.lt_le_incl _ _ Hs) _ _ _ _ Hr) as Ht.
  pose proof (fun x : Timed C => closing_in_time slack x) as Hin. split_and!.
  - intros c. by apply Hin.
  - intros t' Hr' Hp' Hlt c Hc Hc'.
    assert (Ht' : timed_inv slack t').
    { eapply (timed_reachable_inv _ _ _ _ Hk Hd (Z.lt_le_incl _ _ Hs) cfg outbound seed). by etransitivity. }
    destruct (Hin t c Ht Hp Hc) as [_ H1]. destruct (Hin t' c Ht' Hp' Hc') as [H2 _]. unfold now in Hlt. lia.
  - destruct (time_goes_on slot_freed iface_poll poll_delay slack Hk Hd (Z.lt_le_incl _ _ Hs)
      (Z.to_nat (LINGER + slack + 1)) t Hs Hp Ht) as (t' & R & I & P & N & Cl & K).
    rewrite Z2Nat.id in N by (unfold LINGER; lia).
    assert (Hnil : cls t' = []).
    { destruct (cls t') as [|c l] eqn:E; [done |]. assert (Hc : c ∈ cls t') by (rewrite E; by left).
      destruct (Hin t' c I P Hc) as [H1 _]. destruct (Hin t c Ht Hp (Cl c Hc)) as [_ H2]. lia. }
    exists t'. split_and!; [done | unfold now; lia | done |].
    destruct I as [[_ Ho _ _ _] _ _]. unfold cls in Hnil. rewrite Hnil in Ho. unfold charged in *. rewrite Ho, K.
    unfold counted. simpl. lia.
Qed.

(** A run in which a stream is opened and dropped. *)
#[local] Existing Instance toy_smoltcp.

Definition toy_timed : Timed (ListChannel Packet) := timed_start 1 toy_config (chan_new PACKET_QUEUE_DEPTH) 7.
Definition toy_timed_pumped : Timed (ListChannel Packet) :=
  pump_turn toy_poll toy_delay 1 Woken (attend 1 toy_dialled toy_timed).
Definition toy_timed_dropped : Timed (ListChannel Packet) :=
  let t := attend 1 {| shared := snd (stack_connect_end 1 toy_remote ConnOpened (shared (timed toy_timed_pumped)));
                       pending := []; streams := [{| ts_handle := 1; peer := toy_remote; shut_down := false |}];
                       listeners := []; udps := [] |} toy_timed_pumped in
  attend 1 {| shared := stream_drop {| ts_handle := 1; peer := toy_remote; shut_down := false |} (shared (timed t));
              pending := []; streams := []; listeners := []; udps := [] |} t.

Lemma toy_timed_reaches :
  rtc (timed_step toy_freed toy_poll toy_delay 1) toy_timed toy_timed_dropped.
Proof.
  eapply rtc_l; [apply ti_stream, (st_connect toy_freed toy_remote (Ok 1%nat) (shared toy_dialled) toy_start eq_refl) |].
  eapply rtc_l; [apply (ti_pump toy_freed toy_poll toy_delay 1 Woken); reflexivity |].
  eapply rtc_l; [apply ti_stream |].
  { exact (st_connect_end toy_freed 0 1 toy_remote ConnOpened
      (Some (Ok {| ts_handle := 1; peer := toy_remote; shut_down := false |})) _ (timed toy_timed_pumped) eq_refl eq_refl). }
  apply rtc_once. apply ti_stream.
  match goal with |- stream_step _ ?w _ =>
    exact (st_stream_drop toy_freed 0 {| ts_handle := 1; peer := toy_remote; shut_down := false |} w eq_refl) end.
Qed.

Lemma slots_come_back_witness :
  open_sockets (shared (timed toy_timed_dropped)) = 1%nat
  /\ exists t, rtc (timed_step toy_freed toy_poll toy_delay 1) toy_timed_dropped t
       /\ clock (inner (shared (timed t))) = 10000002 /\ open_sockets (shared (timed t)) = 0%nat.
Proof.
  split; [vm_compute; reflexivity |].
  destruct (slots_come_back toy_freed toy_poll toy_delay 1 toy_config (chan_new PACKET_QUEUE_DEPTH) 7 toy_timed_dropped
    toy_poll_keeps) as (_ & _ & t & Hr & Ht & _ & Ho);
    [discriminate | lia | exact toy_timed_reaches | vm_compute; reflexivity |].
  exists t. split; [exact Hr |]. split; [rewrite Ht; vm_compute; reflexivity | rewrite Ho; vm_compute; reflexivity].
Defined.
