(* ===== verification/WgStop.v ===== *)
(** * Stopping a stack with callers waiting on it
      ([StackShared::stop], [StackShared::wait_stopped] of [src/wireguard/stack.rs])

    [WgStack.stop] is the effect of a stop; this file is its order.  A stop sets
    a flag, then closes the TCP and UDP sockets under the lock, which wakes the
    wakers registered there, then rings [stopped_notify].  Calls run in between:
    each polls the stack with the operation of [WgSockets] or [WgResolve] it is,
    and sleeps when that waits, until its socket wakes it.  A watcher is
    [wait_stopped], which reads the flag outside the lock. *)

From Stdlib Require Import ZArith Lia String Ascii.
From stdpp Require Import gmap strings numbers prelude.
From S2P Require Import Prelude Net Errors Runtime Provider WgSpec WgLink WgStack WgSockets WgResolve WgPump WgSlots.

#[local] Open Scope nat_scope.

(** smoltcp: reading what a closed socket has left does not open it. *)
Class SmoltcpStops `{Smoltcp} : Prop := {
  recv_slice_closed (room : nat) (t : Tcp) :
    tcp_state t = Closed -> tcp_state (snd (tcp_recv_slice room t)) = Closed
}.

#[export] Instance Direction_eq_dec : EqDecision Direction.
Proof. solve_decision. Defined.

(** How far the stop is. *)
Inductive Stopper : Type := Working | Flagged | ClosedAll | Rung.

(** A call that can wait.  [late]: the dial opened its socket after the stop had
    closed the others. *)
Inductive Call : Type :=
| CRead (st : WgTcpStream) (room : nat)
| CWrite (st : WgTcpStream) (data : list Z)
| CFlush (st : WgTcpStream)
| CDial (h : nat) (late : bool)
| CAccept (l : WgTcpListener)
| CSend (u : WgUdpSocket) (data : list Z) (remote : SocketAddr)
| CRecv (u : WgUdpSocket) (room : nat)
| CLookup (q : nat).

Inductive Progress : Type := Polling | Parked | Returned.

(** [wait_stopped] between its steps; [seen] is how often [stopped_notify] had
    rung when the waiter was enabled. *)
Inductive Watcher : Type :=
| Looping
| Enabled (seen : nat)
| Notified (seen : nat)
| Done.

Section Stop.
Context `{Smoltcp} {C : Type} `{!Channel C Packet}.
Variable slot_freed : SlotFreed.
Variable iface_poll : Z -> Iface * WgPhy C * gmap nat Socket -> Iface * WgPhy C * gmap nat Socket.
Variable poll_delay : Z -> Iface -> gmap nat Socket -> option Duration.
Notation Stack := (StackShared C).

Record StopWorld : Type := {
  world : World C;
  stopper : Stopper;
  rings : nat;
  calls : list (Call * Progress);
  watchers : list Watcher
}.

Definition stop_start (cfg : StackConfig) (outbound : C) (seed : Z) : StopWorld :=
  {| world := world_start cfg outbound seed; stopper := Working; rings := 0; calls := []; watchers := [] |}.

Definition is_ready {A} (r : Poll A * Stack) : bool * Stack :=
  (match fst r with Ready _ => true | Pending => false end, snd r).

(** One poll of a call: whether it returned. *)
Definition call_poll (c : Call) (s : Stack) : bool * Stack :=
  match c with
  | CRead st room => is_ready (poll_read room st s)
  | CWrite st data => is_ready (poll_write data st s)
  | CFlush st => is_ready (poll_flush st s)
  | CDial h _ => is_ready (tcp_connect_poll h s)
  | CAccept l => is_ready (accept_poll l s)
  | CSend u data remote => is_ready (send_to data remote u s)
  | CRecv u room => is_ready (recv_from room u s)
  | CLookup q => is_ready (poll_query q s)
  end.

(** The sockets and directions a waiting call registers its waker with. *)
Definition waits_on (c : Call) (i : StackInner C) : list (nat * Direction) :=
  match c with
  | CRead st _ => [(ts_handle st, Recv)]
  | CWrite st _ | CFlush st => [(ts_handle st, Send)]
  | CDial h _ => [(h, Send)]
  | CAccept l => (fun h => (h, Recv)) <$> listening l
  | CSend u _ _ => [(us_handle u, Send)]
  | CRecv u _ => [(us_handle u, Recv)]
  | CLookup _ => match dns i with Some h => [(h, Recv)] | None => [] end
  end.

(** [stop], one step at a time: the flag, *)
Definition stop_flag (s : Stack) : Stack :=
  {| inner := inner s; open_sockets := open_sockets s; freed := freed s; wake := wake s; config := config s;
     stopped := true |}.

(** the sockets, *)
Definition stop_close (s : Stack) : Stack := set_inner (set_sockets (close_socket <$> sockets (inner s)) (inner s)) s.

(** each of which wakes its wakers when it is aborted or closed; the resolver's
    is neither. *)
Definition close_wakes (s : Stack) (h : nat) : bool :=
  match sockets (inner s) !! h with Some (STcp _) | Some (SUdp _) => true | _ => false end.

Definition woken_by_close (s : Stack) (c : Call) : bool :=
  existsb (fun x => bool_decide (x ∈ wakers (inner s)) && close_wakes s x.1) (waits_on c (inner s)).

Definition wake_parked (s : Stack) (x : Call * Progress) : Call * Progress :=
  match x with (c, Parked) => if woken_by_close s c then (c, Polling) else x | _ => x end.

(** and the ring. *)
Definition stop_next (w : StopWorld) : option StopWorld :=
  let s := shared (world w) in
  match stopper w with
  | Working => Some {| world := on_shared (stop_flag s) (world w); stopper := Flagged; rings := rings w;
                       calls := calls w; watchers := watchers w |}
  | Flagged => Some {| world := on_shared (stop_close s) (world w); stopper := ClosedAll; rings := rings w;
                       calls := wake_parked s <$> calls w; watchers := watchers w |}
  | ClosedAll => Some {| world := world w; stopper := Rung; rings := S (rings w);
                         calls := calls w; watchers := watchers w |}
  | Rung => None
  end.

Lemma stop_in_steps (s : Stack) : stop_close (stop_flag s) = stop s.
Proof. done. Qed.

(** One step of [wait_stopped]: enable the notification, read the flag, wait. *)
Definition watcher_next (v : Watcher) (w : StopWorld) : option Watcher :=
  match v with
  | Looping => Some (Enabled (rings w))
  | Enabled seen => Some (if stopped (shared (world w)) then Done else Notified seen)
  | Notified seen => if seen <? rings w then Some Looping else None
  | Done => None
  end.

Definition set_watchers (l : list Watcher) (w : StopWorld) : StopWorld :=
  {| world := world w; stopper := stopper w; rings := rings w; calls := calls w; watchers := l |}.

Definition with_calls (x : World C) (l : list (Call * Progress)) (w : StopWorld) : StopWorld :=
  {| world := x; stopper := stopper w; rings := rings w; calls := l; watchers := watchers w |}.

Definition closed_all (g : Stopper) : bool := match g with Working | Flagged => false | ClosedAll | Rung => true end.

(** The object a call works on is there: the call borrows it. *)
Definition live (c : Call) (w : World C) : Prop :=
  match c with
  | CRead st room => ts_handle st ∈ ts_handle <$> streams w /\ 0 < room
  | CWrite st _ | CFlush st => ts_handle st ∈ ts_handle <$> streams w
  | CDial h _ => h ∈ (pending w).*1
  | CAccept l => l ∈ listeners w /\ listening l <> []
  | CSend u _ _ | CRecv u _ => u ∈ udps w
  | CLookup _ => dns (inner (shared w)) <> None
  end.

Definition under_way (x : Call * Progress) : bool := match x.2 with Returned => false | _ => true end.

(** A step of the stack's clients leaves alone what calls under way have
    borrowed, and the wakers they have registered. *)
Definition respects (w : StopWorld) (x : World C) : Prop :=
  (forall c p, (c, p) ∈ calls w -> under_way (c, p) = true ->
     live c x /\ forall h d, (h, d) ∈ waits_on c (inner (shared (world w))) ->
       sockets (inner (shared x)) !! h = sockets (inner (shared (world w))) !! h)
  /\ wakers (inner (shared (world w))) ⊆ wakers (inner (shared x)) /\ dns (inner (shared x)) = dns (inner (shared (world w)))
  /\ stopped (shared x) = stopped (shared (world w)).

(** The socket a stream's or a dial's call looks at is closed. *)
Definition shut_for (c : Call) (i : StackInner C) : Prop :=
  match c with
  | CRead st _ | CWrite st _ | CFlush st => exists t, sockets i !! ts_handle st = Some (STcp t) /\ tcp_state t = Closed
  | CDial h false => exists t, sockets i !! h = Some (STcp t) /\ tcp_state t = Closed
  | _ => True
  end.

(** Any interleaving: the stop, the pump until it stops, the clients, the calls
    and the watchers.  A call can be woken for a reason of its own, and be gone:
    dropped, or, for a dial or a lookup, at its deadline.  A stream's call begun
    after the close is on a stream that was there. *)
Inductive stop_step : StopWorld -> StopWorld -> Prop :=
| sp_stop w w' : stop_next w = Some w' -> stop_step w w'
| sp_pump e w :
    stopper w = Working -> leaves e = false ->
    stop_step w (with_calls (on_shared (pump_pass iface_poll poll_delay e (shared (world w))) (world w)) (calls w) w)
| sp_client x w :
    stream_step slot_freed (world w) x \/ listener_step slot_freed (world w) x \/ datagram_step slot_freed (world w) x ->
    respects w x -> stop_step w (with_calls x (calls w) w)
| sp_ask host kind w :
    dns (inner (shared (world w))) <> None ->
    stop_step w (with_calls (on_shared (snd (start_query host kind (shared (world w)))) (world w)) (calls w) w)
| sp_dial remote h s w :
    stack_connect_start slot_freed remote (shared (world w)) = (Ok h, s) ->
    stop_step w
      (with_calls {| shared := s; pending := (h, remote) :: pending (world w); streams := streams (world w);
                     listeners := listeners (world w); udps := udps (world w) |}
         (calls w ++ [(CDial h (closed_all (stopper w)), Polling)]) w)
| sp_call c w :
    live c (world w) -> (forall h late, c <> CDial h late) ->
    (closed_all (stopper w) = true -> shut_for c (inner (shared (world w)))) -> stop_step w (with_calls (world w) (calls w ++ [(c, Polling)]) w)
| sp_poll i c b s w :
    calls w !! i = Some (c, Polling) -> call_poll c (shared (world w)) = (b, s) ->
    stop_step w (with_calls (on_shared s (world w)) (<[i := (c, if b then Returned else Parked)]> (calls w)) w)
| sp_woken i c w :
    calls w !! i = Some (c, Parked) -> stop_step w (with_calls (world w) (<[i := (c, Polling)]> (calls w)) w)
| sp_gone i c p w :
    calls w !! i = Some (c, p) -> stop_step w (with_calls (world w) (<[i := (c, Returned)]> (calls w)) w)
| sp_watch w : stop_step w (set_watchers (watchers w ++ [Looping]) w)
| sp_watcher i v v' w :
    watchers w !! i = Some v -> watcher_next v w = Some v' -> stop_step w (set_watchers (<[i := v']> (watchers w)) w).

(** ** What a poll does to the others *)

(** A closed socket stays one. *)
Definition keeps_shut (i i' : StackInner C) : Prop :=
  forall h t, sockets i !! h = Some (STcp t) -> tcp_state t = Closed ->
    exists t', sockets i' !! h = Some (STcp t') /\ tcp_state t' = Closed.

(** Registered wakers stay. *)
Definition polite (i i' : StackInner C) : Prop :=
  wakers i ⊆ wakers i' /\ dns i' = dns i /\ keeps_shut i i'.

#[local] Instance polite_preorder : PreOrder polite.
Proof.
  split; [intros i; split_and!; [done | done | intros h t; eauto] |].
  intros i j k (A1 & A2 & A3) (B1 & B2 & B3). split_and!; [set_solver | congruence |].
  intros h t Ht Hc. destruct (A3 h t Ht Hc) as (t' & Ht' & Hc'). eauto.
Qed.

Lemma polite_panic (i : StackInner C) : polite i (panic i).
Proof. split_and!; [done | done | intros h t; simpl; eauto]. Qed.

Lemma polite_with_tcp {R} h (d : R) f (i : StackInner C) :
  (forall t, tcp_state t = Closed -> tcp_state (snd (f t)) = Closed) -> polite i (snd (with_tcp h d f i)).
Proof.
  intros Hf. unfold with_tcp. destruct (sockets i !! h) as [[t | |]|] eqn:E; try apply polite_panic.
  specialize (Hf t). destruct (f t) as [r t']. split_and!; [done | done |]. intros h' k Hk Hc. simpl.
  destruct (decide (h' = h)) as [-> | Hne]; [rewrite lookup_insert_eq | by rewrite lookup_insert_ne; eauto].
  rewrite E in Hk. simplify_eq/=. eauto.
Qed.

Lemma polite_insert h k (i : StackInner C) :
  (forall t, sockets i !! h <> Some (STcp t)) -> polite i (set_sockets (<[h := k]> (sockets i)) i).
Proof.
  intros Hh. split_and!; [done | done |]. intros h' t Ht Hc. simpl.
  rewrite lookup_insert_ne; [eauto |]. intros <-. by eapply Hh.
Qed.

Lemma polite_with_udp {R} h (d : R) f (i : StackInner C) : polite i (snd (with_udp h d f i)).
Proof.
  unfold with_udp. destruct (sockets i !! h) as [[| u |]|] eqn:E; try apply polite_panic. destruct (f u).
  apply polite_insert. intros t. by rewrite E.
Qed.

Lemma polite_with_dns {R} (d : R) f (i : StackInner C) : polite i (snd (with_dns d f i)).
Proof.
  unfold with_dns. destruct (dns i) as [h|]; [| apply polite_panic]. destruct (sockets i !! h) as [[| | k]|] eqn:E; try apply polite_panic. destruct (f k).
  apply polite_insert. intros t. by rewrite E.
Qed.

Lemma polite_register h d (i : StackInner C) : polite i (register h d i).
Proof. split_and!; [simpl; set_solver | done | intros h' t; simpl; eauto]. Qed.

Lemma polite_peek {R} (f : StackInner C -> R * StackInner C) (s : Stack) :
  polite (inner s) (snd (f (inner s))) -> polite (inner s) (inner (snd (peek_stack f s))).
Proof. unfold peek_stack. by destruct (f (inner s)). Qed.

(** Registrations only, which is all an accept promises. *)
Definition hears (i i' : StackInner C) : Prop := wakers i ⊆ wakers i' /\ dns i' = dns i.

Lemma polite_hears i i' : polite i i' -> hears i i'.
Proof. by intros (? & ? & _). Qed.

Lemma hears_trans i j k : hears i j -> hears j k -> hears i k.
Proof. intros [A1 A2] [B1 B2]. split; [set_solver | congruence]. Qed.

Lemma hears_with_tcp {R} h (d : R) f (i : StackInner C) : hears i (snd (with_tcp h d f i)).
Proof. unfold with_tcp. destruct (sockets i !! h) as [[t | |]|]; try done. by destruct (f t). Qed.

Lemma hears_scan port hs : forall index (i : StackInner C),
  let '(r, i') := accept_scan port index hs i in
  hears i i' /\ (r = None -> forall h, h ∈ hs -> (h, Recv) ∈ wakers i').
Proof.
  induction hs as [|h hs IH]; intros index i; simpl; [split; [done | intros _ h; set_solver] |].
  match goal with |- context [with_tcp h ?d ?f i] => pose proof (hears_with_tcp h d f i) as Hs;
    destruct (with_tcp h d f i) as [[found|] i1] end; [by split |].
  specialize (IH (S index) (register h Send (register h Recv i1))).
  destruct (accept_scan _ _ hs _) as [r i']. destruct IH as [[I1 I2] I3]. simpl in *. split.
  - split; [destruct Hs; set_solver | destruct Hs; congruence].
  - intros Hr h' [-> | Hin]%elem_of_cons; [set_solver | by apply I3].
Qed.

Lemma hears_accept l (s : Stack) :
  hears (inner s) (inner (snd (accept_poll l s)))
  /\ (fst (accept_poll l s) = Pending -> forall h, h ∈ listening l -> (h, Recv) ∈ wakers (inner (snd (accept_poll l s)))).
Proof.
  unfold accept_poll, peek_stack. destruct (stopped s); [done |].
  pose proof (hears_scan (sa_port (local l)) (listening l) 0 (inner s)) as Hs.
  destruct (accept_scan _ _ _ _) as [[[index found]|] i]; simpl; destruct Hs as [Hs Hr]; (split; [done | auto]); done.
Qed.

Context `{Hlaws : !SmoltcpLaws, Hstops : !SmoltcpStops}.

Lemma polite_read room st (s : Stack) : polite (inner s) (inner (snd (poll_read room st s))).
Proof.
  unfold poll_read, peek_stack.
  match goal with |- context [with_tcp ?h ?d ?f ?i] => pose proof (polite_with_tcp h d f i) as Hs;
    destruct (with_tcp h d f i) as [[[|b data]|] j] end; simpl in *;
    [.. | etransitivity; [| apply polite_register]]; apply Hs; intros t Hc;
    (destruct (tcp_may_recv t); [| done]); simpl; pose proof (recv_slice_closed room t Hc) as Hr;
    by destruct (tcp_recv_slice room t) as [[[]|] ?].
Qed.

Lemma polite_write data st (s : Stack) : polite (inner s) (inner (snd (poll_write data st s))).
Proof.
  unfold poll_write, peek_stack. destruct (shut_down st); [done |].
  match goal with |- context [with_tcp ?h ?d ?f ?i] => pose proof (polite_with_tcp h d f i) as Hs;
    destruct (with_tcp h d f i) as [[[n|e]|] j] end; simpl in *;
    [.. | etransitivity; [| apply polite_register]]; apply Hs; intros t Hc; by rewrite (closed_may_send t Hc).
Qed.

Lemma polite_flush st (s : Stack) : polite (inner s) (inner (snd (poll_flush st s))).
Proof.
  unfold poll_flush, peek_stack.
  match goal with |- context [with_tcp ?h ?d ?f ?i] => pose proof (polite_with_tcp h d f i) as Hs;
    destruct (with_tcp h d f i) as [[r|] j] end; simpl in *;
    [| etransitivity; [| apply polite_register]]; by apply Hs.
Qed.

Lemma polite_connect h (s : Stack) : polite (inner s) (inner (snd (tcp_connect_poll h s))).
Proof.
  unfold tcp_connect_poll, peek_stack.
  match goal with |- context [with_tcp ?h ?d ?f ?i] => pose proof (polite_with_tcp h d f i) as Hs;
    destruct (with_tcp h d f i) as [[] j] end; simpl in *;
    try (etransitivity; [| apply polite_register]); by apply Hs.
Qed.

Lemma polite_send data remote u (s : Stack) : polite (inner s) (inner (snd (send_to data remote u s))).
Proof.
  unfold send_to, peek_stack. destruct (stopped s); [done |].
  match goal with |- context [with_udp ?h ?d ?f ?i] => pose proof (polite_with_udp h d f i) as Hs;
    destruct (with_udp h d f i) as [[[]|[]] j] end; simpl in *; try done.
  etransitivity; [exact Hs | apply polite_register].
Qed.

Lemma polite_recv room u (s : Stack) : polite (inner s) (inner (snd (recv_from room u s))).
Proof.
  unfold recv_from, peek_stack. destruct (stopped s); [done |].
  match goal with |- context [with_udp ?h ?d ?f ?i] => pose proof (polite_with_udp h d f i) as Hs;
    destruct (with_udp h d f i) as [[[]|[]] j] end; simpl in *; try done.
  etransitivity; [exact Hs | apply polite_register].
Qed.

Lemma polite_query q (s : Stack) : polite (inner s) (inner (snd (poll_query q s))).
Proof.
  unfold poll_query, peek_stack.
  match goal with |- context [with_dns ?d ?f ?i] => pose proof (polite_with_dns d f i) as Hs;
    destruct (with_dns d f i) as [[] j] end; exact Hs.
Qed.

(** A poll leaves registrations alone, and on a stopped stack closed sockets. *)
Lemma call_poll_polite c (s : Stack) :
  let i' := inner (snd (call_poll c s)) in
  hears (inner s) i' /\ (stopped s = true -> keeps_shut (inner s) i') /\ stopped (snd (call_poll c s)) = stopped s.
Proof.
  assert (Hflag : stopped (snd (call_poll c s)) = stopped s).
  { destruct c; simpl; unfold poll_read, poll_write, poll_flush, tcp_connect_poll, accept_poll, send_to, recv_from, poll_query,
      peek_stack; repeat (case_match; simplify_eq/=); done. }
  assert (Hp : polite (inner s) (inner (snd (call_poll c s))) \/ exists l, c = CAccept l).
  { destruct c; simpl; eauto using polite_read, polite_write, polite_flush, polite_connect, polite_send, polite_recv, polite_query. }
  destruct Hp as [(P1 & P2 & P3) | [l ->]]; [done |].
  split_and!; [apply hears_accept | | exact Hflag]. simpl. unfold accept_poll, peek_stack. intros ->. intros h t; simpl; eauto.
Qed.

Lemma pending_registered c (s s' : Stack) :
  call_poll c s = (false, s') -> (forall q, c <> CLookup q) ->
  forall x, x ∈ waits_on c (inner s) -> x ∈ wakers (inner s').
Proof.
  intros E Hq x. replace s' with (snd (call_poll c s)) by (by rewrite E).
  assert (Hb : fst (call_poll c s) = false) by (by rewrite E). clear E. revert Hb.
  destruct c as [st room | st data | st | h late | l | u data remote | u room | q]; simpl;
    rewrite ?list_elem_of_singleton; [.. | by destruct (Hq q)].
  - unfold poll_read, peek_stack. destruct (with_tcp _ _ _ _) as [[[]|] i]; simpl; try done. intros _ ->. left.
  - unfold poll_write, peek_stack. destruct (shut_down st); [done |].
    destruct (with_tcp _ _ _ _) as [[[]|] i]; simpl; try done. intros _ ->. left.
  - unfold poll_flush, peek_stack. destruct (with_tcp _ _ _ _) as [[]  i]; simpl; try done. intros _ ->. left.
  - unfold tcp_connect_poll, peek_stack. destruct (with_tcp _ _ _ _) as [[] i]; simpl; try done; intros _ ->; left.
  - destruct (hears_accept l s) as [_ Hr]. destruct (fst (accept_poll l s)); [done |].
    intros _ (h & -> & Hh)%list_elem_of_fmap. by apply Hr.
  - unfold send_to, peek_stack. destruct (stopped s); [done |].
    destruct (with_udp _ _ _ _) as [[[]|[]] i]; simpl; try done. intros _ ->. left.
  - unfold recv_from, peek_stack. destruct (stopped s); [done |].
    destruct (with_udp _ _ _ _) as [[[]|[]] i]; simpl; try done. intros _ ->. left.
Qed.

(** The sockets of live calls are in the set, of their kind. *)
Definition call_kind (c : Call) : Kind := match c with CSend _ _ _ | CRecv _ _ => KUdp | CLookup _ => KDns | _ => KTcp end.

Lemma live_held c (w : World C) h d :
  live c w -> (forall q, c <> CLookup q) -> (h, d) ∈ waits_on c (inner (shared w)) -> (h, call_kind c) ∈ held w.
Proof.
  assert (Hst : forall st, ts_handle st ∈ ts_handle <$> streams w -> (ts_handle st, KTcp) ∈ held w).
  { intros st (st' & -> & Hin)%list_elem_of_fmap. exact (held_stream w st' Hin). }
  intros Hl Hq. destruct c as [st room | st data | st | x late | l | u data remote | u room | q]; simpl in *;
    rewrite ?list_elem_of_singleton; [.. | by destruct (Hq q)].
  - intros [= -> _]. apply Hst. by destruct Hl.
  - intros [= -> _]. by apply Hst.
  - intros [= -> _]. by apply Hst.
  - intros [= -> _]. apply list_elem_of_fmap in Hl as ([y remote] & -> & Hin). by eapply held_pending.
  - intros (y & [= -> _] & Hy)%list_elem_of_fmap. destruct Hl as [Hl _]. rewrite held_holds.
    apply list_elem_of_lookup in Hl as [i Hl]. rewrite (holds_listener_at _ _ _ _ _ _ Hl), elem_of_app. left.
    by apply (list_elem_of_fmap_2 (fun h => (h, KTcp))).
  - intros [= -> _]. by apply held_udp.
  - intros [= -> _]. by apply held_udp.
Qed.

Lemma live_socket c (w : World C) h d :
  world_inv w -> live c w -> (h, d) ∈ waits_on c (inner (shared w)) -> (forall q, c <> CLookup q) ->
  exists k, sockets (inner (shared w)) !! h = Some k /\ kind k = call_kind c.
Proof.
  intros [Ht _ _ _ _] Hl Hw Hq. eapply tracks_lookup; [exact Ht |]. apply elem_of_app. left. by eapply live_held.
Qed.

Lemma live_waits c (w : World C) :
  live c w -> (forall q, c <> CLookup q) -> exists h d, (h, d) ∈ waits_on c (inner (shared w)).
Proof.
  intros Hl Hq. destruct c as [st room | st data | st | x late | l | u data remote | u room | q]; simpl in *;
    try (do 2 eexists; left); [| by destruct (Hq q)].
  destruct Hl as [_ Hl]. destruct (listening l); [done |]. do 2 eexists. left.
Qed.

Lemma call_poll_inv c (w : World C) : world_inv w -> live c w -> world_inv (on_shared (snd (call_poll c (shared w))) w).
Proof.
  intros Hw Hl. unfold world_inv in *. simpl.
  assert (Hh : (forall q, c <> CLookup q) -> forall h d, (h, d) ∈ waits_on c (inner (shared w)) -> (h, call_kind c) ∈ held w)
    by (intros Hq h d; by apply live_held).
  destruct c as [st room | st data | st | x late | l | u data remote | u room | q]; simpl in *.
  - apply poll_read_owned; [done |]. eapply Hh; [done | left].
  - apply poll_write_owned; [done |]. eapply Hh; [done | left].
  - apply poll_flush_owned; [done |]. eapply Hh; [done | left].
  - apply connect_poll_owned; [done |]. eapply Hh; [done | left].
  - unfold accept_poll, peek_stack. destruct (stopped (shared w)); [by eapply (owned_same (shared w)) |].
    destruct (accept_scan _ _ _ _) as [r i] eqn:E.
    destruct (accept_scan_owned _ _ _ _ _ _ _ _ Hw ltac:(intros h Hin; eapply Hh; [done |];
      by apply (list_elem_of_fmap_2 (fun h => (h, Recv)))) E) as [O1 _]. by destruct r.
  - apply send_to_owned; [done |]. eapply Hh; [done | left].
  - apply recv_from_owned; [done |]. eapply Hh; [done | left].
  - apply (service_step_inv (fun _ x => x) poll_delay w (on_shared (snd (poll_query q (shared w))) w)); [| by apply st_query_poll | done].
    intros now i p m i' p' m' [= <- <- <-]. done.
Qed.

(** ** Opening one more socket *)

Lemma wakers_reclaim now up fuel : forall index (s : Stack),
  wakers (inner (reclaim_loop fuel now up index s)) = wakers (inner s)
  /\ stopped (reclaim_loop fuel now up index s) = stopped s /\ dns (inner (reclaim_loop fuel now up index s)) = dns (inner s).
Proof.
  assert (Hdis : forall h (i : StackInner C), wakers (discard h i) = wakers i /\ dns (discard h i) = dns i)
    by (intros h i; unfold discard; by destruct (sockets i !! h)).
  induction fuel as [|fuel IH]; intros index s; simpl; [done |].
  destruct (reclaim_round now up index s) as [[index' s']|] eqn:E; [| done].
  assert (G : wakers (inner s') = wakers (inner s) /\ stopped s' = stopped s /\ dns (inner s') = dns (inner s)).
  { unfold reclaim_round in E. repeat (case_match; simplify_eq/=); rewrite ?(proj1 (Hdis _ _)), ?(proj2 (Hdis _ _)); done. }
  destruct (IH index' s') as (-> & -> & ->). exact G.
Qed.

(** A dial leaves everyone's registrations and sockets alone. *)
Lemma connect_start_apart remote (s : Stack) r s' hs n :
  owned s hs n -> stack_connect_start slot_freed remote s = (r, s') ->
  hears (inner s) (inner s') /\ stopped s' = stopped s
  /\ forall h k, (h, k) ∈ hs -> sockets (inner s') !! h = sockets (inner s) !! h.
Proof.
  intros Ho. unfold stack_connect_start. destruct (claim_socket slot_freed s) as [r1 s1] eqn:E1.
  pose proof (owned_claim _ _ _ _ _ _ Ho E1) as O1.
  assert (G1 : hears (inner s) (inner s1) /\ stopped s1 = stopped s
    /\ forall h k, (h, k) ∈ hs -> sockets (inner s1) !! h = sockets (inner s) !! h).
  { assert (G : forall x, x = s \/ x = claim_sweep s -> hears (inner s) (inner x) /\ stopped x = stopped s
      /\ forall h k, (h, k) ∈ hs -> sockets (inner x) !! h = sockets (inner s) !! h).
    { intros x [-> | ->]; [done |].
      destruct (wakers_reclaim (clock (inner s)) true (S (length (closing (inner s)))) 0 s) as (R1 & R2 & R3).
      assert (W : wakers (inner (claim_sweep s)) = wakers (inner s)) by exact R1.
      split_and!; [split; [by rewrite W | exact R3] | exact R2 |]. intros h k Hin.
      destruct (reclaim_finished_spec (clock (inner s)) true s (owned_closing_ok _ _ _ Ho)) as (gone & kept & Hp & _ & _ & _ & Hr).
      unfold claim_sweep. cbn [ring inner]. rewrite (rc_sockets _ _ _ Hr), bool_decide_eq_false_2; [done |]. intros (c & -> & Hc)%list_elem_of_fmap.
      destruct (ow_tracks _ _ _ Ho) as [Hn _]. rewrite !fmap_app in Hn. apply NoDup_app in Hn as (_ & Hn & _).
      eapply Hn; [by apply (list_elem_of_fmap_2 fst _ (cl_handle c, k)) |]. apply elem_of_app. left.
      apply list_elem_of_fmap. exists (cl_handle c, KTcp). split; [done |].
      apply (list_elem_of_fmap_2 (fun c => (cl_handle c, KTcp))). rewrite Hp. apply elem_of_app. by left. }
    unfold claim_socket in E1. set (x := if (MAX_SOCKETS <=? open_sockets s) then claim_sweep s else s) in E1.
    assert (Hx : x = s \/ x = claim_sweep s) by (unfold x; destruct (MAX_SOCKETS <=? _); [by right | by left]). specialize (G x Hx). clearbody x.
    unfold claim_update in E1. destruct (open_sockets x <? MAX_SOCKETS); simplify_eq; exact G. }
  destruct r1 as [[] | e]; [| by intros [= <- <-]].
  destruct (tcp_connect_start remote s1) as [r2 s2] eqn:E2.
  assert (G2 : hears (inner s1) (inner s2) /\ stopped s2 = stopped s1
    /\ forall h k, (h, k) ∈ hs -> sockets (inner s2) !! h = sockets (inner s1) !! h).
  { assert (Hf : forall h k, (h, k) ∈ hs -> h <> fresh (dom (sockets (inner s1)))).
    { intros h k Hin ->. destruct (tracks_lookup _ _ _ _ (ow_tracks _ _ _ O1) (proj2 (elem_of_app _ _ _) (or_introl Hin))) as (x & Hx & _).
      apply elem_of_dom_2 in Hx. by apply is_fresh in Hx. }
    unfold tcp_connect_start, with_stack, add_tcp_socket, add_socket, with_tcp, discard in E2. simpl in E2.
    rewrite lookup_insert_eq in E2. repeat (case_match; simplify_eq/=);
      (split_and!; [split; simpl; done | done |]); intros h k Hin; specialize (Hf h k Hin); simpl;
      rewrite ?lookup_delete_ne, ?lookup_insert_ne by congruence; done. }
  destruct G1 as (A1 & A2 & A3), G2 as (B1 & B2 & B3).
  destruct r2; intros [= <- <-]; (split_and!; [by eapply hears_trans | simpl; congruence |]);
    intros h k Hin; simpl; rewrite (B3 h k Hin); by eapply A3.
Qed.

(** ** The invariant *)

(** The calls a stop does not end. *)
Definition exempt (c : Call) : bool := match c with CDial _ late => late | CLookup _ => true | _ => false end.

Definition call_ok (w : StopWorld) (x : Call * Progress) : Prop :=
  let i := inner (shared (world w)) in
  under_way x = true ->
  live x.1 (world w)
  /\ (closed_all (stopper w) = true -> shut_for x.1 i)
  /\ (forall h, x.1 = CDial h true -> closed_all (stopper w) = true)
  /\ (x.2 = Parked -> exempt x.1 = false ->
       closed_all (stopper w) = false /\ forall k, k ∈ waits_on x.1 i -> k ∈ wakers i).

(** A watcher waits only for a ring that is still to come, or has come since. *)
Definition watcher_ok (w : StopWorld) (v : Watcher) : Prop :=
  match v with
  | Enabled seen => seen <= rings w
  | Notified seen => seen = 0
  | Looping | Done => True
  end.

Record stop_inv (w : StopWorld) : Prop := {
  si_world : world_inv (world w);
  si_flag : stopped (shared (world w)) = match stopper w with Working => false | _ => true end;
  si_rings : rings w = match stopper w with Rung => 1 | _ => 0 end;
  si_calls : Forall (call_ok w) (calls w);
  si_watchers : Forall (watcher_ok w) (watchers w)
}.

Lemma exempt_waits c (i i' : StackInner C) : exempt c = false -> waits_on c i = waits_on c i'.
Proof. by destruct c. Qed.

Lemma exempt_lookup c : exempt c = false -> forall q, c <> CLookup q.
Proof. by intros E q ->. Qed.

Lemma shut_for_keeps c i i' : keeps_shut i i' -> shut_for c i -> shut_for c i'.
Proof.
  intros Hk. destruct c as [| | | h [] | | | |]; simpl; try done; intros (t & Ht & Hc); by eapply Hk.
Qed.

(** What has to hold of a step for a call it does not touch. *)
Lemma call_ok_carry w w' x :
  closed_all (stopper w') = closed_all (stopper w) ->
  (under_way x = true -> live x.1 (world w) -> live x.1 (world w')
     /\ (closed_all (stopper w) = true -> shut_for x.1 (inner (shared (world w))) -> shut_for x.1 (inner (shared (world w'))))) ->
  wakers (inner (shared (world w))) ⊆ wakers (inner (shared (world w'))) -> call_ok w x -> call_ok w' x.
Proof.
  intros Es Hx Hk Hok Hu. destruct (Hok Hu) as (H1 & H2 & H3 & H4). destruct (Hx Hu H1) as [L1 L2]. rewrite Es.
  split_and!; [done | auto | done |]. intros Hp He. destruct (H4 Hp He) as [-> H5]. split; [done |].
  intros k. rewrite (exempt_waits _ _ (inner (shared (world w))) He). auto.
Qed.

Lemma live_same c (w w' : World C) :
  pending w' = pending w -> streams w' = streams w -> listeners w' = listeners w -> udps w' = udps w ->
  dns (inner (shared w')) = dns (inner (shared w)) -> live c w -> live c w'.
Proof. intros E1 E2 E3 E4 E5. by destruct c; simpl; rewrite ?E1, ?E2, ?E3, ?E4, ?E5. Qed.

(** On a closed stack only the exempt calls wait. *)
Lemma closed_ready c (w : World C) :
  stopped (shared w) = true -> live c w -> shut_for c (inner (shared w)) -> exempt c = false ->
  fst (call_poll c (shared w)) = true.
Proof.
  intros Hs Hl Hc He. destruct c as [st room | st data | st | h [] | l | u data remote | u room | q]; simpl in *; try done.
  - destruct Hc as (t & Ht & Hc). destruct Hl as [_ Hr]. by destruct (closed_read st room (shared w) t Ht Hc Hr) as [x ->].
  - destruct Hc as (t & Ht & Hc). by rewrite (closed_write st data (shared w) t Ht Hc).
  - destruct Hc as (t & Ht & Hc). pose proof (closed_flush st (shared w) t Ht Hc). by destruct (fst (poll_flush st (shared w))).
  - destruct Hc as (t & Ht & Hc). unfold tcp_connect_poll, peek_stack, with_tcp. by rewrite Ht, Hc.
  - unfold accept_poll, peek_stack. by rewrite Hs.
  - unfold send_to, peek_stack. by rewrite Hs.
  - unfold recv_from, peek_stack. by rewrite Hs.
Qed.

(** The close reaches every socket a call can be waiting on, the resolver's
    excepted. *)
Lemma close_ok w w' x :
  stop_inv w -> stopper w = Flagged -> stop_next w = Some w' -> call_ok w x ->
  call_ok w' (wake_parked (shared (world w)) x).
Proof.
  intros Hw Es E Hok. unfold stop_next in E. rewrite Es in E. injection E as <-. destruct x as [c p].
  assert (Hlive : forall p', under_way (c, p') = true -> (p = Parked \/ p' = p) -> p' <> Parked \/ exempt c = true ->
    call_ok {| world := on_shared (stop_close (shared (world w))) (world w); stopper := ClosedAll; rings := rings w;
               calls := wake_parked (shared (world w)) <$> calls w; watchers := watchers w |} (c, p')).
  { intros p' Hu Hp Hn _. assert (Hu' : under_way (c, p) = true) by (destruct Hp as [-> | <-]; done).
    destruct (Hok Hu') as (H1 & H2 & H3 & H4). simpl in *. split_and!; [| | done |].
    3: { intros -> He. destruct Hn as [Hn | Hn]; [done | congruence]. }
    - by eapply live_same; [.. | exact H1].
    - intros _. assert (Hsock : forall h d, exempt c = false -> (h, d) ∈ waits_on c (inner (shared (world w))) ->
        call_kind c = KTcp ->
        exists t, (close_socket <$> sockets (inner (shared (world w)))) !! h = Some (STcp t) /\ tcp_state t = Closed).
      { intros h d He Hin Hkind. destruct (live_socket c (world w) h d (si_world _ Hw) H1 Hin (exempt_lookup _ He)) as (k & Hk & Ek).
        rewrite lookup_fmap, Hk. destruct k as [t | |]; simpl in Ek; [| congruence..].
        exists (tcp_abort t). split; [done | apply abort_closed]. }
      destruct c as [st room | st data | st | h [] | l | u data remote | u room | q]; simpl; try done;
        (eapply Hsock; [done | simpl; left | done]). }
  unfold wake_parked. destruct p; [by apply Hlive; auto; left | | done].
  destruct (woken_by_close (shared (world w)) c) eqn:Ew; [by apply Hlive; auto; left |].
  intros Hu. destruct (exempt c) eqn:He; [by apply Hlive; auto |]. exfalso.
  destruct (Hok Hu) as (H1 & _ & _ & H4). destruct (H4 eq_refl He) as [_ H5]. simpl in *.
  destruct (live_waits c (world w) H1 (exempt_lookup _ He)) as (h & d & Hin).
  destruct (live_socket c (world w) h d (si_world _ Hw) H1 Hin (exempt_lookup _ He)) as (k & Hk & Ek).
  unfold woken_by_close in Ew. rewrite <- not_true_iff_false in Ew. apply Ew. apply existsb_exists.
  exists (h, d). split; [by apply list_elem_of_In |]. rewrite bool_decide_eq_true_2 by auto. simpl. unfold close_wakes. rewrite Hk.
  destruct k; [done | done |]. by destruct c.
Qed.

Lemma stop_next_inv w w' : stop_next w = Some w' -> stop_inv w -> stop_inv w'.
Proof.
  intros E Hw. pose proof Hw as [H1 H2 H3 H4 H5]. pose proof (close_ok w w') as Hclose. unfold stop_next in E, Hclose.
  destruct (stopper w) eqn:Es; [| | | done]; injection E as <-; split; simpl; rewrite ?H3; try done.
  - by eapply (owned_same (shared (world w))).
  - eapply Forall_impl; [exact H4 |]. intros x. apply call_ok_carry; [by rewrite Es | | done].
    intros _ Hl. split; [by eapply live_same; [.. | exact Hl] | done].
  - eapply Forall_impl; [exact H5 |]. intros v. unfold watcher_ok. simpl. by rewrite H3.
  - apply (owned_stop (shared (world w))) in H1. by eapply (owned_same (stop (shared (world w)))).
  - apply Forall_fmap. eapply Forall_impl; [exact H4 |]. intros x. by apply Hclose.
  - eapply Forall_impl; [exact H5 |]. intros v. unfold watcher_ok. simpl. by rewrite H3.
  - eapply Forall_impl; [exact H4 |]. intros x. apply call_ok_carry; [by rewrite Es | done | done].
  - eapply Forall_impl; [exact H5 |]. intros v. unfold watcher_ok. simpl. rewrite H3. destruct v; lia || done.
Qed.

(** A step that only touches the world. *)
Lemma world_step_inv w x l :
  world_inv x -> stopped (shared x) = stopped (shared (world w)) ->
  wakers (inner (shared (world w))) ⊆ wakers (inner (shared x)) ->
  (forall c p, (c, p) ∈ calls w -> under_way (c, p) = true -> live c (world w) -> live c x
     /\ (closed_all (stopper w) = true -> shut_for c (inner (shared (world w))) -> shut_for c (inner (shared x)))) ->
  Forall (call_ok (with_calls x l w)) l \/ l = calls w -> stop_inv w -> stop_inv (with_calls x l w).
Proof.
  intros Hx Hs Hk Hc Hl [H1 H2 H3 H4 H5]. split; simpl; try done; [congruence |].
  destruct Hl as [Hl | ->]; [done |]. rewrite Forall_forall in *. intros [c p] Hin.
  apply (call_ok_carry w); [done | by apply Hc | done | by apply H4].
Qed.

(** A step that changes the stack politely and nothing else. *)
Lemma polite_calls w s' :
  stop_inv w -> hears (inner (shared (world w))) (inner s') ->
  (stopped (shared (world w)) = true -> keeps_shut (inner (shared (world w))) (inner s')) ->
  forall c p, (c, p) ∈ calls w -> under_way (c, p) = true -> live c (world w) -> live c (on_shared s' (world w))
    /\ (closed_all (stopper w) = true -> shut_for c (inner (shared (world w))) -> shut_for c (inner s')).
Proof.
  intros [_ H2 _ _ _] [_ Hd] Hk c p _ _ Hl. split; [by eapply live_same; [.. | exact Hl] |].
  intros Hcl. apply shut_for_keeps, Hk. rewrite H2. by destruct (stopper w).
Qed.

Lemma hears_pump e (s : Stack) :
  leaves e = false ->
  hears (inner s) (inner (pump_pass iface_poll poll_delay e s)) /\ stopped (pump_pass iface_poll poll_delay e s) = stopped s.
Proof.
  intros He. unfold pump_pass, poll. destruct (iface_poll _ _) as [[ifc p] m]. set (s1 := set_inner _ s).
  destruct (wakers_reclaim (clock (inner s)) false (S (length (closing (inner s1)))) 0 s1) as (R1 & R2 & R3).
  change (reclaim_loop _ _ _ _ s1) with (reclaim (clock (inner s)) s1) in R1, R2, R3.
  destruct e as [|[|packet packets]| |]; try done; (split; [split |]); simpl; rewrite ?R1, ?R2, ?R3; done.
Qed.

Lemma dial_inv remote h s w :
  stack_connect_start slot_freed remote (shared (world w)) = (Ok h, s) -> stop_inv w ->
  stop_inv (with_calls {| shared := s; pending := (h, remote) :: pending (world w); streams := streams (world w);
                          listeners := listeners (world w); udps := udps (world w) |}
              (calls w ++ [(CDial h (closed_all (stopper w)), Polling)]) w).
Proof.
  intros E Hw. pose proof (si_world _ Hw) as Hi. destruct (connect_start_apart _ _ _ _ _ _ Hi E) as ([K1 K2] & Hf & Ha).
  set (x := {| shared := s |}). assert (Hx : world_inv x).
  { eapply stream_step_inv; [apply (st_connect slot_freed remote (Ok h) s (world w) E) | done]. }
  assert (Hc : forall c p, (c, p) ∈ calls w -> under_way (c, p) = true -> live c (world w) -> live c x
     /\ (closed_all (stopper w) = true -> shut_for c (inner (shared (world w))) -> shut_for c (inner (shared x)))).
  { intros c p Hin Hu Hl. split.
    - destruct c; simpl in *; try done; [by right | congruence].
    - intros _. assert (Hh : forall h d, exempt c = false -> (h, d) ∈ waits_on c (inner (shared (world w))) ->
        sockets (inner s) !! h = sockets (inner (shared (world w))) !! h).
      { intros y d He Hy. eapply Ha, live_held; [done | by apply exempt_lookup | done]. }
      destruct c as [st room | st data | st | y [] | l | u data target | u room | q]; simpl in *; try done;
        (erewrite Hh; [done | done | left]). }
  apply world_step_inv; try done. left. apply Forall_app. split.
  - pose proof (si_calls _ Hw) as Hk. rewrite Forall_forall in *. intros [c p] Hin.
    apply (call_ok_carry w); [done | by apply Hc | done | by apply Hk].
  - apply Forall_singleton. intros _. simpl. split_and!; [left | | by intros y [= -> ->] | done].
    intros ->. simpl. done.
Qed.

Lemma poll_inv i c b s w :
  calls w !! i = Some (c, Polling) -> call_poll c (shared (world w)) = (b, s) -> stop_inv w ->
  stop_inv (with_calls (on_shared s (world w)) (<[i := (c, if b then Returned else Parked)]> (calls w)) w).
Proof.
  intros Hi E Hw. pose proof Hw as [H1 H2 H3 H4 H5]. destruct (Forall_lookup_1 _ _ _ _ H4 Hi eq_refl) as (L1 & L2 & L3 & _).
  simpl in L1, L2, L3. destruct (call_poll_polite c (shared (world w))) as (P1 & P2 & P3).
  pose proof (call_poll_inv c (world w) H1 L1) as P4. pose proof (closed_ready c (world w)) as P5.
  pose proof (pending_registered c (shared (world w))) as P6. rewrite E in P1, P2, P3, P4, P5. simpl in *.
  pose proof (polite_calls w s Hw P1 P2) as Hc.
  apply world_step_inv; [done | done | apply P1 | exact Hc | left | done].
  apply Forall_insert.
  - rewrite Forall_forall in *. intros [c' p] Hin. apply (call_ok_carry w); [done | by apply Hc | apply P1 | by apply H4].
  - destruct b; [done |]. intros _. simpl. destruct (Hc c Polling (list_elem_of_lookup_2 _ _ _ Hi) eq_refl L1) as [C1 C2].
    split_and!; [done | auto | done |]. intros _ He.
    assert (Hcl : closed_all (stopper w) = false).
    { destruct (closed_all (stopper w)) eqn:Ec; [| done]. discriminate P5; [| done | by apply L2 | done].
      rewrite H2. by destruct (stopper w). }
    split; [done |]. intros k. rewrite (exempt_waits _ _ (inner (shared (world w))) He). apply P6; [done | by apply exempt_lookup].
Qed.

Lemma watcher_next_ok v v' w :
  stop_inv w -> watcher_ok w v -> watcher_next v w = Some v' -> watcher_ok w v'.
Proof.
  intros [_ H1 H3 _ _] Hv E. destruct v as [| seen | seen |]; simpl in *; simplify_eq; simpl; try done.
  - rewrite H1 in *. destruct (stopper w); simpl; try done. lia.
  - destruct (0 <? rings w); by simplify_eq.
Qed.

Hypothesis keeps : poll_keeps_sockets iface_poll.

Lemma restage_inv i c p w :
  (under_way (c, p) = true -> p <> Parked) -> calls w !! i = Some (c, p) \/ calls w !! i = Some (c, Parked) \/ p = Returned ->
  stop_inv w -> stop_inv (with_calls (world w) (<[i := (c, p)]> (calls w)) w).
Proof.
  intros Hp Hi Hw. apply world_step_inv; try done; [apply Hw | left]. pose proof (si_calls _ Hw) as Hk.
  apply Forall_insert; [exact Hk |]. intros Hu. destruct Hi as [Hi | [Hi | ->]]; [| | done];
    destruct (Forall_lookup_1 _ _ _ _ Hk Hi) as (L1 & L2 & L3 & _); try done;
    (split_and!; [done | done | done |]); intros E; by destruct (Hp Hu).
Qed.

Lemma client_inv x w :
  stream_step slot_freed (world w) x \/ listener_step slot_freed (world w) x \/ datagram_step slot_freed (world w) x ->
  respects w x -> stop_inv w -> stop_inv (with_calls x (calls w) w).
Proof.
  intros Hs (R1 & R2 & R3 & R4) Hw. apply world_step_inv; try done; [| | by right].
  - pose proof (si_world _ Hw). destruct Hs as [Hs | [Hs | Hs]];
      [by eapply stream_step_inv | by eapply listener_step_inv | by eapply datagram_step_inv].
  - intros c p Hin Hu Hl. destruct (R1 c p Hin Hu) as [L1 L2]. split; [done |]. intros _.
    destruct c as [st room | st data | st | y [] | l | u data target | u room | q]; simpl in *; try done;
      (erewrite L2; [done | left]).
Qed.

Lemma stop_step_inv w w' : stop_step w w' -> stop_inv w -> stop_inv w'.
Proof.
  intros Hstep Hw. pose proof Hw as [H1 H2 H3 H4 H5].
  destruct Hstep as [w w' E | e w Es He | x w Hs Hr | host k w Hd | remote h s w E | c w Hl Hn Hc | i c b s w Hi E | i c w Hi
    | i c p w Hi | w | i v v' w Hi E].
  - by eapply stop_next_inv.
  - destruct (hears_pump e (shared (world w)) He) as [P1 P2].
    apply world_step_inv; [by apply pump_owned | done | apply P1 | | by right | done].
    apply polite_calls; [done | done |]. rewrite H2, Es. done.
  - by apply client_inv.
  - assert (P : polite (inner (shared (world w))) (inner (snd (start_query host k (shared (world w)))))
      /\ stopped (snd (start_query host k (shared (world w)))) = stopped (shared (world w))).
    { unfold start_query, with_stack.
      match goal with |- context [with_dns ?d ?f ?i] => pose proof (polite_with_dns d f i) as Hp; destruct (with_dns d f i) end.
      done. }
    destruct P as [(P1 & P2 & P3) P4].
    apply world_step_inv; [| done | done | | by right | done].
    + by apply (service_step_inv iface_poll poll_delay (world w)); [done | apply st_query | done].
    + by apply polite_calls.
  - by apply dial_inv.
  - apply world_step_inv; try done. left. apply Forall_app. split; [done |]. apply Forall_singleton. intros _. simpl.
    split_and!; [done | done | intros h Ec; by destruct (Hn h true) | done].
  - by apply poll_inv.
  - apply restage_inv; auto.
  - apply restage_inv; auto.
  - split; try done. simpl. apply Forall_app. split; [done | by apply Forall_singleton].
  - split; try done. simpl. apply Forall_insert; [done |]. apply (watcher_next_ok v v' w); [done | | exact E].
    by eapply Forall_lookup_1.
Qed.

Lemma stop_reachable_inv cfg outbound seed w : rtc stop_step (stop_start cfg outbound seed) w -> stop_inv w.
Proof.
  intros Hr. eapply rtc_preserves; [apply stop_step_inv | exact Hr |].
  split; simpl; try done. apply (world_start_inv iface_poll poll_delay).
Qed.

(** A watcher left to itself for [n] steps. *)
Fixpoint watch (n : nat) (w : StopWorld) (v : Watcher) : Watcher :=
  match n with
  | 0 => v
  | S n => match watcher_next v w with Some v' => watch n w v' | None => v end
  end.

End Stop.
Arguments StopWorld {_} C.


(** A stop that meets a dial, a lookup and a watcher after each has looked, and
    a dial that comes after the close. *)
#[local] Existing Instance toy_smoltcp.
#[local] Existing Instance toy_laws.

#[local] Instance toy_stops : SmoltcpStops.
Proof. split. intros room t Hc. exact Hc. Qed.

Lemma toy_stop_run :
  exists w, rtc (stop_step toy_freed toy_poll toy_delay) (stop_start toy_config (chan_new PACKET_QUEUE_DEPTH) 7%Z) w
    /\ stopper w = Rung /\ calls w = [(CDial 1 false, Polling); (CLookup 0, Parked); (CDial 2 true, Parked)]
    /\ watchers w = [Notified 0].
Proof.
  eexists. split.
  - take_step (sp_dial toy_freed toy_poll toy_delay toy_remote 1).
    take_step (sp_poll toy_freed toy_poll toy_delay 0 (CDial 1 false) false).
    eapply rtc_l; [apply (sp_call toy_freed toy_poll toy_delay (CLookup 0)); simpl; [discriminate | discriminate | done] |].
    take_step (sp_poll toy_freed toy_poll toy_delay 1 (CLookup 0) false).
    take_step (sp_watch toy_freed toy_poll toy_delay).
    take_step (sp_watcher toy_freed toy_poll toy_delay 0 Looping (Enabled 0)).
    take_step (sp_watcher toy_freed toy_poll toy_delay 0 (Enabled 0) (Notified 0)).
    take_step (sp_stop toy_freed toy_poll toy_delay).
    take_step (sp_stop toy_freed toy_poll toy_delay).
    take_step (sp_dial toy_freed toy_poll toy_delay toy_remote 2).
    take_step (sp_poll toy_freed toy_poll toy_delay 2 (CDial 2 true) false).
    take_step (sp_stop toy_freed toy_poll toy_delay). apply rtc_refl.
  - split_and!; vm_compute; reflexivity.
Qed.

