(* ===== verification/WgProvider.v ===== *)
(** * The WireGuard provider ([src/wireguard/mod.rs])

    Bringing a tunnel up, keeping it, replacing it, dialling through it and
    taking it down.  The engine (gotatun), the system resolver, the carrier of
    a tunnel inside another and the passing of time are the environment: they
    are the section's variables, indexed by the bring-up attempt or the
    observation they answer.  Names inside the tunnel go through
    [WgResolve.resolve].

    A tunnel is named by the attempt that built it.  [running] are the devices
    that have not been stopped, [pumps] the stack pumps that have not ended. *)

From Stdlib Require Import ZArith Lia String Ascii.
From stdpp Require Import gmap strings numbers prelude.
From S2P Require Import Prelude WgLink WgPump TextFacts Net NetFacts Codec Errors Runtime Provider WgSpec WgWire WgStack WgResolve.

Open Scope string_scope.
Open Scope Z_scope.

#[local] Arguments String.append : simpl nomatch.

Definition SESSION_EXPIRY : Duration := from_secs (180 * 3).
Definition HANDSHAKE_POLL_INTERVAL : Duration := from_millis 25.
Definition RECENT_HANDSHAKE : Duration := from_secs 120.

Definition stopped_provider : TunnelError := Engine "tunnel provider stopped".

(** ** Dial failures *)

Inductive DialFailure : Type :=
| Destination (error : TunnelError)
| Tunnel (error : TunnelError).

Definition into_error (f : DialFailure) : TunnelError :=
  match f with Destination error | Tunnel error => error end.

(** [str::contains]. *)
Definition contains (needle hay : string) : bool := is_Some_b (String.index 0 needle hay).

Definition is_silence (error : TunnelError) : bool :=
  match error with Dial _ _ detail => contains "in time" detail | _ => false end.

Definition relabel (error : TunnelError) (host : string) (port : Z) : TunnelError :=
  match error with Dial _ _ detail => Dial host port detail | other => other end.

(** ** State *)

(** A datagram socket of another transport, and that transport; its answers
    are indexed by the bring-up attempt that asks. *)
Record CarrierSocket : Type := { cs_local_addr : option SocketAddr; cs_link_mtu : option Z }.

Record DatagramTransport : Type := {
  dt_resolve : nat -> string -> Result (list IpAddr) TunnelError;
  dt_bind : nat -> SocketAddr -> Result CarrierSocket TunnelError
}.

Record WgTunnel : Type := {
  tn_config : StackConfig;
  tn_endpoint : SocketAddr;
  tn_handshake_at : Duration;
  tn_carrier : option CarrierSocket
}.

Inductive WgEvent : Type :=
| AskedSystem (host : string)
| AskedCarrier (host : string)
| BoundCarrier (peer : SocketAddr)
| PumpStarted (n : nat)
| DeviceBuilt (n : nat)
| DeviceStopped (n : nat)
| PumpAborted (n : nat)
| ConnectOn (n : nat) (remote : SocketAddr)
| Observed (o : Observation).

Record WgState : Type := {
  current : option nat;
  closed : bool;
  tunnels : gmap nat WgTunnel;
  running : gset nat;
  pumps : gset nat;
  attempts : nat;
  looks : nat;
  connects : nat;
  log : list WgEvent
}.

Definition wg_new : WgState :=
  {| current := None; closed := false; tunnels := ∅; running := ∅; pumps := ∅; attempts := 0; looks := 0;
     connects := 0; log := [] |}.

Definition emit (e : WgEvent) (s : WgState) : WgState :=
  {| current := current s; closed := closed s; tunnels := tunnels s; running := running s; pumps := pumps s;
     attempts := attempts s; looks := looks s; connects := connects s; log := log s ++ [e] |}.

Definition set_current (c : option nat) (s : WgState) : WgState :=
  {| current := c; closed := closed s; tunnels := tunnels s; running := running s; pumps := pumps s;
     attempts := attempts s; looks := looks s; connects := connects s; log := log s |}.

Definition set_closed (s : WgState) : WgState :=
  {| current := current s; closed := true; tunnels := tunnels s; running := running s; pumps := pumps s;
     attempts := attempts s; looks := looks s; connects := connects s; log := log s |}.

Definition next_attempt (s : WgState) : WgState :=
  {| current := current s; closed := closed s; tunnels := tunnels s; running := running s; pumps := pumps s;
     attempts := S (attempts s); looks := looks s; connects := connects s; log := log s |}.

Definition looked (s : WgState) : WgState :=
  {| current := current s; closed := closed s; tunnels := tunnels s; running := running s; pumps := pumps s;
     attempts := attempts s; looks := S (looks s); connects := connects s; log := log s |}.

Definition connected (s : WgState) : WgState :=
  {| current := current s; closed := closed s; tunnels := tunnels s; running := running s; pumps := pumps s;
     attempts := attempts s; looks := looks s; connects := S (connects s); log := log s |}.

Definition add_tunnel (n : nat) (t : WgTunnel) (s : WgState) : WgState :=
  {| current := current s; closed := closed s; tunnels := <[n := t]> (tunnels s); running := running s;
     pumps := pumps s; attempts := attempts s; looks := looks s; connects := connects s; log := log s |}.

Definition start_pump (n : nat) (s : WgState) : WgState :=
  emit (PumpStarted n)
  {| current := current s; closed := closed s; tunnels := tunnels s; running := running s;
     pumps := {[n]} ∪ pumps s; attempts := attempts s; looks := looks s; connects := connects s; log := log s |}.

Definition abort_pump (n : nat) (s : WgState) : WgState :=
  emit (PumpAborted n)
  {| current := current s; closed := closed s; tunnels := tunnels s; running := running s;
     pumps := pumps s ∖ {[n]}; attempts := attempts s; looks := looks s; connects := connects s; log := log s |}.

Definition start_device (n : nat) (s : WgState) : WgState :=
  emit (DeviceBuilt n)
  {| current := current s; closed := closed s; tunnels := tunnels s; running := {[n]} ∪ running s;
     pumps := pumps s; attempts := attempts s; looks := looks s; connects := connects s; log := log s |}.

(** [device.take()] and [device.stop()]: nothing the second time. *)
Definition stop_device (n : nat) (s : WgState) : WgState :=
  if bool_decide (n ∈ running s) then
    emit (DeviceStopped n)
    {| current := current s; closed := closed s; tunnels := tunnels s; running := running s ∖ {[n]};
       pumps := pumps s; attempts := attempts s; looks := looks s; connects := connects s; log := log s |}
  else s.

(** [Drop for WgTunnel]: the device, then the pump. *)
Definition tunnel_drop (n : nat) (s : WgState) : WgState := abort_pump n (stop_device n s).

Record WireGuardHandshake : Type := {
  hs_endpoint : string;
  hs_peer_public_key : string;
  hs_our_public_key : string;
  hs_handshake_at : Duration
}.

(** The pump of [n] ends on its own: its carrier closed or its device went. *)
Definition end_pump (n : nat) (s : WgState) : WgState :=
  {| current := current s; closed := closed s; tunnels := tunnels s; running := running s;
     pumps := pumps s ∖ {[n]}; attempts := attempts s; looks := looks s; connects := connects s; log := log s |}.

(** ** What a provider's state always satisfies *)

(** Every device and pump belongs to a tunnel that shook hands. *)
Record wg_wf (s : WgState) : Prop := {
  wf_running : running s ⊆ dom (tunnels s);
  wf_pumps : pumps s ⊆ dom (tunnels s);
  wf_attempts : forall n, n ∈ dom (tunnels s) -> (n < attempts s)%nat;
  wf_current : forall n, current s = Some n -> n ∈ dom (tunnels s)
}.

Lemma wf_new : wg_wf wg_new.
Proof. split; simpl; set_solver. Qed.

Lemma wf_fresh s : wg_wf s -> attempts s ∉ running s /\ attempts s ∉ pumps s.
Proof.
  intros [H1 H2 H3 _]. split; intros Hin.
  - apply H1, H3 in Hin. lia.
  - apply H2, H3 in Hin. lia.
Qed.

Lemma wf_end_pump n s : wg_wf s -> wg_wf (end_pump n s).
Proof. intros [H1 H2 H3 H4]. split; simpl; set_solver. Qed.

Lemma wf_abort_pump n s : wg_wf s -> wg_wf (abort_pump n s).
Proof. intros [H1 H2 H3 H4]. split; simpl; set_solver. Qed.

Lemma wf_stop_device n s : wg_wf s -> wg_wf (stop_device n s).
Proof. intros Hw. unfold stop_device. case_bool_decide; [| done]. destruct Hw. split; simpl; set_solver. Qed.

(** Changes that touch neither tunnels, devices, pumps nor attempts. *)
Lemma wf_same s s' :
  wg_wf s -> running s' = running s -> pumps s' = pumps s -> tunnels s' = tunnels s ->
  attempts s' = attempts s -> current s' = current s \/ current s' = None -> wg_wf s'.
Proof.
  intros [H1 H2 H3 H4] Hr Hp Ht Ha Hc. split; rewrite ?Hr, ?Hp, ?Ht, ?Ha; try done.
  intros n Hn. destruct Hc as [Hc | Hc]; rewrite Hc in Hn; [by apply H4 | done].
Qed.

(** The resources of two states are the same. *)
Definition same_resources (s s' : WgState) : Prop :=
  running s' = running s /\ pumps s' = pumps s /\ tunnels s' = tunnels s /\ current s' = current s
  /\ closed s' = closed s.

Definition quiet (l : list WgEvent) : Prop :=
  Forall (fun e => match e with Observed _ => False | _ => True end) l.

(** Nothing was observed between two states. *)
Definition unobserved (s s' : WgState) : Prop := exists l, log s' = (log s ++ l)%list /\ quiet l.

Lemma unobserved_refl s : unobserved s s.
Proof. exists []. by rewrite app_nil_r; split; [| constructor]. Qed.

Lemma unobserved_trans s1 s2 s3 : unobserved s1 s2 -> unobserved s2 s3 -> unobserved s1 s3.
Proof.
  intros (l1 & E1 & Q1) (l2 & E2 & Q2). exists (l1 ++ l2)%list. rewrite E2, E1, app_assoc.
  split; [done |]. by apply Forall_app.
Qed.

Lemma unobserved_emit e s s' :
  match e with Observed _ => False | _ => True end -> log s' = (log s ++ [e])%list -> unobserved s s'.
Proof. intros He E. exists [e]. split; [done |]. by repeat constructor. Qed.

Lemma unobserved_log s s' : log s' = log s -> unobserved s s'.
Proof. intros E. exists []. rewrite app_nil_r. split; [done | constructor]. Qed.

(** Nothing but the log and the observations changed. *)
Definition keeps (s s' : WgState) : Prop :=
  same_resources s s' /\ attempts s' = attempts s /\ unobserved s s'.

Lemma keeps_refl s : keeps s s.
Proof. split_and!; [done.. |]. apply unobserved_refl. Qed.

Lemma keeps_emit e s : match e with Observed _ => False | _ => True end -> keeps s (emit e s).
Proof. intros He. split_and!; try done. by eapply unobserved_emit. Qed.

Lemma keeps_trans s1 s2 s3 : keeps s1 s2 -> keeps s2 s3 -> keeps s1 s3.
Proof.
  intros ((A1 & A2 & A3 & A4 & A5) & A6 & A7) ((B1 & B2 & B3 & B4 & B5) & B6 & B7).
  unfold keeps, same_resources. split_and!; [by etransitivity | by etransitivity | by etransitivity | by etransitivity | by etransitivity
              | by etransitivity | by eapply unobserved_trans].
Qed.

Lemma add_remove (n : nat) (X : gset nat) : n ∉ X -> ({[n]} ∪ X) ∖ {[n]} = X.
Proof. set_solver. Qed.

Lemma remove_below (n : nat) (X Y : gset nat) : X ⊆ Y -> X ∖ {[n]} ⊆ Y.
Proof. set_solver. Qed.

Lemma replaced_below (n : nat) (X Y : gset nat) : X ⊆ Y -> ({[n]} ∪ X) ∖ {[n]} ⊆ Y.
Proof. set_solver. Qed.

(** What acquiring a tunnel may do. *)
Definition acquires (s s' : WgState) : Prop :=
  wg_wf s' /\ unobserved s s' /\ closed s' = closed s /\ (attempts s <= attempts s' <= S (attempts s))%nat.

Lemma keeps_wf s s' : wg_wf s -> keeps s s' -> wg_wf s'.
Proof. intros Hw ((A1 & A2 & A3 & A4 & A5) & A6 & A7). eapply wf_same; eauto. Qed.

Lemma keeps_acquires s s' : wg_wf s -> keeps s s' -> acquires s s'.
Proof.
  intros Hw Hk. pose proof (keeps_wf _ _ Hw Hk). destruct Hk as ((_ & _ & _ & _ & Hc) & Ha & Hq).
  split_and!; try done; lia.
Qed.

Lemma looked_keeps s : keeps s (looked s).
Proof. split_and!; try done. by apply unobserved_log. Qed.

(** After a shutdown that left [s0]. *)
Definition stopped (s0 s : WgState) : Prop :=
  wg_wf s /\ closed s = true /\ current s = None /\ running s ⊆ running s0 /\ pumps s ⊆ pumps s0.

Lemma stopped_keeps s0 s s' : stopped s0 s -> keeps s s' -> stopped s0 s'.
Proof.
  intros (Hw & Hcl & Hc & Hr & Hp) Hk. pose proof (keeps_wf _ _ Hw Hk).
  destruct Hk as ((A1 & A2 & A3 & A4 & A5) & _). unfold stopped. rewrite A1, A2, A4, A5. done.
Qed.

Lemma stopped_drop s0 n s : stopped s0 s -> stopped s0 (tunnel_drop n s).
Proof.
  intros (Hw & Hcl & Hc & Hr & Hp). unfold tunnel_drop, stop_device.
  split_and!; [by apply wf_abort_pump, wf_stop_device | | | |]; case_bool_decide; simpl; done || by apply remove_below.
Qed.

#[local] Set Default Proof Using "Type".

Section Provider.
Variable spec : WireGuardSpec.
Variable download_tuning : bool.
Variable b64_encode : list Z -> string.
Variable x25519_public : Key -> Key.
(** Whether the caller is on a tokio runtime. *)
Variable has_runtime : bool.
Variable datagram : option DatagramTransport.
(** [tokio::net::lookup_host]; [None] is the timeout. *)
Variable lookup_host : nat -> string -> Z -> option (Result (list SocketAddr) string).
(** [DeviceBuilder::build]: its error, if it fails. *)
Variable build_error : nat -> option string.
(** While attempt [n] waits for its handshake: the time since the probe at
    poll [k], whether the device reports a handshake, whether the pump has
    ended. *)
Variable clock : nat -> nat -> Duration.
Variable shaken : nat -> nat -> bool.
Variable pump_finished : nat -> nat -> bool.
(** What a look at tunnel [n] finds: its carrier closed, the age of its last
    handshake. *)
Variable carrier_closed : nat -> nat -> bool.
Variable handshake_age : nat -> nat -> option Duration.
(** A tunnel's resolvers, and its connections. *)
Variable answer : nat -> string -> DnsQueryType -> Duration -> Result (list IpAddr) TunnelError * Duration.
Variable connect_reply : nat -> Result unit TunnelError.

Definition connect_failure (host detail : string) : TunnelError :=
  WireGuardConnect host (endpoint_port spec) detail.

Definition carrier_failure (detail : string) : TunnelError :=
  connect_failure (endpoint_host spec) ("the tunnel beneath could not carry this one: " ++ detail).

Definition no_addresses (host : string) : TunnelError :=
  connect_failure host "the endpoint name resolved to no addresses".

Definition resolve_endpoint (n : nat) (s : WgState) : Result SocketAddr TunnelError * WgState :=
  let host := trim (endpoint_host spec) in
  let bare := trim_end_matches "]" (trim_start_matches "[" host) in
  match parse_ip bare with
  | Some ip => (Ok {| sa_ip := ip; sa_port := endpoint_port spec |}, s)
  | None =>
      match datagram with
      | Some transport =>
          let s := emit (AskedCarrier host) s in
          match dt_resolve transport n host with
          | Err error =>
              (Err (connect_failure host
                 ("the endpoint name could not be resolved through the tunnel beneath: "
                  ++ error_to_string error)), s)
          | Ok [] => (Err (no_addresses host), s)
          | Ok (ip :: _) => (Ok {| sa_ip := ip; sa_port := endpoint_port spec |}, s)
          end
      | None =>
          let s := emit (AskedSystem host) s in
          match lookup_host n host (endpoint_port spec) with
          | None => (Err (connect_failure host "the endpoint name did not resolve in time"), s)
          | Some (Err error) =>
              (Err (connect_failure host ("the endpoint name could not be resolved: " ++ error)), s)
          | Some (Ok []) => (Err (no_addresses host), s)
          | Some (Ok (a :: _)) => (Ok a, s)
          end
      end
  end.

(** The carrier's socket and the MTU it leaves; without one, the spec's. *)
Definition bind_carrier (n : nat) (endpoint : SocketAddr) (s : WgState)
  : Result (option CarrierSocket * Z) TunnelError * WgState :=
  match datagram with
  | None => (Ok (None, mtu spec), s)
  | Some transport =>
      let s := emit (BoundCarrier endpoint) s in
      match dt_bind transport n endpoint with
      | Err error => (Err (carrier_failure (error_to_string error)), s)
      | Ok carrier =>
          match cs_link_mtu carrier with
          | Some link =>
              match carried_mtu (mtu spec) link (sa_ip endpoint) with
              | Ok m => (Ok (Some carrier, m), s)
              | Err e => (Err e, s)
              end
          | None => (Ok (Some carrier, mtu spec), s)
          end
      end
  end.

(** ** Waiting for the handshake *)

Definition stack_died : TunnelError :=
  connect_failure (endpoint_host spec) "the tunnel's network stack stopped before the handshake completed".

Definition no_handshake : TunnelError :=
  connect_failure (endpoint_host spec)
    ("the peer did not complete a handshake within " ++ show (Z.max (request_timeout spec / from_secs 1) 1)
     ++ "s. WireGuard answers nothing it cannot authenticate, so this is what a wrong private key, a wrong peer public key, a wrong or missing preshared key and an unreachable endpoint all look like. Check that the server's `[Peer]` section lists this tunnel's public key ("
     ++ public_key_of b64_encode x25519_public (private_key spec) ++ ").").

(** The loop inside [timeout]: [None] once the budget is spent. *)
Fixpoint await_loop (fuel : nat) (n k : nat) : option (option Duration) :=
  match fuel with
  | O => None
  | S fuel =>
      if clock n 0 + request_timeout spec <? clock n k then None
      else if shaken n k then Some (Some (clock n k))
      else if pump_finished n k then Some None
      else await_loop fuel n (S k)
  end.

(** A poll every 25 ms or more: this many spend the budget. *)
Definition await_fuel : nat := S (S (Z.to_nat (request_timeout spec / HANDSHAKE_POLL_INTERVAL))).

Definition await_handshake (n : nat) : Result Duration TunnelError :=
  match await_loop await_fuel n 0 with
  | Some (Some at_) => Ok at_
  | Some None => Err stack_died
  | None => Err no_handshake
  end.

(** ** Bringing a tunnel up *)

Definition stack_config (m : Z) : StackConfig :=
  {| sc_addresses := addresses spec; sc_dns_servers := dns_servers spec; sc_mtu := m;
     sc_proxy_config_id := proxy_config_id spec; sc_download_tuning := download_tuning |}.

Definition bring_up (s : WgState) : Result nat TunnelError * WgState :=
  let n := attempts s in
  let s := next_attempt s in
  match validate b64_encode x25519_public spec with
  | Err e => (Err e, s)
  | Ok _ =>
  if negb has_runtime then (Err (Engine "a WireGuard tunnel needs a tokio runtime"), s) else
  match resolve_endpoint n s with
  | (Err e, s) => (Err e, s)
  | (Ok endpoint, s) =>
  match bind_carrier n endpoint s with
  | (Err e, s) => (Err e, s)
  | (Ok (carrier, m), s) =>
      let s := start_pump n s in
      match build_error n with
      | Some error => (Err (connect_failure (endpoint_host spec) error), abort_pump n s)
      | None =>
          let s := start_device n s in
          match await_handshake n with
          | Err e => (Err e, abort_pump n (stop_device n s))
          | Ok at_ =>
              (Ok n, add_tunnel n {| tn_config := stack_config m; tn_endpoint := endpoint;
                                     tn_handshake_at := at_; tn_carrier := carrier |} s)
          end
      end
  end end end.

(** ** The current tunnel *)

(** The device's answer; a device that was taken answers nothing. *)
Definition last_handshake_age (n : nat) (s : WgState) : option Duration * WgState :=
  (if bool_decide (n ∈ running s) then handshake_age n (looks s) else None, looked s).

Definition is_alive (n : nat) (s : WgState) : bool * WgState :=
  if negb (bool_decide (n ∈ pumps s)) then (false, s)
  else if match tunnels s !! n with
          | Some t => is_Some_b (tn_carrier t) && carrier_closed n (looks s)
          | None => false
          end then (false, looked s)
  else match last_handshake_age n s with
       | (Some age, s) => (age <? SESSION_EXPIRY, s)
       | (None, s) => (false, s)
       end.

Definition bring_up_current (s : WgState) : Result nat TunnelError * WgState :=
  match bring_up s with
  | (Ok n, s) => (Ok n, set_current (Some n) s)
  | (Err e, s) => (Err e, s)
  end.

Definition tunnel (s : WgState) : Result nat TunnelError * WgState :=
  if closed s then (Err stopped_provider, s) else
  match current s with
  | Some existing =>
      let '(alive, s) := is_alive existing s in
      if alive then (Ok existing, s) else bring_up_current (set_current None s)
  | None => bring_up_current s
  end.

Definition replace_tunnel (stale : nat) (s : WgState) : Result nat TunnelError * WgState :=
  if closed s then (Err stopped_provider, s) else
  match current s with
  | Some existing =>
      if negb (Nat.eqb existing stale) then (Ok existing, s) else bring_up_current (set_current None s)
  | None => bring_up_current (set_current None s)
  end.

(** ** Dialling *)

Definition no_usable_address (host : string) (port : Z) : TunnelError :=
  Dial host port "the name resolved to no usable address".

(** The loop over the addresses; the last error wins. *)
Fixpoint try_addresses (n : nat) (port : Z) (ips : list IpAddr) (last : option TunnelError) (s : WgState)
  : Result unit (option TunnelError) * WgState :=
  match ips with
  | [] => (Err last, s)
  | ip :: ips =>
      let k := connects s in
      let s := connected (emit (ConnectOn n {| sa_ip := ip; sa_port := port |}) s) in
      match connect_reply k with
      | Ok _ => (Ok tt, s)
      | Err error => try_addresses n port ips (Some error) s
      end
  end.

Definition tunnel_config (n : nat) (s : WgState) : StackConfig :=
  match tunnels s !! n with Some t => tn_config t | None => stack_config (mtu spec) end.

Definition dial_on (n : nat) (host : string) (port : Z) (s : WgState) : Result unit DialFailure * WgState :=
  match fst (resolve (answer n) (tunnel_config n s) host (request_timeout spec)) with
  | Err error => (Err (Destination (relabel error host port)), s)
  | Ok ips =>
      match try_addresses n port ips None s with
      | (Ok _, s) => (Ok tt, s)
      | (Err last, s) =>
          let error := match last with Some e => e | None => no_usable_address host port end in
          (Err (if is_silence error then Tunnel error else Destination error), s)
      end
  end.

Definition observe_dial (r : Result unit TunnelError) (s : WgState) : WgState :=
  emit (Observed match r with
                 | Ok _ => DialSucceeded (proxy_config_id spec)
                 | Err e => DialFailed (proxy_config_id spec) (error_to_string e)
                 end) s.

Definition recent (age : option Duration) : bool :=
  match age with Some age => age <? RECENT_HANDSHAKE | None => false end.

(** The dial after its tunnel is known: one attempt, and after a silence that
    no recent handshake explains, one more on a rebuilt tunnel. *)
Definition dial_through (n : nat) (host : string) (port : Z) (s : WgState) : Result unit TunnelError * WgState :=
  match dial_on n host port s with
  | (Ok _, s) => (Ok tt, s)
  | (Err (Destination error), s) => (Err error, s)
  | (Err (Tunnel first), s) =>
      let '(age, s) := last_handshake_age n s in
      if recent age then (Err first, s)
      else match replace_tunnel n s with
           | (Ok n', s) =>
               match dial_on n' host port s with
               | (Ok _, s) => (Ok tt, s)
               | (Err f, s) => (Err (into_error f), s)
               end
           | (Err error, s) => (Err error, s)
           end
  end.

(** [dial], with nothing else running. *)
Definition dial (host : string) (port : Z) (s : WgState) : Result unit TunnelError * WgState :=
  let '(r, s) :=
    match tunnel s with
    | (Err e, s) => (Err e, s)
    | (Ok n, s) => dial_through n host port s
    end in
  (r, observe_dial r s).

Definition prepare (s : WgState) : Result unit TunnelError * WgState :=
  let '(r, s) := tunnel s in (let? _ := r in Ok tt, s).

Definition retire (s : WgState) : WgState :=
  match current s with
  | Some n => abort_pump n (stop_device n (set_current None s))
  | None => s
  end.

Definition shutdown (s : WgState) : WgState := retire (set_closed s).

Definition resolve_host (host : string) (s : WgState) : Result (list IpAddr) TunnelError * WgState :=
  match tunnel s with
  | (Err e, s) => (Err e, s)
  | (Ok n, s) => (fst (resolve (answer n) (tunnel_config n s) host (request_timeout spec)), s)
  end.

(** [DatagramTransport::bind]: a socket on the tunnel's stack, whose reply is
    [bound]. *)
Definition bind (bound : nat -> Result unit TunnelError) (s : WgState) : Result unit TunnelError * WgState :=
  let '(r, s) :=
    match tunnel s with
    | (Ok n, s) => (bound n, s)
    | (Err e, s) => (Err e, s)
    end in
  (r, observe_dial r s).

(** [listen]: the stack's own answer, on the current tunnel. *)
Definition listen {A} (listened : nat -> Result A TunnelError) (s : WgState) : Result A TunnelError * WgState :=
  match tunnel s with
  | (Ok n, s) => (listened n, s)
  | (Err e, s) => (Err e, s)
  end.

Definition listens_on (listening : nat -> bool) (s : WgState) : bool * WgState :=
  match current s with
  | Some n => let '(alive, s) := is_alive n s in (alive && listening n, s)
  | None => (false, s)
  end.

(** The health probe: a tunnel of its own, dropped once it has answered. *)
Definition probe_handshake (s : WgState) : Result WireGuardHandshake TunnelError * WgState :=
  match bring_up s with
  | (Err e, s) => (Err e, s)
  | (Ok n, s) =>
      (Ok {| hs_endpoint := endpoint_description spec;
             hs_peer_public_key := b64_encode (peer_public_key spec);
             hs_our_public_key := public_key_of b64_encode x25519_public (private_key spec);
             hs_handshake_at := match tunnels s !! n with Some t => tn_handshake_at t | None => 0 end |},
       tunnel_drop n s)
  end.

(** ** Interleaved calls *)

(** A call between two of its steps. *)
Inductive Caller : Type :=
| Preparing
| Starting (host : string) (port : Z)
| OnTunnel (host : string) (port : Z) (n : nat)
| Silent (host : string) (port : Z) (n : nat) (first : TunnelError)
| OnReplacement (host : string) (port : Z) (n n' : nat)
| Probing
| Finished (r : Result unit TunnelError)
| Cancelled.

Definition finish (r : Result unit TunnelError) (s : WgState) : Caller * WgState :=
  (Finished r, observe_dial r s).

Definition caller_step (d : Caller) (s : WgState) : Caller * WgState :=
  match d with
  | Preparing => let '(r, s) := prepare s in (Finished r, s)
  | Starting host port =>
      match tunnel s with
      | (Err e, s) => finish (Err e) s
      | (Ok n, s) => (OnTunnel host port n, s)
      end
  | OnTunnel host port n =>
      match dial_on n host port s with
      | (Ok _, s) => finish (Ok tt) s
      | (Err (Destination error), s) => finish (Err error) s
      | (Err (Tunnel first), s) => (Silent host port n first, s)
      end
  | Silent host port n first =>
      let '(age, s) := last_handshake_age n s in
      if recent age then finish (Err first) s
      else match replace_tunnel n s with
           | (Ok n', s) => (OnReplacement host port n n', s)
           | (Err error, s) => finish (Err error) s
           end
  | OnReplacement host port _ n' =>
      match dial_on n' host port s with
      | (Ok _, s) => finish (Ok tt) s
      | (Err f, s) => finish (Err (into_error f)) s
      end
  | Probing => let '(r, s) := probe_handshake s in (Finished (let? _ := r in Ok tt), s)
  | Finished r => (Finished r, s)
  | Cancelled => (Cancelled, s)
  end.

(** The tunnels a call keeps alive. *)
Definition holds_tunnel (d : Caller) : list nat :=
  match d with
  | OnTunnel _ _ n | Silent _ _ n _ => [n]
  | OnReplacement _ _ n n' => [n; n']
  | _ => []
  end.

Definition first_step (d : Caller) : Prop :=
  match d with Preparing | Starting _ _ | Probing => True | _ => False end.

(** ** Bring-ups dropped at a wait *)

(** The waits of a bring-up. *)
Inductive Wait : Type := Resolving | BindingCarrier | Building | Shaking.

(** A dropped device: gotatun stops it from a task it spawns on the current
    runtime, and leaves it running where there is none. *)
Inductive EngineState : Type := EngineRuns | EngineStopping | EngineGone.

Definition device_dropped (inside : bool) : EngineState := if inside then EngineStopping else EngineRuns.

(** A pump whose bring-up was dropped: nobody has its handle, and the sender of
    its channel is with the device. *)
Record Orphan : Type := {
  built_by : nat;
  dropped_inside : bool;
  engine : EngineState;
  unread : list Packet
}.

(** What its [recv_many] gives it: a batch, or nothing once the sender is gone. *)
Definition orphan_receives (o : Orphan) : option PumpEvent :=
  match unread o with
  | [] => match engine o with EngineGone => Some (Received []) | _ => None end
  | packets => Some (Received (take PUMP_BATCH packets))
  end.

Definition set_orphan (g : EngineState) (packets : list Packet) (o : Orphan) : Orphan :=
  {| built_by := built_by o; dropped_inside := dropped_inside o; engine := g; unread := packets |}.

(** What is left when [bring_up] is dropped at a wait, if it gets there: the
    state, and the pump that runs on.  A device under construction goes with
    its builder; a built one is dropped, inside a runtime or outside. *)
Definition bring_up_until (k : Wait) (inside : bool) (s : WgState) : option (WgState * list Orphan) :=
  let n := attempts s in
  let s := next_attempt s in
  match validate b64_encode x25519_public spec with
  | Err _ => None
  | Ok _ =>
  if negb has_runtime then None else
  match parse_ip (trim_end_matches "]" (trim_start_matches "[" (trim (endpoint_host spec)))), k with
  | None, Resolving => Some (snd (resolve_endpoint n s), [])
  | _, _ =>
  match resolve_endpoint n s with
  | (Err _, _) => None
  | (Ok endpoint, s) =>
  match datagram, k with
  | Some _, BindingCarrier => Some (snd (bind_carrier n endpoint s), [])
  | _, _ =>
  match bind_carrier n endpoint s, k with
  | (Ok _, s), Building => Some (emit (PumpStarted n) s,
      [{| built_by := n; dropped_inside := inside; engine := EngineGone; unread := [] |}])
  | (Ok _, s), Shaking =>
      match build_error n with
      | Some _ => None
      | None => Some (emit (DeviceBuilt n) (emit (PumpStarted n) s),
          [{| built_by := n; dropped_inside := inside; engine := device_dropped inside; unread := [] |}])
      end
  | _, _ => None
  end end end end end.

(** The state in which a call begins a bring-up, if it is about to. *)
Definition about_to_bring_up (d : Caller) (s : WgState) : option WgState :=
  match d with
  | Preparing | Starting _ _ =>
      if closed s then None else
      match current s with
      | Some existing => let '(alive, s) := is_alive existing s in if alive then None else Some (set_current None s)
      | None => Some s
      end
  | Silent _ _ n _ =>
      let '(age, s) := last_handshake_age n s in
      if recent age || closed s then None else
      match current s with
      | Some existing => if negb (Nat.eqb existing n) then None else Some (set_current None s)
      | None => Some s
      end
  | Probing => Some s
  | _ => None
  end.

(** [orphans]: dropped bring-ups whose pump has not ended yet. *)
Record WgWorld : Type := { provider : WgState; callers : list Caller; orphans : list Orphan }.

Definition set_orphans (os : list Orphan) (w : WgWorld) : WgWorld :=
  {| provider := provider w; callers := callers w; orphans := os |}.

Definition referenced (n : nat) (w : WgWorld) : Prop :=
  current (provider w) = Some n \/ exists d, d ∈ callers w /\ n ∈ holds_tunnel d.

Inductive wg_step : WgWorld -> WgWorld -> Prop :=
| step_call d w :
    first_step d -> wg_step w {| provider := provider w; callers := callers w ++ [d]; orphans := orphans w |}
| step_caller i d w :
    callers w !! i = Some d ->
    wg_step w {| provider := snd (caller_step d (provider w));
                 callers := <[i := fst (caller_step d (provider w))]> (callers w); orphans := orphans w |}
| step_cancel i d w :
    callers w !! i = Some d ->
    wg_step w {| provider := provider w; callers := <[i := Cancelled]> (callers w); orphans := orphans w |}
| step_abandon i d k inside s s' left w :
    callers w !! i = Some d -> about_to_bring_up d (provider w) = Some s -> bring_up_until k inside s = Some (s', left) ->
    wg_step w {| provider := s'; callers := <[i := Cancelled]> (callers w); orphans := left ++ orphans w |}
| step_orphan_device j o w :
    orphans w !! j = Some o -> engine o = EngineStopping ->
    wg_step w (set_orphans (<[j := set_orphan EngineGone (unread o) o]> (orphans w)) w)
| step_orphan_packet j o packet w :
    orphans w !! j = Some o -> engine o <> EngineGone ->
    wg_step w (set_orphans (<[j := set_orphan (engine o) (unread o ++ [packet]) o]> (orphans w)) w)
| step_orphan_pump j o e w :
    orphans w !! j = Some o -> orphan_receives o = Some e ->
    wg_step w (set_orphans (if leaves e then delete j (orphans w)
                            else <[j := set_orphan (engine o) (drop PUMP_BATCH (unread o)) o]> (orphans w)) w)
| step_pump_ends n w :
    wg_step w {| provider := end_pump n (provider w); callers := callers w; orphans := orphans w |}
| step_last_reference n w :
    n ∈ dom (tunnels (provider w)) -> ~ referenced n w ->
    wg_step w {| provider := tunnel_drop n (provider w); callers := callers w; orphans := orphans w |}
| step_retire w : wg_step w {| provider := retire (provider w); callers := callers w; orphans := orphans w |}
| step_close w : wg_step w {| provider := set_closed (provider w); callers := callers w; orphans := orphans w |}.

Definition world_new : WgWorld := {| provider := wg_new; callers := []; orphans := [] |}.

(** ** Bringing a tunnel up, specified *)

Lemma resolve_endpoint_keeps n s r s' : resolve_endpoint n s = (r, s') -> keeps s s'.
Proof.
  unfold resolve_endpoint. destruct (parse_ip _) as [ip|]; [intros [= <- <-]; apply keeps_refl |].
  destruct datagram as [t|].
  - destruct (dt_resolve _ _ _) as [[|ip ips] | e]; intros [= <- <-]; by apply keeps_emit.
  - destruct (lookup_host _ _ _) as [[[|a l] | e] |]; intros [= <- <-]; by apply keeps_emit.
Qed.

(** The MTU of a tunnel over [carrier] to [endpoint]. *)
Definition mtu_for (carrier : option CarrierSocket) (endpoint : SocketAddr) (m : Z) : Prop :=
  match carrier with
  | Some c => match cs_link_mtu c with
              | Some link => carried_mtu (mtu spec) link (sa_ip endpoint) = Ok m
              | None => m = mtu spec
              end
  | None => datagram = None /\ m = mtu spec
  end.

Lemma bind_carrier_spec n endpoint s r s' :
  bind_carrier n endpoint s = (r, s') ->
  keeps s s' /\ match r with Ok (carrier, m) => mtu_for carrier endpoint m | Err _ => True end.
Proof.
  unfold bind_carrier, mtu_for. destruct datagram as [t|]; [| intros [= <- <-]; split; [apply keeps_refl | done]].
  destruct (dt_bind _ _ _) as [c | e]; [| intros [= <- <-]; split; [by apply keeps_emit | done]].
  destruct (cs_link_mtu c) as [link|] eqn:El.
  - destruct (carried_mtu _ _ _) as [m | e] eqn:Em; intros [= <- <-]; (split; [by apply keeps_emit |]); [| done].
    by rewrite El.
  - intros [= <- <-]. split; [by apply keeps_emit |]. by rewrite El.
Qed.

(** What a bring-up did to the resources: a tunnel more, or nothing. *)
Definition brought_up (s : WgState) (r : Result nat TunnelError) (s' : WgState) : Prop :=
  match r with
  | Ok n =>
      n = attempts s /\ running s' = {[n]} ∪ running s /\ pumps s' = {[n]} ∪ pumps s
      /\ exists t, tunnels s' = <[n := t]> (tunnels s) /\ await_handshake n = Ok (tn_handshake_at t)
           /\ tn_config t = stack_config (sc_mtu (tn_config t))
           /\ mtu_for (tn_carrier t) (tn_endpoint t) (sc_mtu (tn_config t))
  | Err _ => running s' = running s /\ pumps s' = pumps s /\ tunnels s' = tunnels s
  end.

(** The shape of every bring-up's result. *)
Definition bring_up_post (s : WgState) (r : Result nat TunnelError) (s' : WgState) : Prop :=
  attempts s' = S (attempts s) /\ current s' = current s /\ closed s' = closed s /\ unobserved s s'
  /\ brought_up s r s'.

Lemma failed_early s s' e : keeps (next_attempt s) s' -> bring_up_post s (Err e) s'.
Proof.
  intros ((A1 & A2 & A3 & A4 & A5) & A6 & A7). split_and!; [exact A6 | exact A4 | exact A5 | |].
  - eapply unobserved_trans; [| exact A7]. by apply unobserved_log.
  - split_and!; [exact A1 | exact A2 | exact A3].
Qed.

(** From the pump's start on. *)
Lemma started_spec s s2 endpoint carrier m r s' :
  wg_wf s -> keeps (next_attempt s) s2 -> mtu_for carrier endpoint m ->
  (let n := attempts s in
   let s := start_pump n s2 in
   match build_error n with
   | Some error => (Err (connect_failure (endpoint_host spec) error), abort_pump n s)
   | None =>
       let s := start_device n s in
       match await_handshake n with
       | Err e => (Err e, abort_pump n (stop_device n s))
       | Ok at_ =>
           (Ok n, add_tunnel n {| tn_config := stack_config m; tn_endpoint := endpoint;
                                  tn_handshake_at := at_; tn_carrier := carrier |} s)
       end
   end) = (r, s') -> bring_up_post s r s'.
Proof.
  intros Hw ((P2 & P1 & P3 & P4 & P5) & P6 & P7) Hm. destruct (wf_fresh s Hw) as [Hr Hp]. simpl in *.
  assert (Q2 : unobserved s s2) by (eapply unobserved_trans; [| exact P7]; by apply unobserved_log).
  assert (Q : forall l s3, log s3 = (log s2 ++ l)%list -> quiet l -> unobserved s s3).
  { intros l s3 E Hl. eapply unobserved_trans; [exact Q2 |]. by exists l. }
  destruct (build_error _) as [error|]; [| destruct (await_handshake (attempts s)) as [at_ | e] eqn:Ea].
  - intros [= <- <-]. split_and!; [exact P6 | exact P4 | exact P5 | |].
    + apply (Q [PumpStarted (attempts s); PumpAborted (attempts s)]); [| by repeat constructor].
      simpl. by rewrite <- app_assoc.
    + split_and!; [exact P2 | | exact P3]. simpl. rewrite P1. by apply add_remove.
  - intros [= <- <-]. split_and!; [exact P6 | exact P4 | exact P5 | |].
    + apply (Q [PumpStarted (attempts s); DeviceBuilt (attempts s)]); [| by repeat constructor].
      simpl. by rewrite <- app_assoc.
    + split_and!; [done | simpl; by rewrite P2 | simpl; by rewrite P1 |].
      eexists. split_and!; [simpl; by rewrite P3 | exact Ea | done | exact Hm].
  - unfold stop_device. rewrite bool_decide_eq_true_2 by (simpl; set_solver).
    intros [= <- <-]. split_and!; [exact P6 | exact P4 | exact P5 | |].
    + apply (Q [PumpStarted (attempts s); DeviceBuilt (attempts s); DeviceStopped (attempts s);
                PumpAborted (attempts s)]); [| by repeat constructor].
      simpl. by rewrite <- !app_assoc.
    + split_and!; [simpl; rewrite P2; by apply add_remove | simpl; rewrite P1; by apply add_remove | exact P3].
Qed.

Lemma bring_up_spec s r s' : wg_wf s -> bring_up s = (r, s') -> bring_up_post s r s'.
Proof.
  intros Hw. unfold bring_up. cbv zeta.
  destruct (validate _ _ _) as [[] | e]; [| intros [= <- <-]; apply failed_early, keeps_refl].
  destruct (negb has_runtime); [intros [= <- <-]; apply failed_early, keeps_refl |].
  destruct (resolve_endpoint _ _) as [[endpoint | e] s1] eqn:E1; apply resolve_endpoint_keeps in E1;
    [| intros [= <- <-]; by apply failed_early].
  destruct (bind_carrier _ _ _) as [[[carrier m] | e] s2] eqn:E2; apply bind_carrier_spec in E2 as [E2 Hm];
    [| intros [= <- <-]; apply failed_early; by eapply keeps_trans].
  intros E. eapply started_spec; [done | by eapply keeps_trans | exact Hm | exact E].
Qed.

Lemma bring_up_wf s r s' : wg_wf s -> bring_up s = (r, s') -> wg_wf s'.
Proof.
  intros Hw E. apply bring_up_spec in E as (Ha & Hc & _ & _ & Hb); [| done]. destruct Hw as [H1 H2 H3 H4].
  destruct r as [n | e]; simpl in Hb.
  - destruct Hb as (-> & Hr & Hp & t & Ht & _). split; rewrite ?Hr, ?Hp, ?Ht, ?Ha, ?dom_insert_L.
    + by apply union_mono_l.
    + by apply union_mono_l.
    + intros n [-> %elem_of_singleton | Hn]%elem_of_union; [lia |]. specialize (H3 n Hn). lia.
    + intros n. rewrite Hc. intros Hn. apply elem_of_union. right. by apply H4.
  - destruct Hb as (Hr & Hp & Ht). split; rewrite ?Hr, ?Hp, ?Ht, ?Ha; try done.
    + intros n Hn. specialize (H3 n Hn). lia.
    + intros n. rewrite Hc. apply H4.
Qed.

Lemma last_handshake_age_keeps n s age s' : last_handshake_age n s = (age, s') -> keeps s s'.
Proof. intros [= <- <-]. apply looked_keeps. Qed.

Lemma is_alive_keeps n s b s' : is_alive n s = (b, s') -> keeps s s'.
Proof.
  unfold is_alive. destruct (negb _); [intros [= <- <-]; apply keeps_refl |].
  destruct (match tunnels s !! n with Some _ => _ | None => _ end); [intros [= <- <-]; apply looked_keeps |].
  destruct (last_handshake_age n s) as [age s1] eqn:E. apply last_handshake_age_keeps in E.
  by destruct age; intros [= <- <-].
Qed.

Lemma bring_up_current_spec s r s' :
  wg_wf s -> bring_up_current s = (r, s') ->
  acquires s s' /\ attempts s' = S (attempts s)
  /\ match r with Ok n => n = attempts s /\ current s' = Some n | Err _ => current s' = current s end.
Proof.
  intros Hw. unfold bring_up_current. destruct (bring_up s) as [[n | e] s1] eqn:E;
    pose proof (bring_up_wf _ _ _ Hw E) as Hw1;
    destruct (bring_up_spec _ _ _ Hw E) as (Ha & Hc & Hcl & Hq & Hb); intros [= <- <-].
  - destruct Hb as (-> & Hr & Hp & t & Ht & _). split; [| done].
    split_and!; simpl; [| done | done | lia..].
    destruct Hw1 as [H1 H2 H3 H4]. split; simpl; try done. intros n [= <-]. rewrite Ht. apply dom_insert, elem_of_union.
    left. by apply elem_of_singleton.
  - split; [split_and!; [done | done | done | lia | lia] | done].
Qed.

Lemma drop_current_keeps s : wg_wf s -> wg_wf (set_current None s) /\ unobserved s (set_current None s).
Proof. intros Hw. split; [eapply wf_same; eauto | by apply unobserved_log]. Qed.

Lemma bring_up_after s s1 r s' :
  wg_wf s1 -> unobserved s s1 -> closed s1 = closed s -> attempts s1 = attempts s ->
  bring_up_current (set_current None s1) = (r, s') ->
  acquires s s' /\ match r with Ok n => current s' = Some n | Err _ => True end.
Proof.
  intros Hw Hq Hc Ha E. destruct (drop_current_keeps s1 Hw) as [Hw1 Hq1].
  apply bring_up_current_spec in E as ((A1 & A2 & A3 & A4) & A5 & A6); [| done]. simpl in *.
  assert (Hu : unobserved s s') by (eapply unobserved_trans; [exact Hq |]; by eapply unobserved_trans).
  split; [split_and!; [done | done | congruence | lia..] |]. destruct r; [by destruct A6 | done].
Qed.

Lemma tunnel_spec s r s' :
  wg_wf s -> tunnel s = (r, s') ->
  acquires s s' /\ match r with Ok n => current s' = Some n | Err _ => True end.
Proof.
  intros Hw. unfold tunnel. destruct (closed s) eqn:Hcl.
  { intros [= <- <-]. split; [| done]. by apply keeps_acquires, keeps_refl. }
  destruct (current s) as [n|] eqn:Ec.
  - destruct (is_alive n s) as [alive s1] eqn:E. apply is_alive_keeps in E. destruct alive.
    + intros [= <- <-]. split; [by apply keeps_acquires |]. destruct E as ((_ & _ & _ & -> & _) & _). done.
    + pose proof (keeps_wf _ _ Hw E). destruct E as ((_ & _ & _ & _ & ?) & ? & ?). by apply bring_up_after.
  - intros E. apply bring_up_current_spec in E as (A1 & _ & A6); [| done]. split; [done |].
    destruct r; [by destruct A6 | done].
Qed.

Lemma replace_tunnel_spec stale s r s' :
  wg_wf s -> replace_tunnel stale s = (r, s') ->
  acquires s s' /\ match r with Ok n => current s' = Some n | Err _ => True end.
Proof.
  intros Hw. unfold replace_tunnel. destruct (closed s) eqn:Hcl.
  { intros [= <- <-]. split; [| done]. by apply keeps_acquires, keeps_refl. }
  destruct (current s) as [n|] eqn:Ec.
  - destruct (negb _).
    + intros [= <- <-]. split; [by apply keeps_acquires, keeps_refl | done].
    + apply bring_up_after; [done | apply unobserved_refl | done..].
  - apply bring_up_after; [done | apply unobserved_refl | done..].
Qed.

Lemma try_addresses_keeps n port ips last s r s' :
  try_addresses n port ips last s = (r, s') -> keeps s s'.
Proof.
  revert last s. induction ips as [|ip ips IH]; intros last s; simpl; [intros [= <- <-]; apply keeps_refl |].
  assert (Hk : keeps s (connected (emit (ConnectOn n {| sa_ip := ip; sa_port := port |}) s))).
  { split_and!; try done. by eapply (unobserved_emit (ConnectOn _ _)). }
  destruct (connect_reply _) as [[] | e]; [by intros [= <- <-] |].
  intros E. by eapply keeps_trans, IH.
Qed.

Lemma dial_on_keeps n host port s r s' : dial_on n host port s = (r, s') -> keeps s s'.
Proof.
  unfold dial_on. destruct (fst _) as [ips | e]; [| intros [= <- <-]; apply keeps_refl].
  destruct (try_addresses _ _ _ _ _) as [[[] | last] s1] eqn:E; apply try_addresses_keeps in E;
    by intros [= <- <-].
Qed.

Lemma dial_on_silence n host port s e s' : dial_on n host port s = (Err (Tunnel e), s') -> is_silence e = true.
Proof.
  unfold dial_on. destruct (fst _) as [ips | e0]; [| done].
  destruct (try_addresses _ _ _ _ _) as [[[] | last] s1]; [done |].
  set (error := match last with Some e => e | None => _ end). destruct (is_silence error) eqn:Es; [| done].
  by intros [= <- <-].
Qed.

(** The dial after its tunnel: at most one bring-up, for a reason. *)
Lemma dial_through_spec n host port s r s' :
  wg_wf s -> dial_through n host port s = (r, s') ->
  acquires s s'
  /\ forall failure s2, dial_on n host port s = (failure, s2) ->
     (attempts s' = S (attempts s) -> exists first, failure = Err (Tunnel first)
        /\ is_silence first = true /\ recent (fst (last_handshake_age n s2)) = false)
     /\ match failure with
        | Ok _ => r = Ok tt
        | Err (Destination e) => r = Err e
        | Err (Tunnel first) => recent (fst (last_handshake_age n s2)) = true -> r = Err first
        end.
Proof.
  intros Hw. unfold dial_through. destruct (dial_on n host port s) as [f s2] eqn:E2.
  pose proof (dial_on_keeps _ _ _ _ _ _ E2) as K2. pose proof (keeps_wf _ _ Hw K2) as Hw2.
  assert (Ha2 : attempts s2 = attempts s) by apply K2.
  destruct f as [[] | [e | first]].
  - intros [= <- <-]. split; [by apply keeps_acquires |]. intros f0 s0 [= <- <-]. split; [lia | done].
  - intros [= <- <-]. split; [by apply keeps_acquires |]. intros f0 s0 [= <- <-]. split; [lia | done].
  - destruct (last_handshake_age n s2) as [age s3] eqn:E3.
    pose proof (last_handshake_age_keeps _ _ _ _ E3) as K3. pose proof (keeps_trans _ _ _ K2 K3) as K23.
    pose proof (keeps_wf _ _ Hw K23) as Hw3. assert (Ha3 : attempts s3 = attempts s) by apply K23.
    destruct (recent age) eqn:Er.
    { intros [= <- <-]. split; [by apply keeps_acquires |]. intros f0 s0 [= <- <-]. rewrite E3. split; [lia | done]. }
    destruct (replace_tunnel n s3) as [r4 s4] eqn:E4.
    apply replace_tunnel_spec in E4 as ((A1 & A2 & A3 & A4) & _); [| done].
    assert (H4 : acquires s s4).
    { split_and!; [done | eapply unobserved_trans; [apply K23 | done] | | lia..]. rewrite A3. apply K23. }
    assert (Hend : forall s5, keeps s4 s5 -> acquires s s5).
    { intros s5 K5. destruct H4 as (B1 & B2 & B3 & B4). pose proof (keeps_wf _ _ B1 K5) as Hw5.
      destruct K5 as ((_ & _ & _ & _ & C1) & C2 & C3).
      split_and!; [done | by eapply unobserved_trans | by rewrite C1 | lia..]. }
    intros E. split.
    + destruct r4 as [n' | e]; [| injection E as <- <-; done].
      destruct (dial_on n' host port s4) as [f5 s5] eqn:E5. apply dial_on_keeps in E5.
      destruct f5; injection E as <- <-; by apply Hend.
    + intros f0 s0 [= <- <-]. rewrite E3. simpl. rewrite Er. split; [| done].
      intros _. exists first. split_and!; try done. by eapply dial_on_silence.
Qed.

(** A dial is observed once, last, with its outcome. *)
Lemma dial_observed host port s r s' :
  wg_wf s -> dial host port s = (r, s') ->
  exists l, log s' = (log s ++ l ++ [Observed match r with
                                              | Ok _ => DialSucceeded (proxy_config_id spec)
                                              | Err e => DialFailed (proxy_config_id spec) (error_to_string e)
                                              end])%list /\ quiet l.
Proof.
  intros Hw. unfold dial. destruct (tunnel s) as [[n | e] s1] eqn:E1;
    apply tunnel_spec in E1 as ((A1 & (l1 & L1 & Q1) & _) & _); try done.
  - destruct (dial_through n host port s1) as [r2 s2] eqn:E2.
    apply dial_through_spec in E2 as ((_ & (l2 & L2 & Q2) & _) & _); [| done].
    intros [= <- <-]. exists (l1 ++ l2)%list. simpl. rewrite L2, L1, <- !app_assoc.
    split; [done | by apply Forall_app].
  - intros [= <- <-]. exists l1. simpl. by rewrite L1, <- app_assoc.
Qed.

(** ** Dropped bring-ups, specified *)

(** A dropped bring-up adds no tunnel, device or pump to the provider, and at
    most unsets the current tunnel. *)
Definition dropped_from (s s' : WgState) : Prop :=
  running s' = running s /\ pumps s' = pumps s /\ tunnels s' = tunnels s /\ closed s' = closed s
  /\ (current s' = current s \/ current s' = None) /\ (attempts s <= attempts s')%nat /\ unobserved s s'.

Lemma keeps_dropped s s' : keeps s s' -> dropped_from s s'.
Proof. intros ((A1 & A2 & A3 & A4 & A5) & A6 & A7). split_and!; try done; [by left | lia]. Qed.

Lemma unset_dropped s s' : keeps s s' -> dropped_from s (set_current None s').
Proof.
  intros ((A1 & A2 & A3 & A4 & A5) & A6 & (l & E & Q)). split_and!; try done; [by right | simpl; lia | by exists l].
Qed.

Lemma dropped_trans s1 s2 s3 : dropped_from s1 s2 -> dropped_from s2 s3 -> dropped_from s1 s3.
Proof.
  intros (A1 & A2 & A3 & A4 & A5 & A6 & A7) (B1 & B2 & B3 & B4 & B5 & B6 & B7).
  split_and!; [congruence.. | | lia | by eapply unobserved_trans].
  destruct B5 as [-> | ->]; [exact A5 | by right].
Qed.

Lemma dropped_wf s s' : wg_wf s -> dropped_from s s' -> wg_wf s'.
Proof.
  intros [H1 H2 H3 H4] (A1 & A2 & A3 & A4 & A5 & A6 & A7). split; rewrite ?A1, ?A2, ?A3; try done.
  - intros n Hn. specialize (H3 n Hn). lia.
  - intros n Hn. destruct A5 as [E | E]; rewrite E in Hn; [by apply H4 | done].
Qed.

Lemma about_to_bring_up_drops d s s' : about_to_bring_up d s = Some s' -> dropped_from s s'.
Proof.
  destruct d as [| host port | host port n | host port n first | host port n n' | | r |]; unfold about_to_bring_up; try done.
  1-2: destruct (closed s); [done |]; destruct (current s) as [existing|];
    [destruct (is_alive existing s) as [[] s1] eqn:E; [done |]; intros [= <-]; by eapply unset_dropped, is_alive_keeps
    | intros [= <-]; by apply keeps_dropped, keeps_refl].
  - destruct (last_handshake_age n s) as [age s1] eqn:E. apply last_handshake_age_keeps in E.
    destruct (recent age || closed s1); [done |]. destruct (current s1) as [existing|].
    + destruct (negb _); [done |]. intros [= <-]. by apply unset_dropped.
    + intros [= <-]. by apply keeps_dropped.
  - intros [= <-]. by apply keeps_dropped, keeps_refl.
Qed.

(** How far a dropped bring-up got. *)
Lemma bring_up_until_cases k inside s s' left :
  bring_up_until k inside s = Some (s', left) ->
  Forall (fun o => built_by o = attempts s /\ (engine o = EngineRuns -> dropped_inside o = false)) left
  /\ exists re s1, resolve_endpoint (attempts s) (next_attempt s) = (re, s1)
     /\ (s' = s1 \/ exists endpoint rb s2, bind_carrier (attempts s) endpoint s1 = (rb, s2)
          /\ (s' = s2 \/ s' = emit (PumpStarted (attempts s)) s2
              \/ s' = emit (DeviceBuilt (attempts s)) (emit (PumpStarted (attempts s)) s2))).
Proof.
  unfold bring_up_until. destruct (validate _ _ _) as [[]|]; [| done]. destruct (negb has_runtime); [done |].
  destruct (resolve_endpoint (attempts s) (next_attempt s)) as [re s1] eqn:Er. intros E. split.
  - destruct (parse_ip _), k, re as [endpoint|], datagram; try done; try (injection E as _ <-; first [done | apply Forall_singleton; by destruct inside]);
      destruct (bind_carrier (attempts s) endpoint s1) as [[]]; try done; try destruct (build_error _); try done;
      injection E as _ <-; first [done | apply Forall_singleton; by destruct inside].
  - exists re, s1. split; [done |].
    destruct (parse_ip _), k, re as [endpoint|]; try done; try (injection E as <- <-; by left);
      right; exists endpoint; destruct (bind_carrier (attempts s) endpoint s1) as [rb s2]; exists rb, s2; (split; [done |]);
      destruct datagram, rb; try done; try destruct (build_error _); try done; injection E as <- <-; auto.
Qed.

Lemma bring_up_until_drops k inside s s' left :
  bring_up_until k inside s = Some (s', left) ->
  dropped_from s s' /\ Forall (fun o => built_by o = attempts s /\ (engine o = EngineRuns -> dropped_inside o = false)) left.
Proof.
  intros (Hl & re & s1 & Er & Hs)%bring_up_until_cases. split; [| done].
  assert (Hn : dropped_from s (next_attempt s)).
  { split_and!; try done; [by left | simpl; lia | by apply unobserved_log]. }
  pose proof (dropped_trans _ _ _ Hn (keeps_dropped _ _ (resolve_endpoint_keeps _ _ _ _ Er))) as D1.
  destruct Hs as [-> | (endpoint & rb & s2 & Eb & Hs)]; [done |].
  apply bind_carrier_spec in Eb as [K2 _]. pose proof (dropped_trans _ _ _ D1 (keeps_dropped _ _ K2)) as D2.
  assert (Hp : dropped_from s (emit (PumpStarted (attempts s)) s2))
    by (eapply dropped_trans; [exact D2 | by apply keeps_dropped, keeps_emit]).
  destruct Hs as [-> | [-> | ->]]; [done | done |]. eapply dropped_trans; [exact Hp | by apply keeps_dropped, keeps_emit].
Qed.

(** ** Every reachable state is well formed *)

Lemma observe_wf r s : wg_wf s -> wg_wf (observe_dial r s).
Proof. intros Hw. by eapply wf_same; eauto. Qed.

Lemma retire_wf s : wg_wf s -> wg_wf (retire s).
Proof.
  intros Hw. unfold retire. destruct (current s); [| done].
  apply wf_abort_pump, wf_stop_device. by eapply drop_current_keeps.
Qed.

Lemma probe_wf s r s' : wg_wf s -> probe_handshake s = (r, s') -> wg_wf s'.
Proof.
  intros Hw. unfold probe_handshake. destruct (bring_up s) as [[n | e] s1] eqn:E;
    pose proof (bring_up_wf _ _ _ Hw E); intros [= <- <-]; [| done].
  by apply wf_abort_pump, wf_stop_device.
Qed.

Lemma caller_step_wf d s d' s' : wg_wf s -> caller_step d s = (d', s') -> wg_wf s'.
Proof.
  intros Hw. destruct d as [| host port | host port n | host port n first | host port n n' | | r |];
    unfold caller_step, finish.
  - unfold prepare. destruct (tunnel s) as [r s1] eqn:E. intros [= <- <-]. by eapply tunnel_spec in E as [[? _] _].
  - destruct (tunnel s) as [r s1] eqn:E. apply tunnel_spec in E as [[? _] _]; [| done].
    destruct r; intros [= <- <-]; [done | by apply observe_wf].
  - destruct (dial_on n host port s) as [f s1] eqn:E. apply dial_on_keeps, (keeps_wf _ _ Hw) in E.
    destruct f as [[] | [e | e]]; intros [= <- <-]; [by apply observe_wf.. | done].
  - destruct (last_handshake_age n s) as [age s1] eqn:E. apply last_handshake_age_keeps, (keeps_wf _ _ Hw) in E.
    destruct (recent age); [intros [= <- <-]; by apply observe_wf |].
    destruct (replace_tunnel n s1) as [r s2] eqn:E2. apply replace_tunnel_spec in E2 as [[? _] _]; [| done].
    destruct r; intros [= <- <-]; [done | by apply observe_wf].
  - destruct (dial_on n' host port s) as [f s1] eqn:E. apply dial_on_keeps, (keeps_wf _ _ Hw) in E.
    destruct f; intros [= <- <-]; by apply observe_wf.
  - destruct (probe_handshake s) as [r s1] eqn:E. intros [= <- <-]. by eapply probe_wf.
  - by intros [= <- <-].
  - by intros [= <- <-].
Qed.

Lemma wg_step_wf w w' : wg_step w w' -> wg_wf (provider w) -> wg_wf (provider w').
Proof.
  intros Hstep Hw. destruct Hstep as [d w Hd | i d w Hi | i d w Hi | i d k inside s s' left w Hi Es Eb | j o w Hj Ho | j o packet w Hj Ho | j o e w Hj He | n w | n w Hn Hr
    | w | w]; simpl; try done.
  - destruct (caller_step d (provider w)) as [d' s'] eqn:E. by eapply caller_step_wf.
  - apply about_to_bring_up_drops in Es. apply bring_up_until_drops in Eb as [Eb _].
    by eapply dropped_wf, dropped_trans.
  - by apply wf_end_pump.
  - by apply wf_abort_pump, wf_stop_device.
  - by apply retire_wf.
  - by eapply wf_same; eauto.
Qed.

Lemma wg_reachable_wf w : rtc wg_step world_new w -> wg_wf (provider w).
Proof.
  intros Hr. eapply (rtc_preserves _ (fun w => wg_wf (provider w))); [| exact Hr | apply wf_new].
  intros x y. apply wg_step_wf.
Qed.

(** ** After a shutdown *)

Lemma stopped_observe s0 r s : stopped s0 s -> stopped s0 (observe_dial r s).
Proof. intros (Hw & Hs). split; [by apply observe_wf | done]. Qed.

Lemma stopped_probe s0 s r s' : stopped s0 s -> probe_handshake s = (r, s') -> stopped s0 s'.
Proof.
  intros Hst E. pose proof Hst as (Hw & Hcl & Hc & Hr & Hp). pose proof (probe_wf _ _ _ Hw E) as Hw'.
  unfold probe_handshake in E. destruct (bring_up s) as [b s1] eqn:Eb.
  apply bring_up_spec in Eb as (Ha & Hc1 & Hcl1 & _ & Hb); [| done]. unfold stopped.
  destruct b as [n | e]; injection E as <- <-.
  - destruct Hb as (-> & R1 & R2 & _). unfold tunnel_drop, stop_device in *.
    rewrite bool_decide_eq_true_2 in * by (rewrite R1; apply elem_of_union; left; by apply elem_of_singleton).
    split; [exact Hw' |]. simpl. rewrite R1, R2, Hc1, Hcl1. split_and!; done || by apply replaced_below.
  - destruct Hb as (R1 & R2 & _). rewrite R1, R2, Hc1, Hcl1. done.
Qed.

Lemma wg_caller_stopped s0 d s d' s' : stopped s0 s -> caller_step d s = (d', s') -> stopped s0 s'.
Proof.
  intros Hst. pose proof Hst as (Hw & Hcl & Hc & _).
  destruct d as [| host port | host port n | host port n first | host port n n' | | r |];
    unfold caller_step, finish, prepare, tunnel, replace_tunnel; rewrite ?Hcl.
  - by intros [= <- <-].
  - intros [= <- <-]. by apply stopped_observe.
  - destruct (dial_on n host port s) as [f s1] eqn:E. apply dial_on_keeps, (stopped_keeps _ _ _ Hst) in E.
    destruct f as [[] | [e | e]]; intros [= <- <-]; [by apply stopped_observe.. | done].
  - destruct (last_handshake_age n s) as [age s1] eqn:E.
    apply last_handshake_age_keeps, (stopped_keeps _ _ _ Hst) in E. pose proof E as (_ & -> & _).
    destruct (recent age); intros [= <- <-]; by apply stopped_observe.
  - destruct (dial_on n' host port s) as [f s1] eqn:E. apply dial_on_keeps, (stopped_keeps _ _ _ Hst) in E.
    destruct f; intros [= <- <-]; by apply stopped_observe.
  - destruct (probe_handshake s) as [r s1] eqn:E. intros [= <- <-]. by eapply stopped_probe.
  - by intros [= <- <-].
  - by intros [= <- <-].
Qed.

Lemma wg_step_stopped s0 w w' : wg_step w w' -> stopped s0 (provider w) -> stopped s0 (provider w').
Proof.
  intros Hstep Hst. destruct Hstep as [d w Hd | i d w Hi | i d w Hi | i d k inside s s' left w Hi Es Eb | j o w Hj Ho | j o packet w Hj Ho | j o e w Hj He | n w | n w Hn Hr
    | w | w]; simpl in *; try done.
  - destruct (caller_step d (provider w)) as [d' s'] eqn:E. by eapply wg_caller_stopped.
  - apply about_to_bring_up_drops in Es. apply bring_up_until_drops in Eb as [Eb _].
    pose proof (dropped_trans _ _ _ Es Eb) as D. destruct Hst as (Hw & Hcl & Hc & Hr & Hp).
    pose proof (dropped_wf _ _ Hw D). destruct D as (A1 & A2 & A3 & A4 & A5 & _).
    split_and!; rewrite ?A1, ?A2, ?A4; try done. destruct A5 as [-> | ->]; done.
  - destruct Hst as (Hw & Hcl & Hc & Hr & Hp). split_and!; simpl; try done; [by apply wf_end_pump | by apply remove_below].
  - by apply stopped_drop.
  - unfold retire. pose proof Hst as (_ & _ & -> & _). done.
  - destruct Hst as (Hw & Hcl & Hc & Hr & Hp). split_and!; simpl; try done. by eapply wf_same; eauto.
Qed.

Lemma shutdown_stopped s : wg_wf s -> stopped (shutdown s) (shutdown s).
Proof.
  intros Hw. assert (Hw1 : wg_wf (set_closed s)) by (by eapply wf_same; eauto).
  split_and!; [by apply retire_wf | | | done..]; unfold shutdown, retire; simpl;
    (destruct (current s) eqn:Ec; [unfold stop_device; by repeat case_bool_decide | done]).
Qed.

(** ** Waiting, specified *)

Definition unanswered (n k : nat) : Prop :=
  forall j, (j < k)%nat -> shaken n j = false /\ pump_finished n j = false.

Lemma clock_spaced n k :
  (forall j, clock n j + HANDSHAKE_POLL_INTERVAL <= clock n (S j)) ->
  clock n 0 + Z.of_nat k * HANDSHAKE_POLL_INTERVAL <= clock n k.
Proof.
  intros Hs. induction k as [|k IH]; [lia |]. specialize (Hs k). rewrite Nat2Z.inj_succ. lia.
Qed.

Lemma await_loop_spec n fuel : forall k,
  unanswered n k ->
  match await_loop fuel n k with
  | Some (Some at_) => exists m, (k <= m)%nat /\ at_ = clock n m /\ shaken n m = true /\ unanswered n m
                        /\ at_ <= clock n 0 + request_timeout spec
  | Some None => exists m, pump_finished n m = true /\ shaken n m = false /\ unanswered n m
                        /\ clock n m <= clock n 0 + request_timeout spec
  | None => exists m, (m <= fuel + k)%nat /\ unanswered n m
                      /\ (m = (fuel + k)%nat \/ clock n 0 + request_timeout spec < clock n m)
  end.
Proof.
  induction fuel as [|fuel IH]; intros k Hu; simpl; [exists k; split_and!; [lia | done | by left] |].
  destruct (Z.ltb_spec (clock n 0 + request_timeout spec) (clock n k)) as [Hlt | Hle].
  { exists k. split_and!; [lia | done | by right]. }
  destruct (shaken n k) eqn:Es; [exists k; split_and!; try done; lia |].
  destruct (pump_finished n k) eqn:Ep; [exists k; split_and!; try done; lia |].
  assert (Hu' : unanswered n (S k)).
  { intros j Hj. destruct (decide (j = k)) as [-> |]; [done |]. apply Hu. lia. }
  specialize (IH (S k) Hu'). destruct (await_loop fuel n (S k)) as [[at_ |] |].
  - destruct IH as (m & ? & ?). exists m. split; [lia | done].
  - done.
  - destruct IH as (m & ? & ? & ?). exists m. split_and!; [lia | done |]. destruct H1; [left; lia | by right].
Qed.

(** With polls at least 25 ms apart the fuel outlasts the budget. *)
Lemma await_fuel_enough n :
  (forall j, clock n j + HANDSHAKE_POLL_INTERVAL <= clock n (S j)) -> 0 <= request_timeout spec ->
  clock n 0 + request_timeout spec < clock n await_fuel.
Proof.
  intros Hs Ht. pose proof (clock_spaced n await_fuel Hs) as Hc. unfold await_fuel in *.
  set (q := request_timeout spec / HANDSHAKE_POLL_INTERVAL) in *.
  assert (Hq : 0 <= q) by (apply Z.div_pos; [done | reflexivity]).
  pose proof (Z.mul_succ_div_gt (request_timeout spec) HANDSHAKE_POLL_INTERVAL ltac:(reflexivity)) as Hd.
  fold q in Hd. rewrite !Nat2Z.inj_succ, Z2Nat.id in Hc by done.
  assert (0 < HANDSHAKE_POLL_INTERVAL) by reflexivity. nia.
Qed.

End Provider.

(** ** Properties *)

Section Properties.
Variable spec : WireGuardSpec.
Variable download_tuning : bool.
Variable b64_encode : list Z -> string.
Variable x25519_public : Key -> Key.
Variable has_runtime : bool.
Variable datagram : option DatagramTransport.
Variable lookup_host : nat -> string -> Z -> option (Result (list SocketAddr) string).
Variable build_error : nat -> option string.
Variable clock : nat -> nat -> Duration.
Variable shaken : nat -> nat -> bool.
Variable pump_finished : nat -> nat -> bool.
Variable carrier_closed : nat -> nat -> bool.
Variable handshake_age : nat -> nat -> option Duration.
Variable answer : nat -> string -> DnsQueryType -> Duration -> Result (list IpAddr) TunnelError * Duration.
Variable connect_reply : nat -> Result unit TunnelError.

Notation step := (wg_step spec download_tuning b64_encode x25519_public has_runtime datagram lookup_host
  build_error clock shaken pump_finished carrier_closed handshake_age answer connect_reply).
Notation acquire := (tunnel spec download_tuning b64_encode x25519_public has_runtime datagram lookup_host
  build_error clock shaken pump_finished carrier_closed handshake_age).
Notation dial_to := (dial spec download_tuning b64_encode x25519_public has_runtime datagram lookup_host
  build_error clock shaken pump_finished carrier_closed handshake_age answer connect_reply).
Notation try_dial := (dial_on spec download_tuning answer connect_reply).

(** C8: a dial in full.  From any reachable provider a dial reports exactly one
    outcome, its own, after everything else it does; it brings a tunnel up at
    most twice; and it replaces the tunnel it was given only when the
    destination answered nothing and the peer has not shaken hands in the last
    two minutes.  A refusal, a name that does not resolve or a full tunnel is
    returned as it is. *)
Theorem wg_dial_outcome (w : WgWorld) (host : string) (port : Z) r s' :
  rtc step world_new w -> dial_to host port (provider w) = (r, s') ->
  (exists l, log s' = (log (provider w) ++ l ++
       [Observed match r with
                 | Ok _ => DialSucceeded (proxy_config_id spec)
                 | Err e => DialFailed (proxy_config_id spec) (error_to_string e)
                 end])%list /\ quiet l)
  /\ (attempts s' <= attempts (provider w) + 2)%nat
  /\ (forall n s1 failure s2, acquire (provider w) = (Ok n, s1) -> try_dial n host port s1 = (failure, s2) ->
      (attempts s' <> attempts s1 -> exists first, failure = Err (Tunnel first) /\ is_silence first = true
         /\ recent (fst (last_handshake_age handshake_age n s2)) = false)
      /\ match failure with
         | Ok _ => r = Ok tt
         | Err (Destination e) => r = Err e
         | Err (Tunnel first) => recent (fst (last_handshake_age handshake_age n s2)) = true -> r = Err first
         end).
Proof.
  intros Hr. pose proof (wg_reachable_wf _ _ _ _ _ _ _ _ _ _ _ _ _ _ _ _ Hr) as Hw. unfold dial.
  destruct (acquire (provider w)) as [[n | e] s1] eqn:E1;
    apply tunnel_spec in E1 as ((A1 & (l1 & L1 & Q1) & A3 & A4) & _); try done.
  - destruct (dial_through _ _ _ _ _ _ _ _ _ _ _ _ _ _ n host port s1) as [r2 s2] eqn:E2.
    apply dial_through_spec in E2 as ((B1 & (l2 & L2 & Q2) & B3 & B4) & B5); [| done].
    intros [= <- <-]. split_and!.
    + exists (l1 ++ l2)%list. simpl. rewrite L2, L1, <- !app_assoc. split; [done |]. by apply Forall_app.
    + simpl. lia.
    + intros n0 s0 f s3 [= <- <-] Hf. destruct (B5 f s3 Hf) as [C1 C2]. split; [| done].
      intros Hne. apply C1. simpl in Hne. lia.
  - intros [= <- <-]. split_and!; [exists l1; simpl; by rewrite L1, <- app_assoc | simpl; lia | done].
Qed.

(** C12: shutdown is final.  Once [shutdown] has returned on any reachable
    provider, whatever dials, probes, retires and cancellations were under way
    or come later, no tunnel is current again, no device or stack pump starts
    and stays, and the tunnel that was current has neither. *)
Theorem wg_shutdown_final (w w' : WgWorld) cs os :
  rtc step world_new w -> rtc step {| provider := shutdown (provider w); callers := cs; orphans := os |} w' ->
  closed (provider w') = true /\ current (provider w') = None
  /\ running (provider w') ⊆ running (shutdown (provider w))
  /\ pumps (provider w') ⊆ pumps (shutdown (provider w))
  /\ forall n, current (provider w) = Some n -> n ∉ running (provider w') /\ n ∉ pumps (provider w').
Proof.
  intros Hr Hr'. pose proof (wg_reachable_wf _ _ _ _ _ _ _ _ _ _ _ _ _ _ _ _ Hr) as Hw.
  assert (Hst : stopped (shutdown (provider w)) (provider w')).
  { eapply (rtc_preserves _ (fun x => stopped (shutdown (provider w)) (provider x))); [| exact Hr' |].
    - intros x y. by apply wg_step_stopped.
    - by apply shutdown_stopped. }
  destruct Hst as (_ & Hcl & Hc & Hrun & Hp). split_and!; try done. intros n Hn.
  assert (Hgone : n ∉ running (shutdown (provider w)) /\ n ∉ pumps (shutdown (provider w))).
  { unfold shutdown, retire. simpl. rewrite Hn. unfold stop_device. simpl.
    case_bool_decide; simpl; split; rewrite ?not_elem_of_difference, ?elem_of_singleton; by auto. }
  destruct Hgone as [G1 G2]. split; [by intros ?%Hrun | by intros ?%Hp].
Qed.

(** C29: a bring-up leaves a tunnel or nothing.  From any reachable provider it
    either yields a new tunnel, alone added to the running devices and pumps,
    whose peer has shaken hands and whose MTU is the configured one or, inside
    another tunnel, what that link can carry; or it fails, and no device, pump
    or tunnel is left of it.  A failure never touches the current tunnel. *)
Theorem bring_up_outcome (w : WgWorld) r s' :
  rtc step world_new w ->
  bring_up spec download_tuning b64_encode x25519_public has_runtime datagram lookup_host build_error clock
    shaken pump_finished (provider w) = (r, s') ->
  current s' = current (provider w)
  /\ match r with
     | Ok n =>
         n ∉ running (provider w) /\ running s' = {[n]} ∪ running (provider w)
         /\ pumps s' = {[n]} ∪ pumps (provider w)
         /\ exists t, tunnels s' = <[n := t]> (tunnels (provider w))
            /\ await_handshake spec b64_encode x25519_public clock shaken pump_finished n = Ok (tn_handshake_at t)
            /\ match tn_carrier t with
               | Some c => match cs_link_mtu c with
                           | Some link => carried_mtu (mtu spec) link (sa_ip (tn_endpoint t))
                                          = Ok (sc_mtu (tn_config t))
                           | None => sc_mtu (tn_config t) = mtu spec
                           end
               | None => datagram = None /\ sc_mtu (tn_config t) = mtu spec
               end
     | Err _ => running s' = running (provider w) /\ pumps s' = pumps (provider w)
                /\ tunnels s' = tunnels (provider w)
     end.
Proof.
  intros Hr E. pose proof (wg_reachable_wf _ _ _ _ _ _ _ _ _ _ _ _ _ _ _ _ Hr) as Hw.
  apply bring_up_spec in E as (_ & Hc & _ & _ & Hb); [| done]. split; [done |].
  destruct r as [n | e]; [| done]. destruct Hb as (-> & Hrun & Hp & t & Ht & Ha & _ & Hm).
  split_and!; [by apply wf_fresh | done | done |]. exists t. done.
Qed.

(** C34: waiting for the handshake always ends, within the request timeout and
    the fuel given.  It reports the time of the first poll that found the
    session, the pump's death if that came first, or the spent budget; so the
    time it reports is never before the handshake and, past the first poll,
    less than the gap between two polls after it. *)
Theorem await_handshake_exact (n : nat) :
  (forall j, clock n j + HANDSHAKE_POLL_INTERVAL <= clock n (S j)) -> 0 <= request_timeout spec ->
  match await_handshake spec b64_encode x25519_public clock shaken pump_finished n with
  | Ok at_ =>
      exists k, at_ = clock n k /\ shaken n k = true /\ unanswered shaken pump_finished n k
        /\ at_ <= clock n 0 + request_timeout spec
        /\ forall h, (forall j, shaken n j = true <-> h <= clock n j) ->
             h <= at_ /\ forall j, k = S j -> at_ - h < clock n k - clock n j
  | Err e =>
      (e = stack_died spec /\ exists k, pump_finished n k = true /\ shaken n k = false
         /\ unanswered shaken pump_finished n k /\ clock n k <= clock n 0 + request_timeout spec)
      \/ (e = no_handshake spec b64_encode x25519_public
          /\ exists k, clock n 0 + request_timeout spec < clock n k /\ unanswered shaken pump_finished n k)
  end.
Proof.
  intros Hs Ht. unfold await_handshake.
  pose proof (await_loop_spec spec clock shaken pump_finished n (await_fuel spec) 0) as H.
  specialize (H ltac:(intros j Hj; lia)).
  destruct (await_loop spec clock shaken pump_finished (await_fuel spec) n 0) as [[at_ |] |].
  - destruct H as (k & _ & -> & Hk & Hu & Hle). exists k. split_and!; try done.
    intros h Hh. split; [by apply Hh |]. intros j ->. destruct (Hu j ltac:(lia)) as [Hj _].
    assert (~ h <= clock n j) by (rewrite <- Hh; congruence). lia.
  - left. split; [done |]. destruct H as (k & ? & ? & ? & ?). by exists k.
  - right. split; [done |]. destruct H as (k & Hk & Hu & Hd). exists k. split; [| done].
    destruct Hd as [-> | Hd]; [| done]. rewrite Nat.add_0_r. by apply await_fuel_enough.
Qed.

End Properties.

(** ** Witnesses: a peer that answers the second poll, a destination that is
    silent once *)

Definition sample_clock (n k : nat) : Duration := Z.of_nat k * HANDSHAKE_POLL_INTERVAL.
Definition sample_shaken (n k : nat) : bool := (1 <=? k)%nat.
Definition sample_age (n look : nat) : option Duration := Some (from_secs 200).
Definition sample_reply (k : nat) : Result unit TunnelError :=
  match k with
  | O => Err (Dial "10.0.0.9" 443 "the tunnel did not open a connection in time")
  | _ => Ok tt
  end.
Definition sample_answer (n : nat) := no_answer.
Definition sample_spec : WireGuardSpec := {|
  proxy_config_id := "p1"; proxy_name := "home"; revision := "p1@1";
  endpoint_host := "192.0.2.7"; endpoint_port := 51820;
  private_key := sample_key 1; peer_public_key := sample_key 3; preshared_key := None;
  addresses := [cidr_host (V4 10 6 0 2)]; dns_servers := [V4 10 6 0 1];
  mtu := 1280; persistent_keepalive := Some 25; request_timeout := from_secs 5 |}.

Notation sample_dial := (dial sample_spec false hex_encode sample_public true None (fun _ _ _ => None)
  (fun _ => None) sample_clock sample_shaken (fun _ _ => false) (fun _ _ => false) sample_age sample_answer
  sample_reply "10.0.0.9" 443).

Definition sample_dialled : WgState := Eval vm_compute in snd (sample_dial wg_new).

Lemma wg_dial_outcome_witness :
  fst (sample_dial wg_new) = Ok tt /\ attempts sample_dialled = 2%nat /\ running sample_dialled = {[0; 1]}%nat
  /\ (attempts sample_dialled <= 2)%nat.
Proof.
  assert (E : sample_dial wg_new = (Ok tt, sample_dialled)) by (vm_compute; reflexivity).
  split_and!; [by rewrite E | done | vm_compute; reflexivity |].
  apply (wg_dial_outcome sample_spec false hex_encode sample_public true None (fun _ _ _ => None)
    (fun _ => None) sample_clock sample_shaken (fun _ _ => false) (fun _ _ => false) sample_age sample_answer
    sample_reply world_new "10.0.0.9" 443 (Ok tt) sample_dialled (rtc_refl _ _) E).
Defined.

Notation sample_step := (wg_step sample_spec false hex_encode sample_public true None (fun _ _ _ => None)
  (fun _ => None) sample_clock sample_shaken (fun _ _ => false) (fun _ _ => false) sample_age sample_answer
  sample_reply).

Notation sample_caller := (caller_step sample_spec false hex_encode sample_public true None (fun _ _ _ => None)
  (fun _ => None) sample_clock sample_shaken (fun _ _ => false) (fun _ _ => false) sample_age sample_answer
  sample_reply).

(** A dial that has its tunnel. *)
Definition sample_up : WgWorld :=
  Eval vm_compute in
  let '(d, s) := sample_caller (Starting "10.0.0.9" 443) wg_new in {| provider := s; callers := [d]; orphans := [] |}.

Lemma sample_up_reached : rtc sample_step world_new sample_up.
Proof.
  eapply (rtc_l _ _ {| provider := wg_new; callers := [Starting "10.0.0.9" 443]; orphans := [] |}).
  - exact (step_call _ _ _ _ _ _ _ _ _ _ _ _ _ _ _ (Starting "10.0.0.9" 443) world_new I).
  - apply rtc_once.
    pose proof (step_caller sample_spec false hex_encode sample_public true None (fun _ _ _ => None)
      (fun _ => None) sample_clock sample_shaken (fun _ _ => false) (fun _ _ => false) sample_age sample_answer
      sample_reply 0 (Starting "10.0.0.9" 443) {| provider := wg_new; callers := [Starting "10.0.0.9" 443]; orphans := [] |}
      eq_refl) as Hs.
    vm_compute in Hs. exact Hs.
Qed.

Lemma wg_shutdown_final_witness :
  current (provider sample_up) = Some 0%nat /\ running (provider sample_up) = {[0%nat]}
  /\ closed (shutdown (provider sample_up)) = true /\ 0%nat ∉ running (shutdown (provider sample_up)).
Proof.
  destruct (wg_shutdown_final sample_spec false hex_encode sample_public true None (fun _ _ _ => None)
    (fun _ => None) sample_clock sample_shaken (fun _ _ => false) (fun _ _ => false) sample_age sample_answer
    sample_reply sample_up
    {| provider := shutdown (provider sample_up); callers := callers sample_up; orphans := [] |} (callers sample_up) [] sample_up_reached (rtc_refl _ _)) as (Hcl & _ & _ & _ & Hn).
  split_and!; [reflexivity | vm_compute; reflexivity | exact Hcl |].
  exact (proj1 (Hn 0%nat eq_refl)).
Defined.

Notation sample_bring_up := (bring_up sample_spec false hex_encode sample_public true None (fun _ _ _ => None)
  (fun _ => None) sample_clock sample_shaken (fun _ _ => false)).

Lemma bring_up_outcome_witness :
  exists s', sample_bring_up (provider sample_up) = (Ok 1%nat, s') /\ running s' = {[1%nat]} ∪ {[0%nat]}.
Proof.
  assert (E : sample_bring_up (provider sample_up)
              = (Ok 1%nat, snd (sample_bring_up (provider sample_up)))) by (vm_compute; reflexivity).
  eexists. split; [exact E |].
  destruct (bring_up_outcome sample_spec false hex_encode sample_public true None (fun _ _ _ => None)
    (fun _ => None) sample_clock sample_shaken (fun _ _ => false) (fun _ _ => false) sample_age sample_answer
    sample_reply sample_up _ _ sample_up_reached E) as (_ & _ & Hr & _).
  exact Hr.
Defined.

Lemma await_handshake_exact_witness :
  await_handshake sample_spec hex_encode sample_public sample_clock sample_shaken (fun _ _ => false) 0
    = Ok HANDSHAKE_POLL_INTERVAL
  /\ exists k, HANDSHAKE_POLL_INTERVAL = sample_clock 0 k /\ sample_shaken 0 k = true.
Proof.
  pose proof (await_handshake_exact sample_spec hex_encode sample_public sample_clock sample_shaken
    (fun _ _ => false) 0 ltac:(intros j; unfold sample_clock; lia) ltac:(done)) as H.
  assert (E : await_handshake sample_spec hex_encode sample_public sample_clock sample_shaken (fun _ _ => false) 0
              = Ok HANDSHAKE_POLL_INTERVAL) by (vm_compute; reflexivity).
  split; [exact E |]. rewrite E in H. destruct H as (k & Hk & Hs & _). exists k. done.
Defined.
