(* ===== verification/WgLeaks.v ===== *)
(** * A WireGuard provider leaks nothing ([src/wireguard/mod.rs])

    Devices and stack pumps are tasks: they outlive the call that started them
    unless something ends them.  [cleanup_step] is what ends them without any
    further call.  A pump nobody has a handle to ends by itself, once it has read
    its channel to the end and the device that held the other end is gone
    ([WgPump.leaves]); gotatun stops a device that was dropped inside a runtime;
    and a tunnel nothing refers to is dropped. *)

From Stdlib Require Import ZArith Lia String Ascii.
From stdpp Require Import gmap strings numbers prelude.
From S2P Require Import Prelude WgLink WgPump Net Errors Provider Codec WgSpec WgResolve WgStack WgProvider.

Open Scope string_scope.
Open Scope Z_scope.

Inductive cleanup_step : WgWorld -> WgWorld -> Prop :=
| clean_device j o w :
    orphans w !! j = Some o -> engine o = EngineStopping ->
    cleanup_step w (set_orphans (<[j := set_orphan EngineGone (unread o) o]> (orphans w)) w)
| clean_pump j o e w :
    orphans w !! j = Some o -> orphan_receives o = Some e ->
    cleanup_step w (set_orphans (if leaves e then delete j (orphans w)
                                 else <[j := set_orphan (engine o) (drop PUMP_BATCH (unread o)) o]> (orphans w)) w)
| clean_tunnel n w :
    n ∈ dom (tunnels (provider w)) -> ~ referenced n w ->
    cleanup_step w {| provider := tunnel_drop n (provider w); callers := callers w; orphans := orphans w |}.

(** A bring-up dropped outside any runtime while its device waited for the peer:
    its device runs on. *)
Definition leaked (o : Orphan) : Prop := engine o = EngineRuns /\ dropped_inside o = false.

(** Nothing runs but what is referred to, and what was leaked. *)
Definition tidy (w : WgWorld) : Prop :=
  Forall leaked (orphans w) /\ forall n, n ∈ running (provider w) \/ n ∈ pumps (provider w) -> referenced n w.

Lemma insert_here {A} (l1 l2 : list A) x y : <[length l1 := y]> (l1 ++ x :: l2)%list = (l1 ++ y :: l2)%list.
Proof. rewrite insert_app_r_alt, Nat.sub_diag by lia. done. Qed.

(** A pump without a device reads what is left for it, and ends. *)
Lemma clean_gone k : forall o os1 os2 w,
  orphans w = (os1 ++ o :: os2)%list -> engine o = EngineGone -> (length (unread o) <= k)%nat ->
  rtc cleanup_step w (set_orphans (os1 ++ os2) w).
Proof.
  induction k as [|k IH]; intros o os1 os2 w Hw Hg Hk; destruct (unread o) as [|packet packets] eqn:Eu; simpl in Hk; try lia.
  1, 2: assert (Hr : orphan_receives o = Some (Received [])) by (unfold orphan_receives; by rewrite Eu, Hg);
    apply rtc_once; pose proof (clean_pump (length os1) o (Received []) w) as Hc; simpl in Hc; rewrite Hw in Hc;
    rewrite list_lookup_middle, delete_middle in Hc by done; by apply Hc.
  assert (Hr : orphan_receives o = Some (Received (take PUMP_BATCH (unread o)))) by (unfold orphan_receives; by rewrite Eu).
  pose proof (clean_pump (length os1) o (Received (take PUMP_BATCH (unread o))) w) as Hc.
  rewrite Hw, list_lookup_middle, insert_here in Hc by done. specialize (Hc eq_refl Hr). rewrite Eu in Hc. simpl in Hc. eapply rtc_l; [exact Hc |].
  eapply (IH _ os1 os2 (set_orphans _ w)); [reflexivity | done |]. simpl. rewrite length_drop. lia.
Qed.

(** Every orphan but the leaked ones goes. *)
Lemma clean_orphans os : forall done w,
  orphans w = (done ++ os)%list -> Forall leaked done -> Forall (fun o => engine o = EngineRuns -> dropped_inside o = false) os ->
  exists os', rtc cleanup_step w (set_orphans os' w) /\ Forall leaked os'.
Proof.
  induction os as [|o os IH]; intros kept w Hw Hd Ho.
  { exists kept. rewrite app_nil_r in Hw. split; [| done]. destruct w; simpl in *; subst; done. }
  apply Forall_cons in Ho as [Ho Hos].
  assert (Hgone : forall w, orphans w = (kept ++ set_orphan EngineGone (unread o) o :: os)%list ->
    exists os', rtc cleanup_step w (set_orphans os' w) /\ Forall leaked os').
  { intros v Hv. pose proof (clean_gone _ _ _ _ v Hv eq_refl (Nat.le_refl _)) as Hc.
    destruct (IH kept (set_orphans (kept ++ os) v) eq_refl Hd Hos) as (os' & H1 & H2).
    exists os'. split; [by etransitivity | done]. }
  destruct (engine o) eqn:Ee.
  - apply (IH (kept ++ [o])%list w); [by rewrite <- app_assoc | | done].
    apply Forall_app. split; [done |]. apply Forall_singleton. split; [done | by apply Ho].
  - pose proof (clean_device (length kept) o w) as Hc. rewrite Hw in Hc. rewrite list_lookup_middle, insert_here in Hc by done.
    specialize (Hc eq_refl Ee). simpl in Hc.
    destruct (Hgone (set_orphans (kept ++ set_orphan EngineGone (unread o) o :: os) w) eq_refl) as (os' & H1 & H2).
    exists os'. split; [eapply rtc_l; [exact Hc | exact H1] | done].
  - apply Hgone. rewrite Hw. do 2 f_equal. unfold set_orphan. rewrite <- Ee. by destruct o.
Qed.

#[export] Instance referenced_dec n w : Decision (referenced n w).
Proof.
  destruct (decide (current (provider w) = Some n)) as [Hc | Hc]; [left; by left |].
  destruct (decide (n ∈ (callers w ≫= holds_tunnel))) as [Hd | Hd].
  - left. right. apply list_elem_of_bind in Hd as (d & Hn & Hd). eauto.
  - right. intros [? | (d & Hd' & Hn)]; [done |]. apply Hd, list_elem_of_bind. eauto.
Defined.

(** What dropping a tunnel takes away, and nothing else. *)
Lemma tunnel_drop_shrinks n s :
  current (tunnel_drop n s) = current s /\ tunnels (tunnel_drop n s) = tunnels s
  /\ running (tunnel_drop n s) = running s ∖ {[n]} /\ pumps (tunnel_drop n s) = pumps s ∖ {[n]}.
Proof.
  unfold tunnel_drop, stop_device. case_bool_decide as Hn; simpl; split_and!; try done.
  symmetry. apply leibniz_equiv, difference_disjoint. by apply disjoint_singleton_r.
Qed.

(** Dropping the unreferred tunnels one after another. *)
Lemma clean_tunnels (ns : list nat) : forall w, Forall leaked (orphans w) -> wg_wf (provider w) ->
  (forall n, n ∈ running (provider w) \/ n ∈ pumps (provider w) -> referenced n w \/ n ∈ ns) ->
  exists w', rtc cleanup_step w w' /\ callers w' = callers w /\ current (provider w') = current (provider w) /\ tidy w'.
Proof.
  induction ns as [|n ns IH]; intros w Ho Hw Hns.
  { exists w. split_and!; try done. split; [done |]. intros n Hn. destruct (Hns n Hn) as [? | ?%elem_of_nil]; done. }
  destruct (decide (referenced n w)) as [Hr | Hr].
  { apply IH; [done.. |]. intros m Hm. destruct (Hns m Hm) as [? | [-> | ?]%elem_of_cons]; by auto. }
  destruct (decide (n ∈ dom (tunnels (provider w)))) as [Hd | Hd].
  2: { apply IH; [done.. |]. intros m Hm. destruct (Hns m Hm) as [? | [-> | ?]%elem_of_cons]; [by left | | by right].
       destruct Hd. destruct Hm as [Hm | Hm]; [by apply (wf_running _ Hw) | by apply (wf_pumps _ Hw)]. }
  destruct (tunnel_drop_shrinks n (provider w)) as (D1 & D2 & D3 & D4).
  set (w1 := {| provider := tunnel_drop n (provider w); callers := callers w; orphans := orphans w |}).
  assert (Hw1 : wg_wf (provider w1)) by (by apply wf_abort_pump, wf_stop_device).
  assert (Href : forall m, referenced m w -> referenced m w1).
  { intros m [Hm | Hm]; [left; by rewrite <- Hm, <- D1 | by right]. }
  destruct (IH w1 Ho Hw1) as (w' & Hs & Hcs & Hcu & Ht).
  { intros m Hm. change (provider w1) with (tunnel_drop n (provider w)) in Hm. rewrite D3, D4, !elem_of_difference, !elem_of_singleton in Hm.
    assert (Hm' : m ∈ running (provider w) \/ m ∈ pumps (provider w)) by (by destruct Hm as [[? _] | [? _]]; [left | right]).
    destruct (Hns m Hm') as [? | [-> | ?]%elem_of_cons]; [by left; auto | | by right].
    destruct Hm as [[_ ?] | [_ ?]]; done. }
  exists w'. split_and!; [by eapply rtc_l, Hs; apply clean_tunnel | done | by rewrite Hcu, <- D1 | done].
Qed.

(** Where a reachable orphan's device runs, it was dropped outside a runtime. *)
Definition orphans_ok (w : WgWorld) : Prop :=
  Forall (fun o => engine o = EngineRuns -> dropped_inside o = false) (orphans w).

Lemma wg_step_orphans spec download_tuning b64_encode x25519_public has_runtime datagram lookup_host build_error
    clock shaken pump_finished carrier_closed handshake_age answer connect_reply w w' :
  wg_step spec download_tuning b64_encode x25519_public has_runtime datagram lookup_host build_error
    clock shaken pump_finished carrier_closed handshake_age answer connect_reply w w' ->
  orphans_ok w -> orphans_ok w'.
Proof.
  intros Hstep Hw. unfold orphans_ok in *. destruct Hstep as [d w Hd | i d w Hi | i d w Hi | i d k inside s s' left w Hi Es Eb
    | j o w Hj Ho | j o packet w Hj Ho | j o e w Hj He | n w | n w Hn Hr | w | w]; simpl; try done.
  - apply bring_up_until_drops in Eb as [_ Eb]. apply Forall_app. split; [| done].
    eapply Forall_impl; [exact Eb |]. by intros o [_ ?].
  - by apply Forall_insert.
  - apply Forall_insert; [done |]. exact (Forall_lookup_1 _ _ _ _ Hw Hj).
  - destruct (leaves e); [by apply Forall_delete |]. apply Forall_insert; [done |]. exact (Forall_lookup_1 _ _ _ _ Hw Hj).
Qed.

(** C13: nothing leaks.  Whatever calls were made, timed out, were dropped in
    the middle of a bring-up or failed, from any reachable provider the devices
    and pumps that no call and no current tunnel refers to end without any
    further call: every clean-up step is one the provider takes by itself, and
    they lead to a state with the same calls and the same current tunnel in
    which only referred tunnels have a device or a pump.  The exception are
    bring-ups dropped outside any runtime while they waited for the handshake:
    gotatun cannot stop their device there, and their pump reads on. *)
Theorem wg_nothing_leaks spec download_tuning b64_encode x25519_public has_runtime datagram lookup_host build_error
    clock shaken pump_finished carrier_closed handshake_age answer connect_reply (w : WgWorld) :
  let step := wg_step spec download_tuning b64_encode x25519_public has_runtime datagram lookup_host build_error
                clock shaken pump_finished carrier_closed handshake_age answer connect_reply in
  rtc step world_new w ->
  (forall v v', cleanup_step v v' -> step v v')
  /\ exists w', rtc cleanup_step w w' /\ callers w' = callers w
       /\ current (provider w') = current (provider w) /\ tidy w'.
Proof.
  intros step Hr. pose proof (wg_reachable_wf _ _ _ _ _ _ _ _ _ _ _ _ _ _ _ _ Hr) as Hw. split.
  { intros v v' [j o x Hj He | j o e x Hj He | n x Hd Hn]; [by apply step_orphan_device | by apply step_orphan_pump
      | by apply step_last_reference]. }
  assert (Hok : orphans_ok w) by (eapply rtc_preserves; [intros x y; apply wg_step_orphans | exact Hr | constructor]).
  destruct (clean_orphans (orphans w) [] w eq_refl (Forall_nil_2 _) Hok) as (os & Ho & Hleak).
  destruct (clean_tunnels (elements (running (provider w) ∪ pumps (provider w))) (set_orphans os w) Hleak Hw)
    as (w' & Hs & Hc & Hcu & Ht).
  { intros n Hn. right. simpl in Hn. by apply elem_of_elements, elem_of_union. }
  exists w'. split_and!; [by etransitivity | done | done | done].
Qed.

Notation sample_leak_step := (wg_step sample_spec false hex_encode sample_public true None (fun _ _ _ => None)
  (fun _ => None) sample_clock sample_shaken (fun _ _ => false) (fun _ _ => false) sample_age sample_answer
  sample_reply).

(** A dial dropped while its tunnel waits for the handshake. *)
Definition sample_dropped : WgWorld :=
  {| provider := emit (DeviceBuilt 0) (emit (PumpStarted 0) (next_attempt wg_new)); callers := [Cancelled];
     orphans := [{| built_by := 0; dropped_inside := true; engine := EngineStopping; unread := [] |}] |}.

Lemma sample_dropped_reached : rtc sample_leak_step world_new sample_dropped.
Proof.
  eapply (rtc_l _ _ {| provider := wg_new; callers := [Starting "10.0.0.9" 443]; orphans := [] |}).
  - exact (step_call _ _ _ _ _ _ _ _ _ _ _ _ _ _ _ (Starting "10.0.0.9" 443) world_new I).
  - apply rtc_once.
    apply (step_abandon sample_spec false hex_encode sample_public true None (fun _ _ _ => None)
      (fun _ => None) sample_clock sample_shaken (fun _ _ => false) (fun _ _ => false) sample_age sample_answer
      sample_reply 0 (Starting "10.0.0.9" 443) Shaking true wg_new
      (emit (DeviceBuilt 0) (emit (PumpStarted 0) (next_attempt wg_new))) (orphans sample_dropped)
      {| provider := wg_new; callers := [Starting "10.0.0.9" 443]; orphans := [] |}); vm_compute; reflexivity.
Qed.

Lemma wg_nothing_leaks_witness :
  engine <$> orphans sample_dropped = [EngineStopping]
  /\ exists w', rtc cleanup_step sample_dropped w' /\ tidy w' /\ callers w' = [Cancelled].
Proof.
  split; [reflexivity |].
  destruct (wg_nothing_leaks sample_spec false hex_encode sample_public true None (fun _ _ _ => None)
    (fun _ => None) sample_clock sample_shaken (fun _ _ => false) (fun _ _ => false) sample_age sample_answer
    sample_reply sample_dropped sample_dropped_reached) as (_ & w' & Hs & Hc & _ & Ht).
  exists w'. split; [exact Hs |]. split; [exact Ht | exact Hc].
Defined.
