(* ===== verification/WgNested.v ===== *)
(** * A WireGuard tunnel inside another ([with_inner_wireguard], [DatagramTransport for
      WireGuardTunnelProvider] of [src/wireguard/mod.rs])

    The carrier of a tunnel is itself a provider: a bring-up of the inner one
    asks the outer one to resolve the endpoint's name and to bind a socket, and
    either call may bring the outer tunnel up.  The two providers are two
    [WgWorld]s; [nested_step] runs the inner one over whatever states the outer
    one is in when it is asked. *)

From Stdlib Require Import ZArith Lia String Ascii.
From stdpp Require Import gmap strings numbers prelude.
From S2P Require Import Prelude Net Codec Errors Runtime Provider WgSpec WgWire WgStack WgResolve WgProvider.

(** Everything a provider is built with and answered by, its carrier apart. *)
Record WgEnv : Type := {
  e_spec : WireGuardSpec;
  e_tuning : bool;
  e_runtime : bool;
  e_lookup : nat -> string -> Z -> option (Result (list SocketAddr) string);
  e_build_error : nat -> option string;
  e_clock : nat -> nat -> Duration;
  e_shaken : nat -> nat -> bool;
  e_pump_finished : nat -> nat -> bool;
  e_carrier_closed : nat -> nat -> bool;
  e_age : nat -> nat -> option Duration;
  e_answer : nat -> string -> DnsQueryType -> Duration -> Result (list IpAddr) TunnelError * Duration;
  e_reply : nat -> Result unit TunnelError
}.

Section Crypto.
Variable b64_encode : list Z -> string.
Variable x25519_public : Key -> Key.

Section Moves.
Variable e : WgEnv.
Variable datagram : option DatagramTransport.

Notation resolve_endpoint := (resolve_endpoint (e_spec e) datagram (e_lookup e)).
Notation bind_carrier := (bind_carrier (e_spec e) datagram).
Notation bring_up := (bring_up (e_spec e) (e_tuning e) b64_encode x25519_public (e_runtime e) datagram (e_lookup e)
  (e_build_error e) (e_clock e) (e_shaken e) (e_pump_finished e)).
Notation bring_up_current := (bring_up_current (e_spec e) (e_tuning e) b64_encode x25519_public (e_runtime e) datagram
  (e_lookup e) (e_build_error e) (e_clock e) (e_shaken e) (e_pump_finished e)).
Notation bring_up_until := (bring_up_until (e_spec e) b64_encode x25519_public (e_runtime e) datagram (e_lookup e)
  (e_build_error e)).
Notation is_alive := (is_alive (e_carrier_closed e) (e_age e)).
Notation last_handshake_age := (last_handshake_age (e_age e)).
Notation tunnel := (tunnel (e_spec e) (e_tuning e) b64_encode x25519_public (e_runtime e) datagram (e_lookup e)
  (e_build_error e) (e_clock e) (e_shaken e) (e_pump_finished e) (e_carrier_closed e) (e_age e)).
Notation replace_tunnel := (replace_tunnel (e_spec e) (e_tuning e) b64_encode x25519_public (e_runtime e) datagram
  (e_lookup e) (e_build_error e) (e_clock e) (e_shaken e) (e_pump_finished e)).
Notation dial_on := (dial_on (e_spec e) (e_tuning e) (e_answer e) (e_reply e)).
Notation probe_handshake := (probe_handshake (e_spec e) (e_tuning e) b64_encode x25519_public (e_runtime e) datagram
  (e_lookup e) (e_build_error e) (e_clock e) (e_shaken e) (e_pump_finished e)).
Notation caller_step := (caller_step (e_spec e) (e_tuning e) b64_encode x25519_public (e_runtime e) datagram (e_lookup e)
  (e_build_error e) (e_clock e) (e_shaken e) (e_pump_finished e) (e_carrier_closed e) (e_age e) (e_answer e) (e_reply e)).
Notation about_to_bring_up := (about_to_bring_up (e_carrier_closed e) (e_age e)).
Notation step := (wg_step (e_spec e) (e_tuning e) b64_encode x25519_public (e_runtime e) datagram (e_lookup e)
  (e_build_error e) (e_clock e) (e_shaken e) (e_pump_finished e) (e_carrier_closed e) (e_age e) (e_answer e) (e_reply e)).

(** ** What a step adds *)

Variable ev_ok : WgEvent -> Prop.
Variable new_ok : WgTunnel -> Prop.
Hypothesis events_ok : forall ev, (forall host, ev <> AskedSystem host) -> ev_ok ev.
Hypothesis system_ok : datagram = None -> forall host, ev_ok (AskedSystem host).
Hypothesis built_ok : forall n endpoint s carrier m s' at_, bind_carrier n endpoint s = (Ok (carrier, m), s') ->
  new_ok {| tn_config := stack_config (e_spec e) (e_tuning e) m; tn_endpoint := endpoint; tn_handshake_at := at_;
            tn_carrier := carrier |}.

(** A tunnel inside another has bound its carrier's socket. *)
Definition bound_in (l : list WgEvent) : Prop := datagram <> None -> exists peer, BoundCarrier peer ∈ l.

(** Events and tunnels are only added, and only good ones. *)
Definition moves (s s' : WgState) : Prop :=
  tunnels s ⊆ tunnels s' /\ (closed s = true -> closed s' = true)
  /\ exists l, log s' = (log s ++ l)%list /\ Forall ev_ok l
     /\ forall n t, tunnels s' !! n = Some t -> tunnels s !! n = Some t \/ (new_ok t /\ bound_in l).

#[local] Instance moves_preorder : PreOrder moves.
Proof.
  split.
  - intros s. split_and!; [done | done |]. exists []. rewrite app_nil_r. auto.
  - intros s1 s2 s3 (A1 & A2 & l1 & A3 & A4 & A5) (B1 & B2 & l2 & B3 & B4 & B5).
    split_and!; [by etransitivity | auto |]. exists (l1 ++ l2)%list. rewrite B3, A3, app_assoc.
    split_and!; [done | by apply Forall_app |].
    assert (Hb : forall l, l ⊆ (l1 ++ l2)%list -> bound_in l -> bound_in (l1 ++ l2))
      by (intros l Hl Hb Hd; destruct (Hb Hd) as [peer Hp]; exists peer; by apply Hl).
    intros n t Ht. destruct (B5 n t Ht) as [Ht' | [? ?]]; [destruct (A5 n t Ht') as [? | [? ?]] |].
    + by left.
    + right. split; [done |]. apply (Hb l1); [set_solver | done].
    + right. split; [done |]. apply (Hb l2); [set_solver | done].
Qed.

Lemma moves_log l s s' :
  Forall ev_ok l -> log s' = (log s ++ l)%list -> tunnels s' = tunnels s -> (closed s = true -> closed s' = true) -> moves s s'.
Proof. intros He E1 E2 E3. split_and!; [by rewrite E2 | done |]. exists l. rewrite E2. auto. Qed.

Lemma moves_same s s' :
  log s' = log s -> tunnels s' = tunnels s -> (closed s = true -> closed s' = true) -> moves s s'.
Proof. intros E1 E2 E3. apply (moves_log []); [done | by rewrite app_nil_r | done | done]. Qed.

Lemma moves_emit ev s s' :
  ev_ok ev -> log s' = (log s ++ [ev])%list -> tunnels s' = tunnels s -> closed s' = closed s -> moves s s'.
Proof. intros He E1 E2 E3. apply (moves_log [ev]); [by repeat constructor | done | done | by rewrite E3]. Qed.

Lemma moves_abort n s : moves s (abort_pump n s).
Proof. eapply (moves_emit (PumpAborted n)); try done. by apply events_ok. Qed.

Lemma moves_stop n s : moves s (stop_device n s).
Proof.
  unfold stop_device. case_bool_decide; [| reflexivity]. eapply (moves_emit (DeviceStopped n)); try done. by apply events_ok.
Qed.

Lemma moves_observe r s : moves s (observe_dial (e_spec e) r s).
Proof. unfold observe_dial. eapply (moves_emit (Observed _)); [by apply events_ok | done..]. Qed.

Lemma resolve_moves n s r s' : resolve_endpoint n s = (r, s') -> moves s s'.
Proof.
  unfold WgProvider.resolve_endpoint. destruct (parse_ip _); [intros [= <- <-]; reflexivity |].
  destruct datagram as [t|] eqn:Ed.
  - destruct (dt_resolve _ _ _) as [[]|]; intros [= <- <-]; (eapply (moves_emit (AskedCarrier _)); [by apply events_ok | done..]).
  - destruct (e_lookup e _ _ _) as [[[]|]|]; intros [= <- <-]; (eapply (moves_emit (AskedSystem _)); [by apply system_ok | done..]).
Qed.

Lemma bind_moves n endpoint s r s' : bind_carrier n endpoint s = (r, s') -> moves s s'.
Proof.
  unfold WgProvider.bind_carrier. destruct datagram as [t|] eqn:Ed; [| intros [= <- <-]; by apply moves_same].
  assert (Hm : moves s (emit (BoundCarrier endpoint) s)) by (eapply (moves_emit (BoundCarrier _)); [by apply events_ok | done..]).
  destruct (dt_bind _ _ _) as [c|]; [| by intros [= <- <-]].
  destruct (cs_link_mtu c); [| by intros [= <- <-]]. by destruct (carried_mtu _ _ _); intros [= <- <-].
Qed.

Lemma bind_logs n endpoint s r s' :
  bind_carrier n endpoint s = (r, s') -> exists l, log s' = (log s ++ l)%list /\ bound_in l.
Proof.
  unfold WgProvider.bind_carrier, bound_in. destruct datagram as [t|] eqn:Ed.
  - intros E. exists [BoundCarrier endpoint]. split; [| intros _; exists endpoint; by left].
    destruct (dt_bind _ _ _) as [c|]; [| by injection E as <- <-].
    destruct (cs_link_mtu c); [| by injection E as <- <-]. by destruct (carried_mtu _ _ _); injection E as <- <-.
  - intros [= <- <-]. exists []. by rewrite app_nil_r.
Qed.

(** A tunnel that was not there is added. *)
Lemma moves_add n t s s0 s' :
  moves s s0 -> tunnels s0 = tunnels s -> log s' = log s0 -> closed s' = closed s0 ->
  tunnels s' = <[n := t]> (tunnels s0) -> tunnels s !! n = None -> new_ok t ->
  (forall l, log s0 = (log s ++ l)%list -> bound_in l) -> moves s s'.
Proof.
  intros (A1 & A2 & l & A3 & A4 & A5) Ht El Ec Et Hn Hok Hb. split_and!.
  - rewrite Et, Ht. by apply insert_subseteq.
  - rewrite Ec. done.
  - exists l. rewrite El, Et, Ht. split_and!; [done | done |]. intros m u.
    rewrite lookup_insert_Some. intros [[<- <-] | [_ ?]]; [right; split; [done | by apply Hb] | by left].
Qed.

Lemma bring_up_moves s r s' : wg_wf s -> bring_up s = (r, s') -> moves s s'.
Proof.
  intros Hw. unfold WgProvider.bring_up. cbv zeta.
  assert (H0 : moves s (next_attempt s)) by (by apply moves_same).
  destruct (validate _ _ _); [| by intros [= <- <-]]. destruct (negb _); [by intros [= <- <-] |].
  destruct (resolve_endpoint _ _) as [[endpoint|] s1] eqn:E1; pose proof (resolve_moves _ _ _ _ E1) as H1;
    [| intros [= <- <-]; by etransitivity].
  destruct (bind_carrier _ _ _) as [[[carrier m]|] s2] eqn:E2; pose proof (bind_moves _ _ _ _ _ E2) as H2;
    [| intros [= <- <-]; etransitivity; [exact H0 | by etransitivity]].
  set (s3 := start_pump (attempts s) s2). set (s4 := start_device (attempts s) s3).
  assert (H3 : moves s s3).
  { etransitivity; [exact H0 |]. etransitivity; [exact H1 |]. etransitivity; [exact H2 |].
    eapply (moves_emit (PumpStarted _)); [by apply events_ok | done..]. }
  destruct (e_build_error e _); [intros [= <- <-]; etransitivity; [exact H3 | apply moves_abort] |].
  assert (H4 : moves s s4)
    by (etransitivity; [exact H3 |]; eapply (moves_emit (DeviceBuilt _)); [by apply events_ok | done..]).
  destruct (await_handshake _ _ _ _ _ _ _) as [at_|err].
  - intros [= <- <-].
    assert (Ht : tunnels s4 = tunnels s).
    { apply resolve_endpoint_keeps in E1. apply bind_carrier_spec in E2 as [E2 _].
      by destruct (keeps_trans _ _ _ E1 E2) as ((_ & _ & Ht & _) & _). }
    eapply (moves_add (attempts s)); [exact H4 | done | done | done | done | | by eapply built_ok |].
    + destruct (tunnels s !! attempts s) as [t|] eqn:Et; [| done]. apply elem_of_dom_2, (wf_attempts s Hw) in Et. lia.
    + intros l El Hd. destruct H1 as (_ & _ & l1 & L1 & _). destruct (bind_logs _ _ _ _ _ E2) as (l2 & L2 & Hb).
      destruct (Hb Hd) as [peer Hp]. exists peer. simpl in El, L1. rewrite L2, L1, <- !app_assoc in El.
      apply app_inv_head in El. rewrite <- El. set_solver.
  - intros [= <- <-]. etransitivity; [exact H4 |]. etransitivity; [apply moves_stop | apply moves_abort].
Qed.

Lemma bring_up_current_moves s r s' : wg_wf s -> bring_up_current s = (r, s') -> moves s s'.
Proof.
  intros Hw. unfold WgProvider.bring_up_current. destruct (bring_up s) as [[n|err] s1] eqn:E;
    pose proof (bring_up_moves _ _ _ Hw E) as Hm; intros [= <- <-]; [| done].
  etransitivity; [exact Hm | by apply moves_same].
Qed.

(** Dropping the current tunnel, and another in its place. *)
Lemma rebuild_moves s s1 r s' :
  wg_wf s1 -> moves s s1 -> bring_up_current (set_current None s1) = (r, s') -> moves s s'.
Proof.
  intros Hw Hm E. etransitivity; [exact Hm |]. etransitivity; [| eapply bring_up_current_moves, E; by apply drop_current_keeps].
  by apply moves_same.
Qed.

Lemma look_moves n s r s' : last_handshake_age n s = (r, s') -> moves s s'.
Proof. intros [= <- <-]. by apply moves_same. Qed.

Lemma is_alive_moves n s r s' : is_alive n s = (r, s') -> moves s s'.
Proof.
  unfold WgProvider.is_alive. destruct (negb _); [intros [= <- <-]; reflexivity |].
  destruct (match tunnels s !! n with Some _ => _ | None => _ end); [intros [= <- <-]; by apply moves_same |].
  destruct (last_handshake_age n s) as [age s1] eqn:E. apply look_moves in E. by destruct age; intros [= <- <-].
Qed.

Lemma tunnel_moves s r s' : wg_wf s -> tunnel s = (r, s') -> moves s s'.
Proof.
  intros Hw. unfold WgProvider.tunnel. destruct (closed s); [intros [= <- <-]; reflexivity |].
  destruct (current s) as [n|]; [| by apply bring_up_current_moves].
  destruct (is_alive n s) as [alive s1] eqn:E. pose proof (keeps_wf _ _ Hw (is_alive_keeps _ _ _ _ _ _ E)) as Hw1.
  apply is_alive_moves in E. destruct alive; [by intros [= <- <-] | by apply rebuild_moves].
Qed.

Lemma replace_moves stale s r s' : wg_wf s -> replace_tunnel stale s = (r, s') -> moves s s'.
Proof.
  intros Hw. unfold WgProvider.replace_tunnel. destruct (closed s); [intros [= <- <-]; reflexivity |].
  destruct (current s) as [n|]; [| by apply rebuild_moves].
  destruct (negb _); [intros [= <- <-]; reflexivity | by apply rebuild_moves].
Qed.

Lemma connects_moves n port ips : forall last s r s',
  try_addresses (e_reply e) n port ips last s = (r, s') -> moves s s'.
Proof.
  induction ips as [|ip ips IH]; intros last s r s'; simpl; [intros [= <- <-]; reflexivity |].
  set (s1 := connected _). assert (Hm : moves s s1) by (eapply (moves_emit (ConnectOn _ _)); [by apply events_ok | done..]).
  destruct (e_reply e _); [by intros [= <- <-] |]. intros E. etransitivity; [exact Hm | by eapply IH].
Qed.

Lemma dial_on_moves n host port s r s' : dial_on n host port s = (r, s') -> moves s s'.
Proof.
  unfold WgProvider.dial_on. destruct (fst _); [| intros [= <- <-]; reflexivity].
  destruct (try_addresses _ _ _ _ _ _) as [[|] s1] eqn:E; apply connects_moves in E; by intros [= <- <-].
Qed.

Lemma probe_moves s r s' : wg_wf s -> probe_handshake s = (r, s') -> moves s s'.
Proof.
  intros Hw. unfold WgProvider.probe_handshake. destruct (bring_up s) as [[n|err] s1] eqn:E;
    apply (bring_up_moves _ _ _ Hw) in E; intros [= <- <-]; [| done].
  etransitivity; [exact E |]. etransitivity; [apply moves_stop | apply moves_abort].
Qed.

Lemma caller_moves d s d' s' : wg_wf s -> caller_step d s = (d', s') -> moves s s'.
Proof.
  intros Hw. destruct d as [| host port | host port n | host port n first | host port n n' | | r |];
    unfold WgProvider.caller_step, finish.
  - unfold prepare. destruct (tunnel s) as [r s1] eqn:E. intros [= <- <-]. by eapply tunnel_moves.
  - destruct (tunnel s) as [r s1] eqn:E. apply tunnel_moves in E; [| done].
    destruct r; intros [= <- <-]; [done | etransitivity; [exact E | apply moves_observe]].
  - destruct (dial_on n host port s) as [f s1] eqn:E. apply dial_on_moves in E.
    destruct f as [[] | [e0 | e0]]; intros [= <- <-]; [.. | done]; (etransitivity; [exact E | apply moves_observe]).
  - destruct (last_handshake_age n s) as [age s1] eqn:E.
    pose proof (keeps_wf _ _ Hw (last_handshake_age_keeps _ _ _ _ _ E)) as Hw1. apply look_moves in E.
    destruct (recent age); [intros [= <- <-]; etransitivity; [exact E | apply moves_observe] |].
    destruct (replace_tunnel n s1) as [r s2] eqn:E2. apply replace_moves in E2; [| done].
    assert (Hm : moves s s2) by (by etransitivity).
    destruct r; intros [= <- <-]; [done | etransitivity; [exact Hm | apply moves_observe]].
  - destruct (dial_on n' host port s) as [f s1] eqn:E. apply dial_on_moves in E.
    destruct f; intros [= <- <-]; (etransitivity; [exact E | apply moves_observe]).
  - destruct (probe_handshake s) as [r s1] eqn:E. intros [= <- <-]. by eapply probe_moves.
  - intros [= <- <-]. reflexivity.
  - intros [= <- <-]. reflexivity.
Qed.

Lemma about_moves d s s' : about_to_bring_up d s = Some s' -> moves s s'.
Proof.
  assert (Hcur : forall s0, match current s0 with
      | Some existing => let '(alive, s) := is_alive existing s0 in if alive then None else Some (set_current None s)
      | None => Some s0 end = Some s' -> moves s0 s').
  { intros s0. destruct (current s0) as [n|]; [| intros [= <-]; reflexivity].
    destruct (is_alive n s0) as [alive s1] eqn:E. apply is_alive_moves in E. destruct alive; [done |].
    intros [= <-]. etransitivity; [exact E | by apply moves_same]. }
  destruct d; simpl; try done; [destruct (closed s); [done | exact (Hcur s)].. | |].
  - destruct (_ || _); [done |]. assert (Hl : moves s (looked s)) by (by apply moves_same).
    destruct (current s) as [m|]; [| by intros [= <-]]. destruct (negb _); [done |]. intros [= <-].
    etransitivity; [exact Hl | by apply moves_same].
  - intros [= <-]. reflexivity.
Qed.

Lemma until_moves k inside s s' left : bring_up_until k inside s = Some (s', left) -> moves s s'.
Proof.
  intros (_ & re & s1 & Er & Hs)%bring_up_until_cases. apply resolve_moves in Er.
  assert (H1 : moves s s1) by (etransitivity; [by apply (moves_same s (next_attempt s)) | done]).
  destruct Hs as [-> | (endpoint & rb & s2 & Eb & Hs)]; [done |]. apply bind_moves in Eb.
  etransitivity; [exact H1 |]. etransitivity; [exact Eb |].
  assert (Hp : ev_ok (PumpStarted (attempts s))) by (by apply events_ok).
  assert (Hd : ev_ok (DeviceBuilt (attempts s))) by (by apply events_ok).
  destruct Hs as [-> | [-> | ->]]; [reflexivity | by apply (moves_emit (PumpStarted (attempts s))) |].
  apply (moves_log [PumpStarted (attempts s); DeviceBuilt (attempts s)]); try done; [by repeat constructor |].
  simpl. by rewrite <- app_assoc.
Qed.

Lemma wg_step_moves w w' : step w w' -> wg_wf (provider w) -> moves (provider w) (provider w').
Proof.
  intros Hstep Hw. destruct Hstep as [d w Hd | i d w Hi | i d w Hi | i d k inside s s' left w Hi Es Eb | j o w Hj Ho | j o packet w Hj Ho | j o ev w Hj He | n w | n w Hn Hr
    | w | w]; simpl; try reflexivity.
  - destruct (caller_step d (provider w)) as [d' s'] eqn:E. by eapply caller_moves.
  - apply about_moves in Es. apply until_moves in Eb. by etransitivity.
  - by apply moves_same.
  - etransitivity; [apply moves_stop | apply moves_abort].
  - unfold retire. destruct (current (provider w)); [| reflexivity].
    etransitivity; [| apply moves_abort]. etransitivity; [| apply moves_stop]. by apply moves_same.
  - by apply moves_same.
Qed.

End Moves.

(** ** The outer provider as a transport *)

Section Nested.
Variable outer inner : WgEnv.
(** What carries the outer tunnel, if anything; how binding a socket on the
    stack of its tunnel [m] comes out, and the port it gets. *)
Variable beneath : option DatagramTransport.
Variable bound : nat -> Result unit TunnelError.
Variable port : nat -> Z.

Notation outer_tunnel := (tunnel (e_spec outer) (e_tuning outer) b64_encode x25519_public (e_runtime outer) beneath
  (e_lookup outer) (e_build_error outer) (e_clock outer) (e_shaken outer) (e_pump_finished outer)
  (e_carrier_closed outer) (e_age outer)).

(** A [WgUdpSocket] of tunnel [m], as a [DatagramSocket]. *)
Definition socket_on (m : nat) (s : WgState) : CarrierSocket :=
  let c := tunnel_config (e_spec outer) (e_tuning outer) m s in
  {| cs_local_addr := (fun cidr => {| sa_ip := address cidr; sa_port := port m |}) <$> head (sc_addresses c);
     cs_link_mtu := Some (sc_mtu c) |}.

(** [resolve] and [bind] of [DatagramTransport]: their answers, and what they
    do to the outer provider. *)
Definition carrier_resolve (host : string) (s : WgState) : Result (list IpAddr) TunnelError * WgState :=
  resolve_host (e_spec outer) (e_tuning outer) b64_encode x25519_public (e_runtime outer) beneath (e_lookup outer)
    (e_build_error outer) (e_clock outer) (e_shaken outer) (e_pump_finished outer) (e_carrier_closed outer) (e_age outer)
    (e_answer outer) host s.

Definition carrier_bind (s : WgState) : Result CarrierSocket TunnelError * WgState :=
  let '(r, s) :=
    match outer_tunnel s with
    | (Ok m, s) => (let? _ := bound m in Ok (socket_on m s), s)
    | (Err e, s) => (Err e, s)
    end in
  (r, observe_dial (e_spec outer) (let? _ := r in Ok tt) s).

(** The outer provider as it is when it is asked to resolve, and when it is
    asked to bind. *)
Definition transport_between (s1 s2 : WgState) : DatagramTransport :=
  {| dt_resolve _ host := fst (carrier_resolve host s1); dt_bind _ _ := fst (carrier_bind s2) |}.

Notation step_of e datagram := (wg_step (e_spec e) (e_tuning e) b64_encode x25519_public (e_runtime e) datagram (e_lookup e)
  (e_build_error e) (e_clock e) (e_shaken e) (e_pump_finished e) (e_carrier_closed e) (e_age e) (e_answer e) (e_reply e)).

Definition set_provider (s : WgState) (w : WgWorld) : WgWorld :=
  {| provider := s; callers := callers w; orphans := orphans w |}.

(** The outer provider is used directly, and by whatever rides it. *)
Inductive outer_step : WgWorld -> WgWorld -> Prop :=
| os_own w w' : step_of outer beneath w w' -> outer_step w w'
| os_resolve host w : outer_step w (set_provider (snd (carrier_resolve host (provider w))) w)
| os_bind w : outer_step w (set_provider (snd (carrier_bind (provider w))) w).

(** What a step of the inner provider asked of the outer one. *)
Definition asked_name (l : list WgEvent) : option string :=
  head (omap (fun ev => match ev with AskedCarrier host => Some host | _ => None end) l).

Definition asked_socket (l : list WgEvent) : bool :=
  existsb (fun ev => match ev with BoundCarrier _ => true | _ => false end) l.

Definition new_events (w w' : WgWorld) : list WgEvent := drop (length (log (provider w))) (log (provider w')).

Definition after_name (l : list WgEvent) (w : WgWorld) : WgWorld :=
  match asked_name l with Some host => set_provider (snd (carrier_resolve host (provider w))) w | None => w end.

Definition after_socket (l : list WgEvent) (w : WgWorld) : WgWorld :=
  if asked_socket l then set_provider (snd (carrier_bind (provider w))) w else w.

(** A step of the inner provider runs while the outer one goes on: it is [w1]
    when the name is asked and [w2] when the socket is. *)
Inductive nested_step : WgWorld * WgWorld -> WgWorld * WgWorld -> Prop :=
| ne_outer wo wo' wi : outer_step wo wo' -> nested_step (wo, wi) (wo', wi)
| ne_inner wo w1 w2 wi wi' :
    step_of inner (Some (transport_between (provider w1) (provider w2))) wi wi' ->
    rtc outer_step wo w1 -> rtc outer_step (after_name (new_events wi wi') w1) w2 ->
    nested_step (wo, wi) (after_socket (new_events wi wi') w2, wi')
| ne_dropped wo w1 w2 wo' i d k inside s s' left wi :
    callers wi !! i = Some d ->
    about_to_bring_up (e_carrier_closed inner) (e_age inner) d (provider wi) = Some s ->
    k = Resolving \/ k = BindingCarrier ->
    bring_up_until (e_spec inner) b64_encode x25519_public (e_runtime inner)
      (Some (transport_between (provider w1) (provider w2))) (e_lookup inner) (e_build_error inner) k inside s = Some (s', left) ->
    rtc outer_step wo w1 -> rtc outer_step w1 w2 -> rtc outer_step w2 wo' ->
    nested_step (wo, wi) (wo', {| provider := s'; callers := <[i := Cancelled]> (callers wi); orphans := left ++ orphans wi |}).

(** Binding has the state of [WgProvider.bind]. *)
Lemma carrier_bind_state s :
  snd (carrier_bind s)
  = snd (bind (e_spec outer) (e_tuning outer) b64_encode x25519_public (e_runtime outer) beneath (e_lookup outer)
      (e_build_error outer) (e_clock outer) (e_shaken outer) (e_pump_finished outer) (e_carrier_closed outer) (e_age outer)
      bound s).
Proof.
  unfold carrier_bind, bind. destruct (outer_tunnel s) as [[m|e] s']; [| done]. by destruct (bound m) as [[]|].
Qed.

(** ** The outer provider while it carries *)

Hypothesis outer_mtu : 0 <= mtu (e_spec outer) < 2 ^ 16.
Hypothesis inner_mtu : 0 <= mtu (e_spec inner).

Definition sized (t : WgTunnel) : Prop := 0 <= sc_mtu (tn_config t) < 2 ^ 16.

Definition outer_good (s : WgState) : Prop :=
  wg_wf s /\ forall m t, tunnels s !! m = Some t -> sized t.

(** What the outer provider keeps. *)
Definition onward (s s' : WgState) : Prop :=
  outer_good s' /\ tunnels s ⊆ tunnels s' /\ (closed s = true -> closed s' = true).

Lemma built_sized n endpoint s carrier m s' at_ :
  bind_carrier (e_spec outer) beneath n endpoint s = (Ok (carrier, m), s') ->
  sized {| tn_config := stack_config (e_spec outer) (e_tuning outer) m; tn_endpoint := endpoint; tn_handshake_at := at_;
           tn_carrier := carrier |}.
Proof.
  intros [_ Hm]%bind_carrier_spec. unfold sized, mtu_for in *. simpl.
  destruct carrier as [c|]; [| by destruct Hm as [_ ->]]. destruct (cs_link_mtu c) as [link|]; [| by subst].
  apply carried_mtu_below in Hm; lia.
Qed.

Lemma outer_moves s s' :
  outer_good s -> wg_wf s' -> moves beneath (fun _ => True) sized s s' -> onward s s'.
Proof.
  intros [Hw Hs] Hw' (A1 & A2 & l & _ & _ & A3). split; [split; [done |] | done].
  intros m t Ht. destruct (A3 m t Ht) as [? | [? _]]; eauto.
Qed.

Lemma outer_tunnel_onward s r s' :
  outer_good s -> outer_tunnel s = (r, s') -> onward s s' /\ match r with Ok m => current s' = Some m | Err _ => True end.
Proof.
  intros Hg E. pose proof Hg as [Hw _]. destruct (tunnel_spec _ _ _ _ _ _ _ _ _ _ _ _ _ _ _ _ Hw E) as [[Hw' _] Hc].
  split; [| done]. apply outer_moves; [done | done |].
  eapply (tunnel_moves outer beneath (fun _ => True) sized); [done | done | apply built_sized | exact Hw | exact E].
Qed.

Lemma carrier_bind_onward s : outer_good s -> onward s (snd (carrier_bind s)).
Proof.
  intros Hg. unfold carrier_bind. destruct (outer_tunnel s) as [r s'] eqn:E.
  destruct (outer_tunnel_onward _ _ _ Hg E) as [[[Hw Hs] Hm] _].
  assert (Hobs : forall x, onward s (observe_dial (e_spec outer) x s')).
  { intros x. split; [split; [by apply observe_wf | done] | done]. }
  destruct r; simpl; apply Hobs.
Qed.

Lemma outer_step_onward w w' : outer_step w w' -> outer_good (provider w) -> onward (provider w) (provider w').
Proof.
  intros [w0 w1 Hstep | host w0 | w0] Hg.
  - apply outer_moves; [done | by eapply wg_step_wf, Hg |].
    eapply (wg_step_moves outer beneath (fun _ => True) sized); [done | done | apply built_sized | exact Hstep | apply Hg].
  - simpl. unfold carrier_resolve, resolve_host. destruct (outer_tunnel (provider w0)) as [r s'] eqn:E.
    apply outer_tunnel_onward in E as [E _]; [| done]. by destruct r.
  - by apply carrier_bind_onward.
Qed.

Lemma onward_refl s : outer_good s -> onward s s.
Proof. by intros Hg. Qed.

Lemma onward_trans s1 s2 s3 : onward s1 s2 -> onward s2 s3 -> onward s1 s3.
Proof. intros (A1 & A2 & A3) (B1 & B2 & B3). split_and!; [done | by etransitivity | auto]. Qed.

Lemma outer_run_onward w w' : rtc outer_step w w' -> outer_good (provider w) -> onward (provider w) (provider w').
Proof.
  induction 1 as [w | w w1 w' Hstep _ IH]; intros Hg; [by apply onward_refl |].
  pose proof (outer_step_onward _ _ Hstep Hg) as H1. eapply onward_trans; [exact H1 | apply IH, H1].
Qed.

(** ** Riding *)

(** Tunnel [t] of the inner provider rides a tunnel of the outer one, whose MTU
    decided its own. *)
Definition rides (s : WgState) (t : WgTunnel) : Prop :=
  exists c m u, tn_carrier t = Some c /\ tunnels s !! m = Some u /\ cs_link_mtu c = Some (sc_mtu (tn_config u))
    /\ carried_mtu (mtu (e_spec inner)) (sc_mtu (tn_config u)) (sa_ip (tn_endpoint t)) = Ok (sc_mtu (tn_config t)).

Lemma rides_later s s' t : tunnels s ⊆ tunnels s' -> rides s t -> rides s' t.
Proof.
  intros Hsub (c & m & u & A1 & A2 & A3 & A4). exists c, m, u. split_and!; try done. by eapply lookup_weaken.
Qed.

Lemma built_rides s1 s2 n endpoint s carrier k s' at_ :
  outer_good s2 ->
  bind_carrier (e_spec inner) (Some (transport_between s1 s2)) n endpoint s = (Ok (carrier, k), s') ->
  rides (snd (carrier_bind s2))
    {| tn_config := stack_config (e_spec inner) (e_tuning inner) k; tn_endpoint := endpoint; tn_handshake_at := at_;
       tn_carrier := carrier |}.
Proof.
  intros Hg. unfold bind_carrier. cbn [dt_bind transport_between]. unfold carrier_bind.
  destruct (outer_tunnel s2) as [[m|e] so] eqn:E; [| done].
  destruct (outer_tunnel_onward _ _ _ Hg E) as [[[Hw Hs] _] Hc]. destruct (bound m) as [[]|e]; [| done]. simpl.
  destruct (carried_mtu _ _ _) as [k'|] eqn:Ek; [| done]. intros [= <- <- <-].
  pose proof (wf_current so Hw m Hc) as [u Hu]%elem_of_dom.
  exists (socket_on m so), m, u. unfold socket_on, tunnel_config in *. rewrite Hu in *. done.
Qed.

Record nested_good (w : WgWorld * WgWorld) : Prop := {
  ng_outer : outer_good (provider w.1);
  ng_inner : wg_wf (provider w.2);
  ng_log : forall host, AskedSystem host ∉ log (provider w.2);
  ng_rides : forall n t, tunnels (provider w.2) !! n = Some t -> rides (provider w.1) t
}.

Definition inside (ev : WgEvent) : Prop := forall host, ev <> AskedSystem host.

Lemma inner_step_inside w1 w2 wi wi' :
  outer_good (provider w2) -> wg_wf (provider wi) ->
  step_of inner (Some (transport_between (provider w1) (provider w2))) wi wi' ->
  moves (Some (transport_between (provider w1) (provider w2))) inside (rides (snd (carrier_bind (provider w2))))
    (provider wi) (provider wi').
Proof.
  intros Hg Hw Hstep. eapply (wg_step_moves inner); [done | done | | exact Hstep | exact Hw].
  intros. by eapply built_rides.
Qed.

Lemma inside_log l l' : (forall host, AskedSystem host ∉ l) -> Forall inside l' -> forall host, AskedSystem host ∉ (l ++ l')%list.
Proof.
  intros Hl Hl' host [? | Hin]%elem_of_app; [by eapply Hl |]. rewrite Forall_forall in Hl'. by apply (Hl' _ Hin host).
Qed.

Lemma asked_socket_bound t l : bound_in (Some t) l -> asked_socket l = true.
Proof.
  intros Hb. destruct (Hb ltac:(done)) as [peer Hp]. unfold asked_socket. apply existsb_exists.
  exists (BoundCarrier peer). split; [by apply list_elem_of_In | done].
Qed.

Lemma after_name_onward l w : outer_good (provider w) -> onward (provider w) (provider (after_name l w)).
Proof.
  intros Hg. unfold after_name. destruct (asked_name l) as [host|]; [| by apply onward_refl].
  apply (outer_step_onward w); [apply os_resolve | done].
Qed.

Lemma after_socket_onward l w : outer_good (provider w) -> onward (provider w) (provider (after_socket l w)).
Proof.
  intros Hg. unfold after_socket. destruct (asked_socket l); [| by apply onward_refl].
  apply (outer_step_onward w); [apply os_bind | done].
Qed.

Lemma ne_inner_good wo w1 w2 wi wi' :
  nested_good (wo, wi) -> step_of inner (Some (transport_between (provider w1) (provider w2))) wi wi' ->
  rtc outer_step wo w1 -> rtc outer_step (after_name (new_events wi wi') w1) w2 ->
  nested_good (after_socket (new_events wi wi') w2, wi').
Proof.
  intros [H1 H2 H3 H4] Hstep Hr1 Hr2. simpl in *. set (l0 := new_events wi wi') in *.
  pose proof (outer_run_onward _ _ Hr1 H1) as O1. pose proof (after_name_onward l0 w1 (proj1 O1)) as O2.
  pose proof (outer_run_onward _ _ Hr2 (proj1 O2)) as O3. pose proof (after_socket_onward l0 w2 (proj1 O3)) as O4.
  pose proof (onward_trans _ _ _ (onward_trans _ _ _ O1 O2) (onward_trans _ _ _ O3 O4)) as (Og & Osub & _).
  destruct (inner_step_inside w1 w2 wi wi' (proj1 O3) H2 Hstep) as (_ & _ & l & El & Hl & Hnew).
  assert (Hl0 : l0 = l) by (unfold l0, new_events; by rewrite El, drop_app_length).
  split; simpl; [done | by eapply wg_step_wf | rewrite El; by apply inside_log |].
  intros n t Ht. destruct (Hnew n t Ht) as [Hold | [Hr Hb]]; [by eapply rides_later, H4 |].
  unfold after_socket. rewrite Hl0, (asked_socket_bound _ _ Hb). exact Hr.
Qed.

Lemma nested_step_good w w' : nested_step w w' -> nested_good w -> nested_good w'.
Proof.
  intros [wo wo' wi Hstep | wo w1 w2 wi wi' Hstep Hr1 Hr2 | wo w1 w2 wo' i d k inside s s' left wi Hi Ha Hk Hu Hr1 Hr2 Hr3] Hg.
  - destruct Hg as [H1 H2 H3 H4]. destruct (outer_step_onward _ _ Hstep H1) as (Og & Osub & _).
    split; simpl in *; [done | done | done |]. intros n t Ht. by eapply rides_later, H4.
  - by eapply ne_inner_good.
  - destruct Hg as [H1 H2 H3 H4]. simpl in *. pose proof (outer_run_onward _ _ Hr1 H1) as O1.
    pose proof (outer_run_onward _ _ Hr2 (proj1 O1)) as O2. pose proof (outer_run_onward _ _ Hr3 (proj1 O2)) as O3.
    destruct (onward_trans _ _ _ (onward_trans _ _ _ O1 O2) O3) as (Og & Osub & _).
    pose proof (step_abandon (e_spec inner) (e_tuning inner) b64_encode x25519_public (e_runtime inner)
      (Some (transport_between (provider w1) (provider w2))) (e_lookup inner) (e_build_error inner) (e_clock inner)
      (e_shaken inner) (e_pump_finished inner) (e_carrier_closed inner) (e_age inner) (e_answer inner) (e_reply inner)
      i d k inside s s' left wi Hi Ha Hu) as Hstep.
    destruct (inner_step_inside w1 w2 wi _ (proj1 O2) H2 Hstep) as (_ & _ & l & El & Hl & _).
    assert (Ht : tunnels s' = tunnels (provider wi)).
    { apply about_to_bring_up_drops in Ha. apply bring_up_until_drops in Hu as [Hu _].
      by destruct (dropped_trans _ _ _ Ha Hu) as (_ & _ & -> & _). }
    split; simpl in *; [done | by eapply wg_step_wf in Hstep | rewrite El; by apply inside_log |].
    rewrite Ht. intros n t Hn. by eapply rides_later, H4.
Qed.

Lemma nested_reachable_good w : rtc nested_step (world_new, world_new) w -> nested_good w.
Proof.
  intros Hr. eapply (rtc_preserves _ nested_good); [apply nested_step_good | exact Hr |].
  split; simpl; [split; [apply wf_new | done] | apply wf_new | intros host; apply not_elem_of_nil | done].
Qed.

(** ** A carrier that was shut down *)

Notation inner_tunnel := (fun t => tunnel (e_spec inner) (e_tuning inner) b64_encode x25519_public (e_runtime inner) (Some t)
  (e_lookup inner) (e_build_error inner) (e_clock inner) (e_shaken inner) (e_pump_finished inner)
  (e_carrier_closed inner) (e_age inner)).

Lemma shut_bring_up s1 s2 s :
  closed s2 = true ->
  exists e s', bring_up (e_spec inner) (e_tuning inner) b64_encode x25519_public (e_runtime inner)
    (Some (transport_between s1 s2)) (e_lookup inner) (e_build_error inner) (e_clock inner) (e_shaken inner)
    (e_pump_finished inner) s = (Err e, s').
Proof.
  intros Hc. unfold bring_up. cbv zeta. destruct (validate _ _ _) as [[]|]; [| by eauto]. destruct (negb _); [by eauto |].
  destruct (resolve_endpoint _ _ _ _ _) as [[endpoint|] s3]; [| by eauto].
  unfold bind_carrier. cbn [dt_bind transport_between]. unfold carrier_bind, tunnel. rewrite Hc. simpl. by eauto.
Qed.

Lemma shut_bring_up_current s1 s2 s r s' :
  closed s2 = true -> wg_wf s -> current s = None ->
  bring_up_current (e_spec inner) (e_tuning inner) b64_encode x25519_public (e_runtime inner)
    (Some (transport_between s1 s2)) (e_lookup inner) (e_build_error inner) (e_clock inner) (e_shaken inner)
    (e_pump_finished inner) s = (r, s') ->
  (exists e, r = Err e) /\ running s' = running s /\ pumps s' = pumps s /\ tunnels s' = tunnels s /\ current s' = None.
Proof.
  intros Hc Hw Hn. unfold bring_up_current. destruct (shut_bring_up s1 s2 s Hc) as (e & s3 & E). rewrite E.
  intros [= <- <-]. apply bring_up_spec in E as (_ & Hcur & _ & _ & Hb); [| done]. destruct Hb as (R1 & R2 & R3).
  rewrite Hcur. split; [by eauto | done].
Qed.

Lemma shut_tunnel s1 s2 s r s' :
  closed s2 = true -> wg_wf s -> (forall n t, tunnels s !! n = Some t -> is_Some (tn_carrier t)) ->
  (forall n, e_carrier_closed inner n (looks s) = true) -> inner_tunnel (transport_between s1 s2) s = (r, s') ->
  (exists e, r = Err e) /\ running s' = running s /\ pumps s' = pumps s /\ tunnels s' = tunnels s
  /\ (closed s = false -> current s' = None).
Proof.
  intros Hc Hw Hcar Hclosed. unfold tunnel. destruct (closed s) eqn:Ecl; [intros [= <- <-]; split; [by eexists | done] |].
  destruct (current s) as [n|] eqn:En.
  - destruct (is_alive _ _ n s) as [alive s3] eqn:E. pose proof (is_alive_keeps _ _ _ _ _ _ E) as Hk.
    assert (Ha : alive = false).
    { unfold is_alive in E. destruct (negb _); [by injection E as <- _ |].
      pose proof (wf_current s Hw n En) as [t Ht]%elem_of_dom. rewrite Ht in E. destruct (Hcar n t Ht) as [c Hct].
      rewrite Hct, Hclosed in E. simpl in E. by injection E as <- _. }
    rewrite Ha. pose proof (keeps_wf _ _ Hw Hk) as Hw3. destruct Hk as ((K1 & K2 & K3 & _) & _).
    intros E'. apply shut_bring_up_current in E' as (R0 & R1 & R2 & R3 & R4); [| done | by apply drop_current_keeps | done].
    simpl in *. rewrite R1, R2, R3, K1, K2, K3. done.
  - intros E. apply shut_bring_up_current in E as (R0 & R1 & R2 & R3 & R4); [| done..]. done.
Qed.

(** C14: a tunnel inside another rides it, and goes down with it.  However calls
    on the two providers interleave, a bring-up of the inner one dropped while it
    waits for the outer one included: the inner provider never asks the operating
    system for a name; every tunnel it has built rides a tunnel the outer one has
    built, and each of its packets, padded and wrapped, fits that one's MTU; and
    once the outer provider is shut down and its sockets are closed, a call that
    needs a tunnel of the inner one fails, nothing is started, and, unless the
    inner one is closed itself, no tunnel of it is current. *)
Theorem nested_rides_outer (wo wi : WgWorld) :
  rtc nested_step (world_new, world_new) (wo, wi) ->
  (forall host, AskedSystem host ∉ log (provider wi))
  /\ (forall n t, tunnels (provider wi) !! n = Some t ->
        exists m u, tunnels (provider wo) !! m = Some u
          /\ forall k, 0 <= k <= sc_mtu (tn_config t) ->
               padded k + carried_overhead (sa_ip (tn_endpoint t)) <= sc_mtu (tn_config u))
  /\ (closed (provider wo) = true -> (forall n, e_carrier_closed inner n (looks (provider wi)) = true) ->
        forall w1 w2 r s', rtc outer_step wo w1 -> rtc outer_step w1 w2 ->
          inner_tunnel (transport_between (provider w1) (provider w2)) (provider wi) = (r, s') ->
          (exists e, r = Err e) /\ running s' = running (provider wi) /\ pumps s' = pumps (provider wi)
          /\ tunnels s' = tunnels (provider wi) /\ (closed (provider wi) = false -> current s' = None)).
Proof.
  intros [H1 H2 H3 H4]%nested_reachable_good. simpl in *. split_and!; [done | |].
  - intros n t Ht. destruct (H4 n t Ht) as (c & m & u & _ & Hu & _ & Hk). exists m, u. split; [done |]. intros k Hkk.
    destruct H1 as [_ Hs]. specialize (Hs m u Hu). unfold sized in Hs. eapply carried_mtu_room; [done | lia | done | lia].
  - intros Hc Hclosed w1 w2 r s' Hr1 Hr2 E. destruct (outer_run_onward _ _ Hr1 H1) as (O1 & _ & C1).
    destruct (outer_run_onward _ _ Hr2 O1) as (O2 & _ & C2). eapply shut_tunnel; [by apply C2, C1 | done | | done | exact E].
    intros n t Ht. destruct (H4 n t Ht) as (c & _ & _ & -> & _). done.
Qed.

End Nested.
End Crypto.

(** ** An example *)

(** Two providers whose peers answer at the second poll; the inner one's
    carrier is found closed whenever it is looked at. *)
Definition sample_outer : WgEnv := {|
  e_spec := sample_spec; e_tuning := false; e_runtime := true; e_lookup _ _ _ := None; e_build_error _ := None;
  e_clock := sample_clock; e_shaken := sample_shaken; e_pump_finished _ _ := false; e_carrier_closed _ _ := true;
  e_age := sample_age; e_answer := sample_answer; e_reply := sample_reply |}.

Notation sample_nested := (nested_step hex_encode sample_public sample_outer sample_outer None (fun _ => Ok tt) (fun _ => 49152)).

Definition over_nothing : DatagramTransport :=
  transport_between hex_encode sample_public sample_outer None (fun _ => Ok tt) (fun _ => 49152) wg_new wg_new.

(** The inner provider brings its tunnel up, and the outer one's with it; then
    the outer one is shut down. *)
Definition nested_up : WgWorld :=
  Eval vm_compute in
  {| provider := snd (caller_step sample_spec false hex_encode sample_public true (Some over_nothing) (fun _ _ _ => None)
       (fun _ => None) sample_clock sample_shaken (fun _ _ => false) (fun _ _ => true) sample_age sample_answer sample_reply
       Preparing wg_new);
     callers := [Finished (Ok tt)]; orphans := [] |}.

Definition outer_down : WgWorld :=
  Eval vm_compute in
  set_provider (retire (set_closed (snd (carrier_bind hex_encode sample_public sample_outer None (fun _ => Ok tt)
    (fun _ => 49152) wg_new)))) world_new.

Lemma nested_up_reached : rtc sample_nested (world_new, world_new) (outer_down, nested_up).
Proof.
  eapply rtc_l.
  { apply (ne_inner _ _ _ _ _ _ _ world_new world_new world_new); [by apply (step_call _ _ _ _ _ _ _ _ _ _ _ _ _ _ _ Preparing) | apply rtc_refl | apply rtc_refl]. }
  eapply rtc_l.
  { apply (ne_inner _ _ _ _ _ _ _ _ world_new world_new);
      [by apply (step_caller _ _ _ _ _ _ _ _ _ _ _ _ _ _ _ 0 Preparing) | apply rtc_refl | apply rtc_refl]. }
  eapply rtc_l; [apply ne_outer, os_own, step_close |].
  eapply rtc_l; [apply ne_outer, os_own, step_retire |].
  match goal with |- rtc _ ?w _ => let v := eval vm_compute in w in change w with v end. apply rtc_refl.
Qed.

Lemma nested_rides_outer_witness :
  exists e s', tunnel sample_spec false hex_encode sample_public true
      (Some (transport_between hex_encode sample_public sample_outer None (fun _ => Ok tt) (fun _ => 49152)
         (provider outer_down) (provider outer_down))) (fun _ _ _ => None)
      (fun _ => None) sample_clock sample_shaken (fun _ _ => false) (fun _ _ => true) sample_age (provider nested_up)
    = (Err e, s') /\ current s' = None /\ current (provider nested_up) = Some 0%nat.
Proof.
  destruct (nested_rides_outer hex_encode sample_public sample_outer sample_outer None (fun _ => Ok tt) (fun _ => 49152)
    ltac:(split; [discriminate | reflexivity]) ltac:(discriminate) outer_down nested_up nested_up_reached) as (_ & _ & H).
  destruct (tunnel _ _ _ _ _ _ _ _ _ _ _ _ _ (provider nested_up)) as [r s'] eqn:E.
  destruct (H eq_refl (fun _ => eq_refl) outer_down outer_down r s' (rtc_refl _ _) (rtc_refl _ _) E)
    as ([e ->] & _ & _ & _ & Hcur).
  exists e, s'. split_and!; [done | by apply Hcur | reflexivity].
Defined.
