(* ===== verification/WgFront.v ===== *)
(** * A connection through a WireGuard front
      ([Socks5Front::handle_connection] over [WireGuardTunnelProvider::dial])

    The front and the provider composed: the provider's dial answers the
    front's, and both tell the same observer.  [told] is what the observer of a
    front's trace hears, [heard] what it hears of the provider. *)

From Stdlib Require Import ZArith Lia String Ascii.
From stdpp Require Import gmap strings numbers prelude.
From S2P Require Import Prelude Net Errors Socks5 Provider Codec WgSpec WgResolve WgStack WgProvider.

Open Scope string_scope.
Open Scope Z_scope.

Definition told (t : list Effect) : list Observation :=
  omap (fun e => match e with Socks5.Observed o => Some o | _ => None end) t.

Definition heard (l : list WgEvent) : list Observation :=
  omap (fun e => match e with WgProvider.Observed o => Some o | _ => None end) l.

Lemma told_writes t : Forall is_write t -> told t = [].
Proof. induction 1 as [|e t He _ IH]; [done |]. destruct e; try done. Qed.

Lemma heard_quiet l : quiet l -> heard l = [].
Proof. induction 1 as [|e l He _ IH]; [done |]. by destruct e. Qed.

(** A connection whose front asks provider [s]; the front's timeout drops the
    dial when [timed_out]. *)
Section Connection.
Variable dial : string -> Z -> WgState -> Result unit TunnelError * WgState.
Variable pump_result : unit -> Poll (Result unit ErrorKind).

Definition connection (front : Socks5Front) (timed_out : bool) (c : Conn) (s : WgState)
  : Poll (Result unit Socks5Failure) * Conn :=
  handle_connection (fun host port => if timed_out then None else Some (fst (dial host port s))) pump_result front c.

(** What the front tells the observer of one connection. *)
Lemma connection_told front timed_out c s host port c0 r c' :
  negotiate (credentials front) c = (Ready (Ok (host, port)), c0) ->
  connection front timed_out c s = (r, c') ->
  exists t, trace c' = (trace c ++ t)%list
    /\ told t = [if timed_out
                 then DialFailed (front_id front)
                        (error_to_string (Dial host port "the tunnel did not answer in time"))
                 else match fst (dial host port s) with
                      | Ok _ => DialSucceeded (front_id front)
                      | Err e => DialFailed (front_id front) (error_to_string e)
                      end].
Proof.
  intros Hn E. unfold connection in E.
  destruct (handle_connection_runs (fun host port => if timed_out then None else Some (fst (dial host port s)))
    pump_result front c) as (r0 & c1 & neg & tl & E1 & Ht & Hneg & Htl).
  rewrite E1 in E. injection E as <- <-. exists (neg ++ tl)%list. split; [done |].
  unfold told. rewrite omap_app. fold (told neg) (told tl). rewrite (told_writes neg Hneg). rewrite Hn in Htl.
  unfold expected_tail, failed_tail, replied in Htl. simpl. destruct timed_out.
  - destruct Htl as (_ & code & _ & ->). by destruct (next_fate c0).
  - destruct (fst (dial host port s)) as [[]|e].
    + destruct Htl as [-> _]. by destruct (next_fate c0).
    + destruct Htl as (_ & code & _ & ->). by destruct (next_fate c0).
Qed.

End Connection.

(** C39: a connection through a WireGuard front is reported twice.  Once the
    client has named its destination and the provider has answered, the
    observer hears the same outcome from the front and from the provider. *)
Theorem wg_front_reports_twice spec download_tuning b64_encode x25519_public has_runtime datagram lookup_host
    build_error clock shaken pump_finished carrier_closed handshake_age answer connect_reply pump_result
    (w : WgWorld) (front : Socks5Front) (c c0 c' : Conn) (host : string) (port : Z)
    (r : Result unit TunnelError) (s' : WgState) out :
  let dial := WgProvider.dial spec download_tuning b64_encode x25519_public has_runtime datagram lookup_host
                build_error clock shaken pump_finished carrier_closed handshake_age answer connect_reply in
  rtc (wg_step spec download_tuning b64_encode x25519_public has_runtime datagram lookup_host build_error
         clock shaken pump_finished carrier_closed handshake_age answer connect_reply) world_new w ->
  front_id front = proxy_config_id spec ->
  negotiate (credentials front) c = (Ready (Ok (host, port)), c0) ->
  dial host port (provider w) = (r, s') ->
  connection dial pump_result front false c (provider w) = (out, c') ->
  exists t l o, trace c' = (trace c ++ t)%list /\ WgProvider.log s' = (WgProvider.log (provider w) ++ l)%list
    /\ heard l = [o] /\ told t = [o].
Proof.
  intros dial Hr Hid Hn Hd Hc. pose proof (wg_reachable_wf _ _ _ _ _ _ _ _ _ _ _ _ _ _ _ _ Hr) as Hw.
  destruct (connection_told dial pump_result _ _ _ _ _ _ _ _ _ Hn Hc) as (t & Ht & Hto).
  rewrite Hid, Hd in Hto. simpl in Hto.
  destruct (dial_observed _ _ _ _ _ _ _ _ _ _ _ _ _ _ _ _ _ _ _ _ Hw Hd) as (l & Hl & Hq).
  eexists t, _, _. split_and!; [exact Ht | exact Hl | |].
  - unfold heard. rewrite omap_app. fold (heard l). rewrite (heard_quiet l Hq). reflexivity.
  - exact Hto.
Qed.

Notation sample_dial_to := (WgProvider.dial WgProvider.sample_spec false hex_encode sample_public true None
  (fun _ _ _ => None) (fun _ => None) sample_clock sample_shaken (fun _ _ => false) (fun _ _ => false) sample_age
  sample_answer sample_reply).

Definition sample_wg_front : Socks5Front := {| front_id := "p1"; credentials := sample_cred |}.

(** One connection, heard twice. *)
Lemma wg_front_reports_twice_witness :
  exists t l, told t = [DialSucceeded "p1"] /\ heard l = [DialSucceeded "p1"]
    /\ trace (snd (connection sample_dial_to (fun _ => Ready (Ok tt)) sample_wg_front false sample_conn wg_new)) = t
    /\ WgProvider.log (snd (sample_dial_to "10.0.0.1" 80 wg_new)) = l.
Proof.
  destruct (sample_dial_to "10.0.0.1" 80 wg_new) as [r s'] eqn:Ed.
  destruct (connection sample_dial_to (fun _ => Ready (Ok tt)) sample_wg_front false sample_conn wg_new) as [out c'] eqn:Ec.
  destruct (wg_front_reports_twice WgProvider.sample_spec false hex_encode sample_public true None
    (fun _ _ _ => None) (fun _ => None) sample_clock sample_shaken (fun _ _ => false) (fun _ _ => false) sample_age
    sample_answer sample_reply (fun _ => Ready (Ok tt)) world_new sample_wg_front sample_conn
    (snd (negotiate sample_cred sample_conn)) c' "10.0.0.1" 80 r s' out (rtc_refl _ _) eq_refl
    ltac:(vm_compute; reflexivity) Ed Ec) as (t & l & o & Ht & Hl & Hh & Hto).
  assert (Ho : o = DialSucceeded "p1").
  { vm_compute in Ed. injection Ed as <- <-. vm_compute in Hl. subst l. vm_compute in Hh. by injection Hh as <-. }
  subst o. exists t, l. split; [exact Hto |]. split; [exact Hh |]. split; [exact Ht | exact Hl].
Defined.
