(* ===== verification/Http3Spec.v ===== *)
(** * HTTP/3 proxy configuration ([src/http3/spec.rs])

    Credentials, the [proxy-authorization] header, the specification's
    validation, and the CONNECT authority.  Base64 and the [http] crate's
    [Authority] parser are parameters. *)

From Stdlib Require Import ZArith Lia String Ascii.
From stdpp Require Import gmap strings numbers prelude.
From S2P Require Import Prelude TextFacts Net NetFacts Codec Errors Provider.

Open Scope string_scope.
Open Scope Z_scope.

#[local] Arguments String.append : simpl nomatch.

Record Http3ProxyCredentials : Type := { username : string; password : string }.

#[export] Instance Http3ProxyCredentials_eq_dec : EqDecision Http3ProxyCredentials.
Proof. solve_decision. Defined.

(** [chars().any(char::is_control)] on UTF-8 text: U+0000..1F and U+007F are
    one byte each, U+0080..9F are [C2 80..9F]. *)
Fixpoint any_control (l : list Z) : bool :=
  match l with
  | [] => false
  | b :: l =>
      (b <? 32) || (b =? 127)
      || ((b =? 194) && match l with c :: _ => within 128 159 c | [] => false end)
      || any_control l
  end.

Definition contains_char (c : ascii) (s : string) : bool := negb (no_char c s).

Definition http3_credentials_new (username password : string)
  : Result Http3ProxyCredentials TunnelError :=
  if is_empty username || (255 <? str_len username) || (4096 <? str_len password)
     || contains_char ":" username
     || (any_control (bytes_of username) || any_control (bytes_of password))
  then Err (Configuration "invalid HTTP/3 proxy credentials")
  else Ok {| username := username; password := password |}.

(** A header value and whether it is marked sensitive. *)
Record HeaderValue : Type := { value : string; sensitive : bool }.

Definition header (b64_encode : list Z -> string) (c : Http3ProxyCredentials) : HeaderValue :=
  let encoded := b64_encode (bytes_of (username c ++ ":" ++ password c)) in
  {| value := "Basic " ++ encoded; sensitive := true |}.

Definition http3_credentials_debug (c : Http3ProxyCredentials) : DebugValue :=
  DRaw "Http3ProxyCredentials(<redacted>)".

Record Http3TunnelSpec : Type := {
  h3_proxy_config_id : string;
  h3_revision : string;
  h3_host : string;
  h3_port : Z;
  h3_credentials : option Http3ProxyCredentials;
  h3_request_timeout : Duration
}.

Definition is_ascii_alphanumeric (c : ascii) : bool :=
  let b := byte_of c in within 48 57 b || within 65 90 b || within 97 122 b.

Definition name_char (c : ascii) : bool :=
  is_ascii_alphanumeric c || existsb (Ascii.eqb c) ["."; "_"; "-"]%char.

Fixpoint all_chars (f : ascii -> bool) (s : string) : bool :=
  match s with EmptyString => true | String c s => f c && all_chars f s end.

Definition unbracket (host : string) : string :=
  match strip_prefix "[" host with
  | Some h => match strip_suffix "]" h with Some h => h | None => host end
  | None => host
  end.

Section Authority.
(** [http::uri::Authority::from_str]. *)
Context {Authority : Type} (parse_authority : string -> option Authority).

Definition authority (host : string) (port : Z) : Result Authority TunnelError :=
  let host := unbracket host in
  let valid :=
    negb (is_empty host) && (str_len host <=? 253) && negb (port =? 0)
    && (is_Some_b (parse_ip host) || all_chars name_char host) in
  if negb valid then Err (Configuration "invalid HTTP/3 tunnel host or port") else
  let value :=
    match parse_ip host with
    | Some (V6 _ _ _ _ _ _ _ _) => "[" ++ host ++ "]:" ++ show port
    | _ => host ++ ":" ++ show port
    end in
  ok_or (parse_authority value) (Configuration "invalid CONNECT authority").

Definition http3_validate (s : Http3TunnelSpec) : Result unit TunnelError :=
  let? _ := authority (h3_host s) (h3_port s) in
  if (h3_request_timeout s =? 0) || (from_secs 300 <? h3_request_timeout s)
  then Err (Configuration "HTTP/3 request timeout must be within (0, 300] seconds")
  else Ok tt.

End Authority.

(** ** The header carries the credentials *)

(** What a proxy does with the header: strip the scheme, decode, and cut at
    the first colon. *)
Definition proxy_reads (b64_decode : string -> option (list Z)) (v : string)
  : option (string * string) :=
  if String.prefix "Basic " v
  then match b64_decode (String.substring 6 (String.length v - 6) v) with
       | Some l => split_once ":" (text_of l)
       | None => None
       end
  else None.

Lemma substring_all s : String.substring 0 (String.length s) s = s.
Proof. induction s as [|c s IH]; simpl; congruence. Qed.

Lemma prefix_basic e : String.prefix "Basic " ("Basic " ++ e) = true.
Proof. by destruct e. Qed.

Lemma substring_basic e :
  String.substring 6 (String.length ("Basic " ++ e) - 6) ("Basic " ++ e) = e.
Proof.
  replace (String.length ("Basic " ++ e) - 6)%nat with (String.length e) by (simpl; lia).
  apply (substring_all e).
Qed.

Lemma bytes_of_u8 s : Forall u8 (bytes_of s).
Proof.
  induction s as [|c s IH]; simpl; constructor; [| done]. unfold u8, in_uint, byte_of.
  pose proof (N_ascii_bounded c). change (2 ^ 8) with 256. lia.
Qed.

Lemma credentials_no_colon u p c : http3_credentials_new u p = Ok c -> no_char ":" (username c) = true.
Proof.
  unfold http3_credentials_new, contains_char. destruct (_ || _) eqn:E; [done |]. intros [= <-]. simpl.
  apply orb_false_iff in E as [E _]. apply orb_false_iff in E as [_ E]. by apply negb_false_iff in E.
Qed.

(** Whatever credentials are accepted, a proxy that decodes the
    authorization header recovers exactly that user name and password, and
    the header is marked sensitive. *)
Theorem header_roundtrip b64_encode b64_decode (u p : string) (c : Http3ProxyCredentials) :
  Base64Laws b64_encode b64_decode -> http3_credentials_new u p = Ok c ->
  proxy_reads b64_decode (value (header b64_encode c)) = Some (u, p)
  /\ sensitive (header b64_encode c) = true.
Proof.
  intros HL Hc. pose proof (credentials_no_colon _ _ _ Hc) as Hn. split; [| done].
  unfold proxy_reads, header. cbn [value]. rewrite prefix_basic, substring_basic.
  rewrite b64_roundtrip by apply bytes_of_u8. rewrite text_of_bytes.
  unfold http3_credentials_new in Hc. case_match; [done |]. simplify_eq/=. by apply split_once_app.
Qed.

Lemma header_roundtrip_witness :
  proxy_reads hex_decode (value (header hex_encode {| username := "scryer"; password := "a:b" |}))
  = Some ("scryer", "a:b")
  /\ sensitive (header hex_encode {| username := "scryer"; password := "a:b" |}) = true.
Proof. apply (header_roundtrip hex_encode hex_decode "scryer" "a:b"); [apply hex_laws | reflexivity]. Defined.

(** ** The authority carries nothing but a host and a port *)

Definition authority_char (c : ascii) : bool :=
  is_ascii_alphanumeric c || existsb (Ascii.eqb c) ["."; "_"; "-"; ":"; "["; "]"]%char.

Lemma all_chars_app f a b : all_chars f (a ++ b) = all_chars f a && all_chars f b.
Proof. induction a as [|c a IH]; simpl; [done |]. by rewrite IH, andb_assoc. Qed.

Lemma all_chars_impl (f g : ascii -> bool) s :
  (forall c, f c = true -> g c = true) -> all_chars f s = true -> all_chars g s = true.
Proof.
  intros Hfg. induction s as [|c s IH]; simpl; [done |].
  intros [Hc Hs]%andb_true_iff. by rewrite Hfg, IH.
Qed.

Lemma to_digit_alphanumeric radix c d : radix <= 36 -> to_digit radix c = Some d -> is_ascii_alphanumeric c = true.
Proof.
  intros _. unfold to_digit, is_ascii_alphanumeric, within. repeat case_match; try done; intros _;
  repeat match goal with H : _ && _ = true |- _ => rewrite H end; rewrite ?orb_true_r; done.
Qed.

Lemma name_char_authority c : name_char c = true -> authority_char c = true.
Proof.
  unfold name_char, authority_char. simpl. intros H. apply orb_true_iff in H as [-> | H]; [done |].
  apply orb_true_iff. right. repeat (apply orb_true_iff in H as [-> | H]; [by rewrite ?orb_true_r |]). done.
Qed.

Notation safe := (all_chars authority_char).

Lemma authority_char_digit radix c d : radix <= 36 -> to_digit radix c = Some d -> authority_char c = true.
Proof. intros Hr H. unfold authority_char. by erewrite to_digit_alphanumeric. Qed.

Lemma read_digits_safe radix s ds r :
  radix <= 36 -> read_digits radix s = (ds, r) -> safe r = true -> safe s = true.
Proof.
  intros Hr. revert ds. induction s as [|c s IH]; intros ds; simpl; [by intros [= <- <-] |].
  destruct (to_digit radix c) eqn:E; [| by intros [= <- <-]].
  destruct (read_digits radix s) as [ds' r'] eqn:Er. intros [= <- <-] Hs.
  by rewrite (authority_char_digit _ _ _ Hr E), (IH _ eq_refl Hs).
Qed.

Lemma read_number_safe radix k max allow s v r :
  radix <= 36 -> read_number radix k max allow s = Some (v, r) -> safe r = true -> safe s = true.
Proof.
  intros Hr. unfold read_number. destruct (read_digits radix s) as [ds r'] eqn:E.
  repeat case_match; intros; simplify_eq. by eapply read_digits_safe.
Qed.

Lemma read_given_char_safe c s u r :
  authority_char c = true -> read_given_char c s = Some (u, r) -> safe r = true -> safe s = true.
Proof.
  intros Hc. unfold read_given_char. destruct s as [|d s]; simpl; [done |].
  destruct (Ascii.eqb_spec c d) as [<- |]; [| done]. intros [= <- <-] Hr. by rewrite Hc, Hr.
Qed.

Lemma read_separator_safe {A} c i (p : Parser A) s v r :
  authority_char c = true -> (forall s v r, p s = Some (v, r) -> safe r = true -> safe s = true) ->
  read_separator c i p s = Some (v, r) -> safe r = true -> safe s = true.
Proof.
  intros Hc Hp. destruct i; simpl; [apply Hp |].
  destruct (read_given_char c s) as [[u s']|] eqn:E; [| done]. intros H Hr.
  eapply read_given_char_safe; [exact Hc | exact E | by eapply Hp].
Qed.

Lemma read_octet_safe i s v r : read_octet i s = Some (v, r) -> safe r = true -> safe s = true.
Proof.
  apply read_separator_safe; [reflexivity |]. intros s' v' r'. by apply read_number_safe.
Qed.

Lemma read_ipv4_safe s v r : read_ipv4_addr s = Some (v, r) -> safe r = true -> safe s = true.
Proof. unfold read_ipv4_addr. repeat case_match; intros; simplify_eq; eauto 10 using read_octet_safe. Qed.

Lemma read_groups_safe todo : forall i s gs v4 r,
  read_groups todo i s = (gs, v4, r) -> safe r = true -> safe s = true.
Proof.
  induction todo as [|todo IH]; intros i s gs v4 r; [by intros [= <- <- <-] |].
  cbn [read_groups].
  destruct (if (1 <? S todo)%nat then read_separator ":" i read_ipv4_addr s else None)
    as [[[[[a b] c] d] r']|] eqn:E.
  - case_match; [| done]. intros [= <- <- <-].
    by eapply (read_separator_safe ":"); [reflexivity | apply read_ipv4_safe | exact E].
  - destruct (read_separator ":" i (read_number 16 4 65535 true) s) as [[g r']|] eqn:E6;
      [| by intros [= <- <- <-]].
    destruct (read_groups todo (S i) r') as [[gs' v4'] r''] eqn:Er. intros [= <- <- <-] Hr.
    eapply (read_separator_safe ":"); [reflexivity | | exact E6 | by eapply IH].
    intros s' v' t. by apply read_number_safe.
Qed.

Lemma parse_ip_safe s ip : parse_ip s = Some ip -> safe s = true.
Proof.
  unfold parse_ip, read_ip_addr. destruct (read_ipv4_addr s) as [[[[[a b] c] d] r]|] eqn:E.
  - destruct r; [| done]. intros _. by eapply read_ipv4_safe.
  - unfold read_ipv6_addr. destruct (read_groups 8 0 s) as [[gs v4] s1] eqn:Eg. intros H.
    eapply read_groups_safe; [exact Eg |]. repeat case_match; simplify_eq; try done.
    repeat match goal with
    | H : read_given_char _ _ = _ |- safe _ = true =>
        eapply (read_given_char_safe ":"); [reflexivity | exact H |]; clear H
    end.
    by match goal with H : read_groups _ _ _ = _ |- _ => eapply read_groups_safe; [exact H |] end.
Qed.

Lemma show_safe n : safe (show n) = true.
Proof.
  unfold show, show_radix. set (fuel := S _).
  change (digits fuel 10 n "") with (digits fuel 10 n (digit_text [])). rewrite digits_text.
  pose proof (digit_list_digits 10 ltac:(lia) fuel n [] ltac:(constructor)) as H.
  induction H as [|d ds Hd _ IH]; simpl; [done |]. unfold is_digit in Hd.
  rewrite (authority_char_digit 10 _ d), IH by (lia || by apply dec_roundtrip). done.
Qed.

Definition authority_text (host : string) (port : Z) : string :=
  match parse_ip (unbracket host) with
  | Some (V6 _ _ _ _ _ _ _ _) => "[" ++ unbracket host ++ "]:" ++ show port
  | _ => unbracket host ++ ":" ++ show port
  end.

Lemma authority_ok {Authority} (parse_authority : string -> option Authority) host port a :
  authority parse_authority host port = Ok a ->
  parse_authority (authority_text host port) = Some a /\ port <> 0
  /\ unbracket host <> "" /\ str_len (unbracket host) <= 253 /\ safe (unbracket host) = true.
Proof.
  unfold authority, authority_text. set (h := unbracket host).
  destruct (is_empty h) eqn:E0; [done |]. destruct (Z.leb_spec (str_len h) 253); [| done].
  destruct (Z.eqb_spec port 0); [done |]. simpl.
  assert (Hs : is_Some_b (parse_ip h) || all_chars name_char h = true -> safe h = true).
  { intros [H1 | H1]%orb_true_iff.
    - destruct (parse_ip h) eqn:Ep; [by eapply parse_ip_safe | done].
    - by eapply all_chars_impl; [apply name_char_authority |]. }
  destruct (_ || _) eqn:Ev; [| done]. simpl. unfold ok_or.
  destruct (parse_authority _) eqn:Ea; [| done]. intros [= <-].
  split_and!; [congruence | done | by intros -> | done | by apply Hs].
Qed.

(** What a CONNECT request is sent to is the requested host and port and
    nothing else: the text handed to the authority parser consists of
    letters, digits and [._-:[]] only, so no user info, path, space or line
    break travels in it; it ends with the requested port, and an IPv6 literal
    is bracketed whether or not the caller bracketed it. *)
Theorem authority_injection_free {Authority} (parse_authority : string -> option Authority)
    (host : string) (port : Z) (a : Authority) :
  authority parse_authority host port = Ok a ->
  parse_authority (authority_text host port) = Some a
  /\ all_chars authority_char (authority_text host port) = true
  /\ (exists h, authority_text host port = h ++ ":" ++ show port
       /\ (is_ipv6 <$> parse_ip (unbracket host) = Some true -> h = "[" ++ unbracket host ++ "]")).
Proof.
  intros H. apply authority_ok in H as (Ha & _ & _ & _ & Hs). split; [done |].
  unfold authority_text.
  destruct (parse_ip (unbracket host)) as [[b0 b1 b2 b3 | s0 s1 s2 s3 s4 s5 s6 s7]|]; split;
    rewrite ?all_chars_app, ?Hs, ?show_safe; try done; eexists; split; try done.
  change ("[" ++ unbracket host ++ "]:" ++ show port)
    with ("[" ++ unbracket host ++ "]" ++ ":" ++ show port).
  by rewrite <- !append_assoc.
Qed.

Lemma authority_injection_free_witness :
  authority_text "2001:db8::1" 443 = "[2001:db8::1]:443"
  /\ all_chars authority_char (authority_text "2001:db8::1" 443) = true.
Proof.
  split; [reflexivity |]. apply (authority_injection_free (fun s => Some s) "2001:db8::1" 443 "[2001:db8::1]:443").
  vm_compute. reflexivity.
Defined.
