(* ===== verification/Http3Stream.v ===== *)
(** * A tunnelled connection over HTTP/3 ([src/http3/stream.rs])

    The write half hands commands to a writer task through a channel of one
    slot; a flush or a shutdown waits for the task's acknowledgement.  The
    read half turns the peer's DATA frames into bytes.  h3's send and receive
    halves are the environment: what the send half took is [wire] and [fin],
    what the receive half will yield is [incoming].  [accepted], [received]
    and [delivered] are histories, kept for the statements. *)

From Stdlib Require Import ZArith Lia String Ascii.
From stdpp Require Import gmap strings numbers prelude.
From S2P Require Import Prelude.

Open Scope string_scope.
Open Scope Z_scope.

Definition WRITE_CHUNK : nat := Z.to_nat (64 * 1024).

Lemma write_chunk_pos : (0 < WRITE_CHUNK)%nat.
Proof. unfold WRITE_CHUNK. lia. Qed.

#[local] Opaque WRITE_CHUNK.

Definition broken : IoError := (ConnectionReset, "HTTP/3 tunnel stream closed or reset").
Definition write_closed : IoError := (BrokenPipe, "HTTP/3 write side is closed").
Definition trailers_refused : IoError :=
  (InvalidData, "trailers are not permitted in a CONNECT tunnel").

(** ** The write half *)

Inductive Command : Type :=
| Data (bytes : list Z)
| Flush
| Finish.

(** The writer task: waiting for a command, at work on one, or over. *)
Inductive Writer : Type := Receiving | Working (c : Command) | Over.

(** The oneshot a flush or a shutdown waits on: unanswered, answered, or
    dropped by the task. *)
Inductive Ack : Type := AckWaiting | AckSent | AckDropped.

#[export] Instance Ack_eq_dec : EqDecision Ack.
Proof. solve_decision. Defined.

Record WriteHalf : Type := {
  acknowledgment : option Ack;
  finishing : bool;
  finished : bool;
  queue : option Command;
  writer : Writer;
  session_stopped : bool;
  accepted : list Z;
  wire : list Z;
  fin : bool;
  cancelled : bool
}.

Definition write_new : WriteHalf :=
  {| acknowledgment := None; finishing := false; finished := false; queue := None; writer := Receiving;
     session_stopped := false; accepted := []; wire := []; fin := false;
     cancelled := false |}.

(** [reserve]: the channel's one slot, once it is free. *)
Definition reserve (w : WriteHalf) : Poll (Result unit IoError) :=
  if session_stopped w then Ready (Err broken)
  else match writer w, queue w with
       | Over, _ => Ready (Err broken)
       | _, Some _ => Pending
       | _, None => Ready (Ok tt)
       end.

Definition set_ack (a : option Ack) (w : WriteHalf) : WriteHalf :=
  {| acknowledgment := a; finishing := finishing w; finished := finished w; queue := queue w;
     writer := writer w; session_stopped := session_stopped w; accepted := accepted w; wire := wire w;
     fin := fin w; cancelled := cancelled w |}.

Definition set_finished (w : WriteHalf) : WriteHalf :=
  {| acknowledgment := acknowledgment w; finishing := finishing w; finished := finished w || finishing w;
     queue := queue w; writer := writer w; session_stopped := session_stopped w; accepted := accepted w;
     wire := wire w; fin := fin w; cancelled := cancelled w |}.

(** [permit.send] of a [Flush] or a [Finish], and the oneshot kept. *)
Definition send_mark (finish : bool) (w : WriteHalf) : WriteHalf :=
  {| acknowledgment := Some AckWaiting; finishing := finishing w || finish; finished := finished w;
     queue := Some (if finish then Finish else Flush); writer := writer w;
     session_stopped := session_stopped w; accepted := accepted w; wire := wire w; fin := fin w; cancelled := cancelled w |}.

Definition send_data (bytes : list Z) (w : WriteHalf) : WriteHalf :=
  {| acknowledgment := acknowledgment w; finishing := finishing w; finished := finished w;
     queue := Some (Data bytes); writer := writer w; session_stopped := session_stopped w;
     accepted := accepted w ++ bytes; wire := wire w; fin := fin w; cancelled := cancelled w |}.

(** What a poll of the kept oneshot does. *)
Definition poll_kept (finish : bool) (again : WriteHalf -> Poll (Result unit IoError) * WriteHalf) (w : WriteHalf)
  : Poll (Result unit IoError) * WriteHalf :=
  match acknowledgment w with
  | None | Some AckWaiting => (Pending, w)
  | Some AckDropped => (Ready (Err broken), set_ack None w)
  | Some AckSent =>
      let w := set_finished (set_ack None w) in
      if finish && negb (finished w) then again w else (Ready (Ok tt), w)
  end.

(** [poll_ack]; the recursion, a shutdown behind a completed flush, goes one
    deep. *)
Fixpoint poll_ack (fuel : nat) (finish : bool) (w : WriteHalf) : Poll (Result unit IoError) * WriteHalf :=
  match fuel with
  | O => (Pending, w)
  | S fuel =>
      if session_stopped w then (Ready (Err broken), w)
      else if finished w then (Ready (Ok tt), w)
      else match acknowledgment w with
           | Some _ => poll_kept finish (poll_ack fuel true) w
           | None =>
               match reserve w with
               | Pending => (Pending, w)
               | Ready (Err e) => (Ready (Err e), w)
               | Ready (Ok _) => poll_kept finish (poll_ack fuel true) (send_mark finish w)
               end
           end
  end.

Definition ACK_FUEL : nat := 2.

Definition poll_flush (w : WriteHalf) : Poll (Result unit IoError) * WriteHalf := poll_ack ACK_FUEL false w.
Definition poll_shutdown (w : WriteHalf) : Poll (Result unit IoError) * WriteHalf := poll_ack ACK_FUEL true w.

Definition poll_write (bytes : list Z) (w : WriteHalf) : Poll (Result nat IoError) * WriteHalf :=
  if finishing w || finished w then (Ready (Err write_closed), w)
  else
    let '(flushed, w) :=
      match acknowledgment w with
      | Some _ => poll_ack ACK_FUEL false w
      | None => (Ready (Ok tt), w)
      end in
    match flushed with
    | Pending => (Pending, w)
    | Ready (Err e) => (Ready (Err e), w)
    | Ready (Ok _) =>
        if bool_decide (bytes = []) then (Ready (Ok 0%nat), w)
        else match reserve w with
             | Pending => (Pending, w)
             | Ready (Err e) => (Ready (Err e), w)
             | Ready (Ok _) =>
                 let chunk := take WRITE_CHUNK bytes in
                 (Ready (Ok (length chunk)), send_data chunk w)
             end
    end.

(** ** The writer task *)

(** The task ends: it, and whatever it held or had queued, is dropped, and
    [SenderGuard] cancels a stream that was not finished. *)
Definition end_writer (w : WriteHalf) : WriteHalf :=
  {| acknowledgment := match acknowledgment w with Some AckWaiting => Some AckDropped | a => a end;
     finishing := finishing w; finished := finished w; queue := None; writer := Over;
     session_stopped := session_stopped w; accepted := accepted w; wire := wire w; fin := fin w; cancelled := negb (fin w) |}.

Definition set_stopped (w : WriteHalf) : WriteHalf :=
  {| acknowledgment := acknowledgment w; finishing := finishing w; finished := finished w; queue := queue w;
     writer := writer w; session_stopped := true; accepted := accepted w; wire := wire w; fin := fin w; cancelled := cancelled w |}.

(** [receiver.recv()]. *)
Definition take_command (w : WriteHalf) : WriteHalf :=
  match writer w, queue w with
  | Receiving, Some c =>
      {| acknowledgment := acknowledgment w; finishing := finishing w; finished := finished w; queue := None;
         writer := Working c; session_stopped := session_stopped w; accepted := accepted w; wire := wire w;
         fin := fin w; cancelled := cancelled w |}
  | _, _ => w
  end.

(** The command at hand succeeds: the bytes are handed to the stream, the
    flush is acknowledged, or the stream is finished, acknowledged, and the
    loop left. *)
Definition complete (w : WriteHalf) : WriteHalf :=
  match writer w with
  | Working (Data bytes) =>
      {| acknowledgment := acknowledgment w; finishing := finishing w; finished := finished w;
         queue := queue w; writer := Receiving; session_stopped := session_stopped w; accepted := accepted w;
         wire := wire w ++ bytes; fin := fin w; cancelled := cancelled w |}
  | Working Flush =>
      {| acknowledgment := Some AckSent; finishing := finishing w; finished := finished w;
         queue := queue w; writer := Receiving; session_stopped := session_stopped w; accepted := accepted w;
         wire := wire w; fin := fin w; cancelled := cancelled w |}
  | Working Finish =>
      end_writer
      {| acknowledgment := Some AckSent; finishing := finishing w; finished := finished w;
         queue := queue w; writer := Receiving; session_stopped := session_stopped w; accepted := accepted w;
         wire := wire w; fin := true; cancelled := cancelled w |}
  | _ => w
  end.

(** Everything that can happen to a write half: its owner's calls in any
    order, the task's progress, its end for any reason (an error, the
    connection closing, an abort), and the session stopping. *)
Inductive write_step : WriteHalf -> WriteHalf -> Prop :=
| ws_write bytes w : write_step w (snd (poll_write bytes w))
| ws_flush w : write_step w (snd (poll_flush w))
| ws_shutdown w : write_step w (snd (poll_shutdown w))
| ws_take w : write_step w (take_command w)
| ws_complete w : write_step w (complete w)
| ws_end w : write_step w (end_writer w)
| ws_stop w : write_step w (set_stopped w).

(** ** The invariant *)

Definition cmd_bytes (c : Command) : list Z := match c with Data bytes => bytes | _ => [] end.

Definition working_bytes (r : Writer) : list Z := match r with Working c => cmd_bytes c | _ => [] end.

(** Bytes accepted and not yet handed over. *)
Definition pending (w : WriteHalf) : list Z :=
  (working_bytes (writer w) ++ match queue w with Some c => cmd_bytes c | None => [] end)%list.

(** The command a waiting acknowledgement belongs to. *)
Definition mark (w : WriteHalf) : Command := if finishing w then Finish else Flush.

Definition is_data (c : Command) : Prop := exists bytes, c = Data bytes /\ (0 < length bytes <= WRITE_CHUNK)%nat.

(** Where the mark is while its acknowledgement is awaited: last in line. *)
Definition marked (w : WriteHalf) : Prop :=
  (queue w = Some (mark w) /\ forall c, writer w = Working c -> is_data c)
  \/ (queue w = None /\ writer w = Working (mark w)).

Definition unmarked (w : WriteHalf) : Prop :=
  (forall c, queue w = Some c -> is_data c) /\ forall c, writer w = Working c -> is_data c.

Record write_inv (w : WriteHalf) : Prop := {
  wi_prefix : wire w `prefix_of` accepted w;
  wi_bytes : writer w <> Over -> (wire w ++ pending w)%list = accepted w;
  wi_over : writer w = Over -> queue w = None /\ cancelled w = negb (fin w);
  wi_alive : writer w <> Over -> fin w = false;
  wi_waiting : acknowledgment w = Some AckWaiting -> writer w <> Over /\ marked w;
  wi_plain : acknowledgment w <> Some AckWaiting -> unmarked w;
  wi_sent : acknowledgment w = Some AckSent ->
    wire w = accepted w /\ queue w = None /\ (forall c, writer w <> Working c) /\ (finishing w = true -> fin w = true);
  wi_fin : fin w = true -> wire w = accepted w /\ finishing w = true;
  wi_finished : finished w = true -> fin w = true;
  wi_finishing : finishing w = true -> acknowledgment w = Some AckWaiting \/ writer w = Over
}.

Lemma write_new_inv : write_inv write_new.
Proof. split; simpl; try done. Qed.

Lemma prefix_split (l k m : list Z) : (l ++ k)%list = m -> l `prefix_of` m.
Proof. intros <-. by apply prefix_app_r. Qed.

Lemma set_stopped_inv w : write_inv w -> write_inv (set_stopped w).
Proof. intros []. by split. Qed.

Lemma end_writer_inv w : write_inv w -> write_inv (end_writer w).
Proof.
  intros [H1 H2 H3 H4 H5 H6 H7 H8 H9 H10]. split; simpl; try done.
  - destruct (acknowledgment w) as [[]|]; done.
  - destruct (acknowledgment w) as [[]|]; try done. intros _. destruct H7 as (? & ? & ? & ?); [done |]. split_and!; done.
  - intros _. by right.
Qed.

Lemma send_data_inv bytes w :
  write_inv w -> reserve w = Ready (Ok tt) -> acknowledgment w = None -> finishing w = false ->
  (0 < length bytes <= WRITE_CHUNK)%nat -> write_inv (send_data bytes w).
Proof.
  intros [H1 H2 H3 H4 H5 H6 H7 H8 H9 H10] Hres Ha Hf Hb. unfold reserve in Hres.
  destruct (session_stopped w); [done |].
  assert (Hq : queue w = None /\ writer w <> Over).
  { destruct (writer w), (queue w); done. }
  destruct Hq as [Hq Hwr]. specialize (H2 Hwr). unfold pending in H2. rewrite Hq, app_nil_r in H2.
  split; simpl; try done.
  - etransitivity; [by eapply prefix_split |]. by apply prefix_app_r.
  - intros _. unfold pending. simpl. by rewrite app_assoc, H2.
  - by rewrite Ha.
  - intros _. split; [| by apply H6; rewrite Ha]. intros c [= <-]. by exists bytes.
  - by rewrite Ha.
  - intros Hfin. specialize (H4 Hwr). congruence.
Qed.

Lemma send_mark_inv finish w :
  write_inv w -> reserve w = Ready (Ok tt) -> acknowledgment w = None -> write_inv (send_mark finish w).
Proof.
  intros [H1 H2 H3 H4 H5 H6 H7 H8 H9 H10] Hres Ha. unfold reserve in Hres. destruct (session_stopped w); [done |].
  assert (Hq : queue w = None /\ writer w <> Over).
  { destruct (writer w), (queue w); done. }
  destruct Hq as [Hq Hwr]. assert (Hf : finishing w = false).
  { destruct (finishing w) eqn:E; [| done]. destruct H10 as [H10 | H10]; [done | congruence | done]. }
  specialize (H2 Hwr). unfold pending in H2. rewrite Hq, app_nil_r in H2.
  split; simpl; try done.
  - intros _. unfold pending. simpl. destruct finish; simpl; by rewrite app_nil_r.
  - intros _. split; [done |]. left. unfold mark. simpl. rewrite Hf. split; [by destruct finish |].
    apply H6. by rewrite Ha.
  - intros Hfin. specialize (H4 Hwr). congruence.
  - intros _. by left.
Qed.

Lemma ack_cleared_inv w :
  write_inv w -> acknowledgment w <> Some AckWaiting -> acknowledgment w <> Some AckSent ->
  write_inv (set_ack None w).
Proof.
  intros [H1 H2 H3 H4 H5 H6 H7 H8 H9 H10] Ha Ha'. split; simpl; try done; [by intros _; apply H6 |].
  intros Hf. destruct (H10 Hf); [done | by right].
Qed.

Lemma ack_sent_inv w :
  write_inv w -> acknowledgment w = Some AckSent -> write_inv (set_finished (set_ack None w)).
Proof.
  intros [H1 H2 H3 H4 H5 H6 H7 H8 H9 H10] Ha. destruct (H7 Ha) as (S1 & S2 & S3 & S4).
  split; simpl; try done.
  - intros _. apply H6. by rewrite Ha.
  - intros [Hf | Hf]%orb_true_iff; auto.
  - intros Hf. destruct (H10 Hf) as [E | E]; [congruence | by right].
Qed.

(** What a poll of an acknowledgement guarantees. *)
Definition ack_post (finish : bool) (w : WriteHalf) (r : Poll (Result unit IoError)) (w' : WriteHalf) : Prop :=
  write_inv w' /\ accepted w' = accepted w
  /\ (r = Ready (Ok tt) ->
        wire w' = accepted w' /\ (finish = true -> fin w' = true)
        /\ (finished w = false -> acknowledgment w' = None) /\ (finish = false -> finishing w' = finishing w)).

Lemma poll_kept_post finish again w r w' :
  write_inv w -> (forall w0 r0 w1, write_inv w0 -> again w0 = (r0, w1) -> ack_post true w0 r0 w1) ->
  poll_kept finish again w = (r, w') -> ack_post finish w r w'.
Proof.
  intros Hw Hagain. unfold poll_kept. destruct (acknowledgment w) as [[]|] eqn:Ea.
  - intros [= <- <-]. split_and!; done.
  - pose proof (ack_sent_inv w Hw Ea) as Hw1. destruct (wi_sent w Hw Ea) as (S1 & _).
    destruct (finish && negb (finished _)) eqn:Ef.
    + intros E. destruct (Hagain _ _ _ Hw1 E) as (A1 & A2 & A3). split_and!; [done | by rewrite A2 |].
      intros Hr. destruct (A3 Hr) as (B1 & B2 & B3 & B4). apply andb_true_iff in Ef as [-> Ef].
      split_and!; [done | by intros _; apply B2 | | done].
      intros _. apply B3. by apply negb_true_iff in Ef.
    + intros [= <- <-]. split_and!; [done | done |]. intros _. split_and!; try done.
      intros ->. apply (wi_finished _ Hw1). by apply negb_false_iff in Ef.
  - intros [= <- <-]. split_and!; [| done..]. by apply ack_cleared_inv; [| rewrite Ea..].
  - intros [= <- <-]. split_and!; done.
Qed.

Lemma poll_ack_post fuel : forall finish w r w',
  write_inv w -> poll_ack fuel finish w = (r, w') -> ack_post finish w r w'.
Proof.
  induction fuel as [|fuel IH]; intros finish w r w' Hw; simpl; [intros [= <- <-]; split_and!; done |].
  destruct (session_stopped w) eqn:Es; [intros [= <- <-]; split_and!; done |].
  destruct (finished w) eqn:Ef.
  { intros [= <- <-]. split_and!; [done.. |]. intros _. pose proof (wi_finished w Hw Ef) as Hfin.
    split_and!; try done; [by apply wi_fin | congruence]. }
  assert (Hagain : forall w0 r0 w1, write_inv w0 -> poll_ack fuel true w0 = (r0, w1) -> ack_post true w0 r0 w1)
    by eauto.
  destruct (acknowledgment w) eqn:Ea.
  - by apply poll_kept_post.
  - destruct (reserve w) as [[[] | e] |] eqn:Er; [| intros [= <- <-]; split_and!; done..].
    intros [= <- <-]. split_and!; [by apply send_mark_inv | done | done].
Qed.

Lemma poll_write_post bytes w r w' :
  write_inv w -> poll_write bytes w = (r, w') ->
  write_inv w'
  /\ match r with
     | Ready (Ok n) => n = Nat.min WRITE_CHUNK (length bytes) /\ accepted w' = (accepted w ++ take n bytes)%list
     | _ => accepted w' = accepted w
     end.
Proof.
  intros Hw. unfold poll_write. destruct (finishing w || finished w) eqn:Ef; [intros [= <- <-]; done |].
  apply orb_false_iff in Ef as [Ef Ef'].
  destruct (match acknowledgment w with Some _ => _ | None => _ end) as [flushed w1] eqn:E1.
  assert (H1 : write_inv w1 /\ accepted w1 = accepted w
    /\ (flushed = Ready (Ok tt) -> acknowledgment w1 = None /\ finishing w1 = false)).
  { destruct (acknowledgment w) eqn:Ea; [| by injection E1 as <- <-].
    apply poll_ack_post in E1 as (A1 & A2 & A3); [| done]. split_and!; [done | done |].
    intros Hr. destruct (A3 Hr) as (_ & _ & B3 & B4). split; [by apply B3 | by rewrite B4]. }
  destruct H1 as (Hw1 & Hacc & Hok).
  destruct flushed as [[[] | e] |]; [| intros [= <- <-]; done..].
  destruct (Hok eq_refl) as [Ha Hf]. case_bool_decide as Hb.
  { intros [= <- <-]. subst bytes. simpl. rewrite Nat.min_0_r, app_nil_r. done. }
  destruct (reserve w1) as [[[] | e] |] eqn:Er; [| intros [= <- <-]; done..].
  intros [= <- <-]. rewrite length_take. split; [| simpl; rewrite Hacc; split; [lia |]].
  - apply send_data_inv; try done. rewrite length_take. destruct bytes; [done |].
    pose proof write_chunk_pos. simpl. lia.
  - f_equal. destruct (decide (WRITE_CHUNK <= length bytes)%nat); [by rewrite Nat.min_l |].
    rewrite Nat.min_r by lia. rewrite !take_ge by lia. done.
Qed.

Lemma take_command_inv w : write_inv w -> write_inv (take_command w).
Proof.
  intros Hw. unfold take_command. destruct (writer w) eqn:Ew; [| done..]. destruct (queue w) as [c|] eqn:Eq; [| done].
  destruct Hw as [H1 H2 H3 H4 H5 H6 H7 H8 H9 H10]. split; simpl; try done.
  - intros _. rewrite <- H2 by congruence. unfold pending. simpl. rewrite Ew, Eq, app_nil_r. done.
  - intros _. apply H4. congruence.
  - intros Ha. split; [done |]. right. simpl. split; [done |]. destruct (H5 Ha) as [_ [[Hq _] | [Hq _]]].
    + unfold mark in *. simpl. congruence.
    + congruence.
  - intros Ha. destruct (H6 Ha) as [U1 U2]. split; [done |]. simpl. intros c' [= <-]. by apply U1.
  - intros Ha. destruct (H7 Ha) as (_ & Hq & _). congruence.
  - intros Hf. destruct (H10 Hf) as [Ha | Ho]; [by left | congruence].
Qed.

(** The mark, once at work, is alone: everything accepted is on the wire. *)
Lemma mark_alone w c :
  write_inv w -> writer w = Working c -> ~ is_data c ->
  acknowledgment w = Some AckWaiting /\ queue w = None /\ c = mark w /\ wire w = accepted w.
Proof.
  intros [H1 H2 H3 H4 H5 H6 H7 H8 H9 H10] Ew Hc. destruct (decide (acknowledgment w = Some AckWaiting)) as [Ha | Ha].
  - destruct (H5 Ha) as [_ [[_ Hd] | [Hq Hm]]]; [by destruct Hc; apply Hd |].
    assert (Hcm : c = mark w) by congruence. split_and!; try done.
    rewrite <- H2 by congruence. unfold pending. rewrite Ew, Hq, Hcm. unfold mark.
    by destruct (finishing w); rewrite app_nil_r.
  - destruct (H6 Ha) as [_ Hd]. by destruct Hc; apply Hd.
Qed.

Lemma complete_data_inv bytes w : write_inv w -> writer w = Working (Data bytes) -> write_inv (complete w).
Proof.
  intros [H1 H2 H3 H4 H5 H6 H7 H8 H9 H10] Ew. unfold complete. rewrite Ew.
  assert (Hb : (wire w ++ bytes ++ match queue w with Some c => cmd_bytes c | None => [] end)%list = accepted w).
  { rewrite <- H2 by congruence. unfold pending. by rewrite Ew. }
  split; simpl; try done.
  - eapply prefix_split. rewrite <- app_assoc. exact Hb.
  - intros _. unfold pending. simpl. by rewrite <- app_assoc.
  - intros _. apply H4. congruence.
  - intros Ha. split; [done |]. destruct (H5 Ha) as [_ [[Hq Hd] | [Hq Hm]]].
    + left. simpl. done.
    + unfold mark in Hm. rewrite Ew in Hm. by destruct (finishing w).
  - intros Ha. destruct (H6 Ha) as [U1 _]. by split.
  - intros Ha. destruct (H7 Ha) as (_ & _ & Hn & _). by destruct (Hn (Data bytes)).
  - intros Hf. rewrite H4 in Hf; congruence.
  - intros Hf. destruct (H10 Hf) as [Ha | Ho]; [by left | congruence].
Qed.

Lemma complete_flush_inv w : write_inv w -> writer w = Working Flush -> write_inv (complete w).
Proof.
  intros Hw Ew. destruct (mark_alone w Flush Hw Ew ltac:(by intros (b & ? & _))) as (Ha & Hq & Hm & Hwire).
  destruct Hw as [H1 H2 H3 H4 H5 H6 H7 H8 H9 H10]. unfold complete. rewrite Ew.
  assert (Hf : finishing w = false) by (unfold mark in Hm; by destruct (finishing w)).
  split; simpl; rewrite ?Hf; try done.
  - intros _. unfold pending. simpl. by rewrite Hq, app_nil_r.
  - intros _. apply H4. congruence.
  - intros _. split; simpl; [by rewrite Hq | done].
  - intros Hfin. rewrite H4 in Hfin; congruence.
Qed.

Lemma complete_finish_inv w : write_inv w -> writer w = Working Finish -> write_inv (complete w).
Proof.
  intros Hw Ew. destruct (mark_alone w Finish Hw Ew ltac:(by intros (b & ? & _))) as (Ha & Hq & Hm & Hwire).
  destruct Hw as [H1 H2 H3 H4 H5 H6 H7 H8 H9 H10]. unfold complete. rewrite Ew.
  assert (Hf : finishing w = true) by (unfold mark in Hm; by destruct (finishing w)).
  split; simpl; rewrite ?Hf; try done. intros _. by right.
Qed.

Lemma complete_inv w : write_inv w -> write_inv (complete w).
Proof.
  intros Hw. destruct (writer w) as [| [bytes | |] |] eqn:Ew;
    eauto using complete_data_inv, complete_flush_inv, complete_finish_inv; unfold complete; by rewrite Ew.
Qed.

Lemma write_step_inv w w' : write_step w w' -> write_inv w -> write_inv w'.
Proof.
  intros [bytes w0 | w0 | w0 | w0 | w0 | w0 | w0] Hw.
  - destruct (poll_write bytes w0) as [r w1] eqn:E. by apply poll_write_post in E as [? _].
  - destruct (poll_flush w0) as [r w1] eqn:E. by apply poll_ack_post in E as [? _].
  - destruct (poll_shutdown w0) as [r w1] eqn:E. by apply poll_ack_post in E as [? _].
  - by apply take_command_inv.
  - by apply complete_inv.
  - by apply end_writer_inv.
  - by apply set_stopped_inv.
Qed.

Lemma write_reachable_inv w : rtc write_step write_new w -> write_inv w.
Proof. intros Hr. eapply rtc_preserves; [| exact Hr | apply write_new_inv]. intros x y. apply write_step_inv. Qed.

(** Data in flight is bounded by its two places. *)
Lemma pending_bound w : write_inv w -> (length (pending w) <= 2 * WRITE_CHUNK)%nat.
Proof.
  intros Hw. assert (Hc : forall c, is_data c \/ c = Flush \/ c = Finish -> (length (cmd_bytes c) <= WRITE_CHUNK)%nat).
  { intros c [(b & -> & Hb) | [-> | ->]]; simpl; lia. }
  assert (Hall : (forall c, queue w = Some c -> is_data c \/ c = Flush \/ c = Finish)
              /\ forall c, writer w = Working c -> is_data c \/ c = Flush \/ c = Finish).
  { destruct (decide (acknowledgment w = Some AckWaiting)) as [Ha | Ha].
    - destruct (wi_waiting w Hw Ha) as [_ [[Hq Hd] | [Hq Hm]]]; unfold mark in *.
      + split; [| naive_solver]. intros c. rewrite Hq. intros [= <-]. destruct (finishing w); naive_solver.
      + split; [by rewrite Hq |]. intros c. rewrite Hm. intros [= <-]. destruct (finishing w); naive_solver.
    - destruct (wi_plain w Hw Ha) as [U1 U2]. split; naive_solver. }
  destruct Hall as [A1 A2]. unfold pending, working_bytes. rewrite length_app.
  destruct (writer w) as [| c |], (queue w) as [c'|]; simpl;
    rewrite ?Nat.add_0_r; repeat match goal with
    | |- context [cmd_bytes ?c] => pose proof (Hc c ltac:(auto)); generalize dependent (length (cmd_bytes c)); intros
    end; lia.
Qed.

(** The fuel of [poll_ack] is enough: more changes nothing. *)
Lemma ack_fuel_enough n finish w : poll_ack (ACK_FUEL + n) finish w = poll_ack ACK_FUEL finish w.
Proof.
  assert (Hk : forall w0, poll_kept finish (poll_ack (S n) true) w0 = poll_kept finish (poll_ack 1 true) w0).
  { intros w0. unfold poll_kept. destruct (acknowledgment w0) as [[]|]; try done. }
  change (poll_ack (S (S n)) finish w = poll_ack 2 finish w).
  remember (S n) as m eqn:Em. remember 1%nat as k eqn:Ek in |- *. simpl. rewrite <- Ek in Hk.
  by rewrite !Hk.
Qed.

(** C6: a tunnelled connection writes what it accepted, in order.  Whatever
    its owner calls, however the writer task progresses or dies, what reached
    the send half is a prefix of the bytes [poll_write] accepted, at most two
    64 KiB chunks behind while the task lives; a write accepts at most one
    chunk and none after a shutdown has finished; a flush that reports success
    has handed everything over; a shutdown that reports success has, and has
    finished the stream after the last byte; a task that ends without
    finishing cancels the stream. *)
Theorem http3_writes_in_order (w : WriteHalf) :
  rtc write_step write_new w ->
  (wire w `prefix_of` accepted w
   /\ (writer w <> Over -> (length (accepted w) <= length (wire w) + 2 * WRITE_CHUNK)%nat)
   /\ (fin w = true -> wire w = accepted w)
   /\ (writer w = Over -> cancelled w = negb (fin w)))
  /\ (forall bytes r w', poll_write bytes w = (r, w') ->
        match r with
        | Ready (Ok n) => n = Nat.min WRITE_CHUNK (length bytes)
                          /\ accepted w' = (accepted w ++ take n bytes)%list /\ fin w = false
        | _ => accepted w' = accepted w
        end)
  /\ (forall w', poll_flush w = (Ready (Ok tt), w') -> accepted w' = accepted w /\ wire w' = accepted w)
  /\ (forall w', poll_shutdown w = (Ready (Ok tt), w') ->
        accepted w' = accepted w /\ wire w' = accepted w /\ fin w' = true).
Proof.
  intros Hr. pose proof (write_reachable_inv w Hr) as Hw. split_and!.
  - by apply Hw.
  - intros Ho. rewrite <- (wi_bytes w Hw Ho), length_app. pose proof (pending_bound w Hw). lia.
  - intros Hf. by apply (wi_fin w Hw).
  - intros Ho. by apply (wi_over w Hw).
  - intros bytes r w' E. pose proof E as E'. apply poll_write_post in E as [_ E]; [| done].
    destruct r as [[n | e] |]; try done. destruct E. split_and!; try done.
    destruct (fin w) eqn:Ef; [| done]. destruct (wi_fin w Hw Ef) as [_ Hfi].
    unfold poll_write in E'. by rewrite Hfi in E'.
  - intros w' E. apply poll_ack_post in E as (_ & A2 & A3); [| done].
    destruct (A3 eq_refl) as (B1 & _). split; congruence.
  - intros w' E. apply poll_ack_post in E as (_ & A2 & A3); [| done].
    destruct (A3 eq_refl) as (B1 & B2 & _). split_and!; [done | congruence | by apply B2].
Qed.

(** A write, taken and sent, a second one still queued, and a shutdown. *)
Definition sample_half : WriteHalf :=
  take_command (snd (poll_shutdown (complete (take_command (snd (poll_write [1; 2; 3] write_new)))))).

Lemma http3_writes_in_order_witness :
  exists w, rtc write_step write_new w /\ fst (poll_shutdown w) = Ready (Ok tt)
    /\ wire w = [1; 2; 3] /\ wire (snd (poll_shutdown w)) = [1; 2; 3].
Proof.
  exists (complete sample_half).
  assert (Hr : rtc write_step write_new (complete sample_half)).
  { unfold sample_half. do 6 (eapply rtc_r; [| constructor]). reflexivity. }
  assert (E : poll_shutdown (complete sample_half) = (Ready (Ok tt), snd (poll_shutdown (complete sample_half))))
    by reflexivity.
  split_and!; [exact Hr | done | reflexivity |].
  destruct (http3_writes_in_order (complete sample_half) Hr) as (_ & _ & _ & Hs).
  destruct (Hs _ E) as (_ & Hw & _). exact Hw.
Defined.

(** ** The read half *)

(** What [poll_recv_data] yields next, and what [poll_recv_trailers] will. *)
Inductive RecvEvent : Type := Chunk (bytes : list Z) | EndOfData | RecvFailed.
Inductive Trailing : Type := NoTrailers | SomeTrailers | TrailersFailed.

Record ReadHalf : Type := {
  buffered : list Z;
  trailers : bool;
  eof : bool;
  read_stopped : bool;
  incoming : list RecvEvent;
  trailing : option Trailing;
  arrived : list Z;
  ended : bool;
  delivered : list Z
}.

Definition read_new : ReadHalf :=
  {| buffered := []; trailers := false; eof := false; read_stopped := false; incoming := []; trailing := None;
     arrived := []; ended := false; delivered := [] |}.

Definition set_buffered (b : list Z) (rest : list RecvEvent) (r : ReadHalf) : ReadHalf :=
  {| buffered := b; trailers := trailers r; eof := eof r; read_stopped := read_stopped r; incoming := rest;
     trailing := trailing r; arrived := arrived r; ended := ended r; delivered := delivered r |}.

Definition set_trailers (rest : list RecvEvent) (r : ReadHalf) : ReadHalf :=
  {| buffered := buffered r; trailers := true; eof := eof r; read_stopped := read_stopped r; incoming := rest;
     trailing := trailing r; arrived := arrived r; ended := ended r; delivered := delivered r |}.

Definition set_eof (r : ReadHalf) : ReadHalf :=
  {| buffered := buffered r; trailers := trailers r; eof := true; read_stopped := read_stopped r;
     incoming := incoming r; trailing := trailing r; arrived := arrived r; ended := ended r;
     delivered := delivered r |}.

(** [put_slice] of the next [count] buffered bytes. *)
Definition deliver (count : nat) (r : ReadHalf) : ReadHalf :=
  {| buffered := drop count (buffered r); trailers := trailers r; eof := eof r; read_stopped := read_stopped r;
     incoming := incoming r; trailing := trailing r; arrived := arrived r; ended := ended r;
     delivered := delivered r ++ take count (buffered r) |}.

(** A read's answer; [Again] is a [Pending] that wakes its own task. *)
Inductive ReadPoll : Type := Got (r : Result (list Z) IoError) | Wait | Again.

Fixpoint read_loop (fuel : nat) (room : nat) (r : ReadHalf) : ReadPoll * ReadHalf :=
  match fuel with
  | O => (Again, r)
  | S fuel =>
      match buffered r with
      | _ :: _ =>
          let count := Nat.min room (length (buffered r)) in
          (Got (Ok (take count (buffered r))), deliver count r)
      | [] =>
          if trailers r then
            match trailing r with
            | None => (Wait, r)
            | Some TrailersFailed => (Got (Err broken), r)
            | Some SomeTrailers => (Got (Err trailers_refused), r)
            | Some NoTrailers => (Got (Ok []), set_eof r)
            end
          else
            match incoming r with
            | [] => (Wait, r)
            | RecvFailed :: rest => (Got (Err broken), set_buffered [] rest r)
            | Chunk bytes :: rest => read_loop fuel room (set_buffered bytes rest r)
            | EndOfData :: rest => read_loop fuel room (set_trailers rest r)
            end
      end
  end.

Definition READ_ROUNDS : nat := 32.

Definition poll_read (room : nat) (r : ReadHalf) : ReadPoll * ReadHalf :=
  if (room =? 0)%nat then (Got (Ok []), r)
  else if read_stopped r then (Got (Err broken), r)
  else if eof r then (Got (Ok []), r)
  else read_loop READ_ROUNDS room r.

(** A frame arrives; none after the last. *)
Definition arrive (e : RecvEvent) (r : ReadHalf) : ReadHalf :=
  if ended r then r else
  {| buffered := buffered r; trailers := trailers r; eof := eof r; read_stopped := read_stopped r;
     incoming := incoming r ++ [e]; trailing := trailing r;
     arrived := arrived r ++ match e with Chunk bytes => bytes | _ => [] end;
     ended := match e with EndOfData => true | _ => false end; delivered := delivered r |}.

Definition arrive_trailers (t : Trailing) (r : ReadHalf) : ReadHalf :=
  {| buffered := buffered r; trailers := trailers r; eof := eof r; read_stopped := read_stopped r;
     incoming := incoming r; trailing := Some t; arrived := arrived r; ended := ended r;
     delivered := delivered r |}.

Definition stop_reading (r : ReadHalf) : ReadHalf :=
  {| buffered := buffered r; trailers := trailers r; eof := eof r; read_stopped := true;
     incoming := incoming r; trailing := trailing r; arrived := arrived r; ended := ended r;
     delivered := delivered r |}.

Inductive read_step : ReadHalf -> ReadHalf -> Prop :=
| rs_read room r : read_step r (snd (poll_read room r))
| rs_arrive e r : read_step r (arrive e r)
| rs_trailers t r : trailing r = None -> read_step r (arrive_trailers t r)
| rs_stop r : read_step r (stop_reading r).

Definition event_bytes (e : RecvEvent) : list Z := match e with Chunk bytes => bytes | _ => [] end.

(** [EndOfData] is last, once, and is what [trailers] saw. *)
Definition end_last (l : list RecvEvent) : Prop :=
  exists l', l = (l' ++ [EndOfData])%list /\ EndOfData ∉ l'.

Record read_inv (r : ReadHalf) : Prop := {
  ri_bytes : (delivered r ++ buffered r ++ (incoming r ≫= event_bytes))%list = arrived r;
  ri_trailers : trailers r = true -> ended r = true /\ incoming r = [];
  ri_ended : ended r = true -> trailers r = false -> end_last (incoming r);
  ri_open : ended r = false -> EndOfData ∉ incoming r;
  ri_eof : eof r = true -> trailers r = true /\ buffered r = [] /\ trailing r = Some NoTrailers
}.

Lemma read_new_inv : read_inv read_new.
Proof. split; simpl; try done. set_solver. Qed.

Lemma deliver_inv count r : read_inv r -> eof r = false -> read_inv (deliver count r).
Proof.
  intros [H1 H2 H3 H4 H5] He. split; simpl; try done; [| by rewrite He].
  rewrite <- H1, <- !app_assoc. f_equal. by rewrite app_assoc, take_drop.
Qed.

Lemma end_last_cons e l : end_last (e :: l) -> e <> EndOfData -> end_last l.
Proof.
  intros (l' & E & Hn) He. destruct l' as [|x l']; simplify_eq/=. exists l'. split; [done | set_solver].
Qed.

Lemma chunk_inv bytes rest r :
  read_inv r -> buffered r = [] -> trailers r = false -> eof r = false -> incoming r = Chunk bytes :: rest ->
  read_inv (set_buffered bytes rest r).
Proof.
  intros [H1 H2 H3 H4 H5] Hb Ht He Hi. rewrite Hb, Hi in H1. split; simpl; rewrite ?Ht, ?He; try done.
  - intros Hend _. specialize (H3 Hend Ht). rewrite Hi in H3. by eapply end_last_cons.
  - intros Ho. specialize (H4 Ho). rewrite Hi in H4. set_solver.
Qed.

Lemma failed_inv rest r :
  read_inv r -> buffered r = [] -> trailers r = false -> eof r = false -> incoming r = RecvFailed :: rest ->
  read_inv (set_buffered [] rest r).
Proof.
  intros [H1 H2 H3 H4 H5] Hb Ht He Hi. rewrite Hb, Hi in H1. split; simpl; rewrite ?Ht, ?He; try done.
  - intros Hend _. specialize (H3 Hend Ht). rewrite Hi in H3. by eapply end_last_cons.
  - intros Ho. specialize (H4 Ho). rewrite Hi in H4. set_solver.
Qed.

Lemma end_of_data_inv rest r :
  read_inv r -> trailers r = false -> eof r = false -> incoming r = EndOfData :: rest ->
  read_inv (set_trailers rest r).
Proof.
  intros [H1 H2 H3 H4 H5] Ht He Hi. rewrite Hi in H1.
  assert (Hend : ended r = true).
  { destruct (ended r); [done |]. specialize (H4 eq_refl). rewrite Hi in H4. set_solver. }
  destruct (H3 Hend Ht) as (l' & Hl & Hn). rewrite Hi in Hl.
  assert (Hrest : rest = []).
  { destruct l' as [|x l']; simplify_eq/=; [done | set_solver]. }
  split; simpl; rewrite ?He, ?Hend; done.
Qed.

Lemma set_eof_inv r :
  read_inv r -> buffered r = [] -> trailers r = true -> trailing r = Some NoTrailers -> read_inv (set_eof r).
Proof. intros [H1 H2 H3 H4 H5] Hb Ht Hn. by split. Qed.

(** What one poll of the loop may answer. *)
Definition read_post (room : nat) (r : ReadHalf) (p : ReadPoll) (r' : ReadHalf) : Prop :=
  read_inv r'
  /\ match p with
     | Got (Ok []) => eof r' = true /\ delivered r' = delivered r
     | Got (Ok l) => (length l <= room)%nat /\ delivered r' = (delivered r ++ l)%list
     | Wait => delivered r' = delivered r /\ buffered r' = []
               /\ (if trailers r' then trailing r' = None else incoming r' = [])
     | _ => delivered r' = delivered r
     end.

Lemma read_loop_post room fuel : (0 < room)%nat -> forall r p r',
  read_inv r -> eof r = false -> read_loop fuel room r = (p, r') -> read_post room r p r'.
Proof.
  intros Hroom. induction fuel as [|fuel IH]; intros r p r' Hi He; simpl; [by intros [= <- <-] |].
  destruct (buffered r) as [|b bs] eqn:Eb.
  2: { intros [= <- <-]. rewrite <- Eb. split; [by apply deliver_inv |].
       set (count := Nat.min room (S (length bs))). cbn [deliver delivered].
       assert (Hl : length (take count (buffered r)) = count)
         by (rewrite length_take, Eb; unfold count; simpl; lia).
       destruct (take count (buffered r)) as [|x l]; simpl in Hl; unfold count in Hl; [lia |].
       split; [simpl; lia | done]. }
  destruct (trailers r) eqn:Et.
  - destruct (trailing r) as [[]|] eqn:Er; intros [= <- <-].
    + split; [by apply set_eof_inv | done].
    + done.
    + done.
    + split; [done |]. rewrite Et. done.
  - destruct (incoming r) as [|[bytes | |] rest] eqn:Ei.
    + intros [= <- <-]. split; [done |]. by rewrite Et.
    + intros E. apply IH in E; [done | by apply chunk_inv | done].
    + intros E. apply IH in E; [done | by apply end_of_data_inv | done].
    + intros [= <- <-]. split; [by apply failed_inv | done].
Qed.

Lemma arrive_inv e r : read_inv r -> read_inv (arrive e r).
Proof.
  intros [H1 H2 H3 H4 H5]. unfold arrive. destruct (ended r) eqn:Ee; [by split; rewrite ?Ee |].
  specialize (H4 eq_refl). assert (Ht : trailers r = false).
  { destruct (trailers r); [| done]. by destruct (H2 eq_refl). }
  split; simpl; rewrite ?Ht; try done.
  - rewrite <- H1, bind_app, <- !app_assoc. simpl. rewrite app_nil_r. by destruct e.
  - intros He _. exists (incoming r). by destruct e.
  - intros He. destruct e; try done; set_solver.
  - intros He. destruct (H5 He). congruence.
Qed.

Lemma read_step_inv r r' : read_step r r' -> read_inv r -> read_inv r'.
Proof.
  intros [room r0 | e r0 | t r0 Hn | r0] Hi.
  - unfold poll_read. destruct (Nat.eqb_spec room 0) as [-> | Hroom]; [done |].
    destruct (read_stopped r0); [done |]. destruct (eof r0) eqn:He; [done |].
    destruct (read_loop _ room r0) as [p r1] eqn:E. apply read_loop_post in E as [? _]; try done. lia.
  - by apply arrive_inv.
  - destruct Hi as [H1 H2 H3 H4 H5]. split; simpl; try done. intros He. destruct (H5 He) as (? & ? & ?). congruence.
  - destruct Hi as [H1 H2 H3 H4 H5]. by split.
Qed.

Lemma read_reachable_inv r : rtc read_step read_new r -> read_inv r.
Proof. intros Hr. eapply rtc_preserves; [| exact Hr | apply read_new_inv]. intros x y. apply read_step_inv. Qed.

(** C23: a tunnelled connection reads what the peer sent, in order.  However
    frames arrive and reads are made, what was delivered is a prefix of the
    bytes that arrived; a read yields at most the room it is given; an empty
    read means the end, and then everything that arrived was delivered and the
    peer sent no trailers; a read waits only when there is nothing buffered
    and nothing left to take from the stream. *)
Theorem http3_reads_in_order (r : ReadHalf) (room : nat) (p : ReadPoll) (r' : ReadHalf) :
  rtc read_step read_new r -> (0 < room)%nat -> poll_read room r = (p, r') ->
  delivered r `prefix_of` arrived r
  /\ match p with
     | Got (Ok []) => delivered r' = arrived r' /\ ended r' = true /\ trailing r' = Some NoTrailers
     | Got (Ok l) => (length l <= room)%nat /\ delivered r' = (delivered r ++ l)%list
     | Got (Err e) => delivered r' = delivered r
     | Wait => delivered r' = delivered r /\ buffered r' = []
               /\ (if trailers r' then trailing r' = None else incoming r' = [])
     | Again => delivered r' = delivered r
     end.
Proof.
  intros Hr Hroom E. pose proof (read_reachable_inv r Hr) as Hi. split; [by eapply prefix_split, Hi |].
  assert (Hend : forall x, read_inv x -> eof x = true ->
    delivered x = arrived x /\ ended x = true /\ trailing x = Some NoTrailers).
  { intros x [H1 H2 H3 H4 H5] He. destruct (H5 He) as (Ht & Hb & Hn). destruct (H2 Ht) as [Hd Hin].
    split_and!; try done. by rewrite <- H1, Hb, Hin, app_nil_r. }
  unfold poll_read in E. destruct (Nat.eqb_spec room 0) as [-> | _]; [lia |].
  destruct (read_stopped r); [by injection E as <- <- |].
  destruct (eof r) eqn:He; [injection E as <- <-; by apply Hend |].
  apply read_loop_post in E as [Hi' Hp]; [| done..].
  destruct p as [[[|x l] | e] | |]; try done. destruct Hp. by apply Hend.
Qed.

(** Two frames, a short read, and the end. *)
Definition sample_reading : ReadHalf :=
  arrive_trailers NoTrailers
    (snd (poll_read 2 (arrive EndOfData (arrive (Chunk [4; 5]) (arrive (Chunk [1; 2; 3]) read_new))))).

Lemma http3_reads_in_order_witness :
  exists r', poll_read 8 (snd (poll_read 8 (snd (poll_read 8 sample_reading)))) = (Got (Ok []), r')
    /\ delivered r' = [1; 2; 3; 4; 5].
Proof.
  set (r := snd (poll_read 8 (snd (poll_read 8 sample_reading)))).
  assert (Hr : rtc read_step read_new r).
  { unfold r, sample_reading. do 2 (eapply rtc_r; [| apply rs_read]).
    eapply rtc_r; [| by apply rs_trailers]. eapply rtc_r; [| apply rs_read].
    do 3 (eapply rtc_r; [| apply rs_arrive]). reflexivity. }
  assert (E : poll_read 8 r = (Got (Ok []), snd (poll_read 8 r))) by reflexivity.
  exists (snd (poll_read 8 r)). split; [exact E |].
  destruct (http3_reads_in_order r 8 _ _ Hr ltac:(lia) E) as (_ & Hd & _). rewrite Hd. reflexivity.
Defined.
