(* ===== verification/Http3Tasks.v ===== *)
(** * A session and the writer tasks of its streams
      ([Session::stop] of [src/http3/mod.rs], [Http3Stream::new] and [Drop] of [src/http3/stream.rs])

    A stream registers its writer task under the lock that a stop takes the
    tasks from, and looks at the session's flag while it holds it.  Openings,
    stops, the owners of the streams and the tasks interleave in [session_step];
    a stop sets the flag before it takes the lock.  An aborted task ends when
    the runtime next runs it: until then it may still make progress. *)

From Stdlib Require Import ZArith Lia String Ascii.
From stdpp Require Import gmap strings numbers prelude.
From S2P Require Import Prelude Http3Stream.

#[local] Open Scope nat_scope.
#[local] Open Scope list_scope.

(** A stream, by its write half, and whether its task was told to end. *)
Record Stream : Type := { half : WriteHalf; aborted : bool }.

(** A call of [Http3Stream::new]: waiting for the lock, holding it before and
    after the look at the flag, and how it came out. *)
Inductive Opening : Type := Waiting | Locked | Checked | Refused | OpenedAs (i : nat).

(** A call of [Session::stop]: the tasks it took, those it has still to abort,
    and what it returns. *)
Inductive Stopping : Type :=
| Entered
| Flagged
| Aborting (taken rest : list nat)
| Stopped (taken : list nat).

(** [writers] are the registered tasks, by stream. *)
Record SessionTasks : Type := {
  stopped_flag : bool;
  writers : list nat;
  streams : list Stream;
  openings : list Opening;
  stops : list Stopping
}.

Definition session_open : SessionTasks :=
  {| stopped_flag := false; writers := []; streams := []; openings := []; stops := [] |}.

Definition holds_lock (o : Opening) : bool := match o with Locked | Checked => true | _ => false end.

Definition lock_free (w : SessionTasks) : bool := forallb (fun o => negb (holds_lock o)) (openings w).

Definition set_opening (i : nat) (o : Opening) (w : SessionTasks) : SessionTasks :=
  {| stopped_flag := stopped_flag w; writers := writers w; streams := streams w;
     openings := <[i := o]> (openings w); stops := stops w |}.

Definition set_stop (i : nat) (s : Stopping) (w : SessionTasks) : SessionTasks :=
  {| stopped_flag := stopped_flag w; writers := writers w; streams := streams w; openings := openings w;
     stops := <[i := s]> (stops w) |}.

Definition set_stream (i : nat) (x : Stream) (w : SessionTasks) : SessionTasks :=
  {| stopped_flag := stopped_flag w; writers := writers w; streams := <[i := x]> (streams w);
     openings := openings w; stops := stops w |}.

Definition abort (x : Stream) : Stream := {| half := half x; aborted := true |}.

Definition is_finished (w : SessionTasks) (i : nat) : bool :=
  match streams w !! i with Some x => match writer (half x) with Over => true | _ => false end | None => true end.

(** The look at the flag. *)
Definition check (w : SessionTasks) : Opening := if stopped_flag w then Refused else Checked.

(** The task is spawned, finished ones are forgotten, and it is registered. *)
Definition spawn_writer (i : nat) (w : SessionTasks) : SessionTasks :=
  let n := length (streams w) in
  let fresh := {| half := if stopped_flag w then set_stopped write_new else write_new; aborted := false |} in
  {| stopped_flag := stopped_flag w;
     writers := filter (fun j => is_finished w j = false) (writers w) ++ [n];
     streams := streams w ++ [fresh];
     openings := <[i := OpenedAs n]> (openings w);
     stops := stops w |}.

(** The flag, which every stream of the session reads. *)
Definition raise_flag (w : SessionTasks) : SessionTasks :=
  {| stopped_flag := true; writers := writers w;
     streams := (fun x => {| half := set_stopped (half x); aborted := aborted x |}) <$> streams w;
     openings := openings w; stops := stops w |}.

Definition take_writers (i : nat) (w : SessionTasks) : SessionTasks :=
  {| stopped_flag := stopped_flag w; writers := []; streams := streams w; openings := openings w;
     stops := <[i := Aborting (writers w) (writers w)]> (stops w) |}.

(** What goes on without a further call: a stop under way aborts what it took,
    one by one, and returns; the runtime ends an aborted task. *)
Inductive settle : SessionTasks -> SessionTasks -> Prop :=
| st_abort i taken t rest x w :
    stops w !! i = Some (Aborting taken (t :: rest)) -> streams w !! t = Some x ->
    settle w (set_stop i (Aborting taken rest) (set_stream t (abort x) w))
| st_return i taken w :
    stops w !! i = Some (Aborting taken []) -> settle w (set_stop i (Stopped taken) w)
| st_reap i x w :
    streams w !! i = Some x -> aborted x = true ->
    settle w (set_stream i {| half := end_writer (half x); aborted := true |} w).

Inductive session_step : SessionTasks -> SessionTasks -> Prop :=
| se_new w :
    session_step w {| stopped_flag := stopped_flag w; writers := writers w; streams := streams w;
                      openings := openings w ++ [Waiting]; stops := stops w |}
| se_lock i w : openings w !! i = Some Waiting -> lock_free w = true -> session_step w (set_opening i Locked w)
| se_check i w : openings w !! i = Some Locked -> session_step w (set_opening i (check w) w)
| se_spawn i w : openings w !! i = Some Checked -> session_step w (spawn_writer i w)
| se_stream i x h w :
    streams w !! i = Some x -> write_step (half x) h -> session_stopped h = session_stopped (half x) ->
    session_step w (set_stream i {| half := h; aborted := aborted x |} w)
| se_stream_drop i x w : streams w !! i = Some x -> session_step w (set_stream i (abort x) w)
| se_stop w :
    session_step w {| stopped_flag := stopped_flag w; writers := writers w; streams := streams w;
                      openings := openings w; stops := stops w ++ [Entered] |}
| se_flag i w : stops w !! i = Some Entered -> session_step w (set_stop i Flagged (raise_flag w))
| se_take i w : stops w !! i = Some Flagged -> lock_free w = true -> session_step w (take_writers i w)
| se_settle w w' : settle w w' -> session_step w w'.

(** ** What the streams keep *)

Lemma poll_ack_frame fuel : forall finish w,
  let w' := snd (poll_ack fuel finish w) in
  writer w' = writer w /\ session_stopped w' = session_stopped w.
Proof.
  induction fuel as [|fuel IH]; intros finish w; simpl; [done |].
  assert (Hk : forall w0, let w' := snd (poll_kept finish (poll_ack fuel true) w0) in
    writer w' = writer w0 /\ session_stopped w' = session_stopped w0).
  { intros w0. unfold poll_kept. destruct (acknowledgment w0) as [[]|]; try done.
    destruct (_ && _); [exact (IH true (set_finished (set_ack None w0))) | done]. }
  destruct (session_stopped w) eqn:Es; [done |]. rewrite <- Es. destruct (finished w); [done |].
  destruct (acknowledgment w); [apply Hk |].
  destruct (reserve w) as [[[]|e]|]; [exact (Hk (send_mark finish w)) | done | done].
Qed.

(** A task that is over stays so. *)
Lemma write_step_over h h' : write_step h h' -> writer h = Over -> writer h' = Over.
Proof.
  intros Hstep Ho. destruct Hstep as [bytes h | h | h | h | h | h | h]; simpl; try done.
  - unfold poll_write. destruct (finishing h || finished h); [done |].
    assert (H1 : writer (snd (match acknowledgment h with Some _ => poll_ack ACK_FUEL false h | None => (Ready (Ok tt), h) end))
      = Over) by (destruct (acknowledgment h); [by rewrite (proj1 (poll_ack_frame _ _ _)) | done]).
    destruct (match acknowledgment h with Some _ => _ | None => _ end) as [[[[]|]|] h1]; [| done | done].
    simpl in H1. case_bool_decide; [done |]. by destruct (reserve h1) as [[[]|]|].
  - unfold poll_flush. by rewrite (proj1 (poll_ack_frame _ _ _)).
  - unfold poll_shutdown. by rewrite (proj1 (poll_ack_frame _ _ _)).
  - unfold take_command. by rewrite Ho.
  - unfold complete. by rewrite Ho.
Qed.

(** ** The invariant *)

Definition taking (s : Stopping) : bool := match s with Aborting _ _ | Stopped _ => true | _ => false end.

Definition left_of (s : Stopping) : list nat := match s with Aborting _ rest => rest | _ => [] end.

Definition taken_of (s : Stopping) : list nat := match s with Aborting taken _ | Stopped taken => taken | _ => [] end.

(** A task nobody has to end any more. *)
Definition ending (x : Stream) : Prop := writer (half x) = Over \/ aborted x = true.

(** Every task that is not ending is registered, or a stop is about to abort it;
    once a stop has taken the tasks nothing is registered again. *)
Record tasks_inv (w : SessionTasks) : Prop := {
  ti_half : forall i x, streams w !! i = Some x ->
    write_inv (half x) /\ session_stopped (half x) = stopped_flag w;
  ti_flag : forall s, s ∈ stops w -> s <> Entered -> stopped_flag w = true;
  ti_taken : forall s, s ∈ stops w -> taking s = true -> writers w = [] /\ Checked ∉ openings w;
  ti_task : forall i x, streams w !! i = Some x ->
    ending x \/ i ∈ writers w \/ exists s, s ∈ stops w /\ i ∈ left_of s;
  ti_known : forall i, (i ∈ writers w \/ exists s, s ∈ stops w /\ i ∈ left_of s) -> is_Some (streams w !! i);
  ti_done : forall s i, s ∈ stops w -> i ∈ taken_of s ->
    i ∈ left_of s \/ exists x, streams w !! i = Some x /\ ending x
}.

Lemma session_open_inv : tasks_inv session_open.
Proof.
  split; simpl; try done; try (by intros s ?%elem_of_nil); try (by intros s i ?%elem_of_nil).
  intros i [?%elem_of_nil | (s & ?%elem_of_nil & _)]; done.
Qed.

(** One stream changes; a task that was ending still is. *)
Lemma set_stream_inv i x x' w :
  tasks_inv w -> streams w !! i = Some x -> write_inv (half x') ->
  session_stopped (half x') = session_stopped (half x) -> (ending x -> ending x') -> tasks_inv (set_stream i x' w).
Proof.
  intros [H1 H2 H3 H4 H5 H6] Hi Hinv Hs He.
  assert (Hlook : forall j y', streams (set_stream i x' w) !! j = Some y' ->
    exists y, streams w !! j = Some y /\ (j = i /\ y = x /\ y' = x' \/ y' = y)).
  { intros j y'. simpl. intros [(<- & <- & _) | [_ Hj]]%list_lookup_insert_Some; eauto 10. }
  assert (Hkeep : forall j y, streams w !! j = Some y -> exists y', streams (set_stream i x' w) !! j = Some y'
    /\ (ending y -> ending y')).
  { intros j y Hj. simpl. destruct (decide (i = j)) as [<- | Hne].
    - exists x'. rewrite list_lookup_insert_eq by (by eapply lookup_lt_Some). split; [done |]. by assert (y = x) as -> by congruence.
    - exists y. by rewrite list_lookup_insert_ne. }
  split; simpl; try done.
  - intros j y' Hj. destruct (Hlook j y' Hj) as (y & Hy & [(-> & -> & ->) | ->]); [| by eapply H1].
    destruct (H1 i x Hi) as [_ <-]. done.
  - intros j y' Hj. destruct (Hlook j y' Hj) as (y & Hy & [(-> & -> & ->) | ->]); [| by eapply H4].
    destruct (H4 i x Hi); auto.
  - intros j Hj. destruct (H5 j Hj) as [y Hy]. destruct (Hkeep j y Hy) as (y' & Hy' & _). by exists y'.
  - intros s j Hs' Hj. destruct (H6 s j Hs' Hj) as [? | (y & Hy & Hey)]; [by left | right].
    destruct (Hkeep j y Hy) as (y' & Hy' & Hye). eauto.
Qed.

(** A stop moves on; what it had left to abort is still left or ending. *)
Lemma set_stop_inv i s s' w :
  tasks_inv w -> stops w !! i = Some s -> (s' <> Entered -> stopped_flag w = true) ->
  (taking s' = true -> writers w = [] /\ Checked ∉ openings w) -> left_of s' ⊆ left_of s ->
  (forall j, j ∈ taken_of s' -> j ∈ left_of s' \/ exists x, streams w !! j = Some x /\ ending x) ->
  (forall j x, j ∈ left_of s -> streams w !! j = Some x -> j ∈ left_of s' \/ ending x) -> tasks_inv (set_stop i s' w).
Proof.
  intros [H1 H2 H3 H4 H5 H6] Hi Hf Ht Hsub Hd Hleft.
  assert (Hin : forall z, z ∈ stops (set_stop i s' w) -> z = s' \/ z ∈ stops w) by (intros z; apply elem_of_inserted).
  assert (Hs' : s' ∈ stops (set_stop i s' w)).
  { apply list_elem_of_lookup. exists i. apply list_lookup_insert_eq. by eapply lookup_lt_Some. }
  split; try done.
  - intros z [-> | Hz]%Hin; [done | by eapply H2].
  - intros z [-> | Hz]%Hin; [done | by eapply H3].
  - intros j x Hj. destruct (H4 j x Hj) as [? | [? | (z & Hz & Hjz)]]; [by left | by right; left |].
    destruct (elem_of_unreplaced _ i s s' z Hi Hz) as [-> | Hz']; [| by right; right; exists z].
    destruct (Hleft j x Hjz Hj); [right; right; eauto | by left].
  - intros j [Hj | (z & [-> | Hz]%Hin & Hj)]; [by apply H5; left | | apply H5; right; eauto].
    apply H5. right. exists s. split; [by eapply list_elem_of_lookup_2 | by apply Hsub].
  - intros z j [-> | Hz]%Hin Hj; [by apply Hd | by eapply H6].
Qed.

Lemma set_opening_inv i o w :
  tasks_inv w -> (o = Checked -> stopped_flag w = false) -> tasks_inv (set_opening i o w).
Proof.
  intros [H1 H2 H3 H4 H5 H6] Ho. split; try done. intros s Hs Ht. simpl. destruct (H3 s Hs Ht) as [Hw Hc].
  split; [done |]. intros [<- | ?]%elem_of_inserted; [| done].
  rewrite (H2 s Hs) in Ho by (by intros ->). by specialize (Ho eq_refl).
Qed.

Lemma new_opening_inv w :
  tasks_inv w ->
  tasks_inv {| stopped_flag := stopped_flag w; writers := writers w; streams := streams w;
               openings := openings w ++ [Waiting]; stops := stops w |}.
Proof.
  intros [H1 H2 H3 H4 H5 H6]. split; try done. intros s Hs Ht. simpl. destruct (H3 s Hs Ht) as [Hw Hc].
  split; [done |]. by intros [? | ?%list_elem_of_singleton]%elem_of_app.
Qed.

Lemma new_stop_inv w :
  tasks_inv w ->
  tasks_inv {| stopped_flag := stopped_flag w; writers := writers w; streams := streams w; openings := openings w;
               stops := stops w ++ [Entered] |}.
Proof.
  intros [H1 H2 H3 H4 H5 H6].
  assert (Hin : forall s, s ∈ stops w ++ [Entered] -> s ∈ stops w \/ s = Entered)
    by (intros s [? | ?%list_elem_of_singleton]%elem_of_app; auto).
  split; simpl; try done.
  - intros s [Hs | ->]%Hin; [by apply H2 | done].
  - intros s [Hs | ->]%Hin; [by apply H3 | done].
  - intros i x Hi. destruct (H4 i x Hi) as [? | [? | (s & Hs & Hl)]]; [by left | by right; left |].
    right; right. exists s. split; [apply elem_of_app; by left | done].
  - intros i [Hi | (s & [Hs | ->]%Hin & Hl)]; [by apply H5; left | apply H5; right; eauto | by apply elem_of_nil in Hl].
  - intros s i [Hs | ->]%Hin Hi; [by eapply H6 | by apply elem_of_nil in Hi].
Qed.

Lemma spawn_inv i w : tasks_inv w -> openings w !! i = Some Checked -> tasks_inv (spawn_writer i w).
Proof.
  intros [H1 H2 H3 H4 H5 H6] Hi.
  assert (Hno : forall s, s ∈ stops w -> taking s = false).
  { intros s Hs. destruct (taking s) eqn:Ht; [| done]. destruct (H3 s Hs Ht) as [_ Hc].
    destruct Hc. by eapply list_elem_of_lookup_2. }
  assert (Hlast : forall j x, streams (spawn_writer i w) !! j = Some x ->
    streams w !! j = Some x \/ j = length (streams w)
      /\ x = {| half := if stopped_flag w then set_stopped write_new else write_new; aborted := false |}).
  { intros j x. simpl. intros [? | [Hj Hx]]%lookup_app_Some; [by left | right].
    apply list_lookup_singleton_Some in Hx as [? <-]. split; [lia | done]. }
  assert (Hkept : forall j, is_Some (streams w !! j) -> is_Some (streams (spawn_writer i w) !! j))
    by (intros j [x Hx]; exists x; by apply lookup_app_l_Some).
  split; simpl; try done.
  - intros j x [Hj | [_ ->]]%Hlast; [by eapply H1 |]. simpl.
    destruct (stopped_flag w); (split; [| done]); [apply set_stopped_inv |]; apply write_new_inv.
  - intros s Hs Ht. by rewrite (Hno s Hs) in Ht.
  - intros j x [Hj | [-> ->]]%Hlast; [| right; left; apply elem_of_app; right; by left].
    destruct (H4 j x Hj) as [? | [Hw | ?]]; [by left | | by right; right].
    destruct (is_finished w j) eqn:Ef.
    + left. left. unfold is_finished in Ef. rewrite Hj in Ef. by destruct (writer (half x)).
    + right; left. apply elem_of_app. left. by apply list_elem_of_filter.
  - intros j [[[_ Hj]%list_elem_of_filter | ->%list_elem_of_singleton]%elem_of_app | Hj].
    + apply Hkept, H5. by left.
    + rewrite lookup_app_r, Nat.sub_diag by lia. by eexists.
    + apply Hkept, H5. by right.
  - intros s j Hs Hj. destruct (H6 s j Hs Hj) as [? | (x & Hx & He)]; [by left |]. right. exists x.
    split; [by apply lookup_app_l_Some | done].
Qed.

Lemma raise_flag_inv w : tasks_inv w -> tasks_inv (raise_flag w).
Proof.
  intros [H1 H2 H3 H4 H5 H6].
  assert (Hlook : forall i x', streams (raise_flag w) !! i = Some x' -> exists x, streams w !! i = Some x
    /\ x' = {| half := set_stopped (half x); aborted := aborted x |}).
  { intros i x'. simpl. rewrite list_lookup_fmap. destruct (streams w !! i); [| done]. intros [= <-]. eauto. }
  split; try done.
  - intros i x' (x & Hx & ->)%Hlook. destruct (H1 i x Hx) as [Hw _]. simpl. split; [by apply set_stopped_inv | done].
  - intros i x' (x & Hx & ->)%Hlook. by destruct (H4 i x Hx) as [[? | ?] | ?]; [left; by left | left; by right | right].
  - intros i Hi. simpl. rewrite list_lookup_fmap, fmap_is_Some. by apply H5.
  - intros s i Hs Hi. destruct (H6 s i Hs Hi) as [? | (x & Hx & He)]; [by left | right].
    eexists. simpl. rewrite list_lookup_fmap, Hx. split; [done |]. exact He.
Qed.

Lemma take_writers_inv i w : tasks_inv w -> stops w !! i = Some Flagged -> lock_free w = true -> tasks_inv (take_writers i w).
Proof.
  intros [H1 H2 H3 H4 H5 H6] Hi Hl.
  assert (Hin : forall z, z ∈ stops (take_writers i w) -> z = Aborting (writers w) (writers w) \/ z ∈ stops w)
    by (intros z; apply elem_of_inserted).
  assert (Hmine : Aborting (writers w) (writers w) ∈ stops (take_writers i w)).
  { apply list_elem_of_lookup. exists i. apply list_lookup_insert_eq. by eapply lookup_lt_Some. }
  assert (Hf : stopped_flag w = true) by (apply (H2 Flagged); [by eapply list_elem_of_lookup_2 | done]).
  split; try done.
  - intros s _ _. split; [done |]. intros Hc. unfold lock_free in Hl. rewrite forallb_forall in Hl.
    by specialize (Hl _ (proj1 (list_elem_of_In _ _) Hc)).
  - intros j x Hj. destruct (H4 j x Hj) as [? | [Hw | (s & Hs & Hjs)]]; [by left | right; right; eauto |].
    destruct (elem_of_unreplaced _ i Flagged (Aborting (writers w) (writers w)) s Hi Hs) as [-> | Hs'];
      [by apply elem_of_nil in Hjs | right; right; eauto].
  - intros j [?%elem_of_nil | (s & [-> | Hs]%Hin & Hj)]; [done | by apply H5; left | apply H5; right; eauto].
  - intros s j [-> | Hs]%Hin Hj; [by left | by eapply H6].
Qed.

Lemma settle_inv w w' : settle w w' -> tasks_inv w -> tasks_inv w'.
Proof.
  intros [i taken t rest x w0 Hi Ht | i taken w0 Hi | i x w0 Hi Ha] Hw.
  - pose proof (list_elem_of_lookup_2 _ _ _ Hi) as Hin. destruct (ti_half w0 Hw t x Ht) as [Hx Hxs].
    assert (Hw' : tasks_inv (set_stream t (abort x) w0)) by (eapply set_stream_inv; [done | done | done | done |]; by right).
    assert (Hlook : streams (set_stream t (abort x) w0) !! t = Some (abort x))
      by (simpl; apply list_lookup_insert_eq; by eapply lookup_lt_Some).
    eapply set_stop_inv; [done | exact Hi | | | | |]; simpl.
    + intros _. by apply (ti_flag w0 Hw _ Hin).
    + intros _. by apply (ti_taken w0 Hw _ Hin).
    + by apply list_subseteq_skip_r || (intros j Hj; by right).
    + intros j Hj. destruct (ti_done _ Hw' _ j Hin Hj) as [Hl | ?]; [| by right]. simpl in Hl.
      apply elem_of_cons in Hl as [-> | Hl]; [| by left]. right. exists (abort x). split; [done | by right].
    + intros j y Hj Hy. apply elem_of_cons in Hj as [-> | Hj]; [| by left]. right. simpl in Hlook.
      rewrite Hlook in Hy. injection Hy as <-. by right.
  - pose proof (list_elem_of_lookup_2 _ _ _ Hi) as Hin. eapply set_stop_inv; [done | exact Hi | | | done | |]; simpl.
    + intros _. by apply (ti_flag w0 Hw _ Hin).
    + intros _. by apply (ti_taken w0 Hw _ Hin).
    + intros j Hj. by destruct (ti_done _ Hw _ j Hin Hj) as [?%elem_of_nil | ?]; [| right].
    + by intros j y ?%elem_of_nil.
  - destruct (ti_half w0 Hw i x Hi) as [Hx Hxs]. eapply set_stream_inv; [done | done | by apply end_writer_inv | done |].
    by right.
Qed.

Lemma session_step_inv w w' : session_step w w' -> tasks_inv w -> tasks_inv w'.
Proof.
  intros Hstep Hw. destruct Hstep as [w | i w Hi Hl | i w Hi | i w Hi | i x h w Hi Hs Hf | i x w Hi | w | i w Hi
    | i w Hi Hl | w w' Hs].
  - by apply new_opening_inv.
  - by apply set_opening_inv.
  - apply set_opening_inv; [done |]. unfold check. by destruct (stopped_flag w).
  - by apply spawn_inv.
  - destruct (ti_half w Hw i x Hi) as [Hx _]. eapply set_stream_inv; [done | done | by eapply write_step_inv | done |].
    intros [Ho | Ha]; [left; by eapply write_step_over | by right].
  - destruct (ti_half w Hw i x Hi) as [Hx _]. eapply set_stream_inv; [done | done | done | done |]. by right.
  - by apply new_stop_inv.
  - eapply set_stop_inv; [by apply raise_flag_inv | exact Hi | done | done | done | |];
      [by intros j ?%elem_of_nil | by intros j x ?%elem_of_nil].
  - by apply take_writers_inv.
  - by eapply settle_inv.
Qed.

Lemma session_reachable_inv w w' : tasks_inv w -> rtc session_step w w' -> tasks_inv w'.
Proof. intros Hw Hr. eapply rtc_preserves; [| exact Hr | exact Hw]. apply session_step_inv. Qed.

(** ** After a stop *)

Definition stop_over (w : SessionTasks) : Prop := exists taken, Stopped taken ∈ stops w.

(** A stop that has returned stays so. *)
Lemma stop_over_step w w' : session_step w w' -> stop_over w -> stop_over w'.
Proof.
  intros Hstep [taken Ht].
  assert (Hrep : forall i s s', stops w !! i = Some s -> (forall t, s <> Stopped t) -> Stopped taken ∈ <[i := s']> (stops w)).
  { intros i s s' Hi Hne. by destruct (elem_of_unreplaced _ i s s' _ Hi Ht) as [<- | ?]; [destruct (Hne taken) |]. }
  exists taken. destruct Hstep as [w | i w Hi Hl | i w Hi | i w Hi | i x h w Hi Hs Hf | i x w Hi | w | i w Hi | i w Hi Hl | w w' Hs];
    simpl; try done.
  - apply elem_of_app. by left.
  - by eapply Hrep.
  - by eapply Hrep.
  - destruct Hs as [i tk t rest x w Hi Hx | i tk w Hi | i x w Hi Ha]; simpl; [by eapply Hrep | by eapply Hrep | done].
Qed.

(** No stream is opened then. *)
Lemma stopped_streams_step w w' :
  session_step w w' -> tasks_inv w -> stop_over w -> length (streams w') = length (streams w).
Proof.
  intros Hstep Hw [taken Ht].
  destruct Hstep as [w | i w Hi Hl | i w Hi | i w Hi | i x h w Hi Hs Hf | i x w Hi | w | i w Hi | i w Hi Hl | w w' Hs];
    simpl; rewrite ?length_insert, ?length_fmap; try done.
  - destruct (ti_taken w Hw _ Ht eq_refl) as [_ Hc]. destruct Hc. by eapply list_elem_of_lookup_2.
  - by destruct Hs; simpl; rewrite ?length_insert.
Qed.

(** Stops under way abort the rest of what they took. *)
Definition unaborted (w : SessionTasks) : nat := sum_list_with (fun s => length (left_of s)) (stops w).

Lemma aborts_finish n : forall w, tasks_inv w -> unaborted w <= n -> exists w', rtc settle w w' /\ unaborted w' = 0.
Proof.
  induction n as [|n IH]; intros w Hw Hn; [exists w; split; [apply rtc_refl | lia] |].
  destruct (decide (Exists (fun s => left_of s <> []) (stops w))) as [He | He].
  - apply Exists_exists in He as (s & [i Hi]%list_elem_of_lookup & Hs).
    destruct s as [| | taken [|t rest] |]; try done.
    destruct (ti_known w Hw t) as [x Hx].
    { right. exists (Aborting taken (t :: rest)). split; [by eapply list_elem_of_lookup_2 | by left]. }
    pose proof (st_abort i taken t rest x w Hi Hx) as Hstep.
    destruct (IH (set_stop i (Aborting taken rest) (set_stream t (abort x) w))) as (w' & Hr & H0).
    + by eapply settle_inv.
    + pose proof (sum_list_with_insert (fun s => length (left_of s)) (stops w) i _ (Aborting taken rest) Hi) as E.
      unfold unaborted in *. simpl in *. lia.
    + exists w'. split; [by eapply rtc_l | done].
  - exists w. split; [apply rtc_refl |]. apply not_Exists_Forall in He; [| apply _]. unfold unaborted.
    induction He as [|s l Hs _ IHl]; [done |]. simpl.
    destruct (decide (left_of s = [])) as [-> | Hne]; [exact IHl | by destruct Hs].
Qed.

(** The runtime ends the first [n] tasks that were told to. *)
Lemma reap_below n : forall w, tasks_inv w -> exists w', rtc settle w w' /\ stops w' = stops w
  /\ forall i x, i < n -> streams w' !! i = Some x -> aborted x = true -> writer (half x) = Over.
Proof.
  induction n as [|n IH]; intros w Hw; [exists w; split_and!; [apply rtc_refl | done | lia] |].
  destruct (IH w Hw) as (w1 & Hr & Es & H1).
  destruct (streams w1 !! n) as [x|] eqn:Hx; [destruct (aborted x) eqn:Ha |].
  - exists (set_stream n {| half := end_writer (half x); aborted := true |} w1).
    split_and!; [eapply rtc_r; [exact Hr | by apply (st_reap n x)] | done |].
    intros i y Hi. simpl. intros [(<- & <- & _) | [Hne Hy]]%list_lookup_insert_Some; [done |]. apply (H1 i y); [lia | done].
  - exists w1. split_and!; [done | done |]. intros i y Hi Hy Hay.
    destruct (decide (i = n)) as [-> | Hne]; [congruence | apply (H1 i y); [lia | done | done]].
  - exists w1. split_and!; [done | done |]. intros i y Hi Hy Hay.
    destruct (decide (i = n)) as [-> | Hne]; [congruence | apply (H1 i y); [lia | done | done]].
Qed.

(** Nothing waits on a task that is over. *)
Definition released (h : WriteHalf) : Prop :=
  writer h = Over /\ cancelled h = negb (fin h) /\ acknowledgment h <> Some AckWaiting.

Lemma over_released h : write_inv h -> writer h = Over -> released h.
Proof.
  intros Hh Ho. split_and!; [done | by apply (wi_over h Hh) |]. intros Ha. by destruct (wi_waiting h Hh Ha) as [? _].
Qed.

Lemma settle_steps w w' : rtc settle w w' -> rtc session_step w w'.
Proof. induction 1; [apply rtc_refl |]. by eapply rtc_l; [apply se_settle |]. Qed.

Lemma all_released w :
  tasks_inv w -> stop_over w -> exists w', rtc settle w w' /\ forall i x, streams w' !! i = Some x -> released (half x).
Proof.
  intros Hw Ho. destruct (aborts_finish _ w Hw (le_n _)) as (w1 & Hr1 & H1).
  pose proof (session_reachable_inv _ _ Hw (settle_steps _ _ Hr1)) as Hw1.
  destruct (reap_below (length (streams w1)) w1 Hw1) as (w2 & Hr2 & Es & H2).
  pose proof (session_reachable_inv _ _ Hw1 (settle_steps _ _ Hr2)) as Hw2.
  assert (Ho2 : stop_over w2 /\ length (streams w2) = length (streams w1)).
  { assert (Ho1 : stop_over w1) by (eapply (rtc_preserves _ stop_over); [apply stop_over_step | by apply settle_steps | done]).
    eapply (rtc_preserves _ (fun y => stop_over y /\ length (streams y) = length (streams w1))); [| exact Hr2 | done].
    intros x y Hs [Hx E]. split; [by eapply stop_over_step, Hx; apply se_settle |].
    rewrite <- E. by destruct Hs; simpl; rewrite ?length_insert. }
  exists w2. split; [by etransitivity |]. intros i x Hi. destruct (ti_half w2 Hw2 i x Hi) as [Hh _].
  apply over_released; [done |]. destruct Ho2 as [[taken Ht] Hlen].
  destruct (ti_task w2 Hw2 i x Hi) as [[? | Ha] | [Hr | (s & Hs & Hl)]].
  - done.
  - apply (H2 i x); [| done | done]. apply lookup_lt_Some in Hi. lia.
  - destruct (ti_taken w2 Hw2 _ Ht eq_refl) as [E _]. rewrite E in Hr. by apply elem_of_nil in Hr.
  - exfalso. rewrite Es in Hs. unfold unaborted in H1.
    apply elem_of_Permutation in Hs as [l Hp]. rewrite Hp in H1. simpl in H1. destruct (left_of s); [by apply elem_of_nil in Hl | done].
Qed.

(** Every call on a stream of a stopped session fails at once. *)
Lemma stopped_calls h bytes :
  session_stopped h = true -> bytes <> [] ->
  fst (poll_flush h) = Ready (Err broken) /\ fst (poll_shutdown h) = Ready (Err broken)
  /\ exists e, fst (poll_write bytes h) = Ready (Err e).
Proof.
  intros Hs Hb. unfold poll_flush, poll_shutdown, poll_write, ACK_FUEL. simpl. rewrite Hs. split_and!; [done | done |].
  destruct (finishing h || finished h); [by eexists |]. destruct (acknowledgment h); [by eexists |].
  rewrite bool_decide_eq_false_2 by done. unfold reserve. rewrite Hs. by eexists.
Qed.

(** C24: stopping a session ends its streams.  However openings, stops, calls on
    the streams and their tasks interleave: once a stop has returned no stream
    is opened on the session, and every flush, shutdown and write on the ones
    there are fails at once; each task the stop returned has ended or was told
    to; and without a further call every writer task of the session ends, a
    stream that was not finished is cancelled, and nobody waits for an
    acknowledgement. *)
Theorem http3_stop_ends_streams (w : SessionTasks) (taken : list nat) :
  rtc session_step session_open w -> Stopped taken ∈ stops w ->
  (forall w', rtc session_step w w' -> length (streams w') = length (streams w))
  /\ (forall x bytes, x ∈ streams w -> bytes <> [] ->
        fst (poll_flush (half x)) = Ready (Err broken) /\ fst (poll_shutdown (half x)) = Ready (Err broken)
        /\ exists e, fst (poll_write bytes (half x)) = Ready (Err e))
  /\ (forall i, i ∈ taken -> exists x, streams w !! i = Some x /\ (writer (half x) = Over \/ aborted x = true))
  /\ exists w', rtc settle w w' /\ forall x, x ∈ streams w' -> released (half x).
Proof.
  intros Hr Ht. pose proof (session_reachable_inv _ _ session_open_inv Hr) as Hw.
  assert (Ho : stop_over w) by (by exists taken). split_and!.
  - intros w' Hr'. eapply (rtc_preserves _ (fun y => tasks_inv y /\ stop_over y /\ length (streams y) = length (streams w)));
      [| exact Hr' | done].
    intros x y Hs (I1 & I2 & I3). split_and!; [by eapply session_step_inv | by eapply stop_over_step |].
    by rewrite (stopped_streams_step _ _ Hs).
  - intros x bytes [i Hi]%list_elem_of_lookup Hb. apply stopped_calls; [| done].
    destruct (ti_half w Hw i x Hi) as [_ ->]. by apply (ti_flag w Hw _ Ht).
  - intros i Hi. by destruct (ti_done w Hw _ i Ht Hi) as [?%elem_of_nil | ?].
  - destruct (all_released w Hw Ho) as (w' & Hr' & H'). exists w'. split; [done |].
    intros x [i Hi]%list_elem_of_lookup. by eapply H'.
Qed.

(** A stream with a flush under way when its session is stopped, and an opening
    that had to wait for the lock. *)
Definition stopped_session : SessionTasks :=
  {| stopped_flag := true; writers := [];
     streams := [{| half := set_stopped (snd (poll_flush write_new)); aborted := true |}];
     openings := [OpenedAs 0; Locked]; stops := [Stopped [0]] |}.

Lemma stopped_session_reached : rtc session_step session_open stopped_session.
Proof.
  take_step se_new. take_step (se_lock 0). take_step (se_check 0). take_step (se_spawn 0).
  take_step se_new. take_step se_stop.
  eapply rtc_l; [eapply (se_stream 0); [reflexivity | apply ws_flush | reflexivity] |].
  take_step (se_flag 0). take_step (se_take 0). take_step (se_lock 1).
  eapply rtc_l; [apply se_settle, (st_abort 0 [0] 0 []); reflexivity |].
  apply rtc_once, se_settle. by apply (st_return 0 [0]).
Qed.

Lemma http3_stop_ends_streams_witness :
  length (streams (set_opening 1 Refused stopped_session)) = 1
  /\ exists w', rtc settle stopped_session w' /\ forall x, x ∈ streams w' -> released (half x).
Proof.
  destruct (http3_stop_ends_streams stopped_session [0] stopped_session_reached ltac:(by left)) as (H1 & _ & _ & H4).
  split; [| exact H4]. apply (H1 (set_opening 1 Refused stopped_session)). apply rtc_once. by apply (se_check 1).
Defined.
