(* ===== verification/Http3.v ===== *)
(** * The HTTP/3 provider ([src/http3/mod.rs])

    One QUIC session at a time for new streams, older ones draining, at most
    four in all; at most 128 tunnelled streams, each holding a permit.  QUIC,
    TLS, the resolver and the passing of time are the environment: what an
    address attempt or a request came to is part of the step that makes it.

    [connect_loop] is the walk over the proxy's addresses and its time budget;
    the second half is the provider as a state machine, whose calls interleave
    at their waits.  A session is alive while something holds it (the
    provider's [current], a call, a stream); the last holder's release stops
    it. *)

From Stdlib Require Import ZArith Lia String Ascii.
From stdpp Require Import gmap strings numbers prelude.
From S2P Require Import Prelude Net Errors Endpoint Provider Http3Spec.

Open Scope string_scope.
Open Scope Z_scope.

Definition MAX_STREAMS : nat := 128.
Definition MAX_SESSIONS : nat := 4.

(** ** Connecting: the addresses share the deadline *)

(** What one address came to; [took] is time spent, cut off at the attempt's
    budget. *)
Inductive Attempt : Type :=
| BindFailed
| EndpointFailed
| ConfigInvalid
| TlsFailed (took : Duration)
| HandshakeFailed (took : Duration)
| HandshakeTimedOut
| InitFailed (took : Duration)
| Opened (took : Duration).

Section Connect.
Variable spec : Http3TunnelSpec.

Definition connect_error (detail : string) : TunnelError :=
  Http3Connect (h3_host spec) (h3_port spec) detail.

Definition no_addresses : TunnelError := connect_error "proxy endpoint has no addresses".
Definition deadline_exceeded : TunnelError := connect_error "HTTP/3 dial deadline exceeded".
Definition provider_stopped : TunnelError := connect_error "provider stopped".

(** The proxy's addresses: a literal is its own, a name is looked up, at most
    eight answers used; [None] is a failed lookup. *)
Definition proxy_addresses (looked_up : option (list SocketAddr)) : Result (list SocketAddr) TunnelError :=
  let host := trim_end_matches "]" (trim_start_matches "[" (h3_host spec)) in
  match parse_ip host with
  | Some ip => Ok [{| sa_ip := ip; sa_port := h3_port spec |}]
  | None =>
      match looked_up with
      | None => Err (connect_error "proxy endpoint DNS lookup failed")
      | Some answers => Ok (take 8 answers)
      end
  end.

Definition describe : string :=
  "HTTP/3 CONNECT proxy at " ++ h3_host spec ++ ":" ++ show (h3_port spec).

(** A wait that ends at the attempt's deadline. *)
Definition spend (took budget : Duration) : Duration := Z.max 0 (Z.min took budget).

(** The loop; the list is each address tried with the budget it was given, the
    duration the time when the loop ended. *)
Fixpoint connect_loop (attempt : SocketAddr -> Attempt) (addresses : list SocketAddr)
    (now deadline : Duration) (last : TunnelError)
  : Result unit TunnelError * list (SocketAddr * Duration) * Duration :=
  match addresses with
  | [] => (Err last, [], now)
  | address :: rest =>
      let remaining := saturating_sub deadline now in
      if remaining =? 0 then (Err deadline_exceeded, [], now)
      else
        let budget := remaining / Z.of_nat (length addresses) in
        let tried r now := (r, [(address, budget)], now) in
        let next detail now :=
          let '(r, asked, now) := connect_loop attempt rest now deadline (connect_error detail) in
          (r, (address, budget) :: asked, now) in
        match attempt address with
        | BindFailed => tried (Err (connect_error "could not bind QUIC UDP socket")) now
        | EndpointFailed => tried (Err (connect_error "could not create QUIC endpoint")) now
        | ConfigInvalid => tried (Err (connect_error "invalid QUIC endpoint configuration")) now
        | TlsFailed took => tried (Err (Http3Tls (h3_host spec) (h3_port spec))) (now + spend took budget)
        | HandshakeFailed took => next "QUIC handshake failed" (now + spend took budget)
        | HandshakeTimedOut => next "QUIC address attempt deadline exceeded" (now + budget)
        | InitFailed took => next "HTTP/3 initialization failed or timed out" (now + spend took budget)
        | Opened took => tried (Ok tt) (now + spend took budget)
        end
  end.

Definition connect_addresses (attempt : SocketAddr -> Attempt) (addresses : list SocketAddr)
    (now deadline : Duration) : Result unit TunnelError * list (SocketAddr * Duration) * Duration :=
  connect_loop attempt addresses now deadline no_addresses.

(** What [source_address] says after the addresses in [asked] were tried:
    [local] is the address their sockets were bound to.  It is written once the
    QUIC handshake is done, before HTTP/3 is. *)
Definition sets_source (a : Attempt) : bool := match a with InitFailed _ | Opened _ => true | _ => false end.

Definition source_after (attempt : SocketAddr -> Attempt) (local : SocketAddr -> Result SocketAddr IoError)
    (asked : list (SocketAddr * Duration)) (before : option SocketAddr) : option SocketAddr :=
  foldl (fun source a => if sets_source (attempt a.1) then reported (local a.1) else source) before asked.

(** Whether an attempt lets the loop go on. *)
Definition goes_on (a : Attempt) : bool :=
  match a with HandshakeFailed _ | HandshakeTimedOut | InitFailed _ => true | _ => false end.

Lemma spend_bounds took budget : 0 <= budget -> 0 <= spend took budget <= budget.
Proof. unfold spend. lia. Qed.

(** What the loop promises: it ends by the deadline, every address it tried
    had at least the share [q], and it tried them all unless one ended it. *)
Definition shared_fairly (attempt : SocketAddr -> Attempt) (addresses : list SocketAddr) (deadline q : Duration)
    (asked : list (SocketAddr * Duration)) (ended : Duration) : Prop :=
  ended <= deadline
  /\ Forall (fun t => q <= snd t) asked
  /\ (0 < q -> asked.*1 = addresses
      \/ exists pre a, asked.*1 = (pre ++ [a])%list /\ (pre ++ [a])%list `prefix_of` addresses
           /\ goes_on (attempt a) = false).

Lemma fair_end attempt address rest deadline q budget ended :
  ended <= deadline -> q <= budget -> goes_on (attempt address) = false ->
  shared_fairly attempt (address :: rest) deadline q [(address, budget)] ended.
Proof.
  intros He Hq Hg. split_and!; [done | by repeat constructor |]. intros _. right.
  exists [], address. split_and!; [done | | done]. apply (prefix_cons address [] rest), prefix_nil.
Qed.

Lemma fair_next attempt address rest deadline q budget asked ended :
  q <= budget -> shared_fairly attempt rest deadline q asked ended ->
  shared_fairly attempt (address :: rest) deadline q ((address, budget) :: asked) ended.
Proof.
  intros Hq (A1 & A2 & A3). split_and!; [done | by constructor |].
  intros H0. destruct (A3 H0) as [E | (pre & a & B1 & B2 & B3)]; [left; by rewrite fmap_cons, E |].
  right. exists (address :: pre), a. rewrite fmap_cons, B1. split_and!; [done | by apply prefix_cons | done].
Qed.

Lemma connect_loop_spec attempt deadline q addresses : forall now err r asked ended,
  connect_loop attempt addresses now deadline err = (r, asked, ended) ->
  now <= deadline -> 0 <= q -> q * Z.of_nat (length addresses) <= deadline - now ->
  shared_fairly attempt addresses deadline q asked ended.
Proof.
  induction addresses as [|address rest IH]; intros now err r asked ended E Hnow Hq HR; cbn [connect_loop] in E.
  { injection E as <- <- <-. split_and!; [done | constructor |]. by left. }
  unfold saturating_sub in E. rewrite Z.max_r in E by lia.
  destruct (Z.eqb_spec (deadline - now) 0) as [Hz | Hz].
  { injection E as <- <- <-. split_and!; [done | constructor |]. simpl in HR. nia. }
  set (budget := (deadline - now) / Z.of_nat (length (address :: rest))) in *.
  assert (Hlen : Z.of_nat (length (address :: rest)) = Z.of_nat (length rest) + 1) by (simpl; lia).
  assert (Hmul : budget * (Z.of_nat (length rest) + 1) <= deadline - now)
    by (unfold budget; rewrite Hlen, Z.mul_comm; apply Z.mul_div_le; lia).
  assert (Hb0 : 0 <= budget) by (apply Z.div_pos; lia).
  assert (Hqb : q <= budget) by (apply Z.div_le_lower_bound; [simpl; lia | lia]).
  assert (Hb : budget <= deadline - now) by nia.
  assert (Hnext : forall t detail, 0 <= t <= budget ->
    (let '(r0, asked0, now0) := connect_loop attempt rest (now + t) deadline (connect_error detail) in
     (r0, (address, budget) :: asked0, now0)) = (r, asked, ended) ->
    shared_fairly attempt (address :: rest) deadline q asked ended).
  { intros t detail Ht. destruct (connect_loop attempt rest (now + t) deadline (connect_error detail)) as [[r0 asked0] now0] eqn:E0.
    intros [= <- <- <-]. apply fair_next; [done |]. eapply IH; [exact E0 | lia | done |].
    rewrite Hlen in HR. nia. }
  pose proof (fun took => spend_bounds took budget Hb0) as Hs.
  destruct (attempt address) as [| | | took | took | | took | took] eqn:Ea.
  - injection E as <- <- <-. apply fair_end; [lia | done | by rewrite Ea].
  - injection E as <- <- <-. apply fair_end; [lia | done | by rewrite Ea].
  - injection E as <- <- <-. apply fair_end; [lia | done | by rewrite Ea].
  - injection E as <- <- <-. apply fair_end; [specialize (Hs took); lia | done | by rewrite Ea].
  - eapply Hnext; [apply Hs | exact E].
  - eapply Hnext; [| exact E]. lia.
  - eapply Hnext; [apply Hs | exact E].
  - injection E as <- <- <-. apply fair_end; [specialize (Hs took); lia | done | by rewrite Ea].
Qed.

(** The source reported after a connect is the new session's. *)
Lemma connect_loop_source attempt local deadline addresses : forall now err asked ended before,
  connect_loop attempt addresses now deadline err = (Ok tt, asked, ended) ->
  exists tried address budget took, asked = (tried ++ [(address, budget)])%list /\ attempt address = Opened took
    /\ source_after attempt local asked before = reported (local address).
Proof.
  induction addresses as [|a rest IH]; intros now err asked ended before; cbn [connect_loop]; [done |].
  destruct (_ =? 0); [done |]. set (budget := saturating_sub deadline now / _).
  assert (Hnext : forall detail now' asked0,
    (let '(r, l, n) := connect_loop attempt rest now' deadline (connect_error detail) in (r, (a, budget) :: l, n))
      = (Ok tt, asked0, ended) ->
    exists tried address b took, asked0 = (tried ++ [(address, b)])%list /\ attempt address = Opened took
      /\ source_after attempt local asked0 before = reported (local address)).
  { intros detail now' asked0. destruct (connect_loop attempt rest now' deadline _) as [[r l] n] eqn:E.
    intros [= -> <- ->].
    destruct (IH _ _ _ _ (if sets_source (attempt a) then reported (local a) else before) E)
      as (tried & address & b & took & -> & Ho & Hs).
    exists ((a, budget) :: tried)%list, address, b, took. split_and!; [done | done |]. exact Hs. }
  destruct (attempt a) as [| | | took | took | | took | took] eqn:Ea; try done; try (by apply Hnext).
  intros [= <- <-]. exists [], a, budget, took. split_and!; [done | done |]. unfold source_after. simpl. by rewrite Ea.
Qed.

End Connect.

(** ** Sessions *)

Record Session : Type := { retiring : bool; stopped : bool; dead : bool }.

(** [Session::usable]: a stopped session has closed its connection. *)
Definition usable (s : Session) : bool := negb (retiring s) && negb (stopped s) && negb (dead s).

Definition session_new : Session := {| retiring := false; stopped := false; dead := false |}.
Definition stop_session (s : Session) : Session := {| retiring := retiring s; stopped := true; dead := dead s |}.
Definition retire_session (s : Session) : Session := {| retiring := true; stopped := stopped s; dead := dead s |}.
Definition kill_session (s : Session) : Session := {| retiring := retiring s; stopped := stopped s; dead := true |}.

(** [all] holds weak references, oldest first. *)
Record Http3State : Type := {
  sessions : gmap nat Session;
  current : option nat;
  all : list nat;
  permits : nat;
  stop_flag : bool;
  next : nat
}.

Definition http3_new : Http3State :=
  {| sessions := ∅; current := None; all := []; permits := MAX_STREAMS; stop_flag := false; next := 0 |}.

(** What the TLS library says: whether it has TLS 1.3, and whether QUIC can use
    the configuration. *)
Record TlsLibrary : Type := { has_tls13 : bool; quic_usable : bool }.

(** [with_root_certificates]: the configuration judged, before any I/O. *)
Definition with_root_certificates {Authority} (parse_authority : string -> option Authority) (tls : TlsLibrary)
    (spec : Http3TunnelSpec) (roots_empty : bool) : Result Http3State TunnelError :=
  let? _ := http3_validate parse_authority spec in
  if roots_empty then Err (Configuration "HTTP/3 proxy trust store is empty")
  else if negb (has_tls13 tls) then Err (Configuration "HTTP/3 requires TLS 1.3")
  else if negb (quic_usable tls) then Err (Configuration "could not configure HTTP/3 TLS")
  else Ok http3_new.

Definition set_sessions (m : gmap nat Session) (s : Http3State) : Http3State :=
  {| sessions := m; current := current s; all := all s; permits := permits s; stop_flag := stop_flag s;
     next := next s |}.

Definition set_permits (n : nat) (s : Http3State) : Http3State :=
  {| sessions := sessions s; current := current s; all := all s; permits := n; stop_flag := stop_flag s;
     next := next s |}.

Definition alter_session (f : Session -> Session) (n : nat) (s : Http3State) : Http3State :=
  set_sessions (alter f n (sessions s)) s.

(** [session], up to the point where it would connect; [alive] says which
    sessions something other than [current] holds. *)
Inductive Begin : Type := Reuse (n : nat) | Full | MustConnect.

(** No current session, and only the live ones kept. *)
Definition prune (alive : nat -> bool) (s : Http3State) : Http3State :=
  {| sessions := sessions s; current := None; all := filter (fun m => alive m = true) (all s);
     permits := permits s; stop_flag := stop_flag s; next := next s |}.

Definition session_begin (alive : nat -> bool) (s : Http3State) : Begin * Http3State :=
  match current s with
  | Some n =>
      if match sessions s !! n with Some x => usable x | None => false end then (Reuse n, s)
      else (if (MAX_SESSIONS <=? length (all (prune alive s)))%nat then Full else MustConnect, prune alive s)
  | None => (if (MAX_SESSIONS <=? length (all (prune alive s)))%nat then Full else MustConnect, prune alive s)
  end.

(** A new session, listed and current; or, in a provider stopped meanwhile,
    dropped, which stops it. *)
Definition add_session (s : Http3State) : Http3State :=
  {| sessions := <[next s := session_new]> (sessions s); current := Some (next s); all := all s ++ [next s];
     permits := permits s; stop_flag := stop_flag s; next := S (next s) |}.

Definition drop_session (s : Http3State) : Http3State :=
  {| sessions := <[next s := stop_session session_new]> (sessions s); current := current s; all := all s;
     permits := permits s; stop_flag := stop_flag s; next := S (next s) |}.

(** The end of a successful connect. *)
Definition session_end (spec : Http3TunnelSpec) (s : Http3State) : Result nat TunnelError * Http3State :=
  if stop_flag s then (Err (provider_stopped spec), drop_session s) else (Ok (next s), add_session s).

(** Draining [all]: the sessions still alive, now the caller's to stop. *)
Definition drained (alive : nat -> bool) (s : Http3State) : list nat :=
  filter (fun m => current s = Some m \/ alive m = true) (all s).

Definition drain (s : Http3State) : Http3State :=
  {| sessions := sessions s; current := None; all := []; permits := permits s; stop_flag := stop_flag s;
     next := next s |}.

(** [stop_sessions] and the stopping of what it returns, with which [shutdown]
    and [Drop] begin; nothing is awaited in between. *)
Definition stop_sessions (alive : nat -> bool) (s : Http3State) : Http3State :=
  drain {| sessions := foldr (alter stop_session) (sessions s) (drained alive s); current := current s; all := all s;
           permits := permits s; stop_flag := true; next := next s |}.

(** ** The CONNECT response *)

Definition is_informational (status : Z) : bool := (100 <=? status) && (status <=? 199).
Definition is_success (status : Z) : bool := (200 <=? status) && (status <=? 299).
Definition SWITCHING_PROTOCOLS : Z := 101.

(** The headers the proxy sends, and how they end. *)
Inductive HeadersEnd : Type := HeadersBroken | HeadersSilent.

(** The loop over interim responses: the final status, an error, or nothing
    until the deadline. *)
Fixpoint final_response (headers : list Z) (e : HeadersEnd) : option (option Z) :=
  match headers with
  | [] => match e with HeadersBroken => Some None | HeadersSilent => None end
  | status :: rest =>
      if negb (is_informational status) || (status =? SWITCHING_PROTOCOLS) then Some (Some status)
      else final_response rest e
  end.

(** What a request came to. *)
Inductive Request : Type :=
| RequestInvalid
| SendFailed
| Sent (headers : list Z) (e : HeadersEnd).

(** Case analysis on a step of the provider ([http3_step]). *)
Ltac http3_step_cases H :=
  destruct H as [w | host port w | i p w Hi Hp Hfl | i dial b s c s' w Hi Hl Eb Ec | i dial connect c s w Hi Ec
    | i n q r s w Hi Er | i c e w Hi Hfl | j n w Hj | n w | n w Hn | w w' Hr | i n ns w Hi | i w Hi | i ns w Hi | w].

Section Dial.
Variable spec : Http3TunnelSpec.
Context {Authority : Type} (parse_authority : string -> option Authority).

(** The request on session [n]: [None] waits for the deadline; a send failure
    retires the session; a stream is refused on a stopped one. *)
Definition request (q : Request) (n : nat) (s : Http3State) : option (Result unit TunnelError) * Http3State :=
  match q with
  | RequestInvalid => (Some (Err (Configuration "invalid CONNECT request")), s)
  | SendFailed =>
      (Some (Err (connect_error spec "HTTP/3 connection cannot open a new stream")),
       alter_session retire_session n s)
  | Sent headers e =>
      match final_response headers e with
      | None => (None, s)
      | Some None => (Some (Err (connect_error spec "invalid or interrupted CONNECT response")), s)
      | Some (Some status) =>
          if negb (is_success status) then (Some (Err (Http3ProxyStatus status)), s)
          else if match sessions s !! n with Some x => stopped x | None => true end
          then (Some (Err (provider_stopped spec)), s)
          else (Some (Ok tt), s)
      end
  end.

(** ** Interleaved calls *)

(** A call between two of its waits; [dial] says whether it is a dial, which
    holds a permit, or a [prepare].  [Connecting] and [Retiring] hold the connect
    lock; [Retiring] waits for a session it has stopped to go idle, with the rest
    still to stop.  [Abandoned] is a [retire] dropped at such a wait: it lets go
    of the rest, which whatever streams they carry keep running. *)
Inductive Caller : Type :=
| AwaitingPermit
| Ready_ (dial : bool)
| Connecting (dial : bool)
| InSession (n : nat)
| Retiring (ns : list nat)
| Abandoned (ns : list nat)
| Finished (r : Result unit TunnelError).

Definition holds_permit (c : Caller) : nat :=
  match c with Ready_ true | Connecting true | InSession _ => 1 | _ => 0 end.

(** Calls that a timeout, the stop signal or their caller can end. *)
Definition in_flight (c : Caller) : bool := match c with Finished _ | Retiring _ | Abandoned _ => false | _ => true end.

Definition connecting (c : Caller) : bool := match c with Connecting _ | Retiring _ => true | _ => false end.

Definition retiring_of (c : Caller) : list nat := match c with Retiring ns | Abandoned ns => ns | _ => [] end.

Definition abandoned_by (c : Caller) : list nat := match c with Abandoned ns => ns | _ => [] end.

(** The sessions a call holds. *)
Definition in_session (c : Caller) : list nat := match c with InSession n => [n] | Retiring ns => ns | _ => [] end.

Record Http3World : Type := { provider : Http3State; callers : list Caller; streams : list nat }.

Definition lock_held (w : Http3World) : bool := existsb connecting (callers w).

(** Sessions held by calls and streams. *)
Definition holders (w : Http3World) : list nat := ((callers w ≫= in_session) ++ streams w)%list.

Definition alive_in (w : Http3World) (n : nat) : bool := bool_decide (n ∈ holders w).

Definition held (n : nat) (w : Http3World) : Prop := current (provider w) = Some n \/ n ∈ holders w.

(** A call returns and, if it was a dial, its permit goes back. *)
Definition give_back (c : Caller) (s : Http3State) : Http3State := set_permits (permits s + holds_permit c) s.

Definition update (i : nat) (c : Caller) (s : Http3State) (w : Http3World) : Http3World :=
  {| provider := s; callers := <[i := c]> (callers w); streams := streams w |}.

(** A dial up to its wait for a permit. *)
Definition dial_start (host : string) (port : Z) (s : Http3State) : Caller :=
  match authority parse_authority host port with
  | Err e => Finished (Err e)
  | Ok _ => if stop_flag s then Finished (Err (provider_stopped spec)) else AwaitingPermit
  end.

(** What a call does once [session] has decided. *)
Definition begun (dial : bool) (b : Begin) (freed : SlotFreed) (s : Http3State) : Caller * Http3State :=
  match b with
  | Reuse n => if dial then (InSession n, s) else (Finished (Ok tt), s)
  | Full => (Finished (Err (AtCapacity (Z.of_nat MAX_SESSIONS) freed)), give_back (Ready_ dial) s)
  | MustConnect => (Connecting dial, s)
  end.

Definition connected (dial : bool) (connect : Result unit TunnelError) (s : Http3State) : Caller * Http3State :=
  match connect with
  | Err e => (Finished (Err e), give_back (Connecting dial) s)
  | Ok _ =>
      match session_end spec s with
      | (Err e, s) => (Finished (Err e), give_back (Connecting dial) s)
      | (Ok n, s) => if dial then (InSession n, s) else (Finished (Ok tt), s)
      end
  end.

(** [retire] once it has the lock: it drains the list, and stops what it got
    one by one, the first at once. *)
Definition retire (w : Http3World) : option Http3World :=
  if lock_held w then None
  else
    match drained (alive_in w) (provider w) with
    | [] => Some {| provider := drain (provider w); callers := callers w ++ [Retiring []]; streams := streams w |}
    | n :: ns =>
        Some {| provider := alter_session stop_session n (drain (provider w)); callers := callers w ++ [Retiring ns];
                streams := streams w |}
    end.

Definition shutdown (w : Http3World) : Http3World :=
  {| provider := stop_sessions (alive_in w) (provider w); callers := callers w; streams := streams w |}.

(** A request that was answered: its stream holds the session and the permit, or
    the permit goes back. *)
Definition answered (i n : nat) (r : Result unit TunnelError) (s : Http3State) (w : Http3World) : Http3World :=
  {| provider := match r with Ok _ => s | Err _ => give_back (InSession n) s end;
     callers := <[i := Finished r]> (callers w);
     streams := match r with Ok _ => n :: streams w | Err _ => streams w end |}.

Inductive http3_step (freed : SlotFreed) : Http3World -> Http3World -> Prop :=
| h_prepare w : http3_step freed w {| provider := provider w; callers := callers w ++ [Ready_ false]; streams := streams w |}
| h_dial host port w :
    http3_step freed w
      {| provider := provider w; callers := callers w ++ [dial_start host port (provider w)]; streams := streams w |}
| h_permit i p w :
    callers w !! i = Some AwaitingPermit -> permits (provider w) = S p -> stop_flag (provider w) = false ->
    http3_step freed w (update i (Ready_ true) (set_permits p (provider w)) w)
| h_begin i dial b s c s' w :
    callers w !! i = Some (Ready_ dial) -> lock_held w = false ->
    session_begin (alive_in w) (provider w) = (b, s) -> begun dial b freed s = (c, s') ->
    http3_step freed w (update i c s' w)
| h_connected i dial connect c s w :
    callers w !! i = Some (Connecting dial) -> connected dial connect (provider w) = (c, s) ->
    http3_step freed w (update i c s w)
| h_request i n q r s w :
    callers w !! i = Some (InSession n) -> request q n (provider w) = (Some r, s) ->
    http3_step freed w (answered i n r s w)
| h_give_up i c e w :
    callers w !! i = Some c -> in_flight c = true ->
    http3_step freed w (update i (Finished (Err e)) (give_back c (provider w)) w)
| h_stream_drop j n w :
    streams w !! j = Some n ->
    http3_step freed w {| provider := set_permits (S (permits (provider w))) (provider w); callers := callers w;
                          streams := delete j (streams w) |}
| h_session_dies n w :
    http3_step freed w {| provider := alter_session kill_session n (provider w); callers := callers w;
                          streams := streams w |}
| h_session_drop n w :
    ~ held n w ->
    http3_step freed w {| provider := alter_session stop_session n (provider w); callers := callers w;
                          streams := streams w |}
| h_retire w w' : retire w = Some w' -> http3_step freed w w'
| h_retire_next i n ns w :
    callers w !! i = Some (Retiring (n :: ns)) ->
    http3_step freed w (update i (Retiring ns) (alter_session stop_session n (provider w)) w)
| h_retire_done i w :
    callers w !! i = Some (Retiring []) -> http3_step freed w (update i (Finished (Ok tt)) (provider w) w)
| h_retire_drop i ns w :
    callers w !! i = Some (Retiring ns) -> http3_step freed w (update i (Abandoned ns) (provider w) w)
| h_stop w : http3_step freed w (shutdown w).

Definition world_new : Http3World := {| provider := http3_new; callers := []; streams := [] |}.

(** ** The invariant *)

Definition lock_count (w : Http3World) : nat :=
  sum_list_with (fun c => if connecting c then 1 else 0)%nat (callers w).

(** The sessions a [retire] has still to stop, or was dropped before it did. *)
Definition pending (w : Http3World) : list nat := callers w ≫= retiring_of.

Definition strays (w : Http3World) : list nat := callers w ≫= abandoned_by.

(** Places of the limit taken by calls: one for a connect, one for each session
    being retired. *)
Definition place (c : Caller) : nat := match c with Connecting _ => 1 | Retiring ns => length ns | _ => 0 end.

Definition places (w : Http3World) : nat := sum_list_with place (callers w).

(** Live sessions are listed, being retired or strays, at most four of them the
    strays apart, fewer while one more is being connected; permits balance. *)
Record http3_inv (w : Http3World) : Prop := {
  hi_listed : forall n x, held n w -> sessions (provider w) !! n = Some x -> stopped x = false ->
                n ∈ all (provider w) \/ n ∈ pending w;
  hi_bound : (length (all (provider w)) + places w <= MAX_SESSIONS)%nat;
  hi_lock : (lock_count w <= 1)%nat;
  hi_known : forall n, held n w -> n ∈ dom (sessions (provider w));
  hi_next : forall n, n ∈ dom (sessions (provider w)) -> (n < next (provider w))%nat;
  hi_permits : (permits (provider w) + sum_list_with holds_permit (callers w) + length (streams w) = MAX_STREAMS)%nat;
  hi_stopped : stop_flag (provider w) = true -> current (provider w) = None /\ all (provider w) = []
}.

Lemma world_new_inv : http3_inv world_new.
Proof. split; unfold held, holders, lock_count, places; simpl; try done; try (by intros n [? | ?%elem_of_nil]); try lia. Qed.

Lemma lock_held_count w : lock_held w = false -> lock_count w = 0%nat /\ places w = 0%nat.
Proof.
  unfold lock_held, lock_count, places. induction (callers w) as [|c l IH]; simpl; [done |].
  intros [Hc Hl]%orb_false_iff. specialize (IH Hl). by destruct c.
Qed.

Lemma pending_places w : (length (pending w) <= places w + length (strays w))%nat.
Proof.
  unfold pending, places, strays. induction (callers w) as [|c l IH]; [done |].
  rewrite !bind_cons, !length_app. cbn [sum_list_with].
  assert (length (retiring_of c) <= place c + length (abandoned_by c))%nat by (destruct c; simpl; lia).
  lia.
Qed.

(** Changing one call changes what it holds. *)
Lemma holders_update i c s w n : n ∈ holders (update i c s w) -> n ∈ in_session c \/ n ∈ holders w.
Proof.
  unfold holders. simpl. rewrite !elem_of_app, !list_elem_of_bind. intros [(d & Hn & Hd) | Hs]; [| by right; right].
  apply elem_of_inserted in Hd as [-> | Hd]; [by left | right; left; by exists d].
Qed.

Lemma holders_caller i n w : callers w !! i = Some (InSession n) -> n ∈ holders w.
Proof.
  intros Hi. unfold holders. apply elem_of_app. left. apply list_elem_of_bind. exists (InSession n).
  split; [by left | by eapply list_elem_of_lookup_2].
Qed.

Lemma count_update (f : Caller -> nat) i c c' w :
  callers w !! i = Some c ->
  (sum_list_with f (<[i := c']> (callers w)) + f c = sum_list_with f (callers w) + f c')%nat.
Proof. apply sum_list_with_insert. Qed.

(** A call that was not retiring leaves what is pending. *)
Lemma pending_update i c c' s w n :
  callers w !! i = Some c -> retiring_of c = [] -> n ∈ pending w -> n ∈ pending (update i c' s w).
Proof.
  intros Hi Hc. unfold pending. simpl. rewrite !list_elem_of_bind. intros (d & Hn & [j Hj]%list_elem_of_lookup).
  exists d. split; [done |]. apply list_elem_of_lookup. exists j. rewrite list_lookup_insert_ne; [done |].
  intros ->. rewrite Hj in Hi. injection Hi as ->. rewrite Hc in Hn. by apply elem_of_nil in Hn.
Qed.

Lemma pending_inserted i c s w n : n ∈ pending (update i c s w) -> n ∈ retiring_of c \/ n ∈ pending w.
Proof.
  unfold pending. simpl. rewrite !list_elem_of_bind. intros (d & Hn & Hd).
  apply elem_of_inserted in Hd as [-> | Hd]; [by left | right; eauto].
Qed.

(** Steps that list no session and unlist none. *)
Lemma inv_frame w w' :
  http3_inv w -> (forall n, held n w' -> held n w) ->
  (forall n x', sessions (provider w') !! n = Some x' ->
     exists x, sessions (provider w) !! n = Some x /\ (stopped x' = false -> stopped x = false)) ->
  dom (sessions (provider w')) = dom (sessions (provider w)) ->
  all (provider w') = all (provider w) -> next (provider w') = next (provider w) ->
  stop_flag (provider w') = stop_flag (provider w) -> current (provider w') = current (provider w) ->
  (lock_count w' <= lock_count w)%nat -> (places w' <= places w)%nat ->
  (forall n, n ∈ pending w -> n ∈ pending w') ->
  (permits (provider w') + sum_list_with holds_permit (callers w') + length (streams w')
   = permits (provider w) + sum_list_with holds_permit (callers w) + length (streams w))%nat ->
  http3_inv w'.
Proof.
  intros [H1 H2 H3 H4 H5 H6 H7] Hh Hs Hd Ha Hn Hf Hc Hl Hpl Hpd Hp.
  split; rewrite ?Ha, ?Hn, ?Hf, ?Hc, ?Hd; try done; try lia.
  - intros n x' Hn' Hx Hst. destruct (Hs n x' Hx) as (x & Hx0 & Himp).
    destruct (H1 n x (Hh n Hn') Hx0 (Himp Hst)); [by left | right; eauto].
  - intros n Hn'. apply H4, Hh, Hn'.
Qed.

Lemma alter_keeps (f : Session -> Session) n (m : gmap nat Session) k x' :
  (forall x, stopped (f x) = false -> stopped x = false) ->
  alter f n m !! k = Some x' -> exists x, m !! k = Some x /\ (stopped x' = false -> stopped x = false).
Proof.
  intros Hf. destruct (decide (k = n)) as [-> | Hne].
  - rewrite lookup_alter_eq. destruct (m !! n) as [x|]; [| done]. intros [= <-]. exists x. eauto.
  - rewrite lookup_alter_ne by done. eauto.
Qed.

(** A call that begins holds nothing. *)
Lemma start_inv c w :
  http3_inv w -> in_session c = [] -> holds_permit c = 0%nat -> connecting c = false ->
  http3_inv {| provider := provider w; callers := callers w ++ [c]; streams := streams w |}.
Proof.
  intros Hw Hin Hp Hc. assert (Hpl : place c = 0%nat) by (by destruct c).
  apply (inv_frame w); unfold held, holders, lock_count, places, pending; simpl; try done; eauto;
    rewrite ?bind_app, ?sum_list_with_app; simpl; rewrite ?Hin, ?Hp, ?Hc, ?Hpl, ?app_nil_r; try lia; try done.
  intros n Hn. apply elem_of_app. by left.
Qed.

(** A call ends, or moves on, without touching the sessions. *)
Lemma update_inv i c c' s w :
  http3_inv w -> callers w !! i = Some c ->
  sessions s = sessions (provider w) -> all s = all (provider w) -> next s = next (provider w) ->
  stop_flag s = stop_flag (provider w) -> current s = current (provider w) ->
  (forall n, n ∈ in_session c' -> held n w) -> connecting c' = false -> retiring_of c = [] ->
  (permits s + holds_permit c' = permits (provider w) + holds_permit c)%nat ->
  http3_inv (update i c' s w).
Proof.
  intros Hw Hi Hs Ha Hn Hf Hc Hin Hcon Hret Hp. apply (inv_frame w); simpl; rewrite ?Hs; try done.
  - intros n [E | E]; [left; simpl in E; congruence |]. apply holders_update in E as [E | E]; [by apply Hin | by right].
  - eauto.
  - pose proof (count_update (fun c => if connecting c then 1 else 0)%nat i c c' w Hi) as Hcount.
    unfold lock_count. simpl. cbn beta in Hcount; rewrite Hcon in Hcount. lia.
  - pose proof (count_update place i c c' w Hi) as Hcount. unfold places. simpl. destruct c'; simpl in *; try done; lia.
  - intros n. by eapply pending_update.
  - pose proof (count_update holds_permit i c c' w Hi) as Hcount. lia.
Qed.
(** Forgetting dead sessions: what calls and streams hold stays listed. *)
Lemma prune_inv i c c' s w :
  http3_inv w -> callers w !! i = Some c -> lock_held w = false -> connecting c = false -> retiring_of c = [] ->
  s = set_permits (permits s) (prune (alive_in w) (provider w)) ->
  in_session c' = [] ->
  (connecting c' = true -> (length (all (prune (alive_in w) (provider w))) < MAX_SESSIONS)%nat) ->
  (place c' <= if connecting c' then 1 else 0)%nat ->
  (permits s + holds_permit c' = permits (provider w) + holds_permit c)%nat ->
  http3_inv (update i c' s w).
Proof.
  intros [H1 H2 H3 H4 H5 H6 H7] Hi Hl Hc Hret Es Hin Hroom Hpl Hp. apply lock_held_count in Hl as (Hl & Hl').
  pose proof (count_update (fun c => if connecting c then 1 else 0)%nat i c c' w Hi) as Hcount.
  cbn beta in Hcount. rewrite Hc in Hcount. unfold lock_count in Hl.
  pose proof (count_update holds_permit i c c' w Hi) as Hcount'.
  pose proof (count_update place i c c' w Hi) as Hcount''. unfold places in Hl'.
  assert (Hh : forall n, held n (update i c' s w) -> n ∈ holders w).
  { intros n [E | E]; [rewrite Es in E; done |]. apply holders_update in E as [E | E]; [| done].
    rewrite Hin in E. by apply elem_of_nil in E. }
  split; simpl.
  - intros n x Hn Hx Hst. rewrite Es in Hx |- *. simpl in *.
    destruct (H1 n x) as [? | E]; [right; by apply Hh | done | done | left | right; by eapply pending_update].
    apply list_elem_of_filter. split; [by apply bool_decide_eq_true_2, Hh | done].
  - rewrite Es. unfold places. simpl. destruct (connecting c') eqn:E.
    + specialize (Hroom eq_refl). simpl in Hroom. lia.
    + pose proof (length_filter (fun m => alive_in w m = true) (all (provider w))). lia.
  - unfold lock_count. simpl. destruct (connecting c'); lia.
  - intros n Hn. rewrite Es. simpl. apply H4. right. by apply Hh.
  - intros n. rewrite Es. simpl. apply H5.
  - lia.
  - rewrite Es. simpl. intros Hf. destruct (H7 Hf) as [_ ->]. done.
Qed.

Lemma begin_inv freed i dial b s c s' w :
  http3_inv w -> callers w !! i = Some (Ready_ dial) -> lock_held w = false ->
  session_begin (alive_in w) (provider w) = (b, s) -> begun dial b freed s = (c, s') ->
  http3_inv (update i c s' w).
Proof.
  intros Hw Hi Hl Eb Ec.
  assert (Hprune : forall b0, b0 = (if (MAX_SESSIONS <=? length (all (prune (alive_in w) (provider w))))%nat
      then Full else MustConnect) -> begun dial b0 freed (prune (alive_in w) (provider w)) = (c, s') ->
    http3_inv (update i c s' w)).
  { intros b0 -> E. destruct (Nat.leb_spec MAX_SESSIONS (length (all (prune (alive_in w) (provider w)))));
      injection E as <- <-; eapply prune_inv; try done; simpl; destruct dial; simpl; lia. }
  unfold session_begin in Eb. destruct (current (provider w)) as [n|] eqn:En; [| injection Eb as <- <-; by eapply Hprune].
  destruct (match sessions (provider w) !! n with Some x => usable x | None => false end);
    [| injection Eb as <- <-; by eapply Hprune].
  injection Eb as <- <-. simpl in Ec. destruct dial; injection Ec as <- <-; eapply update_inv; try done;
    simpl; [intros m ->%list_elem_of_singleton; by left | by intros m ?%elem_of_nil].
Qed.

(** The session a step makes is one nobody held before. *)
Lemma fresh_session w :
  http3_inv w -> next (provider w) ∉ dom (sessions (provider w))
  /\ forall n, held n w -> next (provider w) <> n.
Proof.
  intros Hw. assert (Hf : next (provider w) ∉ dom (sessions (provider w))).
  { intros Hin. apply (hi_next w Hw) in Hin. lia. }
  split; [done |]. intros n Hn <-. by apply Hf, (hi_known w Hw).
Qed.

Lemma next_dom (m : gmap nat Session) k x n :
  (forall n, n ∈ dom m -> (n < k)%nat) -> n ∈ dom (<[k := x]> m) -> (n < S k)%nat.
Proof. intros Hm [->%elem_of_singleton | Hn]%dom_insert%elem_of_union; [lia |]. specialize (Hm n Hn). lia. Qed.

Lemma unlock_count i dial c s w :
  callers w !! i = Some (Connecting dial) -> connecting c = false ->
  (lock_count (update i c s w) + 1 = lock_count w)%nat.
Proof.
  intros Hi Hc. unfold lock_count. simpl.
  pose proof (count_update (fun c => if connecting c then 1 else 0)%nat i _ c w Hi) as E. cbn beta in E.
  rewrite Hc in E. simpl in E. lia.
Qed.

(** A session connected too late is stopped at once. *)
Lemma late_inv i dial e w :
  http3_inv w -> callers w !! i = Some (Connecting dial) -> stop_flag (provider w) = true ->
  http3_inv (update i (Finished (Err e)) (give_back (Connecting dial) (drop_session (provider w))) w).
Proof.
  intros Hw Hi Ef. destruct (fresh_session w Hw) as [Hfresh Hold].
  pose proof (unlock_count i dial (Finished (Err e)) (give_back (Connecting dial) (drop_session (provider w))) w Hi
                eq_refl) as Hc.
  pose proof (count_update holds_permit i _ (Finished (Err e)) w Hi) as Hp.
  pose proof (count_update place i _ (Finished (Err e)) w Hi) as Hpl. simpl in Hpl.
  destruct Hw as [H1 H2 H3 H4 H5 H6 H7]. set (w' := update _ _ _ w) in *.
  assert (Hh : forall n, held n w' -> held n w).
  { intros n [E | E]; [by left |]. apply holders_update in E as [E%elem_of_nil | E]; [done | by right]. }
  split; simpl.
  - intros n x Hn Hx Hst. rewrite lookup_insert_ne in Hx by eauto.
    destruct (H1 n x (Hh n Hn) Hx Hst); [by left | right; by eapply pending_update].
  - unfold places in *. simpl. lia.
  - lia.
  - intros n Hn. apply dom_insert, elem_of_union. right. eauto.
  - intros n. by apply next_dom.
  - simpl in Hp. destruct dial; simpl in *; lia.
  - done.
Qed.

(** One connected while the provider runs takes the place reserved for it. *)
Lemma opened_inv i dial c w :
  http3_inv w -> callers w !! i = Some (Connecting dial) -> stop_flag (provider w) = false ->
  connecting c = false -> (forall n, n ∈ in_session c -> n = next (provider w)) ->
  holds_permit c = holds_permit (Connecting dial) ->
  http3_inv (update i c (add_session (provider w)) w).
Proof.
  intros Hw Hi Ef Hc Hin Hpc. destruct (fresh_session w Hw) as [Hfresh Hold].
  pose proof (unlock_count i dial c (add_session (provider w)) w Hi Hc) as Hl.
  pose proof (count_update holds_permit i _ c w Hi) as Hp.
  pose proof (count_update place i _ c w Hi) as Hpl. simpl in Hpl.
  destruct Hw as [H1 H2 H3 H4 H5 H6 H7]. set (w' := update _ _ _ w) in *.
  assert (Hh : forall n, held n w' -> n = next (provider w) \/ held n w).
  { intros n [[= <-] | E]; [by left |].
    apply holders_update in E as [E | E]; [left; by apply Hin | by right; right]. }
  split; simpl.
  - intros n x Hn Hx Hst. rewrite elem_of_app. destruct (Hh n Hn) as [-> | Hn']; [left; right; by left |].
    rewrite lookup_insert_ne in Hx by eauto.
    destruct (H1 n x Hn' Hx Hst); [by left; left | right; by eapply pending_update].
  - rewrite length_app. unfold places in *. simpl. assert (place c = 0%nat) by (by destruct c). lia.
  - lia.
  - intros n Hn. apply dom_insert, elem_of_union.
    destruct (Hh n Hn) as [-> | Hn']; [left; by apply elem_of_singleton | right; eauto].
  - intros n. by apply next_dom.
  - lia.
  - by rewrite Ef.
Qed.

Lemma connected_inv i dial connect c s w :
  http3_inv w -> callers w !! i = Some (Connecting dial) -> connected dial connect (provider w) = (c, s) ->
  http3_inv (update i c s w).
Proof.
  intros Hw Hi. unfold connected, session_end. destruct connect as [[] | e].
  2: { intros [= <- <-]. eapply update_inv; try done; try (by intros m ?%elem_of_nil). }
  destruct (stop_flag (provider w)) eqn:Ef; [intros [= <- <-]; by apply late_inv |].
  destruct dial; intros [= <- <-]; eapply opened_inv; try done; simpl;
    [by intros n ->%list_elem_of_singleton | by intros n ?%elem_of_nil].
Qed.

(** Draining [all] stops every session anyone holds. *)
Lemma foldr_stop_dom l (m : gmap nat Session) : dom (foldr (alter stop_session) m l) = dom m.
Proof. induction l as [|n l IH]; simpl; [done |]. by rewrite dom_alter_L. Qed.

Lemma foldr_stop_lookup l (m : gmap nat Session) n x :
  foldr (alter stop_session) m l !! n = Some x -> stopped x = false -> n ∉ l /\ m !! n = Some x.
Proof.
  induction l as [|k l IH]; simpl; [intros ? _; split; [apply not_elem_of_nil | done] |].
  destruct (decide (n = k)) as [-> | Hne].
  - rewrite lookup_alter_eq. destruct (_ !! k) as [y|]; [| done]. intros [= <-]. done.
  - rewrite lookup_alter_ne by done. intros Hx Hst. destruct (IH Hx Hst). split; [| done].
    by apply not_elem_of_cons.
Qed.

Lemma drained_held w n : n ∈ drained (alive_in w) (provider w) -> held n w.
Proof.
  intros [[E | E] _]%list_elem_of_filter; [by left |]. right. by apply bool_decide_eq_true_1 in E.
Qed.

Lemma held_drained w n : held n w -> n ∈ all (provider w) -> n ∈ drained (alive_in w) (provider w).
Proof.
  intros Hn Ha. apply list_elem_of_filter. split; [| done].
  destruct Hn as [Hn | Hn]; [by left | right; by apply bool_decide_eq_true_2].
Qed.

Lemma drained_length w : (length (drained (alive_in w) (provider w)) <= length (all (provider w)))%nat.
Proof. apply length_filter. Qed.

Lemma shutdown_inv w : http3_inv w -> http3_inv (shutdown w).
Proof.
  intros [H1 H2 H3 H4 H5 H6 H7].
  assert (Hh : forall n, held n (shutdown w) -> held n w) by (intros n [E | E]; [done | by right]).
  split; simpl; rewrite ?foldr_stop_dom; try done; eauto.
  - intros n x Hn Hx Hst. apply foldr_stop_lookup in Hx as [Hni Hx]; [| done]. right.
    destruct (H1 n x (Hh n Hn) Hx Hst) as [Ha | Hp]; [| done]. destruct Hni. apply held_drained; eauto.
  - unfold places in *. simpl. lia.
Qed.

(** What a [retire] has once the list is drained. *)
Definition retire_all (w : Http3World) : Http3World :=
  {| provider := drain (provider w); callers := callers w ++ [Retiring (drained (alive_in w) (provider w))];
     streams := streams w |}.

Lemma retire_all_held w n : held n (retire_all w) -> held n w.
Proof.
  intros [E | E]; [done |]. unfold holders in E. simpl in E. rewrite bind_app in E. simpl in E.
  rewrite app_nil_r, !elem_of_app in E. destruct E as [[E | E] | E]; [| by apply drained_held |];
    right; apply elem_of_app; [by left | by right].
Qed.

Lemma retire_all_inv w : http3_inv w -> lock_held w = false -> http3_inv (retire_all w).
Proof.
  intros [H1 H2 H3 H4 H5 H6 H7] El. apply lock_held_count in El as (Hl & Hpl). pose proof (drained_length w) as Hd.
  pose proof (retire_all_held w) as Hh.
  split; unfold lock_count, places, pending in *; simpl; rewrite ?sum_list_with_app, ?bind_app; simpl; try done; try lia.
  - intros n x Hn Hx Hst. right. rewrite app_nil_r, elem_of_app.
    destruct (H1 n x (Hh n Hn) Hx Hst) as [Ha | Hp]; [right; apply held_drained; eauto | by left].
  - eauto.
Qed.

(** A session a [retire] stops is one less it has to. *)
Lemma pending_next i n ns s w m :
  callers w !! i = Some (Retiring (n :: ns)) -> m ∈ pending w -> m = n \/ m ∈ pending (update i (Retiring ns) s w).
Proof.
  intros Hi. unfold pending. simpl. rewrite !list_elem_of_bind. intros (d & Hn & [j Hj]%list_elem_of_lookup).
  destruct (decide (j = i)) as [-> | Hne].
  - rewrite Hj in Hi. injection Hi as ->. apply elem_of_cons in Hn as [-> | Hn]; [by left |]. right.
    exists (Retiring ns). split; [done |]. apply list_elem_of_lookup. exists i.
    apply list_lookup_insert_eq. by eapply lookup_lt_Some.
  - right. exists d. split; [done |]. apply list_elem_of_lookup. exists j. by rewrite list_lookup_insert_ne by done.
Qed.

Lemma holders_retiring i ns w m : callers w !! i = Some (Retiring ns) -> m ∈ ns -> m ∈ holders w.
Proof.
  intros Hi Hm. unfold holders. apply elem_of_app. left. apply list_elem_of_bind. exists (Retiring ns).
  split; [done | by eapply list_elem_of_lookup_2].
Qed.

Lemma retire_next_held i n ns f w m :
  callers w !! i = Some (Retiring (n :: ns)) -> held m (update i (Retiring ns) (alter_session f n (provider w)) w) -> held m w.
Proof.
  intros Hi [E | E]; [by left |]. right. apply holders_update in E as [E | E]; [| done].
  eapply holders_retiring; [done | by right].
Qed.

Lemma retire_next_inv i n ns w :
  http3_inv w -> callers w !! i = Some (Retiring (n :: ns)) ->
  http3_inv (update i (Retiring ns) (alter_session stop_session n (provider w)) w).
Proof.
  intros [H1 H2 H3 H4 H5 H6 H7] Hi. set (w' := update _ _ _ w).
  pose proof (count_update (fun c => if connecting c then 1 else 0)%nat i _ (Retiring ns) w Hi) as Hl.
  pose proof (count_update holds_permit i _ (Retiring ns) w Hi) as Hp.
  pose proof (count_update place i _ (Retiring ns) w Hi) as Hpl. simpl in Hl, Hp, Hpl.
  assert (Hh : forall m, held m w' -> held m w) by (intros m; by eapply retire_next_held).
  split; unfold lock_count, places in *; simpl; rewrite ?dom_alter_L; try done; try lia; eauto.
  intros m x Hm Hx Hst. destruct (decide (m = n)) as [-> | Hne].
  { rewrite lookup_alter_eq in Hx. destruct (_ !! n); [| done]. by injection Hx as <-. }
  rewrite lookup_alter_ne in Hx by done. destruct (H1 m x (Hh m Hm) Hx Hst) as [? | Hpd]; [by left |].
  right. by destruct (pending_next i n ns (alter_session stop_session n (provider w)) w m Hi Hpd).
Qed.

Lemma retire_done_inv i w :
  http3_inv w -> callers w !! i = Some (Retiring []) -> http3_inv (update i (Finished (Ok tt)) (provider w) w).
Proof. intros Hw Hi. eapply update_inv; try done. by intros n ?%elem_of_nil. Qed.

(** [retire] drains the list and stops the first of what it got. *)
Lemma retire_first w w' :
  retire w = Some w' -> lock_held w = false /\ (w' = retire_all w
    \/ exists n ns, callers (retire_all w) !! length (callers w) = Some (Retiring (n :: ns))
        /\ w' = update (length (callers w)) (Retiring ns)
                  (alter_session stop_session n (provider (retire_all w))) (retire_all w)).
Proof.
  unfold retire, retire_all. destruct (lock_held w); [done |].
  destruct (drained (alive_in w) (provider w)) as [|n ns]; intros [= <-]; split; [done | by left | done | right].
  exists n, ns. simpl. rewrite lookup_app_r, Nat.sub_diag by lia. split; [done |].
  unfold update. simpl. by rewrite insert_app_r_alt, Nat.sub_diag by lia.
Qed.

Lemma http3_retire_inv w w' : http3_inv w -> retire w = Some w' -> http3_inv w'.
Proof.
  intros Hw [El [-> | (n & ns & Hi & ->)]]%retire_first; [by apply retire_all_inv |].
  apply retire_next_inv; [by apply retire_all_inv | done].
Qed.

(** A dropped [retire] gives up the lock, and leaves what it had to stop. *)
Lemma retire_drop_inv i ns w :
  http3_inv w -> callers w !! i = Some (Retiring ns) -> http3_inv (update i (Abandoned ns) (provider w) w).
Proof.
  intros Hw Hi. apply (inv_frame w); simpl; try done; eauto.
  - intros n [E | E]; [by left |]. apply holders_update in E as [?%elem_of_nil | E]; [done | by right].
  - pose proof (count_update (fun c => if connecting c then 1 else 0)%nat i _ (Abandoned ns) w Hi). unfold lock_count.
    simpl in *. lia.
  - pose proof (count_update place i _ (Abandoned ns) w Hi). unfold places. simpl in *. lia.
  - intros n. unfold pending. simpl. rewrite !list_elem_of_bind. intros (d & Hn & [j Hj]%list_elem_of_lookup).
    destruct (decide (j = i)) as [-> | Hne].
    + rewrite Hj in Hi. injection Hi as ->. exists (Abandoned ns). split; [done |]. apply list_elem_of_lookup. exists i.
      apply list_lookup_insert_eq. by eapply lookup_lt_Some.
    + exists d. split; [done |]. apply list_elem_of_lookup. exists j. by rewrite list_lookup_insert_ne by done.
  - pose proof (count_update holds_permit i _ (Abandoned ns) w Hi). simpl in *. lia.
Qed.

Lemma request_frame q n s r s' :
  request q n s = (r, s') -> s' = s \/ s' = alter_session retire_session n s.
Proof.
  destruct q as [| | headers e]; simpl; [intros [= <- <-]; by left | intros [= <- <-]; by right |].
  destruct (final_response headers e) as [[status|]|]; [| intros [= <- <-]; by left..].
  destruct (negb _); [intros [= <- <-]; by left |]. by destruct (match _ with Some x => _ | None => _ end); intros [= <- <-]; left.
Qed.

Lemma request_held i n q r s w m :
  callers w !! i = Some (InSession n) -> request q n (provider w) = (Some r, s) ->
  held m (answered i n r s w) -> held m w.
Proof.
  intros Hi E Hm. pose proof (holders_caller i n w Hi) as Hn.
  assert (Hc : current s = current (provider w)) by (by apply request_frame in E as [-> | ->]).
  destruct Hm as [E' | E']; [left; simpl in E'; destruct r; simpl in E'; congruence |]. right.
  unfold holders in E' |- *. simpl in E'. apply elem_of_app in E' as [E' | E'].
  - apply list_elem_of_bind in E' as (d & Hd & Hin). apply elem_of_inserted in Hin as [-> | Hin].
    + by apply elem_of_nil in Hd.
    + apply elem_of_app. left. apply list_elem_of_bind. eauto.
  - destruct r; [apply elem_of_cons in E' as [-> | E']; [done |] |]; apply elem_of_app; by right.
Qed.

Lemma request_inv i n q r s w :
  http3_inv w -> callers w !! i = Some (InSession n) -> request q n (provider w) = (Some r, s) ->
  http3_inv (answered i n r s w).
Proof.
  intros Hw Hi E.
  pose proof (count_update (fun c => if connecting c then 1 else 0)%nat i _ (Finished r) w Hi) as Hl.
  pose proof (count_update holds_permit i _ (Finished r) w Hi) as Hp.
  pose proof (count_update place i _ (Finished r) w Hi) as Hpl. simpl in Hl, Hp, Hpl.
  assert (Hs : forall k x', sessions s !! k = Some x' -> exists x, sessions (provider w) !! k = Some x
               /\ (stopped x' = false -> stopped x = false)).
  { apply request_frame in E as [-> | ->]; [eauto |]. intros k x'. by apply alter_keeps. }
  assert (Hf : dom (sessions s) = dom (sessions (provider w)) /\ all s = all (provider w)
    /\ next s = next (provider w) /\ stop_flag s = stop_flag (provider w) /\ current s = current (provider w)
    /\ permits s = permits (provider w)).
  { apply request_frame in E as [-> | ->]; simpl; rewrite ?dom_alter_L; done. }
  destruct Hf as (F1 & F2 & F3 & F4 & F5 & F6).
  apply (inv_frame w); try done; try (by destruct r); try (unfold lock_count, places; simpl; lia).
  - intros m. by eapply request_held.
  - intros m. by eapply (pending_update i _ (Finished r) s w m Hi).
  - destruct r; simpl; lia.
Qed.

Lemma stream_drop_held j n w s m :
  streams w !! j = Some n -> current s = current (provider w) ->
  held m {| provider := s; callers := callers w; streams := delete j (streams w) |} -> held m w.
Proof.
  intros Hj Hc [E | E]; [left; simpl in E; congruence |]. right. unfold holders in *. simpl in E.
  rewrite (delete_Permutation _ _ _ Hj). apply elem_of_app in E as [E | E]; apply elem_of_app; [by left | right; by right].
Qed.

Lemma http3_step_inv freed w w' : http3_step freed w w' -> http3_inv w -> http3_inv w'.
Proof.
  intros Hstep Hw. http3_step_cases Hstep.
  - by apply start_inv.
  - apply start_inv; [done | unfold dial_start; by repeat case_match ..].
  - eapply update_inv; try done; try (by intros m ?%elem_of_nil); simpl; lia.
  - by eapply begin_inv.
  - by eapply connected_inv.
  - by eapply request_inv.
  - eapply update_inv; try done; try (by intros m ?%elem_of_nil); simpl; try (by destruct c); lia.
  - pose proof (delete_Permutation _ _ _ Hj) as Hd.
    apply (inv_frame w); unfold lock_count; simpl; try done; eauto.
    + intros m. by eapply stream_drop_held.
    + rewrite Hd at 2. simpl. lia.
  - apply (inv_frame w); simpl; try done; [intros m x'; by apply alter_keeps | by rewrite dom_alter_L].
  - apply (inv_frame w); simpl; try done; [intros m x'; by apply alter_keeps | by rewrite dom_alter_L].
  - by eapply http3_retire_inv.
  - by apply retire_next_inv.
  - by apply retire_done_inv.
  - by apply retire_drop_inv.
  - by apply shutdown_inv.
Qed.

Lemma http3_reachable_inv freed w w' : http3_inv w -> rtc (http3_step freed) w w' -> http3_inv w'.
Proof. intros Hw Hr. eapply rtc_preserves; [| exact Hr | exact Hw]. intros x y. apply http3_step_inv. Qed.
(** ** After a shutdown *)

Lemma step_stop_flag freed w w' :
  http3_step freed w w' -> stop_flag (provider w) = true -> stop_flag (provider w') = true.
Proof.
  intros Hstep Hf. http3_step_cases Hstep;
    simpl in *; try done; [| | |].
  - assert (Hs : stop_flag s = true).
    { unfold session_begin in Eb. destruct (current (provider w)); [| by injection Eb as _ <-].
      destruct (match _ with Some x => _ | None => _ end); by injection Eb as _ <-. }
    destruct b; simpl in Ec; [destruct dial | |]; by injection Ec as _ <-.
  - unfold connected, session_end in Ec. rewrite Hf in Ec. destruct connect; by injection Ec as _ <-.
  - assert (Hs : stop_flag s = true) by (apply request_frame in Er as [-> | ->]; done). by destruct r.
  - unfold retire in Hr. destruct (lock_held w); [done |]. by destruct (drained _ _); injection Hr as <-.
Qed.

(** A stopped session carries no new stream. *)
Lemma request_stopped q n s x r s' :
  sessions s !! n = Some x -> stopped x = true -> request q n s = (Some r, s') -> is_ok r = false.
Proof.
  intros Hx Hst. destruct q as [| | headers e]; simpl; [by intros [= <- _].. |].
  destruct (final_response headers e) as [[status|]|]; [| by intros [= <- _] | done].
  destruct (negb _); [by intros [= <- _] |]. rewrite Hx, Hst. by intros [= <- _].
Qed.

Lemma held_stopped w n x :
  http3_inv w -> stop_flag (provider w) = true -> held n w -> sessions (provider w) !! n = Some x ->
  stopped x = true \/ n ∈ pending w.
Proof.
  intros Hw Hf Hn Hx. destruct (stopped x) eqn:E; [by left |]. right.
  destruct (hi_listed w Hw n x Hn Hx E) as [Hin | ?]; [| done]. destruct (hi_stopped w Hw Hf) as [_ Hall].
  rewrite Hall in Hin. by apply elem_of_nil in Hin.
Qed.

(** A stopped provider's [retire]s have no more to stop. *)
Lemma step_pending freed w w' :
  http3_inv w -> stop_flag (provider w) = true -> http3_step freed w w' -> forall m, m ∈ pending w' -> m ∈ pending w.
Proof.
  intros Hw Hf Hstep. http3_step_cases Hstep; try done; intros m.
  - unfold pending. simpl. rewrite bind_app. simpl. by rewrite app_nil_r.
  - unfold pending. simpl. rewrite bind_app. unfold dial_start. by repeat case_match; simpl; rewrite app_nil_r.
  - by intros [?%elem_of_nil | ?]%pending_inserted.
  - intros [Hm | ?]%pending_inserted; [| done].
    destruct b; simpl in Ec; [destruct dial | |]; injection Ec as <- _; by apply elem_of_nil in Hm.
  - intros [Hm | ?]%pending_inserted; [| done]. unfold connected, session_end in Ec. rewrite Hf in Ec.
    destruct connect; injection Ec as <- _; by apply elem_of_nil in Hm.
  - intros Hm. by apply (pending_inserted i (Finished r) s w m) in Hm as [?%elem_of_nil | ?].
  - by intros [?%elem_of_nil | ?]%pending_inserted.
  - unfold retire, drained in Hr. destruct (hi_stopped w Hw Hf) as [_ Hall]. rewrite Hall in Hr.
    destruct (lock_held w); [done |]. injection Hr as <-. unfold pending. simpl. rewrite bind_app. simpl.
    by rewrite app_nil_r.
  - intros [Hm | ?]%pending_inserted; [| done]. unfold pending. apply list_elem_of_bind.
    exists (Retiring (n :: ns)). split; [by right | by eapply list_elem_of_lookup_2].
  - by intros [?%elem_of_nil | ?]%pending_inserted.
  - intros [Hm | ?]%pending_inserted; [| done]. unfold pending. apply list_elem_of_bind.
    exists (Retiring ns). split; [done | by eapply list_elem_of_lookup_2].
Qed.

Lemma step_streams freed w w' :
  http3_inv w -> stop_flag (provider w) = true -> pending w = [] -> http3_step freed w w' ->
  (length (streams w') <= length (streams w))%nat.
Proof.
  intros Hw Hf Hpd Hstep. http3_step_cases Hstep;
    simpl in *; try lia.
  - assert (Hn : held n w) by (right; by eapply holders_caller).
    pose proof (hi_known w Hw n Hn) as [x Hx]%elem_of_dom.
    destruct (held_stopped w n x Hw Hf Hn Hx) as [Hst | Hp]; [| rewrite Hpd in Hp; by apply elem_of_nil in Hp].
    pose proof (request_stopped _ _ _ _ _ _ Hx Hst Er). by destruct r; simpl.
  - rewrite (delete_Permutation _ _ _ Hj) at 2. simpl. lia.
  - unfold retire in Hr. destruct (lock_held w); [done |]. by destruct (drained _ _); injection Hr as <-.
Qed.

End Dial.

(** ** Properties *)

(** the proxy's addresses share one deadline.  However the attempts come
    out, the walk is over by the deadline; every address tried is given at
    least an equal share of the time the dial began with; and unless one of
    them ends the dial (a connection, a TLS refusal, a local failure) every
    address is tried. *)
Theorem http3_addresses_share_deadline spec attempt addresses now deadline r asked ended :
  connect_addresses spec attempt addresses now deadline = (r, asked, ended) -> now <= deadline ->
  let share := (deadline - now) / Z.of_nat (length addresses) in
  ended <= deadline
  /\ Forall (fun t => share <= snd t) asked
  /\ (0 < share -> asked.*1 = addresses
      \/ exists pre a, asked.*1 = (pre ++ [a])%list /\ (pre ++ [a])%list `prefix_of` addresses
           /\ goes_on (attempt a) = false).
Proof.
  intros E Hnow share. apply (connect_loop_spec spec attempt deadline share addresses now _ _ _ _ E Hnow).
  - unfold share. destruct addresses; [by rewrite Zdiv_0_r | apply Z.div_pos; simpl; lia].
  - unfold share. destruct addresses; [simpl; lia |]. rewrite Z.mul_comm. apply Z.mul_div_le. simpl. lia.
Qed.

Definition sample_address (n : Z) : SocketAddr := {| sa_ip := V4 192 0 2 n; sa_port := 443 |}.

Definition sample_attempt (a : SocketAddr) : Attempt :=
  if bool_decide (a = sample_address 3) then Opened 1 else HandshakeTimedOut.

Definition sample_http3 : Http3TunnelSpec := {|
  h3_proxy_config_id := "h3"; h3_revision := "1"; h3_host := "proxy.example"; h3_port := 443;
  h3_credentials := None; h3_request_timeout := from_secs 30 |}.

(** Two silent addresses do not starve the third. *)
Lemma http3_addresses_share_deadline_witness :
  connect_addresses sample_http3 sample_attempt (sample_address <$> [1; 2; 3]) 0 30
  = (Ok tt, [(sample_address 1, 10); (sample_address 2, 10); (sample_address 3, 10)], 21)
  /\ 21 <= 30.
Proof.
  assert (E : connect_addresses sample_http3 sample_attempt (sample_address <$> [1; 2; 3]) 0 30
    = (Ok tt, [(sample_address 1, 10); (sample_address 2, 10); (sample_address 3, 10)], 21)) by reflexivity.
  split; [exact E |].
  exact (proj1 (http3_addresses_share_deadline sample_http3 sample_attempt _ 0 30 _ _ _ E ltac:(lia))).
Defined.

(** C25: sessions and streams are bounded.  Whatever dials, requests, timeouts,
    retires and failures interleave, at most four sessions that are not stopped
    are held at a time, draining ones included, besides the strays that dropped
    retires left behind; one connect is under way at most; and the dials and
    streams under way and the free permits always make 128, so no permit is
    lost. *)
Theorem http3_sessions_bounded {Authority} spec (parse_authority : string -> option Authority) freed (w : Http3World) :
  rtc (http3_step spec parse_authority freed) world_new w ->
  (forall ns, NoDup ns ->
     (forall n, n ∈ ns -> held n w /\ exists x, sessions (provider w) !! n = Some x /\ stopped x = false) ->
     (length ns <= MAX_SESSIONS + length (strays w))%nat)
  /\ (lock_count w <= 1)%nat
  /\ (permits (provider w) + sum_list_with holds_permit (callers w) + length (streams w) = MAX_STREAMS)%nat.
Proof.
  intros Hr. pose proof (http3_reachable_inv spec parse_authority freed _ _ world_new_inv Hr) as Hw. split_and!; [| apply Hw | apply Hw].
  intros ns Hnd Hns. pose proof (hi_bound w Hw) as Hb.
  assert (Hsub : ns ⊆ (all (provider w) ++ pending w)%list).
  { intros n Hn. destruct (Hns n Hn) as (Hh & x & Hx & Hst). apply elem_of_app. by eapply (hi_listed w Hw). }
  pose proof (submseteq_length _ _ (NoDup_submseteq _ _ Hnd Hsub)) as Hlen. rewrite length_app in Hlen.
  pose proof (pending_places w). lia.
Qed.

(** C26: shutdown ends the provider.  From the moment its sessions are stopped,
    even with a connect under way, no session is current or listed again; every
    session a call or a stream still holds is stopped, except the ones a
    [retire] begun before has still to stop or was dropped before stopping, and
    there are never more of those; and unless there were any, no stream is
    added. *)
Theorem http3_shutdown_final {Authority} spec (parse_authority : string -> option Authority) freed (w w' : Http3World) :
  rtc (http3_step spec parse_authority freed) world_new w ->
  rtc (http3_step spec parse_authority freed) (shutdown w) w' ->
  current (provider w') = None /\ all (provider w') = []
  /\ (forall n x, held n w' -> sessions (provider w') !! n = Some x -> stopped x = true \/ n ∈ pending w')
  /\ (forall n, n ∈ pending w' -> n ∈ pending w)
  /\ (pending w = [] -> (length (streams w') <= length (streams w))%nat).
Proof.
  intros Hr Hr'. pose proof (http3_reachable_inv spec parse_authority freed _ _ world_new_inv Hr) as Hw.
  pose proof (shutdown_inv w Hw) as H0.
  assert (Hall : http3_inv w' /\ stop_flag (provider w') = true /\ (forall n, n ∈ pending w' -> n ∈ pending w)
    /\ (pending w = [] -> (length (streams w') <= length (streams w))%nat)).
  { eapply (rtc_preserves _ (fun x => http3_inv x /\ stop_flag (provider x) = true
      /\ (forall n, n ∈ pending x -> n ∈ pending w)
      /\ (pending w = [] -> (length (streams x) <= length (streams w))%nat))); [| exact Hr' | done].
    intros x y Hstep (I1 & I2 & I3 & I4).
    split_and!; [by eapply http3_step_inv | by eapply step_stop_flag | intros n Hn; by eapply I3, step_pending |].
    intros Hp. assert (Hx : pending x = []) by (apply elem_of_nil_inv; intros n Hn; apply I3 in Hn; rewrite Hp in Hn;
      by apply elem_of_nil in Hn).
    pose proof (step_streams _ _ _ _ _ I1 I2 Hx Hstep). specialize (I4 Hp). lia. }
  destruct Hall as (I1 & I2 & I3 & I4).
  split_and!; [by apply (hi_stopped w' I1) | by apply (hi_stopped w' I1) | | done | done].
  intros n x Hn Hx. by eapply held_stopped.
Qed.

Definition sample_parse (host : string) : option string := Some host.

Definition sample_freed : SlotFreed := {| slot_freed_id := 0 |}.

(** A dial that is connecting, and the session it gets. *)
Definition sample_connecting : Http3World :=
  {| provider := set_permits 127 http3_new; callers := [Connecting true]; streams := [] |}.

Definition sample_connected : Http3World :=
  {| provider := add_session (set_permits 127 http3_new); callers := [InSession 0]; streams := [] |}.

Lemma sample_connecting_reached : rtc (http3_step sample_http3 sample_parse sample_freed) world_new sample_connecting.
Proof.
  eapply rtc_l; [apply (h_dial _ _ _ "tracker.example" 80) |]. simpl.
  eapply rtc_l; [by apply (h_permit _ _ _ 0 127) |].
  apply rtc_once. by apply (h_begin sample_http3 sample_parse sample_freed 0 true MustConnect (set_permits 127 http3_new)
    (Connecting true) (set_permits 127 http3_new)
    {| provider := set_permits 127 http3_new; callers := [Ready_ true]; streams := [] |}).
Qed.

Lemma sample_connected_reached : rtc (http3_step sample_http3 sample_parse sample_freed) world_new sample_connected.
Proof.
  eapply rtc_r; [apply sample_connecting_reached |].
  by apply (h_connected sample_http3 sample_parse sample_freed 0 true (Ok tt) (InSession 0)
    (add_session (set_permits 127 http3_new)) sample_connecting).
Qed.

Lemma http3_sessions_bounded_witness :
  held 0 sample_connected
  /\ (permits (provider sample_connected) + sum_list_with holds_permit (callers sample_connected) = 128)%nat.
Proof.
  destruct (http3_sessions_bounded sample_http3 sample_parse sample_freed sample_connected sample_connected_reached) as (_ & _ & Hp).
  split; [by left |]. unfold MAX_STREAMS in Hp. rewrite <- Hp. reflexivity.
Defined.

(** The connect that ends after the shutdown. *)
Lemma http3_shutdown_final_witness :
  lock_held sample_connecting = true
  /\ current (provider (update 0 (Finished (Err (provider_stopped sample_http3)))
       (give_back (Connecting true) (drop_session (provider (shutdown sample_connecting))))
       (shutdown sample_connecting))) = None.
Proof.
  split; [reflexivity |].
  apply (http3_shutdown_final sample_http3 sample_parse sample_freed sample_connecting _ sample_connecting_reached).
  apply rtc_once. by apply (h_connected sample_http3 sample_parse sample_freed 0 true (Ok tt)).
Defined.

(** ** A dropped [retire] *)

(** Two sessions with a stream each, the older one retiring since it could open
    no more; a [retire] has stopped it and was dropped at its wait. *)
Definition sample_strayed : Http3World :=
  {| provider := {| sessions := {[0%nat := {| retiring := true; stopped := true; dead := false |}; 1%nat := session_new]};
                    current := None; all := []; permits := 126; stop_flag := false; next := 2 |};
     callers := [Finished (Ok tt); Finished (Err (connect_error sample_http3 "HTTP/3 connection cannot open a new stream"));
                 Finished (Ok tt); Abandoned [1%nat]];
     streams := [1%nat; 0%nat] |}.

Lemma sample_strayed_reached :
  rtc (http3_step sample_http3 sample_parse sample_freed) world_new sample_strayed.
Proof.
  take_step (h_dial sample_http3 sample_parse sample_freed "a.example" 80). take_step (h_permit sample_http3 sample_parse sample_freed 0 127).
  take_step (h_begin sample_http3 sample_parse sample_freed 0 true). take_step (h_connected sample_http3 sample_parse sample_freed 0 true (Ok tt)).
  take_step (h_request sample_http3 sample_parse sample_freed 0 0 (Sent [200] HeadersSilent) (Ok tt)).
  take_step (h_dial sample_http3 sample_parse sample_freed "b.example" 80). take_step (h_permit sample_http3 sample_parse sample_freed 1 126).
  take_step (h_begin sample_http3 sample_parse sample_freed 1 true).
  take_step (h_request sample_http3 sample_parse sample_freed 1 0 SendFailed).
  take_step (h_dial sample_http3 sample_parse sample_freed "c.example" 80). take_step (h_permit sample_http3 sample_parse sample_freed 2 126).
  take_step (h_begin sample_http3 sample_parse sample_freed 2 true). take_step (h_connected sample_http3 sample_parse sample_freed 2 true (Ok tt)).
  take_step (h_request sample_http3 sample_parse sample_freed 2 1 (Sent [200] HeadersSilent) (Ok tt)).
  take_step (h_retire sample_http3 sample_parse sample_freed). take_step (h_retire_drop sample_http3 sample_parse sample_freed 3 [1%nat]).
  apply rtc_refl.
Qed.

(** A stray escapes a shutdown: the session of a stream that a dropped [retire]
    left behind is still running after it, listed nowhere. *)
Lemma dropped_retire_escapes :
  exists w n x, rtc (http3_step sample_http3 sample_parse sample_freed) world_new w
    /\ n ∈ streams (shutdown w) /\ sessions (provider (shutdown w)) !! n = Some x /\ usable x = true
    /\ all (provider (shutdown w)) = [].
Proof.
  exists sample_strayed, 1%nat, session_new. split; [apply sample_strayed_reached |].
  split; [by left |]. split_and!; vm_compute; reflexivity.
Qed.
