(* ===== verification/Http3Signal.v ===== *)
(** * A freed session is announced ([Drop for Session] of [src/http3/mod.rs])

    A dial refused because four sessions are alive carries the signal that rings
    when one is gone; its caller registers for the signal, dials again, and
    waits.  Dropping a session stops it, which is a step of the provider, and
    then rings: [signal_step] adds the ring. *)

From Stdlib Require Import ZArith Lia String Ascii.
From stdpp Require Import gmap strings numbers prelude.
From S2P Require Import Prelude Net Errors Endpoint Provider Http3Spec Http3.

(** [gone] are the sessions whose drop is over: each has rung once. *)
Record SignalWorld : Type := { world : Http3World; gone : gset nat; rings : nat }.

Definition signal_new : SignalWorld := {| world := world_new; gone := ∅; rings := 0 |}.

(** The end of a drop. *)
Definition announce (n : nat) (w : Http3World) (x : SignalWorld) : SignalWorld :=
  {| world := w; gone := {[n]} ∪ gone x; rings := S (rings x) |}.

(** A whole drop: the session is stopped, and the signal rung. *)
Definition session_drop (n : nat) (x : SignalWorld) : SignalWorld :=
  let w := world x in
  announce n {| provider := alter_session stop_session n (provider w); callers := callers w; streams := streams w |} x.

Section Signal.
Variable spec : Http3TunnelSpec.
Context {Authority : Type} (parse_authority : string -> option Authority).
Variable freed : SlotFreed.

Notation step := (http3_step spec parse_authority freed).

Inductive signal_step : SignalWorld -> SignalWorld -> Prop :=
| sg_step w x : step (world x) w -> signal_step x {| world := w; gone := gone x; rings := rings x |}
| sg_announce n s x :
    ~ held n (world x) -> n ∉ gone x -> sessions (provider (world x)) !! n = Some s -> stopped s = true ->
    signal_step x (announce n (world x) x).

(** ** A session nothing holds is never held again *)

(** What a step can newly hold or list is the session it makes. *)
Record grows (w w' : Http3World) : Prop := {
  gr_held : forall n, held n w' -> held n w \/ n = next (provider w);
  gr_all : forall n, n ∈ all (provider w') -> n ∈ all (provider w) \/ n = next (provider w);
  gr_dom : dom (sessions (provider w)) ⊆ dom (sessions (provider w'))
}.

Lemma held_update i c s w n :
  current s = current (provider w) -> held n (update i c s w) -> n ∈ in_session c \/ held n w.
Proof.
  intros Hc [E | E]; [right; left; simpl in E; congruence |].
  apply holders_update in E as [E | E]; [by left | right; by right].
Qed.

Lemma grows_same w w' :
  (forall n, held n w' -> held n w) -> all (provider w') = all (provider w) ->
  dom (sessions (provider w')) = dom (sessions (provider w)) -> grows w w'.
Proof. intros Hh Ha Hd. split; [eauto | rewrite Ha; eauto | by rewrite Hd]. Qed.

Lemma grows_idle c w :
  in_session c = [] -> grows w {| provider := provider w; callers := callers w ++ [c]; streams := streams w |}.
Proof.
  intros Hc. apply grows_same; try done. intros n. unfold held, holders. simpl. rewrite bind_app. simpl.
  by rewrite Hc, !app_nil_r.
Qed.

Lemma grows_update i c s w :
  in_session c = [] -> current s = current (provider w) -> all s = all (provider w) ->
  dom (sessions s) = dom (sessions (provider w)) -> grows w (update i c s w).
Proof.
  intros Hin Hc Ha Hd. apply grows_same; [| done | done]. intros n Hn.
  apply held_update in Hn as [Hn | Hn]; [| done..]. rewrite Hin in Hn. by apply elem_of_nil in Hn.
Qed.

Lemma session_begin_cases alive s b s' :
  session_begin alive s = (b, s') ->
  (exists n, b = Reuse n /\ current s = Some n /\ s' = s)
  \/ s' = prune alive s /\ b = if (MAX_SESSIONS <=? length (all (prune alive s)))%nat then Full else MustConnect.
Proof.
  unfold session_begin. destruct (current s) as [n|]; [| intros [= <- <-]; by right].
  destruct (match sessions s !! n with Some x => _ | None => _ end); intros [= <- <-]; [left; eauto | by right].
Qed.

Lemma begin_grows i dial b s c s' w :
  session_begin (alive_in w) (provider w) = (b, s) -> begun dial b freed s = (c, s') -> grows w (update i c s' w).
Proof.
  intros [(n & -> & Hn & ->) | [-> ->]]%session_begin_cases Ec.
  - simpl in Ec. destruct dial; injection Ec as <- <-; [| by apply grows_update].
    apply grows_same; [| done | done]. intros m Hm. apply held_update in Hm as [Hm | Hm]; [| done..].
    apply list_elem_of_singleton in Hm as ->. by left.
  - assert (Hs : current s' = None /\ all s' = all (prune (alive_in w) (provider w))
      /\ sessions s' = sessions (provider w) /\ in_session c = []).
    { destruct (_ <=? _)%nat; injection Ec as <- <-; done. }
    destruct Hs as (Hc & Ha & Hse & Hin). split; simpl; rewrite ?Hse; [| | done].
    + intros m [E | E]; [simpl in E; congruence |]. apply holders_update in E as [E | E]; [| left; by right].
      rewrite Hin in E. by apply elem_of_nil in E.
    + rewrite Ha. simpl. intros m [_ Hm]%list_elem_of_filter. by left.
Qed.

Lemma connected_grows i dial connect c s w :
  connected spec dial connect (provider w) = (c, s) -> grows w (update i c s w).
Proof.
  unfold connected, session_end. destruct connect as [[]|e]; [| intros [= <- <-]; by apply grows_update].
  assert (Hd : forall x, dom (sessions (provider w)) ⊆ dom (<[next (provider w) := x]> (sessions (provider w))))
    by (intros x; rewrite dom_insert_L; set_solver).
  destruct (stop_flag (provider w)).
  { intros [= <- <-]. split; simpl; [| eauto | done]. intros m Hm. left.
    by apply held_update in Hm as [?%elem_of_nil | ?]. }
  assert (Hadd : forall c', (in_session c' ⊆ [next (provider w)]) -> grows w (update i c' (add_session (provider w)) w)).
  { intros c' Hc'. split; simpl; [| | done].
    - intros m [[= <-] | E]; [by right |]. apply holders_update in E as [E | E]; [right | left; by right].
      by apply Hc', list_elem_of_singleton in E.
    - intros m [Hm | ->%list_elem_of_singleton]%elem_of_app; [by left | by right]. }
  destruct dial; intros [= <- <-]; apply Hadd; simpl; set_solver.
Qed.

Lemma step_grows w w' : step w w' -> grows w w'.
Proof.
  intros Hstep. http3_step_cases Hstep.
  - by apply grows_idle.
  - apply grows_idle. unfold dial_start. by repeat case_match.
  - by apply grows_update.
  - by eapply begin_grows.
  - by eapply connected_grows.
  - apply grows_same; [intros m; by eapply request_held |..];
      apply request_frame in Er as [-> | ->]; destruct r; simpl; by rewrite ?dom_alter_L.
  - by apply grows_update.
  - apply grows_same; [intros m; by eapply stream_drop_held | done | done].
  - apply grows_same; [done | done | simpl; by rewrite dom_alter_L].
  - apply grows_same; [done | done | simpl; by rewrite dom_alter_L].
  - destruct (retire_first _ _ Hr) as [_ [-> | (n & ns & Hi & ->)]]; split; simpl; try rewrite dom_alter_L; try done;
      try (by intros n ?%elem_of_nil); try (by intros m ?%elem_of_nil).
    + intros n Hn. left. by apply retire_all_held.
    + intros m Hm. left. apply retire_all_held. by eapply retire_next_held.
  - apply grows_same; [intros m; by eapply retire_next_held | done | simpl; by rewrite dom_alter_L].
  - by apply grows_update.
  - by apply grows_update.
  - split; simpl; [| by intros n ?%elem_of_nil | by rewrite foldr_stop_dom]. intros n [E | E]; [done |]. left. by right.
Qed.

(** ** From the refusal on *)

#[local] Instance held_dec n w : Decision (held n w).
Proof. unfold held. apply _. Defined.

(** Where the sessions [l] that a refused dial found can be. *)
Definition since (l : list nat) (w : Http3World) : Prop :=
  (all (provider w) = l /\ current (provider w) = None)
  \/ (exists n, n ∈ l /\ (~ held n w \/ n ∉ all (provider w))).

Lemma full_begin l dial b c s s' i w :
  all (provider w) = l -> current (provider w) = None ->
  session_begin (alive_in w) (provider w) = (b, s) -> begun dial b freed s = (c, s') -> since l (update i c s' w).
Proof.
  intros Ha Hc [(n & _ & Hn & _) | [-> ->]]%session_begin_cases Ec; [congruence |].
  assert (Hs : all s' = filter (fun m => alive_in w m = true) l /\ current s' = None)
    by (rewrite <- Ha; destruct (_ <=? _)%nat; injection Ec as _ <-; done).
  destruct Hs as [Hs Hc']. destruct (decide (Forall (fun m => alive_in w m = true) l)) as [Hl | Hl].
  - left. simpl. split; [| done]. rewrite Hs. by apply list_filter_all.
  - apply not_Forall_Exists, Exists_exists in Hl as (n & Hn & Hd); [| apply _]. right. exists n. split; [done |].
    right. simpl. rewrite Hs. intros [? _]%list_elem_of_filter. done.
Qed.

Lemma full_step l w w' :
  http3_inv w -> (MAX_SESSIONS <= length l)%nat -> all (provider w) = l -> current (provider w) = None ->
  step w w' -> since l w'.
Proof.
  intros Hw Hlen Ha Hc Hstep.
  assert (Hnil : forall x, all (provider x) = [] -> since l x).
  { intros x Hx. destruct l as [|n l]; [simpl in Hlen; unfold MAX_SESSIONS in Hlen; lia |]. right. exists n.
    split; [by left |]. right. rewrite Hx. apply not_elem_of_nil. }
  http3_step_cases Hstep; try (by left).
  - by eapply full_begin.
  - pose proof (hi_bound w Hw) as Hb. pose proof (count_update place i _ (Finished (Ok tt)) w Hi) as Hpl.
    unfold places in Hb. simpl in Hpl. rewrite Ha in Hb. lia.
  - left. apply request_frame in Er as [-> | ->]; by destruct r.
  - apply Hnil. by destruct (retire_first _ _ Hr) as [_ [-> | (n & ns & _ & ->)]].
  - by apply Hnil.
Qed.

Lemma since_step l w w' :
  http3_inv w -> (MAX_SESSIONS <= length l)%nat -> (forall n, n ∈ l -> n ∈ dom (sessions (provider w))) ->
  step w w' -> since l w -> since l w'.
Proof.
  intros Hw Hl Hdom Hstep [[Ha Hc] | (n & Hn & Hgone)]; [by eapply full_step |].
  pose proof (step_grows _ _ Hstep) as [Gh Ga _]. right. exists n. split; [done |].
  assert (Hne : n <> next (provider w)) by (specialize (hi_next w Hw n (Hdom n Hn)); lia).
  destruct Hgone as [Hg | Hg]; [left | right]; intros Hn'; destruct Hg; [by destruct (Gh n Hn') | by destruct (Ga n Hn')].
Qed.

(** A session whose drop is over is held by nothing, and rang. *)
Record signal_inv (x : SignalWorld) : Prop := {
  si_world : http3_inv (world x);
  si_gone : forall n, n ∈ gone x -> ~ held n (world x) /\ n ∈ dom (sessions (provider (world x)));
  si_rings : rings x = size (gone x)
}.

Lemma signal_step_inv x y : signal_step x y -> signal_inv x -> signal_inv y.
Proof.
  intros Hstep [I1 I2 I3]. destruct Hstep as [w x Hstep | n s x Hn Hg Hs _].
  - pose proof (step_grows _ _ Hstep) as [Gh _ Gd]. split; simpl; [by eapply http3_step_inv | | done].
    intros n Hn. destruct (I2 n Hn) as [Hh Hd]. split; [| by apply Gd]. intros Hh'.
    destruct (Gh n Hh') as [? | ->]; [done |]. specialize (hi_next _ I1 _ Hd). lia.
  - split; simpl; [done | |].
    + intros m [->%elem_of_singleton | Hm]%elem_of_union; [| by apply I2]. split; [done | by eapply elem_of_dom_2].
    + rewrite size_union, size_singleton by set_solver. lia.
Qed.

Lemma signal_reachable_inv x y : rtc signal_step x y -> signal_inv x -> signal_inv y.
Proof. intros Hr Hx. eapply rtc_preserves; [| exact Hr | exact Hx]. apply signal_step_inv. Qed.

Lemma signal_new_inv : signal_inv signal_new.
Proof. split; simpl; [apply world_new_inv | by intros n ?%elem_of_empty | done]. Qed.

(** The drop of a session nothing holds goes through. *)
Lemma session_drop_runs n x :
  signal_inv x -> ~ held n (world x) -> n ∉ gone x -> n ∈ dom (sessions (provider (world x))) ->
  rtc signal_step x (session_drop n x).
Proof.
  intros Hx Hn Hg [s Hs]%elem_of_dom.
  eapply rtc_l; [apply sg_step; by apply (h_session_drop _ _ _ n) |]. apply rtc_once.
  apply (sg_announce n (stop_session s)); simpl; [done | done | | done]. by rewrite lookup_alter_eq, Hs.
Qed.

(** What a run after the refusal keeps. *)
Lemma since_run l x y :
  rtc signal_step x y -> signal_inv x -> (MAX_SESSIONS <= length l)%nat ->
  (forall n, n ∈ l -> n ∈ dom (sessions (provider (world x))) /\ n ∉ gone x) -> since l (world x) ->
  since l (world y) /\ gone x ⊆ gone y /\ forall n, n ∈ l -> n ∈ dom (sessions (provider (world y))).
Proof.
  intros Hr Hx Hl Hdom Hs.
  assert (Hy : signal_inv y /\ since l (world y) /\ gone x ⊆ gone y
    /\ forall n, n ∈ l -> n ∈ dom (sessions (provider (world y)))).
  { eapply (rtc_preserves _ (fun z => signal_inv z /\ since l (world z) /\ gone x ⊆ gone z
      /\ forall n, n ∈ l -> n ∈ dom (sessions (provider (world z))))); [| exact Hr |].
    2: { split_and!; [done | done | done | intros n Hn; by apply Hdom]. }
    intros z z' Hstep (I1 & I2 & I3 & I4). split; [by eapply signal_step_inv |].
    destruct Hstep as [w z Hstep | n s z _ _ _ _]; simpl; [| split_and!; [done | set_solver | done]].
    split_and!; [by eapply since_step, I2; [apply I1 | ..] | done |].
    intros n Hn. by apply (gr_dom _ _ (step_grows _ _ Hstep)), I4. }
  by destruct Hy as (_ & ? & ? & ?).
Qed.

(** Steps of the provider alone. *)
Lemma sg_run g r w w' :
  rtc step w w' -> rtc signal_step {| world := w; gone := g; rings := r |} {| world := w'; gone := g; rings := r |}.
Proof.
  induction 1 as [w | w w1 w' Hstep _ IH]; [apply rtc_refl |]. eapply rtc_l; [| exact IH].
  by apply (sg_step w1 {| world := w; gone := g; rings := r |}).
Qed.

End Signal.

(** C27: a refused dial is told when to try again.  When a dial is refused because
    four sessions are alive: at any later time, however the provider's calls
    interleave, either a dial would still be refused, or the signal the refusal
    carried has rung since, or the drop of one of the four is under way and rings
    it, or a retire or shutdown has taken one of the four off the list. *)
Theorem http3_refusal_answered {Authority} spec (parse_authority : string -> option Authority) freed
    (x y : SignalWorld) i dial s c s' :
  rtc (signal_step spec parse_authority freed) signal_new x ->
  callers (world x) !! i = Some (Ready_ dial) -> lock_held (world x) = false ->
  session_begin (alive_in (world x)) (provider (world x)) = (Full, s) -> begun dial Full freed s = (c, s') ->
  rtc (signal_step spec parse_authority freed)
    {| world := update i c s' (world x); gone := gone x; rings := rings x |} y ->
  (exists t, session_begin (alive_in (world y)) (provider (world y)) = (Full, t))
  \/ (rings x < rings y)%nat
  \/ (exists n, n ∈ all s /\ ~ held n (world y)
       /\ rtc (signal_step spec parse_authority freed) y (session_drop n y))
  \/ (exists n, n ∈ all s /\ held n (world y) /\ n ∉ all (provider (world y))).
Proof.
  intros Hr Hi Hl Eb Ec Hr'. pose proof (signal_reachable_inv _ _ _ _ _ Hr signal_new_inv) as Hx.
  set (x1 := {| world := update i c s' (world x); gone := gone x; rings := rings x |}) in *.
  assert (Hx1 : signal_inv x1) by (eapply (signal_step_inv spec parse_authority freed); [by eapply sg_step, h_begin | done]).
  pose proof (signal_reachable_inv _ _ _ _ _ Hr' Hx1) as Hy.
  apply session_begin_cases in Eb as [(n & [=] & _) | [-> Hfull]].
  set (l := all (prune _ _)) in *. injection Ec as <- <-.
  assert (Hlen : (MAX_SESSIONS <= length l)%nat) by (by destruct (Nat.leb_spec MAX_SESSIONS (length l))).
  assert (Hheld : forall n, n ∈ l -> held n (world x))
    by (intros n [Hn _]%list_elem_of_filter; right; by apply bool_decide_eq_true_1 in Hn).
  destruct (since_run spec parse_authority freed l x1 y Hr' Hx1 Hlen) as (Hs & Hg & Hd).
  { intros n Hn%Hheld. split; [by apply (hi_known _ (si_world _ Hx)) |]. intros Hgone. by apply (si_gone _ Hx) in Hgone as []. }
  { by left. }
  assert (Hlost : forall n, n ∈ l -> ~ held n (world y) -> (rings x < rings y)%nat
    \/ (exists n, n ∈ l /\ ~ held n (world y) /\ rtc (signal_step spec parse_authority freed) y (session_drop n y))).
  { intros n Hn Hnh. destruct (decide (n ∈ gone y)) as [Hng | Hng].
    - left. rewrite (si_rings _ Hx), (si_rings _ Hy). apply subset_size. split; [done |]. intros Hsub.
      apply Hsub, (si_gone _ Hx) in Hng as [Hno _]. by apply Hno, Hheld.
    - right. exists n. split_and!; [done | done |]. apply session_drop_runs; auto. }
  destruct Hs as [[Ha Hc] | (n & Hn & Hgone)].
  - destruct (decide (Forall (fun m => alive_in (world y) m = true) l)) as [Hal | Hal].
    + left. unfold session_begin. rewrite Hc. exists (prune (alive_in (world y)) (provider (world y))).
      assert (Hall : all (prune (alive_in (world y)) (provider (world y))) = l)
        by (cbn [all prune]; by rewrite Ha, list_filter_all).
      rewrite Hall. by destruct (Nat.leb_spec MAX_SESSIONS (length l)); [| lia].
    + apply not_Forall_Exists, Exists_exists in Hal as (n & Hn & Hdead); [| apply _].
      destruct (Hlost n Hn); [| by auto | by auto]. intros [? | ?]; [congruence | by apply Hdead, bool_decide_eq_true_2].
  - destruct (decide (held n (world y))) as [Hh | Hh]; [| destruct (Hlost n Hn Hh); by auto].
    right; right; right. exists n. split_and!; [done | done |]. by destruct Hgone.
Qed.

(** ** An example *)

(** Four sessions that died under their streams, and a dial about to ask for a
    fifth. *)
Definition full_world : Http3World :=
  let dead_session := kill_session session_new in
  {| provider := {| sessions := {[0%nat := dead_session; 1%nat := dead_session; 2%nat := dead_session; 3%nat := dead_session]};
                    current := Some 3%nat; all := [0; 1; 2; 3]%nat; permits := 123; stop_flag := false; next := 4 |};
     callers := [Finished (Ok tt); Finished (Ok tt); Finished (Ok tt); Finished (Ok tt); Ready_ true];
     streams := [3; 2; 1; 0]%nat |}.

Definition full_signal : SignalWorld := {| world := full_world; gone := ∅; rings := 0 |}.


(** Dial [i] opens session [i], which dies under its stream. *)
Ltac open_and_die i p :=
  take_step (h_dial sample_http3 sample_parse sample_freed "a.example"%string 80%Z);
  take_step (h_permit sample_http3 sample_parse sample_freed i p);
  take_step (h_begin sample_http3 sample_parse sample_freed i true);
  take_step (h_connected sample_http3 sample_parse sample_freed i true (Ok tt));
  take_step (h_request sample_http3 sample_parse sample_freed i i (Sent [200%Z] HeadersSilent) (Ok tt));
  take_step (h_session_dies sample_http3 sample_parse sample_freed i).

Lemma full_reached : rtc (http3_step sample_http3 sample_parse sample_freed) world_new full_world.
Proof.
  open_and_die 0%nat 127%nat. open_and_die 1%nat 126%nat. open_and_die 2%nat 125%nat. open_and_die 3%nat 124%nat.
  take_step (h_dial sample_http3 sample_parse sample_freed "a.example"%string 80%Z).
  take_step (h_permit sample_http3 sample_parse sample_freed 4 123). apply rtc_refl.
Qed.

(** The refusal, and the end of the oldest session's stream. *)
Definition refused_state : Http3State := prune (alive_in full_world) (provider full_world).

Definition refused_world : Http3World :=
  update 4 (Finished (Err (AtCapacity 4 sample_freed))) (give_back (Ready_ true) refused_state) full_world.

Definition ended_world : Http3World :=
  {| provider := set_permits (S (permits (provider refused_world))) (provider refused_world);
     callers := callers refused_world; streams := [3; 2; 1]%nat |}.

Lemma http3_refusal_answered_witness :
  exists n, rtc (signal_step sample_http3 sample_parse sample_freed)
    {| world := ended_world; gone := ∅; rings := 0 |} (session_drop n {| world := ended_world; gone := ∅; rings := 0 |}).
Proof.
  destruct (http3_refusal_answered sample_http3 sample_parse sample_freed full_signal
    {| world := ended_world; gone := ∅; rings := 0 |} 4 true refused_state
    (Finished (Err (AtCapacity 4 sample_freed))) (give_back (Ready_ true) refused_state))
    as [[t E] | [E | [(n & _ & _ & Hn) | (n & Hn & _ & Hout)]]]; try (vm_compute; reflexivity).
  - apply (sg_run _ _ _ ∅ 0), full_reached.
  - apply (sg_run _ _ _ ∅ 0), rtc_once. by apply (h_stream_drop _ _ _ 3 0 refused_world).
  - vm_compute in E. discriminate E.
  - simpl in E. lia.
  - by exists n.
  - destruct Hout. exact Hn.
Defined.
