(* ===== verification/Ssh.v ===== *)
(** * The SSH provider ([src/ssh.rs])

    Host-key policy, one lazily established session, and a channel per dial.
    The server, the transport, the observer's answers and russh are the
    environment: each connection attempt, authorization call and channel open
    reads the next answer of an arbitrary oracle, so a theorem holds whatever
    they do.  The log records every effect in order.

    [session] and [replace_session] run under the session lock; [open_channel]
    does not, so dials interleave between those calls, and [ssh_step] is that
    interleaving. *)

From Stdlib Require Import ZArith Lia String Ascii.
From stdpp Require Import gmap strings numbers prelude.
From S2P Require Import Prelude TextFacts Net Errors Provider.

Open Scope string_scope.
Open Scope Z_scope.

Definition ED25519_ONLY_PRIVATE_KEY_MESSAGE : string :=
  "only Ed25519 private keys are supported; generate one with `ssh-keygen -t ed25519` and paste the OpenSSH private key".

(** ** Private keys *)

Inductive KeyError : Type :=
| KeyIsEncrypted
| UnsupportedKeyType
| OtherKeyError (message : string).

(** A decoded key: its algorithm and the secret itself. *)
Record PrivateKey : Type := { algorithm : string; secret : list Z }.

Definition ED25519 : string := "ssh-ed25519".

Definition decode_ed25519_private_key
    (decode_secret_key : string -> option string -> Result PrivateKey KeyError)
    (pem : string) (passphrase : option string) : Result PrivateKey TunnelError :=
  let? key := map_err (fun error => Configuration
    match error with
    | KeyIsEncrypted => "the private key is passphrase-protected; supply the passphrase"
    | UnsupportedKeyType => ED25519_ONLY_PRIVATE_KEY_MESSAGE
    | OtherKeyError other => "the private key could not be read: " ++ other
    end) (decode_secret_key (trim pem) passphrase) in
  if negb (String.eqb (algorithm key) ED25519)
  then Err (Configuration (ED25519_ONLY_PRIVATE_KEY_MESSAGE ++ " (this key is " ++ algorithm key ++ ")"))
  else Ok key.

Definition validate_private_key decode_secret_key (pem : string) (passphrase : option string)
  : Result unit TunnelError :=
  let? _ := decode_ed25519_private_key decode_secret_key pem passphrase in Ok tt.

(** ** The provider's state *)

Record HostKeyState : Type := {
  fingerprint : option string;
  newly_pinned : bool;
  reported : bool
}.

Definition host_key_default : HostKeyState :=
  {| fingerprint := None; newly_pinned := false; reported := false |}.

Record TunnelHandshake : Type := {
  hs_fingerprint : string;
  hs_newly_pinned : bool;
  hs_endpoint : string
}.

(** The part of russh's [client::Config] that bounds a silent server. *)
Record ClientConfig : Type := {
  keepalive_interval : option Duration;
  keepalive_max : nat
}.

Definition KEEPALIVE_INTERVAL : Duration := from_secs 30.
Definition KEEPALIVE_MAX : nat := 3.

Definition client_config : ClientConfig :=
  {| keepalive_interval := Some KEEPALIVE_INTERVAL; keepalive_max := KEEPALIVE_MAX |}.

(** What the far side does with a credential.  When it never answers, [ends] is
    how russh ends the wait under a configuration, if it does, and [alive] says
    that the server goes on answering keepalives. *)
Inductive AuthReply : Type :=
| AuthSuccess
| AuthRejected
| AuthError (error : string)
| AuthUnanswered (alive : bool) (ends : ClientConfig -> Poll string).

(** What the far side does with one connection attempt. *)
Inductive Handshake : Type :=
| TransportFailed (error : TunnelError)
| KexFailed (error : string)
| NoAnswer
| KeyOffered (actual : string) (rest : AfterKey)
with AfterKey : Type :=
| KexInterrupted (error : string)
| KexTimedOut
| Established (source : option SocketAddr) (auth : PrivateKey -> AuthReply).

(** What russh documents of keepalives: with an interval and a limit, a session
    whose server stops answering them ends, and a wait on it with an error. *)
Definition keepalives_honoured (attempt : nat -> Handshake) : Prop :=
  forall n actual source auth key ends config interval,
    attempt n = KeyOffered actual (Established source auth) -> auth key = AuthUnanswered false ends ->
    keepalive_interval config = Some interval -> (0 < keepalive_max config)%nat ->
    exists error, ends config = Ready error.

(** What the server does with one channel open. *)
Inductive OpenReply : Type :=
| Opened
| ChannelOpenFailure (reason : string)
| ChannelError (error : string)
| OpenTimedOut.

(** Effects, in order. Attempts and sessions are numbered alike. *)
Inductive SshEvent : Type :=
| Connecting (attempt : nat)
| KeyAccepted (attempt : nat) (fp : string)
| KeyRefused (attempt : nat) (fp : string)
| Authenticating (attempt : nat)
| Authenticated (attempt : nat)
| Authorized (fp : string) (answer : Result unit TunnelError)
| Pinned (fp : string)
| OpenChannel (session : nat) (host : string) (port : Z)
| Disconnected (session : nat).

#[export] Instance SshEvent_eq_dec : EqDecision SshEvent.
Proof. solve_decision. Defined.

Record SshState : Type := {
  host_key : HostKeyState;
  current : option nat;
  closed : bool;
  source : option SocketAddr;
  attempts : nat;
  authorizations : nat;
  opens : nat;
  log : list SshEvent
}.

Definition ssh_new : SshState :=
  {| host_key := host_key_default; current := None; closed := false; source := None;
     attempts := 0; authorizations := 0; opens := 0; log := [] |}.

Inductive ChannelFailure : Type :=
| Destination (error : TunnelError)
| Session (error : TunnelError).

Definition emit (e : SshEvent) (s : SshState) : SshState :=
  {| host_key := host_key s; current := current s; closed := closed s; source := source s;
     attempts := attempts s; authorizations := authorizations s; opens := opens s;
     log := log s ++ [e] |}.

Definition set_host_key (h : HostKeyState) (s : SshState) : SshState :=
  {| host_key := h; current := current s; closed := closed s; source := source s;
     attempts := attempts s; authorizations := authorizations s; opens := opens s; log := log s |}.

Definition set_current (c : option nat) (s : SshState) : SshState :=
  {| host_key := host_key s; current := c; closed := closed s; source := source s;
     attempts := attempts s; authorizations := authorizations s; opens := opens s; log := log s |}.

Definition set_closed (s : SshState) : SshState :=
  {| host_key := host_key s; current := current s; closed := true; source := source s;
     attempts := attempts s; authorizations := authorizations s; opens := opens s; log := log s |}.

Definition set_source (a : option SocketAddr) (s : SshState) : SshState :=
  {| host_key := host_key s; current := current s; closed := closed s; source := a;
     attempts := attempts s; authorizations := authorizations s; opens := opens s; log := log s |}.

Definition next_attempt (s : SshState) : SshState :=
  {| host_key := host_key s; current := current s; closed := closed s; source := source s;
     attempts := S (attempts s); authorizations := authorizations s; opens := opens s;
     log := log s ++ [Connecting (attempts s)] |}.

Section Ssh.
Variable spec : TunnelSpec.
Variable decode_secret_key : string -> option string -> Result PrivateKey KeyError.
Variable attempt : nat -> Handshake.
Variable authorize : nat -> Result unit TunnelError.
Variable open_reply : nat -> OpenReply.

(** [SshClientHandler::check_server_key]. *)
Definition check_server_key (actual : string) (state : HostKeyState) : Result HostKeyState TunnelError :=
  let expected :=
    match ts_pinned_host_key spec with Some p => Some p | None => fingerprint state end in
  match expected with
  | Some expected =>
      if negb (String.eqb expected actual)
      then Err (HostKeyMismatch (ts_host spec) (ts_port spec) expected actual)
      else Ok {| fingerprint := Some actual;
                 newly_pinned := if is_Some_b (ts_pinned_host_key spec) then false else newly_pinned state;
                 reported := reported state |}
  | None => Ok {| fingerprint := Some actual; newly_pinned := true; reported := reported state |}
  end.

Definition connect_failed (detail : string) : TunnelError := Connect (ts_host spec) (ts_port spec) detail.

Definition auth_failed (detail : string) : TunnelError :=
  Auth (ts_username spec) (ts_host spec) (ts_port spec)
    (if is_empty detail then "no configured credential was accepted" else detail).

(** [authorize_host_key]: ask the observer about the verified key. *)
Definition authorize_host_key (s : SshState) : Result unit TunnelError * SshState :=
  match fingerprint (host_key s) with
  | None => (Err (Engine "SSH server has no verified host key"), s)
  | Some fp =>
      let answer := authorize (authorizations s) in
      (answer,
       {| host_key := host_key s; current := current s; closed := closed s; source := source s;
          attempts := attempts s; authorizations := S (authorizations s); opens := opens s;
          log := log s ++ [Authorized fp answer] |})
  end.

(** The pin, taken once: [reported] is what stops a second report. *)
Definition report_pin (s : SshState) : SshState :=
  let st := host_key s in
  let pin := if newly_pinned st && negb (reported st) then fingerprint st else None in
  let s := set_host_key {| fingerprint := fingerprint st; newly_pinned := newly_pinned st;
                           reported := true |} s in
  match pin with Some fp => emit (Pinned fp) s | None => s end.

(** A call that may never return: [Pending] is a future that waits until it is
    dropped, with the effects it had so far. *)
Definition Call (A : Type) : Type := SshState -> Poll (Result A TunnelError) * SshState.

(** [connect], from the first byte to the reported pin.  The handshake runs
    under the request timeout; authentication does not, and waits as long as
    the session lasts. *)
Definition connect : Call nat := fun s =>
  if is_empty (trim (ts_private_key_pem spec)) then
    (Ready (Err (Configuration "SSH tunnels require an Ed25519 private key; password authentication is no longer supported")), s)
  else
  match decode_ed25519_private_key decode_secret_key (ts_private_key_pem spec)
          (ts_private_key_passphrase spec) with
  | Err e => (Ready (Err e), s)
  | Ok private_key =>
      let n := attempts s in
      let s := next_attempt s in
      match attempt n with
      | TransportFailed (HostKeyMismatch h p e a) => (Ready (Err (HostKeyMismatch h p e a)), s)
      | TransportFailed error => (Ready (Err (connect_failed (error_to_string error))), s)
      | KexFailed error => (Ready (Err (connect_failed (error_to_string (Engine error)))), s)
      | NoAnswer =>
          (Ready (Err (connect_failed "the server did not complete the handshake in time")), s)
      | KeyOffered actual rest =>
          match check_server_key actual (host_key s) with
          | Err error => (Ready (Err error), emit (KeyRefused n actual) s)
          | Ok st =>
              let s := emit (KeyAccepted n actual) (set_host_key st s) in
              match rest with
              | KexInterrupted error => (Ready (Err (connect_failed (error_to_string (Engine error)))), s)
              | KexTimedOut =>
                  (Ready (Err (connect_failed "the server did not complete the handshake in time")), s)
              | Established src auth =>
                  let s := emit (Authenticating n) (set_source src s) in
                  match auth private_key with
                  | AuthUnanswered _ ends =>
                      match ends client_config with
                      | Ready error => (Ready (Err (auth_failed error)), s)
                      | Pending => (Pending, s)
                      end
                  | AuthRejected => (Ready (Err (auth_failed "the server rejected the private key")), s)
                  | AuthError error => (Ready (Err (auth_failed error)), s)
                  | AuthSuccess =>
                      let s := emit (Authenticated n) s in
                      match authorize_host_key s with
                      | (Err error, s) => (Ready (Err error), s)
                      | (Ok _, s) => (Ready (Ok n), report_pin s)
                      end
                  end
              end
          end
      end
  end.

Definition stopped_error : TunnelError := Engine "tunnel provider stopped".

(** Connect and remember the session. *)
Definition connect_current : Call nat := fun s =>
  match connect s with
  | (Ready (Ok n), s) => (Ready (Ok n), set_current (Some n) s)
  | (r, s) => (r, s)
  end.

Definition session : Call nat := fun s =>
  if closed s then (Ready (Err stopped_error), s) else
  match current s with
  | Some existing => (Ready (Ok existing), s)
  | None => connect_current s
  end.

Definition replace_session (stale : nat) : Call nat := fun s =>
  if closed s then (Ready (Err stopped_error), s) else
  match current s with
  | Some existing =>
      if negb (Nat.eqb existing stale) then (Ready (Ok existing), s)
      else connect_current (set_current None s)
  | None => connect_current (set_current None s)
  end.

Definition open_channel (sess : nat) (host : string) (port : Z) (s : SshState)
  : Result unit ChannelFailure * SshState :=
  match authorize_host_key s with
  | (Err e, s) => (Err (Destination e), s)
  | (Ok _, s) =>
      let n := opens s in
      let s :=
        {| host_key := host_key s; current := current s; closed := closed s; source := source s;
           attempts := attempts s; authorizations := authorizations s; opens := S n;
           log := log s ++ [OpenChannel sess host port] |} in
      match open_reply n with
      | Opened => (Ok tt, s)
      | ChannelOpenFailure reason => (Err (Destination (Dial host port reason)), s)
      | ChannelError error => (Err (Session (Dial host port error)), s)
      | OpenTimedOut =>
          (Err (Session (Dial host port "the tunnel did not open a channel in time")), s)
      end
  end.

(** [dial], with nothing else running. *)
Definition dial (host : string) (port : Z) : Call unit := fun s =>
  match session s with
  | (Pending, s) => (Pending, s)
  | (Ready (Err e), s) => (Ready (Err e), s)
  | (Ready (Ok sess), s) =>
      match open_channel sess host port s with
      | (Ok _, s) => (Ready (Ok tt), s)
      | (Err (Destination error), s) => (Ready (Err error), s)
      | (Err (Session _), s) =>
          match replace_session sess s with
          | (Pending, s) => (Pending, s)
          | (Ready (Err e), s) => (Ready (Err e), s)
          | (Ready (Ok sess), s) =>
              match open_channel sess host port s with
              | (Ok _, s) => (Ready (Ok tt), s)
              | (Err (Destination error | Session error), s) => (Ready (Err error), s)
              end
          end
      end
  end.

Definition retire (s : SshState) : SshState :=
  match current s with
  | Some n => emit (Disconnected n) (set_current None s)
  | None => s
  end.

Definition shutdown (s : SshState) : SshState := retire (set_closed s).

Definition prepare : Call unit := fun s =>
  match session s with
  | (Ready r, s) => (Ready (let? _ := r in Ok tt), s)
  | (Pending, s) => (Pending, s)
  end.

(** The health probe: a provider of its own, connected once. *)
Definition handshake : Poll (Result TunnelHandshake TunnelError) * SshState :=
  match connect ssh_new with
  | (Pending, s) => (Pending, s)
  | (Ready (Err e), s) => (Ready (Err e), s)
  | (Ready (Ok _), s) =>
      (Ready (Ok {| hs_fingerprint := match fingerprint (host_key s) with Some f => f | None => "" end;
                    hs_newly_pinned := newly_pinned (host_key s);
                    hs_endpoint := tunnel_spec_endpoint spec |}), s)
  end.

Definition describe : string := "SSH tunnel to " ++ tunnel_spec_endpoint spec.

(** ** Interleaved calls *)

(** A call between two of its steps; [Waiting] holds the session lock. *)
Inductive Caller : Type :=
| Preparing
| Starting (host : string) (port : Z)
| HasSession (host : string) (port : Z) (sess : nat)
| MustReplace (host : string) (port : Z) (stale : nat)
| HasReplacement (host : string) (port : Z) (sess : nat)
| Waiting
| Returned (r : Result unit TunnelError)
| Dropped.

Definition after {A} (c : Poll (Result A TunnelError) * SshState) (k : A -> Caller) : Caller * SshState :=
  match c with
  | (Pending, s) => (Waiting, s)
  | (Ready (Err e), s) => (Returned (Err e), s)
  | (Ready (Ok a), s) => (k a, s)
  end.

Definition caller_step (d : Caller) (s : SshState) : Caller * SshState :=
  match d with
  | Preparing => after (prepare s) (fun _ => Returned (Ok tt))
  | Starting host port => after (session s) (HasSession host port)
  | HasSession host port sess =>
      match open_channel sess host port s with
      | (Ok _, s) => (Returned (Ok tt), s)
      | (Err (Destination error), s) => (Returned (Err error), s)
      | (Err (Session _), s) => (MustReplace host port sess, s)
      end
  | MustReplace host port stale => after (replace_session stale s) (HasReplacement host port)
  | HasReplacement host port sess =>
      match open_channel sess host port s with
      | (Ok _, s) => (Returned (Ok tt), s)
      | (Err (Destination error | Session error), s) => (Returned (Err error), s)
      end
  | Waiting => (Waiting, s)
  | Returned r => (Returned r, s)
  | Dropped => (Dropped, s)
  end.

Definition takes_lock (d : Caller) : bool :=
  match d with Preparing | Starting _ _ | MustReplace _ _ _ => true | _ => false end.

Definition is_waiting (d : Caller) : bool := match d with Waiting => true | _ => false end.

Record SshWorld : Type := { provider : SshState; callers : list Caller }.

(** Someone is inside [connect] with the session lock. *)
Definition lock_held (w : SshWorld) : bool := existsb is_waiting (callers w).

Definition first_step (d : Caller) : Prop :=
  match d with Preparing | Starting _ _ => True | _ => False end.

Inductive ssh_step : SshWorld -> SshWorld -> Prop :=
| step_call d w :
    first_step d -> ssh_step w {| provider := provider w; callers := callers w ++ [d] |}
| step_caller i d w :
    callers w !! i = Some d -> takes_lock d && lock_held w = false ->
    ssh_step w {| provider := snd (caller_step d (provider w));
                  callers := <[i := fst (caller_step d (provider w))]> (callers w) |}
| step_drop i d w :
    callers w !! i = Some d ->
    ssh_step w {| provider := provider w; callers := <[i := Dropped]> (callers w) |}
| step_rekey n actual st w :
    current (provider w) = Some n -> check_server_key actual (host_key (provider w)) = Ok st ->
    ssh_step w {| provider := emit (KeyAccepted n actual) (set_host_key st (provider w));
                  callers := callers w |}
| step_retire w :
    lock_held w = false -> ssh_step w {| provider := retire (provider w); callers := callers w |}
| step_close w : ssh_step w {| provider := set_closed (provider w); callers := callers w |}.

Definition world_new : SshWorld := {| provider := ssh_new; callers := [] |}.

End Ssh.

(** ** The discipline of the log *)

Section Discipline.
Variable spec : TunnelSpec.

(** What must stand before each effect. *)
Definition event_ok (before : list SshEvent) (e : SshEvent) : Prop :=
  match e with
  | KeyAccepted _ fp =>
      (forall m fp', KeyAccepted m fp' ∈ before -> fp' = fp)
      /\ (forall p, ts_pinned_host_key spec = Some p -> fp = p)
  | Authenticating n => exists fp, last before = Some (KeyAccepted n fp)
  | Authenticated n => last before = Some (Authenticating n)
  | Pinned fp =>
      ts_pinned_host_key spec = None /\ (forall fp', Pinned fp' ∉ before)
      /\ exists n l, before = (l ++ [KeyAccepted n fp; Authenticating n; Authenticated n;
                                     Authorized fp (Ok tt)])%list
  | OpenChannel n _ _ =>
      Authenticated n ∈ before
      /\ exists fp m, last before = Some (Authorized fp (Ok tt)) /\ KeyAccepted m fp ∈ before
  | Authorized fp _ => exists m, KeyAccepted m fp ∈ before
  | _ => True
  end.

Record ssh_inv (s : SshState) : Prop := {
  key_fixed : forall n fp, KeyAccepted n fp ∈ log s -> fingerprint (host_key s) = Some fp;
  key_known : forall fp, fingerprint (host_key s) = Some fp -> exists n, KeyAccepted n fp ∈ log s;
  key_pinned : forall fp p, fingerprint (host_key s) = Some fp -> ts_pinned_host_key spec = Some p -> fp = p;
  first_use : newly_pinned (host_key s) = true -> ts_pinned_host_key spec = None;
  pin_reported : forall fp, Pinned fp ∈ log s -> reported (host_key s) = true;
  session_authenticated : forall n, current s = Some n -> Authenticated n ∈ log s;
  disciplined : logged event_ok (log s)
}.

(** An effect that changes neither the keys nor the sessions. *)
Definition plain (e : SshEvent) : Prop :=
  match e with KeyAccepted _ _ | Pinned _ => False | _ => True end.

Lemma elem_of_snoc {A} (x y : A) l : x ∈ (l ++ [y])%list <-> x ∈ l \/ x = y.
Proof. rewrite elem_of_app, list_elem_of_singleton. done. Qed.

(** A state that differs from [s] only in counters, source and one plain
    effect. *)
Lemma plain_inv (s s' : SshState) (e : SshEvent) :
  ssh_inv s -> plain e -> event_ok (log s) e -> log s' = (log s ++ [e])%list ->
  host_key s' = host_key s -> current s' = current s -> ssh_inv s'.
Proof.
  intros [H1 H2 H3 H4 H5 H6 H7] Hp He Hl Hk Hc. split; rewrite ?Hl, ?Hk, ?Hc; try done.
  - intros n fp [H | <-]%elem_of_snoc; [eauto | done].
  - intros fp H. destruct (H2 fp H) as [n Hn]. exists n. apply elem_of_snoc. by left.
  - intros fp [H | <-]%elem_of_snoc; [eauto | done].
  - intros n H. apply elem_of_snoc. left. eauto.
  - by apply logged_snoc.
Qed.

Lemma same_inv (s s' : SshState) :
  ssh_inv s -> log s' = log s -> host_key s' = host_key s ->
  (current s' = current s \/ current s' = None) -> ssh_inv s'.
Proof.
  intros [H1 H2 H3 H4 H5 H6 H7] Hl Hk Hc. split; rewrite ?Hl, ?Hk; try done.
  intros n H. destruct Hc as [Hc | Hc]; rewrite Hc in H; [eauto | done].
Qed.

Lemma accept_inv (s : SshState) n actual st :
  ssh_inv s -> check_server_key spec actual (host_key s) = Ok st ->
  ssh_inv (emit (KeyAccepted n actual) (set_host_key st s)) /\ fingerprint st = Some actual.
Proof.
  intros [H1 H2 H3 H4 H5 H6 H7] Hst.
  assert (Hfp : fingerprint st = Some actual /\ reported st = reported (host_key s)
                /\ (forall f, fingerprint (host_key s) = Some f -> f = actual)
                /\ (forall p, ts_pinned_host_key spec = Some p -> actual = p)
                /\ (newly_pinned st = true -> ts_pinned_host_key spec = None)).
  { unfold check_server_key in Hst. destruct (ts_pinned_host_key spec) as [p|] eqn:Ep.
    - destruct (String.eqb_spec p actual) as [-> |]; simpl in Hst; [| done]. simplify_eq/=.
      split_and!; try done; [| by intros ? [= <-]]. intros f Hf. by eapply H3.
    - destruct (fingerprint (host_key s)) as [f|] eqn:Ef.
      + destruct (String.eqb_spec f actual) as [-> |]; simpl in Hst; [| done].
        simplify_eq/=. split_and!; try done. by intros ? [= <-].
      + simplify_eq/=. done. }
  destruct Hfp as (Hf & Hr & Hold & Hp & Hn). split; [| done]. split; simpl; rewrite ?Hf, ?Hr.
  - intros m fp [H | [= _ <-]]%elem_of_snoc; [| done]. apply H1, Hold in H. congruence.
  - intros fp [= <-]. exists n. apply elem_of_snoc. by right.
  - intros fp p [= <-]. apply Hp.
  - done.
  - intros fp [H | ?]%elem_of_snoc; [eauto | done].
  - intros m H. apply elem_of_snoc. left. eauto.
  - apply logged_snoc; [done |]. split; [| done]. intros m fp' H. by apply H1, Hold in H.
Qed.

Variable authorize : nat -> Result unit TunnelError.

Lemma authorize_run (s : SshState) r s' :
  authorize_host_key authorize s = (r, s') ->
  (s' = s /\ fingerprint (host_key s) = None /\ exists e, r = Err e)
  \/ exists fp, fingerprint (host_key s) = Some fp /\ log s' = (log s ++ [Authorized fp r])%list
       /\ host_key s' = host_key s /\ current s' = current s /\ closed s' = closed s
       /\ attempts s' = attempts s /\ opens s' = opens s.
Proof.
  unfold authorize_host_key. destruct (fingerprint (host_key s)) as [fp|] eqn:E; intros [= <- <-].
  - right. by exists fp.
  - left. eauto.
Qed.

Lemma authorize_inv (s : SshState) r s' :
  ssh_inv s -> authorize_host_key authorize s = (r, s') -> ssh_inv s'.
Proof.
  intros Hs H. apply authorize_run in H as [(-> & _) | (fp & Hfp & Hl & Hk & Hc & _)]; [done |].
  eapply (plain_inv s); [done | | | exact Hl | done | done]; [done |]. by apply key_known.
Qed.

Lemma report_pin_inv (s : SshState) n fp l :
  ssh_inv s -> fingerprint (host_key s) = Some fp ->
  log s = (l ++ [KeyAccepted n fp; Authenticating n; Authenticated n; Authorized fp (Ok tt)])%list ->
  ssh_inv (report_pin s).
Proof.
  intros [H1 H2 H3 H4 H5 H6 H7] Hfp Hl. unfold report_pin.
  destruct (newly_pinned (host_key s)) eqn:En; [destruct (reported (host_key s)) eqn:Er |]; simpl.
  - split; simpl; rewrite ?Hfp in *; try done.
  - rewrite Hfp. split; simpl.
    + intros m f [H | ?]%elem_of_snoc; [| done]. rewrite <- Hfp. eauto.
    + intros f Hf. destruct (H2 f) as [m Hm]; [congruence |]. exists m. apply elem_of_snoc. by left.
    + rewrite Hfp in *. done.
    + auto.
    + done.
    + intros m H. apply elem_of_snoc. left. eauto.
    + apply logged_snoc; [done |]. simpl. split; [auto |]. split; [| by exists n, l].
      intros fp' H. apply H5 in H. congruence.
  - split; simpl; rewrite ?Hfp in *; try done.
Qed.

End Discipline.

Section Runs.
Variable spec : TunnelSpec.
Variable decode_secret_key : string -> option string -> Result PrivateKey KeyError.
Variable attempt : nat -> Handshake.
Variable authorize : nat -> Result unit TunnelError.
Variable open_reply : nat -> OpenReply.

#[local] Notation inv := (ssh_inv spec).
#[local] Notation connect := (connect spec decode_secret_key attempt authorize).
#[local] Notation session := (session spec decode_secret_key attempt authorize).
#[local] Notation replace_session := (replace_session spec decode_secret_key attempt authorize).
#[local] Notation connect_current := (connect_current spec decode_secret_key attempt authorize).
#[local] Notation open_channel := (open_channel authorize open_reply).

(** Everything one [connect] can do, by how far it got. *)
Inductive connect_run (s : SshState) : Poll (Result nat TunnelError) -> SshState -> Prop :=
| run_unconfigured e : connect_run s (Ready (Err e)) s
| run_no_key e : connect_run s (Ready (Err e)) (next_attempt s)
| run_refused actual e :
    check_server_key spec actual (host_key s) = Err e ->
    connect_run s (Ready (Err e)) (emit (KeyRefused (attempts s) actual) (next_attempt s))
| run_no_session actual st e :
    check_server_key spec actual (host_key s) = Ok st ->
    connect_run s (Ready (Err e))
      (emit (KeyAccepted (attempts s) actual) (set_host_key st (next_attempt s)))
| run_no_auth actual st src r :
    check_server_key spec actual (host_key s) = Ok st -> (forall n, r <> Ready (Ok n)) ->
    connect_run s r
      (emit (Authenticating (attempts s)) (set_source src
         (emit (KeyAccepted (attempts s) actual) (set_host_key st (next_attempt s)))))
| run_unauthorized actual st src s1 s' e :
    check_server_key spec actual (host_key s) = Ok st ->
    s1 = emit (Authenticated (attempts s)) (emit (Authenticating (attempts s)) (set_source src
           (emit (KeyAccepted (attempts s) actual) (set_host_key st (next_attempt s))))) ->
    authorize_host_key authorize s1 = (Err e, s') -> connect_run s (Ready (Err e)) s'
| run_connected actual st src s1 s' :
    check_server_key spec actual (host_key s) = Ok st ->
    s1 = emit (Authenticated (attempts s)) (emit (Authenticating (attempts s)) (set_source src
           (emit (KeyAccepted (attempts s) actual) (set_host_key st (next_attempt s))))) ->
    authorize_host_key authorize s1 = (Ok tt, s') ->
    connect_run s (Ready (Ok (attempts s))) (report_pin s').

Lemma connect_runs s r s' : connect s = (r, s') -> connect_run s r s'.
Proof.
  unfold connect. destruct (is_empty _); [intros [= <- <-]; constructor |].
  destruct (decode_ed25519_private_key _ _ _); [| intros [= <- <-]; constructor].
  destruct (attempt (attempts s)) as [error | | | actual rest];
    [destruct error; intros [= <- <-]; constructor | intros [= <- <-]; constructor.. |].
  change (host_key (next_attempt s)) with (host_key s).
  destruct (check_server_key spec actual (host_key s)) as [st | e] eqn:Ek;
    [| intros [= <- <-]; by constructor].
  destruct rest as [error | | src auth]; [intros [= <- <-]; by constructor.. |].
  destruct (auth _) as [| | | alive ends]; [| intros [= <- <-]; by econstructor.. |
    destruct (ends client_config); intros [= <- <-]; by econstructor].
  destruct (authorize_host_key _ _) as [[[] | e] s2] eqn:Ea; intros [= <- <-]; by econstructor.
Qed.

Lemma connect_frame s r s' :
  connect_run s r s' -> closed s' = closed s /\ current s' = current s /\ opens s' = opens s
    /\ (attempts s <= attempts s' <= S (attempts s))%nat.
Proof.
  destruct 1; try (simpl; auto with lia); subst;
    match goal with H : authorize_host_key _ _ = _ |- _ =>
      apply authorize_run in H as [(-> & _) | (fp & _ & _ & _ & Hc & Hcl & Ha & Ho)] end;
    unfold report_pin; repeat case_match; simpl in *; rewrite ?Hc, ?Hcl, ?Ho, ?Ha; auto with lia.
Qed.

Lemma last_snoc' {A} (l : list A) x : last (l ++ [x])%list = Some x.
Proof. by rewrite last_snoc. Qed.

Lemma next_attempt_inv s : inv s -> inv (next_attempt s).
Proof. intros Hs. by eapply (plain_inv spec s _ (Connecting (attempts s))). Qed.

Lemma authenticating_inv s n fp src l :
  inv s -> log s = (l ++ [KeyAccepted n fp])%list -> inv (emit (Authenticating n) (set_source src s)).
Proof.
  intros Hs Hl. eapply (plain_inv spec s _ (Authenticating n)); try done.
  exists fp. by rewrite Hl, last_snoc.
Qed.

Lemma authenticated_inv s n l :
  inv s -> log s = (l ++ [Authenticating n])%list -> inv (emit (Authenticated n) s).
Proof.
  intros Hs Hl. eapply (plain_inv spec s _ (Authenticated n)); try done.
  simpl. by rewrite Hl, last_snoc.
Qed.

(** A session was authenticated: the state before the observer is asked. *)
Lemma through_auth_inv s actual st src :
  inv s -> check_server_key spec actual (host_key s) = Ok st ->
  inv (emit (Authenticated (attempts s)) (emit (Authenticating (attempts s)) (set_source src
         (emit (KeyAccepted (attempts s) actual) (set_host_key st (next_attempt s)))))).
Proof.
  intros Hs Hst. eapply authenticated_inv; [| done]. eapply authenticating_inv; [| done].
  by apply accept_inv; [apply next_attempt_inv |].
Qed.

Lemma connect_inv s r s' :
  inv s -> connect_run s r s' ->
  inv s' /\ (forall n, r = Ready (Ok n) -> Authenticated n ∈ log s').
Proof.
  intros Hs Hrun. destruct Hrun as
    [e | e | actual e Hk | actual st e Hk | actual st src r Hk Hr
     | actual st src s1 s' e Hk Hs1 Ha | actual st src s1 s' Hk Hs1 Ha].
  - done.
  - split; [by apply next_attempt_inv | done].
  - split; [| done].
    by eapply (plain_inv spec (next_attempt s) _ (KeyRefused (attempts s) actual)); [apply next_attempt_inv | ..].
  - split; [| done]. by apply accept_inv; [apply next_attempt_inv |].
  - split; [| intros n ->; by destruct (Hr n)]. eapply authenticating_inv; [| done].
    by apply accept_inv; [apply next_attempt_inv |].
  - split; [| done]. eapply authorize_inv; [| exact Ha]. subst s1. by apply through_auth_inv.
  - pose proof (through_auth_inv s actual st src Hs Hk) as Hinv. rewrite <- Hs1 in Hinv.
    assert (Hfp : fingerprint (host_key s1) = Some actual).
    { subst s1. simpl. by destruct (accept_inv spec s 0 actual st Hs Hk). }
    pose proof (authorize_inv spec authorize s1 _ s' Hinv Ha) as Hinv'.
    apply authorize_run in Ha as [(_ & E & _) | (fp & E & Hl & Hkey & _)]; [congruence |].
    rewrite Hfp in E. injection E as <-. rewrite Hs1 in Hl. simpl in Hl. rewrite <- !app_assoc in Hl.
    simpl in Hl.
    assert (Hpin : inv (report_pin s')).
    { apply (report_pin_inv spec s' (attempts s) actual (log s ++ [Connecting (attempts s)])%list);
        [done | congruence |]. rewrite Hl, <- !app_assoc. done. }
    split; [done |]. intros n [= <-]. unfold report_pin. repeat case_match; simpl; rewrite Hl; set_solver.
Qed.

Lemma connect_current_inv s r s' :
  inv s -> connect_current s = (r, s') ->
  inv s' /\ (forall n, r = Ready (Ok n) -> Authenticated n ∈ log s').
Proof.
  intros Hs. unfold connect_current. destruct (connect s) as [r1 s1] eqn:E.
  destruct (connect_inv s r1 s1 Hs (connect_runs _ _ _ E)) as [H1 H2].
  destruct r1 as [[n | e] |]; intros [= <- <-]; [| done..].
  split; [| done]. destruct H1. split; try done. intros m [= <-]. by apply H2.
Qed.

Lemma session_inv s r s' :
  inv s -> session s = (r, s') -> inv s' /\ (forall n, r = Ready (Ok n) -> Authenticated n ∈ log s').
Proof.
  intros Hs. unfold session. destruct (closed s); [by intros [= <- <-] |].
  destruct (current s) as [c|] eqn:Ec; [| by apply connect_current_inv].
  intros [= <- <-]. split; [done |]. intros n [= <-]. by apply (session_authenticated spec s Hs).
Qed.

Lemma replace_session_inv stale s r s' :
  inv s -> replace_session stale s = (r, s') ->
  inv s' /\ (forall n, r = Ready (Ok n) -> Authenticated n ∈ log s').
Proof.
  intros Hs. unfold replace_session. destruct (closed s); [by intros [= <- <-] |].
  assert (Hn : inv (set_current None s)) by (eapply (same_inv spec s); try done; by right).
  destruct (current s) as [c|] eqn:Ec; [| by apply connect_current_inv].
  destruct (negb _); [| by apply connect_current_inv].
  intros [= <- <-]. split; [done |]. intros n [= <-]. by apply (session_authenticated spec s Hs).
Qed.

Lemma open_channel_inv sess host port s r s' :
  inv s -> Authenticated sess ∈ log s -> open_channel sess host port s = (r, s') -> inv s'.
Proof.
  intros Hs Hauth. unfold open_channel. destruct (authorize_host_key authorize s) as [ra s1] eqn:Ea.
  pose proof (authorize_inv spec authorize s ra s1 Hs Ea) as H1.
  destruct ra as [[] | e]; [| by intros [= <- <-]].
  apply authorize_run in Ea as [(_ & _ & [e He]) | (fp & Hfp & Hl & Hk & Hc & _)]; [done |].
  set (s2 := {| log := _ |}). intros H.
  assert (s' = s2) as -> by (destruct (open_reply _); congruence).
  eapply (plain_inv spec s1 _ (OpenChannel sess host port)); try done. simpl. split.
  - rewrite Hl. apply elem_of_app. by left.
  - destruct (key_known spec s Hs fp Hfp) as [m Hm]. exists fp, m.
    rewrite Hl, last_snoc. split; [done |]. apply elem_of_app. by left.
Qed.

End Runs.

(** ** Interleaved callers *)

Section World.
Variable spec : TunnelSpec.
Variable decode_secret_key : string -> option string -> Result PrivateKey KeyError.
Variable attempt : nat -> Handshake.
Variable authorize : nat -> Result unit TunnelError.
Variable open_reply : nat -> OpenReply.

#[local] Notation inv := (ssh_inv spec).
#[local] Notation connect := (connect spec decode_secret_key attempt authorize).
#[local] Notation session := (session spec decode_secret_key attempt authorize).
#[local] Notation replace_session := (replace_session spec decode_secret_key attempt authorize).
#[local] Notation connect_current := (connect_current spec decode_secret_key attempt authorize).
#[local] Notation prepare := (prepare spec decode_secret_key attempt authorize).
#[local] Notation open_channel := (open_channel authorize open_reply).
#[local] Notation caller_step := (caller_step spec decode_secret_key attempt authorize open_reply).
#[local] Notation ssh_step := (ssh_step spec decode_secret_key attempt authorize open_reply).

Definition grows (s s' : SshState) : Prop := log s `prefix_of` log s'.

Lemma grows_app s s' l : log s' = (log s ++ l)%list -> grows s s'.
Proof. intros Hl. by exists l. Qed.

Lemma grows_trans s1 s2 s3 : grows s1 s2 -> grows s2 s3 -> grows s1 s3.
Proof. unfold grows. intros. by etrans. Qed.

Lemma grows_elem s s' e : grows s s' -> e ∈ log s -> e ∈ log s'.
Proof. intros [l Hl] He. rewrite Hl. apply elem_of_app. by left. Qed.

Lemma authorize_grows s r s' : authorize_host_key authorize s = (r, s') -> grows s s'.
Proof.
  intros [(-> & _) | (fp & _ & Hl & _)]%authorize_run; [by exists []; rewrite app_nil_r | by eapply grows_app].
Qed.

Lemma report_pin_grows s : grows s (report_pin s).
Proof.
  unfold report_pin. repeat case_match; try (by exists []; rewrite app_nil_r); by eapply grows_app.
Qed.

Lemma connect_grows s r s' : connect_run spec authorize s r s' -> grows s s'.
Proof.
  destruct 1; try (unfold grows; simpl; rewrite <- ?app_assoc; (by exists []; rewrite app_nil_r) || by eexists).
  - eapply grows_trans; [| by eapply authorize_grows]. subst s1. unfold grows. simpl.
    rewrite <- !app_assoc. by eexists.
  - eapply grows_trans; [| apply report_pin_grows].
    eapply grows_trans; [| by eapply authorize_grows]. subst s1. unfold grows. simpl.
    rewrite <- !app_assoc. by eexists.
Qed.

Lemma grows_refl s : grows s s.
Proof. exists []. by rewrite app_nil_r. Qed.

Lemma connect_current_grows s r s' : connect_current s = (r, s') -> grows s s'.
Proof.
  unfold connect_current. destruct (connect s) as [r1 s1] eqn:E.
  pose proof (connect_grows _ _ _ (connect_runs _ _ _ _ _ _ _ E)) as Hg.
  by destruct r1 as [[n | e] |]; intros [= <- <-].
Qed.

Lemma session_grows s r s' : session s = (r, s') -> grows s s'.
Proof.
  unfold session. destruct (closed s); [intros [= <- <-]; apply grows_refl |].
  destruct (current s); [intros [= <- <-]; apply grows_refl | apply connect_current_grows].
Qed.

Lemma replace_session_grows stale s r s' : replace_session stale s = (r, s') -> grows s s'.
Proof.
  unfold replace_session. destruct (closed s); [intros [= <- <-]; apply grows_refl |].
  destruct (current s); [| apply (connect_current_grows (set_current None s))].
  destruct (negb _); [intros [= <- <-]; apply grows_refl | apply (connect_current_grows (set_current None s))].
Qed.

Lemma open_channel_grows sess host port s r s' : open_channel sess host port s = (r, s') -> grows s s'.
Proof.
  unfold open_channel. destruct (authorize_host_key authorize s) as [[[] | e] s1] eqn:Ea;
    apply authorize_grows in Ea; [| by intros [= <- <-]].
  set (s2 := {| log := _ |}). intros H. assert (s' = s2) as -> by (destruct (open_reply _); congruence).
  eapply grows_trans; [exact Ea | by eapply grows_app].
Qed.

(** The session a caller is about to use. *)
Definition uses (d : Caller) : option nat :=
  match d with HasSession _ _ n | HasReplacement _ _ n => Some n | _ => None end.

Definition caller_ok (s : SshState) (d : Caller) : Prop :=
  forall n, uses d = Some n -> Authenticated n ∈ log s.

Record world_inv (w : SshWorld) : Prop := {
  provider_inv : inv (provider w);
  callers_ok : Forall (caller_ok (provider w)) (callers w)
}.

Lemma caller_ok_grows s s' d : grows s s' -> caller_ok s d -> caller_ok s' d.
Proof. intros Hg Hd n Hn. eapply grows_elem; eauto. Qed.

Lemma caller_step_inv d s d' s' :
  inv s -> caller_ok s d -> caller_step d s = (d', s') -> inv s' /\ caller_ok s' d' /\ grows s s'.
Proof.
  intros Hs Hd. destruct d as [| host port | host port n | host port n | host port n | | r |]; simpl;
    try (intros [= <- <-]; split; [done | split; [done | apply grows_refl]]).
  - unfold prepare. destruct (session s) as [r s1] eqn:E. intros H.
    destruct (session_inv _ _ _ _ _ _ _ Hs E) as [H1 _]. apply session_grows in E.
    destruct r as [[n | e] |]; simpl in H; by simplify_eq.
  - destruct (session s) as [r s1] eqn:E. intros H.
    destruct (session_inv _ _ _ _ _ _ _ Hs E) as [H1 H2]. apply session_grows in E.
    destruct r as [[n | e] |]; simpl in H; simplify_eq; split_and!; try done.
    intros m [= <-]. by apply H2.
  - destruct (open_channel n host port s) as [r s1] eqn:E. intros H.
    pose proof (open_channel_inv _ _ _ _ _ _ _ _ _ Hs (Hd n eq_refl) E). apply open_channel_grows in E.
    destruct r as [[] | [e | e]]; by simplify_eq.
  - destruct (replace_session n s) as [r s1] eqn:E. intros H.
    destruct (replace_session_inv _ _ _ _ _ _ _ _ Hs E) as [H1 H2]. apply replace_session_grows in E.
    destruct r as [[m | e] |]; simpl in H; simplify_eq; split_and!; try done.
    intros k [= <-]. by apply H2.
  - destruct (open_channel n host port s) as [r s1] eqn:E. intros H.
    pose proof (open_channel_inv _ _ _ _ _ _ _ _ _ Hs (Hd n eq_refl) E). apply open_channel_grows in E.
    destruct r as [[] | [e | e]]; by simplify_eq.
Qed.

Lemma retire_inv s : inv s -> inv (retire s) /\ grows s (retire s).
Proof.
  intros Hs. unfold retire. destruct (current s) as [n|]; [| split; [done | apply grows_refl]].
  assert (Hn : inv (set_current None s)) by (eapply (same_inv spec s); try done; by right).
  split; [by eapply (plain_inv spec (set_current None s) _ (Disconnected n)) | by eapply grows_app].
Qed.

Lemma ssh_step_inv w w' : ssh_step w w' -> world_inv w -> world_inv w'.
Proof.
  intros Hstep [Hs Hc]. destruct Hstep as [d w Hd | i d w Hi Hl | i d w Hi | n actual st w Hn Hk | w Hl | w];
    split; simpl; try done.
  - apply Forall_app_2; [done |]. constructor; [| done]. destruct d; done.
  - destruct (caller_step d (provider w)) as [d' s'] eqn:E. simpl.
    rewrite Forall_lookup in Hc. by destruct (caller_step_inv _ _ _ _ Hs (Hc i d Hi) E).
  - destruct (caller_step d (provider w)) as [d' s'] eqn:E. simpl. rewrite Forall_lookup in Hc.
    destruct (caller_step_inv _ _ _ _ Hs (Hc i d Hi) E) as (_ & Hd' & Hg).
    apply Forall_insert; [| done]. rewrite Forall_lookup. intros j x Hx. eapply caller_ok_grows; eauto.
  - by apply Forall_insert.
  - by apply accept_inv.
  - eapply Forall_impl; [exact Hc |]. intros d Hd. eapply caller_ok_grows; [| exact Hd].
    by eapply (grows_app (provider w)).
  - by apply retire_inv.
  - eapply Forall_impl; [exact Hc |]. intros d Hd. eapply caller_ok_grows; [| exact Hd].
    by apply retire_inv.
  - eapply (same_inv spec (provider w)); try done. by left.
Qed.

Lemma ssh_reachable_inv w : rtc ssh_step world_new w -> world_inv w.
Proof.
  intros H. eapply rtc_preserves; [apply ssh_step_inv | exact H |].
  split; [| constructor]. split; simpl; try done; try set_solver. apply logged_nil.
Qed.

End World.

(** ** What the provider promises *)

(** C5: trust on first use, whatever the server offers and however calls
    interleave.  A provider accepts one host key for its whole life, the
    configured pin when there is one.  A fingerprint is reported as the new
    pin at most once, only without a configured pin, and directly after the
    same attempt's key was accepted, its authentication succeeded and the
    observer authorized that key. *)
Theorem ssh_trust_on_first_use spec decode_secret_key attempt authorize open_reply (w : SshWorld) :
  rtc (ssh_step spec decode_secret_key attempt authorize open_reply) world_new w ->
  (forall n m fp fp', KeyAccepted n fp ∈ log (provider w) -> KeyAccepted m fp' ∈ log (provider w) -> fp = fp')
  /\ (forall n fp p, KeyAccepted n fp ∈ log (provider w) -> ts_pinned_host_key spec = Some p -> fp = p)
  /\ (forall l1 fp l2, log (provider w) = (l1 ++ Pinned fp :: l2)%list ->
        ts_pinned_host_key spec = None /\ (forall fp', Pinned fp' ∉ l1)
        /\ exists n l, l1 = (l ++ [KeyAccepted n fp; Authenticating n; Authenticated n;
                                   Authorized fp (Ok tt)])%list).
Proof.
  intros H. apply ssh_reachable_inv in H as [Hs _]. destruct Hs as [H1 H2 H3 H4 H5 H6 H7]. split_and!.
  - intros n m fp fp' Hn Hm. apply H1 in Hn, Hm. congruence.
  - intros n fp p Hn Hp. apply H1 in Hn. by eapply H3.
  - intros l1 fp l2 Hl. exact (H7 l1 _ l2 Hl).
Qed.

(** C10: nothing is revealed to an unverified server.  Credentials are offered
    only directly after the attempt's host key was accepted; a channel is
    opened only on an authenticated session, and directly after the observer
    authorized the accepted key for that very channel. *)
Theorem ssh_effects_authorized spec decode_secret_key attempt authorize open_reply (w : SshWorld) :
  rtc (ssh_step spec decode_secret_key attempt authorize open_reply) world_new w ->
  (forall l1 n l2, log (provider w) = (l1 ++ Authenticating n :: l2)%list ->
     exists fp, last l1 = Some (KeyAccepted n fp))
  /\ (forall l1 n host port l2, log (provider w) = (l1 ++ OpenChannel n host port :: l2)%list ->
        Authenticated n ∈ l1
        /\ exists fp m, last l1 = Some (Authorized fp (Ok tt)) /\ KeyAccepted m fp ∈ l1).
Proof.
  intros H. apply ssh_reachable_inv in H as [Hs _]. destruct Hs as [_ _ _ _ _ _ H7]. split.
  - intros l1 n l2 Hl. exact (H7 l1 _ l2 Hl).
  - intros l1 n host port l2 Hl. exact (H7 l1 _ l2 Hl).
Qed.

Section Calls.
Variable spec : TunnelSpec.
Variable decode_secret_key : string -> option string -> Result PrivateKey KeyError.
Variable attempt : nat -> Handshake.
Variable authorize : nat -> Result unit TunnelError.

Lemma open_channel_frame open_reply sess host port s r s' :
  open_channel authorize open_reply sess host port s = (r, s') ->
  attempts s' = attempts s /\ current s' = current s /\ closed s' = closed s
  /\ (opens s <= opens s' <= S (opens s))%nat.
Proof.
  unfold open_channel. destruct (authorize_host_key authorize s) as [[[] | e] s1] eqn:Ea;
    (apply authorize_run in Ea as [(-> & _) | (fp & _ & _ & _ & Hc & Hcl & Ha & Ho)];
     [| rewrite <- Hc, <- Hcl, <- Ha, <- Ho]).
  1, 2: set (s2 := {| log := _ |}); intros H;
    assert (s' = s2) as -> by (destruct (open_reply _); congruence); simpl; auto with lia.
  all: intros [= <- <-]; auto with lia.
Qed.

Lemma connect_current_frame s r s' :
  connect_current spec decode_secret_key attempt authorize s = (r, s') ->
  closed s' = closed s /\ opens s' = opens s /\ (attempts s <= attempts s' <= S (attempts s))%nat
  /\ current s' = match r with Ready (Ok n) => Some n | _ => current s end.
Proof.
  unfold connect_current. destruct (connect _ _ _ _ s) as [r1 s1] eqn:E.
  destruct (connect_frame _ _ _ _ _ (connect_runs _ _ _ _ _ _ _ E)) as (Hcl & Hc & Ho & Ha).
  destruct r1 as [[n | e] |]; intros [= <- <-]; simpl; auto.
Qed.

Lemma session_frame s r s' :
  session spec decode_secret_key attempt authorize s = (r, s') ->
  closed s' = closed s /\ opens s' = opens s /\ (attempts s <= attempts s' <= S (attempts s))%nat.
Proof.
  unfold session. destruct (closed s) eqn:Ec; [intros [= <- <-]; auto with lia |].
  destruct (current s); [intros [= <- <-]; auto with lia |].
  intros H%connect_current_frame. intuition congruence.
Qed.

Lemma replace_session_frame stale s r s' :
  replace_session spec decode_secret_key attempt authorize stale s = (r, s') ->
  closed s' = closed s /\ opens s' = opens s /\ (attempts s <= attempts s' <= S (attempts s))%nat.
Proof.
  unfold replace_session. destruct (closed s) eqn:Ec; [intros [= <- <-]; auto with lia |].
  destruct (current s); [destruct (negb _); [intros [= <- <-]; auto with lia |] |];
    intros (Hcl & Ho & Ha & _)%connect_current_frame; simpl in *; intuition congruence.
Qed.

End Calls.

(** A dial never spins.  It makes at most two connection attempts and
    opens at most two channels, however the server behaves; on a live session,
    a destination the server refuses costs one channel open, no reconnect and
    leaves the session in place, and an opened channel costs nothing more. *)
Theorem ssh_dial_reconnects_once spec decode_secret_key attempt authorize open_reply
    (host : string) (port : Z) (s s' : SshState) (r : Poll (Result unit TunnelError)) :
  dial spec decode_secret_key attempt authorize open_reply host port s = (r, s') ->
  (attempts s' <= 2 + attempts s)%nat /\ (opens s' <= 2 + opens s)%nat
  /\ (forall c fp, closed s = false -> current s = Some c -> fingerprint (host_key s) = Some fp ->
        authorize (authorizations s) = Ok tt ->
        match open_reply (opens s) with
        | Opened => r = Ready (Ok tt) /\ attempts s' = attempts s /\ current s' = Some c
        | ChannelOpenFailure reason =>
            r = Ready (Err (Dial host port reason)) /\ attempts s' = attempts s /\ current s' = Some c
        | ChannelError _ | OpenTimedOut => (attempts s' <= S (attempts s))%nat
        end).
Proof.
  intros H. unfold dial in H.
  destruct (session _ _ _ _ s) as [r1 s1] eqn:E1.
  pose proof E1 as (_ & Ho1 & Ha1)%session_frame.
  assert (Hlive : forall c, closed s = false -> current s = Some c -> r1 = Ready (Ok c) /\ s1 = s).
  { intros c Hcl Hc. unfold session in E1. rewrite Hcl, Hc in E1. by simplify_eq. }
  destruct r1 as [[c | e] |]; [| simplify_eq; split_and!; [lia | lia |];
    intros c fp Hcl Hc; destruct (Hlive c Hcl Hc) as [? _]; done..].
  destruct (open_channel _ _ c host port s1) as [r2 s2] eqn:E2.
  pose proof E2 as (Ha2 & Hc2 & _ & Ho2)%open_channel_frame.
  assert (Hopen : forall fp, s1 = s -> fingerprint (host_key s) = Some fp ->
    authorize (authorizations s) = Ok tt ->
    r2 = match open_reply (opens s) with
         | Opened => Ok tt
         | ChannelOpenFailure reason => Err (Destination (Dial host port reason))
         | ChannelError error => Err (Session (Dial host port error))
         | OpenTimedOut => Err (Session (Dial host port "the tunnel did not open a channel in time"))
         end).
  { intros fp -> Hfp Hau. unfold open_channel, authorize_host_key in E2. rewrite Hfp, Hau in E2.
    simpl in E2. destruct (open_reply (opens s)); congruence. }
  destruct r2 as [[] | [e | e]].
  1, 2: simplify_eq; split_and!; [lia | lia |]; intros k fp Hcl Hc Hfp Hau;
    destruct (Hlive k Hcl Hc) as [[= ->] Hs1]; specialize (Hopen fp Hs1 Hfp Hau);
    rewrite Ha2, Hc2, Hs1; destruct (open_reply (opens s)); simplify_eq; done.
  destruct (replace_session _ _ _ _ c s2) as [r3 s3] eqn:E3.
  pose proof E3 as (_ & Ho3 & Ha3)%replace_session_frame.
  assert (Hend : attempts s' = attempts s3 /\ (opens s' <= S (opens s3))%nat).
  { destruct r3 as [[d | e3] |]; [| simplify_eq; lia..].
    destruct (open_channel _ _ d host port s3) as [r4 s4] eqn:E4.
    pose proof E4 as (Ha4 & _ & _ & Ho4)%open_channel_frame.
    destruct r4 as [[] | [e4 | e4]]; simplify_eq; lia. }
  split_and!; [lia | lia |]. intros k fp Hcl Hc Hfp Hau. destruct (Hlive k Hcl Hc) as [[= ->] Hs1].
  specialize (Hopen fp Hs1 Hfp Hau). subst s1. destruct (open_reply (opens s)); simplify_eq; lia.
Qed.

(** ** Stopping *)

Definition stopped (s : SshState) : Prop := closed s = true /\ current s = None.

Section Stopped.
Variable spec : TunnelSpec.
Variable decode_secret_key : string -> option string -> Result PrivateKey KeyError.
Variable attempt : nat -> Handshake.
Variable authorize : nat -> Result unit TunnelError.
Variable open_reply : nat -> OpenReply.

Lemma caller_step_stopped d s d' s' :
  stopped s -> caller_step spec decode_secret_key attempt authorize open_reply d s = (d', s') ->
  stopped s' /\ attempts s' = attempts s.
Proof.
  intros [Hcl Hc]. unfold stopped.
  destruct d as [| host port | host port n | host port n | host port n | | r |]; simpl;
    try (by intros [= <- <-]).
  - unfold prepare, session. rewrite Hcl. by intros [= <- <-].
  - unfold session. rewrite Hcl. by intros [= <- <-].
  - destruct (open_channel authorize open_reply n host port s) as [r s1] eqn:E.
    apply open_channel_frame in E as (Ha & Hcu & Hclo & _).
    intros H. assert (s' = s1) as -> by (destruct r as [[] | [e | e]]; congruence). split_and!; congruence.
  - unfold replace_session. rewrite Hcl. by intros [= <- <-].
  - destruct (open_channel authorize open_reply n host port s) as [r s1] eqn:E.
    apply open_channel_frame in E as (Ha & Hcu & Hclo & _).
    intros H. assert (s' = s1) as -> by (destruct r as [[] | [e | e]]; congruence). split_and!; congruence.
Qed.

Lemma ssh_step_stopped w w' n :
  ssh_step spec decode_secret_key attempt authorize open_reply w w' ->
  stopped (provider w) /\ attempts (provider w) = n -> stopped (provider w') /\ attempts (provider w') = n.
Proof.
  intros Hstep [Hs Hn]. destruct Hstep as [d w Hd | i d w Hi Hl | i d w Hi | m actual st w Hm Hk | w Hl | w];
    simpl in *; try done.
  { destruct (caller_step _ _ _ _ _ d (provider w)) as [d' s'] eqn:E. simpl.
    apply caller_step_stopped in E as [? ?]; [split; [done | congruence] | done]. }
  all: destruct Hs as [Hcl Hc]; unfold retire, stopped; simpl; rewrite ?Hc; try congruence; done.
Qed.

End Stopped.

(** Shutdown is final.  Once [shutdown] has returned, no call ever
    connects again or leaves a session behind, however many dials were under
    way. *)
Theorem ssh_shutdown_final spec decode_secret_key attempt authorize open_reply
    (s : SshState) (cs : list Caller) (w : SshWorld) :
  rtc (ssh_step spec decode_secret_key attempt authorize open_reply)
    {| provider := shutdown s; callers := cs |} w ->
  closed (provider w) = true /\ current (provider w) = None /\ attempts (provider w) = attempts s.
Proof.
  intros H.
  assert (Hw : stopped (provider w) /\ attempts (provider w) = attempts s); [| by destruct Hw as [[? ?] ?]].
  eapply (rtc_preserves _ (fun w => stopped (provider w) /\ attempts (provider w) = attempts s));
    [| exact H |].
  - intros x y. apply ssh_step_stopped.
  - simpl. unfold shutdown, retire, stopped. by destruct (current (set_closed s)) eqn:E.
Qed.

(** ** One connection attempt *)


(** a private key is judged the same way at save time and at connect
    time: what [validate_private_key] refuses, [connect] refuses with the same
    error and without touching the network, and what it accepts is dialled. *)
Theorem private_key_judged_alike spec decode_secret_key attempt authorize (s : SshState) :
  is_empty (trim (ts_private_key_pem spec)) = false ->
  match validate_private_key decode_secret_key (ts_private_key_pem spec) (ts_private_key_passphrase spec) with
  | Err e =>
      (exists m, e = Configuration m)
      /\ connect spec decode_secret_key attempt authorize s = (Ready (Err e), s)
  | Ok _ =>
      attempts (snd (connect spec decode_secret_key attempt authorize s)) = S (attempts s)
  end.
Proof.
  intros Hp. unfold validate_private_key.
  assert (Hcfg : forall e, decode_ed25519_private_key decode_secret_key (ts_private_key_pem spec)
                  (ts_private_key_passphrase spec) = Err e -> exists m, e = Configuration m).
  { unfold decode_ed25519_private_key. intros e. destruct (decode_secret_key _ _); simpl.
    - destruct (negb _); intros [= <-]. eauto.
    - intros [= <-]. eauto. }
  destruct (decode_ed25519_private_key decode_secret_key (ts_private_key_pem spec)
              (ts_private_key_passphrase spec)) as [k | e] eqn:Ek; simpl.
  - unfold connect. rewrite Hp, Ek.
    destruct (attempt (attempts s)) as [error | | | actual rest]; [by destruct error | done.. |].
    destruct (check_server_key _ _ _); [| done]. destruct rest as [error | | src auth]; [done.. |].
    destruct (auth k) as [| | | alive ends]; [| done | done | by destruct (ends client_config)].
    destruct (authorize_host_key _ _) as [[[] | e] s2] eqn:Ea;
      apply authorize_run in Ea as [(-> & _) | (fp & _ & _ & _ & _ & _ & Ha & _)];
      unfold report_pin; repeat case_match; simpl in *; by rewrite ?Ha.
  - split; [by apply Hcfg |]. unfold connect. by rewrite Hp, Ek.
Qed.

(** The health probe reports what it did: a successful handshake names the
    key the server was accepted with, says it was newly pinned exactly when no
    pin was configured, in which case the observer was told that fingerprint,
    and keeps no session. *)
Theorem handshake_reports spec decode_secret_key attempt authorize
    (h : TunnelHandshake) (s : SshState) :
  handshake spec decode_secret_key attempt authorize = (Ready (Ok h), s) ->
  KeyAccepted 0 (hs_fingerprint h) ∈ log s /\ Authenticated 0 ∈ log s
  /\ hs_newly_pinned h = bool_decide (ts_pinned_host_key spec = None)
  /\ (forall fp, Pinned fp ∈ log s <-> hs_newly_pinned h = true /\ fp = hs_fingerprint h)
  /\ current s = None.
Proof.
  unfold handshake. destruct (connect _ _ _ _ ssh_new) as [r s1] eqn:E. apply connect_runs in E.
  destruct r as [[n | e] |]; [| done..]. intros [= <- <-].
  inversion E as [| | | | ? ? ? ? _ Hr | | actual st src s2 s3 Hk Hs2 Ha]; subst; [by destruct (Hr n) |].
  apply authorize_run in Ha as [(_ & _ & [e He]) | (fp & Hfp & Hl & Hkey & Hc & _)]; [done |].
  assert (Hst : fingerprint st = Some actual /\ reported st = false
                /\ newly_pinned st = bool_decide (ts_pinned_host_key spec = None)).
  { unfold check_server_key in Hk. simpl in Hk. destruct (ts_pinned_host_key spec) as [p|].
    - destruct (String.eqb_spec p actual); simpl in Hk; by simplify_eq.
    - by simplify_eq. }
  destruct Hst as (Hf & Hrep & Hnew). simpl in *. rewrite Hf in Hfp. injection Hfp as <-.
  unfold report_pin. rewrite Hkey. simpl. rewrite Hf, Hrep, Hnew. simpl. rewrite andb_true_r.
  case_bool_decide as Hp; simpl; rewrite Hl, Hc; split_and!; try set_solver.
Qed.

(** a key is held against later attempts even though authentication with
    it failed and it was never reported as a pin: with no configured pin, a
    server that was refused by its own credentials check and comes back with
    another key is answered with a host-key mismatch that calls the first key
    the pinned one. *)
Theorem unauthenticated_key_is_held spec decode_secret_key attempt authorize
    (s s1 s2 : SshState) (r1 r2 : Poll (Result nat TunnelError)) (a b : string)
    (src : option SocketAddr) (auth : PrivateKey -> AuthReply) (rest : AfterKey) :
  ts_pinned_host_key spec = None -> fingerprint (host_key s) = None ->
  is_empty (trim (ts_private_key_pem spec)) = false ->
  is_ok (decode_ed25519_private_key decode_secret_key (ts_private_key_pem spec)
           (ts_private_key_passphrase spec)) = true ->
  attempt (attempts s) = KeyOffered a (Established src auth) -> (forall key, auth key = AuthRejected) ->
  attempt (S (attempts s)) = KeyOffered b rest -> a <> b ->
  connect spec decode_secret_key attempt authorize s = (r1, s1) ->
  connect spec decode_secret_key attempt authorize s1 = (r2, s2) ->
  r1 = Ready (Err (auth_failed spec "the server rejected the private key"))
  /\ r2 = Ready (Err (HostKeyMismatch (ts_host spec) (ts_port spec) a b))
  /\ (forall fp, Pinned fp ∈ log s2 -> Pinned fp ∈ log s).
Proof.
  intros Hpin Hfp Hpem Hkey Ha Hrej Hb Hab H1 H2. unfold connect in H1, H2.
  destruct (decode_ed25519_private_key _ _ _) as [k | e]; [| done].
  rewrite Hpem, Ha in H1. unfold check_server_key in H1. simpl in H1. rewrite Hpin, Hfp, Hrej in H1.
  simplify_eq/=. rewrite Hpem, Hb in H2. unfold check_server_key in H2. simpl in H2. rewrite Hpin in H2.
  destruct (String.eqb_spec a b); [done |]. simplify_eq/=. split_and!; [done | done |]. set_solver.
Qed.

(** ** Samples *)

Definition sample_spec : TunnelSpec := {|
  ts_proxy_config_id := "p1"; ts_proxy_name := "seedbox"; ts_revision := "p1@1";
  ts_host := "seedbox.example"; ts_port := 22; ts_username := "scryer";
  ts_private_key_pem := "PEM"; ts_private_key_passphrase := None;
  ts_pinned_host_key := None; ts_request_timeout := from_secs 30 |}.

Definition sample_decode (pem : string) (pass : option string) : Result PrivateKey KeyError :=
  if String.eqb pem "PEM" then Ok {| algorithm := ED25519; secret := [7] |} else Err UnsupportedKeyType.

Definition sample_attempt (n : nat) : Handshake := KeyOffered "SHA256:a" (Established None (fun _ => AuthSuccess)).
Definition sample_open (n : nat) : OpenReply :=
  match n with O => Opened | 1%nat => ChannelOpenFailure "ConnectFailed" | _ => OpenTimedOut end.

Notation sample_step := (ssh_step sample_spec sample_decode sample_attempt (fun _ => Ok tt) sample_open).

(** One dial, run to its end. *)
Definition sample_world : SshWorld := Eval vm_compute in
  let step d s := caller_step sample_spec sample_decode sample_attempt (fun _ => Ok tt) sample_open d s in
  let '(d1, s1) := step (Starting "localhost" 8080) ssh_new in
  let '(d2, s2) := step d1 s1 in
  {| provider := s2; callers := [d2] |}.

Lemma sample_world_reachable : rtc sample_step world_new sample_world.
Proof.
  eapply rtc_l; [by apply (step_call _ _ _ _ _ (Starting "localhost" 8080)) |].
  eapply rtc_l; [by apply (step_caller _ _ _ _ _ 0 (Starting "localhost" 8080)) |].
  eapply rtc_l; [by apply (step_caller _ _ _ _ _ 0 (HasSession "localhost" 8080 0)) |].
  match goal with |- rtc _ ?w _ => replace w with sample_world by (vm_compute; reflexivity) end.
  apply rtc_refl.
Qed.

Lemma ssh_trust_on_first_use_witness :
  (forall n m fp fp', KeyAccepted n fp ∈ log (provider sample_world) ->
     KeyAccepted m fp' ∈ log (provider sample_world) -> fp = fp')
  /\ Pinned "SHA256:a" ∈ log (provider sample_world).
Proof.
  split; [| apply (bool_decide_unpack _); vm_compute; exact I].
  apply (ssh_trust_on_first_use sample_spec sample_decode sample_attempt (fun _ => Ok tt) sample_open sample_world).
  apply sample_world_reachable.
Defined.

Lemma ssh_effects_authorized_witness :
  exists l1 l2, log (provider sample_world) = (l1 ++ OpenChannel 0 "localhost" 8080 :: l2)%list
    /\ Authenticated 0 ∈ l1.
Proof.
  set (l := log (provider sample_world)).
  exists (take 7 l), []. split; [vm_compute; reflexivity |].
  destruct (ssh_effects_authorized sample_spec sample_decode sample_attempt (fun _ => Ok tt) sample_open
              sample_world sample_world_reachable) as [_ H].
  apply (H (take 7 l) 0%nat "localhost" 8080 []). vm_compute. reflexivity.
Defined.

Definition sample_dial : Poll (Result unit TunnelError) * SshState := Eval vm_compute in
  dial sample_spec sample_decode sample_attempt (fun _ => Ok tt) sample_open "tracker" 80
    (provider sample_world).

Lemma ssh_dial_reconnects_once_witness :
  fst sample_dial = Ready (Err (Dial "tracker" 80 "ConnectFailed"))
  /\ (attempts (snd sample_dial) <= 2 + attempts (provider sample_world))%nat.
Proof.
  split; [vm_compute; reflexivity |].
  destruct (ssh_dial_reconnects_once sample_spec sample_decode sample_attempt (fun _ => Ok tt) sample_open
           "tracker" 80 (provider sample_world) (snd sample_dial) (fst sample_dial)) as [H _];
    [vm_compute; reflexivity | exact H].
Defined.

Lemma ssh_shutdown_final_witness :
  closed (shutdown (provider sample_world)) = true
  /\ current (shutdown (provider sample_world)) = None
  /\ attempts (shutdown (provider sample_world)) = attempts (provider sample_world).
Proof.
  apply (ssh_shutdown_final sample_spec sample_decode sample_attempt (fun _ => Ok tt) sample_open
           (provider sample_world) []
           {| provider := shutdown (provider sample_world); callers := [] |}). apply rtc_refl.
Defined.

(** A server that goes silent, and russh ending the session when it is told to. *)
Definition silent_ends (config : ClientConfig) : Poll string :=
  match keepalive_interval config with Some _ => Ready "Keepalive timeout" | None => Pending end.

Definition silent_attempt (n : nat) : Handshake :=
  KeyOffered "SHA256:a" (Established None (fun _ => AuthUnanswered false silent_ends)).

Lemma silent_attempt_honoured : keepalives_honoured silent_attempt.
Proof. intros n actual src auth key ends config interval [= <- <- <-] [= <-] Hi _. unfold silent_ends. rewrite Hi. by eexists. Qed.


Lemma private_key_judged_alike_witness :
  attempts (snd (connect sample_spec sample_decode sample_attempt (fun _ => Ok tt) ssh_new)) = 1%nat.
Proof.
  pose proof (private_key_judged_alike sample_spec sample_decode sample_attempt (fun _ => Ok tt) ssh_new) as H.
  vm_compute in H. vm_compute. apply H. reflexivity.
Defined.

Definition sample_handshake : TunnelHandshake :=
  {| hs_fingerprint := "SHA256:a"; hs_newly_pinned := true; hs_endpoint := "scryer@seedbox.example:22" |}.

Lemma handshake_reports_witness :
  handshake sample_spec sample_decode sample_attempt (fun _ => Ok tt)
  = (Ready (Ok sample_handshake), snd (handshake sample_spec sample_decode sample_attempt (fun _ => Ok tt)))
  /\ Authenticated 0 ∈ log (snd (handshake sample_spec sample_decode sample_attempt (fun _ => Ok tt))).
Proof.
  split; [vm_compute; reflexivity |].
  apply (handshake_reports sample_spec sample_decode sample_attempt (fun _ => Ok tt) sample_handshake).
  vm_compute. reflexivity.
Defined.

(** A server that changes its key after rejecting us. *)
Definition changing_attempt (n : nat) : Handshake :=
  match n with
  | O => KeyOffered "SHA256:a" (Established None (fun _ => AuthRejected))
  | _ => KeyOffered "SHA256:b" (Established None (fun _ => AuthSuccess))
  end.

Definition sample_connect (s : SshState) : Poll (Result nat TunnelError) * SshState :=
  connect sample_spec sample_decode changing_attempt (fun _ => Ok tt) s.

Lemma unauthenticated_key_is_held_witness :
  fst (sample_connect (snd (sample_connect ssh_new)))
  = Ready (Err (HostKeyMismatch "seedbox.example" 22 "SHA256:a" "SHA256:b")).
Proof.
  apply (unauthenticated_key_is_held sample_spec sample_decode changing_attempt (fun _ => Ok tt)
           ssh_new (snd (sample_connect ssh_new)) (snd (sample_connect (snd (sample_connect ssh_new))))
           (fst (sample_connect ssh_new)) (fst (sample_connect (snd (sample_connect ssh_new))))
           "SHA256:a" "SHA256:b" None (fun _ => AuthRejected) (Established None (fun _ => AuthSuccess)));
    try (vm_compute; reflexivity). discriminate.
Defined.
