(* ===== verification/Secrets.v ===== *)
(** * Secrets stay where they belong

    Non-interference: two configurations that differ only in their secrets, and
    are answered alike by the outside world, have the same runs, down to every
    log entry, error text and observation; and the same [Debug] rendering.
    Whatever is written down or sent on by this code therefore carries nothing
    of the secrets but whether they are usable (and, for WireGuard, the public
    key an operator needs). *)

From Stdlib Require Import ZArith Lia String Ascii.
From stdpp Require Import gmap strings numbers prelude.
From S2P Require Import Prelude Net Errors Provider Codec WgSpec WgResolve WgStack WgProvider Ssh.

Open Scope string_scope.
Open Scope Z_scope.

(** ** SSH: the private key and its passphrase *)

Definition ssh_with_key (pem : string) (passphrase : option string) (s : TunnelSpec) : TunnelSpec :=
  {| ts_proxy_config_id := ts_proxy_config_id s; ts_proxy_name := ts_proxy_name s; ts_revision := ts_revision s;
     ts_host := ts_host s; ts_port := ts_port s; ts_username := ts_username s; ts_private_key_pem := pem;
     ts_private_key_passphrase := passphrase; ts_pinned_host_key := ts_pinned_host_key s;
     ts_request_timeout := ts_request_timeout s |}.

(** The key can be used: it is present and decodes to the Ed25519 key [key]. *)
Definition usable_key decode_secret_key (pem : string) (passphrase : option string) (key : PrivateKey) : Prop :=
  is_empty (trim pem) = false /\ decode_ed25519_private_key decode_secret_key pem passphrase = Ok key.

(** The server, which is shown a proof of the key, answers the two alike. *)
Definition answered_alike (attempt : nat -> Handshake) (key key' : PrivateKey) : Prop :=
  forall n actual source auth, attempt n = KeyOffered actual (Established source auth) -> auth key = auth key'.

Section SshKey.
Variable spec : TunnelSpec.
Variable decode_secret_key : string -> option string -> Result PrivateKey KeyError.
Variable attempt : nat -> Handshake.
Variable authorize : nat -> Result unit TunnelError.
Variable open_reply : nat -> OpenReply.
Variables pem pem' : string.
Variables passphrase passphrase' : option string.
Variables key key' : PrivateKey.
Hypothesis usable : usable_key decode_secret_key pem passphrase key.
Hypothesis usable' : usable_key decode_secret_key pem' passphrase' key'.
Hypothesis alike : answered_alike attempt key key'.

Notation spec1 := (ssh_with_key pem passphrase spec).
Notation spec2 := (ssh_with_key pem' passphrase' spec).

Lemma connect_any_key s :
  Ssh.connect spec1 decode_secret_key attempt authorize s = Ssh.connect spec2 decode_secret_key attempt authorize s.
Proof.
  destruct usable as [He Hk], usable' as [He' Hk']. unfold Ssh.connect.
  cbn [ts_private_key_pem ts_private_key_passphrase ssh_with_key]. rewrite He, He', Hk, Hk'.
  destruct (attempt (attempts s)) as [error | | | actual [| | source auth]] eqn:E; [done.. |].
  by rewrite (alike _ _ _ _ E).
Qed.

Lemma ssh_caller_any_key d s :
  Ssh.caller_step spec1 decode_secret_key attempt authorize open_reply d s
  = Ssh.caller_step spec2 decode_secret_key attempt authorize open_reply d s.
Proof.
  destruct d; unfold Ssh.caller_step, Ssh.prepare, Ssh.session, Ssh.replace_session, Ssh.connect_current;
    rewrite ?connect_any_key; reflexivity.
Qed.

Lemma ssh_step_any_key w w' :
  ssh_step spec1 decode_secret_key attempt authorize open_reply w w' ->
  ssh_step spec2 decode_secret_key attempt authorize open_reply w w'.
Proof.
  intros [d x Hd | i d x Hi Hl | i d x Hi | n actual st x Hn Hk | x Hl | x].
  - by apply Ssh.step_call.
  - rewrite ssh_caller_any_key. by apply Ssh.step_caller.
  - by apply (Ssh.step_drop _ _ _ _ _ i d).
  - by apply Ssh.step_rekey.
  - by apply Ssh.step_retire.
  - apply Ssh.step_close.
Qed.

End SshKey.

(** ** WireGuard: the private and the preshared key *)

Definition wg_with_keys (private : Key) (preshared : option Key) (s : WireGuardSpec) : WireGuardSpec :=
  {| proxy_config_id := proxy_config_id s; proxy_name := proxy_name s; revision := revision s;
     endpoint_host := endpoint_host s; endpoint_port := endpoint_port s; private_key := private;
     peer_public_key := peer_public_key s; preshared_key := preshared; addresses := addresses s;
     dns_servers := dns_servers s; mtu := mtu s; persistent_keepalive := persistent_keepalive s;
     request_timeout := request_timeout s |}.

Section WgKeys.
Variable spec : WireGuardSpec.
Variable download_tuning : bool.
Variable b64_encode : list Z -> string.
Variable x25519_public : Key -> Key.
Variable has_runtime : bool.
Variable datagram : option DatagramTransport.
Variable lookup_host : nat -> string -> Z -> option (Result (list SocketAddr) string).
Variable build_error : nat -> option string.
Variable clock : nat -> nat -> Duration.
Variable shaken : nat -> nat -> bool.
Variable pump_finished : nat -> nat -> bool.
Variable carrier_closed : nat -> nat -> bool.
Variable handshake_age : nat -> nat -> option Duration.
Variable answer : nat -> string -> DnsQueryType -> Duration -> Result (list IpAddr) TunnelError * Duration.
Variable connect_reply : nat -> Result unit TunnelError.
Variables private private' : Key.
Variables preshared preshared' : option Key.
Hypothesis present : private <> ZERO_KEY /\ private' <> ZERO_KEY.
Hypothesis same_public : x25519_public private = x25519_public private'.

Notation spec1 := (wg_with_keys private preshared spec).
Notation spec2 := (wg_with_keys private' preshared' spec).

Lemma validate_any_key : validate b64_encode x25519_public spec1 = validate b64_encode x25519_public spec2.
Proof.
  unfold validate, public_key_of.
  cbn [endpoint_host endpoint_port addresses mtu private_key peer_public_key wg_with_keys].
  destruct present as [H1 H2]. by rewrite same_public, (bool_decide_eq_false_2 _ H1), (bool_decide_eq_false_2 _ H2).
Qed.

Lemma bring_up_any_key s :
  bring_up spec1 download_tuning b64_encode x25519_public has_runtime datagram lookup_host build_error clock shaken
    pump_finished s
  = bring_up spec2 download_tuning b64_encode x25519_public has_runtime datagram lookup_host build_error clock shaken
      pump_finished s.
Proof.
  unfold bring_up, await_handshake, no_handshake, public_key_of. rewrite validate_any_key.
  cbn [private_key wg_with_keys]. rewrite same_public. reflexivity.
Qed.

Lemma bring_up_until_any_key k inside s :
  bring_up_until spec1 b64_encode x25519_public has_runtime datagram lookup_host build_error k inside s
  = bring_up_until spec2 b64_encode x25519_public has_runtime datagram lookup_host build_error k inside s.
Proof. unfold bring_up_until. by rewrite validate_any_key. Qed.

Lemma wg_caller_any_key d s :
  WgProvider.caller_step spec1 download_tuning b64_encode x25519_public has_runtime datagram lookup_host build_error
    clock shaken pump_finished carrier_closed handshake_age answer connect_reply d s
  = WgProvider.caller_step spec2 download_tuning b64_encode x25519_public has_runtime datagram lookup_host build_error
      clock shaken pump_finished carrier_closed handshake_age answer connect_reply d s.
Proof.
  destruct d; unfold WgProvider.caller_step, WgProvider.prepare, tunnel, replace_tunnel, bring_up_current,
    probe_handshake; try reflexivity.
  - destruct (WgProvider.closed s); [done |]. destruct (WgProvider.current s) as [n|]; rewrite ?bring_up_any_key; [| done].
    destruct (is_alive _ _ n s) as [[] s1]; [done |]. by rewrite bring_up_any_key.
  - destruct (WgProvider.closed s); [done |]. destruct (WgProvider.current s) as [n|]; rewrite ?bring_up_any_key; [| done].
    destruct (is_alive _ _ n s) as [[] s1]; [done |]. by rewrite bring_up_any_key.
  - destruct (last_handshake_age _ n s) as [age s1]. destruct (recent age); [done |].
    destruct (WgProvider.closed s1); [done |]. destruct (WgProvider.current s1) as [m|]; by rewrite bring_up_any_key.
  - rewrite bring_up_any_key. destruct (bring_up spec2 _ _ _ _ _ _ _ _ _ _ s) as [[n|e] s1]; [| done].
    reflexivity.
Qed.

Lemma wg_step_any_key w w' :
  wg_step spec1 download_tuning b64_encode x25519_public has_runtime datagram lookup_host build_error
    clock shaken pump_finished carrier_closed handshake_age answer connect_reply w w' ->
  wg_step spec2 download_tuning b64_encode x25519_public has_runtime datagram lookup_host build_error
    clock shaken pump_finished carrier_closed handshake_age answer connect_reply w w'.
Proof.
  intros [d x Hd | i d x Hi | i d x Hi | i d k inside s s' left x Hi Es Eb | j o x Hj Ho | j o packet x Hj Ho | j o e x Hj He | n x | n x Hn Hr | x | x].
  - by apply WgProvider.step_call.
  - rewrite wg_caller_any_key. by apply WgProvider.step_caller.
  - by apply (step_cancel _ _ _ _ _ _ _ _ _ _ _ _ _ _ _ i d).
  - eapply step_abandon; [exact Hi | exact Es | by rewrite <- bring_up_until_any_key].
  - by apply step_orphan_device.
  - by apply step_orphan_packet.
  - by apply step_orphan_pump.
  - apply step_pump_ends.
  - by apply step_last_reference.
  - apply WgProvider.step_retire.
  - apply WgProvider.step_close.
Qed.

End WgKeys.

(** ** Renderings *)

(** A redacted option shows only whether it is there. *)
Lemma redacted_presence {A} (a b : option A) :
  (is_Some a <-> is_Some b) -> (fun _ => REDACTED) <$> a = (fun _ => REDACTED) <$> b.
Proof.
  intros [H1 H2]. destruct a as [x|], b as [y|]; try done.
  - by destruct (H1 ltac:(by eexists)).
  - by destruct (H2 ltac:(by eexists)).
Qed.

(** ** Properties *)

(** C20: an SSH key only unlocks the server.  Two providers whose usable keys and
    passphrases differ, and whose servers accept or refuse both alike, have
    exactly the same runs whatever else the transport and the observer answer:
    the same connections, logs, error texts and results.  Their specifications
    render alike, down to whether there is a passphrase. *)
Theorem ssh_key_confidential (spec : TunnelSpec) decode_secret_key attempt authorize open_reply
    (pem pem' : string) (passphrase passphrase' : option string) (key key' : PrivateKey) :
  usable_key decode_secret_key pem passphrase key -> usable_key decode_secret_key pem' passphrase' key' ->
  answered_alike attempt key key' ->
  (forall w, rtc (ssh_step (ssh_with_key pem passphrase spec) decode_secret_key attempt authorize open_reply)
               Ssh.world_new w
         <-> rtc (ssh_step (ssh_with_key pem' passphrase' spec) decode_secret_key attempt authorize open_reply)
               Ssh.world_new w)
  /\ (is_Some passphrase <-> is_Some passphrase' ->
      tunnel_spec_debug (ssh_with_key pem passphrase spec) = tunnel_spec_debug (ssh_with_key pem' passphrase' spec)).
Proof.
  intros H1 H2 H3.
  assert (H3' : answered_alike attempt key' key) by (intros n actual source auth E; symmetry; by eapply H3).
  split.
  - intros w. split; intros Hr; (eapply rtc_subrel; [| exact Hr]); intros x y; by eapply ssh_step_any_key.
  - intros Hp. unfold tunnel_spec_debug. simpl. by rewrite (redacted_presence _ _ Hp).
Qed.

(** WireGuard keys stay in the engine.  Two providers with private keys of
    the same public key, and any preshared keys, that are answered alike have
    exactly the same runs: the same bring-ups, logs, error texts and
    observations.  Their specifications render alike whatever the keys, down to
    whether there is a preshared one. *)
Theorem wg_keys_confidential (spec : WireGuardSpec) download_tuning b64_encode x25519_public has_runtime datagram
    lookup_host build_error clock shaken pump_finished carrier_closed handshake_age answer connect_reply
    (private private' : Key) (preshared preshared' : option Key) :
  private <> ZERO_KEY -> private' <> ZERO_KEY -> x25519_public private = x25519_public private' ->
  (forall w,
     rtc (wg_step (wg_with_keys private preshared spec) download_tuning b64_encode x25519_public has_runtime datagram
            lookup_host build_error clock shaken pump_finished carrier_closed handshake_age answer connect_reply)
       WgProvider.world_new w
     <-> rtc (wg_step (wg_with_keys private' preshared' spec) download_tuning b64_encode x25519_public has_runtime
                datagram lookup_host build_error clock shaken pump_finished carrier_closed handshake_age answer
                connect_reply) WgProvider.world_new w)
  /\ (is_Some preshared <-> is_Some preshared' ->
      spec_debug b64_encode (wg_with_keys private preshared spec)
      = spec_debug b64_encode (wg_with_keys private' preshared' spec)).
Proof.
  intros H1 H2 H3. split.
  - intros w. split; intros Hr; (eapply rtc_subrel; [| exact Hr]); intros x y; by apply wg_step_any_key.
  - intros Hp. unfold spec_debug. simpl. by rewrite (redacted_presence _ _ Hp).
Qed.

(** Two keys, of different secrets; the server of the sample accepts either. *)
Definition two_keys (pem : string) (passphrase : option string) : Result PrivateKey KeyError :=
  Ok {| algorithm := ED25519; secret := bytes_of pem |}.

Lemma ssh_key_confidential_witness :
  secret {| algorithm := ED25519; secret := bytes_of "key one" |} <> secret {| algorithm := ED25519; secret := bytes_of "key two" |}
  /\ tunnel_spec_debug (ssh_with_key "key one" (Some "a") Ssh.sample_spec)
     = tunnel_spec_debug (ssh_with_key "key two" (Some "b") Ssh.sample_spec).
Proof.
  split; [discriminate |].
  apply (ssh_key_confidential Ssh.sample_spec two_keys Ssh.sample_attempt (fun _ => Ok tt) sample_open
           "key one" "key two" (Some "a") (Some "b") {| algorithm := ED25519; secret := bytes_of "key one" |}
           {| algorithm := ED25519; secret := bytes_of "key two" |}).
  - split; vm_compute; reflexivity.
  - split; vm_compute; reflexivity.
  - intros n actual source auth [= <- <- <-]. reflexivity.
  - split; intros _; by eexists.
Defined.

Lemma wg_keys_confidential_witness :
  spec_debug hex_encode (wg_with_keys (sample_key 1) (Some (sample_key 5)) WgProvider.sample_spec)
  = spec_debug hex_encode (wg_with_keys (sample_key 2) (Some (sample_key 6)) WgProvider.sample_spec).
Proof.
  apply (wg_keys_confidential WgProvider.sample_spec false hex_encode (fun _ => sample_key 9) true None
    (fun _ _ _ => None) (fun _ => None) sample_clock sample_shaken (fun _ _ => false) (fun _ _ => false) sample_age
    sample_answer sample_reply (sample_key 1) (sample_key 2) (Some (sample_key 5)) (Some (sample_key 6))).
  - vm_compute. discriminate.
  - vm_compute. discriminate.
  - reflexivity.
  - split; intros _; by eexists.
Defined.
