(* ===== verification/Families.v ===== *)
(** * The three families meet the provider contract

    [Contract]'s laws for [Ssh], [WgProvider] and [Http3], in each case for any
    answers of the server, the engine, the proxy and the network, and what
    follows from them for the three and the fronts behind them. *)

From Stdlib Require Import ZArith Lia String Ascii.
From stdpp Require Import gmap strings numbers prelude.
From S2P Require Import Prelude Net Errors Codec Socks5 Provider Contract WgSpec WgResolve WgStack WgProvider Http3Spec Http3 Ssh.

#[local] Open Scope list_scope.

(** A call that keeps its place while others come and go. *)
Lemma lookup_snoc_old {A} (l : list A) x i y : l !! i = Some y -> (l ++ [x]) !! i = Some y.
Proof. intros Hi. rewrite lookup_app_l; [done | by eapply lookup_lt_Some]. Qed.

Lemma lookup_snoc_new {A} (l : list A) x : (l ++ [x]) !! length l = Some x.
Proof. rewrite lookup_app_r by lia. by rewrite Nat.sub_diag. Qed.

(** What holds of every call and of what replaces it holds after a change. *)
Lemma lookup_insert_kept {A} (P : A -> Prop) (l : list A) i j x y :
  l !! j = Some x -> P x -> (i = j -> P y) -> exists z, <[i := y]> l !! j = Some z /\ P z.
Proof.
  intros Hj Hx Hy. destruct (decide (i = j)) as [-> | Hne].
  - exists y. split; [| by apply Hy]. apply list_lookup_insert_eq. by eapply lookup_lt_Some.
  - exists x. by rewrite list_lookup_insert_ne.
Qed.

(** ** SSH *)

Section SshFamily.
Variable spec : TunnelSpec.
Variable decode_secret_key : string -> option string -> Result PrivateKey KeyError.
Variable attempt : nat -> Handshake.
Variable authorize : nat -> Result unit TunnelError.
Variable open_reply : nat -> OpenReply.

Notation step := (ssh_step spec decode_secret_key attempt authorize open_reply).
Notation moves := (Ssh.caller_step spec decode_secret_key attempt authorize open_reply).

(** [shutdown] waits for the session lock. *)
Definition ssh_provider : ProviderOps SshWorld := {|
  p_new := Ssh.world_new;
  p_step := step;
  p_dial host port w :=
    {| Ssh.provider := Ssh.provider w; Ssh.callers := Ssh.callers w ++ [Ssh.Starting host port] |};
  p_calls w := length (Ssh.callers w);
  p_answer i w := match Ssh.callers w !! i with Some (Ssh.Returned r) => Some r | _ => None end;
  p_shuts w w' :=
    Ssh.lock_held w = false
    /\ w' = {| Ssh.provider := Ssh.shutdown (Ssh.provider w); Ssh.callers := Ssh.callers w |}
|}.

Definition ssh_down (w : SshWorld) : Prop := Ssh.stopped (Ssh.provider w) /\ Ssh.lock_held w = false.

(** A call that has not begun, has failed or was dropped. *)
Definition ssh_hopeless (d : Ssh.Caller) : Prop :=
  match d with Ssh.Starting _ _ | Ssh.Returned (Err _) | Ssh.Dropped => True | _ => False end.

Lemma ssh_moves_unlocked d s :
  Ssh.stopped s -> Ssh.is_waiting d = false -> Ssh.is_waiting (fst (moves d s)) = false.
Proof.
  intros [Hcl Hc] Hd. destruct d as [| host port | host port n | host port n | host port n | | r |]; try done; simpl.
  - unfold Ssh.prepare, Ssh.session. by rewrite Hcl.
  - unfold Ssh.session. by rewrite Hcl.
  - by destruct (Ssh.open_channel _ _ _ _ _ _) as [[[]|[e|e]] s1].
  - unfold Ssh.replace_session. by rewrite Hcl.
  - by destruct (Ssh.open_channel _ _ _ _ _ _) as [[[]|[e|e]] s1].
Qed.

Lemma existsb_insert {A} (f : A -> bool) (l : list A) i x :
  existsb f l = false -> f x = false -> existsb f (<[i := x]> l) = false.
Proof.
  revert i. induction l as [|a l IH]; intros [|i]; simpl; [done | done | |]; intros [Ha Hl]%orb_false_iff Hx.
  - by rewrite Hx, Hl.
  - by rewrite Ha, IH.
Qed.

Lemma ssh_stays_down w w' : step w w' -> ssh_down w -> ssh_down w'.
Proof.
  intros Hstep [Hs Hl]. split; [by eapply (ssh_step_stopped _ _ _ _ _ w w') |]. unfold Ssh.lock_held in *.
  destruct Hstep as [d w Hd | i d w Hi Hk | i d w Hi | m actual st w Hm Hk | w Hk | w]; simpl; try done.
  - rewrite existsb_app, Hl. by destruct d.
  - apply existsb_insert; [done |]. apply ssh_moves_unlocked; [done |].
    destruct (Ssh.is_waiting d) eqn:E; [| done]. rewrite <- Hl. symmetry. apply existsb_exists. exists d.
    split; [by eapply list_elem_of_In, list_elem_of_lookup_2 | done].
  - by apply existsb_insert.
Qed.

Lemma ssh_hopeless_step i w w' d :
  ssh_down w -> Ssh.callers w !! i = Some d -> ssh_hopeless d -> step w w' ->
  exists d', Ssh.callers w' !! i = Some d' /\ ssh_hopeless d'.
Proof.
  intros [[Hcl Hc] Hl] Hi Hd Hstep.
  destruct Hstep as [d' w Hd' | j d' w Hj Hk | j d' w Hj | m actual st w Hm Hk | w Hk | w]; simpl; try (by exists d).
  - exists d. split; [by apply lookup_snoc_old | done].
  - eapply lookup_insert_kept; [done | done |]. intros ->. rewrite Hi in Hj. injection Hj as <-.
    destruct d as [| host port | | | | | r |]; try done. simpl. unfold Ssh.session. by rewrite Hcl.
  - by eapply lookup_insert_kept.
Qed.

Lemma ssh_shutdown_stopped s : Ssh.stopped (Ssh.shutdown s).
Proof. unfold Ssh.shutdown, Ssh.retire, Ssh.stopped. by destruct (Ssh.current (Ssh.set_closed s)) eqn:E. Qed.

Definition ssh_provider_laws : @ProviderLaws SshWorld ssh_provider.
Proof.
  refine {| p_down := ssh_down; p_refused i w := exists d, Ssh.callers w !! i = Some d /\ ssh_hopeless d |}; simpl.
  - intros w w' _ [Hl ->]. split; [apply ssh_shutdown_stopped | done].
  - apply ssh_stays_down.
  - intros host port w [Hs Hl]. split; [done |]. unfold Ssh.lock_held in *. simpl. by rewrite existsb_app, Hl.
  - intros host port w _. exists (Ssh.Starting host port). split; [apply lookup_snoc_new | done].
  - intros i w w' Hw (d & Hi & Hd) Hstep. by eapply ssh_hopeless_step.
  - intros i w r (d & -> & Hd). destruct d as [| | | | | | [[]|e] |]; try done. by intros [= <-].
  - intros host port w [[Hcl Hc] Hl]. eexists. exists Ssh.stopped_error. split.
    + apply rtc_once. apply (step_caller _ _ _ _ _ (length (Ssh.callers w)) (Ssh.Starting host port)); simpl.
      * apply lookup_snoc_new.
      * unfold Ssh.lock_held in *. simpl. by rewrite existsb_app, Hl.
    + simpl. unfold Ssh.session. rewrite Hcl. simpl. rewrite list_lookup_insert_eq; [done |].
      rewrite length_app. simpl. lia.
Defined.

End SshFamily.

(** ** WireGuard *)

Section WgFamily.
Variable spec : WireGuardSpec.
Variable download_tuning : bool.
Variable b64_encode : list Z -> string.
Variable x25519_public : Key -> Key.
Variable has_runtime : bool.
Variable datagram : option DatagramTransport.
Variable lookup_host : nat -> string -> Z -> option (Result (list SocketAddr) string).
Variable build_error : nat -> option string.
Variable clock : nat -> nat -> Duration.
Variable shaken : nat -> nat -> bool.
Variable pump_finished : nat -> nat -> bool.
Variable carrier_closed : nat -> nat -> bool.
Variable handshake_age : nat -> nat -> option Duration.
Variable answer : nat -> string -> DnsQueryType -> Duration -> Result (list IpAddr) TunnelError * Duration.
Variable connect_reply : nat -> Result unit TunnelError.

Notation step := (wg_step spec download_tuning b64_encode x25519_public has_runtime datagram lookup_host build_error
  clock shaken pump_finished carrier_closed handshake_age answer connect_reply).

Definition wg_provider : ProviderOps WgWorld := {|
  p_new := WgProvider.world_new;
  p_step := step;
  p_dial host port w :=
    {| WgProvider.provider := WgProvider.provider w;
       WgProvider.callers := WgProvider.callers w ++ [WgProvider.Starting host port];
       WgProvider.orphans := WgProvider.orphans w |};
  p_calls w := length (WgProvider.callers w);
  p_answer i w := match WgProvider.callers w !! i with Some (WgProvider.Finished r) => Some r | _ => None end;
  p_shuts w w' :=
    w' = {| WgProvider.provider := WgProvider.shutdown (WgProvider.provider w);
            WgProvider.callers := WgProvider.callers w; WgProvider.orphans := WgProvider.orphans w |}
|}.

Definition wg_down (w : WgWorld) : Prop := exists s0, WgProvider.stopped s0 (WgProvider.provider w).

Definition wg_hopeless (d : WgProvider.Caller) : Prop :=
  match d with WgProvider.Starting _ _ | WgProvider.Finished (Err _) | WgProvider.Cancelled => True | _ => False end.

Lemma wg_hopeless_step i w w' d :
  wg_down w -> WgProvider.callers w !! i = Some d -> wg_hopeless d -> step w w' ->
  exists d', WgProvider.callers w' !! i = Some d' /\ wg_hopeless d'.
Proof.
  intros (s0 & _ & Hcl & _) Hi Hd Hstep.
  destruct Hstep as [d' w Hd' | j d' w Hj | j d' w Hj | j d' k inside s s' left w Hj Es Eb | j o w Hj Ho | j o packet w Hj Ho | j o ev w Hj He | n w
    | n w Hn Hr | w | w]; simpl; try (by exists d).
  - exists d. split; [by apply lookup_snoc_old | done].
  - eapply lookup_insert_kept; [done | done |]. intros ->. rewrite Hi in Hj. injection Hj as <-.
    destruct d as [| host port | | | | | r |]; try done. simpl. unfold tunnel. by rewrite Hcl.
  - by eapply lookup_insert_kept.
  - by eapply lookup_insert_kept.
Qed.

Definition wg_provider_laws : @ProviderLaws WgWorld wg_provider.
Proof.
  refine {| p_down := wg_down; p_refused i w := exists d, WgProvider.callers w !! i = Some d /\ wg_hopeless d |}; simpl.
  - intros w w' Hr ->. exists (WgProvider.shutdown (WgProvider.provider w)). apply shutdown_stopped.
    exact (wg_reachable_wf _ _ _ _ _ _ _ _ _ _ _ _ _ _ _ _ Hr).
  - intros w w' Hstep [s0 Hs]. exists s0. by eapply wg_step_stopped.
  - done.
  - intros host port w _. exists (WgProvider.Starting host port). split; [apply lookup_snoc_new | done].
  - intros i w w' Hw (d & Hi & Hd) Hstep. by eapply wg_hopeless_step.
  - intros i w r (d & -> & Hd). destruct d as [| | | | | | [[]|e] |]; try done. by intros [= <-].
  - intros host port w (s0 & _ & Hcl & _). eexists. exists stopped_provider. split.
    + apply rtc_once.
      apply (WgProvider.step_caller _ _ _ _ _ _ _ _ _ _ _ _ _ _ _ (length (WgProvider.callers w))
        (WgProvider.Starting host port)). apply lookup_snoc_new.
    + simpl. unfold tunnel. rewrite Hcl. simpl. rewrite list_lookup_insert_eq; [done |]. rewrite length_app. simpl. lia.
Defined.

End WgFamily.

(** ** HTTP/3 *)

Section Http3Family.
Variable spec : Http3TunnelSpec.
Context {Authority : Type} (parse_authority : string -> option Authority).
Variable freed : SlotFreed.

Notation step := (http3_step spec parse_authority freed).

Definition http3_provider : ProviderOps Http3World := {|
  p_new := Http3.world_new;
  p_step := step;
  p_dial host port w :=
    {| Http3.provider := Http3.provider w;
       Http3.callers := Http3.callers w ++ [dial_start spec parse_authority host port (Http3.provider w)];
       Http3.streams := Http3.streams w |};
  p_calls w := length (Http3.callers w);
  p_answer i w := match Http3.callers w !! i with Some (Http3.Finished r) => Some r | _ => None end;
  p_shuts w w' := w' = Http3.shutdown w
|}.

Definition http3_down (w : Http3World) : Prop := stop_flag (Http3.provider w) = true.

Lemma dial_start_down host port s :
  stop_flag s = true -> exists e, dial_start spec parse_authority host port s = Http3.Finished (Err e).
Proof. intros Hs. unfold dial_start. rewrite Hs. destruct (authority _ _ _); eauto. Qed.

(** A call that has returned stays as it is. *)
Lemma http3_returned_step i w w' r :
  Http3.callers w !! i = Some (Http3.Finished r) -> step w w' -> Http3.callers w' !! i = Some (Http3.Finished r).
Proof.
  intros Hi Hstep.
  assert (Hset : forall j c x, Http3.callers w !! j = Some c -> c <> Http3.Finished r ->
    <[j := x]> (Http3.callers w) !! i = Some (Http3.Finished r)).
  { intros j c x Hj Hne. rewrite list_lookup_insert_ne; [done |]. intros ->. congruence. }
  destruct Hstep as [w | host port w | j p w Hj Hp Hfl | j dial b s c s' w Hj Hl Eb Ec | j dial connect c s w Hj Ec
    | j n q r' s w Hj Er | j c e w Hj Hfl | j n w Hj | n w | n w Hn | w w' Hr | j n ns w Hj | j w Hj | j ns w Hj | w];
    simpl; try done; try (by apply lookup_snoc_old); try (by eapply Hset).
  - eapply Hset; [done |]. by destruct c.
  - unfold Http3.retire in Hr. destruct (Http3.lock_held w); [done |].
    destruct (drained _ _); injection Hr as <-; by apply lookup_snoc_old.
Qed.

Definition http3_provider_laws : @ProviderLaws Http3World http3_provider.
Proof.
  refine {| p_down := http3_down;
            p_refused i w := exists e, Http3.callers w !! i = Some (Http3.Finished (Err e)) |}; simpl.
  - by intros w w' _ ->.
  - intros w w' Hstep Hw. by eapply step_stop_flag.
  - done.
  - intros host port w Hw. destruct (dial_start_down host port _ Hw) as [e ->]. exists e. apply lookup_snoc_new.
  - intros i w w' _ [e He] Hstep. exists e. by eapply http3_returned_step.
  - intros i w r [e ->]. by intros [= <-].
  - intros host port w Hw. eexists. destruct (dial_start_down host port _ Hw) as [e He]. exists e. split; [apply rtc_refl |].
    simpl. by rewrite He, lookup_snoc_new.
Defined.

End Http3Family.


(** ** An example *)

(** Each provider, shut down before it was used, and a dial on it. *)
Definition shut_ssh : SshWorld := {| Ssh.provider := Ssh.shutdown Ssh.ssh_new; Ssh.callers := [] |}.

Definition shut_wg : WgWorld :=
  {| WgProvider.provider := WgProvider.shutdown wg_new; WgProvider.callers := []; WgProvider.orphans := [] |}.

Definition shut_http3 : Http3World := Http3.shutdown Http3.world_new.

Notation sample_ssh_ops :=
  (ssh_provider Ssh.sample_spec Ssh.sample_decode Ssh.sample_attempt (fun _ => Ok tt) Ssh.sample_open).
Notation sample_wg_ops :=
  (wg_provider WgProvider.sample_spec false hex_encode sample_public true None (fun _ _ _ => None) (fun _ => None)
     sample_clock sample_shaken (fun _ _ => false) (fun _ _ => false) sample_age sample_answer sample_reply).
Notation sample_http3_ops := (http3_provider sample_http3 sample_parse sample_freed).

