(* ===== verification/Registry.v ===== *)
(** * The tunnel registry ([src/registry.rs])

    One loopback front per proxy configuration, started lazily and keyed by
    the configuration's id.  The state is the entry map under its lock and the
    status of every accept-loop task ever spawned; tasks outlive the entries
    that own them only until they are aborted, which is what the invariant
    says.  A provider is opaque to the registry. *)

From Stdlib Require Import ZArith Lia String Ascii.
From stdpp Require Import gmap strings numbers prelude.
From S2P Require Import Prelude Net Errors Socks5.

Open Scope string_scope.
Open Scope Z_scope.

(** An accept-loop task: running, stopped by [TunnelEntry::stop] (notified
    and aborted), or returned on its own. *)
Inductive TaskStatus : Type := Running | Aborted | Finished.

#[export] Instance TaskStatus_eq_dec : EqDecision TaskStatus.
Proof. solve_decision. Defined.

Record TunnelFront : Type := { addr : SocketAddr; front_credentials : Socks5Credentials }.

Record TunnelEntry (P : Type) : Type := {
  entry_revision : string;
  entry_front : TunnelFront;
  entry_provider : P;
  entry_task : nat
}.
Arguments entry_revision {P} _.
Arguments entry_front {P} _.
Arguments entry_provider {P} _.
Arguments entry_task {P} _.

(** What the operating system answers while a front is being bound. *)
Record Host : Type := {
  bind_loopback : Result unit string;
  set_nonblocking : Result unit string;
  local_addr : Result SocketAddr string
}.

Section Registry.
Context {P : Type}.

Record Registry : Type := {
  entries : gmap string (TunnelEntry P);
  tasks : gmap nat TaskStatus;
  next_task : nat
}.

Definition registry_new : Registry := {| entries := ∅; tasks := ∅; next_task := 0 |}.

(** [JoinHandle::is_finished]: an aborted task counts once it is gone; an
    entry never holds one. *)
Definition is_finished (w : Registry) (t : nat) : bool :=
  match tasks w !! t with Some Running => false | _ => true end.

(** [TunnelEntry::stop]: notify and abort.  Aborting a task that already
    returned changes nothing. *)
Definition stop_task (t : nat) (ts : gmap nat TaskStatus) : gmap nat TaskStatus :=
  match ts !! t with Some Running => <[t := Aborted]> ts | _ => ts end.

Definition entry_stop (e : TunnelEntry P) (w : Registry) : Registry :=
  {| entries := entries w; tasks := stop_task (entry_task e) (tasks w); next_task := next_task w |}.

Definition remove_entry (id : string) (w : Registry) : Registry :=
  {| entries := delete id (entries w); tasks := tasks w; next_task := next_task w |}.

(** [runtime.spawn] and [entries.insert]. *)
Definition insert_entry (id revision : string) (front : TunnelFront) (p : P) (w : Registry) : Registry :=
  let t := next_task w in
  {| entries := <[id := {| entry_revision := revision; entry_front := front;
                           entry_provider := p; entry_task := t |}]> (entries w);
     tasks := <[t := Running]> (tasks w);
     next_task := S t |}.

Definition stop (id : string) (w : Registry) : Registry :=
  match entries w !! id with
  | Some e => entry_stop e (remove_entry id w)
  | None => w
  end.

Definition stop_revision (id revision : string) (w : Registry) : Registry :=
  match entries w !! id with
  | Some e => if String.eqb (entry_revision e) revision then entry_stop e (remove_entry id w) else w
  | None => w
  end.

Definition stop_all (w : Registry) : Registry :=
  let drained := snd <$> map_to_list (entries w) in
  foldl (fun w e => entry_stop e w)
    {| entries := ∅; tasks := tasks w; next_task := next_task w |} drained.

Definition front_addr (id : string) (w : Registry) : option SocketAddr :=
  (fun e => addr (entry_front e)) <$> entries w !! id.

Definition reusable (w : Registry) (id revision : string) : option TunnelFront :=
  match entries w !! id with
  | Some e =>
      if String.eqb (entry_revision e) revision && negb (is_finished w (entry_task e))
      then Some (entry_front e) else None
  | None => None
  end.

(** The part of [ensure_tunnel_with] after the reuse test: the provider, the
    listener and the entry. *)
Definition start_front (id revision : string) (credentials : Socks5Credentials)
    (make_provider : unit -> Result P TunnelError) (host : Host) (w : Registry)
  : Result TunnelFront TunnelError * Registry :=
  match make_provider tt with
  | Err e => (Err e, w)
  | Ok p =>
      match bind_loopback host with
      | Err e => (Err (Engine ("could not bind a loopback tunnel front: " ++ e)), w)
      | Ok _ =>
          match set_nonblocking host with
          | Err e => (Err (Engine ("could not prepare the tunnel front: " ++ e)), w)
          | Ok _ =>
              match local_addr host with
              | Err e => (Err (Engine ("could not read the tunnel front address: " ++ e)), w)
              | Ok a =>
                  let front := {| addr := a; front_credentials := credentials |} in
                  (Ok front, insert_entry id revision front p w)
              end
          end
      end
  end.

Definition ensure_tunnel_with (id revision : string) (credentials : Socks5Credentials)
    (make_provider : unit -> Result P TunnelError) (host : Host) (w : Registry)
  : Result TunnelFront TunnelError * Registry :=
  match reusable w id revision with
  | Some front => (Ok front, w)
  | None => start_front id revision credentials make_provider host (stop id w)
  end.

(** ** Reachable registries *)

Inductive registry_step : Registry -> Registry -> Prop :=
| step_ensure id revision credentials make_provider host w :
    registry_step w (snd (ensure_tunnel_with id revision credentials make_provider host w))
| step_stop id w : registry_step w (stop id w)
| step_stop_revision id revision w : registry_step w (stop_revision id revision w)
| step_stop_all w : registry_step w (stop_all w)
| step_task_returns t w :
    tasks w !! t = Some Running ->
    registry_step w {| entries := entries w; tasks := <[t := Finished]> (tasks w); next_task := next_task w |}.

Definition owns (w : Registry) (id : string) (t : nat) : Prop :=
  exists e, entries w !! id = Some e /\ entry_task e = t.

Record registry_inv (w : Registry) : Prop := {
  task_spawned : forall id t, owns w id t -> (t < next_task w)%nat;
  task_known : forall t s, tasks w !! t = Some s -> (t < next_task w)%nat;
  task_unique : forall id id' t, owns w id t -> owns w id' t -> id = id';
  task_owned : forall t, tasks w !! t = Some Running -> exists id, owns w id t;
  task_live : forall id t, owns w id t ->
    tasks w !! t = Some Running \/ tasks w !! t = Some Finished
}.

Lemma stop_task_lookup t ts u :
  stop_task t ts !! u = if decide (u = t) then
    match ts !! t with Some Running => Some Aborted | o => o end else ts !! u.
Proof.
  unfold stop_task. destruct (decide (u = t)) as [-> | Hne].
  - destruct (ts !! t) as [[]|] eqn:E; rewrite ?E; [by rewrite lookup_insert_eq | done..].
  - destruct (ts !! t) as [[]|]; try done. by rewrite lookup_insert_ne.
Qed.

Lemma owns_remove id id' t w : owns (remove_entry id w) id' t <-> id' <> id /\ owns w id' t.
Proof.
  unfold owns. simpl. split.
  - intros (e & He & Ht). apply lookup_delete_Some in He as [Hne He]. eauto.
  - intros [Hne (e & He & Ht)]. exists e. by rewrite lookup_delete_ne.
Qed.

Lemma stop_entry_inv id e w :
  registry_inv w -> entries w !! id = Some e -> registry_inv (entry_stop e (remove_entry id w)).
Proof.
  intros [H1 H2 H3 H4 H5] He. set (t := entry_task e).
  assert (Ho : owns w id t) by (unfold owns; eauto).
  assert (Hown : forall id' u, owns (entry_stop e (remove_entry id w)) id' u <-> id' <> id /\ owns w id' u)
    by (intros; apply (owns_remove id id' u w)).
  split; simpl.
  - intros id' u [_ Hu]%Hown. eauto.
  - intros u s. rewrite stop_task_lookup. case_decide as Hd; [subst; eauto | eauto].
  - intros id1 id2 u [_ Hu1]%Hown [_ Hu2]%Hown. eauto.
  - intros u. rewrite stop_task_lookup. fold t. case_decide as Hd.
    + subst. by destruct (tasks w !! t) as [[]|].
    + intros Hr. destruct (H4 u Hr) as [id' Hid]. exists id'. apply Hown. split; [| done].
      intros ->. destruct Hid as (e' & He' & Ht'). apply Hd. unfold t. congruence.
  - intros id' u [Hne Hu]%Hown. rewrite stop_task_lookup. fold t. case_decide as Hd; [| eauto].
    subst. destruct Hne. eauto.
Qed.

Lemma stop_inv id w : registry_inv w -> registry_inv (stop id w).
Proof. intros Hw. unfold stop. destruct (entries w !! id) eqn:E; [by apply stop_entry_inv | done]. Qed.

Lemma insert_entry_inv id revision front p w :
  registry_inv w -> entries w !! id = None -> registry_inv (insert_entry id revision front p w).
Proof.
  intros [H1 H2 H3 H4 H5] He.
  assert (Hown : forall id' u, owns (insert_entry id revision front p w) id' u <->
                   (id' = id /\ u = next_task w) \/ (id' <> id /\ owns w id' u)).
  { intros id' u. unfold owns. simpl. destruct (decide (id' = id)) as [-> | Hne].
    - rewrite lookup_insert_eq. split; [intros (x & [= <-] & <-); by left |].
      intros [[_ ->] | [? _]]; [eauto | done].
    - rewrite lookup_insert_ne by done. naive_solver. }
  split; simpl.
  - intros id' u [[-> ->] | [_ Hu]]%Hown; [lia |]. apply H1 in Hu. lia.
  - intros u s [[<- <-] | [Hne Hu]]%lookup_insert_Some; [lia |]. apply H2 in Hu. lia.
  - intros id1 id2 u [[-> ->] | [_ Hu1]]%Hown [[-> Hn] | [_ Hu2]]%Hown; eauto.
    + apply H1 in Hu2. lia.
    + apply H1 in Hu1. lia.
  - intros u [[<- _] | [Hne Hu]]%lookup_insert_Some; [exists id; apply Hown; by left |].
    destruct (H4 u Hu) as [id' Hid]. exists id'. apply Hown. right. split; [| done].
    intros ->. destruct Hid as (e & He' & _). congruence.
  - intros id' u [[-> ->] | [Hne Hu]]%Hown; [left; by rewrite lookup_insert_eq |].
    assert (u <> next_task w) by (apply H1 in Hu; lia). rewrite lookup_insert_ne by done. eauto.
Qed.

Lemma stop_entries id w : entries (stop id w) = delete id (entries w).
Proof.
  unfold stop. destruct (entries w !! id) eqn:E; [done |]. by rewrite delete_id.
Qed.

Lemma start_front_inv id revision credentials make_provider host w :
  registry_inv w -> entries w !! id = None ->
  registry_inv (snd (start_front id revision credentials make_provider host w)).
Proof.
  intros Hw He. unfold start_front. repeat case_match; try done. by apply insert_entry_inv.
Qed.

Lemma foldl_stop_entries l w :
  entries (foldl (fun w (e : TunnelEntry P) => entry_stop e w) w l) = entries w
  /\ next_task (foldl (fun w (e : TunnelEntry P) => entry_stop e w) w l) = next_task w.
Proof. revert w. induction l as [|e l IH]; intros w; simpl; [done |]. by rewrite !(proj1 (IH _)), !(proj2 (IH _)). Qed.

Lemma foldl_stop_tasks l w t :
  tasks (foldl (fun w (e : TunnelEntry P) => entry_stop e w) w l) !! t
  = if bool_decide (t ∈ entry_task <$> l)
    then match tasks w !! t with Some Running => Some Aborted | o => o end
    else tasks w !! t.
Proof.
  revert w. induction l as [|e l IH]; intros w; simpl; [done |].
  rewrite IH. cbn [entry_stop tasks]. rewrite stop_task_lookup.
  destruct (decide (t = entry_task e)) as [-> | Hne].
  - rewrite (bool_decide_eq_true_2 (entry_task e ∈ entry_task e :: _)) by constructor.
    destruct (tasks w !! entry_task e) as [[]|]; by case_bool_decide.
  - rewrite (bool_decide_ext (t ∈ entry_task e :: _) (t ∈ entry_task <$> l)); [done |]. set_solver.
Qed.

Lemma stop_all_tasks w t :
  registry_inv w -> tasks (stop_all w) !! t <> Some Running.
Proof.
  intros Hw Hr. unfold stop_all in Hr. rewrite foldl_stop_tasks in Hr. simpl in Hr.
  case_bool_decide as Hin; [by destruct (tasks w !! t) as [[]|] |].
  destruct (task_owned w Hw t Hr) as (id & e & He & <-). apply Hin.
  apply list_elem_of_fmap. exists e. split; [done |]. apply list_elem_of_fmap. exists (id, e).
  split; [done |]. by apply elem_of_map_to_list.
Qed.

Lemma stop_all_inv w : registry_inv w -> registry_inv (stop_all w).
Proof.
  intros Hw. pose proof (stop_all_tasks w) as Hr.
  assert (He : entries (stop_all w) = ∅) by (unfold stop_all; by rewrite (proj1 (foldl_stop_entries _ _))).
  assert (Hno : forall id t, ~ owns (stop_all w) id t).
  { intros id t (e & H & _). by rewrite He in H. }
  split; intros; try (by exfalso; eapply Hno; eauto); [| by exfalso; eapply Hr].
  unfold stop_all in *. rewrite (proj2 (foldl_stop_entries _ _)). simpl.
  rewrite foldl_stop_tasks in H. simpl in H.
  case_bool_decide; [destruct (tasks w !! t) as [[]|] eqn:E |]; simplify_eq; by eapply task_known.
Qed.

Lemma registry_step_inv w w' : registry_step w w' -> registry_inv w -> registry_inv w'.
Proof.
  intros Hstep Hw. destruct Hstep.
  - unfold ensure_tunnel_with. case_match; [done |]. apply start_front_inv; [by apply stop_inv |].
    rewrite stop_entries. apply lookup_delete_eq.
  - by apply stop_inv.
  - unfold stop_revision. destruct (entries w !! id) eqn:E; [| done].
    case_match; [by apply stop_entry_inv | done].
  - by apply stop_all_inv.
  - destruct Hw as [H1 H2 H3 H4 H5]. split; simpl; try done.
    + intros u s [[<- _] | [_ Hu]]%lookup_insert_Some; eauto.
    + intros u [[_ ?] | [_ Hu]]%lookup_insert_Some; [done | eauto].
    + intros id u Hu. destruct (decide (u = t)) as [-> |]; [right; by rewrite lookup_insert_eq |].
      rewrite lookup_insert_ne by done. eauto.
Qed.

Lemma registry_reachable_inv w : rtc registry_step registry_new w -> registry_inv w.
Proof.
  intros H. eapply rtc_preserves; [apply registry_step_inv | exact H |].
  split; unfold owns; simpl; intros; try (by destruct_and?); naive_solver.
Qed.

End Registry.
Arguments Registry : clear implicits.

(** ** What the registry promises *)

Lemma stop_frame {P} (id id' : string) (w : Registry P) e :
  registry_inv w -> id' <> id -> entries w !! id' = Some e ->
  entries (stop id w) !! id' = Some e /\ tasks (stop id w) !! entry_task e = tasks w !! entry_task e.
Proof.
  intros Hw Hne He. rewrite stop_entries, lookup_delete_ne by done. split; [done |].
  unfold stop. destruct (entries w !! id) as [e0|] eqn:E; [| done]. simpl. rewrite stop_task_lookup.
  case_decide as Ht; [| done]. destruct Hne.
  eapply (task_unique w Hw); unfold owns; [by eexists |]. exists e0. by split.
Qed.

Lemma stop_silences {P} (id : string) (w : Registry P) e :
  entries w !! id = Some e -> tasks (stop id w) !! entry_task e <> Some Running.
Proof.
  intros E. unfold stop. rewrite E. simpl. rewrite stop_task_lookup, decide_True by done.
  by destruct (tasks w !! entry_task e) as [[]|].
Qed.

Lemma stop_next_task {P} id (w : Registry P) : next_task (stop id w) = next_task w.
Proof. unfold stop. by destruct (entries w !! id). Qed.

(** What keeps a front from starting: the first of the four steps that fails,
    and the error the caller is given for it. *)
Inductive start_fails {P} (make_provider : unit -> Result P TunnelError) (host : Host) : TunnelError -> Prop :=
| sf_provider e : make_provider tt = Err e -> start_fails make_provider host e
| sf_bind p e :
    make_provider tt = Ok p -> bind_loopback host = Err e ->
    start_fails make_provider host (Engine ("could not bind a loopback tunnel front: " ++ e))
| sf_prepare p e :
    make_provider tt = Ok p -> bind_loopback host = Ok tt -> set_nonblocking host = Err e ->
    start_fails make_provider host (Engine ("could not prepare the tunnel front: " ++ e))
| sf_address p e :
    make_provider tt = Ok p -> bind_loopback host = Ok tt -> set_nonblocking host = Ok tt ->
    local_addr host = Err e ->
    start_fails make_provider host (Engine ("could not read the tunnel front address: " ++ e)).

(** The entry of [id] serves [revision] with an accept loop that runs. *)
Definition serves {P} (w : Registry P) (id revision : string) (e : TunnelEntry P) : Prop :=
  entries w !! id = Some e /\ entry_revision e = revision /\ tasks w !! entry_task e = Some Running.

Lemma start_after_stop {P} id revision credentials (make_provider : unit -> Result P TunnelError)
    host (w w' : Registry P) r :
  registry_inv w -> start_front id revision credentials make_provider host (stop id w) = (r, w') ->
  (forall e, entries w !! id = Some e -> tasks w' !! entry_task e <> Some Running)
  /\ (forall id' e, id' <> id -> entries w !! id' = Some e ->
        entries w' !! id' = Some e /\ tasks w' !! entry_task e = tasks w !! entry_task e)
  /\ (forall e, r = Err e -> start_fails make_provider host e /\ entries w' !! id = None)
  /\ (forall front, r = Ok front -> exists e, serves w' id revision e
        /\ entry_front e = front /\ front_credentials front = credentials
        /\ local_addr host = Ok (addr front) /\ make_provider tt = Ok (entry_provider e)
        /\ bind_loopback host = Ok tt /\ set_nonblocking host = Ok tt).
Proof.
  intros Hw H. pose proof (stop_silences id w) as Hs. pose proof (fun id' e => stop_frame id id' w e Hw) as Hf.
  assert (Hgone : entries (stop id w) !! id = None) by (rewrite stop_entries; apply lookup_delete_eq).
  assert (Hlt : forall id' e, entries w !! id' = Some e -> (entry_task e < next_task (stop id w))%nat).
  { intros id' e He. rewrite stop_next_task. eapply (task_spawned w Hw id'). by exists e. }
  unfold start_front in H. repeat case_match; simplify_eq;
    repeat match goal with u : unit |- _ => destruct u end;
    try (split; [done |]; split; [intros; by apply Hf |]; split; [| done]; intros ? [= <-]; split; [| done];
         (by eapply sf_provider) || (by eapply sf_bind) || (by eapply sf_prepare) || by eapply sf_address).
  split; [| split; [| split]].
  - intros e He. simpl. rewrite lookup_insert_ne by (apply Hlt in He; lia). by apply Hs.
  - intros id' e Hne He. simpl. rewrite !lookup_insert_ne by (done || (apply Hlt in He; lia)).
    by apply Hf.
  - done.
  - intros front [= <-]. unfold serves. simpl. rewrite !lookup_insert_eq. eexists. split; [split; [done |] |].
    + simpl. by rewrite lookup_insert_eq.
    + done.
Qed.

Lemma reusable_spec {P} (w : Registry P) id revision front :
  reusable w id revision = Some front <-> exists e, serves w id revision e /\ entry_front e = front.
Proof.
  unfold reusable, is_finished, serves. split.
  - destruct (entries w !! id) as [e|]; [| done].
    destruct (String.eqb_spec (entry_revision e) revision) as [Hrev | _]; [| done]. simpl.
    destruct (tasks w !! entry_task e) as [[]|] eqn:Et; [| done..]. intros [= <-]. by exists e.
  - intros (e & (-> & <- & ->) & <-). by rewrite String.eqb_refl.
Qed.

(** C3: no front is ever orphaned.  In every registry reachable by starting,
    restarting and stopping tunnels and by accept loops that return on their
    own, each running accept loop belongs to exactly one entry, and an entry
    never holds a stopped one. *)
Theorem registry_no_orphans {P} (w : Registry P) :
  rtc registry_step registry_new w ->
  (forall t, tasks w !! t = Some Running ->
     exists! id, exists e, entries w !! id = Some e /\ entry_task e = t)
  /\ (forall id e, entries w !! id = Some e -> tasks w !! entry_task e <> Some Aborted).
Proof.
  intros Hr. pose proof (registry_reachable_inv w Hr) as Hw. split.
  - intros t Ht. destruct (task_owned w Hw t Ht) as [id Hid]. exists id. split; [exact Hid |].
    intros id' Hid'. by eapply (task_unique w Hw).
  - intros id e He Ha. destruct (task_live w Hw id (entry_task e)) as [H | H]; [| congruence..].
    by exists e.
Qed.

(** C22: starting a tunnel, on every branch.  When the id's entry has the
    requested revision and its accept loop runs, its front is returned and
    nothing changes, whatever the factory and the host would have answered.
    Otherwise, and only then, the old accept loop is stopped and the front is
    started anew: the first of the factory, the bind, the preparation and the
    address that fails decides the error, and no entry is left for the id; when
    none fails there is one running front of the requested revision and
    credentials at the bound address.  No other tunnel is disturbed. *)
Theorem ensure_tunnel_outcome {P} (id revision : string) (credentials : Socks5Credentials)
    (make_provider : unit -> Result P TunnelError) (host : Host) (w w' : Registry P)
    (r : Result TunnelFront TunnelError) :
  rtc registry_step registry_new w ->
  ensure_tunnel_with id revision credentials make_provider host w = (r, w') ->
  (forall e, serves w id revision e -> r = Ok (entry_front e) /\ w' = w)
  /\ ((forall e, ~ serves w id revision e) ->
      (forall e, entries w !! id = Some e -> tasks w' !! entry_task e <> Some Running)
      /\ (forall id' e, id' <> id -> entries w !! id' = Some e ->
            entries w' !! id' = Some e /\ tasks w' !! entry_task e = tasks w !! entry_task e)
      /\ (forall e, r = Err e <-> start_fails make_provider host e)
      /\ (forall e, r = Err e -> entries w' !! id = None)
      /\ (forall front, r = Ok front -> exists e, serves w' id revision e
            /\ entry_front e = front /\ front_credentials front = credentials
            /\ local_addr host = Ok (addr front) /\ make_provider tt = Ok (entry_provider e))).
Proof.
  intros Hr H. pose proof (registry_reachable_inv w Hr) as Hw. unfold ensure_tunnel_with in H. split.
  - intros e He. assert (reusable w id revision = Some (entry_front e)) as E by (apply reusable_spec; eauto).
    rewrite E in H. by simplify_eq.
  - intros Hno. destruct (reusable w id revision) as [front|] eqn:E.
    { apply reusable_spec in E as (e & He & _). by destruct (Hno e). }
    destruct (start_after_stop _ _ _ _ _ _ _ _ Hw H) as (H1 & H2 & H3 & H4).
    split_and!; [done | done | | by intros e [_ ?]%H3 |].
    + intros e. split; [by intros [? _]%H3 |]. intros Hf. destruct r as [front | e'].
      * destruct (H4 front eq_refl) as (x & _ & _ & _ & E1 & E2 & E3 & E4). destruct Hf; congruence.
      * destruct (H3 e' eq_refl) as [Hf' _]. clear - Hf Hf'. destruct Hf, Hf'; simplify_eq; try congruence.
    + intros front Hfr. destruct (H4 front Hfr) as (x & Hx & E0 & E1 & E2 & E3 & _). by exists x.
Qed.

(** stopping is exact.  [stop_revision] stops a tunnel only when it still
    runs the revision whose trust was withdrawn, and otherwise changes
    nothing; [stop] stops whatever revision runs; [stop_all] leaves no entry
    and no running accept loop.  No other tunnel is disturbed. *)
Theorem stopping_exact {P} (id revision : string) (w : Registry P) :
  rtc registry_step registry_new w ->
  stop_revision id revision w
  = (if bool_decide (entry_revision <$> entries w !! id = Some revision) then stop id w else w)
  /\ entries (stop id w) !! id = None
  /\ (forall e, entries w !! id = Some e -> tasks (stop id w) !! entry_task e <> Some Running)
  /\ (forall id' e, id' <> id -> entries w !! id' = Some e ->
        entries (stop id w) !! id' = Some e
        /\ tasks (stop id w) !! entry_task e = tasks w !! entry_task e)
  /\ entries (stop_all w) = ∅
  /\ (forall t, tasks (stop_all w) !! t <> Some Running).
Proof.
  intros Hr. pose proof (registry_reachable_inv w Hr) as Hw. split_and!.
  - unfold stop_revision, stop. destruct (entries w !! id) as [e|]; simpl; [| done].
    destruct (String.eqb_spec (entry_revision e) revision) as [-> | Hne].
    + by rewrite bool_decide_eq_true_2.
    + rewrite bool_decide_eq_false_2 by congruence. done.
  - rewrite stop_entries. apply lookup_delete_eq.
  - apply stop_silences.
  - intros. by apply stop_frame.
  - unfold stop_all. by rewrite (proj1 (foldl_stop_entries _ _)).
  - intros t. by apply stop_all_tasks.
Qed.

(** ** A registry with one tunnel *)

Definition sample_host : Host :=
  {| bind_loopback := Ok tt; set_nonblocking := Ok tt;
     local_addr := Ok {| sa_ip := V4 127 0 0 1; sa_port := 40001 |} |}.

Definition sample_registry : Registry nat :=
  snd (ensure_tunnel_with "p1" "p1@1" sample_cred (fun _ => Ok 7%nat) sample_host registry_new).

Lemma sample_registry_reachable : rtc registry_step registry_new sample_registry.
Proof. apply rtc_once, step_ensure. Qed.

Lemma registry_no_orphans_witness :
  (forall t, tasks sample_registry !! t = Some Running ->
     exists! id, exists e, entries sample_registry !! id = Some e /\ entry_task e = t)
  /\ (forall id e, entries sample_registry !! id = Some e ->
        tasks sample_registry !! entry_task e <> Some Aborted).
Proof. apply (registry_no_orphans sample_registry). apply sample_registry_reachable. Defined.

(** A changed revision whose provider cannot be built: the old front is gone
    and the error is reported. *)
Definition sample_restart : Result TunnelFront TunnelError * Registry nat :=
  ensure_tunnel_with "p1" "p1@2" sample_cred (fun _ => Err (Configuration "no")) sample_host sample_registry.

Lemma ensure_tunnel_outcome_witness :
  fst sample_restart = Err (Configuration "no") /\ tasks (snd sample_restart) !! 0%nat = Some Aborted
  /\ entries (snd sample_restart) !! "p1" = None
  /\ exists front, ensure_tunnel_with "p1" "p1@1" sample_cred (fun _ => Err (Configuration "no")) sample_host
       sample_registry = (Ok front, sample_registry).
Proof.
  split; [vm_compute; reflexivity |]. split; [vm_compute; reflexivity |]. split.
  - destruct (ensure_tunnel_outcome "p1" "p1@2" sample_cred (fun _ => Err (Configuration "no")) sample_host
      sample_registry (snd sample_restart) (Err (Configuration "no")) sample_registry_reachable) as (_ & H).
    + vm_compute. reflexivity.
    + destruct H as (_ & _ & _ & H & _); [| by eapply H].
      intros e (He & Hrev & _). vm_compute in He. injection He as <-. discriminate Hrev.
  - destruct (ensure_tunnel_with "p1" "p1@1" sample_cred (fun _ => Err (Configuration "no")) sample_host sample_registry)
      as [r w'] eqn:E.
    destruct (ensure_tunnel_outcome _ _ _ _ _ _ _ _ sample_registry_reachable E) as (H & _).
    assert (exists e, serves sample_registry "p1" "p1@1" e) as [e He].
    { eexists. split; [vm_compute; reflexivity | split; vm_compute; reflexivity]. }
    destruct (H e He) as [-> ->]. by eexists.
Defined.

Lemma stopping_exact_witness :
  stop_revision "p1" "p1@0" sample_registry = sample_registry
  /\ tasks (stop_revision "p1" "p1@1" sample_registry) !! 0%nat = Some Aborted.
Proof.
  destruct (stopping_exact "p1" "p1@0" sample_registry sample_registry_reachable) as [H _].
  split; [rewrite H; reflexivity | vm_compute; reflexivity].
Defined.
