(* ===== verification/Service.v ===== *)
(** * What the registry promises ([src/registry.rs])

    The registry as its users see it: a map from ids to the revision and the
    front that serve them.  [service_step] is that specification; the
    registry's entries, tasks and task numbers implement it, and every history
    of the registry is one the specification allows, with the same answers. *)

From Stdlib Require Import ZArith Lia String Ascii.
From stdpp Require Import gmap strings numbers prelude.
From S2P Require Import Prelude Net Errors Socks5 Registry.

Open Scope string_scope.

(** ** The specification *)

(** What serves each id now: a revision, and its front. *)
Notation Service := (gmap string (string * TunnelFront)%type).

(** A call and its answer, or an accept loop that ended on its own. *)
Inductive Call : Type :=
| Ensured (id revision : string) (credentials : Socks5Credentials) (r : Result TunnelFront TunnelError)
| StoppedId (id : string)
| StoppedRevision (id revision : string)
| StoppedAll
| LoopEnded (id : string).

(** An id served at the revision asked for keeps its front.  Otherwise whatever
    served it is gone, and it is served anew with the credentials given or not
    at all. *)
Inductive service_step : Call -> Service -> Service -> Prop :=
| sv_kept id revision credentials front m :
    m !! id = Some (revision, front) -> service_step (Ensured id revision credentials (Ok front)) m m
| sv_started id revision credentials front m :
    (forall front', m !! id <> Some (revision, front')) -> front_credentials front = credentials ->
    service_step (Ensured id revision credentials (Ok front)) m (<[id := (revision, front)]> m)
| sv_failed id revision credentials e m :
    (forall front', m !! id <> Some (revision, front')) ->
    service_step (Ensured id revision credentials (Err e)) m (delete id m)
| sv_stopped id m : service_step (StoppedId id) m (delete id m)
| sv_stopped_revision id revision front m :
    m !! id = Some (revision, front) -> service_step (StoppedRevision id revision) m (delete id m)
| sv_not_revision id revision m :
    (forall front', m !! id <> Some (revision, front')) -> service_step (StoppedRevision id revision) m m
| sv_stopped_all m : service_step StoppedAll m ∅
| sv_ended id m : service_step (LoopEnded id) m (delete id m).

(** A history: the calls of a run, in order. *)
Inductive history {A L : Type} (step : L -> A -> A -> Prop) : list L -> A -> A -> Prop :=
| history_nil a : history step [] a a
| history_cons l ls a b c : step l a b -> history step ls b c -> history step (l :: ls) a c.

(** ** The registry's calls *)

Section Calls.
Context {P : Type}.

Inductive registry_call : Call -> Registry P -> Registry P -> Prop :=
| rc_ensure id revision credentials make_provider host r w w' :
    ensure_tunnel_with id revision credentials make_provider host w = (r, w') ->
    registry_call (Ensured id revision credentials r) w w'
| rc_stop id w : registry_call (StoppedId id) w (stop id w)
| rc_stop_revision id revision w : registry_call (StoppedRevision id revision) w (stop_revision id revision w)
| rc_stop_all w : registry_call StoppedAll w (Registry.stop_all w)
| rc_ended id e w :
    entries w !! id = Some e -> tasks w !! entry_task e = Some Running ->
    registry_call (LoopEnded id) w
      {| entries := entries w; tasks := <[entry_task e := Registry.Finished]> (tasks w); next_task := next_task w |}.

(** The ids that are served: the entries whose accept loop runs. *)
Definition served (w : Registry P) (e : TunnelEntry P) : option (string * TunnelFront) :=
  if is_finished w (entry_task e) then None else Some (entry_revision e, entry_front e).

Definition serving (w : Registry P) : Service := omap (served w) (entries w).

Lemma serving_lookup w id : serving w !! id = entries w !! id ≫= served w.
Proof. apply lookup_omap. Qed.

Lemma served_same w w' e : tasks w' !! entry_task e = tasks w !! entry_task e -> served w' e = served w e.
Proof. intros E. unfold served, is_finished. by rewrite E. Qed.

(** A call that takes one id away and leaves the others' loops alone. *)
Lemma serving_without id (w w' : Registry P) :
  entries w' !! id ≫= served w' = None ->
  (forall id' e, id' <> id -> entries w !! id' = Some e ->
     entries w' !! id' = Some e /\ tasks w' !! entry_task e = tasks w !! entry_task e) ->
  (forall id', id' <> id -> entries w !! id' = None -> entries w' !! id' = None) ->
  serving w' = delete id (serving w).
Proof.
  intros Hid Hsome Hnone. apply map_eq. intros id'. rewrite serving_lookup. destruct (decide (id' = id)) as [-> | Hne].
  - by rewrite lookup_delete_eq.
  - rewrite lookup_delete_ne by done. rewrite serving_lookup. destruct (entries w !! id') as [e|] eqn:E.
    + destruct (Hsome id' e Hne E) as [-> Ht]. simpl. by apply served_same.
    + by rewrite (Hnone id' Hne E).
Qed.

Lemma serving_stop id (w : Registry P) : registry_inv w -> serving (stop id w) = delete id (serving w).
Proof.
  intros Hw. apply serving_without.
  - by rewrite stop_entries, lookup_delete_eq.
  - intros id' e Hne He. by apply stop_frame.
  - intros id' Hne He. by rewrite stop_entries, lookup_delete_ne.
Qed.

(** A front that starts takes a task number nobody has. *)
Lemma serving_insert id revision front p (w : Registry P) :
  registry_inv w -> serving (insert_entry id revision front p w) = <[id := (revision, front)]> (serving w).
Proof.
  intros Hw. apply map_eq. intros id'. rewrite serving_lookup. simpl. destruct (decide (id' = id)) as [-> | Hne].
  - rewrite !lookup_insert_eq. simpl. unfold served, is_finished. simpl. by rewrite lookup_insert_eq.
  - rewrite !lookup_insert_ne by done. rewrite serving_lookup. destruct (entries w !! id') as [e|] eqn:E; [| done].
    simpl. apply served_same. simpl. rewrite lookup_insert_ne; [done |].
    intros Ht. assert (Ho : owns w id' (entry_task e)) by (by exists e). apply (task_spawned w Hw) in Ho. lia.
Qed.

Lemma serving_reusable (w : Registry P) id revision front :
  reusable w id revision = Some front <-> serving w !! id = Some (revision, front).
Proof.
  rewrite serving_lookup. unfold reusable, served. destruct (entries w !! id) as [e|]; simpl; [| done].
  destruct (is_finished w (entry_task e)); simpl; [by rewrite andb_false_r |]. rewrite andb_true_r.
  destruct (String.eqb_spec (entry_revision e) revision) as [-> | Hne]; split; intros [= <-] || intros [= ?]; done.
Qed.

Lemma start_front_serves id revision credentials make_provider host (w w' : Registry P) r :
  registry_inv w -> (forall front, serving w !! id <> Some (revision, front)) ->
  start_front id revision credentials make_provider host (stop id w) = (r, w') ->
  service_step (Ensured id revision credentials r) (serving w) (serving w').
Proof.
  intros Hw Hno. pose proof (stop_inv id w Hw) as Hs. unfold start_front.
  repeat case_match; intros [= <- <-]; rewrite ?serving_insert, serving_stop by done;
    rewrite ?insert_delete_eq; by constructor.
Qed.

Lemma registry_call_serves l (w w' : Registry P) :
  registry_inv w -> registry_call l w w' -> service_step l (serving w) (serving w').
Proof.
  intros Hw Hc. destruct Hc as [id rev cred mk host r w w' E | id w | id rev w | w | id e w He Ht].
  - unfold ensure_tunnel_with in E. destruct (reusable w id rev) as [front|] eqn:Er.
    + injection E as <- <-. apply sv_kept. by apply serving_reusable.
    + eapply start_front_serves; [done | | exact E].
      intros front Hf. apply serving_reusable in Hf. congruence.
  - rewrite serving_stop by done. constructor.
  - unfold stop_revision. destruct (entries w !! id) as [e|] eqn:E.
    2: { apply sv_not_revision. intros front. by rewrite serving_lookup, E. }
    destruct (String.eqb_spec (entry_revision e) rev) as [<- | Hne].
    2: { apply sv_not_revision. intros front. rewrite serving_lookup, E. simpl. unfold served.
         destruct (is_finished w (entry_task e)); congruence. }
    assert (Hst : entry_stop e (remove_entry id w) = stop id w) by (unfold stop; by rewrite E).
    rewrite Hst, serving_stop by done. destruct (served w e) as [[rev front]|] eqn:Es.
    + assert (rev = entry_revision e) as -> by (unfold served in Es; by destruct (is_finished w (entry_task e)); simplify_eq).
      eapply sv_stopped_revision. by rewrite serving_lookup, E.
    + rewrite delete_id by (by rewrite serving_lookup, E). apply sv_not_revision. intros front.
      rewrite serving_lookup, E. simpl. by rewrite Es.
  - assert (Hempty : serving (Registry.stop_all w) = ∅).
    { unfold serving, Registry.stop_all. rewrite (proj1 (foldl_stop_entries _ _)). by apply map_eq. }
    rewrite Hempty. constructor.
  - match goal with |- service_step _ _ (serving ?w') => rewrite (serving_without id w w') end;
      [constructor | | | done].
    + simpl. rewrite He. simpl. unfold served, is_finished. simpl. by rewrite lookup_insert_eq.
    + intros id' e' Hne He'. split; [done |]. simpl. rewrite lookup_insert_ne; [done |]. intros Et. apply Hne.
      eapply (task_unique w Hw); [by exists e' | by exists e].
Qed.

Lemma registry_call_inv l (w w' : Registry P) : registry_call l w w' -> registry_inv w -> registry_inv w'.
Proof.
  intros Hc. apply registry_step_inv. destruct Hc as [id rev cred mk host r w w' E | id w | id rev w | w | id e w He Ht];
    [| by constructor..].
  replace w' with (snd (ensure_tunnel_with id rev cred mk host w)) by (by rewrite E). constructor.
Qed.

End Calls.

(** C7: the registry implements the service.  Every history of the registry,
    whatever the provider factories and the operating system answer and
    whenever accept loops end on their own, is a history of the specification
    with the same calls and the same answers, and ends in the state whose ids
    are the entries with a running accept loop. *)
Theorem registry_refines_service {P} (calls : list Call) (w : Registry P) :
  history registry_call calls registry_new w -> history service_step calls ∅ (serving w).
Proof.
  assert (Hgen : forall w0, registry_inv w0 -> history registry_call calls w0 w ->
    history service_step calls (serving w0) (serving w)).
  { intros w0 Hw Hh. induction Hh as [w | l ls a b c Hl Hh IH]; [constructor |].
    econstructor; [by eapply registry_call_serves | apply IH; by eapply registry_call_inv]. }
  intros Hh. apply (Hgen registry_new); [| exact Hh]. apply registry_reachable_inv. constructor.
Qed.

(** One tunnel, started and asked for again. *)
Definition sample_creds : Socks5Credentials := {| username := "u"; password := "p" |}.

Definition sample_ensure (w : Registry nat) : Result TunnelFront TunnelError * Registry nat :=
  ensure_tunnel_with "id" "1" sample_creds (fun _ => Ok 7%nat) sample_host w.

Lemma registry_refines_service_witness :
  let '(r1, w1) := sample_ensure registry_new in
  let '(r2, w2) := sample_ensure w1 in
  history service_step [Ensured "id" "1" sample_creds r1; Ensured "id" "1" sample_creds r2] ∅ (serving w2)
  /\ r2 = r1.
Proof.
  destruct (sample_ensure registry_new) as [r1 w1] eqn:E1. destruct (sample_ensure w1) as [r2 w2] eqn:E2.
  split.
  - apply (registry_refines_service (P := nat) _ w2).
    econstructor; [eapply rc_ensure; exact E1 |]. econstructor; [eapply rc_ensure; exact E2 | constructor].
  - vm_compute in E1. injection E1 as <- <-. vm_compute in E2. by injection E2 as <- _.
Defined.
