(* ===== verification/Process.v ===== *)
(** * The registry and its fronts together
      ([TunnelRegistry] of [src/registry.rs], [Socks5Front::serve] of [src/socks5.rs])

    Each accept loop the registry spawns is a front with its own connections,
    all drawing on the registry's semaphore.  Aborting a loop takes effect when
    the runtime next runs it: until then it may still accept.  The process is
    the registry and the fronts by task number; [process_step] interleaves the
    registry's calls with everything the fronts do. *)

From Stdlib Require Import ZArith Lia String Ascii.
From stdpp Require Import gmap strings numbers prelude.
From S2P Require Import Prelude Net Errors Runtime Socks5 Registry.

#[local] Open Scope nat_scope.
#[local] Open Scope list_scope.

(** ** The runtime and the process-wide registry *)

(** [RuntimeHome]: whose runtime the accept loops run on. *)
Inductive RuntimeHome (R H : Type) : Type := Owned (runtime : R) | Borrowed (handle : H).
Arguments Owned {R H} runtime.
Arguments Borrowed {R H} handle.

Definition runtime_handle {R H : Type} (handle_of : R -> H) (home : RuntimeHome R H) : H :=
  match home with Owned runtime => handle_of runtime | Borrowed handle => handle end.

Section Process.
Context {P : Type} {S : Type} `{!Semaphore S}.

(** [TunnelRegistry] with the accept loops it has spawned: front [t] is task
    [t]'s, and the fronts hold the registry's [connections]. *)
Record Process : Type := { registry : Registry P; loops : Fronts S }.

Definition process_new : Process := {| registry := registry_new; loops := fronts_new |}.

(** [TunnelRegistry::shared]: a [LazyLock], decided by the first call; [build]
    is what building the runtime came to. *)
Definition shared (build : Result unit string) (cell : option (Result Process string))
  : Result Process TunnelError * option (Result Process string) :=
  let decided := match cell with Some d => d | None => let? _ := build in Ok process_new end in
  (map_err (fun e => Engine ("could not start the tunnel runtime: " ++ e)%string) decided, Some decided).

(** A call that spawned a loop gives it a front. *)
Definition adopt (before after : Registry P) (fs : Fronts S) : Fronts S :=
  if next_task before <? next_task after
  then {| registry_connections := registry_connections fs; fronts := fronts fs ++ [front_new] |} else fs.

Definition call (after : Registry P) (p : Process) : Process :=
  {| registry := after; loops := adopt (registry p) after (loops p) |}.

Definition ensure (id revision : string) (credentials : Socks5Credentials)
    (make_provider : unit -> Result P TunnelError) (host : Host) (p : Process)
  : Result TunnelFront TunnelError * Process :=
  let '(r, after) := ensure_tunnel_with id revision credentials make_provider host (registry p) in (r, call after p).

(** [Drop for TunnelRegistry]. *)
Definition registry_drop (p : Process) : Process := call (Registry.stop_all (registry p)) p.

(** One event of a loop. *)
Definition serve (t : nat) (ev : ServeEvent) (f : FrontState S) (p : Process) : Process :=
  let r := serve_step ev f (registry_connections (loops p)) in
  {| registry := registry p; loops := {| registry_connections := r.2; fronts := <[t := r.1]> (fronts (loops p)) |} |}.

Definition end_task (t : nat) (p : Process) : Process :=
  {| registry := {| entries := entries (registry p); tasks := <[t := Finished]> (tasks (registry p));
                    next_task := next_task (registry p) |};
     loops := loops p |}.

(** The runtime runs an aborted loop: it drops it, or the loop sees the
    notification first, which comes to the same. *)
Inductive cleanup : Process -> Process -> Prop :=
| cl_dropped t f ev p :
    tasks (registry p) !! t = Some Registry.Aborted -> fronts (loops p) !! t = Some f ->
    ev = Socks5.Aborted \/ ev = Shutdown -> cleanup p (serve t ev f p).

Inductive process_step : Process -> Process -> Prop :=
| pr_ensure id revision credentials make_provider host p :
    process_step p (snd (ensure id revision credentials make_provider host p))
| pr_stop id p : process_step p (call (stop id (registry p)) p)
| pr_stop_revision id revision p : process_step p (call (stop_revision id revision (registry p)) p)
| pr_stop_all p : process_step p (registry_drop p)
| pr_accepts t f peer p : fronts (loops p) !! t = Some f -> process_step p (serve t (Accepted peer) f p)
| pr_connection_ends t f p : fronts (loops p) !! t = Some f -> process_step p (serve t ConnectionEnded f p)
| pr_loop_fails t f kind p :
    tasks (registry p) !! t = Some Running -> fronts (loops p) !! t = Some f ->
    process_step p (end_task t (serve t (AcceptFailed kind) f p))
| pr_cleanup p p' : cleanup p p' -> process_step p p'.

(** ** The invariant *)

(** Every task ever spawned is one of the fronts, and a loop that has returned
    serves no more. *)
Record process_inv (p : Process) : Prop := {
  pi_registry : registry_inv (registry p);
  pi_fronts : fronts_inv (loops p);
  pi_count : length (fronts (loops p)) = next_task (registry p);
  pi_known : forall t, t < next_task (registry p) -> is_Some (tasks (registry p) !! t);
  pi_ended : forall t f, tasks (registry p) !! t = Some Finished -> fronts (loops p) !! t = Some f -> serving f = false
}.

(** What a registry call does to the tasks: it aborts running ones, and spawns
    at most one. *)
Definition tasks_move (r r' : Registry P) : Prop :=
  (forall t, t < next_task r -> tasks r' !! t = tasks r !! t
     \/ (tasks r !! t = Some Running /\ tasks r' !! t = Some Registry.Aborted))
  /\ (next_task r' = next_task r
      \/ next_task r' = Datatypes.S (next_task r) /\ tasks r' !! next_task r = Some Running).

Lemma stop_task_moves t ts u :
  stop_task t ts !! u = ts !! u \/ (ts !! u = Some Running /\ stop_task t ts !! u = Some Registry.Aborted).
Proof.
  rewrite stop_task_lookup. case_decide as Hd; [subst u | by left].
  destruct (ts !! t) as [[]|]; auto.
Qed.

Lemma stop_moves id r : tasks_move r (stop id r).
Proof.
  unfold stop. destruct (entries r !! id) as [e|]; (split; [| by left]); [| by left].
  intros t _. simpl. apply stop_task_moves.
Qed.

Lemma stop_revision_moves id revision r : tasks_move r (stop_revision id revision r).
Proof.
  unfold stop_revision. destruct (entries r !! id) as [e|]; [| split; [by left | by left]].
  destruct (String.eqb _ _); (split; [| by left]); [| by left]. intros t _. simpl. apply stop_task_moves.
Qed.

Lemma stop_all_moves r : tasks_move r (Registry.stop_all r).
Proof.
  unfold Registry.stop_all. split; [| left; by rewrite (proj2 (foldl_stop_entries _ _))].
  intros t _. rewrite foldl_stop_tasks. simpl. case_bool_decide; [| by left].
  destruct (tasks r !! t) as [[]|]; auto.
Qed.

Lemma ensure_moves id revision credentials make_provider host r :
  tasks_move r (snd (ensure_tunnel_with id revision credentials make_provider host r)).
Proof.
  unfold ensure_tunnel_with. destruct (reusable r id revision); [split; [by left | by left] |].
  destruct (stop_moves id r) as [Hs _]. pose proof (stop_next_task id r) as Hn.
  assert (Hsame : tasks_move r (stop id r)) by apply stop_moves.
  unfold start_front. repeat case_match; try done. split; simpl; rewrite Hn.
  - intros t Ht. rewrite lookup_insert_ne by lia. by apply Hs.
  - right. split; [done |]. by rewrite lookup_insert_eq.
Qed.

Context `{!SemaphoreLaws S}.

Lemma call_inv after p : process_inv p -> registry_inv after -> tasks_move (registry p) after -> process_inv (call after p).
Proof.
  intros [H1 H2 H3 H4 H5] Ha [Hold Hnew].
  assert (Hadopt : (fronts (loops (call after p)) = fronts (loops p) /\ loops (call after p) = loops p
      /\ next_task after = next_task (registry p))
    \/ (next_task after = Datatypes.S (next_task (registry p)) /\ tasks after !! next_task (registry p) = Some Running
        /\ fronts (loops (call after p)) = fronts (loops p) ++ [front_new] /\ fronts_step (loops p) (loops (call after p)))).
  { simpl. unfold adopt. destruct Hnew as [E | [E Er]]; rewrite E.
    - left. by rewrite Nat.ltb_irrefl.
    - right. rewrite (proj2 (Nat.ltb_lt _ _)) by lia. split_and!; [done | done | done | apply step_start]. }
  split; [done | | | |]; simpl.
  - destruct Hadopt as [(_ & E & _) | (_ & _ & _ & E)]; simpl in E; [by rewrite E | by eapply fronts_step_inv].
  - destruct Hadopt as [(E & _ & En) | (En & _ & E & _)]; simpl in E; rewrite E, En, ?length_app, H3; simpl; lia.
  - intros t Ht. destruct (decide (t < next_task (registry p))) as [Hlt | Hge].
    + destruct (Hold t Hlt) as [-> | [_ ->]]; [by apply H4 | by eexists].
    + destruct Hadopt as [(_ & _ & En) | (En & Er & _)]; [lia |]. replace t with (next_task (registry p)) by lia.
      by eexists.
  - intros t f Hf Hl. destruct (decide (t < next_task (registry p))) as [Hlt | Hge].
    + destruct (Hold t Hlt) as [E | [_ E]]; [| by rewrite E in Hf]. rewrite E in Hf. eapply H5; [done |].
      destruct Hadopt as [(E' & _) | (_ & _ & E' & _)]; simpl in E'; rewrite E' in Hl; [done |].
      by rewrite lookup_app_l in Hl by lia.
    + destruct Hadopt as [(E' & _) | (_ & Er & E' & _)]; simpl in E'.
      * rewrite E' in Hl. apply lookup_lt_Some in Hl. lia.
      * apply lookup_lt_Some in Hl. rewrite E', length_app in Hl. simpl in Hl.
        replace t with (next_task (registry p)) in Hf by lia. congruence.
Qed.

(** A loop that serves no more stays that way. *)
Lemma serve_step_serving ev (f : FrontState S) g : serving f = false -> serving (serve_step ev f g).1 = false.
Proof. intros Hf. unfold serve_step. by rewrite Hf. Qed.

Lemma serve_inv t ev f p :
  process_inv p -> fronts (loops p) !! t = Some f -> process_inv (serve t ev f p).
Proof.
  intros [H1 H2 H3 H4 H5] Hf. split; simpl; [done | | by rewrite length_insert | done |].
  - eapply fronts_step_inv; [| exact H2]. by apply (step_event (loops p) t f ev).
  - intros u f' Hu Hl. apply list_lookup_insert_Some in Hl as [(-> & <- & _) | [_ Hl]]; [| by eapply H5].
    apply serve_step_serving. by eapply H5.
Qed.

Lemma end_task_inv t f p :
  process_inv p -> tasks (registry p) !! t = Some Running -> fronts (loops p) !! t = Some f -> serving f = false ->
  process_inv (end_task t p).
Proof.
  intros [H1 H2 H3 H4 H5] Ht Hf Hs. split; simpl; try done.
  - eapply registry_step_inv; [| exact H1]. by apply step_task_returns.
  - intros u Hu. destruct (decide (u = t)) as [-> |]; [rewrite lookup_insert_eq; by eexists |].
    rewrite lookup_insert_ne by done. by apply H4.
  - intros u f' Hu Hl. destruct (decide (u = t)) as [-> |]; [congruence |]. rewrite lookup_insert_ne in Hu by done.
    by eapply H5.
Qed.

Lemma process_step_inv p p' : process_step p p' -> process_inv p -> process_inv p'.
Proof.
  intros Hstep Hp. pose proof (pi_registry p Hp) as Hr.
  destruct Hstep as [id revision credentials make_provider host p | id p | id revision p | p | t f peer p Hf | t f p Hf
    | t f kind p Ht Hf | p p' Hc].
  - unfold ensure. pose proof (ensure_moves id revision credentials make_provider host (registry p)) as Hm.
    pose proof (step_ensure id revision credentials make_provider host (registry p)) as Hs.
    destruct (ensure_tunnel_with _ _ _ _ _ _) as [r after]. apply call_inv; [done | | done]. by eapply registry_step_inv.
  - apply call_inv; [done | by apply stop_inv | apply stop_moves].
  - apply call_inv; [done | eapply registry_step_inv; [apply step_stop_revision | done] | apply stop_revision_moves].
  - apply call_inv; [done | by apply stop_all_inv | apply stop_all_moves].
  - by apply serve_inv.
  - by apply serve_inv.
  - eapply end_task_inv; [by apply serve_inv | done | |].
    + simpl. apply list_lookup_insert_eq. by eapply lookup_lt_Some.
    + unfold serve_step. by destruct (serving f) eqn:E.
  - destruct Hc as [t f ev p _ Hf _]. by apply serve_inv.
Qed.

Lemma process_reachable_inv p : rtc process_step process_new p -> process_inv p.
Proof.
  intros Hr. eapply rtc_preserves; [apply process_step_inv | exact Hr |].
  split; simpl; try done; [apply registry_reachable_inv, rtc_refl | apply fronts_reachable_inv, rtc_refl | lia].
Qed.

(** ** What is left of stopped tunnels *)

Lemma serve_aborted ev f (g : S) :
  ev = Socks5.Aborted \/ ev = Shutdown -> front_inv f -> running (serve_step ev f g).1 = 0.
Proof.
  intros Hev [_ Hf]. unfold serve_step. destruct (serving f) eqn:E; simpl; [by destruct Hev as [-> | ->] |]. by apply Hf.
Qed.

Lemma cleanup_inv p p' : cleanup p p' -> process_inv p -> process_inv p' /\ registry p' = registry p.
Proof. intros [t f ev q _ Hf _] Hp. split; [by apply serve_inv | done]. Qed.

(** Running each aborted loop once leaves none with a connection. *)
Lemma cleanup_below p n :
  process_inv p ->
  exists p', rtc cleanup p p' /\ process_inv p' /\ registry p' = registry p
    /\ forall t f, t < n -> tasks (registry p) !! t = Some Registry.Aborted -> fronts (loops p') !! t = Some f -> running f = 0.
Proof.
  intros Hp. induction n as [|n IH]; [exists p; split_and!; [done | done | done | lia] |].
  destruct IH as (q & Hq & Hi & Er & Hz).
  destruct (fronts (loops q) !! n) as [f|] eqn:Ef;
    [| exists q; split_and!; try done; intros t g Ht Ha Hg; destruct (decide (t = n)) as [-> |];
       [congruence | apply (Hz t); [lia | done | done]]].
  destruct (decide (tasks (registry p) !! n = Some Registry.Aborted)) as [Ha | Hna];
    [| exists q; split_and!; try done; intros t g Ht Ha Hg; destruct (decide (t = n)) as [-> |];
       [done | apply (Hz t); [lia | done | done]]].
  exists (serve n Socks5.Aborted f q).
  split_and!; [| by apply serve_inv | done |].
  - eapply rtc_r; [exact Hq |]. apply cl_dropped; [by rewrite Er | done | by left].
  - intros t g Ht Ha' Hg. simpl in Hg. apply list_lookup_insert_Some in Hg as [(-> & <- & _) | [Hne Hg]].
    + apply serve_aborted; [by left |]. eapply Forall_lookup_1; [apply Hi | done].
    + apply (Hz t); [lia | done | done].
Qed.

(** A front with connections is one of a running or an aborted loop. *)
Lemma busy_front t f p :
  process_inv p -> fronts (loops p) !! t = Some f -> 0 < running f ->
  tasks (registry p) !! t = Some Running \/ tasks (registry p) !! t = Some Registry.Aborted.
Proof.
  intros [H1 [H2 _] H3 H4 H5] Hf Hr.
  destruct (H4 t) as [st Hst]; [apply lookup_lt_Some in Hf; lia |]. destruct st; [by left | by right |].
  pose proof (Forall_lookup_1 _ _ _ _ H2 Hf) as [_ Hz]. rewrite Hz in Hr; [lia | by eapply H5].
Qed.

Lemma nothing_running p :
  process_inv p -> (forall t f, fronts (loops p) !! t = Some f -> running f = 0) ->
  sem_available (registry_connections (loops p)) = MAX_REGISTRY_CONNECTIONS.
Proof.
  intros [_ [_ H] _ _ _] Hz. unfold total_running in H.
  replace (sum_list_with running (fronts (loops p))) with 0 in H; [lia |].
  clear H. induction (fronts (loops p)) as [|f fs IH]; [done |]. simpl. rewrite <- IH.
  - by rewrite (Hz 0 f eq_refl).
  - intros t g Hg. by apply (Hz (Datatypes.S t)).
Qed.

End Process.
Arguments Process P S : clear implicits.

(** C4: stopping a tunnel reaches its connections.  In every state of a process,
    whatever tunnels were started, restarted and stopped, whatever connected
    and however accept loops ended: connections run only in the accept loop of
    a tunnel in the registry, or in one that was aborted and has not yet run;
    running the aborted ones once, which needs no further call, leaves
    connections only in loops of tunnels in the registry; and after a
    [stop_all], or when the registry is dropped, it leaves no connection at
    all, and all of the registry's permits free. *)
Theorem stopping_ends_connections {P S : Type} `{!Semaphore S, !SemaphoreLaws S} (p : Process P S) :
  rtc process_step process_new p ->
  (forall t f, fronts (loops p) !! t = Some f -> 0 < running f ->
     (exists id, owns (registry p) id t) \/ tasks (registry p) !! t = Some Registry.Aborted)
  /\ (exists p', rtc cleanup p p' /\ registry p' = registry p
        /\ forall t f, fronts (loops p') !! t = Some f -> 0 < running f -> exists id, owns (registry p) id t)
  /\ exists p', rtc cleanup (registry_drop p) p' /\ entries (registry p') = ∅
       /\ (forall t f, fronts (loops p') !! t = Some f -> running f = 0)
       /\ sem_available (registry_connections (loops p')) = MAX_REGISTRY_CONNECTIONS.
Proof.
  intros Hr. pose proof (process_reachable_inv p Hr) as Hp. split_and!.
  - intros t f Hf Hrun. destruct (busy_front t f p Hp Hf Hrun) as [Ht | Ht]; [left | by right].
    by apply (task_owned _ (pi_registry p Hp)).
  - destruct (cleanup_below p (next_task (registry p)) Hp) as (p' & Hc & Hp' & Er & Hz). exists p'.
    split_and!; [done | done |]. intros t f Hf Hrun.
    destruct (busy_front t f p' Hp' Hf Hrun) as [Ht | Ht]; rewrite Er in Ht.
    + by apply (task_owned _ (pi_registry p Hp)).
    + pose proof (lookup_lt_Some _ _ _ Hf) as Hlt. rewrite (pi_count p' Hp'), Er in Hlt.
      specialize (Hz t f Hlt Ht Hf). lia.
  - assert (Hd : process_inv (registry_drop p)) by (eapply process_step_inv; [apply pr_stop_all | done]).
    destruct (cleanup_below (registry_drop p) (next_task (registry (registry_drop p))) Hd) as (p' & Hc & Hp' & Er & Hz).
    assert (Hall : forall t f, fronts (loops p') !! t = Some f -> running f = 0).
    { intros t f Hf. destruct (decide (0 < running f)) as [Hrun |]; [| lia].
      destruct (busy_front t f p' Hp' Hf Hrun) as [Ht | Ht]; rewrite Er in Ht.
      - by apply (stop_all_tasks (registry p)) in Ht; [| apply Hp].
      - pose proof (lookup_lt_Some _ _ _ Hf) as Hlt. rewrite (pi_count p' Hp'), Er in Hlt. exact (Hz t f Hlt Ht Hf). }
    exists p'. split_and!; [done | | done | by apply nothing_running].
    rewrite Er. unfold registry_drop, Registry.stop_all. simpl. by rewrite (proj1 (foldl_stop_entries _ _)).
Qed.

(** The process-wide registry is decided once: whatever building a runtime would
    come to later, every call answers as the first one did, and a first failure
    is never tried again. *)
Lemma shared_decided_once {P S : Type} `{!Semaphore S} (build : Result unit string) (later : list (Result unit string)) :
  let '(r, cell) := shared (P := P) (S := S) build None in
  Forall (fun b => shared b cell = (r, cell)) later
  /\ match build with
     | Ok _ => r = Ok process_new
     | Err e => r = Err (Engine ("could not start the tunnel runtime: " ++ e)%string)
     end.
Proof. split; [apply Forall_true; by intros [[]|e] | by destruct build]. Qed.

(** One tunnel with one connection. *)
Definition sample_process : Process nat nat :=
  Eval vm_compute in
  let p := snd (ensure "id" "1" sample_cred (fun _ => Ok 7%nat) sample_host process_new) in
  match fronts (loops p) !! 0 with Some f => serve 0 (Accepted Socks5.sample_peer) f p | None => p end.

Lemma sample_process_reached : rtc process_step process_new sample_process.
Proof.
  take_step (pr_ensure "id" "1" sample_cred (fun _ => Ok 7%nat) sample_host).
  take_step (pr_accepts 0 _ Socks5.sample_peer). apply rtc_refl.
Qed.

Lemma stopping_ends_connections_witness :
  total_running (loops sample_process) = 1
  /\ exists p', rtc cleanup (registry_drop sample_process) p' /\ entries (registry p') = ∅
       /\ (forall t f, fronts (loops p') !! t = Some f -> running f = 0)
       /\ sem_available (registry_connections (loops p')) = MAX_REGISTRY_CONNECTIONS.
Proof.
  split; [reflexivity |]. exact (proj2 (proj2 (stopping_ends_connections sample_process sample_process_reached))).
Defined.
