(* ===== verification/Tunnels.v ===== *)
(** * The three tunnel families behind one registry ([src/registry.rs])

    [ensure_ssh_tunnel], [ensure_wireguard_tunnel] and [ensure_http3_tunnel]
    differ only in the provider they build; building one does no I/O, and only
    the HTTP/3 one can be refused. *)

From Stdlib Require Import ZArith Lia String Ascii.
From stdpp Require Import gmap strings numbers prelude.
From S2P Require Import Prelude Net Errors Provider Socks5 WgSpec WgProvider Http3Spec Http3 Ssh Registry.

Open Scope string_scope.
Open Scope Z_scope.

Inductive TunnelProvider : Type :=
| SshTunnelProvider (spec : TunnelSpec) (s : Ssh.SshState)
| WireGuardTunnelProvider (spec : WireGuardSpec) (s : WgProvider.WgState)
| Http3TunnelProvider (spec : Http3TunnelSpec) (s : Http3.Http3State).

Section Families.
Context {Authority : Type} (parse_authority : string -> option Authority) (tls : TlsLibrary).

Notation TunnelRegistry := (Registry.Registry TunnelProvider).

Definition ensure_ssh_tunnel (spec : TunnelSpec) (credentials : Socks5Credentials) (host : Host)
    (w : TunnelRegistry) : Result TunnelFront TunnelError * TunnelRegistry :=
  ensure_tunnel_with (ts_proxy_config_id spec) (ts_revision spec) credentials
    (fun _ => Ok (SshTunnelProvider spec Ssh.ssh_new)) host w.

Definition ensure_wireguard_tunnel (spec : WireGuardSpec) (credentials : Socks5Credentials) (host : Host)
    (w : TunnelRegistry) : Result TunnelFront TunnelError * TunnelRegistry :=
  ensure_tunnel_with (proxy_config_id spec) (revision spec) credentials
    (fun _ => Ok (WireGuardTunnelProvider spec WgProvider.wg_new)) host w.

(** [Http3TunnelProvider::new] trusts the public roots, which are not empty. *)
Definition ensure_http3_tunnel (spec : Http3TunnelSpec) (credentials : Socks5Credentials) (host : Host)
    (w : TunnelRegistry) : Result TunnelFront TunnelError * TunnelRegistry :=
  ensure_tunnel_with (h3_proxy_config_id spec) (h3_revision spec) credentials
    (fun _ => let? s := with_root_certificates parse_authority tls spec false in Ok (Http3TunnelProvider spec s)) host w.

(** ** Reachable registries *)

(** What the process does to its registry: it ensures tunnels of the three
    families, stops them, and their accept loops may return. *)
Inductive tunnels_step : TunnelRegistry -> TunnelRegistry -> Prop :=
| ts_ssh spec credentials host w : tunnels_step w (snd (ensure_ssh_tunnel spec credentials host w))
| ts_wireguard spec credentials host w : tunnels_step w (snd (ensure_wireguard_tunnel spec credentials host w))
| ts_http3 spec credentials host w : tunnels_step w (snd (ensure_http3_tunnel spec credentials host w))
| ts_stop id w : tunnels_step w (stop id w)
| ts_stop_revision id revision w : tunnels_step w (stop_revision id revision w)
| ts_stop_all w : tunnels_step w (Registry.stop_all w)
| ts_task_returns t w :
    tasks w !! t = Some Running ->
    tunnels_step w {| entries := entries w; tasks := <[t := Registry.Finished]> (tasks w); next_task := next_task w |}.

(** The specification a provider was built from: its id, its revision and
    whether that specification is acceptable. *)
Definition provider_id (p : TunnelProvider) : string :=
  match p with
  | SshTunnelProvider spec _ => ts_proxy_config_id spec
  | WireGuardTunnelProvider spec _ => proxy_config_id spec
  | Http3TunnelProvider spec _ => h3_proxy_config_id spec
  end.

Definition provider_revision (p : TunnelProvider) : string :=
  match p with
  | SshTunnelProvider spec _ => ts_revision spec
  | WireGuardTunnelProvider spec _ => revision spec
  | Http3TunnelProvider spec _ => h3_revision spec
  end.

(** No session, device or connection exists yet, and the configuration is one
    the provider accepts. *)
Definition fresh_provider (p : TunnelProvider) : Prop :=
  match p with
  | SshTunnelProvider _ s => s = Ssh.ssh_new
  | WireGuardTunnelProvider _ s => s = WgProvider.wg_new
  | Http3TunnelProvider spec s => http3_validate parse_authority spec = Ok tt /\ s = Http3.http3_new
  end.

Definition entries_match (w : TunnelRegistry) : Prop :=
  forall id e, entries w !! id = Some e ->
    provider_id (entry_provider e) = id /\ provider_revision (entry_provider e) = entry_revision e
    /\ fresh_provider (entry_provider e).

Lemma ensure_match id rev credentials make_provider host (w : TunnelRegistry) :
  (forall p, make_provider tt = Ok p -> provider_id p = id /\ provider_revision p = rev /\ fresh_provider p) ->
  entries_match w -> entries_match (snd (ensure_tunnel_with id rev credentials make_provider host w)).
Proof.
  intros Hp Hw. unfold ensure_tunnel_with. destruct (reusable w id rev); [done |].
  assert (Hs : entries_match (stop id w)).
  { intros id' e. rewrite stop_entries. intros [_ He]%lookup_delete_Some. by apply Hw. }
  unfold start_front. destruct (make_provider tt) as [p|] eqn:Em; [| done].
  repeat case_match; try done. intros id' e. simpl. intros [[<- <-] | [_ He]]%lookup_insert_Some; [by apply Hp | by apply Hs].
Qed.

Lemma with_root_certificates_ok spec roots_empty s :
  with_root_certificates parse_authority tls spec roots_empty = Ok s ->
  http3_validate parse_authority spec = Ok tt /\ s = http3_new.
Proof.
  unfold with_root_certificates. destruct (http3_validate parse_authority spec) as [[]|]; simpl; [| done].
  repeat case_match; try done. by intros [= <-].
Qed.

Lemma tunnels_step_match w w' : tunnels_step w w' -> entries_match w -> entries_match w'.
Proof.
  intros Hstep Hw. destruct Hstep as [spec c h w | spec c h w | spec c h w | id w | id rev w | w | t w Ht].
  - apply ensure_match; [| done]. by intros p [= <-].
  - apply ensure_match; [| done]. by intros p [= <-].
  - apply ensure_match; [| done]. intros p.
    destruct (with_root_certificates parse_authority tls spec false) as [s|] eqn:Es; [| done].
    intros [= <-]. split_and!; [done | done | by eapply with_root_certificates_ok].
  - intros id' e. rewrite stop_entries. intros [_ He]%lookup_delete_Some. by apply Hw.
  - unfold stop_revision. destruct (entries w !! id) as [e0|]; [| done]. case_match; [| done].
    intros id' e. simpl. intros [_ He]%lookup_delete_Some. by apply Hw.
  - intros id e. unfold Registry.stop_all. by rewrite (proj1 (foldl_stop_entries _ _)).
  - exact Hw.
Qed.

End Families.

(** ** Properties *)

(** a registry entry is what its id says.  Whatever tunnels of the three
    families are ensured and stopped, every entry's provider was built from a
    specification with that entry's id and revision and was registered in its
    initial state, with nothing opened; and an HTTP/3 front exists only for a
    specification that was found valid. *)
Theorem tunnel_entries_match {Authority} (parse_authority : string -> option Authority) (tls : TlsLibrary)
    (w : Registry.Registry TunnelProvider) id e :
  rtc (tunnels_step parse_authority tls) registry_new w -> entries w !! id = Some e ->
  provider_id (entry_provider e) = id /\ provider_revision (entry_provider e) = entry_revision e
  /\ fresh_provider parse_authority (entry_provider e).
Proof.
  intros Hr. revert id e. change (entries_match parse_authority w).
  eapply (rtc_preserves _ (entries_match parse_authority)); [apply (tunnels_step_match parse_authority tls) | exact Hr |].
  by intros id e.
Qed.

Definition sample_tls : TlsLibrary := {| has_tls13 := true; quic_usable := true |}.

Definition sample_tunnels : Registry.Registry TunnelProvider :=
  snd (ensure_http3_tunnel (fun host : string => Some host) sample_tls sample_http3
         {| Socks5.username := "u"; Socks5.password := "p" |} sample_host registry_new).

Lemma tunnel_entries_match_witness :
  match entries sample_tunnels !! "h3" with
  | Some e => provider_revision (entry_provider e) = "1"
  | None => False
  end.
Proof.
  destruct (entries sample_tunnels !! "h3") as [e|] eqn:E; [| vm_compute in E; discriminate E].
  destruct (tunnel_entries_match (fun host : string => Some host) sample_tls sample_tunnels "h3" e) as (_ & Hrev & _);
    [apply rtc_once, ts_http3 | exact E |].
  rewrite Hrev. vm_compute in E. injection E as <-. reflexivity.
Defined.
